(* ===== verification/_CoqProject ===== *)
-Q . S2P
Prelude.v
GpiodBase.v
GpiodUapi.v
GpiodInternal.v
GpiodSettings.v
GpiodLineConfig.v
GpiodLineConfigSpec.v
GpiodEncode.v
GpiodInfo.v
GpiodRequest.v
GpiodRequestSpec.v
GpiodChipSpec.v
GpiodDemo.v
GpiodProps.v
IgtList.v
IgtMap.v
IgtMapSpec.v
IgtMapIface.v
IgtHeap.v
IgtHeapSpec.v
IgtAllocator.v
IgtAllocatorSpec.v
IgtAllocatorSteps.v
IgtProps.v
LtpBoolExpr.v
LtpBoolExprSpec.v
LtpBoolExprParse.v
LtpBoolExprEval.v
LtpKver.v
LtpKverSpec.v
LtpKconfig.v
LtpKconfigRead.v
LtpKconfigVars.v
LtpKconfigSpec.v
LtpKconfigProps.v
LtpKverDist.v
LtpProps.v
Sparsebit.v
SparsebitOps.v
SparsebitTree.v
SparsebitSearch.v
SparsebitBits.v
SparsebitReduce.v
SparsebitRange.v
SparsebitCount.v
SparsebitCopy.v
SparsebitQuery.v
SparsebitRuns.v
SparsebitSpec.v
SparsebitProps.v
KvmUtil.v
KvmPageTable.v
KvmVirt.v
KvmRegions.v
KvmRegionAdd.v
KvmRegionEdit.v
KvmPages.v
KvmState.v
KvmTables.v
KvmWalk.v
KvmTranslate.v
KvmGap.v
KvmSpace.v
KvmCreate.v
KvmDemo.v
KvmProps.v
KutList.v
KutAlloc.v
KutBlocks.v
KutFree.v
KutArea.v
KutSplit.v
KutPool.v
KutPages.v
KutInit.v
KutClient.v
KutProps.v
KutPhys.v
KutMalloc.v
KutMallocProps.v
