(* ===== verification/Prelude.v ===== *)
(** * Verification of the C libraries below the kernel test suites

    The repository prioritises kernel tests; the C code it carries under
    [src/test_cases] is the test suites themselves and the libraries the tests
    are written with. This development models the libraries that keep state of
    their own and proves that they do what their interfaces promise. The parts,
    with the files that model them:

    - libgpiod, [libgpiod/lib]: the access library for GPIO character devices.
      Line settings ([line-settings.c]) are collected in a line configuration
      ([line-config.c]), which is translated into the structures of the kernel
      ABI ([uapi/gpio.h]) when lines are requested from a chip ([chip.c]);
      requests read and write values and events ([line-request.c],
      [edge-event.c]); information comes back from the kernel ([line-info.c],
      [info-event.c], [chip-info.c]).
      [GpiodBase] is the world of a call (errno, heap, descriptors, kernel),
      [GpiodUapi], [GpiodInternal], [GpiodSettings], [GpiodLineConfig],
      [GpiodInfo], [GpiodRequest] are the sources, in this order, one definition
      per function; [GpiodLineConfigSpec], [GpiodEncode], [GpiodRequestSpec] and
      [GpiodChipSpec] hold the abstract views and the lemmas, [GpiodDemo] a
      concrete kernel, [GpiodProps] the theorems.
    - igt-gpu-tools, [igt-gpu-tools/lib]: the circular list ([igt_list.c],
      [IgtList]), the hash map ([igt_map.c], [IgtMap], [IgtMapSpec]), and the
      simple address allocator ([intel_allocator_simple.c]): its heap of free
      ranges ([IgtHeap], [IgtHeapSpec]) and its objects and reservations
      ([IgtAllocator], [IgtAllocatorSpec], [IgtAllocatorSteps]). The allocator
      is proved against the class [MapImpl] of [IgtMapIface], which the hash map
      implements. [IgtProps] has the theorems.
    - LTP, [ltp/lib]: boolean expressions over kernel options
      ([tst_bool_expr.c], [LtpBoolExpr*]) and their client, the check of
      constraints on the kernel configuration ([tst_kconfig.c]: [LtpKconfig],
      with [LtpKconfigRead] on the reader of the file, [LtpKconfigVars] on the
      variables and [LtpKconfigSpec] on the whole); the comparison of kernel
      versions ([tst_kvercmp.c]: [LtpKver], [LtpKverSpec]) and of distribution
      kernels ([LtpKverDist], with [file_lines_scanf]). Theorems in [LtpProps]
      and [LtpKconfigProps].
    - KVM selftests, [selftests/kvm]: the sparse bit array
      ([lib/sparsebit.c]) and, built on it, the memory of a test VM
      ([lib/kvm_util.c]) and its page tables ([lib/x86_64/processor.c]).
      [Sparsebit] has the nodes and their tree, [SparsebitOps] the interface;
      [SparsebitTree], [SparsebitSearch], [SparsebitBits], [SparsebitReduce],
      [SparsebitRange], [SparsebitCount], [SparsebitCopy], [SparsebitQuery],
      [SparsebitRuns] the invariant and what each function does under it,
      [SparsebitSpec] the array as a set, [SparsebitProps] the theorems.
      [KvmUtil] has the regions of a VM, their two search trees and hash table,
      and the allocator of physical pages; [KvmPageTable] the 4-level tables;
      [KvmVirt] the allocator of virtual addresses and the creation of a VM.
      [KvmRegions], [KvmRegionAdd], [KvmRegionEdit] are about the indices of
      regions, [KvmPages] and [KvmState] about physical pages, [KvmTables],
      [KvmWalk], [KvmTranslate] about page tables, [KvmGap] about the search for
      unused addresses, [KvmSpace] puts these together, [KvmCreate] is the way
      from creation to the first table, [KvmDemo] a concrete VM, [KvmProps] the
      theorems.
    - kvm-unit-tests, [kvm-unit-tests/lib]: the page allocator
      ([alloc_page.c], with [list.h] and [bitops.h]), a buddy allocator over up
      to four areas: [KutList] has the lists in memory, [KutAlloc] one
      definition per function. [KutBlocks] is about tables of states, blocks and
      orders, [KutFree] and [KutArea] about the free lists and the invariant of
      an area, [KutSplit] about allocation in an area, [KutPool] and [KutPages]
      about the pool of areas, [KutInit] about initialisation, [KutClient] about histories
      of calls and refused calls, [KutProps] has the theorems. Before it is set
      up, memory comes from the early allocator ([alloc_phys.c], [KutPhys]);
      [malloc] and its family ([alloc.c], also [KutPhys]) go through a table of
      operations, whose contract is the class [Allocator] of [KutMalloc], which
      both allocators implement; theorems in [KutMallocProps].

    ** How C is modelled

    A C function is a function into [outcome]: [Done] for a normal return,
    [Abort] for a failed assertion ([assert], [igt_assert], [TEST_ASSERT]) and
    [Undef] for what C leaves undefined. Code with state is in the state monad
    [C W] over a record of the state it works on: the heap and kernel of
    libgpiod, the memory of list nodes, the nodes of a sparse bit array, the
    [kvm_vm] structure with a store of regions and the words of host memory, the
    descriptors of the areas with the list items at the starts of pages.
    Pointers are addresses into such a memory, so sharing and dangling pointers
    are visible. Integers are in [Z], wrapped at their width ([u8], [u32],
    [u64], [s32], [s64]) wherever C wraps. What the system answers (allocation
    failures, system calls, ioctls) is an argument or an oracle in the state.
    The three rules of this file, [wp] (returns), [awp] (returns or fails an
    assertion) and [cwp b] (fails an assertion only when [b] fails), are used to
    step through such code.

    ** What is a parameter

    The kernel behind libgpiod is the class of its entry points in [GpiodUapi];
    [random()] and the callbacks of the hash map are arguments; the environment
    and the files LTP reads are the records [kconfig_env] and [os_release];
    the red-black
    tree and the hash function of the kernel's [tools] directory, which is not
    in the repository, are the class [KernelTools] with the laws
    [KernelToolsLaws] (rebalancing keeps the in-order sequence, removal takes
    one node out of it); the answers of the host and of CPUID are the classes
    [Host] and [Cpu]. [mmap_fresh] is what [mmap] documents: a new mapping lies
    beside the others and its memory is zero. Each has a concrete instance in
    the witnesses.

    ** What the theorems show

    - libgpiod: the encoded request means what the configuration says, by the
      bit numbers of the ABI (debounce periods are cut to its 32 bits); adding,
      getting and resetting settings, reading and writing values and reading
      events meet their contracts on every error path, without a leak.
    - igt: the list, the map and the heap refine sequences, finite maps and sets
      of addresses; the allocator never hands out overlapping ranges. The map is
      proved for any answers of [calloc], heap and allocator for successful ones.
    - LTP: on the tokens of a character-level lexer the parser accepts exactly
      the grammar, evaluation is the value of the expression, the check of
      constraints decides whether they hold in a configuration file of short,
      newline-terminated lines with distinct variables, as long as the values of
      the variables asked for have no blank, and refuses malformed constraints;
      versions are ordered within their fields. [last_line_misread],
      [quoted_blank_cut], [assigned_n_differs] and [repeated_line_stops] are
      files the reader gets wrong.
    - Sparse bit array: every operation refines the operation on a set of 64-bit
      indices, the representation invariant holds after any history, searches
      and the merging loop end and are exact, counts wrap as documented, all as
      long as no [calloc] fails.
    - KVM memory: regions stay consistently indexed under addition and deletion,
      and guest and host addresses translate to each other and back; the
      allocators return the lowest free run and take exactly it; mapping a page
      adds exactly one mapping to the tables in memory; translation walks them
      correctly in the lower half; allocating virtual memory there maps fresh
      memory and keeps every other translation; a created VM satisfies the invariant.
      [gap_below_minimum], [high_half_translation] and [move_loses_region] are
      concrete runs where the code does not do what it means to.
    - kvm-unit-tests: on a sound pool allocation returns an aligned block of free
      pages and marks exactly it, freeing gives back exactly the block, other
      frees fail an assertion, initialisation covers the area and refuses
      overlaps, the blocks a client holds never overlap, and [malloc] hands out
      unused aligned memory over either allocator. Soundness relates the table
      of states (a partition into aligned blocks) to the free lists. What the
      theorems exclude is shown by runs: [reserved_page_handed_out] and
      [freed_page_not_reservable] (reservations, which is why histories have
      none), [freed_pages_not_merged], [freed_block_out_of_reach] (why NULL is
      only said to mean that no list that is searched has a block),
      [fresh_block_is_half] (why [FLAG_FRESH] is excluded),
      [huge_size_gets_a_page], [early_size_wraps], [log_overrun].

    ** Fuel

    Loops that are not structural carry fuel, and running out of it is [Undef],
    which the theorems exclude. Reading a file has one unit per character (a
    line has at least one), walks of a list or a tree one per node, probe loops one per slot of the table, insertion into the map three
    nested rehashes (each needs at most one more). Searches over a sparse bit
    array have 33 units per node: a run of set or cleared bits can start at one
    of 32 bits of the mask or after the bits that follow it. The search for
    physical pages and for virtual addresses skips at least one such start per
    pass; scanning and taking pages has one unit per page. Orders of blocks are
    below 52, so loops over orders end within 256 steps and merging within 64;
    covering an area takes at most one block per page.

    ** Not modelled

    - Tests, tools, language bindings and the scripts around them: clients of
      the libraries whose meaning is the kernel's.
    - libgpiod's C++ and Python bindings; [igt]'s allocator server, reloc and
      random allocators, GPU drivers and the runner; the release of the
      allocator's memory.
    - The rest of [ltp/lib], which wraps system calls, and the text that
      [dump_vars] prints.
    - Of the KVM library: vCPUs, registers, CPUID, interrupts, statistics, ELF
      loading, releasing and restarting a VM, other architectures, and the text
      output of the dumps.
    - The rest of kvm-unit-tests (the tests, which are bare-metal guests, and
      the libraries for devices and processors), the contents of pages other
      than list items, and the other selftests.
    - The generated tree-sitter parsers and the Python project. *)

From stdpp Require Export base tactics list numbers option gmap sets.
From Stdlib Require Export ZArith Lia.

#[global] Open Scope Z_scope.

(** ** Outcomes of C code

    [Done a] is a normal return, [Abort] a failed [assert]/[igt_assert], and
    [Undef] stands for an access C leaves undefined (an array index out of
    range, a dangling or NULL pointer, a double free, an unterminated string). *)
Inductive outcome (A : Type) : Type :=
| Done (a : A)
| Abort
| Undef.
Arguments Done {A} a.
Arguments Abort {A}.
Arguments Undef {A}.

#[global] Instance outcome_ret : MRet outcome := λ A a, Done a.
#[global] Instance outcome_bind : MBind outcome := λ A B k m,
  match m with Done a => k a | Abort => Abort | Undef => Undef end.

(** An array or pointer access that must be in range. *)
Definition access {A} (o : option A) : outcome A :=
  match o with Some a => Done a | None => Undef end.

(** [assert(b)]. *)
Definition assert_ (b : bool) : outcome unit := if b then Done tt else Abort.

(** ** Stateful C code

    [C W A] is a computation over the world [W] that returns an [A]. *)
Definition C (W A : Type) : Type := W → outcome (A * W).

#[global] Instance C_ret {W} : MRet (C W) := λ A a w, Done (a, w).
#[global] Instance C_bind {W} : MBind (C W) := λ A B k m w,
  match m w with
  | Done (a, w') => k a w'
  | Abort => Abort
  | Undef => Undef
  end.

Definition lift {W A} (o : outcome A) : C W A := λ w,
  match o with Done a => Done (a, w) | Abort => Abort | Undef => Undef end.
Definition get {W} : C W W := λ w, Done (w, w).
Definition put {W} (w' : W) : C W unit := λ _, Done (tt, w').
Definition modify {W} (f : W → W) : C W unit := λ w, Done (tt, f w).

Lemma C_bind_Done {W A B} (m : C W A) (k : A → C W B) w a w' :
  m w = Done (a, w') → (m ≫= k) w = k a w'.
Proof. unfold mbind, C_bind. by intros ->. Qed.

Lemma C_bind_inv {W A B} (m : C W A) (k : A → C W B) w r :
  (m ≫= k) w = Done r → ∃ a w', m w = Done (a, w') ∧ k a w' = Done r.
Proof. unfold mbind, C_bind. destruct (m w) as [[a w']| |]; naive_solver. Qed.

Lemma outcome_bind_inv {A B} (m : outcome A) (k : A → outcome B) r :
  (m ≫= k) = Done r → ∃ a, m = Done a ∧ k a = Done r.
Proof. destruct m; naive_solver. Qed.

(** ** Weakest preconditions (total correctness)

    [wp m Φ w]: run from [w], [m] returns normally and the result and the final
    world satisfy [Φ]; in particular it neither aborts nor meets undefined
    behaviour. [owp] is the same for stateless code. *)
Definition wp {W A} (m : C W A) (Φ : A → W → Prop) (w : W) : Prop :=
  match m w with Done (a, w') => Φ a w' | Abort | Undef => False end.
Definition owp {A} (m : outcome A) (Φ : A → Prop) : Prop :=
  match m with Done a => Φ a | Abort | Undef => False end.

Section wp.
Context {W : Type}.

Lemma wp_ret {A} (a : A) Φ (w : W) : Φ a w → wp (mret a) Φ w.
Proof. done. Qed.
Lemma wp_bind {A B} (m : C W A) (k : A → C W B) Φ w :
  wp m (λ a, wp (k a) Φ) w → wp (m ≫= k) Φ w.
Proof.
  unfold wp, mbind, C_bind. destruct (m w) as [[a w']| |]; done.
Qed.
Lemma wp_lift {A} (o : outcome A) Φ (w : W) : owp o (λ a, Φ a w) → wp (lift o) Φ w.
Proof. by destruct o. Qed.
Lemma wp_modify (f : W → W) Φ w : Φ tt (f w) → wp (modify f) Φ w.
Proof. done. Qed.
Lemma wp_mono {A} (m : C W A) (Φ Ψ : A → W → Prop) w :
  wp m Φ w → (∀ a w', Φ a w' → Ψ a w') → wp m Ψ w.
Proof. unfold wp. destruct (m w) as [[a w']| |]; naive_solver. Qed.
Lemma wp_inv {A} (m : C W A) Φ w :
  wp m Φ w → ∃ a w', m w = Done (a, w') ∧ Φ a w'.
Proof. unfold wp. destruct (m w) as [[a w']| |]; naive_solver. Qed.
Lemma wp_run {A} (m : C W A) Φ w a w' : wp m Φ w → m w = Done (a, w') → Φ a w'.
Proof. unfold wp. intros H E. by rewrite E in H. Qed.
(** A computation that determines its result and leaves the world alone. *)
Lemma wp_exact {A} (m : C W A) (a : A) w : wp m (λ r w', r = a ∧ w' = w) w → m w = Done (a, w).
Proof. intros (r & w' & -> & -> & ->)%wp_inv. done. Qed.
Lemma owp_ret {A} (a : A) Φ : Φ a → owp (mret a) Φ.
Proof. done. Qed.
Lemma owp_bind {A B} (m : outcome A) (k : A → outcome B) Φ :
  owp m (λ a, owp (k a) Φ) → owp (m ≫= k) Φ.
Proof. by destruct m. Qed.
Lemma owp_mono {A} (m : outcome A) (Φ Ψ : A → Prop) :
  owp m Φ → (∀ a, Φ a → Ψ a) → owp m Ψ.
Proof. destruct m; naive_solver. Qed.
Lemma owp_inv {A} (m : outcome A) Φ : owp m Φ → ∃ a, m = Done a ∧ Φ a.
Proof. destruct m; naive_solver. Qed.
Lemma wp_get Φ (w : W) : Φ w w → wp get Φ w.
Proof. done. Qed.
Lemma owp_assert (b : bool) (Φ : unit → Prop) : b = true → Φ tt → owp (assert_ b) Φ.
Proof. by intros ->. Qed.
Lemma owp_access {A} (o : option A) a Φ : o = Some a → Φ a → owp (access o) Φ.
Proof. by intros ->. Qed.

(** The same with failed assertions allowed: [awp m Φ w] says that [m] has no
    undefined behaviour from [w], and that [Φ] holds when it returns. *)
Definition awp {A} (m : C W A) (Φ : A → W → Prop) (w : W) : Prop :=
  match m w with Done (a, w') => Φ a w' | Abort => True | Undef => False end.
Lemma awp_ret {A} (a : A) (Φ : A → W → Prop) w : Φ a w → awp (mret a) Φ w.
Proof. done. Qed.
Lemma awp_bind {A B} (m : C W A) (k : A → C W B) Φ w :
  awp m (λ a, awp (k a) Φ) w → awp (m ≫= k) Φ w.
Proof. unfold awp, mbind, C_bind. destruct (m w) as [[a w']| |]; done. Qed.
Lemma awp_wp {A} (m : C W A) Φ w : wp m Φ w → awp m Φ w.
Proof. unfold wp, awp. destruct (m w) as [[a w']| |]; done. Qed.
Lemma awp_get Φ w : Φ w w → awp get Φ w.
Proof. done. Qed.
Lemma awp_modify (f : W → W) Φ w : Φ tt (f w) → awp (modify f) Φ w.
Proof. done. Qed.
Lemma awp_abort {A} (Φ : A → W → Prop) w : awp (lift Abort) Φ w.
Proof. done. Qed.
Lemma awp_lift {A} (o : outcome A) (Φ : A → W → Prop) w :
  o ≠ Undef → (∀ a, o = Done a → Φ a w) → awp (lift o) Φ w.
Proof. intros Hu HΦ. destruct o; [by apply HΦ|done|done]. Qed.
Lemma awp_assert (b : bool) (Φ : unit → W → Prop) w :
  (b = true → Φ tt w) → awp (lift (assert_ b)) Φ w.
Proof. destruct b; [intros HΦ; by apply HΦ|done]. Qed.
Lemma awp_mono {A} (m : C W A) (Φ Ψ : A → W → Prop) w :
  awp m Φ w → (∀ a w', Φ a w' → Ψ a w') → awp m Ψ w.
Proof. unfold awp. destruct (m w) as [[a w']| |]; naive_solver. Qed.
Lemma awp_inv {A} (m : C W A) Φ w :
  awp m Φ w → m w = Abort ∨ ∃ a w', m w = Done (a, w') ∧ Φ a w'.
Proof. unfold awp. destruct (m w) as [[a w']| |]; naive_solver. Qed.

(** Between the two: [cwp b m Φ w] allows a failed assertion only when the
    condition [b] fails. [cwp True] is [wp] and [cwp False] is [awp]. *)
Definition cwp (b : Prop) {A} (m : C W A) (Φ : A → W → Prop) (w : W) : Prop :=
  match m w with Done (a, w') => Φ a w' | Abort => ¬ b | Undef => False end.
Lemma cwp_ret b {A} (a : A) (Φ : A → W → Prop) w : Φ a w → cwp b (mret a) Φ w.
Proof. done. Qed.
Lemma cwp_bind b {A B} (m : C W A) (k : A → C W B) Φ w :
  cwp b m (λ a, cwp b (k a) Φ) w → cwp b (m ≫= k) Φ w.
Proof. unfold cwp, mbind, C_bind. destruct (m w) as [[a w']| |]; done. Qed.
Lemma cwp_wp b {A} (m : C W A) Φ w : wp m Φ w → cwp b m Φ w.
Proof. unfold wp, cwp. destruct (m w) as [[a w']| |]; done. Qed.
Lemma cwp_awp (b : Prop) {A} (m : C W A) Φ w : ¬ b → awp m Φ w → cwp b m Φ w.
Proof. unfold awp, cwp. destruct (m w) as [[a w']| |]; done. Qed.
Lemma cwp_get b Φ w : Φ w w → cwp b get Φ w.
Proof. done. Qed.
Lemma cwp_modify b (f : W → W) Φ w : Φ tt (f w) → cwp b (modify f) Φ w.
Proof. done. Qed.
Lemma cwp_assert b (c : bool) (Φ : unit → W → Prop) w :
  (c = false → ¬ b) → (c = true → Φ tt w) → cwp b (lift (assert_ c)) Φ w.
Proof. destruct c; unfold cwp; simpl; auto. Qed.
Lemma cwp_lift b {A} (o : outcome A) (Φ : A → W → Prop) w :
  o ≠ Undef → (o = Abort → ¬ b) → (∀ a, o = Done a → Φ a w) → cwp b (lift o) Φ w.
Proof. intros Hu Ha HΦ. destruct o; [by apply HΦ|by apply Ha|done]. Qed.
Lemma cwp_mono b {A} (m : C W A) (Φ Ψ : A → W → Prop) w :
  cwp b m Φ w → (∀ a w', Φ a w' → Ψ a w') → cwp b m Ψ w.
Proof. unfold cwp. destruct (m w) as [[a w']| |]; naive_solver. Qed.
Lemma cwp_total {A} (m : C W A) Φ w : cwp True m Φ w → ∃ a w', m w = Done (a, w') ∧ Φ a w'.
Proof. unfold cwp. destruct (m w) as [[a w']| |]; naive_solver. Qed.
Lemma cwp_inv b {A} (m : C W A) Φ w :
  cwp b m Φ w → (m w = Abort ∧ ¬ b) ∨ ∃ a w', m w = Done (a, w') ∧ Φ a w'.
Proof. unfold cwp. destruct (m w) as [[a w']| |]; naive_solver. Qed.

(** ** Loops

    [for_loop n i s body] is [for (; n > 0; i++, n--) body], over the loop
    state [s]; the body continues with [inl s'] or leaves the function with
    [inr r]. *)
Fixpoint for_loop {S R} (count i : nat) (s : S) (body : nat → S → C W (S + R)) :
    C W (S + R) :=
  match count with
  | O => mret (inl s)
  | Datatypes.S c =>
      r ← body i s;
      match r with
      | inl s' => for_loop c (Datatypes.S i) s' body
      | inr x => mret (inr x)
      end
  end.

(** The loop rule: an invariant indexed by the counter, and what holds when
    the body returns early. *)
Lemma wp_for {S R} (I : nat → S → W → Prop) (Φ : S + R → W → Prop) count i s body w :
  I i s w →
  (∀ k s w, (i ≤ k < i + count)%nat → I k s w →
    wp (body k s) (λ r w', match r with
                           | inl s' => I (Datatypes.S k) s' w'
                           | inr x => Φ (inr x) w'
                           end) w) →
  (∀ s w, I (i + count)%nat s w → Φ (inl s) w) →
  wp (for_loop count i s body) Φ w.
Proof.
  revert i s w. induction count as [|c IH]; intros i s w HI Hbody Hend; simpl.
  - apply wp_ret, Hend. by rewrite Nat.add_0_r.
  - apply wp_bind. eapply wp_mono; [apply Hbody; [lia|done]|].
    intros [s'|x] w' H'; [|by apply wp_ret].
    apply IH; [done| |].
    + intros k s'' w'' Hk. apply Hbody. lia.
    + intros s'' w'' HI'. apply Hend. by rewrite Nat.add_succ_r.
Qed.

(** A loop whose body never leaves the function. *)
Fixpoint for_each {S} (count i : nat) (s : S) (body : nat → S → C W S) : C W S :=
  match count with
  | O => mret s
  | Datatypes.S c => s' ← body i s; for_each c (Datatypes.S i) s' body
  end.

Lemma wp_each {S} (I : nat → S → W → Prop) (Φ : S → W → Prop) count i s body w :
  I i s w →
  (∀ k s w, (i ≤ k < i + count)%nat → I k s w →
    wp (body k s) (I (Datatypes.S k)) w) →
  (∀ s w, I (i + count)%nat s w → Φ s w) →
  wp (for_each count i s body) Φ w.
Proof.
  revert i s w. induction count as [|c IH]; intros i s w HI Hbody Hend; simpl.
  - apply wp_ret, Hend. by rewrite Nat.add_0_r.
  - apply wp_bind. eapply wp_mono; [apply Hbody; [lia|done]|].
    intros s' w' H'. apply IH; [done| |].
    + intros k s'' w'' Hk. apply Hbody. lia.
    + intros s'' w'' HI'. apply Hend. by rewrite Nat.add_succ_r.
Qed.
End wp.

(** Array writes must be in range. *)
Definition arr_set {A} (l : list A) (i : nat) (x : A) : outcome (list A) :=
  if decide (i < length l)%nat then Done (<[i:=x]> l) else Undef.

Lemma owp_arr_set {A} (l : list A) i x Φ :
  (i < length l)%nat → Φ (<[i:=x]> l) → owp (arr_set l i x) Φ.
Proof. intros. unfold arr_set. by rewrite decide_True. Qed.

(** Symbolic execution of monadic code, one construct at a time; [wp_hook] is
    where a component adds its own primitives. *)
Ltac wp_hook := fail.
Ltac wp_step :=
  cbn beta; first
    [ lazymatch goal with
      | |- wp (_ ≫= _) _ _ => apply wp_bind
      | |- wp (mret _) _ _ => apply wp_ret
      | |- wp (lift _) _ _ => apply wp_lift
      | |- wp (modify _) _ _ => apply wp_modify
      | |- owp (_ ≫= _) _ => apply owp_bind
      | |- owp (mret _) _ => apply owp_ret
      end
    | wp_hook ]; cbn beta.
Ltac wps := repeat wp_step.
Ltac awp_step :=
  cbn beta; lazymatch goal with
  | |- awp (_ ≫= _) _ _ => apply awp_bind
  | |- awp (mret _) _ _ => apply awp_ret
  | |- awp get _ _ => apply awp_get
  | |- awp (modify _) _ _ => apply awp_modify
  | |- awp (lift Abort) _ _ => apply awp_abort
  end; cbn beta.
Ltac awps := repeat awp_step.
Ltac cwp_step :=
  cbn beta; lazymatch goal with
  | |- cwp _ (_ ≫= _) _ _ => apply cwp_bind
  | |- cwp _ (mret _) _ _ => apply cwp_ret
  | |- cwp _ get _ _ => apply cwp_get
  | |- cwp _ (modify _) _ _ => apply cwp_modify
  end; cbn beta.
Ltac cwps := repeat cwp_step.

(** ** Machine integers, at their width *)
Definition wrap (w x : Z) : Z := x mod 2 ^ w.
Definition u8 : Z → Z := wrap 8.
Definition u32 : Z → Z := wrap 32.
Definition u64 : Z → Z := wrap 64.
(** Conversion to a signed type of [w] bits (two's complement). *)
Definition swrap (w x : Z) : Z := (x + 2 ^ (w - 1)) mod 2 ^ w - 2 ^ (w - 1).
Definition s32 : Z → Z := swrap 32.
Definition s64 : Z → Z := swrap 64.

Definition in_u32 (x : Z) : Prop := 0 ≤ x < 2 ^ 32.
Definition in_u64 (x : Z) : Prop := 0 ≤ x < 2 ^ 64.

Lemma wrap_range w x : 0 ≤ w → 0 ≤ wrap w x < 2 ^ w.
Proof. intros. apply Z.mod_pos_bound, Z.pow_pos_nonneg; lia. Qed.
Lemma u32_small x : in_u32 x → u32 x = x.
Proof. intros. by apply Z.mod_small. Qed.
Lemma u64_small x : in_u64 x → u64 x = x.
Proof. intros. by apply Z.mod_small. Qed.
Lemma u64_range x : in_u64 (u64 x).
Proof. by apply wrap_range. Qed.
Lemma u64_add a b : u64 (u64 a + b) = u64 (a + b).
Proof. apply Zplus_mod_idemp_l. Qed.
Lemma u64_sub a b : u64 (u64 a - b) = u64 (a - b).
Proof. apply Zminus_mod_idemp_l. Qed.
Lemma u64_sub_r a b : u64 (a - u64 b) = u64 (a - b).
Proof. apply Zminus_mod_idemp_r. Qed.
Lemma u64_s64 x : u64 (s64 x) = u64 x.
Proof.
  unfold u64, s64, wrap, swrap. change (2 ^ (64 - 1)) with 9223372036854775808.
  rewrite Zminus_mod_idemp_l. f_equal. lia.
Qed.

(** ** Bits

    Masks are described by their bits at natural positions. *)
Definition bit (m : Z) (j : nat) : bool := Z.testbit m (Z.of_nat j).

Lemma bit_0 j : bit 0 j = false.
Proof. apply Z.testbit_0_l. Qed.
Lemma bit_lor a b j : bit (Z.lor a b) j = bit a j || bit b j.
Proof. apply Z.lor_spec. Qed.
Lemma bit_shl1 i j : bit (Z.shiftl 1 (Z.of_nat i)) j = bool_decide (j = i).
Proof.
  unfold bit. rewrite Z.shiftl_1_l. case_bool_decide; subst.
  - apply Z.pow2_bits_true. lia.
  - apply Z.pow2_bits_false. lia.
Qed.
Lemma bit_ext a b : 0 ≤ a → 0 ≤ b → (∀ j, bit a j = bit b j) → a = b.
Proof.
  intros ? ? H. apply Z.bits_inj'. intros n Hn.
  specialize (H (Z.to_nat n)). unfold bit in H. by rewrite Z2Nat.id in H.
Qed.
Lemma land_shl1_eqb m i : negb (Z.land m (Z.shiftl 1 (Z.of_nat i)) =? 0) = bit m i.
Proof.
  unfold bit. destruct (Z.testbit m (Z.of_nat i)) eqn:E.
  - apply negb_true_iff, Z.eqb_neq. intros H.
    apply (f_equal (λ z, Z.testbit z (Z.of_nat i))) in H.
    rewrite Z.land_spec, E, Z.testbit_0_l, Z.shiftl_1_l, Z.pow2_bits_true in H; [done|lia].
  - apply negb_false_iff, Z.eqb_eq. apply Z.bits_inj'. intros n Hn.
    rewrite Z.land_spec, Z.testbit_0_l, Z.shiftl_1_l.
    destruct (decide (n = Z.of_nat i)) as [->|]; [by rewrite E|].
    rewrite Z.pow2_bits_false by done. apply andb_false_r.
Qed.

(** The mask of the positions below [n] that satisfy [P]. *)
Fixpoint mask_where (P : nat → bool) (n : nat) : Z :=
  match n with
  | O => 0
  | S k => if P k then Z.lor (mask_where P k) (Z.shiftl 1 (Z.of_nat k))
           else mask_where P k
  end.
Lemma bit_mask_where P n j : bit (mask_where P n) j = bool_decide (j < n)%nat && P j.
Proof.
  induction n as [|n IH]; cbn [mask_where].
  - rewrite bit_0. by rewrite bool_decide_false by lia.
  - destruct (decide (j = n)) as [->|Hne].
    + rewrite (bool_decide_true (n < S n)%nat) by lia.
      destruct (P n); rewrite ?bit_lor, ?bit_shl1, IH.
      * by rewrite (bool_decide_true (n = n)), orb_true_r.
      * by rewrite bool_decide_false by lia.
    + assert (bit (mask_where P n) j = bool_decide (j < S n)%nat && P j) as Hj.
      { rewrite IH. f_equal. apply bool_decide_ext. lia. }
      destruct (P n); rewrite ?bit_lor, ?bit_shl1, Hj; [|done].
      by rewrite (bool_decide_false (j = n)), orb_false_r.
Qed.
Lemma mask_where_nonneg P n : 0 ≤ mask_where P n.
Proof.
  induction n as [|n IH]; simpl; [done|]. destruct (P n); [|done].
  apply Z.lor_nonneg. split; [done|]. rewrite Z.shiftl_1_l. apply Z.pow_nonneg. lia.
Qed.

(** ** First occurrences

    [seen ks i j]: the element at [j] occurs before position [i];
    [firsts ks n]: the positions below [n] that hold an element for the first
    time. *)
Section firsts.
Context {A : Type} `{!EqDecision A}.
Implicit Types ks : list A.

Definition seen ks (i j : nat) : bool :=
  existsb (λ k, bool_decide (ks !! k = ks !! j)) (seq 0 i).
Definition firsts ks (n : nat) : list nat :=
  filter (λ k, seen ks k k = false) (seq 0 n).

Lemma seen_spec ks i j : seen ks i j = true ↔ ∃ k, (k < i)%nat ∧ ks !! k = ks !! j.
Proof.
  unfold seen. rewrite existsb_exists. split.
  - intros (k & Hk & He). apply in_seq in Hk. apply bool_decide_eq_true in He.
    exists k. split; [lia|done].
  - intros (k & Hk & He). exists k. rewrite in_seq, bool_decide_eq_true. split; [lia|done].
Qed.
Lemma seen_S ks i j : seen ks (S i) j = seen ks i j || bool_decide (ks !! i = ks !! j).
Proof.
  unfold seen. rewrite seq_S, existsb_app. simpl. by rewrite orb_false_r.
Qed.
Lemma firsts_S ks n :
  firsts ks (S n) = firsts ks n ++ (if seen ks n n then [] else [n]).
Proof.
  unfold firsts. rewrite seq_S, filter_app. f_equal. simpl.
  destruct (seen ks n n) eqn:E; [by rewrite filter_cons_False by congruence|].
  by rewrite filter_cons_True.
Qed.
Lemma elem_of_firsts ks n k : k ∈ firsts ks n ↔ (k < n)%nat ∧ seen ks k k = false.
Proof. unfold firsts. rewrite list_elem_of_filter, elem_of_seq. intuition lia. Qed.

Lemma seen_S_seen ks i j : seen ks i i = true → seen ks (S i) j = seen ks i j.
Proof.
  intros H. rewrite seen_S. case_bool_decide as E; [|by rewrite orb_false_r].
  rewrite orb_true_r. symmetry. apply seen_spec. apply seen_spec in H as (k & ? & ?).
  exists k. split; [done|congruence].
Qed.

(** Every element has a first occurrence, and only one. *)
Lemma first_exists ks i : ∃ k, (k ≤ i)%nat ∧ ks !! k = ks !! i ∧ seen ks k k = false.
Proof.
  induction i as [i IH] using lt_wf_ind.
  destruct (seen ks i i) eqn:E; [|by exists i].
  apply seen_spec in E as (k & Hk & He).
  destruct (IH k Hk) as (k' & ? & Hk' & ?). exists k'.
  split; [lia|]. split; [congruence|done].
Qed.
Lemma first_unique ks k k' :
  ks !! k = ks !! k' → seen ks k k = false → seen ks k' k' = false → k = k'.
Proof.
  intros He H H'. destruct (lt_eq_lt_dec k k') as [[Hlt|]|Hlt]; [|done|]; exfalso.
  - assert (seen ks k' k' = true) by (apply seen_spec; eauto). congruence.
  - assert (seen ks k k = true) by (apply seen_spec; eauto). congruence.
Qed.
Lemma firsts_prefix ks n m : (n ≤ m)%nat → ∃ l, firsts ks m = firsts ks n ++ l.
Proof.
  induction 1 as [|m Hm [l IH]]; [exists []; by rewrite app_nil_r|].
  rewrite firsts_S, IH. eexists. by rewrite <-app_assoc.
Qed.
End firsts.
