(* ===== verification/GpiodBase.v ===== *)
(** * libgpiod: the C environment and the data of the kernel ABI

    What the sources of [src/test_cases/libgpiod/lib] share: the world a call
    runs in (errno, the malloc'ed blocks, the closed descriptors, the kernel),
    C strings in fixed [char] arrays, the structures and flags of
    [uapi/gpio.h] and the enumerations of [gpiod.h]. *)

From Stdlib Require Import String Ascii.
From S2P Require Import Prelude.

(** The lemmas that close the routine side conditions of this library. *)
Create HintDb gpiod.

(** ** Error numbers *)
Definition ENOENT : Z := 2.
Definition EIO : Z := 5.
Definition E2BIG : Z := 7.
Definition ENOMEM : Z := 12.
Definition ENODEV : Z := 19.
Definition EINVAL : Z := 22.
Definition ENOTTY : Z := 25.
Definition ENOMSG : Z := 42.

(** ** The world

    [live] is the set of malloc'ed blocks; [oom] is the oracle that says which
    of the next allocations fail (none once it is exhausted); [opened] and
    [closed] log the descriptors obtained from the kernel and those passed to
    [close]. *)
Record world (K : Type) : Type := World {
  errno : Z;
  next : nat;
  live : gset nat;
  oom : list bool;
  opened : list Z;
  closed : list Z;
  kern : K
}.
Arguments World {K} _ _ _ _ _ _ _.
Arguments errno {K} _.
Arguments next {K} _.
Arguments live {K} _.
Arguments oom {K} _.
Arguments opened {K} _.
Arguments closed {K} _.
Arguments kern {K} _.

Section world_ops.
Context {K : Type}.

Definition with_errno (e : Z) (w : world K) : world K :=
  World e (next w) (live w) (oom w) (opened w) (closed w) (kern w).
Definition with_live (l : gset nat) (w : world K) : world K :=
  World (errno w) (next w) l (oom w) (opened w) (closed w) (kern w).
Definition with_kern (k : K) (w : world K) : world K :=
  World (errno w) (next w) (live w) (oom w) (opened w) (closed w) k.

Definition set_errno (e : Z) : C (world K) unit := modify (with_errno e).

(** A block owned by its one holder: its address and its contents. *)
Record box (A : Type) : Type := Box { addr : nat; contents : A }.

(** [malloc] followed by the initialisation of the block. *)
Definition malloc {A} (v : A) : C (world K) (option (box A)) := λ w,
  match oom w with
  | true :: o =>
      Done (None, World ENOMEM (next w) (live w) o (opened w) (closed w) (kern w))
  | o =>
      let a := next w in
      Done (Some (Box A a v),
            World (errno w) (S a) ({[a]} ∪ live w) (tail o) (opened w) (closed w) (kern w))
  end.

(** [free] of a block; freeing a block that is not live is undefined. *)
Definition free (a : nat) : C (world K) unit := λ w,
  if decide (a ∈ live w) then Done (tt, with_live (live w ∖ {[a]}) w) else Undef.

(** [free(NULL)] does nothing. *)
Definition free_opt (p : option nat) : C (world K) unit :=
  match p with Some a => free a | None => mret tt end.

Definition close (fd : Z) : C (world K) unit :=
  modify (λ w, World (errno w) (next w) (live w) (oom w) (opened w) (closed w ++ [fd]) (kern w)).
(** A descriptor the kernel has just created for the caller. *)
Definition log_open (fd : Z) : C (world K) unit :=
  modify (λ w, World (errno w) (next w) (live w) (oom w) (opened w ++ [fd]) (closed w) (kern w)).

(** Blocks handed out by [malloc] are new. *)
Definition fresh_ok (w : world K) : Prop := ∀ a, a ∈ live w → (a < next w)%nat.

(** Two worlds that differ in errno at most. *)
Definition same_but_errno (w w' : world K) : Prop := ∃ e, w' = with_errno e w.

Lemma wp_set_errno e (Φ : unit → world K → Prop) w :
  Φ tt (with_errno e w) → wp (set_errno e) Φ w.
Proof. done. Qed.

(** [malloc] fails and sets ENOMEM, or returns a block that was not live. *)
Lemma wp_malloc {A} (v : A) (Φ : option (box A) → world K → Prop) w :
  (∀ o, oom w = true :: o →
     Φ None (World ENOMEM (next w) (live w) o (opened w) (closed w) (kern w))) →
  (head (oom w) ≠ Some true →
     Φ (Some (Box A (next w) v))
       (World (errno w) (S (next w)) ({[next w]} ∪ live w) (tail (oom w))
          (opened w) (closed w) (kern w))) →
  wp (malloc v) Φ w.
Proof.
  intros Hf Hs. unfold wp, malloc.
  destruct (oom w) as [|[] o] eqn:E; [by apply Hs|by apply Hf|by apply Hs].
Qed.
Lemma wp_free a (Φ : unit → world K → Prop) w :
  a ∈ live w → Φ tt (with_live (live w ∖ {[a]}) w) → wp (free a) Φ w.
Proof. intros. unfold wp, free. by rewrite decide_True. Qed.
End world_ops.
Ltac wp_hook ::=
  lazymatch goal with
  | |- wp (set_errno _) _ _ => apply wp_set_errno
  | |- wp (close _) _ _ => unfold close; apply wp_modify
  | |- wp (log_open _) _ _ => unfold log_open; apply wp_modify
  end.
Arguments Box {A} _ _.
Arguments addr {A} _.
Arguments contents {A} _.

(** A system call returns a value, the errno it leaves on failure and what it
    wrote to the caller's buffer. *)
Record sysret (A : Type) : Type := Sys { ret : Z; err : Z; out : A }.
Arguments Sys {A} _ _ _.
Arguments ret {A} _.
Arguments err {A} _.
Arguments out {A} _.

(** Runs a system call: the C wrapper sets errno when the call fails. *)
Definition syscall {K A} (f : K → sysret A * K) : C (world K) (Z * A) := λ w,
  let '(r, k) := f (kern w) in
  let w' := with_kern k w in
  Done ((ret r, out r), if ret r <? 0 then with_errno (err r) w' else w').

Lemma wp_syscall {K A} (f : K → sysret A * K) (Φ : Z * A → world K → Prop) w :
  (∀ r k, f (kern w) = (r, k) →
     Φ (ret r, out r)
       (if ret r <? 0 then with_errno (err r) (with_kern k w) else with_kern k w)) →
  wp (syscall f) Φ w.
Proof. intros H. unfold wp, syscall. destruct (f (kern w)) as [r k] eqn:E. by apply H. Qed.

(** Two worlds with the same blocks and descriptors. *)
Record same_mem {K} (w w' : world K) : Prop := {
  sm_live : live w' = live w;
  sm_next : (next w ≤ next w')%nat;
  sm_opened : opened w' = opened w;
  sm_closed : closed w' = closed w
}.
#[global] Instance same_mem_preorder {K} : PreOrder (@same_mem K).
Proof.
  split; [by split|]. intros w1 w2 w3 [] []. split; [congruence|lia|congruence..].
Qed.
Lemma same_mem_errno {K} (w : world K) e : same_mem w (with_errno e w).
Proof. by split. Qed.
Lemma same_mem_syscall {K} (w : world K) (b : bool) e k :
  same_mem w (if b then with_errno e (with_kern k w) else with_kern k w).
Proof. destruct b; by split. Qed.
Lemma same_mem_fresh {K} (w w' : world K) : same_mem w w' → fresh_ok w → fresh_ok w'.
Proof. intros [El En _ _] Hf a Ha. rewrite El in Ha. specialize (Hf a Ha). lia. Qed.

(** [w'] has one block more than [w]. *)
Record allocated {K} (w : world K) (a : nat) (w' : world K) : Prop := {
  al_new : a ∉ live w;
  al_live : live w' = {[a]} ∪ live w;
  al_next : (a < next w')%nat;
  al_mono : (next w ≤ next w')%nat;
  al_opened : opened w' = opened w;
  al_closed : closed w' = closed w
}.
Lemma allocated_fresh {K} (w : world K) a w' : allocated w a w' → fresh_ok w → fresh_ok w'.
Proof.
  intros [? El ? ? ? ?] Hf b Hb. rewrite El, elem_of_union, elem_of_singleton in Hb.
  destruct Hb as [->|Hb]; [done|]. specialize (Hf b Hb). lia.
Qed.
Lemma allocated_after {K} (w w1 : world K) a w2 :
  same_mem w w1 → allocated w1 a w2 → allocated w a w2.
Proof. intros [El En Eo Ec] []. split; [by rewrite <-El|congruence|done|lia|congruence..]. Qed.

(** [malloc] in a world whose blocks are below [next]. *)
Lemma wp_malloc_frame {K A} (v : A) (w : world K) (Φ : option (box A) → world K → Prop) :
  fresh_ok w →
  (∀ w', same_mem w w' → errno w' = ENOMEM → head (oom w) = Some true →
     kern w' = kern w → Φ None w') →
  (∀ b w', contents b = v → allocated w (addr b) w' → errno w' = errno w →
     kern w' = kern w → Φ (Some b) w') →
  wp (malloc v) Φ w.
Proof.
  intros Hf Hn Hs. apply wp_malloc.
  - intros o Ho. apply Hn; [by split|done|by rewrite Ho|done].
  - intros _. apply Hs; [done| |done|done]. split; simpl; try done; [|lia..].
    intros ?%Hf. lia.
Qed.

(** Freeing the new block gives the old blocks back. *)
Lemma wp_free_frame {K} (w w1 w2 : world K) a (Φ : unit → world K → Prop) :
  allocated w a w1 → same_mem w1 w2 →
  (∀ w', same_mem w w' → errno w' = errno w2 → kern w' = kern w2 → Φ tt w') →
  wp (free a) Φ w2.
Proof.
  intros [Ha El En Em Eo Ec] [El2 En2 Eo2 Ec2] HΦ. apply wp_free; [set_solver|].
  apply HΦ; [|done..]. split; simpl; [|lia|congruence..].
  rewrite El2, El. set_solver.
Qed.
#[export] Hint Resolve same_mem_errno same_mem_syscall same_mem_fresh allocated_fresh : gpiod.

(** ** C strings

    A C string is the list of its characters, without the terminating NUL; a
    [char] array of the ABI is a list of fixed length, possibly unterminated. *)
Definition char_code (a : ascii) : Z := Z.of_nat (nat_of_ascii a).
Definition str (s : string) : list Z := char_code <$> list_ascii_of_string s.

Fixpoint cstr (arr : list Z) : option (list Z) :=
  match arr with
  | [] => None
  | c :: rest => if c =? 0 then Some [] else (c ::.) <$> cstr rest
  end.

(** [strncpy(dst, src, n)] where [src] is an array: copies up to the first NUL
    or [n] characters and pads with NULs; reading past [src] is undefined. *)
Fixpoint strncpy (n : nat) (dst src : list Z) : option (list Z) :=
  match n, dst, src with
  | O, _, _ => Some dst
  | S _, [], _ => None
  | S _, _, [] => None
  | S n', _ :: dst', c :: src' =>
      if c =? 0 then
        (if decide (S n' ≤ length dst)%nat
         then Some (replicate (S n') 0 ++ drop (S n') dst) else None)
      else (c ::.) <$> strncpy n' dst' src'
  end.

(** The array view of a C string: its characters and the NUL. *)
Definition with_nul (s : list Z) : list Z := s ++ [0].

(** [strcpy(dst, src)]. *)
Definition strcpy (dst src : list Z) : option (list Z) :=
  s ← cstr src;
  if decide (length s < length dst)%nat
  then Some (with_nul s ++ drop (S (length s)) dst) else None.

(** [strcmp(s, arr) == 0] for a C string and an array; the comparison stops at
    the first difference and is undefined when it runs past the array. *)
Fixpoint streq (s arr : list Z) : option bool :=
  match arr with
  | [] => None
  | c :: arr' =>
      match s with
      | [] => Some (c =? 0)
      | x :: s' => if x =? c then streq s' arr' else Some false
      end
  end.
