(* ===== verification/GpiodUapi.v ===== *)
(** * libgpiod: the kernel ABI ([uapi/gpio.h]) and the public enumerations

    The structures passed to the kernel, their flag constants, the
    enumerations of [gpiod.h], and the kernel's entry points as the operations
    of a class: the kernel is not part of the library, so every definition
    that enters it takes an instance of [Kernel]. *)

From S2P Require Import Prelude GpiodBase.

Definition GPIO_MAX_NAME_SIZE : nat := 32.
Definition GPIO_V2_LINES_MAX : nat := 64.
Definition GPIO_V2_LINE_NUM_ATTRS_MAX : nat := 10.

(** ** Flags *)
Definition BITULL (n : Z) : Z := Z.shiftl 1 n.
Definition GPIO_V2_LINE_FLAG_USED : Z := BITULL 0.
Definition GPIO_V2_LINE_FLAG_ACTIVE_LOW : Z := BITULL 1.
Definition GPIO_V2_LINE_FLAG_INPUT : Z := BITULL 2.
Definition GPIO_V2_LINE_FLAG_OUTPUT : Z := BITULL 3.
Definition GPIO_V2_LINE_FLAG_EDGE_RISING : Z := BITULL 4.
Definition GPIO_V2_LINE_FLAG_EDGE_FALLING : Z := BITULL 5.
Definition GPIO_V2_LINE_FLAG_OPEN_DRAIN : Z := BITULL 6.
Definition GPIO_V2_LINE_FLAG_OPEN_SOURCE : Z := BITULL 7.
Definition GPIO_V2_LINE_FLAG_BIAS_PULL_UP : Z := BITULL 8.
Definition GPIO_V2_LINE_FLAG_BIAS_PULL_DOWN : Z := BITULL 9.
Definition GPIO_V2_LINE_FLAG_BIAS_DISABLED : Z := BITULL 10.
Definition GPIO_V2_LINE_FLAG_EVENT_CLOCK_REALTIME : Z := BITULL 11.
Definition GPIO_V2_LINE_FLAG_EVENT_CLOCK_HTE : Z := BITULL 12.

Definition GPIO_V2_LINE_ATTR_ID_FLAGS : Z := 1.
Definition GPIO_V2_LINE_ATTR_ID_OUTPUT_VALUES : Z := 2.
Definition GPIO_V2_LINE_ATTR_ID_DEBOUNCE : Z := 3.

Definition GPIOLINE_CHANGED_REQUESTED : Z := 1.
Definition GPIOLINE_CHANGED_RELEASED : Z := 2.
Definition GPIOLINE_CHANGED_CONFIG : Z := 3.

Definition GPIO_V2_LINE_EVENT_RISING_EDGE : Z := 1.
Definition GPIO_V2_LINE_EVENT_FALLING_EDGE : Z := 2.

(** ** Structures *)
Record gpiochip_info : Type := ChipInfo {
  ci_name : list Z;
  ci_label : list Z;
  ci_lines : Z
}.

Record gpio_v2_line_values : Type := LineValues {
  lv_bits : Z;
  lv_mask : Z
}.

(** The union of an attribute is its eight bytes, read as a little-endian
    64-bit integer; [flags] and [values] are the whole of it and
    [debounce_period_us] its first four bytes. *)
Record gpio_v2_line_attribute : Type := LineAttr {
  attr_id : Z;
  attr_union : Z
}.
Definition attr_debounce_period_us (a : gpio_v2_line_attribute) : Z :=
  u32 (attr_union a).
Definition set_attr_debounce (a : gpio_v2_line_attribute) (p : Z) :
    gpio_v2_line_attribute :=
  LineAttr (attr_id a) (Z.lor (Z.shiftl (Z.shiftr (attr_union a) 32) 32) (u32 p)).

Record gpio_v2_line_config_attribute : Type := CfgAttr {
  ca_attr : gpio_v2_line_attribute;
  ca_mask : Z
}.

Record gpio_v2_line_config : Type := UapiConfig {
  uc_flags : Z;
  uc_num_attrs : Z;
  uc_attrs : list gpio_v2_line_config_attribute
}.

Record gpio_v2_line_request : Type := UapiRequest {
  ur_offsets : list Z;
  ur_consumer : list Z;
  ur_config : gpio_v2_line_config;
  ur_num_lines : Z;
  ur_event_buffer_size : Z;
  ur_fd : Z
}.

Record gpio_v2_line_info : Type := UapiInfo {
  ui_name : list Z;
  ui_consumer : list Z;
  ui_offset : Z;
  ui_num_attrs : Z;
  ui_flags : Z;
  ui_attrs : list gpio_v2_line_attribute
}.

Record gpio_v2_line_info_changed : Type := UapiInfoChanged {
  uic_info : gpio_v2_line_info;
  uic_timestamp_ns : Z;
  uic_event_type : Z
}.

Record gpio_v2_line_event : Type := UapiEvent {
  ue_timestamp_ns : Z;
  ue_id : Z;
  ue_offset : Z;
  ue_seqno : Z;
  ue_line_seqno : Z
}.

(** The structures after [memset(..., 0, ...)]. *)
Definition zero_name : list Z := replicate GPIO_MAX_NAME_SIZE 0.
Definition zero_attr : gpio_v2_line_attribute := LineAttr 0 0.
Definition zero_config : gpio_v2_line_config :=
  UapiConfig 0 0 (replicate GPIO_V2_LINE_NUM_ATTRS_MAX (CfgAttr zero_attr 0)).
Definition zero_request : gpio_v2_line_request :=
  UapiRequest (replicate GPIO_V2_LINES_MAX 0) zero_name zero_config 0 0 0.
Definition zero_chip_info : gpiochip_info := ChipInfo zero_name zero_name 0.
Definition zero_info : gpio_v2_line_info :=
  UapiInfo zero_name zero_name 0 0 0 (replicate GPIO_V2_LINE_NUM_ATTRS_MAX zero_attr).
Definition zero_event : gpio_v2_line_event := UapiEvent 0 0 0 0 0.
Definition zero_info_changed : gpio_v2_line_info_changed :=
  UapiInfoChanged zero_info 0 0.

Definition sizeof_gpio_v2_line_event : Z := 48.
Definition sizeof_gpio_v2_line_info_changed : Z := 288.

(** ** The enumerations of gpiod.h

    A C caller may pass any integer where the library declares an enumeration:
    [*_of_int] is the conversion the [switch] statements make, [None] standing
    for their [default] case. *)
Inductive gpiod_line_value : Set := VALUE_ERROR | VALUE_INACTIVE | VALUE_ACTIVE.
Inductive gpiod_line_direction : Set := DIRECTION_AS_IS | DIRECTION_INPUT | DIRECTION_OUTPUT.
Inductive gpiod_line_edge : Set := EDGE_NONE | EDGE_RISING | EDGE_FALLING | EDGE_BOTH.
Inductive gpiod_line_bias : Set :=
  BIAS_AS_IS | BIAS_UNKNOWN | BIAS_DISABLED | BIAS_PULL_UP | BIAS_PULL_DOWN.
Inductive gpiod_line_drive : Set := DRIVE_PUSH_PULL | DRIVE_OPEN_DRAIN | DRIVE_OPEN_SOURCE.
Inductive gpiod_line_clock : Set := CLOCK_MONOTONIC | CLOCK_REALTIME | CLOCK_HTE.

#[global] Instance gpiod_line_value_eq_dec : EqDecision gpiod_line_value.
Proof. solve_decision. Defined.
#[global] Instance gpiod_line_direction_eq_dec : EqDecision gpiod_line_direction.
Proof. solve_decision. Defined.
#[global] Instance gpiod_line_edge_eq_dec : EqDecision gpiod_line_edge.
Proof. solve_decision. Defined.
#[global] Instance gpiod_line_bias_eq_dec : EqDecision gpiod_line_bias.
Proof. solve_decision. Defined.
#[global] Instance gpiod_line_drive_eq_dec : EqDecision gpiod_line_drive.
Proof. solve_decision. Defined.
#[global] Instance gpiod_line_clock_eq_dec : EqDecision gpiod_line_clock.
Proof. solve_decision. Defined.

Definition line_value_of_int (z : Z) : option gpiod_line_value :=
  if z =? -1 then Some VALUE_ERROR
  else if z =? 0 then Some VALUE_INACTIVE
  else if z =? 1 then Some VALUE_ACTIVE else None.
Definition line_value_to_int (v : gpiod_line_value) : Z :=
  match v with VALUE_ERROR => -1 | VALUE_INACTIVE => 0 | VALUE_ACTIVE => 1 end.
Definition direction_of_int (z : Z) : option gpiod_line_direction :=
  if z =? 1 then Some DIRECTION_AS_IS
  else if z =? 2 then Some DIRECTION_INPUT
  else if z =? 3 then Some DIRECTION_OUTPUT else None.
Definition edge_of_int (z : Z) : option gpiod_line_edge :=
  if z =? 1 then Some EDGE_NONE
  else if z =? 2 then Some EDGE_RISING
  else if z =? 3 then Some EDGE_FALLING
  else if z =? 4 then Some EDGE_BOTH else None.
Definition bias_of_int (z : Z) : option gpiod_line_bias :=
  if z =? 1 then Some BIAS_AS_IS
  else if z =? 2 then Some BIAS_UNKNOWN
  else if z =? 3 then Some BIAS_DISABLED
  else if z =? 4 then Some BIAS_PULL_UP
  else if z =? 5 then Some BIAS_PULL_DOWN else None.
Definition drive_of_int (z : Z) : option gpiod_line_drive :=
  if z =? 1 then Some DRIVE_PUSH_PULL
  else if z =? 2 then Some DRIVE_OPEN_DRAIN
  else if z =? 3 then Some DRIVE_OPEN_SOURCE else None.
Definition clock_of_int (z : Z) : option gpiod_line_clock :=
  if z =? 1 then Some CLOCK_MONOTONIC
  else if z =? 2 then Some CLOCK_REALTIME
  else if z =? 3 then Some CLOCK_HTE else None.

Definition GPIOD_LINE_VALUE_ERROR : Z := -1.
Definition GPIOD_LINE_VALUE_INACTIVE : Z := 0.
Definition GPIOD_LINE_VALUE_ACTIVE : Z := 1.
Definition GPIOD_EDGE_EVENT_RISING_EDGE : Z := 1.
Definition GPIOD_EDGE_EVENT_FALLING_EDGE : Z := 2.

Inductive gpiod_info_event_type : Set :=
  INFO_EVENT_LINE_REQUESTED | INFO_EVENT_LINE_RELEASED | INFO_EVENT_LINE_CONFIG_CHANGED.

(** ** The kernel

    [stat] carries what the library looks at: the mode and the device number.
    Every operation is a state transformer of the kernel's state [K] and may
    fail with any errno. [sys_read_*] return the number of bytes read and the
    records the buffer then holds. *)
Record stat_buf : Type := Stat { st_mode : Z; st_rdev : Z }.
Record timespec : Type := Timespec { tv_sec : Z; tv_nsec : Z }.

Class Kernel (K : Type) : Type := {
  sys_lstat : list Z → K → sysret stat_buf * K;
  sys_stat : list Z → K → sysret stat_buf * K;
  sys_realpath : list Z → K → sysret (list Z) * K;
  sys_open : list Z → K → sysret unit * K;
  sys_ppoll : Z → option timespec → K → sysret unit * K;
  sys_read_events : Z → Z → list gpio_v2_line_event → K →
    sysret (list gpio_v2_line_event) * K;
  sys_read_info_event : Z → gpio_v2_line_info_changed → K →
    sysret gpio_v2_line_info_changed * K;
  ioctl_chipinfo : Z → gpiochip_info → K → sysret gpiochip_info * K;
  ioctl_lineinfo : Z → gpio_v2_line_info → K → sysret gpio_v2_line_info * K;
  ioctl_lineinfo_watch : Z → gpio_v2_line_info → K → sysret gpio_v2_line_info * K;
  ioctl_lineinfo_unwatch : Z → Z → K → sysret unit * K;
  ioctl_get_line : Z → gpio_v2_line_request → K → sysret gpio_v2_line_request * K;
  ioctl_get_values : Z → gpio_v2_line_values → K → sysret gpio_v2_line_values * K;
  ioctl_set_values : Z → gpio_v2_line_values → K → sysret gpio_v2_line_values * K;
  ioctl_set_config : Z → gpio_v2_line_config → K → sysret gpio_v2_line_config * K
}.
