(* ===== verification/GpiodInternal.v ===== *)
(** * libgpiod: internal helpers ([lib/internal.c], [lib/misc.c])

    The 64-bit line masks, the validation of output values, polling a
    descriptor and the check that a path is a GPIO character device. *)

From Stdlib Require Import String.
From S2P Require Import Prelude GpiodBase GpiodUapi.

(** ** Line masks *)

(** [1ULL << nr], defined for shift counts below the width only. *)
Definition shl1 (nr : Z) : outcome Z :=
  if (0 <=? nr) && (nr <? 64) then Done (Z.shiftl 1 nr) else Undef.

Definition gpiod_line_mask_zero : Z := 0.

Definition gpiod_line_mask_test_bit (mask nr : Z) : outcome bool :=
  b ← shl1 nr; mret (negb (Z.land mask b =? 0)).

Definition gpiod_line_mask_set_bit (mask nr : Z) : outcome Z :=
  b ← shl1 nr; mret (Z.lor mask b).

Definition gpiod_line_mask_assign_bit (mask nr : Z) (value : bool) : outcome Z :=
  if value then gpiod_line_mask_set_bit mask nr
  else b ← shl1 nr; mret (Z.land mask (Z.lxor b (Z.ones 64))).

Lemma shl1_ok i : (i < 64)%nat → shl1 (Z.of_nat i) = Done (Z.shiftl 1 (Z.of_nat i)).
Proof.
  intros. unfold shl1. rewrite (proj2 (Z.leb_le _ _)), (proj2 (Z.ltb_lt _ _)) by lia. done.
Qed.
Lemma owp_test_bit mask i Φ :
  (i < 64)%nat → Φ (bit mask i) → owp (gpiod_line_mask_test_bit mask (Z.of_nat i)) Φ.
Proof.
  intros Hi H. unfold gpiod_line_mask_test_bit. rewrite (shl1_ok i Hi). simpl.
  by rewrite land_shl1_eqb.
Qed.
Lemma owp_set_bit mask i Φ :
  (i < 64)%nat →
  (∀ mask', (0 ≤ mask → 0 ≤ mask') →
     (∀ j, bit mask' j = bit mask j || bool_decide (j = i)) → Φ mask') →
  owp (gpiod_line_mask_set_bit mask (Z.of_nat i)) Φ.
Proof.
  intros Hi H. unfold gpiod_line_mask_set_bit. rewrite (shl1_ok i Hi). apply H.
  - intros. apply Z.lor_nonneg. split; [done|]. rewrite Z.shiftl_1_l. apply Z.pow_nonneg. lia.
  - intros j. by rewrite bit_lor, bit_shl1.
Qed.
Lemma owp_assign_bit mask i v Φ :
  (i < 64)%nat →
  (∀ mask', (0 ≤ mask → 0 ≤ mask') →
     (∀ j, (j < 64)%nat → bit mask' j = if decide (j = i) then v else bit mask j) →
     Φ mask') →
  owp (gpiod_line_mask_assign_bit mask (Z.of_nat i) v) Φ.
Proof.
  intros Hi H. unfold gpiod_line_mask_assign_bit. destruct v.
  - apply owp_set_bit; [done|]. intros m' Hp Hb. apply H; [done|].
    intros j _. rewrite Hb. destruct (decide (j = i)); subst.
    + by rewrite bool_decide_true, orb_true_r.
    + by rewrite bool_decide_false, orb_false_r.
  - rewrite (shl1_ok i Hi). apply H; [intros; apply Z.land_nonneg; auto|].
    intros j Hj. pose proof (bit_shl1 i j) as Hb. unfold bit in *.
    rewrite Z.land_spec, Z.lxor_spec, Hb, Z.ones_spec_low by lia.
    destruct (decide (j = i)); subst.
    + by rewrite bool_decide_true, andb_false_r.
    + by rewrite bool_decide_false, andb_true_r.
Qed.

(** ** Output values: the value stored and the return code *)
Definition gpiod_set_output_value {K} (in_ : Z) : C (world K) (Z * gpiod_line_value) :=
  match line_value_of_int in_ with
  | Some VALUE_INACTIVE => mret (0, VALUE_INACTIVE)
  | Some VALUE_ACTIVE => mret (0, VALUE_ACTIVE)
  | _ => set_errno EINVAL;; mret (-1, VALUE_INACTIVE)
  end.

Section kernel.
Context {K : Type} `{!Kernel K}.

(** ** Polling *)
Definition poll_timeout (timeout_ns : Z) : option timespec :=
  if timeout_ns <? 0 then None
  else Some (Timespec (timeout_ns / 1000000000) (timeout_ns mod 1000000000)).

Definition gpiod_poll_fd (fd timeout_ns : Z) : C (world K) Z :=
  '(r, _) ← syscall (sys_ppoll fd (poll_timeout timeout_ns));
  if r <? 0 then mret (-1) else if r =? 0 then mret 0 else mret 1.

(** ** The device check *)
Definition S_IFMT : Z := 61440.
Definition S_ISLNK (m : Z) : bool := Z.land m S_IFMT =? 40960.
Definition S_ISCHR (m : Z) : bool := Z.land m S_IFMT =? 8192.
(** glibc's encoding of device numbers. *)
Definition major (dev : Z) : Z :=
  Z.lor (Z.land (Z.shiftr dev 8) 4095) (Z.land (Z.shiftr dev 32) (2 ^ 32 - 4096)).
Definition minor (dev : Z) : Z :=
  Z.lor (Z.land dev 255) (Z.land (Z.shiftr dev 12) (2 ^ 32 - 256)).

(** [%u]: the decimal digits of a 32-bit number (at most ten). *)
Fixpoint digits (fuel : nat) (n : Z) (acc : list Z) : list Z :=
  match fuel with
  | O => acc
  | S f => let acc' := (48 + n mod 10) :: acc in
           if n <? 10 then acc' else digits f (n / 10) acc'
  end.
Definition fmt_u (n : Z) : list Z := digits 10 n [].

(** [realpath(path, NULL)] and [strdup(path)] return a new block. *)
Definition realpath (path : list Z) : C (world K) (option (box (list Z))) :=
  '(r, p) ← syscall (sys_realpath path);
  if r <? 0 then mret None else malloc p.
Definition strdup (s : list Z) : C (world K) (option (box (list Z))) := malloc s.

Definition devpath (rdev : Z) : list Z :=
  str "/sys/dev/char/" ++ fmt_u (major rdev) ++ str ":" ++ fmt_u (minor rdev) ++
  str "/subsystem".

(** From the resolved name on: [stat], the character-device test, the
    subsystem link, up to the label [out_free_realname]. *)
Definition check_realname (realname : list Z) : C (world K) bool :=
  '(rv, st) ← syscall (sys_stat realname);
  if negb (rv =? 0) then mret false else
  if negb (S_ISCHR (st_mode st)) then set_errno ENOTTY;; mret false else
  sysfsp ← realpath (devpath (st_rdev st));
  match sysfsp with
  | None => mret false
  | Some sysfsp =>
      set_errno 0;;
      r ← (if bool_decide (contents sysfsp = str "/sys/bus/gpio") then mret true
           else set_errno ENODEV;; mret false);
      free (addr sysfsp);; mret r
  end.

Definition gpiod_check_gpiochip_device (path : option (list Z)) (keep_errno : bool) :
    C (world K) bool :=
  r ← match path with
      | None => set_errno EINVAL;; mret false
      | Some path =>
          '(rv, st) ← syscall (sys_lstat path);
          if negb (rv =? 0) then mret false else
          realname ← (if S_ISLNK (st_mode st) then realpath path else strdup path);
          match realname with
          | None => mret false
          | Some realname =>
              r ← check_realname (contents realname);
              free (addr realname);; mret r
          end
      end;
  (if keep_errno then mret tt else set_errno 0);; mret r.

Definition gpiod_is_gpiochip_device (path : option (list Z)) : C (world K) bool :=
  gpiod_check_gpiochip_device path false.
End kernel.
