(* ===== verification/GpiodSettings.v ===== *)
(** * libgpiod: line settings ([lib/line-settings.c])

    The settings object, its setters (which validate their argument and fall
    back to the default on an invalid one) and getters. *)

From S2P Require Import Prelude GpiodBase GpiodUapi GpiodInternal.

Record gpiod_line_settings : Type := Settings {
  direction : gpiod_line_direction;
  edge_detection : gpiod_line_edge;
  drive : gpiod_line_drive;
  bias : gpiod_line_bias;
  active_low : bool;
  event_clock : gpiod_line_clock;
  debounce_period_us : Z;          (* a C [long] *)
  output_value : gpiod_line_value
}.

#[global] Instance gpiod_line_settings_eq_dec : EqDecision gpiod_line_settings.
Proof. solve_decision. Defined.

(** [gpiod_line_settings_reset] assigns every field. *)
Definition gpiod_line_settings_reset : gpiod_line_settings :=
  Settings DIRECTION_AS_IS EDGE_NONE DRIVE_PUSH_PULL BIAS_AS_IS false
    CLOCK_MONOTONIC 0 VALUE_INACTIVE.

Section settings.
Context {K : Type}.
Implicit Types s : gpiod_line_settings.

Definition gpiod_line_settings_new : C (world K) (option (box gpiod_line_settings)) :=
  malloc gpiod_line_settings_reset.
Definition gpiod_line_settings_free (s : box gpiod_line_settings) : C (world K) unit :=
  free (addr s).
Definition gpiod_line_settings_copy s : C (world K) (option (box gpiod_line_settings)) :=
  malloc s.

Definition put_direction s d : gpiod_line_settings :=
  Settings d (edge_detection s) (drive s) (bias s) (active_low s) (event_clock s)
    (debounce_period_us s) (output_value s).
Definition put_edge s e : gpiod_line_settings :=
  Settings (direction s) e (drive s) (bias s) (active_low s) (event_clock s)
    (debounce_period_us s) (output_value s).
Definition put_drive s d : gpiod_line_settings :=
  Settings (direction s) (edge_detection s) d (bias s) (active_low s) (event_clock s)
    (debounce_period_us s) (output_value s).
Definition put_bias s b : gpiod_line_settings :=
  Settings (direction s) (edge_detection s) (drive s) b (active_low s) (event_clock s)
    (debounce_period_us s) (output_value s).
Definition put_active_low s b : gpiod_line_settings :=
  Settings (direction s) (edge_detection s) (drive s) (bias s) b (event_clock s)
    (debounce_period_us s) (output_value s).
Definition put_clock s c : gpiod_line_settings :=
  Settings (direction s) (edge_detection s) (drive s) (bias s) (active_low s) c
    (debounce_period_us s) (output_value s).
Definition put_debounce s p : gpiod_line_settings :=
  Settings (direction s) (edge_detection s) (drive s) (bias s) (active_low s)
    (event_clock s) p (output_value s).
Definition put_output s v : gpiod_line_settings :=
  Settings (direction s) (edge_detection s) (drive s) (bias s) (active_low s)
    (event_clock s) (debounce_period_us s) v.

(** The setters return the code and the settings they leave. *)
Definition gpiod_line_settings_set_direction s (d : Z) :
    C (world K) (Z * gpiod_line_settings) :=
  match direction_of_int d with
  | Some d => mret (0, put_direction s d)
  | None => set_errno EINVAL;; mret (-1, put_direction s DIRECTION_AS_IS)
  end.
Definition gpiod_line_settings_get_direction s := direction s.

Definition gpiod_line_settings_set_edge_detection s (e : Z) :
    C (world K) (Z * gpiod_line_settings) :=
  match edge_of_int e with
  | Some e => mret (0, put_edge s e)
  | None => set_errno EINVAL;; mret (-1, put_edge s EDGE_NONE)
  end.
Definition gpiod_line_settings_get_edge_detection s := edge_detection s.

Definition gpiod_line_settings_set_bias s (b : Z) :
    C (world K) (Z * gpiod_line_settings) :=
  match bias_of_int b with
  | Some BIAS_UNKNOWN | None =>
      set_errno EINVAL;; mret (-1, put_bias s BIAS_AS_IS)
  | Some b => mret (0, put_bias s b)
  end.
Definition gpiod_line_settings_get_bias s := bias s.

Definition gpiod_line_settings_set_drive s (d : Z) :
    C (world K) (Z * gpiod_line_settings) :=
  match drive_of_int d with
  | Some d => mret (0, put_drive s d)
  | None => set_errno EINVAL;; mret (-1, put_drive s DRIVE_PUSH_PULL)
  end.
Definition gpiod_line_settings_get_drive s := drive s.

Definition gpiod_line_settings_set_active_low s (b : bool) := put_active_low s b.
Definition gpiod_line_settings_get_active_low s := active_low s.

(** The period is an [unsigned long] at the interface and a [long] in the
    object; both conversions wrap. *)
Definition gpiod_line_settings_set_debounce_period_us s (period : Z) :=
  put_debounce s (s64 period).
Definition gpiod_line_settings_get_debounce_period_us s : Z :=
  u64 (debounce_period_us s).

Definition gpiod_line_settings_set_event_clock s (c : Z) :
    C (world K) (Z * gpiod_line_settings) :=
  match clock_of_int c with
  | Some c => mret (0, put_clock s c)
  | None => set_errno EINVAL;; mret (-1, put_clock s CLOCK_MONOTONIC)
  end.
Definition gpiod_line_settings_get_event_clock s := event_clock s.

Definition gpiod_line_settings_set_output_value s (v : Z) :
    C (world K) (Z * gpiod_line_settings) :=
  '(r, v') ← gpiod_set_output_value v; mret (r, put_output s v').
Definition gpiod_line_settings_get_output_value s := output_value s.
End settings.
