(* ===== verification/GpiodLineConfig.v ===== *)
(** * libgpiod: line configuration ([lib/line-config.c])

    The line-config object (offsets, the settings nodes they share, the global
    output values) and its translation into the kernel's request structure. *)

From S2P Require Import Prelude GpiodBase GpiodUapi GpiodInternal GpiodSettings.

Definition LINES_MAX : nat := GPIO_V2_LINES_MAX.

Record settings_node : Type := Node { node_settings : box gpiod_line_settings }.

(** [pl_node] is the address of a block of [sref_list], or NULL. *)
Record per_line_config : Type := PerLine {
  pl_offset : Z;
  pl_node : option nat
}.

Record gpiod_line_config : Type := LineConfig {
  line_configs : list per_line_config;
  num_configs : nat;
  output_values : list gpiod_line_value;
  num_output_values : nat;
  sref_list : list (box settings_node)
}.

Definition zero_line_config : gpiod_line_config :=
  LineConfig (replicate LINES_MAX (PerLine 0 None)) 0
    (replicate LINES_MAX VALUE_INACTIVE) 0 [].

(** [config->line_configs[i].node->settings]. *)
Definition line_settings_at (c : gpiod_line_config) (i : nat) :
    outcome gpiod_line_settings :=
  p ← access (line_configs c !! i);
  a ← access (pl_node p);
  b ← access (snd <$> list_find (λ b, addr b = a) (sref_list c));
  mret (contents (node_settings (contents b))).

Section line_config.
Context {K : Type}.
Implicit Types c : gpiod_line_config.

Definition gpiod_line_config_new : C (world K) (option (box gpiod_line_config)) :=
  malloc zero_line_config.

Fixpoint free_refs (l : list (box settings_node)) : C (world K) unit :=
  match l with
  | [] => mret tt
  | node :: tmp =>
      gpiod_line_settings_free (node_settings (contents node));;
      free (addr node);;
      free_refs tmp
  end.

Definition gpiod_line_config_free (p : option (box gpiod_line_config)) : C (world K) unit :=
  match p with
  | None => mret tt
  | Some b => free_refs (sref_list (contents b));; free (addr b)
  end.

Definition gpiod_line_config_reset c : C (world K) gpiod_line_config :=
  free_refs (sref_list c);; mret zero_line_config.

(** The index of the entry for [offset]: an existing one, or the next free one,
    which is then counted. *)
Definition find_config c (offset : Z) : C (world K) (nat * gpiod_line_config) :=
  r ← for_loop (R:=nat) (num_configs c) 0 tt (λ i _,
        per_line ← lift (access (line_configs c !! i));
        if offset =? pl_offset per_line then mret (inr i) else mret (inl tt));
  match r with
  | inr i => mret (i, c)
  | inl _ => mret (num_configs c,
                   LineConfig (line_configs c) (S (num_configs c)) (output_values c)
                     (num_output_values c) (sref_list c))
  end.

Definition set_per_line c (i : nat) (p : per_line_config) : C (world K) gpiod_line_config :=
  l ← lift (arr_set (line_configs c) i p);
  mret (LineConfig l (num_configs c) (output_values c) (num_output_values c) (sref_list c)).

(** The loop of [gpiod_line_config_add_line_settings] over the offsets. *)
Definition add_offsets (offsets : list Z) (n : nat) (node : nat) c :
    C (world K) gpiod_line_config :=
  for_each n 0 c (λ i c,
    off ← lift (access (offsets !! i));
    '(k, c) ← find_config c off;
    set_per_line c k (PerLine off (Some node))).

Definition gpiod_line_config_add_line_settings c (offsets : option (list Z))
    (num_offsets : Z) (settings : option gpiod_line_settings) :
    C (world K) (Z * gpiod_line_config) :=
  match offsets with
  | None => set_errno EINVAL;; mret (-1, c)
  | Some offsets =>
      if num_offsets =? 0 then set_errno EINVAL;; mret (-1, c) else
      if Z.of_nat LINES_MAX <? u64 (Z.of_nat (num_configs c) + num_offsets)
      then set_errno E2BIG;; mret (-1, c) else
      node ← malloc tt;
      match node with
      | None => mret (-1, c)
      | Some node =>
          s ← match settings with
              | None => gpiod_line_settings_new
              | Some s => gpiod_line_settings_copy s
              end;
          match s with
          | None => free (addr node);; mret (-1, c)
          | Some s =>
              let c := LineConfig (line_configs c) (num_configs c) (output_values c)
                         (num_output_values c)
                         (Box (addr node) (Node s) :: sref_list c) in
              c ← add_offsets offsets (Z.to_nat num_offsets) (addr node) c;
              mret (0, c)
          end
      end
  end.

Definition gpiod_line_config_get_line_settings c (offset : Z) :
    C (world K) (option (box gpiod_line_settings)) :=
  r ← for_loop (R:=option (box gpiod_line_settings)) (num_configs c) 0 tt (λ i _,
        per_line ← lift (access (line_configs c !! i));
        if pl_offset per_line =? offset then
          s ← lift (line_settings_at c i);
          settings ← gpiod_line_settings_copy s;
          match settings with
          | None => mret (inr None)
          | Some b =>
              if decide (i < num_output_values c)%nat then
                v ← lift (access (output_values c !! i));
                '(ret, s') ← gpiod_line_settings_set_output_value (contents b)
                               (line_value_to_int v);
                if ret =? 0 then mret (inr (Some (Box (addr b) s')))
                else gpiod_line_settings_free b;; mret (inr None)
              else mret (inr (Some b))
          end
        else mret (inl tt));
  match r with
  | inr p => mret p
  | inl _ => set_errno ENOENT;; mret None
  end.

Definition gpiod_line_config_set_output_values c (values : option (list Z))
    (num_values : Z) : C (world K) (Z * gpiod_line_config) :=
  let with_values c l n :=
    LineConfig (line_configs c) (num_configs c) l n (sref_list c) in
  if (num_values =? 0) || (Z.of_nat LINES_MAX <? num_values)
  then set_errno EINVAL;; mret (-1, c) else
  match values with
  | None => set_errno EINVAL;; mret (-1, c)
  | Some values =>
      r ← for_loop (R:=Z * gpiod_line_config) (Z.to_nat num_values) 0 (output_values c)
            (λ i l,
              x ← lift (access (values !! i));
              '(ret, v) ← gpiod_set_output_value x;
              l ← lift (arr_set l i v);
              if ret =? 0 then mret (inl l) else mret (inr (ret, with_values c l 0%nat)));
      match r with
      | inl l => mret (0, with_values c l (Z.to_nat num_values))
      | inr p => mret p
      end
  end.

Definition gpiod_line_config_get_num_configured_offsets c : Z := Z.of_nat (num_configs c).

(** Writes into the caller's buffer; returns the count and the buffer. *)
Definition gpiod_line_config_get_configured_offsets c (offsets : option (list Z))
    (max_offsets : Z) : C (world K) (Z * option (list Z)) :=
  match offsets with
  | None => mret (0, None)
  | Some buf =>
      if (max_offsets =? 0) || (num_configs c =? 0)%nat then mret (0, Some buf) else
      let num_offsets := Nat.min (num_configs c) (Z.to_nat max_offsets) in
      buf ← for_each num_offsets 0 buf (λ i buf,
              p ← lift (access (line_configs c !! i));
              lift (arr_set buf i (pl_offset p)));
      mret (Z.of_nat num_offsets, Some buf)
  end.

(** ** Translation to the kernel's request *)
Definition set_offsets c (u : gpio_v2_line_request) : C (world K) gpio_v2_line_request :=
  l ← for_each (num_configs c) 0 (ur_offsets u) (λ i l,
        p ← lift (access (line_configs c !! i));
        lift (arr_set l i (pl_offset p)));
  mret (UapiRequest l (ur_consumer u) (ur_config u)
          (u32 (Z.of_nat (num_configs c))) (ur_event_buffer_size u) (ur_fd u)).

Definition has_at_least_one_output_direction c : C (world K) bool :=
  r ← for_loop (R:=unit) (num_configs c) 0 tt (λ i _,
        s ← lift (line_settings_at c i);
        if decide (gpiod_line_settings_get_direction s = DIRECTION_OUTPUT)
        then mret (inr tt) else mret (inl tt));
  match r with inr _ => mret true | inl _ => mret false end.

Definition set_output_value (vals : Z) (bit : nat) (value : gpiod_line_value) : outcome Z :=
  gpiod_line_mask_assign_bit vals (Z.of_nat bit) (bool_decide (value = VALUE_ACTIVE)).

Definition set_kernel_output_values c : C (world K) (Z * Z) :=
  mv ← for_each (num_configs c) 0
         (gpiod_line_mask_zero, gpiod_line_mask_zero) (λ i '(mask, vals),
         s ← lift (line_settings_at c i);
         if decide (gpiod_line_settings_get_direction s ≠ DIRECTION_OUTPUT)
         then mret (mask, vals) else
         mask ← lift (gpiod_line_mask_set_bit mask (Z.of_nat i));
         vals ← lift (set_output_value vals i (gpiod_line_settings_get_output_value s));
         mret (mask, vals));
  for_each (num_output_values c) 0 mv (λ i '(mask, vals),
    mask ← lift (gpiod_line_mask_set_bit mask (Z.of_nat i));
    v ← lift (access (output_values c !! i));
    vals ← lift (set_output_value vals i v);
    mret (mask, vals)).

(** [attr = &cfg->attrs[i]; ... attr is updated ...]. *)
Definition upd_attr (u : gpio_v2_line_config) (i : nat)
    (f : gpio_v2_line_config_attribute → gpio_v2_line_config_attribute) :
    outcome gpio_v2_line_config :=
  a ← access (uc_attrs u !! i);
  l ← arr_set (uc_attrs u) i (f a);
  mret (UapiConfig (uc_flags u) (uc_num_attrs u) l).

(** Returns the configuration and the next free attribute. *)
Definition set_output_values c (u : gpio_v2_line_config) (attr_idx : nat) :
    C (world K) (gpio_v2_line_config * nat) :=
  b ← has_at_least_one_output_direction c;
  if negb b then mret (u, attr_idx) else
  '(mask, values) ← set_kernel_output_values c;
  u ← lift (upd_attr u attr_idx (λ _,
        CfgAttr (LineAttr GPIO_V2_LINE_ATTR_ID_OUTPUT_VALUES values) mask));
  mret (u, S attr_idx).

(** The inner loop of [set_debounce_periods]: the lines from [i] on with the
    period of line [i]. *)
Definition debounce_mask c (i : nat) (period_i : Z) (mask done : Z) :
    C (world K) (Z * Z) :=
  for_each (num_configs c - i) i (mask, done) (λ j '(mask, done),
    s ← lift (line_settings_at c j);
    if period_i =? gpiod_line_settings_get_debounce_period_us s then
      mask ← lift (gpiod_line_mask_set_bit mask (Z.of_nat j));
      done ← lift (gpiod_line_mask_set_bit done (Z.of_nat j));
      mret (mask, done)
    else mret (mask, done)).

(** [inr] is the error return (-1), with the configuration written so far. *)
Definition set_debounce_periods c (u : gpio_v2_line_config) (attr_idx : nat) :
    C (world K) ((Z * gpio_v2_line_config * nat) + gpio_v2_line_config) :=
  for_loop (num_configs c) 0 (gpiod_line_mask_zero, u, attr_idx)
    (λ i '(done, u, attr_idx),
      b ← lift (gpiod_line_mask_test_bit done (Z.of_nat i));
      if (b : bool) then mret (inl (done, u, attr_idx)) else
      done ← lift (gpiod_line_mask_set_bit done (Z.of_nat i));
      s ← lift (line_settings_at c i);
      let period_i := gpiod_line_settings_get_debounce_period_us s in
      if period_i =? 0 then mret (inl (done, u, attr_idx)) else
      if (attr_idx =? GPIO_V2_LINE_NUM_ATTRS_MAX)%nat
      then set_errno E2BIG;; mret (inr u) else
      mask ← lift (gpiod_line_mask_set_bit gpiod_line_mask_zero (Z.of_nat i));
      '(mask, done) ← debounce_mask c i period_i mask done;
      u ← lift (upd_attr u attr_idx (λ a,
            CfgAttr (set_attr_debounce
                       (LineAttr GPIO_V2_LINE_ATTR_ID_DEBOUNCE (attr_union (ca_attr a)))
                       period_i) mask));
      mret (inl (done, u, S attr_idx))).

Definition make_kernel_flags (s : gpiod_line_settings) : Z :=
  let flags := 0 in
  let flags := match gpiod_line_settings_get_direction s with
    | DIRECTION_INPUT => Z.lor flags GPIO_V2_LINE_FLAG_INPUT
    | DIRECTION_OUTPUT => Z.lor flags GPIO_V2_LINE_FLAG_OUTPUT
    | _ => flags end in
  let flags := match gpiod_line_settings_get_edge_detection s with
    | EDGE_FALLING => Z.lor flags (Z.lor GPIO_V2_LINE_FLAG_EDGE_FALLING GPIO_V2_LINE_FLAG_INPUT)
    | EDGE_RISING => Z.lor flags (Z.lor GPIO_V2_LINE_FLAG_EDGE_RISING GPIO_V2_LINE_FLAG_INPUT)
    | EDGE_BOTH => Z.lor flags (Z.lor (Z.lor GPIO_V2_LINE_FLAG_EDGE_FALLING
                     GPIO_V2_LINE_FLAG_EDGE_RISING) GPIO_V2_LINE_FLAG_INPUT)
    | _ => flags end in
  let flags := match gpiod_line_settings_get_drive s with
    | DRIVE_OPEN_DRAIN => Z.lor flags GPIO_V2_LINE_FLAG_OPEN_DRAIN
    | DRIVE_OPEN_SOURCE => Z.lor flags GPIO_V2_LINE_FLAG_OPEN_SOURCE
    | _ => flags end in
  let flags := match gpiod_line_settings_get_bias s with
    | BIAS_DISABLED => Z.lor flags GPIO_V2_LINE_FLAG_BIAS_DISABLED
    | BIAS_PULL_UP => Z.lor flags GPIO_V2_LINE_FLAG_BIAS_PULL_UP
    | BIAS_PULL_DOWN => Z.lor flags GPIO_V2_LINE_FLAG_BIAS_PULL_DOWN
    | _ => flags end in
  let flags := if gpiod_line_settings_get_active_low s
    then Z.lor flags GPIO_V2_LINE_FLAG_ACTIVE_LOW else flags in
  match gpiod_line_settings_get_event_clock s with
  | CLOCK_REALTIME => Z.lor flags GPIO_V2_LINE_FLAG_EVENT_CLOCK_REALTIME
  | CLOCK_HTE => Z.lor flags GPIO_V2_LINE_FLAG_EVENT_CLOCK_HTE
  | _ => flags end.

Definition settings_equal (l r : gpiod_line_settings) : bool :=
  if decide (gpiod_line_settings_get_direction l ≠ gpiod_line_settings_get_direction r)
  then false else
  if decide (gpiod_line_settings_get_edge_detection l ≠
             gpiod_line_settings_get_edge_detection r) then false else
  if decide (gpiod_line_settings_get_bias l ≠ gpiod_line_settings_get_bias r)
  then false else
  if decide (gpiod_line_settings_get_drive l ≠ gpiod_line_settings_get_drive r)
  then false else
  if decide (gpiod_line_settings_get_active_low l ≠ gpiod_line_settings_get_active_low r)
  then false else
  if decide (gpiod_line_settings_get_event_clock l ≠ gpiod_line_settings_get_event_clock r)
  then false else true.

(** The inner loops of [set_flags]; the first group has no mask. *)
Definition flags_mask c (i : nat) (settings_i : gpiod_line_settings) (mask done : Z) :
    C (world K) (Z * Z) :=
  for_each (num_configs c - i) i (mask, done) (λ j '(mask, done),
    settings_j ← lift (line_settings_at c j);
    if settings_equal settings_i settings_j then
      done ← lift (gpiod_line_mask_set_bit done (Z.of_nat j));
      mask ← lift (gpiod_line_mask_set_bit mask (Z.of_nat j));
      mret (mask, done)
    else mret (mask, done)).

Definition globals_mask c (i : nat) (settings_i : gpiod_line_settings) (done : Z) :
    C (world K) Z :=
  for_each (num_configs c - i) i done (λ j done,
    settings_j ← lift (line_settings_at c j);
    if settings_equal settings_i settings_j
    then lift (gpiod_line_mask_set_bit done (Z.of_nat j))
    else mret done).

Definition set_flags c (u : gpio_v2_line_config) (attr_idx : nat) :
    C (world K) ((Z * bool * gpio_v2_line_config * nat) + gpio_v2_line_config) :=
  for_loop (num_configs c) 0 (gpiod_line_mask_zero, false, u, attr_idx)
    (λ i '(done, globals_taken, u, attr_idx),
      b ← lift (gpiod_line_mask_test_bit done (Z.of_nat i));
      if (b : bool) then mret (inl (done, globals_taken, u, attr_idx)) else
      done ← lift (gpiod_line_mask_set_bit done (Z.of_nat i));
      settings_i ← lift (line_settings_at c i);
      if negb globals_taken then
        done ← globals_mask c i settings_i done;
        mret (inl (done, true,
                   UapiConfig (make_kernel_flags settings_i) (uc_num_attrs u) (uc_attrs u),
                   attr_idx))
      else
        mask ← lift (gpiod_line_mask_set_bit gpiod_line_mask_zero (Z.of_nat i));
        if (attr_idx =? GPIO_V2_LINE_NUM_ATTRS_MAX)%nat
        then set_errno E2BIG;; mret (inr u) else
        '(mask, done) ← flags_mask c i settings_i mask done;
        u ← lift (upd_attr u attr_idx (λ _,
              CfgAttr (LineAttr GPIO_V2_LINE_ATTR_ID_FLAGS (make_kernel_flags settings_i))
                mask));
        mret (inl (done, globals_taken, u, S attr_idx))).

Definition gpiod_line_config_to_uapi c (u : gpio_v2_line_request) :
    C (world K) (Z * gpio_v2_line_request) :=
  let with_config u cfg :=
    UapiRequest (ur_offsets u) (ur_consumer u) cfg (ur_num_lines u)
      (ur_event_buffer_size u) (ur_fd u) in
  u ← set_offsets c u;
  '(cfg, idx) ← set_output_values c (ur_config u) 0;
  r ← set_debounce_periods c cfg idx;
  match r with
  | inr cfg => mret (-1, with_config u cfg)
  | inl (_, cfg, idx) =>
      r ← set_flags c cfg idx;
      match r with
      | inr cfg => mret (-1, with_config u cfg)
      | inl (_, _, cfg, idx) =>
          mret (0, with_config u
                     (UapiConfig (uc_flags cfg) (Z.of_nat idx) (uc_attrs cfg)))
      end
  end.
End line_config.
