(* ===== verification/GpiodLineConfigSpec.v ===== *)
(** * libgpiod: what a line configuration means

    The abstract view of the line-config object (an ordered association of
    offsets with settings, and the global output values), the representation
    relation between the object and its view, and the refinement of every
    operation of [lib/line-config.c] that changes or reads the object. *)

From S2P Require Import Prelude GpiodBase GpiodUapi GpiodInternal GpiodSettings GpiodLineConfig.

(** Arithmetic up to the array bounds. *)
Ltac llia := unfold LINES_MAX, GPIO_V2_LINES_MAX in *; lia.

(** ** The abstract operations *)

(** Replace the settings of an offset in place, or add it at the end. *)
Fixpoint upsert (o : Z) (s : gpiod_line_settings) (lines : list (Z * gpiod_line_settings)) :
    list (Z * gpiod_line_settings) :=
  match lines with
  | [] => [(o, s)]
  | (o', s') :: l => if o' =? o then (o, s) :: l else (o', s') :: upsert o s l
  end.

Definition upsert_all (offs : list Z) (s : gpiod_line_settings)
    (lines : list (Z * gpiod_line_settings)) : list (Z * gpiod_line_settings) :=
  foldl (λ l o, upsert o s l) lines offs.

(** The settings of line [i] as the user sees them: a global output value
    overrides the one stored with the settings. *)
Definition effective (vals : list gpiod_line_value) (i : nat) (s : gpiod_line_settings) :
    gpiod_line_settings :=
  match vals !! i with Some v => put_output s v | None => s end.

Fixpoint find_line (lines : list (Z * gpiod_line_settings)) (o : Z) (i : nat) :
    option (nat * gpiod_line_settings) :=
  match lines with
  | [] => None
  | (o', s) :: l => if o' =? o then Some (i, s) else find_line l o (S i)
  end.

(** ** Representation *)
Definition node_lookup (srefs : list (box settings_node)) (p : option nat) :
    option gpiod_line_settings :=
  a ← p;
  b ← snd <$> list_find (λ b, addr b = a) srefs;
  Some (contents (node_settings (contents b))).

(** The blocks a configuration owns: each node and its settings. *)
Definition config_blocks (srefs : list (box settings_node)) : list nat :=
  mjoin ((λ b, [addr b; addr (node_settings (contents b))]) <$> srefs).

Record config_lines (c : gpiod_line_config) (lines : list (Z * gpiod_line_settings)) :
    Prop := {
  cl_len : length (line_configs c) = LINES_MAX;
  cl_num : num_configs c = length lines;
  cl_max : (length lines ≤ LINES_MAX)%nat;
  cl_at i o s : lines !! i = Some (o, s) →
    ∃ p, line_configs c !! i = Some p ∧ pl_offset p = o ∧
         node_lookup (sref_list c) (pl_node p) = Some s
}.

Record config_values (c : gpiod_line_config) (vals : list gpiod_line_value) : Prop := {
  cv_len : length (output_values c) = LINES_MAX;
  cv_num : (num_output_values c ≤ LINES_MAX)%nat;
  cv_vals : vals = take (num_output_values c) (output_values c);
  cv_ok : Forall (λ v, v ≠ VALUE_ERROR) vals
}.

(** The object owns its blocks: they are live and pairwise distinct. *)
Record config_mem {K} (c : gpiod_line_config) (w : world K) : Prop := {
  cm_nodup : NoDup (config_blocks (sref_list c));
  cm_live a : a ∈ config_blocks (sref_list c) → a ∈ live w;
  cm_fresh : fresh_ok w
}.

(** The whole invariant of the object; offsets are pairwise distinct. *)
Record config_rep {K} (c : gpiod_line_config) (lines : list (Z * gpiod_line_settings))
    (vals : list gpiod_line_value) (w : world K) : Prop := {
  cr_lines : config_lines c lines;
  cr_nodup : NoDup lines.*1;
  cr_vals : config_values c vals;
  cr_mem : config_mem c w
}.

(** ** Lemmas on the abstract operations *)
Lemma upsert_found o s lines i :
  lines.*1 !! i = Some o → (∀ k, (k < i)%nat → lines.*1 !! k ≠ Some o) →
  upsert o s lines = <[i:=(o, s)]> lines.
Proof.
  revert i. induction lines as [|[o' s'] l IH]; intros i Hi Hk; [done|]. simpl.
  destruct (Z.eqb_spec o' o) as [->|Hne].
  - destruct i as [|i]; [done|]. by destruct (Hk 0%nat); [lia|].
  - destruct i as [|i]; [simpl in Hi; congruence|]. simpl. f_equal. apply IH; [done|].
    intros k Hlt. apply (Hk (S k)). lia.
Qed.
Lemma upsert_absent o s lines : o ∉ lines.*1 → upsert o s lines = lines ++ [(o, s)].
Proof.
  induction lines as [|[o' s'] l IH]; intros Hn; [done|]. simpl.
  destruct (Z.eqb_spec o' o) as [->|Hne]; [set_solver|]. f_equal. apply IH. set_solver.
Qed.
Lemma upsert_fst o s lines :
  (upsert o s lines).*1 = lines.*1 ++ (if decide (o ∈ lines.*1) then [] else [o]).
Proof.
  induction lines as [|[o' s'] l IH]; [done|]. csimpl.
  destruct (Z.eqb_spec o' o) as [->|Hne]; csimpl.
  - rewrite decide_True by set_solver. by rewrite app_nil_r.
  - rewrite IH. repeat case_decide; set_solver.
Qed.
Lemma upsert_nodup o s lines : NoDup lines.*1 → NoDup (upsert o s lines).*1.
Proof.
  intros H. rewrite upsert_fst. case_decide; [by rewrite app_nil_r|].
  apply NoDup_app. split; [done|]. split; [set_solver|apply NoDup_singleton].
Qed.
Lemma upsert_length o s lines : (length (upsert o s lines) ≤ S (length lines))%nat.
Proof.
  pose proof (f_equal length (upsert_fst o s lines)) as H.
  rewrite length_app, !length_fmap in H. case_decide; simpl in H; lia.
Qed.
Lemma upsert_all_nodup offs s lines : NoDup lines.*1 → NoDup (upsert_all offs s lines).*1.
Proof.
  revert lines. induction offs as [|o offs IH]; intros lines H; [done|].
  simpl. by apply IH, upsert_nodup.
Qed.
Lemma upsert_all_length offs s lines :
  (length (upsert_all offs s lines) ≤ length lines + length offs)%nat.
Proof.
  revert lines. induction offs as [|o offs IH]; intros lines; simpl; [lia|].
  specialize (IH (upsert o s lines)). pose proof (upsert_length o s lines).
  unfold upsert_all in *. lia.
Qed.

Lemma find_line_upsert o o' s lines i :
  snd <$> find_line (upsert o s lines) o' i =
  if decide (o = o') then Some s else snd <$> find_line lines o' i.
Proof.
  revert i. induction lines as [|[o2 s2] l IH]; intros i; simpl.
  - destruct (Z.eqb_spec o o'), (decide (o = o')); done.
  - destruct (Z.eqb_spec o2 o) as [->|]; simpl.
    + destruct (Z.eqb_spec o o'), (decide (o = o')); done.
    + destruct (Z.eqb_spec o2 o'); [by rewrite decide_False by congruence|]. apply IH.
Qed.

(** After adding, the offsets of the call map to the new settings and every
    other offset to what it mapped to. *)
Lemma find_line_upsert_all offs o' s lines :
  snd <$> find_line (upsert_all offs s lines) o' 0 =
  if decide (o' ∈ offs) then Some s else snd <$> find_line lines o' 0.
Proof.
  revert lines. induction offs as [|o offs IH]; intros lines; simpl; [done|].
  unfold upsert_all in *. rewrite IH, find_line_upsert.
  repeat case_decide; set_solver.
Qed.

(** ** Reading a line *)
Lemma line_settings_at_ok c lines i o s :
  config_lines c lines → lines !! i = Some (o, s) → line_settings_at c i = Done s.
Proof.
  intros Hc Hi. destruct (cl_at _ _ Hc _ _ _ Hi) as (p & Hp & _ & Hn).
  unfold line_settings_at, node_lookup in *. rewrite Hp. simpl.
  destruct (pl_node p) as [a|]; simpl in *; [|done].
  destruct (list_find _ _) as [[k b]|]; simpl in *; [|done]. by simplify_eq.
Qed.

Lemma config_lines_offset c lines i o s :
  config_lines c lines → lines !! i = Some (o, s) →
  ∃ p, line_configs c !! i = Some p ∧ pl_offset p = o.
Proof. intros Hc Hi. destruct (cl_at _ _ Hc _ _ _ Hi) as (p & ? & ? & _). eauto. Qed.

Section ops.
Context {K : Type}.
Implicit Types (c : gpiod_line_config) (w : world K).

Lemma wp_find_config c lines off (Φ : _ → world K → Prop) w :
  config_lines c lines →
  (∀ i, lines.*1 !! i = Some off → (∀ k, (k < i)%nat → lines.*1 !! k ≠ Some off) →
     Φ (i, c) w) →
  (off ∉ lines.*1 →
     Φ (length lines, LineConfig (line_configs c) (S (num_configs c)) (output_values c)
                        (num_output_values c) (sref_list c)) w) →
  wp (find_config c off) Φ w.
Proof.
  intros Hc Hf Hn. unfold find_config. wp_step.
  eapply (wp_for (λ i _ w', w' = w ∧ ∀ k, (k < i)%nat → lines.*1 !! k ≠ Some off)).
  - split; [done|lia].
  - intros k [] w' Hk [-> Hlt]. simpl in Hk.
    rewrite (cl_num _ _ Hc) in Hk.
    destruct (lookup_lt_is_Some_2 lines k) as [[o s] Ho]; [lia|].
    destruct (config_lines_offset _ _ _ _ _ Hc Ho) as (p & Hp & Hpo).
    wps. eapply owp_access; [done|].
    assert (lines.*1 !! k = Some o) as Hko by (by rewrite list_lookup_fmap, Ho).
    destruct (Z.eqb_spec off (pl_offset p)) as [->|Hne]; wps.
    + apply Hf; [congruence|done].
    + split; [done|]. intros k' Hk'. destruct (decide (k' = k)) as [->|].
      * rewrite Hko. congruence.
      * apply Hlt. lia.
  - simpl. intros [] w' [-> Hall]. rewrite (cl_num _ _ Hc) in *. wps. apply Hn.
    intros (i & Hi)%list_elem_of_lookup. apply (Hall i); [|done].
    apply lookup_lt_Some in Hi. by rewrite length_fmap in Hi.
Qed.

(** One offset of [gpiod_line_config_add_line_settings]. *)
Lemma wp_add_one c lines off a s w :
  config_lines c lines → (length lines < LINES_MAX)%nat →
  node_lookup (sref_list c) (Some a) = Some s →
  wp ('(k, c) ← find_config c off; set_per_line c k (PerLine off (Some a)))
    (λ c' w', w' = w ∧ config_lines c' (upsert off s lines) ∧
       sref_list c' = sref_list c ∧ output_values c' = output_values c ∧
       num_output_values c' = num_output_values c) w.
Proof.
  intros Hc Hmax Ha. wp_step. eapply wp_find_config; [done| |].
  - intros i Hi Hk. unfold set_per_line. wps.
    assert (i < length lines)%nat as Hlt.
    { apply lookup_lt_Some in Hi. by rewrite length_fmap in Hi. }
    apply owp_arr_set; [rewrite (cl_len _ _ Hc); lia|]. wps.
    repeat split_and!; try done. rewrite (upsert_found _ _ _ i) by done.
    split; simpl; rewrite ?length_insert; try apply Hc.
    intros j o' s' Hj. destruct (decide (i = j)) as [<-|].
    + rewrite list_lookup_insert_eq in Hj by done. simplify_eq.
      eexists. rewrite list_lookup_insert_eq; [done|]. rewrite (cl_len _ _ Hc). lia.
    + rewrite list_lookup_insert_ne in Hj by done.
      rewrite list_lookup_insert_ne by done. by apply (cl_at _ _ Hc).
  - intros Hno. unfold set_per_line. simpl. wps.
    apply owp_arr_set; [rewrite (cl_len _ _ Hc); lia|]. wps.
    repeat split_and!; try done. rewrite upsert_absent by done.
    split; simpl; rewrite ?length_insert, ?length_app; simpl; try apply Hc.
    + rewrite (cl_num _ _ Hc). lia.
    + lia.
    + intros j o' s' Hj. destruct (decide (length lines = j)) as [<-|Hne].
      * rewrite lookup_app_r, Nat.sub_diag in Hj by lia. simpl in Hj. simplify_eq.
        eexists. rewrite list_lookup_insert_eq; [done|]. rewrite (cl_len _ _ Hc). lia.
      * rewrite list_lookup_insert_ne by done.
        rewrite lookup_app_l in Hj; [by apply (cl_at _ _ Hc)|].
        apply lookup_lt_Some in Hj. rewrite length_app in Hj. simpl in Hj. lia.
Qed.

Lemma wp_add_offsets c lines offs a s w :
  config_lines c lines → (length lines + length offs ≤ LINES_MAX)%nat →
  node_lookup (sref_list c) (Some a) = Some s →
  wp (add_offsets offs (length offs) a c)
    (λ c' w', w' = w ∧ config_lines c' (upsert_all offs s lines) ∧
       sref_list c' = sref_list c ∧ output_values c' = output_values c ∧
       num_output_values c' = num_output_values c) w.
Proof.
  intros Hc Hmax Ha. unfold add_offsets.
  eapply (wp_each (λ i c' w', w' = w ∧ config_lines c' (upsert_all (take i offs) s lines) ∧
       sref_list c' = sref_list c ∧ output_values c' = output_values c ∧
       num_output_values c' = num_output_values c)).
  - done.
  - intros k c' w' Hk (-> & Hc' & Hs & Hv & Hn). simpl in Hk.
    destruct (lookup_lt_is_Some_2 offs k) as [o Ho]; [lia|].
    wp_step. apply wp_lift. eapply owp_access; [done|].
    eapply wp_mono; [apply (wp_add_one _ _ o a s _ Hc')|].
    + pose proof (upsert_all_length (take k offs) s lines). rewrite length_take in *. lia.
    + by rewrite Hs.
    + intros c'' w'' (-> & Hc'' & ? & ? & ?). repeat split_and!; try congruence.
      unfold upsert_all. rewrite (take_S_r _ _ o), foldl_app by done. done.
  - intros c' w' (-> & Hc' & ?). rewrite Nat.add_0_l, firstn_all in Hc'. done.
Qed.

(** ** Memory *)
Lemma wp_free_refs srefs (w : world K) :
  NoDup (config_blocks srefs) → (∀ a, a ∈ config_blocks srefs → a ∈ live w) →
  wp (free_refs srefs)
    (λ _ w', w' = with_live (live w ∖ list_to_set (config_blocks srefs)) w) w.
Proof.
  revert w. induction srefs as [|b l IH]; intros w Hnd Hl; simpl.
  - wps. destruct w; unfold with_live; simpl. f_equal. set_solver.
  - unfold config_blocks in *. simpl in *.
    apply NoDup_cons in Hnd as [Hb Hnd]. apply NoDup_cons in Hnd as [Hs Hnd].
    wps. apply wp_free; [apply Hl; set_solver|]. wps.
    apply wp_free; [simpl; set_solver|].
    eapply wp_mono; [apply IH; [done|]|].
    + intros a Ha. simpl. assert (a ≠ addr b) by set_solver.
      assert (a ≠ addr (node_settings (contents b))) by set_solver. set_solver.
    + intros [] w' ->. destruct w; unfold with_live; simpl. f_equal. set_solver.
Qed.

Lemma config_lines_zero : config_lines zero_line_config [].
Proof. split; simpl; [done|done|lia|done]. Qed.
Lemma config_values_zero : config_values zero_line_config [].
Proof. split; simpl; [done|lia|done|done]. Qed.
Lemma config_rep_zero w : fresh_ok w → config_rep zero_line_config [] [] w.
Proof.
  intros. split; [apply config_lines_zero|apply NoDup_nil; done|apply config_values_zero|].
  split; simpl; [apply NoDup_nil; done|set_solver|done].
Qed.

(** A configuration stays represented in a world with the same blocks. *)
Lemma config_rep_world c lines vals w w' :
  config_rep c lines vals w → live w' = live w → (next w ≤ next w')%nat →
  config_rep c lines vals w'.
Proof.
  intros [? ? ? [? Hlive Hf]] El En. split; [done..|]. split; [done| |].
  - intros a Ha. rewrite El. by apply Hlive.
  - intros a Ha. rewrite El in Ha. specialize (Hf a Ha). lia.
Qed.

(** The new node is found, and the old ones are found as before. *)
Lemma node_lookup_new srefs a s : node_lookup (Box a (Node s) :: srefs) (Some a) =
  Some (contents s).
Proof. unfold node_lookup. simpl. by rewrite decide_True. Qed.
Lemma node_lookup_cons srefs b p s :
  addr b ∉ config_blocks srefs → node_lookup srefs p = Some s →
  node_lookup (b :: srefs) p = Some s.
Proof.
  unfold node_lookup. destruct p as [a|]; [|done]. simpl. intros Hb Hn.
  destruct (list_find _ srefs) as [[k b']|] eqn:E; [|done]. simpl in *.
  apply list_find_Some in E as (Hk & <- & _). rewrite decide_False; [done|].
  intros Heq. apply Hb. rewrite Heq. unfold config_blocks.
  apply list_elem_of_join. exists [addr b'; addr (node_settings (contents b'))].
  split; [set_solver|]. apply list_elem_of_fmap. exists b'.
  split; [done|]. by apply list_elem_of_lookup_2 in Hk.
Qed.

Lemma config_lines_cons c lines b :
  config_lines c lines → addr b ∉ config_blocks (sref_list c) →
  config_lines (LineConfig (line_configs c) (num_configs c) (output_values c)
                  (num_output_values c) (b :: sref_list c)) lines.
Proof.
  intros [? ? ? Hat] Hb. split; simpl; try done.
  intros i o s Hi. destruct (Hat i o s Hi) as (p & ? & ? & ?).
  exists p. eauto using node_lookup_cons.
Qed.
End ops.

(** ** The operations *)
Section theorems.
Context {K : Type}.
Implicit Types (c : gpiod_line_config) (w : world K).

(** The outcome of [gpiod_line_config_add_line_settings] on every branch: it
    adds or replaces the lines in the object's view, or it fails with the errno
    of the failing check, leaves the object as it was and frees what it had
    allocated. *)
Definition add_post (lines : list (Z * gpiod_line_settings)) vals offs
    (s : option gpiod_line_settings) c w (rc : Z * gpiod_line_config) (w' : world K) : Prop :=
  let '(r, c') := rc in
  (r = 0 ∧ config_rep c' (upsert_all offs (default gpiod_line_settings_reset s) lines) vals w' ∧
   offs ≠ [] ∧ (length lines + length offs ≤ LINES_MAX)%nat ∧
   live w' = {[next w; S (next w)]} ∪ live w ∧
   config_blocks (sref_list c') = next w :: S (next w) :: config_blocks (sref_list c)) ∨
  (r = -1 ∧ c' = c ∧ live w' = live w ∧ config_rep c lines vals w' ∧
   ((offs = [] ∧ errno w' = EINVAL) ∨
    (offs ≠ [] ∧ (LINES_MAX < length lines + length offs)%nat ∧ errno w' = E2BIG) ∨
    (offs ≠ [] ∧ (length lines + length offs ≤ LINES_MAX)%nat ∧
     true ∈ oom w ∧ errno w' = ENOMEM))).

(** The world after the node has been allocated. *)
Definition after_malloc w : world K :=
  World (errno w) (S (next w)) ({[next w]} ∪ live w) (tail (oom w)) (opened w) (closed w) (kern w).

(** Freeing the block just allocated gives the blocks back as they were. *)
Lemma live_undo w : fresh_ok w → ({[next w]} ∪ live w) ∖ {[next w]} = live w.
Proof. intros Hf. assert (next w ∉ live w) by (intros ?%Hf; lia). set_solver. Qed.

(** The view after the two blocks of a new node have been linked in. *)
Lemma config_rep_added c lines vals w s0 c' offs :
  config_rep c lines vals w →
  config_lines c' (upsert_all offs s0 lines) →
  sref_list c' = Box (next w) (Node (Box (S (next w)) s0)) :: sref_list c →
  output_values c' = output_values c → num_output_values c' = num_output_values c →
  config_rep c' (upsert_all offs s0 lines) vals (after_malloc (after_malloc w)).
Proof.
  intros [Hc Hnd [? ? ? ?] [Hmn Hml Hmf]] Hc' Hs Hv Hn.
  split; [done|by apply upsert_all_nodup|split; rewrite ?Hv, ?Hn; done|].
  rewrite <-(app_nil_r (sref_list c')) in Hs. split; rewrite app_nil_r in Hs; rewrite ?Hs;
    unfold config_blocks; simpl; fold (config_blocks (sref_list c)).
  - assert (next w ∉ config_blocks (sref_list c)) by (intros ?%Hml%Hmf; lia).
    assert (S (next w) ∉ config_blocks (sref_list c)) by (intros ?%Hml%Hmf; lia).
    apply NoDup_cons. split; [set_unfold; intros [?|?]; [lia|done]|]. by apply NoDup_cons.
  - set_solver.
  - intros a. simpl. rewrite !elem_of_union, !elem_of_singleton.
    intros [->|[->|Ha]]; simpl; [lia..|]. specialize (Hmf a Ha). lia.
Qed.

(** From the allocation of the settings on. *)
Lemma wp_add_node c lines vals w offs s0 s :
  config_rep c lines vals w → offs ≠ [] → (length lines + length offs ≤ LINES_MAX)%nat →
  s0 = default gpiod_line_settings_reset s →
  wp (malloc s0 ≫= λ s1, match s1 with
      | None => free (next w);; mret (-1, c)
      | Some s => add_offsets offs (length offs) (next w)
           (LineConfig (line_configs c) (num_configs c) (output_values c)
              (num_output_values c) (Box (next w) (Node s) :: sref_list c)) ≫=
           λ c0, mret (0, c0)
      end) (add_post lines vals offs s c w) (after_malloc w).
Proof.
  intros Hr Hne Hfit ->. pose proof Hr as [Hc _ _ [_ Hml Hmf]].
  wps. apply wp_malloc.
  - intros o Ho. wps. apply wp_free; [simpl; set_solver|]. wps. right.
    assert (live (with_live (({[next w]} ∪ live w) ∖ {[next w]}) w) = live w)
      by (by apply live_undo).
    repeat split_and!; try done; [by apply (config_rep_world _ _ _ w); simpl; [|apply live_undo|lia]|].
    right. right. repeat split_and!; [done..| |done].
    simpl in Ho. destruct (oom w); simpl in Ho; [done|]. rewrite Ho. set_solver.
  - intros _. wps.
    eapply wp_mono; [apply (wp_add_offsets _ lines offs (next w) (default gpiod_line_settings_reset s))|].
    + apply config_lines_cons; [done|]. simpl. intros ?%Hml%Hmf; lia.
    + done.
    + apply node_lookup_new.
    + intros c' w' (-> & Hc' & Hs' & Hv & Hn). wps. left.
      repeat split_and!; try done; [by apply (config_rep_added c lines vals w)| |].
      * simpl. set_solver.
      * by rewrite Hs'.
Qed.

Lemma wp_add_line_settings c lines vals w offs s :
  config_rep c lines vals w → Z.of_nat (length offs) < 2 ^ 63 →
  wp (gpiod_line_config_add_line_settings c (Some offs) (Z.of_nat (length offs)) s)
    (add_post lines vals offs s c w) w.
Proof.
  intros Hr Hlen. pose proof (cr_lines _ _ _ _ Hr) as Hc.
  unfold gpiod_line_config_add_line_settings.
  destruct (Z.eqb_spec (Z.of_nat (length offs)) 0) as [H0|H0].
  { wps. right. repeat split_and!; try done; [by apply (config_rep_world _ _ _ w)|]. left. by destruct offs. }
  assert (offs ≠ []) as Hne by (by destruct offs).
  pose proof (cl_max _ _ Hc) as Hmax.
  assert (u64 (Z.of_nat (num_configs c) + Z.of_nat (length offs)) =
          Z.of_nat (length lines) + Z.of_nat (length offs)) as ->.
  { rewrite (cl_num _ _ Hc). apply u64_small. split; llia. }
  destruct (Z.ltb_spec (Z.of_nat LINES_MAX) (Z.of_nat (length lines) + Z.of_nat (length offs)))
    as [Hbig|Hfit].
  { wps. right. repeat split_and!; try done; [by apply (config_rep_world _ _ _ w)|].
    right. left. repeat split_and!; [done|llia|done]. }
  wps. apply wp_malloc.
  { intros o Ho. wps. right. repeat split_and!; try done; [by apply (config_rep_world _ _ _ w)|].
    right. right. repeat split_and!; [done|llia| |done]. rewrite Ho. set_solver. }
  intros _. cbn [addr]. rewrite Nat2Z.id.
  destruct s as [s|]; (apply (wp_add_node c lines vals w offs); [done|done|llia|done]).
Qed.

(** ** Reading settings back *)
Lemma find_line_first lines i o s j :
  lines !! i = Some (o, s) → (∀ k, (k < i)%nat → lines.*1 !! k ≠ Some o) →
  find_line lines o j = Some ((j + i)%nat, s).
Proof.
  revert i j. induction lines as [|[o' s'] l IH]; intros i j Hi Hk; [done|]. simpl.
  destruct i as [|i]; simpl in Hi.
  - simplify_eq. rewrite Z.eqb_refl. by rewrite Nat.add_0_r.
  - destruct (Z.eqb_spec o' o) as [->|]; [by destruct (Hk 0%nat); [lia|]|].
    rewrite (IH i); [f_equal; f_equal; lia|done|].
    intros k Hlt. apply (Hk (S k)). lia.
Qed.
Lemma find_line_Some lines o j k s :
  find_line lines o j = Some (k, s) → (j ≤ k)%nat ∧ lines !! (k - j)%nat = Some (o, s).
Proof.
  revert j. induction lines as [|[o' s'] l IH]; intros j; simpl; [done|].
  destruct (Z.eqb_spec o' o) as [->|].
  - intros [= -> ->]. by rewrite Nat.sub_diag.
  - intros [? H]%IH. replace (k - j)%nat with (S (k - S j)) by lia. split; [lia|done].
Qed.
Lemma find_line_None lines o j :
  (∀ k, (k < length lines)%nat → lines.*1 !! k ≠ Some o) → find_line lines o j = None.
Proof.
  revert j. induction lines as [|[o' s'] l IH]; intros j Hk; [done|]. simpl in *.
  destruct (Z.eqb_spec o' o) as [->|]; [by destruct (Hk 0%nat); [lia|]|].
  apply IH. intros k Hlt. apply (Hk (S k)). lia.
Qed.
Lemma wp_set_output_value_ok v (Φ : _ → world K → Prop) w :
  v ≠ VALUE_ERROR → Φ (0, v) w →
  wp (gpiod_set_output_value (line_value_to_int v)) Φ w.
Proof. by destruct v. Qed.

(** What [gpiod_line_config_get_line_settings] returns: a new object with the
    effective settings, NULL with ENOENT for an offset that is not configured,
    or NULL with ENOMEM when the allocation fails. *)
Definition get_post lines vals off w (r : option (box gpiod_line_settings)) (w' : world K) :
    Prop :=
  match find_line lines off 0 with
  | None => r = None ∧ w' = with_errno ENOENT w
  | Some (i, s) =>
      (r = Some (Box (next w) (effective vals i s)) ∧ head (oom w) ≠ Some true ∧ w' = after_malloc w) ∨
      (r = None ∧ head (oom w) = Some true ∧ live w' = live w ∧ errno w' = ENOMEM)
  end.

Lemma wp_get_line_settings c lines vals off w :
  config_rep c lines vals w →
  wp (gpiod_line_config_get_line_settings c off) (get_post lines vals off w) w.
Proof.
  intros [Hc Hnd [Hvl Hvn Hvt Hvo] Hm]. unfold gpiod_line_config_get_line_settings. wp_step.
  eapply (wp_for (λ i _ w', w' = w ∧ ∀ k, (k < i)%nat → lines.*1 !! k ≠ Some off)).
  - split; [done|lia].
  - intros k [] w' Hk [-> Hlt]. simpl in Hk. rewrite (cl_num _ _ Hc) in Hk.
    destruct (lookup_lt_is_Some_2 lines k) as [[o s] Ho]; [lia|].
    destruct (config_lines_offset _ _ _ _ _ Hc Ho) as (p & Hp & Hpo).
    wps. eapply owp_access; [done|].
    destruct (Z.eqb_spec (pl_offset p) off) as [<-|Hne]; wps.
    + rewrite (line_settings_at_ok _ _ _ _ _ Hc Ho). subst o. simpl.
      assert (find_line lines (pl_offset p) 0 = Some (k, s)) as Hf
        by (by apply (find_line_first _ k)).
      unfold gpiod_line_settings_copy. wp_step. apply wp_malloc; unfold get_post; rewrite Hf.
      { intros o Hoom. wps. right. rewrite Hoom. done. }
      intros Hmem. destruct (decide (k < num_output_values c)%nat) as [Hkv|Hkv].
      * destruct (lookup_lt_is_Some_2 (output_values c) k) as [v Hv]; [lia|].
        assert (vals !! k = Some v) as Hvk by (by rewrite Hvt, lookup_take_lt).
        wps. eapply owp_access; [done|]. unfold gpiod_line_settings_set_output_value.
        wps. apply wp_set_output_value_ok; [by eapply Forall_lookup_1 in Hvo|].
        wps. left. unfold effective. by rewrite Hvk.
      * assert (vals !! k = None) as Hvk by (rewrite Hvt; apply lookup_take_ge; lia).
        wps. left. unfold effective. by rewrite Hvk.
    + split; [done|]. intros k' Hk'. destruct (decide (k' = k)) as [->|].
      * rewrite list_lookup_fmap, Ho. simpl. congruence.
      * apply Hlt. lia.
  - simpl. intros [] w' [-> Hall]. rewrite (cl_num _ _ Hc) in Hall. wps.
    unfold get_post. by rewrite find_line_None.
Qed.

(** ** Global output values *)
Definition valid_value (z : Z) : option gpiod_line_value :=
  if z =? 0 then Some VALUE_INACTIVE else if z =? 1 then Some VALUE_ACTIVE else None.

Lemma wp_gpiod_set_output_value z (Φ : _ → world K → Prop) w :
  (∀ v, valid_value z = Some v → Φ (0, v) w) →
  (valid_value z = None → Φ (-1, VALUE_INACTIVE) (with_errno EINVAL w)) →
  wp (gpiod_set_output_value z) Φ w.
Proof.
  unfold valid_value, gpiod_set_output_value, line_value_of_int. intros Hs Hf.
  destruct (Z.eqb_spec z (-1)) as [->|]; [by apply Hf|].
  destruct (z =? 0); [by apply Hs|]. destruct (z =? 1); [by apply Hs|by apply Hf].
Qed.

Lemma valid_value_not_error z v : valid_value z = Some v → v ≠ VALUE_ERROR.
Proof. unfold valid_value. repeat case_match; naive_solver. Qed.

(** [gpiod_line_config_set_output_values]: all values valid, they become the
    overrides; a bad count changes nothing; an invalid value drops every
    override. *)
Definition set_values_post lines vs c w (rc : Z * gpiod_line_config) (w' : world K) : Prop :=
  let '(r, c') := rc in
  live w' = live w ∧ sref_list c' = sref_list c ∧
  ((r = 0 ∧ w' = w ∧ ∃ vals', mapM valid_value vs = Some vals' ∧ vals' ≠ [] ∧
      config_rep c' lines vals' w') ∨
   (r = -1 ∧ w' = with_errno EINVAL w ∧
      (((vs = [] ∨ (LINES_MAX < length vs)%nat) ∧ c' = c) ∨
       (mapM valid_value vs = None ∧ config_rep c' lines [] w')))).

Lemma wp_config_set_output_values c lines vals vs w :
  config_rep c lines vals w →
  wp (gpiod_line_config_set_output_values c (Some vs) (Z.of_nat (length vs)))
    (set_values_post lines vs c w) w.
Proof.
  intros [Hc Hnd [Hvl Hvn Hvt Hvo] Hm]. unfold gpiod_line_config_set_output_values.
  destruct (Z.eqb_spec (Z.of_nat (length vs)) 0) as [H0|H0]; simpl.
  { wps. repeat split_and!; try done. right. repeat split_and!; try done.
    left. split; [left; by destruct vs|done]. }
  destruct (Z.ltb_spec (Z.of_nat LINES_MAX) (Z.of_nat (length vs))) as [Hb|Hb]; simpl.
  { wps. repeat split_and!; try done. right. repeat split_and!; try done.
    left. split; [right; llia|done]. }
  rewrite Nat2Z.id. wp_step.
  eapply (wp_for (λ i l w', w' = w ∧ length l = LINES_MAX ∧
                    mapM valid_value (take i vs) = Some (take i l))).
  - done.
  - intros k l w' Hk (-> & Hl & Hmap). simpl in Hk.
    destruct (lookup_lt_is_Some_2 vs k) as [x Hx]; [lia|].
    wps. eapply owp_access; [done|]. wps. apply wp_gpiod_set_output_value.
    + intros v Hv. wps. apply owp_arr_set; [llia|]. wps.
      repeat split_and!; [done|by rewrite length_insert|].
      rewrite (take_S_r _ _ x) by done.
      rewrite (take_S_r _ _ v) by (by rewrite list_lookup_insert_eq by llia).
      rewrite take_insert_ge by lia.
      apply mapM_Some. apply mapM_Some in Hmap. apply Forall2_app; [done|by constructor].
    + intros Hv. wps. apply owp_arr_set; [llia|]. wps.
      repeat split_and!; try done. right. repeat split_and!; try done. right.
      assert (mapM valid_value vs = None) as Hn.
      { destruct (mapM valid_value vs) as [l'|] eqn:E; [|done].
        apply mapM_Some in E. destruct (Forall2_lookup_l _ _ _ _ _ E Hx) as (? & ? & ?).
        congruence. }
      repeat split_and!; try done. split; [|done| |].
      * by destruct Hc; split.
      * split; simpl; [by rewrite length_insert|lia|done|done].
      * by destruct Hm; split.
  - simpl. intros l w' (-> & Hl & Hmap). rewrite firstn_all in Hmap. wps.
    repeat split_and!; try done. left. repeat split_and!; try done.
    exists (take (length vs) l). repeat split_and!; try done.
    { intros E. apply (f_equal length) in E. rewrite length_take in E. simpl in E. llia. }
    split; [by destruct Hc; split|done| |by destruct Hm; split].
    split; simpl; [done|llia|done|].
    apply mapM_Some in Hmap. apply Forall_lookup. intros i v Hv.
    eapply Forall2_lookup_r in Hmap as (? & ? & ?); [|done]. by eapply valid_value_not_error.
Qed.

(** ** Enumerating the configured offsets *)
Lemma wp_get_configured_offsets c lines vals w buf :
  config_rep c lines vals w →
  wp (gpiod_line_config_get_configured_offsets c (Some buf) (Z.of_nat (length buf)))
    (λ '(n, buf') w', w' = w ∧ n = Z.of_nat (Nat.min (length lines) (length buf)) ∧
       buf' = Some (take (length buf) lines.*1 ++ drop (length lines) buf)) w.
Proof.
  intros [Hc _ _ _]. unfold gpiod_line_config_get_configured_offsets.
  rewrite (cl_num _ _ Hc), Nat2Z.id.
  destruct (Z.eqb_spec (Z.of_nat (length buf)) 0) as [H0|H0]; simpl.
  { assert (buf = []) as -> by (by destruct buf). wps. repeat split_and!; try done.
    - by rewrite Nat.min_0_r.
    - by rewrite drop_nil. }
  destruct (Nat.eqb_spec (length lines) 0) as [H1|H1].
  { assert (lines = []) as -> by (by destruct lines). wps. repeat split_and!; try done.
    simpl. by rewrite take_nil. }
  wp_step.
  eapply (wp_each (λ i l w', w' = w ∧ l = take i lines.*1 ++ drop i buf)).
  - done.
  - intros k l w' Hk [-> ->]. simpl in Hk.
    destruct (lookup_lt_is_Some_2 lines k) as [[o s] Ho]; [lia|].
    destruct (lookup_lt_is_Some_2 buf k) as [b Hb]; [lia|].
    destruct (config_lines_offset _ _ _ _ _ Hc Ho) as (p & Hp & Hpo).
    assert (length (take k lines.*1) = k) as Hlk by (rewrite length_take, length_fmap; lia).
    wps. eapply owp_access; [done|]. wps.
    apply owp_arr_set; [rewrite length_app, Hlk, length_drop; lia|]. split; [done|].
    rewrite insert_app_r_alt, Hlk, Nat.sub_diag by lia.
    rewrite (drop_S buf b k Hb). simpl. rewrite (take_S_r _ _ o), Hpo.
    + by rewrite <-app_assoc.
    + by rewrite list_lookup_fmap, Ho.
  - simpl. intros l w' [-> ->]. wps. split_and!; [done|done|]. f_equal. f_equal.
    + destruct (Nat.min_spec (length lines) (length buf)) as [[? ->]|[? ->]]; [|done].
      rewrite !take_ge; rewrite ?length_fmap; [done|lia..].
    + destruct (Nat.min_spec (length lines) (length buf)) as [[? ->]|[? ->]]; [done|].
      rewrite !drop_ge; [done|lia..].
Qed.

(** ** The life of a configuration

    One step is one call of the public interface that changes the object. *)
Inductive config_step : gpiod_line_config * world K → gpiod_line_config * world K → Prop :=
| step_add c w offs s r c' w' :
    Z.of_nat (length offs) < 2 ^ 63 →
    gpiod_line_config_add_line_settings c (Some offs) (Z.of_nat (length offs)) s w =
      Done ((r, c'), w') →
    config_step (c, w) (c', w')
| step_add_null c w n s r c' w' :
    gpiod_line_config_add_line_settings c None n s w = Done ((r, c'), w') →
    config_step (c, w) (c', w')
| step_values c w vs r c' w' :
    gpiod_line_config_set_output_values c (Some vs) (Z.of_nat (length vs)) w =
      Done ((r, c'), w') →
    config_step (c, w) (c', w')
| step_values_null c w n r c' w' :
    gpiod_line_config_set_output_values c None n w = Done ((r, c'), w') →
    config_step (c, w) (c', w')
| step_reset c w c' w' :
    gpiod_line_config_reset c w = Done (c', w') →
    config_step (c, w) (c', w').

(** The invariant of reachable states: the object is represented, and the live
    blocks are those of the environment and those the object owns. *)
Definition config_inv (env : gset nat) (cw : gpiod_line_config * world K) : Prop :=
  let '(c, w) := cw in
  (∃ lines vals, config_rep c lines vals w) ∧
  (∀ a, a ∈ env → a ∉ config_blocks (sref_list c)) ∧
  live w = list_to_set (config_blocks (sref_list c)) ∪ env.

Lemma with_live_fresh w l : fresh_ok w → l ⊆ live w → fresh_ok (with_live l w).
Proof. intros Hf Hl a Ha. apply Hf. set_solver. Qed.

Lemma wp_config_reset c lines vals w :
  config_rep c lines vals w →
  wp (gpiod_line_config_reset c)
    (λ c' w', c' = zero_line_config ∧
       w' = with_live (live w ∖ list_to_set (config_blocks (sref_list c))) w) w.
Proof.
  intros [_ _ _ [Hn Hl Hf]]. unfold gpiod_line_config_reset. wps.
  eapply wp_mono; [by apply wp_free_refs|]. intros [] w' ->. by wps.
Qed.

Lemma config_inv_env_free env c w :
  config_inv env (c, w) → live w ∖ list_to_set (config_blocks (sref_list c)) = env.
Proof. intros (_ & Hd & ->). set_solver. Qed.

Lemma config_step_inv env cw cw' :
  config_step cw cw' → config_inv env cw → config_inv env cw'.
Proof.
  intros Hstep Hinv. destruct Hstep as
    [c w offs s r c' w' Hlen E|c w n s r c' w' E|c w vs r c' w' E|c w n r c' w' E|c w c' w' E];
    pose proof Hinv as ((lines & vals & Hr) & Hd & Hl).
  - eapply wp_run in E; [|by apply (wp_add_line_settings c lines vals)].
    destruct E as [(-> & Hr' & _ & _ & Hl' & Hb)|(-> & -> & Hl' & Hr' & _)].
    + split; [by eauto|]. rewrite Hb, Hl', Hl. split; [|set_solver].
      pose proof (cm_fresh _ _ (cr_mem _ _ _ _ Hr)) as Hf.
      intros a Ha. assert (a < next w)%nat by (apply Hf; rewrite Hl; set_solver).
      rewrite !elem_of_cons. intros [?|[?|?]]; [lia|lia|set_solver].
    + split; [by eauto|]. by rewrite Hl'.
  - simpl in E. cbv in E. simplify_eq. split; [|done].
    exists lines, vals. by apply (config_rep_world _ _ _ w).
  - eapply wp_run in E; [|by apply (wp_config_set_output_values c lines vals)].
    destruct E as (Hl' & Hs & [(-> & -> & vals' & _ & _ & Hr')|(-> & -> & [[_ ->]|[_ Hr']])]);
      (split; [|by rewrite ?Hs]); [by eauto| |by eauto].
    exists lines, vals. by apply (config_rep_world _ _ _ w).
  - unfold gpiod_line_config_set_output_values in E. simpl in E.
    destruct (_ || _); cbv in E; simplify_eq; (split; [|done]);
      exists lines, vals; by apply (config_rep_world _ _ _ w).
  - pose proof (cm_fresh _ _ (cr_mem _ _ _ _ Hr)) as Hf.
    eapply wp_run in E; [|by apply (wp_config_reset c lines vals)]. destruct E as [-> ->].
    split; [exists [], []; apply config_rep_zero, with_live_fresh; [done|set_solver]|].
    split; [set_solver|]. simpl. rewrite (config_inv_env_free env) by done. set_solver.
Qed.

Lemma config_steps_inv env cw cw' :
  rtc config_step cw cw' → config_inv env cw → config_inv env cw'.
Proof. induction 1; eauto using config_step_inv. Qed.

Lemma config_new_inv w0 b w1 :
  fresh_ok w0 → gpiod_line_config_new w0 = Done (Some b, w1) →
  config_inv ({[addr b]} ∪ live w0) (contents b, w1) ∧ addr b ∉ live w0.
Proof.
  intros Hf E. refine (wp_run gpiod_line_config_new (λ r w', r = Some b →
    config_inv ({[addr b]} ∪ live w0) (contents b, w') ∧ addr b ∉ live w0)
    w0 _ _ _ E eq_refl).
  unfold gpiod_line_config_new. apply wp_malloc; [done|].
  intros _ [= <-]. simpl. split; [|intros ?%Hf; lia].
  split; [|split; [set_solver|simpl; set_solver]].
  exists [], []. apply config_rep_zero. intros a. simpl.
  rewrite elem_of_union, elem_of_singleton. intros [->|Ha]; [lia|]. specialize (Hf a Ha). lia.
Qed.

Lemma wp_config_free_reachable w0 b w1 c w2 :
  fresh_ok w0 → gpiod_line_config_new w0 = Done (Some b, w1) →
  rtc config_step (contents b, w1) (c, w2) →
  wp (gpiod_line_config_free (Some (Box (addr b) c))) (λ _ w3, live w3 = live w0) w2.
Proof.
  intros Hf E Hrtc. destruct (config_new_inv _ _ _ Hf E) as [Hinv Hb].
  pose proof (config_steps_inv _ _ _ Hrtc Hinv) as Hinv2.
  pose proof Hinv2 as ((lines & vals & [_ _ _ [Hn Hl _]]) & Hd & Hlive).
  simpl. wps. eapply wp_mono; [by apply wp_free_refs|]. intros [] w' ->.
  apply wp_free; simpl.
  - rewrite (config_inv_env_free _ _ _ Hinv2). set_solver.
  - rewrite (config_inv_env_free _ _ _ Hinv2). set_solver.
Qed.
End theorems.
