(* ===== verification/GpiodEncode.v ===== *)
(** * libgpiod: the request a configuration is translated to

    How the kernel reads a request ([uapi/gpio.h]: an attribute applies to the
    lines of its mask and the first one wins) and the refinement theorem of
    [gpiod_line_config_to_uapi]: for every line the kernel reads back exactly
    the settings of the configuration, and the translation fails only when it
    would need more than the ten attributes of the ABI. *)

From S2P Require Import Prelude GpiodBase GpiodUapi GpiodInternal GpiodSettings.
From S2P Require Import GpiodLineConfig GpiodLineConfigSpec.

(** ** The kernel's reading of a request *)
Fixpoint first_attr (id : Z) (i : nat) (l : list gpio_v2_line_config_attribute) :
    option gpio_v2_line_attribute :=
  match l with
  | [] => None
  | a :: l' => if (attr_id (ca_attr a) =? id) && bit (ca_mask a) i
               then Some (ca_attr a) else first_attr id i l'
  end.

Definition config_attrs (u : gpio_v2_line_config) : list gpio_v2_line_config_attribute :=
  take (Z.to_nat (uc_num_attrs u)) (uc_attrs u).
Definition kernel_flags (u : gpio_v2_line_config) (i : nat) : Z :=
  match first_attr GPIO_V2_LINE_ATTR_ID_FLAGS i (config_attrs u) with
  | Some a => attr_union a
  | None => uc_flags u
  end.
Definition kernel_debounce (u : gpio_v2_line_config) (i : nat) : option Z :=
  attr_debounce_period_us <$>
    first_attr GPIO_V2_LINE_ATTR_ID_DEBOUNCE i (config_attrs u).
Definition kernel_output (u : gpio_v2_line_config) (i : nat) : option bool :=
  (λ a, bit (attr_union a) i) <$>
    first_attr GPIO_V2_LINE_ATTR_ID_OUTPUT_VALUES i (config_attrs u).

(** ** What the library means to send *)
Definition flag_key (s : gpiod_line_settings) :=
  (direction s, edge_detection s, bias s, drive s, active_low s, event_clock s).

Section spec.
Context (lines : list (Z * gpiod_line_settings)) (vals : list gpiod_line_value).

Definition periods : list Z :=
  (λ l : Z * gpiod_line_settings, gpiod_line_settings_get_debounce_period_us l.2) <$> lines.
Definition keys := (λ l : Z * gpiod_line_settings, flag_key l.2) <$> lines.

Definition is_output (l : Z * gpiod_line_settings) : bool :=
  bool_decide (direction l.2 = DIRECTION_OUTPUT).
Definition has_output : bool := existsb is_output lines.

(** The value line [i] is to be driven to, if the request sets one. *)
Definition out_value (i : nat) : option bool :=
  match vals !! i with
  | Some v => Some (bool_decide (v = VALUE_ACTIVE))
  | None =>
      match lines !! i with
      | Some (_, s) =>
          if decide (direction s = DIRECTION_OUTPUT)
          then Some (bool_decide (output_value s = VALUE_ACTIVE)) else None
      | None => None
      end
  end.

(** The distinct non-zero debounce periods, and the distinct flag sets, by the
    line that has each of them first. *)
Definition debounce_groups (n : nat) : list nat :=
  filter (λ k, periods !! k ≠ Some 0) (firsts periods n).
Definition flag_groups (n : nat) : list nat := tail (firsts keys n).

(** The number of attributes the request needs. *)
Definition attrs_needed : nat :=
  (if has_output then 1 else 0) + length (debounce_groups (length lines)) +
  length (flag_groups (length lines)).
End spec.

(** ** The inner loops: lines [i .. k-1] with the property [T] are marked *)
Definition marks (i k : nat) (T : nat → bool) (m m' : Z) : Prop :=
  (0 ≤ m → 0 ≤ m') ∧
  ∀ j, bit m' j = bit m j || (bool_decide (i ≤ j < k)%nat && T j).

Lemma marks_refl i T m : marks i i T m m.
Proof.
  split; [done|]. intros j. by rewrite bool_decide_false, orb_false_r by lia.
Qed.
Lemma marks_skip i k T m m' : marks i k T m m' → T k = false → marks i (S k) T m m'.
Proof.
  intros [? H] HT. split; [done|]. intros j. rewrite H. f_equal.
  destruct (decide (j = k)) as [->|]; [by rewrite HT, !andb_false_r|].
  f_equal. apply bool_decide_ext. lia.
Qed.
Lemma marks_set i k T m m' m'' :
  marks i k T m m' → T k = true → (i ≤ k)%nat → (0 ≤ m' → 0 ≤ m'') →
  (∀ j, bit m'' j = bit m' j || bool_decide (j = k)) → marks i (S k) T m m''.
Proof.
  intros [? H] HT Hik ? Hb. split; [auto|]. intros j. rewrite Hb, H, <-orb_assoc. f_equal.
  destruct (decide (j = k)) as [->|].
  - rewrite HT, (bool_decide_true (k = k)), orb_true_r by done.
    by rewrite (bool_decide_true (i ≤ k < S k)%nat) by lia.
  - rewrite (bool_decide_false (j = k)), orb_false_r by done.
    f_equal. apply bool_decide_ext. lia.
Qed.

(** ** The attribute array: [l] written, the rest still zero *)
Definition zero_cattr : gpio_v2_line_config_attribute := CfgAttr zero_attr 0.
Record attrs_are (u : gpio_v2_line_config) (l : list gpio_v2_line_config_attribute) :
    Prop := {
  aa_attrs : uc_attrs u = l ++ replicate (GPIO_V2_LINE_NUM_ATTRS_MAX - length l) zero_cattr;
  aa_len : (length l ≤ GPIO_V2_LINE_NUM_ATTRS_MAX)%nat
}.

Lemma owp_upd_attr u l f (Φ : _ → Prop) :
  attrs_are u l → (length l < GPIO_V2_LINE_NUM_ATTRS_MAX)%nat →
  (∀ u', attrs_are u' (l ++ [f zero_cattr]) → uc_flags u' = uc_flags u →
     uc_num_attrs u' = uc_num_attrs u → Φ u') →
  owp (upd_attr u (length l) f) Φ.
Proof.
  intros [Hu _] Hl HΦ. unfold upd_attr, GPIO_V2_LINE_NUM_ATTRS_MAX in *.
  destruct (10 - length l)%nat as [|n] eqn:En; [lia|]. simpl in Hu.
  wps. eapply owp_access; [by rewrite Hu, list_lookup_middle|]. wps.
  apply owp_arr_set; [rewrite Hu, length_app; simpl; lia|]. wps.
  apply HΦ; [|done..]. split; simpl;
    [|unfold GPIO_V2_LINE_NUM_ATTRS_MAX; rewrite length_app; simpl; lia].
  rewrite Hu, insert_app_r_alt, Nat.sub_diag by lia. simpl.
  rewrite <-app_assoc. simpl. rewrite length_app. simpl.
  unfold GPIO_V2_LINE_NUM_ATTRS_MAX. by replace (10 - (length l + 1))%nat with n by lia.
Qed.

Lemma settings_equal_spec l r : settings_equal l r = bool_decide (flag_key l = flag_key r).
Proof.
  unfold settings_equal, flag_key, gpiod_line_settings_get_direction,
    gpiod_line_settings_get_edge_detection, gpiod_line_settings_get_bias,
    gpiod_line_settings_get_drive, gpiod_line_settings_get_active_low,
    gpiod_line_settings_get_event_clock.
  symmetry. repeat (case_decide; [apply bool_decide_false; congruence|]).
  apply bool_decide_true. congruence.
Qed.
Lemma make_kernel_flags_key l r : flag_key l = flag_key r → make_kernel_flags l = make_kernel_flags r.
Proof.
  destruct l, r. unfold flag_key. simpl. intros [= -> -> -> -> -> ->]. done.
Qed.

Section encode.
Context {K : Type} (c : gpiod_line_config).
Context (lines : list (Z * gpiod_line_settings)) (vals : list gpiod_line_value).
Context (Hc : config_lines c lines) (Hv : config_values c vals).
Implicit Types w : world K.

Local Notation n := (length lines).
Local Notation ps := (periods lines).
Local Notation fks := (keys lines).

Lemma lines_lt_64 k : (k < n)%nat → (k < 64)%nat.
Proof. pose proof (cl_max _ _ Hc). llia. Qed.

(** Every line of the configuration can be read. *)
Lemma line_at k : (k < n)%nat → ∃ o s, lines !! k = Some (o, s) ∧ line_settings_at c k = Done s.
Proof.
  intros Hk. destruct (lookup_lt_is_Some_2 lines k Hk) as [[o s] Ho].
  exists o, s. split; [done|]. by eapply line_settings_at_ok.
Qed.
Lemma periods_at k o s : lines !! k = Some (o, s) →
  ps !! k = Some (gpiod_line_settings_get_debounce_period_us s).
Proof. intros H. unfold periods. by rewrite list_lookup_fmap, H. Qed.
Lemma keys_at k o s : lines !! k = Some (o, s) → fks !! k = Some (flag_key s).
Proof. intros H. unfold keys. by rewrite list_lookup_fmap, H. Qed.

(** ** Inner loops *)
Lemma wp_debounce_mask i p m d w :
  (i < n)%nat →
  wp (debounce_mask c i p m d) (λ '(m', d') w', w' = w ∧
    marks i n (λ j, bool_decide (ps !! j = Some p)) m m' ∧
    marks i n (λ j, bool_decide (ps !! j = Some p)) d d') w.
Proof.
  intros Hi. unfold debounce_mask. rewrite (cl_num _ _ Hc).
  eapply (wp_each (λ k '(m', d') w', w' = w ∧
    marks i k (λ j, bool_decide (ps !! j = Some p)) m m' ∧
    marks i k (λ j, bool_decide (ps !! j = Some p)) d d')).
  - split; [done|]. split; apply marks_refl.
  - intros k [m' d'] w' Hk (-> & Hm & Hd).
    destruct (line_at k) as (o & s & Ho & Hs); [lia|]. wps. rewrite Hs. simpl.
    pose proof (periods_at k o s Ho) as Hp.
    destruct (Z.eqb_spec p (gpiod_line_settings_get_debounce_period_us s)) as [->|Hne].
    + wps. apply owp_set_bit; [by apply lines_lt_64; lia|]. intros m'' ? ?.
      wps. apply owp_set_bit; [by apply lines_lt_64; lia|]. intros d'' ? ?. wps.
      split; [done|]. split; (eapply marks_set; [done| |lia|done|done]); by apply bool_decide_true.
    + wps. split; [done|].
      split; (apply marks_skip; [done|apply bool_decide_false; rewrite Hp; congruence]).
  - intros [m' d'] w'. by replace (i + (n - i))%nat with n by lia.
Qed.

Lemma wp_flags_mask i s m d w :
  (i < n)%nat →
  wp (flags_mask c i s m d) (λ '(m', d') w', w' = w ∧
    marks i n (λ j, bool_decide (fks !! j = Some (flag_key s))) m m' ∧
    marks i n (λ j, bool_decide (fks !! j = Some (flag_key s))) d d') w.
Proof.
  intros Hi. unfold flags_mask. rewrite (cl_num _ _ Hc).
  eapply (wp_each (λ k '(m', d') w', w' = w ∧
    marks i k (λ j, bool_decide (fks !! j = Some (flag_key s))) m m' ∧
    marks i k (λ j, bool_decide (fks !! j = Some (flag_key s))) d d')).
  - split; [done|]. split; apply marks_refl.
  - intros k [m' d'] w' Hk (-> & Hm & Hd).
    destruct (line_at k) as (o & s' & Ho & Hs); [lia|]. wps. rewrite Hs. simpl.
    pose proof (keys_at k o s' Ho) as Hp. rewrite settings_equal_spec.
    case_bool_decide as He.
    + wps. apply owp_set_bit; [by apply lines_lt_64; lia|]. intros m'' ? ?.
      wps. apply owp_set_bit; [by apply lines_lt_64; lia|]. intros d'' ? ?. wps.
      split; [done|]. split; (eapply marks_set; [done| |lia|done|done]);
        apply bool_decide_true; by rewrite Hp, He.
    + wps. split; [done|].
      split; (apply marks_skip; [done|apply bool_decide_false; rewrite Hp; congruence]).
  - intros [m' d'] w'. by replace (i + (n - i))%nat with n by lia.
Qed.

Lemma wp_globals_mask i s d w :
  (i < n)%nat →
  wp (globals_mask c i s d) (λ d' w', w' = w ∧
    marks i n (λ j, bool_decide (fks !! j = Some (flag_key s))) d d') w.
Proof.
  intros Hi. unfold globals_mask. rewrite (cl_num _ _ Hc).
  eapply (wp_each (λ k d' w', w' = w ∧
    marks i k (λ j, bool_decide (fks !! j = Some (flag_key s))) d d')).
  - split; [done|]. apply marks_refl.
  - intros k d' w' Hk (-> & Hd).
    destruct (line_at k) as (o & s' & Ho & Hs); [lia|]. wps. rewrite Hs. simpl.
    pose proof (keys_at k o s' Ho) as Hp. rewrite settings_equal_spec.
    case_bool_decide as He.
    + wps. apply owp_set_bit; [by apply lines_lt_64; lia|]. intros d'' ? ?.
      split; [done|]. eapply marks_set; [done| |lia|done|done].
      apply bool_decide_true. by rewrite Hp, He.
    + wps. split; [done|].
      apply marks_skip; [done|apply bool_decide_false; rewrite Hp; congruence].
  - intros d' w'. by replace (i + (n - i))%nat with n by lia.
Qed.

(** ** Debounce attributes *)
Definition debounce_attr (k : nat) : gpio_v2_line_config_attribute :=
  CfgAttr (LineAttr GPIO_V2_LINE_ATTR_ID_DEBOUNCE (u32 (default 0 (ps !! k))))
    (mask_where (λ j, bool_decide (ps !! j = ps !! k)) n).

(** A mask that starts with bit [i] set and marks the later lines equal to [i]
    is the mask of the whole group when [i] is its first line. *)
Lemma group_mask {A} `{!EqDecision A} (ks : list A) i a m m' :
  ks !! i = Some a → seen ks i i = false → (i < length ks)%nat →
  (∀ j, bit m j = bool_decide (j = i)) → 0 ≤ m →
  marks i (length ks) (λ j, bool_decide (ks !! j = Some a)) m m' →
  m' = mask_where (λ j, bool_decide (ks !! j = ks !! i)) (length ks).
Proof.
  intros Ha Hseen Hi Hm H0 [Hp Hm']. apply bit_ext; [auto|apply mask_where_nonneg|].
  intros j. rewrite Hm', Hm, bit_mask_where, Ha.
  destruct (decide (j = i)) as [->|Hne].
  - rewrite Ha. by rewrite !bool_decide_true by (done || lia).
  - rewrite (bool_decide_false (j = i)) by done. simpl.
    destruct (decide (ks !! j = Some a)) as [Hj|Hj]; [|by rewrite (bool_decide_false _ Hj), !andb_false_r].
    rewrite (bool_decide_true _ Hj), !andb_true_r. apply bool_decide_ext.
    split; [lia|]. intros Hjn. split; [|done].
    destruct (decide (i ≤ j)%nat); [done|]. exfalso.
    assert (seen ks i i = true); [|congruence].
    apply seen_spec. exists j. split; [lia|congruence].
Qed.

(** The state of the loop after the first [i] lines. *)
Definition debounce_inv (u0 : gpio_v2_line_config) out0 (w0 : world K) (i : nat)
    (st : Z * gpio_v2_line_config * nat) (w : world K) : Prop :=
  let '(d, u, idx) := st in
  w = w0 ∧ 0 ≤ d ∧
  attrs_are u (out0 ++ (debounce_attr <$> debounce_groups lines i)) ∧
  idx = length (out0 ++ (debounce_attr <$> debounce_groups lines i)) ∧
  uc_flags u = uc_flags u0 ∧ uc_num_attrs u = uc_num_attrs u0 ∧
  ∀ j, (i ≤ j < n)%nat → bit d j = seen ps i j && bool_decide (ps !! j ≠ Some 0).

Lemma debounce_groups_S i :
  debounce_groups lines (S i) = debounce_groups lines i ++
    (if seen ps i i then [] else if decide (ps !! i = Some 0) then [] else [i]).
Proof.
  unfold debounce_groups. rewrite firsts_S, filter_app. f_equal.
  destruct (seen ps i i); [done|]. case_decide.
  - rewrite filter_cons_False; [done|tauto].
  - by rewrite filter_cons_True.
Qed.

Lemma debounce_groups_prefix i :
  (i ≤ n)%nat → (length (debounce_groups lines i) ≤ length (debounce_groups lines n))%nat.
Proof.
  intros Hi. destruct (firsts_prefix ps i n Hi) as [l Hl].
  unfold debounce_groups. rewrite Hl, filter_app, length_app. lia.
Qed.

(** A line whose period has been handled, or is zero, adds nothing. *)
Lemma debounce_inv_skip u0 out0 w0 i d d' u idx :
  debounce_inv u0 out0 w0 i (d, u, idx) w0 → (i < n)%nat → 0 ≤ d' →
  (∀ j, (S i ≤ j)%nat → bit d' j = bit d j) →
  seen ps i i = true ∨ ps !! i = Some 0 →
  debounce_inv u0 out0 w0 (S i) (d', u, idx) w0.
Proof.
  intros (_ & Hd & Ha & Hidx & Hf & Hna & Hbits) Hi Hd' Heq Hcase.
  assert (debounce_groups lines (S i) = debounce_groups lines i) as Hg.
  { rewrite debounce_groups_S. destruct (seen ps i i); [by rewrite app_nil_r|].
    destruct Hcase as [|H0]; [done|]. by rewrite decide_True, app_nil_r. }
  unfold debounce_inv. rewrite Hg. repeat split_and!; try done.
  intros j Hj. rewrite Heq, Hbits by lia.
  destruct Hcase as [Hs|H0]; [by rewrite seen_S_seen|]. rewrite seen_S.
  destruct (decide (ps !! i = ps !! j)) as [E|E];
    [|by rewrite (bool_decide_false _ E), orb_false_r].
  rewrite (bool_decide_false (ps !! j ≠ _)) by (rewrite <-E; tauto). by rewrite !andb_false_r.
Qed.

(** A new group: its attribute is appended and its lines are done. *)
Lemma debounce_inv_group u0 out0 w0 i p d d1 d2 u u' idx :
  debounce_inv u0 out0 w0 i (d, u, idx) w0 → ps !! i = Some p → p ≠ 0 →
  seen ps i i = false → (i < n)%nat → 0 ≤ d1 →
  (∀ j, bit d1 j = bit d j || bool_decide (j = i)) →
  marks i n (λ j, bool_decide (ps !! j = Some p)) d1 d2 →
  attrs_are u' ((out0 ++ (debounce_attr <$> debounce_groups lines i)) ++ [debounce_attr i]) →
  uc_flags u' = uc_flags u → uc_num_attrs u' = uc_num_attrs u →
  debounce_inv u0 out0 w0 (S i) (d2, u', S idx) w0.
Proof.
  intros (_ & Hd & Ha & Hidx & Hf & Hna & Hbits) Hp Hp0 Hs Hi H1 Hb1 [Hd2 Hb2] Ha' Hf' Hn'.
  assert (debounce_groups lines (S i) = debounce_groups lines i ++ [i]) as Hg.
  { rewrite debounce_groups_S, Hs, decide_False by (rewrite Hp; congruence). done. }
  unfold debounce_inv. rewrite Hg, fmap_app, app_assoc.
  repeat split_and!; try done; try congruence; [auto|rewrite length_app; simpl; lia|].
  intros j Hj. rewrite Hb2, Hb1, Hbits, (bool_decide_false (j = i)), orb_false_r by lia.
  rewrite (bool_decide_true (i ≤ j < n)%nat), seen_S, Hp by lia. simpl.
  destruct (decide (ps !! j = Some p)) as [E|E].
  - rewrite E, !bool_decide_true by congruence. by rewrite !orb_true_r.
  - rewrite !(bool_decide_false (_ = _)) by congruence. by rewrite !orb_false_r.
Qed.

Lemma wp_debounce_body u0 out0 w0 i d u idx :
  (i < n)%nat → debounce_inv u0 out0 w0 i (d, u, idx) w0 →
  ps !! i ≠ Some 0 → seen ps i i = false →
  (length (out0 ++ (debounce_attr <$> debounce_groups lines i)) ≠ GPIO_V2_LINE_NUM_ATTRS_MAX) →
  ∀ d1 p, ps !! i = Some p → 0 ≤ d1 → (∀ j, bit d1 j = bit d j || bool_decide (j = i)) →
  wp (mask ← lift (gpiod_line_mask_set_bit gpiod_line_mask_zero (Z.of_nat i));
      '(mask, done) ← debounce_mask c i p mask d1;
      u ← lift (upd_attr u idx (λ a,
            CfgAttr (set_attr_debounce
                       (LineAttr GPIO_V2_LINE_ATTR_ID_DEBOUNCE (attr_union (ca_attr a))) p)
              mask));
      mret (inl (B:=gpio_v2_line_config) (done, u, S idx)))
    (λ r w', match r with
             | inl st => debounce_inv u0 out0 w0 (S i) st w'
             | inr _ => False
             end) w0.
Proof.
  intros Hi Hinv Hp0 Hs Hlen d1 p Hp Hd1 Hb1.
  pose proof Hinv as (_ & _ & Ha & -> & _).
  wps. apply owp_set_bit; [by apply lines_lt_64|]. intros m Hm0 Hm. wps.
  eapply wp_mono; [by apply wp_debounce_mask|]. intros [m' d2] w' (-> & Hmm & Hdd).
  wps. apply (owp_upd_attr u _ _ _ Ha); [destruct Ha; lia|].
  intros u' Ha' Hf' Hn'. wps.
  assert (length ps = n) as Hlp by (unfold periods; apply length_fmap).
  assert (m' = mask_where (λ j, bool_decide (ps !! j = ps !! i)) n) as ->.
  { rewrite <-Hlp in Hmm |- *.
    apply (group_mask ps i p m m'); [done|done|lia| |by apply Hm0|done].
    intros j. by rewrite Hm, bit_0. }
  eapply debounce_inv_group; try done; [congruence|].
  assert (debounce_attr i = CfgAttr (LineAttr GPIO_V2_LINE_ATTR_ID_DEBOUNCE (u32 p))
    (mask_where (λ j, bool_decide (ps !! j = ps !! i)) n)) as ->.
  { unfold debounce_attr. by rewrite Hp at 1. }
  exact Ha'.
Qed.

Lemma wp_set_debounce_periods u0 out0 w0 :
  attrs_are u0 out0 →
  wp (set_debounce_periods c u0 (length out0)) (λ r w', match r with
    | inl st => debounce_inv u0 out0 w0 n st w'
    | inr _ => w' = with_errno E2BIG w0 ∧
        (GPIO_V2_LINE_NUM_ATTRS_MAX < length out0 + length (debounce_groups lines n))%nat
    end) w0.
Proof.
  intros Ha0. unfold set_debounce_periods. rewrite (cl_num _ _ Hc).
  eapply (wp_for (debounce_inv u0 out0 w0)).
  - unfold debounce_inv. simpl. rewrite app_nil_r. repeat split_and!; try done.
    intros j _. apply bit_0.
  - intros i [[d u] idx] w' Hi Hinv. simpl in Hi.
    pose proof Hinv as (-> & Hd & Ha & Hidx & _ & _ & Hbits).
    destruct (line_at i) as (o & s & Ho & Hs); [lia|].
    pose proof (periods_at i o s Ho) as Hp.
    wps. apply owp_test_bit; [by apply lines_lt_64; lia|].
    rewrite Hbits by lia. destruct (seen ps i i && _) eqn:Eb.
    { apply andb_true_iff in Eb as [Es _]. wps.
      by eapply debounce_inv_skip; [done|lia|done| |left]. }
    wps. apply owp_set_bit; [by apply lines_lt_64; lia|]. intros d1 Hd1 Hb1. wps.
    rewrite Hs. simpl. set (p := gpiod_line_settings_get_debounce_period_us s) in *.
    destruct (Z.eqb_spec p 0) as [Hp0|Hp0].
    { wps. eapply debounce_inv_skip; [done|lia|auto| |right; by rewrite Hp, Hp0].
      intros j Hj. by rewrite Hb1, bool_decide_false, orb_false_r by lia. }
    assert (seen ps i i = false) as Hseen.
    { destruct (seen ps i i); [|done].
      by rewrite bool_decide_true in Eb by (rewrite Hp; congruence). }
    destruct (Nat.eqb_spec idx GPIO_V2_LINE_NUM_ATTRS_MAX) as [Hfull|Hroom].
    + wps. split; [done|]. rewrite <-Hfull, Hidx, length_app, length_fmap.
      pose proof (debounce_groups_prefix (S i) ltac:(lia)) as Hpre.
      rewrite debounce_groups_S, Hseen, decide_False, length_app in Hpre by congruence.
      simpl in Hpre. lia.
    + eapply wp_mono; [eapply wp_debounce_body; try done; [lia|congruence|congruence|auto]|].
      by intros [|].
  - by intros [[d u] idx] w'.
Qed.

(** ** Flag attributes *)
Definition flags_at (k : nat) : Z :=
  match lines !! k with Some (_, s) => make_kernel_flags s | None => 0 end.
Definition flags_attr (k : nat) : gpio_v2_line_config_attribute :=
  CfgAttr (LineAttr GPIO_V2_LINE_ATTR_ID_FLAGS (flags_at k))
    (mask_where (λ j, bool_decide (fks !! j = fks !! k)) n).

Definition flags_inv (u0 : gpio_v2_line_config) out0 (w0 : world K) (i : nat)
    (st : Z * bool * gpio_v2_line_config * nat) (w : world K) : Prop :=
  let '(d, g, u, idx) := st in
  w = w0 ∧ 0 ≤ d ∧ g = bool_decide (0 < i)%nat ∧
  attrs_are u (out0 ++ (flags_attr <$> flag_groups lines i)) ∧
  idx = length (out0 ++ (flags_attr <$> flag_groups lines i)) ∧
  uc_flags u = (if decide (i = 0%nat) then uc_flags u0 else flags_at 0) ∧
  ∀ j, (i ≤ j < n)%nat → bit d j = seen fks i j.

Lemma flag_groups_S i :
  flag_groups lines (S i) = flag_groups lines i ++
    (if seen fks i i then [] else if decide (i = 0%nat) then [] else [i]).
Proof.
  unfold flag_groups. rewrite firsts_S. destruct i as [|i]; [done|].
  destruct (seen fks (S i) (S i)); [by rewrite !app_nil_r|]. simpl.
  destruct (firsts fks (S i)) as [|x l] eqn:E; [|done].
  assert (0%nat ∈ firsts fks (S i)) as H by (apply elem_of_firsts; split; [lia|done]).
  rewrite E in H. set_solver.
Qed.
Lemma flag_groups_prefix i :
  (i ≤ n)%nat → (length (flag_groups lines i) ≤ length (flag_groups lines n))%nat.
Proof.
  intros Hi. destruct (firsts_prefix fks i n Hi) as [l Hl].
  unfold flag_groups. rewrite Hl. destruct (firsts fks i); simpl; rewrite ?length_app; lia.
Qed.

Lemma flags_inv_skip u0 out0 w0 i d g u idx :
  flags_inv u0 out0 w0 i (d, g, u, idx) w0 → (i < n)%nat → seen fks i i = true →
  flags_inv u0 out0 w0 (S i) (d, g, u, idx) w0.
Proof.
  intros (_ & Hd & Hg & Ha & Hidx & Hf & Hbits) Hi Hs.
  assert (i ≠ 0%nat) as Hi0 by (intros ->; done).
  unfold flags_inv. rewrite flag_groups_S, Hs, app_nil_r.
  repeat split_and!; try done.
  - rewrite Hg. apply bool_decide_ext. lia.
  - by rewrite Hf, !decide_False by lia.
  - intros j Hj. rewrite Hbits by lia. by rewrite seen_S_seen.
Qed.

(** The bits of [done] after the group of line [i] has been marked. *)
Lemma flags_done_bits i s d d1 d2 :
  fks !! i = Some (flag_key s) → (i < n)%nat →
  (∀ j, (i ≤ j < n)%nat → bit d j = seen fks i j) →
  (∀ j, bit d1 j = bit d j || bool_decide (j = i)) →
  marks i n (λ j, bool_decide (fks !! j = Some (flag_key s))) d1 d2 →
  ∀ j, (S i ≤ j < n)%nat → bit d2 j = seen fks (S i) j.
Proof.
  intros Hk Hi Hd Hd1 [_ Hd2] j Hj.
  rewrite Hd2, Hd1, Hd, (bool_decide_false (j = i)), orb_false_r by lia.
  rewrite (bool_decide_true (i ≤ j < n)%nat), seen_S, Hk by lia. simpl.
  f_equal. apply bool_decide_ext. split; congruence.
Qed.

Lemma wp_flags_body u0 out0 w0 i o s d d1 g u idx :
  (i < n)%nat → flags_inv u0 out0 w0 i (d, g, u, idx) w0 →
  lines !! i = Some (o, s) → seen fks i i = false → 0 ≤ d1 →
  (∀ j, bit d1 j = bit d j || bool_decide (j = i)) →
  wp (if negb g then
        done ← globals_mask c i s d1;
        mret (inl (done, true,
                   UapiConfig (make_kernel_flags s) (uc_num_attrs u) (uc_attrs u), idx))
      else
        mask ← lift (gpiod_line_mask_set_bit gpiod_line_mask_zero (Z.of_nat i));
        if (idx =? GPIO_V2_LINE_NUM_ATTRS_MAX)%nat
        then set_errno E2BIG;; mret (inr u) else
        '(mask, done) ← flags_mask c i s mask d1;
        u ← lift (upd_attr u idx (λ _,
              CfgAttr (LineAttr GPIO_V2_LINE_ATTR_ID_FLAGS (make_kernel_flags s)) mask));
        mret (inl (done, g, u, S idx)))
    (λ r w', match r with
             | inl st => flags_inv u0 out0 w0 (S i) st w'
             | inr _ => w' = with_errno E2BIG w0 ∧
                 (GPIO_V2_LINE_NUM_ATTRS_MAX < length out0 + length (flag_groups lines n))%nat
             end) w0.
Proof.
  intros Hi (_ & Hd & -> & Ha & -> & Hf & Hbits) Ho Hs Hd1 Hb1.
  pose proof (keys_at i o s Ho) as Hk.
  assert (length fks = n) as Hlf by (unfold keys; apply length_fmap).
  destruct (decide (i = 0%nat)) as [->|Hi0].
  - rewrite (bool_decide_false (0 < 0)%nat) by lia. simpl. wps.
    eapply wp_mono; [by apply wp_globals_mask|]. intros d2 w' [-> Hm]. wps.
    repeat split_and!; try done; [by apply Hm|by destruct Ha; split| |].
    + simpl. unfold flags_at. by rewrite Ho.
    + by eapply flags_done_bits.
  - rewrite (bool_decide_true (0 < i)%nat) by lia. simpl. wps.
    apply owp_set_bit; [by apply lines_lt_64|]. intros m Hm0 Hm.
    destruct (Nat.eqb_spec (length (out0 ++ (flags_attr <$> flag_groups lines i)))
      GPIO_V2_LINE_NUM_ATTRS_MAX) as [Hfull|Hroom].
    + wps. split; [done|]. rewrite <-Hfull, length_app, length_fmap.
      pose proof (flag_groups_prefix (S i) ltac:(lia)) as Hpre.
      rewrite flag_groups_S, Hs, decide_False, length_app in Hpre by done.
      simpl in Hpre. lia.
    + wps. eapply wp_mono; [by apply wp_flags_mask|]. intros [m' d2] w' (-> & Hmm & Hdd).
      wps. apply (owp_upd_attr u _ _ _ Ha); [destruct Ha; lia|]. intros u' Ha' Hf' _. wps.
      assert (m' = mask_where (λ j, bool_decide (fks !! j = fks !! i)) n) as ->.
      { rewrite <-Hlf in Hmm |- *.
        apply (group_mask fks i (flag_key s) m m'); [done|done|lia| |by apply Hm0|done].
        intros j. by rewrite Hm, bit_0. }
      unfold flags_inv. rewrite flag_groups_S, Hs, decide_False, fmap_app, app_assoc by done.
      repeat split_and!; try done.
      * by apply Hdd.
      * simpl. unfold flags_attr at 2, flags_at. by rewrite Ho.
      * rewrite (length_app _ (flags_attr <$> [i])). simpl. lia.
      * by rewrite Hf', Hf, !decide_False by lia.
      * by eapply flags_done_bits.
Qed.

Lemma wp_set_flags u0 out0 w0 :
  attrs_are u0 out0 →
  wp (set_flags c u0 (length out0)) (λ r w', match r with
    | inl st => flags_inv u0 out0 w0 n st w'
    | inr _ => w' = with_errno E2BIG w0 ∧
        (GPIO_V2_LINE_NUM_ATTRS_MAX < length out0 + length (flag_groups lines n))%nat
    end) w0.
Proof.
  intros Ha0. unfold set_flags. rewrite (cl_num _ _ Hc).
  eapply (wp_for (flags_inv u0 out0 w0)).
  - unfold flags_inv. simpl. rewrite app_nil_r. repeat split_and!; try done.
    intros j _. apply bit_0.
  - intros i [[[d g] u] idx] w' Hi Hinv. simpl in Hi.
    pose proof Hinv as (-> & Hd & _ & _ & _ & _ & Hbits).
    destruct (line_at i) as (o & s & Ho & Hs); [lia|].
    wps. apply owp_test_bit; [by apply lines_lt_64; lia|].
    rewrite Hbits by lia. destruct (seen fks i i) eqn:Es.
    { wps. apply flags_inv_skip; [done|lia|done]. }
    wps. apply owp_set_bit; [by apply lines_lt_64; lia|]. intros d1 Hd1 Hb1. wps.
    rewrite Hs. simpl. eapply wp_mono; [eapply wp_flags_body; try done; [lia|auto]|].
    by intros [|].
  - by intros [[[d g] u] idx] w'.
Qed.

(** ** Output values *)
Lemma wp_has_output w :
  wp (has_at_least_one_output_direction c) (λ b w', w' = w ∧ b = has_output lines) w.
Proof.
  unfold has_at_least_one_output_direction. wp_step. rewrite (cl_num _ _ Hc).
  eapply (wp_for (λ i _ w', w' = w ∧ existsb is_output (take i lines) = false)).
  - done.
  - intros k [] w' Hk [-> Hno]. simpl in Hk.
    destruct (line_at k) as (o & s & Ho & Hs); [lia|]. wps. rewrite Hs. simpl.
    unfold gpiod_line_settings_get_direction. case_decide as Hdir; wps.
    + split; [done|]. symmetry. apply existsb_exists. exists (o, s).
      split; [apply list_elem_of_In; by eapply list_elem_of_lookup_2|].
      by apply bool_decide_true.
    + split; [done|]. rewrite (take_S_r _ _ (o, s)), existsb_app, Hno by done. simpl.
      unfold is_output. simpl. by rewrite bool_decide_false.
  - simpl. intros [] w' [-> H]. rewrite firstn_all in H. by wps.
Qed.

Definition out_line (j : nat) : bool :=
  match lines !! j with Some l => is_output l | None => false end.
Definition out_active (j : nat) : bool :=
  match lines !! j with
  | Some l => is_output l && bool_decide (output_value l.2 = VALUE_ACTIVE)
  | None => false
  end.

(** After the per-line loop. *)
Lemma wp_line_outputs w :
  wp (for_each (num_configs c) 0
         (gpiod_line_mask_zero, gpiod_line_mask_zero) (λ i '(mask, vals),
         s ← lift (line_settings_at c i);
         if decide (gpiod_line_settings_get_direction s ≠ DIRECTION_OUTPUT)
         then mret (mask, vals) else
         mask ← lift (gpiod_line_mask_set_bit mask (Z.of_nat i));
         vals ← lift (set_output_value vals i (gpiod_line_settings_get_output_value s));
         mret (mask, vals)))
    (λ '(m, v) w', w' = w ∧ ∀ j, (j < 64)%nat → bit m j = out_line j ∧ bit v j = out_active j) w.
Proof.
  rewrite (cl_num _ _ Hc).
  eapply (wp_each (λ k '(m, v) w', w' = w ∧ ∀ j, (j < 64)%nat →
    bit m j = bool_decide (j < k)%nat && out_line j ∧
    bit v j = bool_decide (j < k)%nat && out_active j)).
  - split; [done|]. intros j _. by rewrite !bit_0, bool_decide_false by lia.
  - intros k [m v] w' Hk [-> Hb]. simpl in Hk.
    destruct (line_at k) as (o & s & Ho & Hs); [lia|]. wps. rewrite Hs. simpl.
    assert (out_line k = bool_decide (direction s = DIRECTION_OUTPUT)) as Hol.
    { unfold out_line. by rewrite Ho. }
    unfold gpiod_line_settings_get_direction.
    destruct (decide (direction s ≠ DIRECTION_OUTPUT)) as [Hdir|Hdir]; wps.
    + split; [done|]. intros j Hj. destruct (Hb j Hj) as [-> ->].
      destruct (decide (j = k)) as [->|].
      * unfold out_line, out_active. rewrite Ho. unfold is_output. simpl.
        by rewrite (bool_decide_false _ Hdir), !andb_false_r.
      * by rewrite (bool_decide_ext (j < S k)%nat (j < k)%nat) by lia.
    + apply dec_stable in Hdir. apply owp_set_bit; [by apply lines_lt_64; lia|].
      intros m' _ Hm'. wps. apply owp_assign_bit; [by apply lines_lt_64; lia|].
      intros v' _ Hv'. wps. split; [done|]. intros j Hj. rewrite Hm', Hv' by done.
      destruct (Hb j Hj) as [-> ->]. destruct (decide (j = k)) as [->|].
      * rewrite Hol, (bool_decide_true _ Hdir), (bool_decide_true (k = k)), orb_true_r by done.
        rewrite (bool_decide_true (k < S k)%nat) by lia. unfold out_active. rewrite Ho.
        unfold is_output. simpl. by rewrite (bool_decide_true _ Hdir).
      * rewrite (bool_decide_false (j = k)), orb_false_r by done.
        by rewrite (bool_decide_ext (j < S k)%nat (j < k)%nat) by lia.
  - simpl. intros [m v] w' [-> Hb]. split; [done|]. intros j Hj.
    destruct (Hb j Hj) as [-> ->]. destruct (decide (j < n)%nat) as [Hjn|Hjn].
    + by rewrite (bool_decide_true _ Hjn).
    + rewrite (bool_decide_false _ Hjn). unfold out_line, out_active.
      by rewrite (lookup_ge_None_2 lines j) by lia.
Qed.

(** The mask and the values the kernel gets agree with [out_value]. *)
Lemma wp_set_kernel_output_values w :
  wp (set_kernel_output_values c) (λ '(m, v) w', w' = w ∧ ∀ j, (j < 64)%nat →
    (if bit m j then Some (bit v j) else None) = out_value lines vals j) w.
Proof.
  unfold set_kernel_output_values. wp_step.
  eapply wp_mono; [apply wp_line_outputs|]. intros [m0 v0] w' [-> H0].
  destruct Hv as [Hvl Hvn Hvt _].
  eapply (wp_each (λ k '(m, v) w', w' = w ∧ ∀ j, (j < 64)%nat →
    bit m j = bool_decide (j < k)%nat || out_line j ∧
    bit v j = if decide (j < k)%nat then bool_decide (output_values c !! j = Some VALUE_ACTIVE)
              else out_active j)).
  - split; [done|]. intros j Hj. rewrite bool_decide_false, decide_False by lia. by apply H0.
  - intros k [m v] w' Hk [-> Hb]. simpl in Hk.
    destruct (lookup_lt_is_Some_2 (output_values c) k) as [x Hx]; [lia|].
    wps. apply owp_set_bit; [llia|]. intros m' _ Hm'. wps.
    eapply owp_access; [done|]. wps. apply owp_assign_bit; [llia|].
    intros v' _ Hv'. wps. split; [done|]. intros j Hj. rewrite Hm', Hv' by done.
    destruct (Hb j Hj) as [-> ->]. destruct (decide (j = k)) as [->|].
    + rewrite (bool_decide_true (k = k)), orb_true_r, (bool_decide_true (k < S k)%nat) by lia.
      rewrite decide_True by lia. split; [done|]. rewrite Hx. apply bool_decide_ext. naive_solver.
    + rewrite (bool_decide_false (j = k)), orb_false_r by done.
      rewrite (bool_decide_ext (j < S k)%nat (j < k)%nat) by lia. split; [done|].
      by rewrite (decide_ext (j < S k)%nat (j < k)%nat) by lia.
  - simpl. intros [m v] w' [-> Hb]. split; [done|]. intros j Hj.
    destruct (Hb j Hj) as [-> ->]. unfold out_value. rewrite Hvt.
    destruct (decide (j < num_output_values c)%nat) as [Hjn|Hjn].
    + destruct (lookup_lt_is_Some_2 (output_values c) j) as [x Hx]; [lia|].
      rewrite lookup_take_lt, Hx by done. simpl. rewrite (bool_decide_true _ Hjn). simpl.
      f_equal. apply bool_decide_ext. naive_solver.
    + rewrite lookup_take_ge, (bool_decide_false _ Hjn) by lia. simpl.
      unfold out_line, out_active. destruct (lines !! j) as [[o s]|]; [|done].
      unfold is_output. simpl. destruct (decide (direction s = DIRECTION_OUTPUT)) as [Hd|Hd].
      * by rewrite (bool_decide_true _ Hd).
      * by rewrite (bool_decide_false _ Hd).
Qed.

(** ** The whole translation *)
Lemma wp_set_offsets u w :
  length (ur_offsets u) = GPIO_V2_LINES_MAX →
  wp (set_offsets c u) (λ u' w', w' = w ∧
    u' = UapiRequest (lines.*1 ++ drop n (ur_offsets u)) (ur_consumer u) (ur_config u)
           (Z.of_nat n) (ur_event_buffer_size u) (ur_fd u)) w.
Proof.
  intros Hl. unfold set_offsets. wp_step. rewrite (cl_num _ _ Hc).
  pose proof (cl_max _ _ Hc) as Hmax.
  eapply (wp_each (λ i l w', w' = w ∧ l = take i lines.*1 ++ drop i (ur_offsets u))).
  - done.
  - intros k l w' Hk [-> ->]. simpl in Hk.
    destruct (lookup_lt_is_Some_2 lines k) as [[o s] Ho]; [lia|].
    destruct (lookup_lt_is_Some_2 (ur_offsets u) k) as [b Hb]; [llia|].
    destruct (config_lines_offset _ _ _ _ _ Hc Ho) as (p & Hp & Hpo).
    assert (length (take k lines.*1) = k) as Hlk by (rewrite length_take, length_fmap; lia).
    wps. eapply owp_access; [done|]. wps.
    apply owp_arr_set; [rewrite length_app, Hlk, length_drop; llia|]. split; [done|].
    rewrite insert_app_r_alt, Hlk, Nat.sub_diag by lia.
    rewrite (drop_S _ b k Hb). simpl. rewrite (take_S_r _ _ o), Hpo.
    + by rewrite <-app_assoc.
    + by rewrite list_lookup_fmap, Ho.
  - simpl. intros l w' [-> ->]. wps. split; [done|].
    rewrite u32_small by (split; llia). rewrite (take_ge lines.*1); [done|].
    by rewrite length_fmap.
Qed.

Lemma wp_set_output_values u w :
  attrs_are u [] →
  wp (set_output_values c u 0) (λ '(u', idx) w', w' = w ∧ uc_flags u' = uc_flags u ∧
    uc_num_attrs u' = uc_num_attrs u ∧
    ∃ out, attrs_are u' out ∧ idx = length out ∧
      if has_output lines then ∃ m v,
        out = [CfgAttr (LineAttr GPIO_V2_LINE_ATTR_ID_OUTPUT_VALUES v) m] ∧
        ∀ j, (j < 64)%nat → (if bit m j then Some (bit v j) else None) = out_value lines vals j
      else out = []) w.
Proof.
  intros Ha. unfold set_output_values. wp_step.
  eapply wp_mono; [apply wp_has_output|]. intros b w' [-> ->].
  destruct (has_output lines); simpl; wps.
  - eapply wp_mono; [apply wp_set_kernel_output_values|]. intros [m v] w' [-> Hmv]. wps.
    apply (owp_upd_attr u [] _ _ Ha); [simpl; unfold GPIO_V2_LINE_NUM_ATTRS_MAX; lia|].
    intros u' Ha' ? ?. wps. repeat split_and!; try done. eexists. split; [exact Ha'|]. eauto.
  - repeat split_and!; try done. by exists [].
Qed.

(** What the translation leaves: on success the request with its attributes,
    and on failure E2BIG because more attributes are needed than there are. *)
Definition to_uapi_post (u0 : gpio_v2_line_request) (w : world K)
    (ru : Z * gpio_v2_line_request) (w' : world K) : Prop :=
  let '(r, u) := ru in
  if decide (attrs_needed lines ≤ GPIO_V2_LINE_NUM_ATTRS_MAX)%nat then
    r = 0 ∧ w' = w ∧ ur_offsets u = lines.*1 ++ drop n (ur_offsets u0) ∧
    ur_num_lines u = Z.of_nat n ∧ ur_consumer u = ur_consumer u0 ∧
    ur_event_buffer_size u = ur_event_buffer_size u0 ∧ ur_fd u = ur_fd u0 ∧
    uc_flags (ur_config u) =
      (if decide (n = 0%nat) then uc_flags (ur_config u0) else flags_at 0) ∧
    ∃ out, config_attrs (ur_config u) =
        out ++ (debounce_attr <$> debounce_groups lines n) ++
        (flags_attr <$> flag_groups lines n) ∧
      if has_output lines then ∃ m v,
        out = [CfgAttr (LineAttr GPIO_V2_LINE_ATTR_ID_OUTPUT_VALUES v) m] ∧
        ∀ j, (j < 64)%nat → (if bit m j then Some (bit v j) else None) = out_value lines vals j
      else out = []
  else r = -1 ∧ w' = with_errno E2BIG w.

Lemma wp_to_uapi u0 w :
  length (ur_offsets u0) = GPIO_V2_LINES_MAX → attrs_are (ur_config u0) [] →
  wp (gpiod_line_config_to_uapi c u0) (to_uapi_post u0 w) w.
Proof.
  intros Hl Ha0. unfold gpiod_line_config_to_uapi, to_uapi_post. wp_step.
  eapply wp_mono; [by apply wp_set_offsets|]. intros u w' [-> ->]. wp_step. cbn [ur_config].
  eapply wp_mono; [by apply wp_set_output_values|].
  intros [u1 idx] w' (-> & Hf1 & Hn1 & out & Ha1 & -> & Hout). wp_step.
  assert (length out = if has_output lines then 1 else 0)%nat as Hlo.
  { destruct (has_output lines); [|by subst]. by destruct Hout as (? & ? & -> & _). }
  eapply wp_mono; [by apply wp_set_debounce_periods|].
  intros [[[d u2] idx]|u2] w'.
  2: { intros [-> Hbig]. wps. rewrite decide_False; [done|]. unfold attrs_needed. lia. }
  intros (-> & _ & Ha2 & -> & Hf2 & Hn2 & _). wp_step.
  eapply wp_mono; [by apply wp_set_flags|].
  intros [[[[d' g] u3] idx]|u3] w'.
  2: { intros [-> Hbig]. wps. rewrite decide_False; [done|]. unfold attrs_needed.
       rewrite length_app, length_fmap in Hbig. lia. }
  intros (-> & _ & _ & Ha3 & -> & Hf3 & _). wps.
  rewrite decide_True.
  2: { destruct Ha3 as [_ Hle]. rewrite !length_app, !length_fmap in Hle.
       unfold attrs_needed. lia. }
  repeat split_and!; try done; [by rewrite Hf3, Hf2, Hf1|].
  exists out. split; [|done]. unfold config_attrs. simpl.
  rewrite Nat2Z.id, (aa_attrs _ _ Ha3), take_app_length. by rewrite <-!app_assoc.
Qed.
End encode.

(** ** Reading the attributes back *)
Lemma first_attr_app id i l1 l2 :
  first_attr id i (l1 ++ l2) =
  match first_attr id i l1 with Some a => Some a | None => first_attr id i l2 end.
Proof. induction l1 as [|a l1 IH]; simpl; [done|]. by destruct (_ && _). Qed.
Lemma first_attr_other id i l :
  Forall (λ a, attr_id (ca_attr a) ≠ id) l → first_attr id i l = None.
Proof.
  induction 1 as [|a l Ha _ IH]; simpl; [done|].
  by rewrite (proj2 (Z.eqb_neq _ _) Ha).
Qed.

(** In a list of groups, the one that applies to line [i] is the group of the
    first line with the key of [i]. *)
Lemma first_attr_group {A} `{!EqDecision A} (ks : list A) id i k0 gs
    (mk : nat → gpio_v2_line_config_attribute) :
  (∀ k, attr_id (ca_attr (mk k)) = id ∧
        ca_mask (mk k) = mask_where (λ j, bool_decide (ks !! j = ks !! k)) (length ks)) →
  (∀ k, k ∈ gs → seen ks k k = false) → (i < length ks)%nat →
  ks !! k0 = ks !! i → seen ks k0 k0 = false →
  first_attr id i (mk <$> gs) = if decide (k0 ∈ gs) then Some (ca_attr (mk k0)) else None.
Proof.
  intros Hmk Hgs Hi Hk0 Hs0. induction gs as [|k gs IH].
  { rewrite decide_False by set_solver. done. }
  rewrite fmap_cons. cbn [first_attr].
  destruct (Hmk k) as [-> ->]. rewrite Z.eqb_refl, bit_mask_where, (bool_decide_true (i < _)%nat)
    by done. simpl.
  destruct (decide (ks !! i = ks !! k)) as [E|E].
  - rewrite (bool_decide_true _ E). assert (k0 = k) as ->.
    { apply (first_unique ks); [congruence|done|apply Hgs; set_solver]. }
    by rewrite decide_True by set_solver.
  - rewrite (bool_decide_false _ E), IH by set_solver.
    assert (k0 ≠ k) by congruence. repeat case_decide; set_solver.
Qed.

Section decode.
Context (lines : list (Z * gpiod_line_settings)) (vals : list gpiod_line_value).
Context (u : gpio_v2_line_config) (out : list gpio_v2_line_config_attribute).
Local Notation n := (length lines).
Local Notation ps := (periods lines).
Local Notation fks := (keys lines).
Context (Hu : config_attrs u = out ++ (debounce_attr lines <$> debounce_groups lines n) ++
                               (flags_attr lines <$> flag_groups lines n)).
Context (Hout : Forall (λ a, attr_id (ca_attr a) = GPIO_V2_LINE_ATTR_ID_OUTPUT_VALUES) out).

Lemma debounce_attrs_id :
  Forall (λ a, attr_id (ca_attr a) = GPIO_V2_LINE_ATTR_ID_DEBOUNCE)
    (debounce_attr lines <$> debounce_groups lines n).
Proof. by apply Forall_fmap, Forall_true. Qed.
Lemma flags_attrs_id :
  Forall (λ a, attr_id (ca_attr a) = GPIO_V2_LINE_ATTR_ID_FLAGS)
    (flags_attr lines <$> flag_groups lines n).
Proof. by apply Forall_fmap, Forall_true. Qed.
Lemma attrs_id_ne id id' (l : list gpio_v2_line_config_attribute) :
  id ≠ id' → Forall (λ a, attr_id (ca_attr a) = id) l →
  Forall (λ a, attr_id (ca_attr a) ≠ id') l.
Proof. intros ? H. eapply Forall_impl; [exact H|]. simpl. congruence. Qed.

Lemma kernel_debounce_ok i o s :
  lines !! i = Some (o, s) →
  kernel_debounce u i =
  let p := gpiod_line_settings_get_debounce_period_us s in
  if p =? 0 then None else Some (u32 p).
Proof.
  intros Hi. unfold kernel_debounce. rewrite Hu, !first_attr_app.
  rewrite (first_attr_other _ _ out) by (by apply (attrs_id_ne GPIO_V2_LINE_ATTR_ID_OUTPUT_VALUES)).
  rewrite (first_attr_other _ _ (flags_attr lines <$> _))
    by (by apply (attrs_id_ne GPIO_V2_LINE_ATTR_ID_FLAGS), flags_attrs_id).
  pose proof (periods_at lines i o s Hi) as Hp.
  destruct (first_exists ps i) as (k0 & Hk0 & Hk & Hs).
  assert (length ps = n) as Hlp by (unfold periods; apply length_fmap).
  assert (i < n)%nat as Hin by (by eapply lookup_lt_Some).
  rewrite (first_attr_group ps _ _ k0); cycle 1.
  { intros k. by rewrite Hlp. }
  { intros k Hg. unfold debounce_groups in Hg. apply list_elem_of_filter in Hg as [_ Hg].
    by apply elem_of_firsts in Hg as []. }
  { lia. } { done. } { done. }
  simpl. destruct (Z.eqb_spec (gpiod_line_settings_get_debounce_period_us s) 0) as [E|E].
  - rewrite decide_False; [done|]. unfold debounce_groups.
    rewrite list_elem_of_filter, Hk, Hp, E. naive_solver.
  - rewrite decide_True.
    + simpl. f_equal. unfold attr_debounce_period_us. simpl. rewrite Hk, Hp. simpl.
      unfold u32, wrap. by rewrite Z.mod_mod.
    + unfold debounce_groups. rewrite list_elem_of_filter, Hk, Hp.
      split; [congruence|]. apply elem_of_firsts. split; [lia|done].
Qed.

Lemma kernel_flags_ok i o s :
  uc_flags u = flags_at lines 0 → lines !! i = Some (o, s) →
  kernel_flags u i = make_kernel_flags s.
Proof.
  intros Hf Hi. unfold kernel_flags. rewrite Hu, !first_attr_app.
  rewrite (first_attr_other _ _ out) by (by apply (attrs_id_ne GPIO_V2_LINE_ATTR_ID_OUTPUT_VALUES)).
  rewrite (first_attr_other _ _ (debounce_attr lines <$> _))
    by (by apply (attrs_id_ne GPIO_V2_LINE_ATTR_ID_DEBOUNCE), debounce_attrs_id).
  pose proof (keys_at lines i o s Hi) as Hp.
  destruct (first_exists fks i) as (k0 & Hk0 & Hk & Hs).
  assert (length fks = n) as Hlp by (unfold keys; apply length_fmap).
  assert (i < n)%nat as Hin by (by eapply lookup_lt_Some).
  assert (∀ k, k ∈ flag_groups lines n → k ∈ firsts fks n) as Htl.
  { intros k. unfold flag_groups. destruct (firsts fks n); set_solver. }
  assert (flags_at lines k0 = make_kernel_flags s) as Hk0s.
  { destruct (lookup_lt_is_Some_2 lines k0) as [[o' s'] Ho']; [lia|].
    unfold flags_at. rewrite Ho'. apply make_kernel_flags_key.
    rewrite (keys_at lines k0 o' s' Ho') in Hk. congruence. }
  rewrite (first_attr_group fks _ _ k0); cycle 1.
  { intros k. by rewrite Hlp. }
  { intros k Hg%Htl. by apply elem_of_firsts in Hg as []. }
  { lia. } { done. } { done. }
  case_decide as Hg; [done|]. rewrite Hf, <-Hk0s. f_equal.
  assert (k0 ∈ firsts fks n) as Hmem by (apply elem_of_firsts; split; [lia|done]).
  assert (firsts fks n = 0%nat :: flag_groups lines n) as Hfs.
  { destruct (firsts_prefix fks 1 n ltac:(lia)) as [l Hl]. unfold flag_groups.
    by rewrite Hl. }
  rewrite Hfs in Hmem. set_solver.
Qed.

Lemma kernel_output_ok i :
  (i < 64)%nat →
  (if has_output lines then ∃ m v,
     out = [CfgAttr (LineAttr GPIO_V2_LINE_ATTR_ID_OUTPUT_VALUES v) m] ∧
     ∀ j, (j < 64)%nat → (if bit m j then Some (bit v j) else None) = out_value lines vals j
   else out = []) →
  kernel_output u i = if has_output lines then out_value lines vals i else None.
Proof.
  intros Hi Ho. unfold kernel_output. rewrite Hu, !first_attr_app.
  rewrite (first_attr_other _ _ (debounce_attr lines <$> _))
    by (by apply (attrs_id_ne GPIO_V2_LINE_ATTR_ID_DEBOUNCE), debounce_attrs_id).
  rewrite (first_attr_other _ _ (flags_attr lines <$> _))
    by (by apply (attrs_id_ne GPIO_V2_LINE_ATTR_ID_FLAGS), flags_attrs_id).
  destruct (has_output lines); [|by subst out].
  destruct Ho as (m & v & -> & Hmv). rewrite <-Hmv by done. simpl. by destruct (bit m i).
Qed.
End decode.
