(* ===== verification/GpiodInfo.v ===== *)
(** * libgpiod: what the kernel reports

    Line information ([lib/line-info.c]), its change events
    ([lib/info-event.c]), chip information ([lib/chip-info.c]) and the request
    options ([lib/request-config.c]). *)

From Stdlib Require Import String.
From S2P Require Import Prelude GpiodBase GpiodUapi GpiodInternal.

(** ** Line information *)
Record gpiod_line_info : Type := LineInfo {
  li_offset : Z;
  li_name : list Z;
  li_used : bool;
  li_consumer : list Z;
  li_direction : gpiod_line_direction;
  li_active_low : bool;
  li_bias : gpiod_line_bias;
  li_drive : gpiod_line_drive;
  li_edge : gpiod_line_edge;
  li_event_clock : gpiod_line_clock;
  li_debounced : bool;
  li_debounce_period_us : Z
}.

Definition has_flag (flags f : Z) : bool := negb (Z.land flags f =? 0).

(** The flag tests of [gpiod_line_info_from_uapi], field by field. *)
Definition direction_of_flags (f : Z) : gpiod_line_direction :=
  if has_flag f GPIO_V2_LINE_FLAG_OUTPUT then DIRECTION_OUTPUT else DIRECTION_INPUT.
Definition bias_of_flags (f : Z) : gpiod_line_bias :=
  if has_flag f GPIO_V2_LINE_FLAG_BIAS_PULL_UP then BIAS_PULL_UP
  else if has_flag f GPIO_V2_LINE_FLAG_BIAS_PULL_DOWN then BIAS_PULL_DOWN
  else if has_flag f GPIO_V2_LINE_FLAG_BIAS_DISABLED then BIAS_DISABLED
  else BIAS_UNKNOWN.
Definition drive_of_flags (f : Z) : gpiod_line_drive :=
  if has_flag f GPIO_V2_LINE_FLAG_OPEN_DRAIN then DRIVE_OPEN_DRAIN
  else if has_flag f GPIO_V2_LINE_FLAG_OPEN_SOURCE then DRIVE_OPEN_SOURCE
  else DRIVE_PUSH_PULL.
Definition edge_of_flags (f : Z) : gpiod_line_edge :=
  if has_flag f GPIO_V2_LINE_FLAG_EDGE_RISING && has_flag f GPIO_V2_LINE_FLAG_EDGE_FALLING
  then EDGE_BOTH
  else if has_flag f GPIO_V2_LINE_FLAG_EDGE_RISING then EDGE_RISING
  else if has_flag f GPIO_V2_LINE_FLAG_EDGE_FALLING then EDGE_FALLING
  else EDGE_NONE.
Definition clock_of_flags (f : Z) : gpiod_line_clock :=
  if has_flag f GPIO_V2_LINE_FLAG_EVENT_CLOCK_REALTIME then CLOCK_REALTIME
  else if has_flag f GPIO_V2_LINE_FLAG_EVENT_CLOCK_HTE then CLOCK_HTE
  else CLOCK_MONOTONIC.

Section info.
Context {K : Type}.

Definition gpiod_line_info_free (i : box gpiod_line_info) : C (world K) unit := free (addr i).
Definition gpiod_line_info_copy (i : gpiod_line_info) : C (world K) (option (box gpiod_line_info)) :=
  malloc i.

(** A [char] array field, or NULL when it holds the empty string. *)
Definition nonempty_array (arr : list Z) : option (list Z) :=
  match arr with c :: _ => if c =? 0 then None else Some arr | [] => None end.

Definition gpiod_line_info_get_offset (i : gpiod_line_info) := li_offset i.
Definition gpiod_line_info_get_name (i : gpiod_line_info) := nonempty_array (li_name i).
Definition gpiod_line_info_is_used (i : gpiod_line_info) := li_used i.
Definition gpiod_line_info_get_consumer (i : gpiod_line_info) := nonempty_array (li_consumer i).
Definition gpiod_line_info_get_direction (i : gpiod_line_info) := li_direction i.
Definition gpiod_line_info_is_active_low (i : gpiod_line_info) := li_active_low i.
Definition gpiod_line_info_get_bias (i : gpiod_line_info) := li_bias i.
Definition gpiod_line_info_get_drive (i : gpiod_line_info) := li_drive i.
Definition gpiod_line_info_get_edge_detection (i : gpiod_line_info) := li_edge i.
Definition gpiod_line_info_get_event_clock (i : gpiod_line_info) := li_event_clock i.
Definition gpiod_line_info_is_debounced (i : gpiod_line_info) := li_debounced i.
Definition gpiod_line_info_get_debounce_period_us (i : gpiod_line_info) :=
  li_debounce_period_us i.

(** The loop over the attributes: the last debounce attribute is kept. *)
Definition info_debounce (u : gpio_v2_line_info) : C (world K) (bool * Z) :=
  for_each (Z.to_nat (ui_num_attrs u)) 0 (false, 0) (λ i '(debounced, period),
    attr ← lift (access (ui_attrs u !! i));
    if attr_id attr =? GPIO_V2_LINE_ATTR_ID_DEBOUNCE
    then mret (true, attr_debounce_period_us attr) else mret (debounced, period)).

Definition fill_line_info (u : gpio_v2_line_info) : C (world K) gpiod_line_info :=
  name ← lift (access (strncpy GPIO_MAX_NAME_SIZE zero_name (ui_name u)));
  consumer ← lift (access (strncpy GPIO_MAX_NAME_SIZE zero_name (ui_consumer u)));
  '(debounced, period) ← info_debounce u;
  let f := ui_flags u in
  mret (LineInfo (ui_offset u) name (has_flag f GPIO_V2_LINE_FLAG_USED) consumer
          (direction_of_flags f) (has_flag f GPIO_V2_LINE_FLAG_ACTIVE_LOW)
          (bias_of_flags f) (drive_of_flags f) (edge_of_flags f) (clock_of_flags f)
          debounced period).

Definition gpiod_line_info_from_uapi (u : gpio_v2_line_info) :
    C (world K) (option (box gpiod_line_info)) :=
  info ← malloc tt;
  match info with
  | None => mret None
  | Some b => i ← fill_line_info u; mret (Some (Box (addr b) i))
  end.

(** ** Line status change events *)
Record gpiod_info_event : Type := InfoEvent {
  ie_event_type : gpiod_info_event_type;
  ie_timestamp : Z;
  ie_info : box gpiod_line_info
}.

Definition gpiod_info_event_from_uapi (u : gpio_v2_line_info_changed) :
    C (world K) (option (box gpiod_info_event)) :=
  event ← malloc tt;
  match event with
  | None => mret None
  | Some event =>
      let ty :=
        if uic_event_type u =? GPIOLINE_CHANGED_REQUESTED then Some INFO_EVENT_LINE_REQUESTED
        else if uic_event_type u =? GPIOLINE_CHANGED_RELEASED then Some INFO_EVENT_LINE_RELEASED
        else if uic_event_type u =? GPIOLINE_CHANGED_CONFIG
        then Some INFO_EVENT_LINE_CONFIG_CHANGED else None in
      match ty with
      | None => set_errno ENOMSG;; free (addr event);; mret None
      | Some ty =>
          info ← gpiod_line_info_from_uapi (uic_info u);
          match info with
          | None => free (addr event);; mret None
          | Some info =>
              mret (Some (Box (addr event) (InfoEvent ty (uic_timestamp_ns u) info)))
          end
      end
  end.

Definition gpiod_info_event_free (e : option (box gpiod_info_event)) : C (world K) unit :=
  match e with
  | None => mret tt
  | Some e => gpiod_line_info_free (ie_info (contents e));; free (addr e)
  end.
Definition gpiod_info_event_get_event_type (e : gpiod_info_event) := ie_event_type e.
Definition gpiod_info_event_get_timestamp_ns (e : gpiod_info_event) := ie_timestamp e.
Definition gpiod_info_event_get_line_info (e : gpiod_info_event) := ie_info e.

Definition gpiod_info_event_read_fd `{!Kernel K} (fd : Z) :
    C (world K) (option (box gpiod_info_event)) :=
  '(rd, evt) ← syscall (sys_read_info_event fd zero_info_changed);
  if rd <? 0 then mret None else
  if u32 rd <? sizeof_gpio_v2_line_info_changed then set_errno EIO;; mret None else
  gpiod_info_event_from_uapi evt.

(** ** Chip information *)
Record gpiod_chip_info : Type := GpiodChipInfo {
  gci_num_lines : Z;
  gci_name : list Z;
  gci_label : list Z
}.
Definition gpiod_chip_info_free (i : box gpiod_chip_info) : C (world K) unit := free (addr i).
Definition gpiod_chip_info_get_name (i : gpiod_chip_info) := gci_name i.
Definition gpiod_chip_info_get_label (i : gpiod_chip_info) := gci_label i.
Definition gpiod_chip_info_get_num_lines (i : gpiod_chip_info) := gci_num_lines i.

Definition fill_chip_info (u : gpiochip_info) : outcome gpiod_chip_info :=
  name ← access (strncpy 32 (replicate 32 0) (ci_name u));
  c ← access (ci_label u !! 0%nat);
  label ← access (strncpy 32 (replicate 32 0)
                    (if c =? 0 then with_nul (str "unknown") else ci_label u));
  mret (GpiodChipInfo (ci_lines u) name label).

Definition gpiod_chip_info_from_uapi (u : gpiochip_info) :
    C (world K) (option (box gpiod_chip_info)) :=
  info ← malloc tt;
  match info with
  | None => mret None
  | Some b => i ← lift (fill_chip_info u); mret (Some (Box (addr b) i))
  end.

(** ** Request options *)
Record gpiod_request_config : Type := RequestConfig {
  rc_consumer : list Z;
  rc_event_buffer_size : Z
}.
Definition zero_request_config : gpiod_request_config := RequestConfig zero_name 0.

Definition gpiod_request_config_new : C (world K) (option (box gpiod_request_config)) :=
  malloc zero_request_config.
Definition gpiod_request_config_free (c : box gpiod_request_config) : C (world K) unit :=
  free (addr c).

Definition gpiod_request_config_set_consumer (c : gpiod_request_config)
    (consumer : option (list Z)) : outcome gpiod_request_config :=
  match consumer with
  | None =>
      arr ← arr_set (rc_consumer c) 0 0;
      mret (RequestConfig arr (rc_event_buffer_size c))
  | Some s =>
      arr ← access (strncpy (GPIO_MAX_NAME_SIZE - 1) (rc_consumer c) (with_nul s));
      arr ← arr_set arr (GPIO_MAX_NAME_SIZE - 1) 0;
      mret (RequestConfig arr (rc_event_buffer_size c))
  end.
Definition gpiod_request_config_get_consumer (c : gpiod_request_config) : option (list Z) :=
  nonempty_array (rc_consumer c).
Definition gpiod_request_config_set_event_buffer_size (c : gpiod_request_config) (n : Z) :=
  RequestConfig (rc_consumer c) n.
Definition gpiod_request_config_get_event_buffer_size (c : gpiod_request_config) :=
  rc_event_buffer_size c.

Definition gpiod_request_config_to_uapi (c : gpiod_request_config)
    (u : gpio_v2_line_request) : outcome gpio_v2_line_request :=
  consumer ← access (strcpy (ur_consumer u) (rc_consumer c));
  mret (UapiRequest (ur_offsets u) consumer (ur_config u) (ur_num_lines u)
          (u32 (rc_event_buffer_size c)) (ur_fd u)).
End info.
