(* ===== verification/GpiodRequest.v ===== *)
(** * libgpiod: edge events, line requests and chips

    The event buffer ([lib/edge-event.c]), the operations on requested lines
    ([lib/line-request.c]) and the chip object ([lib/chip.c]), which composes
    the others. All of them enter the kernel. *)

From S2P Require Import Prelude GpiodBase GpiodUapi GpiodInternal GpiodSettings.
From S2P Require Import GpiodLineConfig GpiodInfo.

Definition EVENT_BUFFER_MAX_CAPACITY : Z := Z.of_nat GPIO_V2_LINES_MAX * 16.

Record gpiod_edge_event : Type := EdgeEvent {
  ee_event_type : Z;
  ee_timestamp : Z;
  ee_line_offset : Z;
  ee_global_seqno : Z;
  ee_line_seqno : Z
}.
Definition zero_edge_event : gpiod_edge_event := EdgeEvent 0 0 0 0 0.

Record gpiod_edge_event_buffer : Type := EventBuffer {
  eb_capacity : nat;
  eb_num_events : nat;
  eb_events : box (list gpiod_edge_event);
  eb_event_data : box (list gpio_v2_line_event)
}.

Record gpiod_line_request : Type := LineRequest {
  rq_chip_name : box (list Z);
  rq_offsets : list Z;
  rq_num_lines : nat;
  rq_fd : Z
}.

Record gpiod_chip : Type := Chip {
  ch_fd : Z;
  ch_path : box (list Z)
}.

Section requests.
Context {K : Type} `{!Kernel K}.

(** ** Edge events *)
Definition gpiod_edge_event_free (e : box gpiod_edge_event) : C (world K) unit := free (addr e).
Definition gpiod_edge_event_copy (e : gpiod_edge_event) :
    C (world K) (option (box gpiod_edge_event)) := malloc e.
Definition gpiod_edge_event_get_event_type (e : gpiod_edge_event) := ee_event_type e.
Definition gpiod_edge_event_get_timestamp_ns (e : gpiod_edge_event) := ee_timestamp e.
Definition gpiod_edge_event_get_line_offset (e : gpiod_edge_event) := ee_line_offset e.
Definition gpiod_edge_event_get_global_seqno (e : gpiod_edge_event) := ee_global_seqno e.
Definition gpiod_edge_event_get_line_seqno (e : gpiod_edge_event) := ee_line_seqno e.

Definition clamp_capacity (capacity : Z) : Z :=
  let capacity := if capacity =? 0 then 64 else capacity in
  if EVENT_BUFFER_MAX_CAPACITY <? capacity then EVENT_BUFFER_MAX_CAPACITY else capacity.

Definition gpiod_edge_event_buffer_new (capacity : Z) :
    C (world K) (option (box gpiod_edge_event_buffer)) :=
  let cap := Z.to_nat (clamp_capacity capacity) in
  buf ← malloc tt;
  match buf with
  | None => mret None
  | Some buf =>
      events ← malloc (replicate cap zero_edge_event);
      match events with
      | None => free (addr buf);; mret None
      | Some events =>
          event_data ← malloc (replicate cap zero_event);
          match event_data with
          | None => free (addr events);; free (addr buf);; mret None
          | Some event_data =>
              mret (Some (Box (addr buf) (EventBuffer cap 0 events event_data)))
          end
      end
  end.

Definition gpiod_edge_event_buffer_get_capacity (b : gpiod_edge_event_buffer) : Z :=
  Z.of_nat (eb_capacity b).
Definition gpiod_edge_event_buffer_free (b : option (box gpiod_edge_event_buffer)) :
    C (world K) unit :=
  match b with
  | None => mret tt
  | Some b => free (addr (eb_events (contents b)));;
              free (addr (eb_event_data (contents b)));;
              free (addr b)
  end.
Definition gpiod_edge_event_buffer_get_event (b : gpiod_edge_event_buffer) (index : nat) :
    C (world K) (option gpiod_edge_event) :=
  if decide (eb_num_events b ≤ index)%nat then set_errno EINVAL;; mret None
  else e ← lift (access (contents (eb_events b) !! index)); mret (Some e).
Definition gpiod_edge_event_buffer_get_num_events (b : gpiod_edge_event_buffer) : Z :=
  Z.of_nat (eb_num_events b).

Definition event_of_uapi (curr : gpio_v2_line_event) : gpiod_edge_event :=
  EdgeEvent
    (if ue_id curr =? GPIO_V2_LINE_EVENT_RISING_EDGE then GPIOD_EDGE_EVENT_RISING_EDGE
     else GPIOD_EDGE_EVENT_FALLING_EDGE)
    (ue_timestamp_ns curr) (ue_offset curr) (ue_seqno curr) (ue_line_seqno curr).

(** Reads into the buffer: the return code and the buffer the call leaves. *)
Definition gpiod_edge_event_buffer_read_fd (fd : Z) (buffer : option gpiod_edge_event_buffer)
    (max_events : Z) : C (world K) (Z * option gpiod_edge_event_buffer) :=
  match buffer with
  | None => set_errno EINVAL;; mret (-1, None)
  | Some b =>
      let cap := eb_capacity b in
      let data := replicate cap zero_event in
      let events := replicate cap zero_edge_event in
      let leave n ev da := Some (EventBuffer cap n (Box (addr (eb_events b)) ev)
                                   (Box (addr (eb_event_data b)) da)) in
      let max_events := if Z.of_nat cap <? max_events then Z.of_nat cap else max_events in
      '(rd, data) ← syscall (sys_read_events fd
                      (max_events * sizeof_gpio_v2_line_event) data);
      if rd <? 0 then mret (-1, leave (eb_num_events b) events data) else
      if u32 rd <? sizeof_gpio_v2_line_event
      then set_errno EIO;; mret (-1, leave (eb_num_events b) events data) else
      let num := Z.to_nat (rd / sizeof_gpio_v2_line_event) in
      events ← for_each num 0 events (λ i events,
                 curr ← lift (access (data !! i));
                 lift (arr_set events i (event_of_uapi curr)));
      mret (Z.of_nat num, leave num events data)
  end.

(** ** Line requests *)
Definition gpiod_line_request_from_uapi (u : gpio_v2_line_request) (chip_name : list Z) :
    C (world K) (option (box gpiod_line_request)) :=
  request ← malloc tt;
  match request with
  | None => mret None
  | Some request =>
      s ← lift (access (cstr chip_name));
      name ← strdup s;
      match name with
      | None => free (addr request);; mret None
      | Some name =>
          let n := Z.to_nat (ur_num_lines u) in
          (if decide (n ≤ GPIO_V2_LINES_MAX)%nat then mret tt else lift Undef);;
          let offsets := take n (ur_offsets u) ++ replicate (GPIO_V2_LINES_MAX - n) 0 in
          mret (Some (Box (addr request) (LineRequest name offsets n (ur_fd u))))
      end
  end.

Definition gpiod_line_request_release (r : option (box gpiod_line_request)) : C (world K) unit :=
  match r with
  | None => mret tt
  | Some r => close (rq_fd (contents r));; free (addr (rq_chip_name (contents r)));;
              free (addr r)
  end.

Implicit Types r : gpiod_line_request.

Definition gpiod_line_request_get_chip_name r := contents (rq_chip_name r).
Definition gpiod_line_request_get_num_requested_lines r : Z := Z.of_nat (rq_num_lines r).
Definition gpiod_line_request_get_requested_offsets r (offsets : option (list Z))
    (max_offsets : Z) : outcome (Z * option (list Z)) :=
  match offsets with
  | None => mret (0, None)
  | Some buf =>
      if max_offsets =? 0 then mret (0, Some buf) else
      let num := Nat.min (rq_num_lines r) (Z.to_nat max_offsets) in
      if decide (num ≤ length buf ∧ num ≤ length (rq_offsets r))%nat
      then mret (Z.of_nat num, Some (take num (rq_offsets r) ++ drop num buf)) else Undef
  end.

Definition offset_to_bit r (offset : Z) : C (world K) Z :=
  x ← for_loop (R:=Z) (rq_num_lines r) 0 tt (λ i _,
        o ← lift (access (rq_offsets r !! i));
        if offset =? o then mret (inr (Z.of_nat i)) else mret (inl tt));
  match x with inr i => mret i | inl _ => mret (-1) end.

(** The first loop of [gpiod_line_request_get_values_subset]; [inr] is the
    error return. *)
Definition subset_mask r (num_values : nat) (offsets : list Z) : C (world K) (Z + unit) :=
  for_loop num_values 0 0 (λ i mask,
    off ← lift (access (offsets !! i));
    bit ← offset_to_bit r off;
    if bit <? 0 then set_errno EINVAL;; mret (inr tt) else
    mask ← lift (gpiod_line_mask_set_bit mask bit);
    mret (inl mask)).

Definition gpiod_line_request_get_values_subset r (num_values : nat)
    (offsets values : option (list Z)) : C (world K) (Z * option (list Z)) :=
  match offsets, values with
  | Some offsets, Some values =>
      m ← subset_mask r num_values offsets;
      match m with
      | inr _ => mret (-1, Some values)
      | inl mask =>
          '(ret, uv) ← syscall (ioctl_get_values (rq_fd r) (LineValues 0 mask));
          if negb (ret =? 0) then mret (-1, Some values) else
          (if decide (num_values ≤ length values)%nat then mret tt else lift Undef);;
          let values := replicate num_values 0 ++ drop num_values values in
          values ← for_each num_values 0 values (λ i values,
            off ← lift (access (offsets !! i));
            bit ← offset_to_bit r off;
            b ← lift (gpiod_line_mask_test_bit (lv_bits uv) bit);
            lift (arr_set values i (if b : bool then 1 else 0)));
          mret (0, Some values)
      end
  | _, _ => set_errno EINVAL;; mret (-1, values)
  end.

Definition gpiod_line_request_get_value r (offset : Z) : C (world K) Z :=
  '(ret, vals) ← gpiod_line_request_get_values_subset r 1 (Some [offset]) (Some [0]);
  if negb (ret =? 0) then mret GPIOD_LINE_VALUE_ERROR else
  lift (access (v ← vals; v !! 0%nat)).

Definition gpiod_line_request_get_values r (values : option (list Z)) :=
  gpiod_line_request_get_values_subset r (rq_num_lines r) (Some (rq_offsets r)) values.

(** The loop of [gpiod_line_request_set_values_subset]; a [bool] parameter
    receives whether the value is non-zero. *)
Definition subset_values r (num_values : nat) (offsets values : list Z) :
    C (world K) (Z * Z + unit) :=
  for_loop num_values 0 (0, 0) (λ i '(mask, bits),
    off ← lift (access (offsets !! i));
    bit ← offset_to_bit r off;
    if bit <? 0 then set_errno EINVAL;; mret (inr tt) else
    mask ← lift (gpiod_line_mask_set_bit mask bit);
    v ← lift (access (values !! i));
    bits ← lift (gpiod_line_mask_assign_bit bits bit (negb (v =? 0)));
    mret (inl (mask, bits))).

Definition gpiod_line_request_set_values_subset r (num_values : nat)
    (offsets values : option (list Z)) : C (world K) Z :=
  match offsets, values with
  | Some offsets, Some values =>
      m ← subset_values r num_values offsets values;
      match m with
      | inr _ => mret (-1)
      | inl (mask, bits) =>
          '(ret, _) ← syscall (ioctl_set_values (rq_fd r) (LineValues bits mask));
          mret ret
      end
  | _, _ => set_errno EINVAL;; mret (-1)
  end.

Definition gpiod_line_request_set_value r (offset value : Z) : C (world K) Z :=
  gpiod_line_request_set_values_subset r 1 (Some [offset]) (Some [value]).
Definition gpiod_line_request_set_values r (values : option (list Z)) : C (world K) Z :=
  gpiod_line_request_set_values_subset r (rq_num_lines r) (Some (rq_offsets r)) values.

Definition offsets_equal r (u : gpio_v2_line_request) : C (world K) bool :=
  if negb (Z.of_nat (rq_num_lines r) =? ur_num_lines u) then mret false else
  x ← for_loop (R:=unit) (rq_num_lines r) 0 tt (λ i _,
        a ← lift (access (rq_offsets r !! i));
        b ← lift (access (ur_offsets u !! i));
        if a =? b then mret (inl tt) else mret (inr tt));
  match x with inl _ => mret true | inr _ => mret false end.

Definition gpiod_line_request_reconfigure_lines r (config : option gpiod_line_config) :
    C (world K) Z :=
  match config with
  | None => set_errno EINVAL;; mret (-1)
  | Some config =>
      '(ret, u) ← gpiod_line_config_to_uapi config zero_request;
      if negb (ret =? 0) then mret ret else
      eq ← offsets_equal r u;
      if negb eq then set_errno EINVAL;; mret (-1) else
      '(ret, _) ← syscall (ioctl_set_config (rq_fd r) (ur_config u));
      if negb (ret =? 0) then mret ret else mret 0
  end.

Definition gpiod_line_request_get_fd r : Z := rq_fd r.
Definition gpiod_line_request_wait_edge_events r (timeout_ns : Z) : C (world K) Z :=
  gpiod_poll_fd (rq_fd r) timeout_ns.
Definition gpiod_line_request_read_edge_events r (b : option gpiod_edge_event_buffer)
    (max_events : Z) := gpiod_edge_event_buffer_read_fd (rq_fd r) b max_events.

(** ** Chips *)
Definition gpiod_chip_open (path : option (list Z)) : C (world K) (option (box gpiod_chip)) :=
  match path with
  | None => set_errno EINVAL;; mret None
  | Some path =>
      ok ← gpiod_check_gpiochip_device (Some path) true;
      if negb ok then mret None else
      '(fd, _) ← syscall (sys_open path);
      if fd <? 0 then mret None else
      log_open fd;;
      chip ← malloc tt;
      match chip with
      | None => close fd;; mret None
      | Some chip =>
          p ← strdup path;
          match p with
          | None => free (addr chip);; close fd;; mret None
          | Some p => mret (Some (Box (addr chip) (Chip fd p)))
          end
      end
  end.

Definition gpiod_chip_close (chip : option (box gpiod_chip)) : C (world K) unit :=
  match chip with
  | None => mret tt
  | Some chip => close (ch_fd (contents chip));; free (addr (ch_path (contents chip)));;
                 free (addr chip)
  end.

(** The return code and the structure. *)
Definition read_chip_info (fd : Z) : C (world K) (Z * gpiochip_info) :=
  '(ret, info) ← syscall (ioctl_chipinfo fd zero_chip_info);
  if negb (ret =? 0) then mret (-1, info) else mret (0, info).

Definition gpiod_chip_get_info (chip : gpiod_chip) : C (world K) (option (box gpiod_chip_info)) :=
  '(ret, info) ← read_chip_info (ch_fd chip);
  if ret <? 0 then mret None else gpiod_chip_info_from_uapi info.
Definition gpiod_chip_get_path (chip : gpiod_chip) := contents (ch_path chip).

Definition chip_read_line_info (fd offset : Z) (watch : bool) :
    C (world K) (Z * gpio_v2_line_info) :=
  let info := UapiInfo zero_name zero_name offset 0 0
                (replicate GPIO_V2_LINE_NUM_ATTRS_MAX zero_attr) in
  '(ret, info) ← (if watch then syscall (ioctl_lineinfo_watch fd info)
                  else syscall (ioctl_lineinfo fd info));
  if negb (ret =? 0) then mret (-1, info) else mret (0, info).

Definition chip_get_line_info (chip : gpiod_chip) (offset : Z) (watch : bool) :
    C (world K) (option (box gpiod_line_info)) :=
  '(ret, info) ← chip_read_line_info (ch_fd chip) offset watch;
  if negb (ret =? 0) then mret None else gpiod_line_info_from_uapi info.
Definition gpiod_chip_get_line_info chip offset := chip_get_line_info chip offset false.
Definition gpiod_chip_watch_line_info chip offset := chip_get_line_info chip offset true.

Definition gpiod_chip_unwatch_line_info (chip : gpiod_chip) (offset : Z) : C (world K) Z :=
  '(ret, _) ← syscall (ioctl_lineinfo_unwatch (ch_fd chip) offset); mret ret.
Definition gpiod_chip_get_fd (chip : gpiod_chip) : Z := ch_fd chip.
Definition gpiod_chip_wait_info_event (chip : gpiod_chip) (timeout_ns : Z) : C (world K) Z :=
  gpiod_poll_fd (ch_fd chip) timeout_ns.
Definition gpiod_chip_read_info_event (chip : gpiod_chip) :
    C (world K) (option (box gpiod_info_event)) := gpiod_info_event_read_fd (ch_fd chip).

Definition gpiod_chip_get_line_offset_from_name (chip : gpiod_chip) (name : option (list Z)) :
    C (world K) Z :=
  match name with
  | None => set_errno EINVAL;; mret (-1)
  | Some name =>
      '(ret, chinfo) ← read_chip_info (ch_fd chip);
      if ret <? 0 then mret (-1) else
      x ← for_loop (R:=Z) (Z.to_nat (ci_lines chinfo)) 0 tt (λ offset _,
            '(ret, linfo) ← chip_read_line_info (ch_fd chip) (Z.of_nat offset) false;
            if negb (ret =? 0) then mret (inr (-1)) else
            eq ← lift (access (streq name (ui_name linfo)));
            if eq : bool then mret (inr (s32 (Z.of_nat offset))) else mret (inl tt));
      match x with inr r => mret r | inl _ => set_errno ENOENT;; mret (-1) end
  end.

Definition gpiod_chip_request_lines (chip : gpiod_chip)
    (req_cfg : option gpiod_request_config) (line_cfg : option gpiod_line_config) :
    C (world K) (option (box gpiod_line_request)) :=
  match line_cfg with
  | None => set_errno EINVAL;; mret None
  | Some line_cfg =>
      u ← match req_cfg with
          | None => mret zero_request
          | Some rc => lift (gpiod_request_config_to_uapi rc zero_request)
          end;
      '(ret, u) ← gpiod_line_config_to_uapi line_cfg u;
      if negb (ret =? 0) then mret None else
      '(ret, info) ← read_chip_info (ch_fd chip);
      if ret <? 0 then mret None else
      '(ret, u) ← syscall (ioctl_get_line (ch_fd chip) u);
      if ret <? 0 then mret None else
      log_open (ur_fd u);;
      request ← gpiod_line_request_from_uapi u (ci_name info);
      match request with
      | None => close (ur_fd u);; mret None
      | Some request => mret (Some request)
      end
  end.
End requests.
