(* ===== verification/GpiodRequestSpec.v ===== *)
(** * libgpiod: lemmas on requests, events and chips

    Memory and descriptors are balanced on every error path; offsets map to
    bits; values set are the values read; events and names are decoded as the
    kernel sends them. *)

From S2P Require Import Prelude GpiodBase GpiodUapi GpiodInternal GpiodSettings.
From S2P Require Import GpiodLineConfig GpiodInfo GpiodRequest.

Section memory.
Context {K : Type} `{!Kernel K}.
Implicit Types w : world K.

Lemma wp_realpath p w (Φ : option (box (list Z)) → world K → Prop) :
  fresh_ok w →
  (∀ w', same_mem w w' → Φ None w') →
  (∀ b w', allocated w (addr b) w' → Φ (Some b) w') →
  wp (realpath p) Φ w.
Proof.
  intros Hf Hn Hs. unfold realpath. wps. apply wp_syscall. intros r k _.
  destruct (ret r <? 0); wps; [apply Hn; by split|].
  apply wp_malloc_frame; [done| |].
  - intros w' [] _ _ _. apply Hn. by split.
  - intros b w' _ [] _ _. apply Hs. by split.
Qed.

Lemma wp_check_realname name w :
  fresh_ok w → wp (check_realname name) (λ _ w', same_mem w w') w.
Proof.
  intros Hf. unfold check_realname. wps. apply wp_syscall. intros r k _.
  set (w1 := if ret r <? 0 then _ else _).
  assert (same_mem w w1) as H1 by apply same_mem_syscall.
  destruct (negb (ret r =? 0)); wps; [done|].
  destruct (negb (S_ISCHR _)); wps; [by destruct H1; split|].
  apply wp_realpath; [eauto with gpiod| |].
  - intros w2 H2. wps. by transitivity w1.
  - intros b w2 Ha. wps.
    assert (∀ e (x : bool),
      wp (free (addr b)) (λ _, wp (mret x) (λ _ w', same_mem w w')) (with_errno e w2)) as Hfree.
    { intros e x. eapply wp_free_frame; [done|apply same_mem_errno|].
      intros w3 H3 _ _. wps. by transitivity w1. }
    case_bool_decide; wps; [apply (Hfree 0)|apply (Hfree ENODEV)].
Qed.

(** The device check never leaks, whatever the kernel answers. *)
Lemma wp_check_device path keep w :
  fresh_ok w →
  wp (gpiod_check_gpiochip_device path keep)
    (λ _ w', same_mem w w' ∧ (keep = false → errno w' = 0)) w.
Proof.
  intros Hf. unfold gpiod_check_gpiochip_device. wp_step.
  assert (∀ w1 (r : bool), same_mem w w1 →
    wp (if keep then mret tt else set_errno 0) (λ _, wp (mret r)
      (λ _ w', same_mem w w' ∧ (keep = false → errno w' = 0))) w1) as Hend.
  { intros w1 r H1. destruct keep; wps; [done|]. split; [by destruct H1; split|done]. }
  destruct path as [path|]; [|wps; apply Hend; by split].
  wps. apply wp_syscall. intros r k _. set (w1 := if ret r <? 0 then _ else _).
  assert (same_mem w w1) as H1 by apply same_mem_syscall.
  assert (fresh_ok w1) as Hf1 by eauto with gpiod.
  destruct (negb (ret r =? 0)); wps; [by apply Hend|].
  assert (∀ b w2, allocated w1 (addr b) w2 →
    wp (r0 ← check_realname (contents b); free (addr b);; mret r0)
      (λ a, wp ((if keep then mret tt else set_errno 0);; mret a)
        (λ _ w', same_mem w w' ∧ (keep = false → errno w' = 0))) w2) as Hname.
  { intros b w2 Ha. wps. eapply wp_mono; [apply wp_check_realname; eauto with gpiod|].
    intros x w3 H3. wps. eapply wp_free_frame; [done|done|]. intros w4 H4 _ _. wps.
    apply Hend. by transitivity w1. }
  destruct (S_ISLNK _).
  - apply wp_realpath; [done| |done]. intros w2 H2. wps. apply Hend. by transitivity w1.
  - apply wp_malloc_frame; [done| |].
    + intros w2 H2 _ _ _. wps. apply Hend. by transitivity w1.
    + intros b w2 _ Ha _ _. by apply Hname.
Qed.

(** ** Opening a chip: on failure nothing is leaked, on success the chip owns
    two new blocks and the new descriptor. *)
Lemma wp_chip_open path w :
  fresh_ok w →
  wp (gpiod_chip_open path) (λ r w', match r with
    | None => live w' = live w ∧
        ∃ fds, opened w' = opened w ++ fds ∧ closed w' = closed w ++ fds
    | Some b => closed w' = closed w ∧ opened w' = opened w ++ [ch_fd (contents b)] ∧
        live w' = {[addr b; addr (ch_path (contents b))]} ∪ live w ∧
        addr b ∉ live w ∧ addr (ch_path (contents b)) ∉ live w ∧
        addr b ≠ addr (ch_path (contents b)) ∧
        path = Some (contents (ch_path (contents b)))
    end) w.
Proof.
  intros Hf. unfold gpiod_chip_open. destruct path as [path|].
  2: { wps. split; [done|]. exists []. by rewrite !app_nil_r. }
  wps. eapply wp_mono; [by apply wp_check_device|]. intros ok w1 [H1 _].
  assert (live w1 = live w ∧
    ∃ fds, opened w1 = opened w ++ fds ∧ closed w1 = closed w ++ fds) as Hn.
  { destruct H1. split; [done|]. exists []. by rewrite !app_nil_r. }
  destruct ok; simpl; wps; [|done]. apply wp_syscall. intros r k _.
  destruct (Z.ltb_spec (ret r) 0) as [Hneg|Hfd]; wps; [done|].
  destruct H1 as [El En Eo Ec].
  set (w2 := World (K:=K) _ _ _ _ _ _ _).
  assert (fresh_ok w2) as Hf2 by (intros a Ha; simpl in *; rewrite El in Ha; specialize (Hf a Ha); lia).
  assert (∀ w', same_mem w2 w' → wp (close (ret r);; mret None) (λ (r : option (box gpiod_chip)) w',
    match r with
    | None => live w' = live w ∧
        ∃ fds, opened w' = opened w ++ fds ∧ closed w' = closed w ++ fds
    | Some _ => False end) w') as Hclose.
  { intros w' [El' _ Eo' Ec']. wps. simpl. split; [by rewrite El'|].
    exists [ret r]. rewrite Eo', Ec'. simpl. by rewrite Eo, Ec. }
  apply wp_malloc_frame; [done| |].
  - intros w3 H3 _ _ _. eapply wp_mono; [by apply Hclose|]. by intros [|].
  - intros b w3 _ Ha3 _ _. wps. unfold strdup.
    apply wp_malloc_frame; [eauto with gpiod| |].
    + intros w4 H4 _ _ _. wps. eapply wp_free_frame; [done|done|].
      intros w5 H5 _ _. eapply wp_mono; [by apply Hclose|]. by intros [|].
    + intros p w4 Hp Ha4 _ _. wps. destruct Ha3 as [Hn3 El3 _ _ Eo3 Ec3], Ha4 as [Hn4 El4 _ _ Eo4 Ec4].
      simpl in *. rewrite El3, El in Hn4. rewrite El in Hn3.
      repeat split_and!; [congruence|congruence| |done|set_solver|set_solver|congruence].
      rewrite El4, El3, El. clear. set_solver.
Qed.

(** ** The event buffer *)
Lemma clamp_capacity_range n : 0 ≤ n → 1 ≤ clamp_capacity n ≤ EVENT_BUFFER_MAX_CAPACITY.
Proof.
  unfold clamp_capacity. change EVENT_BUFFER_MAX_CAPACITY with 1024. intros.
  destruct (Z.eqb_spec n 0) as [->|]; [simpl; lia|].
  destruct (Z.ltb_spec 1024 n); lia.
Qed.

(** A buffer holds as many events and records as its capacity, and no more
    events than that are valid. *)
Record buffer_ok (b : gpiod_edge_event_buffer) : Prop := {
  bo_events : length (contents (eb_events b)) = eb_capacity b;
  bo_data : length (contents (eb_event_data b)) = eb_capacity b;
  bo_num : (eb_num_events b ≤ eb_capacity b)%nat;
  bo_cap : Z.of_nat (eb_capacity b) ≤ EVENT_BUFFER_MAX_CAPACITY
}.

Lemma wp_buffer_new n w :
  fresh_ok w → 0 ≤ n →
  wp (gpiod_edge_event_buffer_new n) (λ r w', match r with
    | None => same_mem w w' ∧ errno w' = ENOMEM
    | Some b => buffer_ok (contents b) ∧
        eb_capacity (contents b) = Z.to_nat (clamp_capacity n) ∧
        eb_num_events (contents b) = 0%nat ∧
        wp (gpiod_edge_event_buffer_free (Some b)) (λ _ w'', live w'' = live w) w'
    end) w.
Proof.
  intros Hf Hpos. pose proof (clamp_capacity_range n Hpos).
  unfold gpiod_edge_event_buffer_new. wps.
  apply wp_malloc_frame; [done|done|]. intros b1 w1 _ Ha1 _ _. wps.
  apply wp_malloc_frame; [eauto with gpiod| |].
  { intros w2 H2 He _ _. wps. eapply wp_free_frame; [done|done|].
    intros w3 H3 He3 _. wps. split; [done|congruence]. }
  intros b2 w2 Hb2 Ha2 _ _. wps. apply wp_malloc_frame; [eauto with gpiod| |].
  { intros w3 H3 He _ _. wps. eapply wp_free_frame; [done|done|].
    intros w4 H4 He4 _. wps. eapply wp_free_frame; [done|done|].
    intros w5 H5 He5 _. wps. split; [done|congruence]. }
  intros b3 w3 Hb3 Ha3 _ _. wps. repeat split_and!; try done.
  { split; simpl; rewrite ?Hb2, ?Hb3, ?length_replicate; lia. }
  simpl. destruct Ha1 as [N1 L1 _ _ _ _], Ha2 as [N2 L2 _ _ _ _], Ha3 as [N3 L3 _ _ _ _].
  wps. apply wp_free; [set_solver|]. wps. apply wp_free; [simpl; set_solver|].
  apply wp_free; [simpl; set_solver|]. simpl. rewrite L3, L2, L1. clear - N1 N2 N3 L1 L2.
  rewrite L2, L1 in N3. rewrite L1 in N2. apply set_eq. intros x. set_unfold. naive_solver.
Qed.
End memory.

(** ** Offsets and bits

    A request holds its lines in the first [rq_num_lines] entries of a fixed
    array; the bit of a line is its first index there. *)
Record request_ok (r : gpiod_line_request) : Prop := {
  ro_len : length (rq_offsets r) = GPIO_V2_LINES_MAX;
  ro_num : (rq_num_lines r ≤ GPIO_V2_LINES_MAX)%nat
}.
Definition line_bit (r : gpiod_line_request) (off : Z) : option nat :=
  fst <$> list_find (λ o, o = off) (take (rq_num_lines r) (rq_offsets r)).

(** The last value assigned to bit [j] when [vs] is written to the bits [js]. *)
Definition last_assigned (js : list nat) (vs : list Z) (j : nat) : option bool :=
  foldl (λ acc '(k, v), if decide (k = j) then Some (negb (v =? 0)) else acc) None (zip js vs).

Lemma line_bit_Some r off i :
  line_bit r off = Some i → (i < rq_num_lines r)%nat ∧ rq_offsets r !! i = Some off.
Proof.
  unfold line_bit. intros ([i' o] & (H & -> & _)%list_find_Some & ?)%fmap_Some.
  simplify_eq/=. apply lookup_take_Some in H. tauto.
Qed.
Lemma line_bit_64 r off i : request_ok r → line_bit r off = Some i → (i < 64)%nat.
Proof. intros [_ H] [? _]%line_bit_Some. unfold GPIO_V2_LINES_MAX in H. lia. Qed.
Lemma line_bit_is_Some r off :
  off ∈ take (rq_num_lines r) (rq_offsets r) → line_bit r off ≠ None.
Proof.
  unfold line_bit. intros Hin H%fmap_None%list_find_None. rewrite Forall_forall in H.
  by apply (H off Hin).
Qed.
Lemma line_bit_inj r o o' i : line_bit r o = Some i → line_bit r o' = Some i → o = o'.
Proof. intros [_ ?]%line_bit_Some [_ ?]%line_bit_Some. congruence. Qed.

Lemma last_assigned_snoc js vs k v j :
  length js = length vs →
  last_assigned (js ++ [k]) (vs ++ [v]) j =
  if decide (k = j) then Some (negb (v =? 0)) else last_assigned js vs j.
Proof.
  intros. unfold last_assigned. rewrite zip_with_app by done. by rewrite foldl_app.
Qed.
Lemma last_assigned_None js vs j : length js = length vs → j ∉ js → last_assigned js vs j = None.
Proof.
  revert vs. induction js as [|k js IH] using rev_ind; intros vs Hl Hj; [done|].
  destruct vs as [|v vs _] using rev_ind; [rewrite length_app in Hl; simpl in Hl; lia|].
  rewrite !length_app in Hl; simpl in Hl. rewrite last_assigned_snoc by lia.
  rewrite decide_False by set_solver. apply IH; [lia|set_solver].
Qed.
(** Without repetitions every bit receives its own value. *)
Lemma last_assigned_nodup js vs i j v :
  NoDup js → length js = length vs → js !! i = Some j → vs !! i = Some v →
  last_assigned js vs j = Some (negb (v =? 0)).
Proof.
  revert vs. induction js as [|k js IH] using rev_ind; intros vs Hn Hl Hj Hv; [done|].
  destruct vs as [|x vs _] using rev_ind; [rewrite length_app in Hl; simpl in Hl; lia|].
  rewrite !length_app in Hl; simpl in Hl. rewrite last_assigned_snoc by lia.
  apply NoDup_app in Hn as (Hn & Hd & _).
  destruct (decide (i = length js)) as [->|Hne].
  - rewrite list_lookup_middle in Hj by done. rewrite list_lookup_middle in Hv by lia.
    simplify_eq. by rewrite decide_True.
  - assert (i < length js)%nat.
    { apply lookup_lt_Some in Hj. rewrite length_app in Hj. simpl in Hj. lia. }
    rewrite lookup_app_l in Hj by done. rewrite lookup_app_l in Hv by lia.
    rewrite decide_False; [by apply IH; [|lia|..]|].
    intros ->. apply (Hd j); [by eapply list_elem_of_lookup_2|set_solver].
Qed.

Section values.
Context {K : Type} `{!Kernel K} (r : gpiod_line_request) (Hr : request_ok r).
Implicit Types w : world K.

Lemma wp_offset_to_bit off w (Φ : Z → world K → Prop) :
  (∀ i, line_bit r off = Some i → (i < 64)%nat → Φ (Z.of_nat i) w) →
  (line_bit r off = None → Φ (-1) w) →
  wp (offset_to_bit r off) Φ w.
Proof.
  intros Hs Hn. destruct Hr as [Hlen Hnum]. unfold offset_to_bit. wps.
  apply (wp_for (λ i _ w', w' = w ∧ ∀ k, (k < i)%nat → rq_offsets r !! k ≠ Some off)).
  - split; [done|lia].
  - intros i _ w' Hi [-> Hk]. wps.
    destruct (lookup_lt_is_Some_2 (rq_offsets r) i) as [o Ho]; [lia|].
    apply (owp_access _ o); [done|]. destruct (Z.eqb_spec off o) as [<-|Hne]; wps.
    + assert (line_bit r off = Some i); [|by eauto using line_bit_64].
      unfold line_bit. apply fmap_Some. exists (i, off). split; [|done].
      apply list_find_Some. split_and!; [|done|].
      * apply lookup_take_Some. split; [done|lia].
      * intros j o' [Ho' _]%lookup_take_Some Hj ->. by apply (Hk j).
    + split; [done|]. intros k Hlt. destruct (decide (k = i)) as [->|]; [congruence|].
      apply Hk. lia.
  - intros _ w' [-> Hk]. wps. apply Hn. unfold line_bit. apply fmap_None.
    apply list_find_None, Forall_lookup. intros k o [Ho ?]%lookup_take_Some ->.
    apply (Hk k); [lia|done].
Qed.

(** The bits of the first [n] offsets. *)
Definition bits_of (n : nat) (offs : list Z) (js : list nat) : Prop :=
  Forall2 (λ o j, line_bit r o = Some j) (take n offs) js.

Lemma bits_of_S n offs js o j :
  bits_of n offs js → offs !! n = Some o → line_bit r o = Some j →
  bits_of (S n) offs (js ++ [j]).
Proof.
  intros H Ho Hj. unfold bits_of. rewrite (take_S_r _ _ o) by done.
  apply Forall2_app; [done|]. by constructor.
Qed.
Lemma bits_of_length n offs js :
  bits_of n offs js → (n ≤ length offs)%nat → length js = n.
Proof. intros H%Forall2_length ?. rewrite length_take in H. lia. Qed.
Lemma bits_of_at n offs js i o :
  bits_of n offs js → (i < n)%nat → offs !! i = Some o → ∃ j, js !! i = Some j ∧ line_bit r o = Some j.
Proof.
  intros H Hi Ho. eapply Forall2_lookup_l in H; [done|]. by apply lookup_take_Some.
Qed.
Lemma bits_of_64 n offs js j : bits_of n offs js → j ∈ js → (j < 64)%nat.
Proof.
  intros H (i & Hj)%list_elem_of_lookup_1. eapply Forall2_lookup_r in H as (o & _ & ?); [|done].
  by eapply line_bit_64.
Qed.

Lemma wp_subset_mask n offs w (Φ : Z + unit → world K → Prop) :
  (n ≤ length offs)%nat →
  (∀ js m, bits_of n offs js → 0 ≤ m → (∀ j, bit m j = bool_decide (j ∈ js)) →
     Φ (inl m) w) →
  (∀ o, o ∈ take n offs → line_bit r o = None → Φ (inr tt) (with_errno EINVAL w)) →
  wp (subset_mask r n offs) Φ w.
Proof.
  intros Hn Hs He. unfold subset_mask.
  apply (wp_for (λ i m w', w' = w ∧ 0 ≤ m ∧
    ∃ js, bits_of i offs js ∧ ∀ j, bit m j = bool_decide (j ∈ js))).
  - split_and!; [done|done|]. exists []. split; [constructor|]. intros j. by rewrite bit_0.
  - intros i m w' Hi (-> & Hm & js & Hjs & Hb). wps.
    destruct (lookup_lt_is_Some_2 offs i) as [o Ho]; [lia|].
    apply (owp_access _ o); [done|]. wps. apply wp_offset_to_bit.
    + intros j Hj Hlt. rewrite (proj2 (Z.ltb_ge _ _)) by lia. wps.
      apply owp_set_bit; [done|]. intros m' Hm' Hb'. wps. split_and!; [done|auto|].
      exists (js ++ [j]). split; [by eapply bits_of_S|]. intros j'. rewrite Hb', Hb.
      apply eq_true_iff_eq. rewrite orb_true_iff, !bool_decide_eq_true. set_solver.
    + intros Hnone. rewrite (proj2 (Z.ltb_lt _ _)) by lia. wps. eapply He; [|done].
      eapply list_elem_of_lookup_2, lookup_take_Some. split; [done|lia].
  - intros m w' (-> & Hm & js & Hjs & Hb). by eapply Hs.
Qed.

Lemma wp_subset_values n offs vs w (Φ : Z * Z + unit → world K → Prop) :
  (n ≤ length offs)%nat → (n ≤ length vs)%nat →
  (∀ js m b, bits_of n offs js → 0 ≤ m → 0 ≤ b → (∀ j, bit m j = bool_decide (j ∈ js)) →
     (∀ j, (j < 64)%nat →
        (if bit m j then Some (bit b j) else None) = last_assigned js (take n vs) j) →
     Φ (inl (m, b)) w) →
  (∀ o, o ∈ take n offs → line_bit r o = None → Φ (inr tt) (with_errno EINVAL w)) →
  wp (subset_values r n offs vs) Φ w.
Proof.
  intros Hn Hv Hs He. unfold subset_values.
  apply (wp_for (λ i '(m, b) w', w' = w ∧ 0 ≤ m ∧ 0 ≤ b ∧
    ∃ js, bits_of i offs js ∧ (∀ j, bit m j = bool_decide (j ∈ js)) ∧
      ∀ j, (j < 64)%nat →
        (if bit m j then Some (bit b j) else None) = last_assigned js (take i vs) j)).
  - split_and!; [done..|]. exists [].
    split_and!; [constructor|intros j; by rewrite bit_0|intros; by rewrite bit_0].
  - intros i [m b] w' Hi (-> & Hm & Hb0 & js & Hjs & Hb & Hlast). wps.
    destruct (lookup_lt_is_Some_2 offs i) as [o Ho]; [lia|].
    destruct (lookup_lt_is_Some_2 vs i) as [v Hvi]; [lia|].
    apply (owp_access _ o); [done|]. wps. apply wp_offset_to_bit.
    + intros j Hj Hlt. rewrite (proj2 (Z.ltb_ge _ _)) by lia. wps.
      apply owp_set_bit; [done|]. intros m' Hm' Hb'. wps.
      apply (owp_access _ v); [done|]. wps.
      apply owp_assign_bit; [done|]. intros b' Hbp Hbb. wps.
      split_and!; [done|auto|auto|].
      exists (js ++ [j]). split_and!; [by eapply bits_of_S| |].
      * intros j'. rewrite Hb', Hb.
        apply eq_true_iff_eq. rewrite orb_true_iff, !bool_decide_eq_true. set_solver.
      * intros j' Hj'. rewrite (take_S_r _ _ v) by done.
        rewrite last_assigned_snoc
          by (rewrite length_take, (bits_of_length i offs js) by (done || lia); lia).
        rewrite Hb', Hbb by done. destruct (decide (j' = j)) as [->|Hne].
        -- by rewrite bool_decide_true, orb_true_r, decide_True.
        -- rewrite bool_decide_false, orb_false_r, decide_False by done. by apply Hlast.
    + intros Hnone. rewrite (proj2 (Z.ltb_lt _ _)) by lia. wps. eapply He; [|done].
      eapply list_elem_of_lookup_2, lookup_take_Some. split; [done|lia].
  - intros [m b] w' (-> & Hm & Hb0 & js & Hjs & Hb & Hlast). by eapply Hs.
Qed.

(** What a system call leaves in errno and in the kernel. *)
Definition after_sys {A} w (s : sysret A) (k : K) : world K :=
  if ret s <? 0 then with_errno (err s) (with_kern k w) else with_kern k w.

(** Reading a subset: an unknown offset is refused before the kernel is
    entered; otherwise one call with the mask of the lines, whose bits are
    returned in the order of the offsets. *)
Lemma wp_get_values_subset n offs vals w (Φ : Z * option (list Z) → world K → Prop) :
  (n ≤ length offs)%nat → (n ≤ length vals)%nat →
  (∀ js m s k, bits_of n offs js → (∀ j, bit m j = bool_decide (j ∈ js)) →
     ioctl_get_values (rq_fd r) (LineValues 0 m) (kern w) = (s, k) →
     Φ (if ret s =? 0
        then (0, Some (((λ j, if bit (lv_bits (out s)) j then 1 else 0) <$> js) ++ drop n vals))
        else (-1, Some vals)) (after_sys w s k)) →
  (∀ o, o ∈ take n offs → line_bit r o = None →
     Φ (-1, Some vals) (with_errno EINVAL w)) →
  wp (gpiod_line_request_get_values_subset r n (Some offs) (Some vals)) Φ w.
Proof.
  intros Hn Hv Hs He. unfold gpiod_line_request_get_values_subset. wps.
  apply wp_subset_mask; [done| |by intros; wps; eauto].
  intros js m Hjs Hm Hb. wps. apply wp_syscall. intros s k Hio.
  fold (after_sys w s k). specialize (Hs js m s k Hjs Hb Hio).
  destruct (ret s =? 0); simpl; wps; [|done]. rewrite decide_True by done. wps.
  set (f := λ j, if bit (lv_bits (out s)) j then 1 else 0) in *.
  pose proof (bits_of_length _ _ _ Hjs Hn) as Hlen.
  apply (wp_each (λ i vs w', w' = after_sys w s k ∧
    vs = (f <$> take i js) ++ replicate (n - i) 0 ++ drop n vals)).
  - split; [done|]. by rewrite Nat.sub_0_r.
  - intros i vs w' Hi [-> ->]. wps.
    destruct (lookup_lt_is_Some_2 offs i) as [o Ho]; [lia|].
    apply (owp_access _ o); [done|]. wps.
    destruct (bits_of_at _ _ _ i o Hjs) as (j & Hj & Hbit); [lia|done|].
    apply wp_offset_to_bit; [|congruence]. intros j' Hj' H64. assert (j' = j) as -> by congruence. wps.
    apply owp_test_bit; [done|]. wps. apply owp_arr_set.
    + rewrite !length_app, length_fmap, length_take, length_replicate, length_drop. lia.
    + split; [done|]. rewrite (take_S_r _ _ j) by done.
      rewrite insert_app_r_alt; rewrite length_fmap, length_take; [|lia].
      replace (i - i `min` length js)%nat with 0%nat by lia.
      replace (n - i)%nat with (S (n - S i)) by lia. simpl.
      rewrite fmap_app, <-app_assoc. done.
  - intros vs w' [-> ->]. wps. rewrite take_ge in * by lia.
    replace (n - (0 + n))%nat with 0%nat by lia. done.
Qed.

Lemma wp_set_values_subset n offs vs w (Φ : Z → world K → Prop) :
  (n ≤ length offs)%nat → (n ≤ length vs)%nat →
  (∀ js m b s k, bits_of n offs js → (∀ j, bit m j = bool_decide (j ∈ js)) →
     (∀ j, (j < 64)%nat →
        (if bit m j then Some (bit b j) else None) = last_assigned js (take n vs) j) →
     ioctl_set_values (rq_fd r) (LineValues b m) (kern w) = (s, k) →
     Φ (ret s) (after_sys w s k)) →
  (∀ o, o ∈ take n offs → line_bit r o = None → Φ (-1) (with_errno EINVAL w)) →
  wp (gpiod_line_request_set_values_subset r n (Some offs) (Some vs)) Φ w.
Proof.
  intros Hn Hv Hs He. unfold gpiod_line_request_set_values_subset. wps.
  apply wp_subset_values; [done|done| |by intros; wps; eauto].
  intros js m b Hjs Hm Hb0 Hb Hlast. wps. apply wp_syscall. intros s k Hio. wps. eauto.
Qed.
End values.

(** ** What the kernel documents

    [uapi/gpio.h]: the lines of a request have levels, the set call writes the
    bits under the mask and the get call reads them. *)
Class ValueKernel (K : Type) `{!Kernel K} : Type := {
  level : K → Z → nat → bool;
  vk_set fd v k s k' :
    ioctl_set_values fd v k = (s, k') → ret s = 0 → ∀ j, (j < 64)%nat →
    level k' fd j = if bit (lv_mask v) j then bit (lv_bits v) j else level k fd j;
  vk_get fd v k s k' :
    ioctl_get_values fd v k = (s, k') → ret s = 0 → ∀ j, (j < 64)%nat →
    bit (lv_mask v) j = true → bit (lv_bits (out s)) j = level k fd j
}.

(** [read] fills at most the bytes asked for. *)
Class ReadKernel (K : Type) `{!Kernel K} : Prop := {
  rk_read fd n buf k s k' :
    sys_read_events fd n buf k = (s, k') → 0 ≤ n →
    ret s ≤ n ∧ length (out s) = length buf
}.

(** The lines of a chip have names; they do not change while they are read. *)
Class NameKernel (K : Type) `{!Kernel K} : Type := {
  line_names : K → Z → list (list Z);
  nk_info fd i k s k' :
    ioctl_chipinfo fd i k = (s, k') →
    ret s = 0 ∧ ci_lines (out s) = Z.of_nat (length (line_names k fd)) ∧
    line_names k' fd = line_names k fd;
  nk_line fd i k s k' n nm :
    ioctl_lineinfo fd i k = (s, k') → ui_offset i = Z.of_nat n →
    line_names k fd !! n = Some nm →
    ret s = 0 ∧ cstr (ui_name (out s)) = Some nm ∧ line_names k' fd = line_names k fd
}.

(** A granted request comes back as it was sent, with a descriptor; the name of
    a chip is a C string. *)
Class RequestKernel (K : Type) `{!Kernel K} : Prop := {
  qk_line fd u k s k' :
    ioctl_get_line fd u k = (s, k') → 0 ≤ ret s →
    ur_offsets (out s) = ur_offsets u ∧ ur_num_lines (out s) = ur_num_lines u;
  qk_name fd i k s k' :
    ioctl_chipinfo fd i k = (s, k') → ret s = 0 → is_Some (cstr (ci_name (out s)))
}.

Section round_trip.
Context {K : Type} `{!Kernel K, !ValueKernel K} (r : gpiod_line_request) (Hr : request_ok r).
Implicit Types w : world K.

(** The levels after a successful write. *)
Lemma wp_set_levels n offs vs w :
  (n ≤ length offs)%nat → (n ≤ length vs)%nat →
  wp (gpiod_line_request_set_values_subset r n (Some offs) (Some vs)) (λ rc w',
    (rc = -1 ∧ w' = with_errno EINVAL w ∧ ∃ o, o ∈ take n offs ∧ line_bit r o = None) ∨
    (∃ js v, bits_of r n offs js ∧ rc = ret (ioctl_set_values (rq_fd r) v (kern w)).1 ∧
       (rc = 0 → ∀ j, (j < 64)%nat → level (kern w') (rq_fd r) j =
          default (level (kern w) (rq_fd r) j) (last_assigned js (take n vs) j)))) w.
Proof.
  intros Hn Hv. apply wp_set_values_subset; [done..| |by eauto 10].
  intros js m b s k Hjs Hb Hlast Hio. right. exists js, (LineValues b m).
  split_and!; [done|by rewrite Hio|]. intros Hret j Hj. unfold after_sys. rewrite Hret. simpl.
  rewrite (vk_set _ _ _ _ _ Hio Hret j Hj). simpl. rewrite <-Hlast by done.
  by destruct (bit m j).
Qed.

(** The values of a successful read are the levels. *)
Lemma wp_get_levels n offs vals w :
  (n ≤ length offs)%nat → (n ≤ length vals)%nat →
  wp (gpiod_line_request_get_values_subset r n (Some offs) (Some vals)) (λ '(rc, vals') w',
    (rc = -1 ∧ vals' = Some vals ∧
       ((∃ o, o ∈ take n offs ∧ line_bit r o = None) ∨
        ∃ v, ret (ioctl_get_values (rq_fd r) v (kern w)).1 ≠ 0)) ∨
    (rc = 0 ∧ ∃ js, bits_of r n offs js ∧
       vals' = Some (((λ j, if level (kern w) (rq_fd r) j then 1 else 0) <$> js) ++ drop n vals))) w.
Proof.
  intros Hn Hv. apply wp_get_values_subset; [done..| |by eauto 10].
  intros js m s k Hjs Hb Hio. destruct (Z.eqb_spec (ret s) 0) as [Hret|].
  2: { left. split_and!; [done..|]. right. eexists. by rewrite Hio. }
  right. split; [done|]. exists js. split; [done|]. do 2 f_equal.
  apply list_fmap_ext. intros i j Hj. apply list_elem_of_lookup_2 in Hj.
  rewrite (vk_get _ _ _ _ _ Hio Hret j); [done|by eapply bits_of_64|].
  simpl. rewrite Hb. by apply bool_decide_eq_true.
Qed.

Lemma bits_of_nodup n offs js :
  bits_of r n offs js → NoDup (take n offs) → NoDup js.
Proof.
  unfold bits_of. induction 1 as [|o j os js' Hoj H IH]; intros Hnd; [constructor|].
  apply NoDup_cons in Hnd as [Ho Hnd]. constructor; [|by apply IH].
  intros (i & Hi)%list_elem_of_lookup_1. apply Ho.
  eapply Forall2_lookup_r in H as (o' & Ho' & Hb); [|done].
  rewrite (line_bit_inj r o o' j Hoj Hb). by eapply list_elem_of_lookup_2.
Qed.
Lemma bits_of_fun n offs js js' : bits_of r n offs js → bits_of r n offs js' → js = js'.
Proof.
  unfold bits_of. intros H. revert js'. induction H as [|o j os js Hoj H IH]; intros js' H'.
  - by inversion H'.
  - inversion H' as [|? ? ? ? Ho' Ht]; subst. f_equal; [congruence|by apply IH].
Qed.

(** What is written is what is read back, when the lines are requested and the
    kernel carries the calls out. *)
Lemma wp_set_get offs vs vals w :
  length vs = length offs → length vals = length offs → NoDup offs →
  Forall (λ o, o ∈ take (rq_num_lines r) (rq_offsets r)) offs →
  (∀ v k, ret (ioctl_set_values (rq_fd r) v k).1 = 0) →
  (∀ v k, ret (ioctl_get_values (rq_fd r) v k).1 = 0) →
  wp (rc ← gpiod_line_request_set_values_subset r (length offs) (Some offs) (Some vs);
      '(rc', out) ← gpiod_line_request_get_values_subset r (length offs) (Some offs) (Some vals);
      mret (rc, rc', out))
    (λ res _, res = (0, 0, Some ((λ v, if v =? 0 then 0 else 1) <$> vs))) w.
Proof.
  intros Hvs Hvals Hnd Hin Hset0 Hget0.
  assert (¬ ∃ o, o ∈ take (length offs) offs ∧ line_bit r o = None) as Hno.
  { rewrite take_ge by done. intros (o & Ho & Hb). rewrite Forall_forall in Hin.
    by apply (line_bit_is_Some r o); [apply Hin|]. }
  wps. eapply wp_mono; [apply wp_set_levels; lia|].
  intros rc w1 [(_ & _ & ?)|(js & v & Hjs & Hrc & Hlev)]; [done|].
  rewrite Hset0 in Hrc. subst rc. wps.
  eapply wp_mono; [apply wp_get_levels; lia|]. intros [rc out] w2 Hget. wps.
  destruct Hget as [(_ & _ & [?|[v' Hv']])|(-> & js' & Hjs' & ->)]; [done|by rewrite Hget0 in Hv'|].
  rewrite (bits_of_fun _ _ _ _ Hjs' Hjs), drop_ge, app_nil_r by lia.
  pose proof (bits_of_length r _ _ _ Hjs (le_n _)) as Hl.
  apply bits_of_nodup in Hjs as Hn; [|by rewrite take_ge by lia].
  do 2 f_equal. apply list_eq. intros i. rewrite !list_lookup_fmap.
  destruct (js !! i) as [j|] eqn:Hj; simpl.
  - destruct (lookup_lt_is_Some_2 vs i) as [x Hx]; [apply lookup_lt_Some in Hj; lia|].
    rewrite Hx. simpl. rewrite Hlev.
    + rewrite take_ge by lia. rewrite (last_assigned_nodup js vs i j x) by (done || lia).
      simpl. by destruct (x =? 0).
    + done.
    + eapply (bits_of_64 r Hr _ _ js); [done|]. by eapply list_elem_of_lookup_2.
  - rewrite (lookup_ge_None_2 vs i); [done|]. apply lookup_ge_None in Hj. lia.
Qed.
End round_trip.
