(* ===== verification/GpiodChipSpec.v ===== *)
(** * libgpiod: lemmas on events, names and requests

    Reading edge events, looking a line up by name, requesting lines, the
    consumer string and the decoding of line information, each against what
    the kernel documents (the classes of [GpiodRequestSpec]). *)

From S2P Require Import Prelude GpiodBase GpiodUapi GpiodInternal GpiodSettings.
From S2P Require Import GpiodLineConfig GpiodLineConfigSpec GpiodEncode GpiodInfo.
From S2P Require Import GpiodRequest GpiodRequestSpec.

(** ** Reading edge events *)
Section read.
Context {K : Type} `{!Kernel K, !ReadKernel K}.
Implicit Types w : world K.

(** The bytes asked for: never more than the buffer holds. *)
Definition read_size (b : gpiod_edge_event_buffer) (n : Z) : Z :=
  Z.min n (Z.of_nat (eb_capacity b)) * sizeof_gpio_v2_line_event.

(** The buffer a read leaves, for the outcome [s] of the system call. *)
Definition read_post (b : gpiod_edge_event_buffer) (n : Z)
    (s : sysret (list gpio_v2_line_event)) (rc : Z) (b' : gpiod_edge_event_buffer) : Prop :=
  buffer_ok b' ∧ eb_capacity b' = eb_capacity b ∧
  addr (eb_events b') = addr (eb_events b) ∧
  addr (eb_event_data b') = addr (eb_event_data b) ∧
  if sizeof_gpio_v2_line_event <=? ret s then
    1 ≤ rc ≤ Z.min n (Z.of_nat (eb_capacity b)) ∧
    rc = ret s / sizeof_gpio_v2_line_event ∧
    Z.of_nat (eb_num_events b') = rc ∧
    take (eb_num_events b') (contents (eb_events b')) =
      event_of_uapi <$> take (eb_num_events b') (out s)
  else rc = -1 ∧ eb_num_events b' = eb_num_events b ∧
       contents (eb_events b') = replicate (eb_capacity b) zero_edge_event.

Lemma wp_decode_events cap num (data : list gpio_v2_line_event) w
    (Φ : list gpiod_edge_event → world K → Prop) :
  length data = cap → (num ≤ cap)%nat →
  (∀ ev, length ev = cap → take num ev = event_of_uapi <$> take num data → Φ ev w) →
  wp (for_each num 0 (replicate cap zero_edge_event) (λ i events,
        curr ← lift (access (data !! i));
        lift (arr_set events i (event_of_uapi curr)))) Φ w.
Proof.
  intros Hd Hn HΦ.
  apply (wp_each (λ i ev w', w' = w ∧ length ev = cap ∧
                    take i ev = event_of_uapi <$> take i data)).
  - split_and!; [done|by rewrite length_replicate|done].
  - intros i ev w' Hi (-> & Hl & He). wps.
    destruct (lookup_lt_is_Some_2 data i) as [c Hc]; [lia|].
    apply (owp_access _ c); [done|]. wps. apply owp_arr_set; [lia|].
    split_and!; [done|by rewrite length_insert|].
    rewrite (take_S_r data i c), fmap_app by done.
    rewrite (take_S_r _ i (event_of_uapi c)) by (apply list_lookup_insert_eq; lia).
    by rewrite take_insert_ge, He by lia.
  - intros ev w' (-> & Hl & He). by apply HΦ.
Qed.

Lemma wp_read_fd fd b n w :
  buffer_ok b → 0 ≤ n →
  wp (gpiod_edge_event_buffer_read_fd fd (Some b) n) (λ '(rc, b') w',
    ∃ s k b1, sys_read_events fd (read_size b n) (replicate (eb_capacity b) zero_event)
                (kern w) = (s, k) ∧
      b' = Some b1 ∧ read_post b n s rc b1 ∧ kern w' = k ∧ same_mem w w') w.
Proof.
  intros Hb Hn. pose proof (bo_cap _ Hb) as Hcap. change EVENT_BUFFER_MAX_CAPACITY with 1024 in Hcap.
  unfold gpiod_edge_event_buffer_read_fd. wps. set (m := if _ <? n then _ else _).
  assert (m = Z.min n (Z.of_nat (eb_capacity b))) as -> by (unfold m; destruct (Z.ltb_spec (Z.of_nat (eb_capacity b)) n); lia).
  fold (read_size b n). apply wp_syscall. intros s k Hio.
  destruct (rk_read _ _ _ _ _ _ Hio) as [Hle Hlen];
    [unfold read_size, sizeof_gpio_v2_line_event; lia|].
  rewrite length_replicate in Hlen.
  assert (∀ l num, length l = eb_capacity b → (num ≤ eb_capacity b)%nat →
    buffer_ok (EventBuffer (eb_capacity b) num (Box (addr (eb_events b)) l)
                 (Box (addr (eb_event_data b)) (out s)))) as Hok by (by split).
  assert (ret s < sizeof_gpio_v2_line_event →
    read_post b n s (-1) (EventBuffer (eb_capacity b) (eb_num_events b)
      (Box (addr (eb_events b)) (replicate (eb_capacity b) zero_edge_event))
      (Box (addr (eb_event_data b)) (out s)))) as Hfail.
  { intros Hlt. unfold read_post. rewrite (proj2 (Z.leb_gt _ _)) by done.
    split_and!; try done. apply Hok; [by rewrite length_replicate|apply Hb]. }
  destruct (Z.ltb_spec (ret s) 0) as [Hneg|Hpos]; wps.
  { eexists s, k, _. split_and!; [done..| |done|by split].
    apply Hfail. unfold sizeof_gpio_v2_line_event; lia. }
  unfold read_size, sizeof_gpio_v2_line_event in *.
  rewrite u32_small by (unfold in_u32; lia).
  destruct (Z.ltb_spec (ret s) 48); wps.
  { eexists s, k, _. split_and!; [done..|by apply Hfail|done|by split]. }
  assert (0 < ret s / 48) by (apply Z.div_str_pos; lia).
  assert (ret s / 48 ≤ Z.min n (Z.of_nat (eb_capacity b))) by (apply Z.div_le_upper_bound; lia).
  apply (wp_decode_events (eb_capacity b)); [done|lia|]. intros ev Hev Hdec. wps.
  eexists _, _, _. split_and!; [done|done| |done|by split].
  unfold read_post. rewrite (proj2 (Z.leb_le _ _)) by done. unfold sizeof_gpio_v2_line_event.
  split_and!; try done; try lia. apply Hok; [done|lia].
Qed.
End read.

(** ** Looking a line up by name *)
Section names.
Context {K : Type} `{!Kernel K, !NameKernel K} (chip : gpiod_chip).
Implicit Types w : world K.

Lemma streq_spec s arr nm : cstr arr = Some nm → streq s arr = Some (bool_decide (s = nm)) ∨ 0 ∈ s.
Proof.
  revert s nm. induction arr as [|c arr IH]; intros s nm H; [done|]. simpl in *.
  destruct (Z.eqb_spec c 0) as [->|Hc].
  - simplify_eq. destruct s as [|x s]; simpl; [by left|].
    destruct (Z.eqb_spec x 0) as [->|]; [right; set_solver|by left].
  - apply fmap_Some in H as (nm' & Hnm & ->). destruct s as [|x s]; simpl.
    + left. by destruct (Z.eqb_spec c 0).
    + destruct (Z.eqb_spec x c) as [->|Hne].
      * destruct (IH s nm' Hnm) as [->|?]; [left|right; set_solver].
        f_equal. apply bool_decide_ext. naive_solver.
      * left. rewrite bool_decide_false; [done|congruence].
Qed.

(** The result: the first line of that name, or -1 and ENOENT. *)
Definition name_post (names : list (list Z)) (name : list Z) (x : Z) (w' : world K) : Prop :=
  match list_find (λ nm, nm = name) names with
  | Some (i, _) => x = Z.of_nat i
  | None => x = -1 ∧ errno w' = ENOENT
  end.

Lemma wp_line_offset_from_name name w :
  0 ∉ name → Z.of_nat (length (line_names (kern w) (ch_fd chip))) < 2 ^ 31 →
  wp (gpiod_chip_get_line_offset_from_name chip (Some name))
    (λ x w', name_post (line_names (kern w) (ch_fd chip)) name x w' ∧ same_mem w w') w.
Proof.
  intros Hname Hlt. unfold gpiod_chip_get_line_offset_from_name, read_chip_info. wps.
  apply wp_syscall. intros s k Hio. apply nk_info in Hio as (Hret & Hlines & Hk).
  rewrite Hret. simpl. wps. set (names := line_names (kern w) (ch_fd chip)) in *.
  rewrite Hlines, Nat2Z.id. change (0 <? 0) with false. cbv iota. wps.
  apply (wp_for (λ i _ w', same_mem w w' ∧ line_names (kern w') (ch_fd chip) = names ∧
    ∀ j nm, (j < i)%nat → names !! j = Some nm → nm ≠ name)).
  - split_and!; [by split|done|lia].
  - intros i _ w1 Hi (Hw1 & Hk1 & Hno). unfold chip_read_line_info. wps.
    apply wp_syscall. intros s1 k1 Hio1.
    destruct (lookup_lt_is_Some_2 names i) as [nm Hnm]; [lia|].
    eapply (nk_line _ _ _ _ _ i nm) in Hio1 as (Hret1 & Hc & Hk1'); [|done|congruence].
    rewrite Hret1. simpl. wps. change (0 =? 0) with true. cbn [negb]. wps.
    destruct (streq_spec name _ _ Hc) as [Heq|]; [|done].
    apply (owp_access _ _ _ Heq).
    assert (same_mem w (with_kern k1 w1)) by (destruct Hw1; by split).
    case_bool_decide as Hn; wps.
    + split; [|done]. unfold name_post.
      rewrite (proj2 (list_find_Some (λ nm, nm = name) names i nm)).
      * unfold s32, swrap. change (2 ^ 32) with 4294967296. simpl.
        rewrite Z.mod_small; lia.
      * split_and!; [done|done|]. intros j nm' ? ?. by eapply Hno.
    + split_and!; [done|simpl; congruence|]. intros j nm' Hj Hl.
      destruct (decide (j = i)) as [->|]; [|apply (Hno j); [lia|done]]. congruence.
  - intros _ w1 (Hw1 & Hk1 & Hno). wps. split; [|destruct Hw1; by split].
    unfold name_post. rewrite (proj2 (list_find_None (λ nm, nm = name) names)); [done|].
    apply Forall_lookup. intros j nm Hj. eapply Hno; [|done].
    apply lookup_lt_Some in Hj. lia.
Qed.
End names.

(** ** The consumer string *)
Lemma cstr_app s t : Forall (λ c, c ≠ 0) s → cstr (s ++ 0 :: t) = Some s.
Proof.
  induction 1 as [|c s Hc _ IH]; simpl; [done|].
  destruct (Z.eqb_spec c 0); [done|]. by rewrite IH.
Qed.
Lemma strncpy_cstr n dst s :
  Forall (λ c, c ≠ 0) s → (n ≤ length dst)%nat →
  strncpy n dst (with_nul s) = Some (take n s ++ replicate (n - length s) 0 ++ drop n dst).
Proof.
  intros Hs. revert n dst. induction Hs as [|c s Hc Hs IH]; intros n dst Hn.
  - destruct n as [|n]; [by destruct dst|]. destruct dst as [|d dst]; [simpl in Hn; lia|].
    cbn [with_nul app strncpy]. change (0 =? 0) with true. cbv iota.
    rewrite decide_True by done. done.
  - destruct n as [|n]; [by destruct dst|]. destruct dst as [|d dst]; [simpl in Hn; lia|].
    unfold with_nul. simpl. destruct (Z.eqb_spec c 0); [done|].
    fold (with_nul s). rewrite IH by (simpl in Hn; lia). done.
Qed.

Lemma set_consumer_spec c s :
  length (rc_consumer c) = GPIO_MAX_NAME_SIZE → Forall (λ x, x ≠ 0) s →
  owp (gpiod_request_config_set_consumer c (Some s)) (λ c',
    length (rc_consumer c') = GPIO_MAX_NAME_SIZE ∧
    rc_event_buffer_size c' = rc_event_buffer_size c ∧
    cstr (rc_consumer c') = Some (take (GPIO_MAX_NAME_SIZE - 1) s)).
Proof.
  unfold GPIO_MAX_NAME_SIZE. intros Hl Hs. unfold gpiod_request_config_set_consumer. wps.
  eapply owp_access; [apply strncpy_cstr; [done|unfold GPIO_MAX_NAME_SIZE; lia]|].
  unfold GPIO_MAX_NAME_SIZE. simpl (32 - 1)%nat. wps.
  set (pre := take 31 s ++ replicate (31 - length s) 0).
  assert (length pre = 31%nat) as Hpre
    by (unfold pre; rewrite length_app, length_take, length_replicate; lia).
  rewrite (assoc app). fold pre.
  destruct (drop 31 (rc_consumer c)) as [|d l] eqn:Hd.
  { apply (f_equal length) in Hd. rewrite length_drop in Hd. simpl in Hd. lia. }
  assert (l = []) as ->.
  { apply (f_equal length) in Hd. rewrite length_drop, Hl in Hd. destruct l; [done|].
    simpl in Hd. lia. }
  apply owp_arr_set; [rewrite length_app; simpl; lia|]. wps. cbn [rc_consumer rc_event_buffer_size].
  rewrite insert_app_r_alt by lia. rewrite Hpre. simpl. split_and!; [|done|].
  - rewrite length_app. simpl. lia.
  - unfold pre. rewrite <-(assoc app).
    destruct (31 - length s)%nat as [|m] eqn:Hm; simpl.
    + apply cstr_app. by apply Forall_take.
    + rewrite take_ge by lia. by apply cstr_app.
Qed.

Lemma request_config_to_uapi_spec c u s :
  cstr (rc_consumer c) = Some s → (length s < length (ur_consumer u))%nat →
  Forall (λ x, x ≠ 0) s →
  owp (gpiod_request_config_to_uapi c u) (λ u',
    cstr (ur_consumer u') = Some s ∧ length (ur_consumer u') = length (ur_consumer u) ∧
    ur_event_buffer_size u' = u32 (rc_event_buffer_size c) ∧
    ur_offsets u' = ur_offsets u ∧ ur_config u' = ur_config u ∧
    ur_num_lines u' = ur_num_lines u ∧ ur_fd u' = ur_fd u).
Proof.
  intros Hc Hl Hs. unfold gpiod_request_config_to_uapi, strcpy. wps. rewrite Hc. simpl.
  rewrite decide_True by done. simpl. split_and!; try done.
  - unfold with_nul. rewrite <-app_assoc. simpl. by apply cstr_app.
  - unfold with_nul. rewrite !length_app, length_drop. simpl. lia.
Qed.

(** ** The request a configuration is turned into

    The flags the ABI has for the settings of a line, by the numbers of their
    bits in [uapi/gpio.h]: a line that detects edges is an input as well. *)
Definition flag_set (s : gpiod_line_settings) (j : nat) : bool :=
  match j with
  | 1 => active_low s
  | 2 => bool_decide (direction s = DIRECTION_INPUT) || bool_decide (edge_detection s ≠ EDGE_NONE)
  | 3 => bool_decide (direction s = DIRECTION_OUTPUT)
  | 4 => bool_decide (edge_detection s = EDGE_RISING ∨ edge_detection s = EDGE_BOTH)
  | 5 => bool_decide (edge_detection s = EDGE_FALLING ∨ edge_detection s = EDGE_BOTH)
  | 6 => bool_decide (drive s = DRIVE_OPEN_DRAIN)
  | 7 => bool_decide (drive s = DRIVE_OPEN_SOURCE)
  | 8 => bool_decide (bias s = BIAS_PULL_UP)
  | 9 => bool_decide (bias s = BIAS_PULL_DOWN)
  | 10 => bool_decide (bias s = BIAS_DISABLED)
  | 11 => bool_decide (event_clock s = CLOCK_REALTIME)
  | 12 => bool_decide (event_clock s = CLOCK_HTE)
  | _ => false
  end%nat.
Definition abi_flags (s : gpiod_line_settings) : Z := mask_where (flag_set s) 13.
Lemma make_kernel_flags_abi s : make_kernel_flags s = abi_flags s.
Proof. destruct s as [d e dr b a c p o]. by destruct d, e, dr, b, a, c; vm_compute. Qed.

(** What the kernel's own decoding of the request yields for every line. The
    ABI has 32 bits for a debounce period. *)
Record encodes (lines : list (Z * gpiod_line_settings)) (vals : list gpiod_line_value)
    (u : gpio_v2_line_request) : Prop := {
  en_num : ur_num_lines u = Z.of_nat (length lines);
  en_len : length (ur_offsets u) = GPIO_V2_LINES_MAX;
  en_offsets : take (length lines) (ur_offsets u) = lines.*1;
  en_flags i o s : lines !! i = Some (o, s) →
    kernel_flags (ur_config u) i = abi_flags s;
  en_debounce i o s : lines !! i = Some (o, s) →
    kernel_debounce (ur_config u) i =
    let p := gpiod_line_settings_get_debounce_period_us s in
    if p =? 0 then None else Some (u32 p);
  en_output i : (i < 64)%nat →
    kernel_output (ur_config u) i = if has_output lines then out_value lines vals i else None
}.

Section to_uapi.
Context {K : Type}.
Implicit Types w : world K.

Lemma to_uapi_encodes lines vals u0 w ru w' :
  (length lines ≤ LINES_MAX)%nat → length (ur_offsets u0) = GPIO_V2_LINES_MAX →
  to_uapi_post lines vals u0 w ru w' → (attrs_needed lines ≤ GPIO_V2_LINE_NUM_ATTRS_MAX)%nat →
  ru.1 = 0 ∧ w' = w ∧ encodes lines vals ru.2 ∧ ur_consumer ru.2 = ur_consumer u0 ∧
  ur_event_buffer_size ru.2 = ur_event_buffer_size u0.
Proof.
  destruct ru as [r u]. unfold to_uapi_post. intros Hl Hlen Hpost Hn. rewrite decide_True in Hpost by done.
  destruct Hpost as (-> & -> & Ho & Hnum & Hc & He & _ & Hf & out & Hattrs & Hout).
  assert (length lines.*1 = length lines) as Hl1 by apply length_fmap.
  assert (Forall (λ a, attr_id (ca_attr a) = GPIO_V2_LINE_ATTR_ID_OUTPUT_VALUES) out) as Hids.
  { destruct (has_output lines); [|by subst]. destruct Hout as (m & v & -> & _).
    by repeat constructor. }
  split_and!; try done. split; cbn [snd]; [done| | | | |].
  - rewrite Ho, length_app, length_drop. unfold LINES_MAX in Hl. lia.
  - by rewrite Ho, <-Hl1, take_app_length.
  - intros i o s Hi. rewrite <-make_kernel_flags_abi. eapply kernel_flags_ok; [done|done| |done].
    rewrite Hf, decide_False; [done|]. apply lookup_lt_Some in Hi. lia.
  - intros i o s Hi. by eapply kernel_debounce_ok.
  - intros i Hi. by eapply kernel_output_ok.
Qed.

Lemma wp_to_uapi_encodes c lines vals u0 w :
  config_rep c lines vals w →
  length (ur_offsets u0) = GPIO_V2_LINES_MAX → ur_config u0 = zero_config →
  wp (gpiod_line_config_to_uapi c u0) (λ '(r, u) w',
    if decide (attrs_needed lines ≤ GPIO_V2_LINE_NUM_ATTRS_MAX)%nat
    then r = 0 ∧ w' = w ∧ encodes lines vals u ∧ ur_consumer u = ur_consumer u0 ∧
         ur_event_buffer_size u = ur_event_buffer_size u0
    else r = -1 ∧ w' = with_errno E2BIG w) w.
Proof.
  intros Hc Hlen Hz. eapply wp_mono; [eapply wp_to_uapi; [apply Hc|apply Hc|done|]|].
  - rewrite Hz. split; [done|simpl; lia].
  - intros [r u] w' Hpost. case_decide as Hn.
    + apply (to_uapi_encodes lines vals u0 w (r, u) w'); [apply Hc|done..].
    + unfold to_uapi_post in Hpost. by rewrite decide_False in Hpost by done.
Qed.
End to_uapi.

(** ** Requesting lines *)
Lemma cstr_spec arr s : cstr arr = Some s → Forall (λ x, x ≠ 0) s ∧ (length s < length arr)%nat.
Proof.
  revert s. induction arr as [|c arr IH]; intros s H; [done|]. simpl in H.
  destruct (Z.eqb_spec c 0); [simplify_eq; simpl; split; [constructor|lia]|].
  apply fmap_Some in H as (s' & Hs' & ->). destruct (IH s' Hs'). simpl.
  split; [by constructor|lia].
Qed.

(** The options hold a C string in their consumer array. *)
Definition options_ok (rc : option gpiod_request_config) : Prop :=
  match rc with
  | None => True
  | Some c => length (rc_consumer c) = GPIO_MAX_NAME_SIZE ∧ is_Some (cstr (rc_consumer c))
  end.
Definition options_consumer (rc : option gpiod_request_config) : option (list Z) :=
  match rc with None => Some [] | Some c => cstr (rc_consumer c) end.

Section request.
Context {K : Type} `{!Kernel K, !RequestKernel K}.
Implicit Types w : world K.

Lemma wp_request_from_uapi u name (lines : list (Z * gpiod_line_settings)) w
    (Φ : option (box gpiod_line_request) → world K → Prop) :
  fresh_ok w → is_Some (cstr name) → (length lines ≤ GPIO_V2_LINES_MAX)%nat →
  ur_num_lines u = Z.of_nat (length lines) → length (ur_offsets u) = GPIO_V2_LINES_MAX →
  take (length lines) (ur_offsets u) = lines.*1 →
  (∀ w', same_mem w w' → Φ None w') →
  (∀ b w', request_ok (contents b) → rq_num_lines (contents b) = length lines →
     take (length lines) (rq_offsets (contents b)) = lines.*1 →
     rq_fd (contents b) = ur_fd u → cstr name = Some (contents (rq_chip_name (contents b))) →
     opened w' = opened w → closed w' = closed w →
     wp (gpiod_line_request_release (Some b))
        (λ _ w'', live w'' = live w ∧ closed w'' = closed w ++ [ur_fd u]) w' →
     Φ (Some b) w') →
  wp (gpiod_line_request_from_uapi u name) Φ w.
Proof.
  intros Hf [s Hs] Hl Hnum Hlen Hoff Hn Hsome. unfold gpiod_line_request_from_uapi. wps.
  apply wp_malloc_frame; [done| |]. { intros w1 H1 _ _ _. wps. by apply Hn. }
  intros b1 w1 _ Ha1 _ _. wps. apply (owp_access _ s); [done|]. wps. unfold strdup.
  apply wp_malloc_frame; [eauto with gpiod| |].
  { intros w2 H2 _ _ _. wps. eapply wp_free_frame; [done|done|].
    intros w3 H3 _ _. wps. by apply Hn. }
  intros b2 w2 Hb2 Ha2 _ _. wps. rewrite Hnum, Nat2Z.id, decide_True by done. wps.
  pose proof Hoff as Hoff'. apply (f_equal length) in Hoff'. rewrite length_take, length_fmap in Hoff'.
  destruct Ha1 as [N1 L1 _ _ O1 C1], Ha2 as [N2 L2 _ _ O2 C2]. apply Hsome; simpl; try congruence.
  - split; simpl; [|done]. rewrite length_app, length_take, length_replicate. lia.
  - rewrite take_app_le by (rewrite length_take; lia). rewrite take_take, Nat.min_id. done.
  - wps. apply wp_free; [simpl; set_solver|]. apply wp_free; [simpl; set_solver|]. simpl.
    split; [|congruence]. rewrite L2, L1. rewrite L1 in N2. clear -N1 N2.
    apply set_eq. intros x. set_unfold. naive_solver.
Qed.

(** The request that reaches the kernel encodes the configuration. *)
Definition sent (fd : Z) rc lines vals (b : gpiod_line_request) : Prop :=
  ∃ u k (s : sysret gpio_v2_line_request) k',
    ioctl_get_line fd u k = (s, k') ∧ 0 ≤ ret s ∧ rq_fd b = ur_fd (out s) ∧
    encodes lines vals u ∧ cstr (ur_consumer u) = options_consumer rc.

Lemma wp_request_options rc w (Φ : gpio_v2_line_request → world K → Prop) :
  options_ok rc →
  (∀ u, ur_offsets u = ur_offsets zero_request → ur_config u = zero_config →
     cstr (ur_consumer u) = options_consumer rc → Φ u w) →
  wp (match rc with
      | None => mret zero_request
      | Some rc => lift (gpiod_request_config_to_uapi rc zero_request)
      end) Φ w.
Proof.
  destruct rc as [c|]; simpl; intros Hok HΦ; [|by apply wp_ret, HΦ].
  destruct Hok as [Hl [s Hs]]. destruct (cstr_spec _ _ Hs) as [Hnz Hlt]. apply wp_lift.
  eapply owp_mono; [apply (request_config_to_uapi_spec c zero_request s); [done| |done]|].
  - change (length (ur_consumer zero_request)) with GPIO_MAX_NAME_SIZE. lia.
  - intros u (Hc & _ & _ & Ho & Hcfg & _). apply HΦ; [done|done|congruence].
Qed.

Lemma wp_request_lines chip rc c lines vals w :
  config_rep c lines vals w → options_ok rc →
  wp (gpiod_chip_request_lines chip rc (Some c)) (λ r w', match r with
    | None => live w' = live w ∧
        ∃ fds, opened w' = opened w ++ fds ∧ closed w' = closed w ++ fds
    | Some b =>
        request_ok (contents b) ∧ rq_num_lines (contents b) = length lines ∧
        take (length lines) (rq_offsets (contents b)) = lines.*1 ∧
        sent (ch_fd chip) rc lines vals (contents b) ∧
        opened w' = opened w ++ [rq_fd (contents b)] ∧ closed w' = closed w ∧
        wp (gpiod_line_request_release (Some b)) (λ _ w'',
          live w'' = live w ∧ closed w'' = closed w ++ [rq_fd (contents b)]) w'
    end) w.
Proof.
  intros Hc Hrc. unfold gpiod_chip_request_lines. wps.
  apply wp_request_options; [done|]. intros u0 Ho Hcfg Hcons. wps.
  assert (∀ w', same_mem w w' → live w' = live w ∧
    ∃ fds, opened w' = opened w ++ fds ∧ closed w' = closed w ++ fds) as Hnone.
  { intros w' []. split; [done|]. exists []. by rewrite !app_nil_r. }
  eapply wp_mono; [apply wp_to_uapi_encodes; [done|by rewrite Ho|done]|].
  intros [rt u] w1. case_decide as Hn.
  2: { intros [-> ->]. simpl. wps. apply Hnone. by split. }
  intros (-> & -> & Henc & Hcu & _). cbn [negb]. change (0 =? 0) with true. cbn [negb]. wps.
  unfold read_chip_info. wps. apply wp_syscall. intros s1 k1 Hio1.
  destruct (Z.eqb_spec (ret s1) 0) as [Hr1|]; cbn [negb]; wps.
  2: { change (-1 <? 0) with true. cbv iota. wps. apply Hnone. apply same_mem_syscall. }
  rewrite Hr1. change (0 <? 0) with false. cbv iota. wps.
  apply wp_syscall. intros s2 k2 Hio2.
  destruct (Z.ltb_spec (ret s2) 0) as [|Hr2]; wps. { apply Hnone. by split. }
  destruct (qk_line _ _ _ _ _ Hio2 Hr2) as [Ho2 Hn2]. destruct Henc as [En El Eo Ef Ed Eout].
  eapply (wp_request_from_uapi _ _ lines).
  - apply Hc.
  - eapply qk_name; eauto.
  - apply Hc.
  - congruence.
  - congruence.
  - congruence.
  - intros w' [L' _ O' C']. wps. simpl in *. split; [done|]. exists [ur_fd (out s2)]. by rewrite O', C'.
  - intros b w' Hok Hnum Htake Hfd _ O' C' Hrel. wps. simpl in O', C'.
    rewrite Hfd. split_and!; try done.
    exists u, k1, s2, k2. split_and!; try done. by rewrite Hcu.
Qed.
End request.

(** ** Line information *)
Lemma strncpy_array n dst src s :
  cstr src = Some s → length dst = n → length src = n →
  strncpy n dst src = Some (s ++ replicate (n - length s) 0).
Proof.
  revert n dst s. induction src as [|c src IH]; intros n dst s H Hd Hn; [done|].
  destruct n as [|n]; [done|]. destruct dst as [|d dst]; [done|]. simpl in Hd, Hn.
  cbn [cstr] in H. cbn [strncpy]. destruct (Z.eqb_spec c 0).
  - simplify_eq. rewrite decide_True by (simpl; lia).
    rewrite drop_ge, app_nil_r by (simpl; lia). done.
  - apply fmap_Some in H as (s' & Hs' & ->). rewrite (IH n dst s') by (done || lia). done.
Qed.
Lemma cstr_pad s n : Forall (λ x, x ≠ 0) s → (0 < n)%nat → cstr (s ++ replicate n 0) = Some s.
Proof. intros. destruct n as [|n]; [lia|]. by apply cstr_app. Qed.

(** The debounce periods among the attributes of a line. *)
Definition debounce_of (attrs : list gpio_v2_line_attribute) : list Z :=
  omap (λ a, if attr_id a =? GPIO_V2_LINE_ATTR_ID_DEBOUNCE
             then Some (attr_debounce_period_us a) else None) attrs.

(** What the kernel sends for a line: NUL-terminated names, at most ten
    attributes. *)
Record info_wf (u : gpio_v2_line_info) (name consumer : list Z) : Prop := {
  iw_name : cstr (ui_name u) = Some name;
  iw_name_len : length (ui_name u) = GPIO_MAX_NAME_SIZE;
  iw_consumer : cstr (ui_consumer u) = Some consumer;
  iw_consumer_len : length (ui_consumer u) = GPIO_MAX_NAME_SIZE;
  iw_attrs : (Z.to_nat (ui_num_attrs u) ≤ length (ui_attrs u))%nat
}.

Section line_info.
Context {K : Type}.
Implicit Types w : world K.

Lemma wp_info_debounce u w (Φ : bool * Z → world K → Prop) :
  (Z.to_nat (ui_num_attrs u) ≤ length (ui_attrs u))%nat →
  Φ (match last (debounce_of (take (Z.to_nat (ui_num_attrs u)) (ui_attrs u))) with
     | Some p => (true, p) | None => (false, 0) end) w →
  wp (info_debounce u) Φ w.
Proof.
  intros Hl HΦ. unfold info_debounce.
  apply (wp_each (λ i p w', w' = w ∧
    p = match last (debounce_of (take i (ui_attrs u))) with
        | Some p => (true, p) | None => (false, 0) end)).
  - done.
  - intros i [d p] w' Hi [-> Hp]. wps.
    destruct (lookup_lt_is_Some_2 (ui_attrs u) i) as [a Ha]; [lia|].
    apply (owp_access _ a); [done|].
    assert (debounce_of (take (S i) (ui_attrs u)) =
      debounce_of (take i (ui_attrs u)) ++ debounce_of [a]) as Hd.
    { rewrite (take_S_r _ _ a) by done. apply omap_app. }
    rewrite Hd. simpl. destruct (attr_id a =? _); wps; split; try done.
    + by rewrite last_snoc.
    + by rewrite app_nil_r.
  - intros p w' [-> ->]. done.
Qed.

Lemma wp_fill_line_info u name consumer w (Φ : gpiod_line_info → world K → Prop) :
  info_wf u name consumer →
  (∀ i, li_offset i = ui_offset u → cstr (li_name i) = Some name →
     cstr (li_consumer i) = Some consumer →
     (li_used i, li_active_low i, li_direction i) =
       (has_flag (ui_flags u) GPIO_V2_LINE_FLAG_USED,
        has_flag (ui_flags u) GPIO_V2_LINE_FLAG_ACTIVE_LOW, direction_of_flags (ui_flags u)) →
     (li_bias i, li_drive i, li_edge i, li_event_clock i) =
       (bias_of_flags (ui_flags u), drive_of_flags (ui_flags u), edge_of_flags (ui_flags u),
        clock_of_flags (ui_flags u)) →
     (li_debounced i, li_debounce_period_us i) =
       match last (debounce_of (take (Z.to_nat (ui_num_attrs u)) (ui_attrs u))) with
       | Some p => (true, p) | None => (false, 0) end →
     Φ i w) →
  wp (fill_line_info u) Φ w.
Proof.
  intros [Hn Hnl Hc Hcl Ha] HΦ. unfold fill_line_info. wps.
  eapply owp_access; [by apply strncpy_array|]. wps.
  eapply owp_access; [by apply strncpy_array|]. wps.
  apply wp_info_debounce; [done|].
  destruct (match last _ with Some p => _ | None => _ end) as [d p] eqn:E. wps.
  destruct (cstr_spec _ _ Hn), (cstr_spec _ _ Hc).
  apply HΦ; try done; simpl; apply cstr_pad; try done; lia.
Qed.

(** A change event owns two blocks, which [gpiod_info_event_free] returns; a
    failure leaves none. *)
Lemma wp_info_event_from_uapi u name consumer w :
  fresh_ok w → info_wf (uic_info u) name consumer →
  wp (gpiod_info_event_from_uapi u) (λ r w', match r with
    | None => same_mem w w' ∧
        (errno w' = ENOMEM ∨ (errno w' = ENOMSG ∧ ¬ (1 ≤ uic_event_type u ≤ 3)))
    | Some b =>
        1 ≤ uic_event_type u ≤ 3 ∧
        ie_event_type (contents b) =
          (if uic_event_type u =? 1 then INFO_EVENT_LINE_REQUESTED
           else if uic_event_type u =? 2 then INFO_EVENT_LINE_RELEASED
           else INFO_EVENT_LINE_CONFIG_CHANGED) ∧
        li_offset (contents (ie_info (contents b))) = ui_offset (uic_info u) ∧
        cstr (li_name (contents (ie_info (contents b)))) = Some name ∧
        wp (gpiod_info_event_free (Some b)) (λ _ w'', live w'' = live w) w'
    end) w.
Proof.
  intros Hf Hi. unfold gpiod_info_event_from_uapi. wps.
  apply wp_malloc_frame; [done| |]. { intros w1 H1 He _ _. wps. by split; [|left]. }
  intros b1 w1 _ Ha1 _ _.
  unfold GPIOLINE_CHANGED_REQUESTED, GPIOLINE_CHANGED_RELEASED, GPIOLINE_CHANGED_CONFIG.
  set (ty := if uic_event_type u =? 1 then _ else _). set (t := uic_event_type u) in *.
  assert (match ty with
          | Some x => 1 ≤ t ≤ 3 ∧ x = if t =? 1 then INFO_EVENT_LINE_REQUESTED
              else if t =? 2 then INFO_EVENT_LINE_RELEASED else INFO_EVENT_LINE_CONFIG_CHANGED
          | None => ¬ (1 ≤ t ≤ 3)
          end) as Hty.
  { unfold ty. destruct (Z.eqb_spec t 1), (Z.eqb_spec t 2), (Z.eqb_spec t 3);
      try (split; [lia|done]); lia. }
  destruct ty as [x|].
  2: { wps. eapply wp_free_frame; [done|apply same_mem_errno|].
       intros w2 H2 He2 _. wps. split; [done|right; by rewrite He2]. }
  destruct Hty as [Ht Hx]. unfold gpiod_line_info_from_uapi. wps.
  apply wp_malloc_frame; [eauto with gpiod| |].
  { intros w2 H2 He _ _. wps. eapply wp_free_frame; [done|done|].
    intros w3 H3 He3 _. wps. split; [done|left; congruence]. }
  intros b2 w2 _ Ha2 _ _. wps. eapply wp_fill_line_info; [done|].
  intros i Hoff Hname _ _ _ _. wps. simpl. split_and!; try done; try lia.
  destruct Ha1 as [N1 L1 _ _ _ _], Ha2 as [N2 L2 _ _ _ _]. unfold gpiod_line_info_free. wps.
  apply wp_free; [simpl; set_solver|]. apply wp_free; [simpl; set_solver|]. simpl.
  rewrite L2, L1. rewrite L1 in N2. clear -N1 N2. apply set_eq. intros y. set_unfold. naive_solver.
Qed.
End line_info.

(** The flags of a line's settings, read back as the kernel reports them (with
    the used flag): every setting survives, except that "as is" is reported as
    the direction and bias the line has. *)
Lemma flags_round_trip s :
  let f := Z.lor GPIO_V2_LINE_FLAG_USED (make_kernel_flags s) in
  has_flag f GPIO_V2_LINE_FLAG_USED = true ∧
  has_flag f GPIO_V2_LINE_FLAG_ACTIVE_LOW = active_low s ∧
  direction_of_flags f = (if decide (direction s = DIRECTION_OUTPUT)
                          then DIRECTION_OUTPUT else DIRECTION_INPUT) ∧
  bias_of_flags f = match bias s with BIAS_AS_IS => BIAS_UNKNOWN | b => b end ∧
  drive_of_flags f = drive s ∧ edge_of_flags f = edge_detection s ∧
  clock_of_flags f = event_clock s.
Proof.
  destruct s as [d e dr b a c p o]. by destruct d, e, dr, b, a, c; vm_compute.
Qed.

(** ** Reconfiguring the lines of a request *)
Section reconfigure.
Context {K : Type} `{!Kernel K} (r : gpiod_line_request) (Hr : request_ok r).
Implicit Types w : world K.

Lemma wp_offsets_equal u w (Φ : bool → world K → Prop) :
  length (ur_offsets u) = GPIO_V2_LINES_MAX →
  Φ (bool_decide (Z.of_nat (rq_num_lines r) = ur_num_lines u ∧
       take (rq_num_lines r) (rq_offsets r) = take (rq_num_lines r) (ur_offsets u))) w →
  wp (offsets_equal r u) Φ w.
Proof.
  intros Hu HΦ. destruct Hr as [Hl Hn]. unfold offsets_equal.
  destruct (Z.eqb_spec (Z.of_nat (rq_num_lines r)) (ur_num_lines u)) as [He|He]; cbn [negb].
  2: { wps. by rewrite bool_decide_false in HΦ by naive_solver. }
  wps. apply (wp_for (λ i _ w', w' = w ∧ take i (rq_offsets r) = take i (ur_offsets u))).
  - done.
  - intros i _ w' Hi [-> Ht]. wps.
    destruct (lookup_lt_is_Some_2 (rq_offsets r) i) as [a Ha]; [lia|].
    destruct (lookup_lt_is_Some_2 (ur_offsets u) i) as [b Hb]; [lia|].
    apply (owp_access _ a); [done|]. wps. apply (owp_access _ b); [done|].
    destruct (Z.eqb_spec a b) as [<-|Hne]; wps.
    + split; [done|]. by rewrite (take_S_r _ _ a), (take_S_r _ _ a), Ht by done.
    + rewrite bool_decide_false in HΦ; [done|]. intros [_ Hall].
      assert (take (rq_num_lines r) (rq_offsets r) !! i = Some a) as H1
        by (apply lookup_take_Some; split; [done|lia]).
      rewrite Hall in H1. apply lookup_take_Some in H1 as [H1 _]. congruence.
  - intros _ w' [-> Ht]. wps. by rewrite bool_decide_true in HΦ by done.
Qed.

Lemma wp_reconfigure c lines vals w :
  config_rep c lines vals w →
  wp (gpiod_line_request_reconfigure_lines r (Some c)) (λ rc w',
    if decide (attrs_needed lines ≤ GPIO_V2_LINE_NUM_ATTRS_MAX)%nat then
      if decide (take (rq_num_lines r) (rq_offsets r) = lines.*1) then
        ∃ u s k, encodes lines vals u ∧
          ioctl_set_config (rq_fd r) (ur_config u) (kern w) = (s, k) ∧
          rc = ret s ∧ kern w' = k
      else rc = -1 ∧ w' = with_errno EINVAL w
    else rc = -1 ∧ w' = with_errno E2BIG w) w.
Proof.
  intros Hc. unfold gpiod_line_request_reconfigure_lines. wps.
  eapply wp_mono; [by apply wp_to_uapi_encodes|]. intros [rt u] w1. case_decide as Hn.
  2: { intros [-> ->]. simpl. wps. done. }
  intros (-> & -> & Henc & _ & _). change (0 =? 0) with true. cbn [negb]. wps.
  destruct Hr as [Hl Hnum]. destruct (id Henc) as [En El Eo _ _ _].
  apply wp_offsets_equal; [done|]. rewrite En.
  assert (length (take (rq_num_lines r) (rq_offsets r)) = rq_num_lines r) as Hlt
    by (rewrite length_take; lia).
  destruct (decide (take (rq_num_lines r) (rq_offsets r) = lines.*1)) as [Heq|Hne].
  - assert (rq_num_lines r = length lines) as Hnl by (rewrite <-Hlt, Heq; apply length_fmap).
    rewrite bool_decide_true by (rewrite Hnl in *; split; congruence).
    cbn [negb]. wps. apply wp_syscall. intros s k Hio.
    destruct (Z.eqb_spec (ret s) 0); cbn [negb]; wps; exists u, s, k;
      split_and!; try done; by destruct (ret s <? 0).
  - rewrite bool_decide_false.
    + cbn [negb]. wps. done.
    + intros [Hnl Ht]. apply Hne. apply Nat2Z.inj in Hnl. rewrite Hnl in *. congruence.
Qed.
End reconfigure.
