(* ===== verification/GpiodDemo.v ===== *)
(** * libgpiod: a concrete kernel

    A small GPIO chip that satisfies everything the other files assume of the
    kernel: it shows that those assumptions can hold together, and concrete
    calls can be evaluated on it. *)

From Stdlib Require Import String.
From S2P Require Import Prelude GpiodBase GpiodUapi GpiodInternal GpiodSettings.
From S2P Require Import GpiodLineConfig GpiodLineConfigSpec GpiodInfo GpiodRequest.
From S2P Require Import GpiodRequestSpec GpiodChipSpec.

(** The levels of the lines, their names and the pending edge events. *)
Record demo : Type := Demo {
  dm_bits : Z;
  dm_names : list (list Z);
  dm_events : list gpio_v2_line_event
}.

Definition EAGAIN : Z := 11.
(** A [char] array of the ABI that holds a name. *)
Definition pad_name (s : list Z) : list Z :=
  take 31 s ++ replicate (GPIO_MAX_NAME_SIZE - length (take 31 s)) 0.

Definition demo_read (n : Z) (buf : list gpio_v2_line_event) (k : demo) :
    sysret (list gpio_v2_line_event) * demo :=
  let num := Nat.min (Z.to_nat (n / sizeof_gpio_v2_line_event))
               (Nat.min (length buf) (length (dm_events k))) in
  if (num =? 0)%nat then (Sys (-1) EAGAIN buf, k)
  else (Sys (Z.of_nat num * sizeof_gpio_v2_line_event) 0
          (take num (dm_events k) ++ drop num buf),
        Demo (dm_bits k) (dm_names k) (drop num (dm_events k))).

#[global] Instance demo_kernel : Kernel demo := {|
  sys_lstat _ k := (Sys 0 0 (Stat 8192 64768), k);
  sys_stat _ k := (Sys 0 0 (Stat 8192 64768), k);
  sys_realpath _ k := (Sys 0 0 (str "/sys/bus/gpio"), k);
  sys_open _ k := (Sys 3 0 tt, k);
  sys_ppoll _ _ k := (Sys (if dm_events k then 0 else 1) 0 tt, k);
  sys_read_events _ n buf k := demo_read n buf k;
  sys_read_info_event _ buf k := (Sys (-1) EAGAIN buf, k);
  ioctl_chipinfo _ i k :=
    (Sys 0 0 (ChipInfo (pad_name (str "gpiochip0")) (pad_name (str "demo"))
                (Z.of_nat (length (dm_names k)))), k);
  ioctl_lineinfo _ i k :=
    match dm_names k !! Z.to_nat (ui_offset i) with
    | Some nm => (Sys 0 0 (UapiInfo (with_nul nm) zero_name (ui_offset i) 0 0 (ui_attrs i)), k)
    | None => (Sys (-1) EINVAL i, k)
    end;
  ioctl_lineinfo_watch _ i k := (Sys (-1) EINVAL i, k);
  ioctl_lineinfo_unwatch _ _ k := (Sys 0 0 tt, k);
  ioctl_get_line _ u k :=
    (Sys 0 0 (UapiRequest (ur_offsets u) (ur_consumer u) (ur_config u) (ur_num_lines u)
                (ur_event_buffer_size u) 4), k);
  ioctl_get_values _ v k := (Sys 0 0 (LineValues (dm_bits k) (lv_mask v)), k);
  ioctl_set_values _ v k :=
    (Sys 0 0 v, Demo (Z.lor (Z.land (lv_bits v) (lv_mask v)) (Z.ldiff (dm_bits k) (lv_mask v)))
                  (dm_names k) (dm_events k));
  ioctl_set_config _ c k := (Sys 0 0 c, k)
|}.

#[global] Instance demo_values : ValueKernel demo.
Proof.
  refine {| level k _ j := bit (dm_bits k) j |}.
  - intros fd v k s k' [= <- <-] _ j _. simpl. unfold bit.
    rewrite Z.lor_spec, Z.land_spec, Z.ldiff_spec.
    destruct (Z.testbit (lv_mask v) _); by rewrite ?andb_true_r, ?andb_false_r, ?orb_false_r.
  - intros fd v k s k' [= <- <-] _ j _ _. done.
Defined.

#[global] Instance demo_reads : ReadKernel demo.
Proof.
  split. intros fd n buf k s k'. simpl. unfold demo_read, sizeof_gpio_v2_line_event. intros H Hn.
  destruct (Nat.eqb_spec (Nat.min (Z.to_nat (n / 48)) (Nat.min (length buf) (length (dm_events k)))) 0);
    simplify_eq/=; [split; [lia|done]|].
  split.
  - assert (0 ≤ n / 48) by (apply Z.div_pos; lia).
    assert (48 * (n / 48) ≤ n) by (apply Z.mul_div_le; lia). lia.
  - rewrite length_app, length_take, length_drop. lia.
Qed.

Lemma cstr_with_nul nm : 0 ∉ nm → cstr (with_nul nm) = Some nm.
Proof. intros. apply cstr_app, Forall_forall. intros x Hx ->. done. Qed.

(** The names of a kernel whose names contain no NUL. *)
#[global] Instance demo_requests : RequestKernel demo.
Proof.
  split.
  - by intros fd u k s k' [= <- <-] _.
  - intros fd i k s k' [= <- <-] _. simpl. by eexists.
Qed.

(** Names are held as C strings, so the chip reports the part before a NUL. *)
Definition c_name (nm : list Z) : list Z := default [] (cstr (with_nul nm)).
Lemma cstr_with_nul_some nm : is_Some (cstr (with_nul nm)).
Proof.
  induction nm as [|c nm [s IH]]; simpl; [by eexists|]. unfold with_nul in IH.
  destruct (c =? 0); [by eexists|]. rewrite IH. by eexists.
Qed.
#[global] Instance demo_line_names : NameKernel demo.
Proof.
  refine {| line_names k _ := c_name <$> dm_names k |}.
  - intros fd i k s k' [= <- <-]. simpl. by rewrite length_fmap.
  - intros fd i k s k' n nm Hio Ho Hn. apply list_lookup_fmap_Some in Hn as (x & -> & Hx).
    cbn [ioctl_lineinfo demo_kernel] in Hio. rewrite Ho, Nat2Z.id, Hx in Hio. simplify_eq. simpl. split_and!; try done.
    unfold c_name. by destruct (cstr_with_nul_some x) as [y ->].
Defined.

(** ** Concrete values *)
Definition demo_chip : demo :=
  Demo 5 [str "led"; str "button"; str "relay"]
    [UapiEvent 100 1 3 1 1; UapiEvent 200 2 3 2 2].
Definition demo_world : world demo := World 0 0 ∅ [] [] [] demo_chip.

Definition out_settings : gpiod_line_settings :=
  Settings DIRECTION_OUTPUT EDGE_NONE DRIVE_OPEN_DRAIN BIAS_PULL_UP true CLOCK_MONOTONIC 0
    VALUE_ACTIVE.
Definition in_settings : gpiod_line_settings :=
  Settings DIRECTION_INPUT EDGE_BOTH DRIVE_PUSH_PULL BIAS_AS_IS false CLOCK_REALTIME 5000
    VALUE_INACTIVE.

(** A configuration of three lines with two kinds of settings, as the library
    builds it. *)
Definition demo_build : outcome ((Z * gpiod_line_config) * world demo) :=
  ('(_, c) ← gpiod_line_config_add_line_settings zero_line_config (Some [3; 7]) 2 (Some out_settings);
   gpiod_line_config_add_line_settings c (Some [5]) 1 (Some in_settings)) demo_world.
Definition demo_config : gpiod_line_config :=
  match demo_build with Done ((_, c), _) => c | _ => zero_line_config end.
Definition demo_world' : world demo :=
  match demo_build with Done (_, w) => w | _ => demo_world end.
Definition demo_lines : list (Z * gpiod_line_settings) :=
  [(3, out_settings); (7, out_settings); (5, in_settings)].

Lemma demo_fresh : fresh_ok demo_world.
Proof. intros a. set_solver. Qed.

Lemma add_Done lines vals offs s c (w : world demo) c' w' :
  config_rep c lines vals w → Z.of_nat (length offs) < 2 ^ 63 →
  gpiod_line_config_add_line_settings c (Some offs) (Z.of_nat (length offs)) s w =
    Done ((0, c'), w') →
  config_rep c' (upsert_all offs (default gpiod_line_settings_reset s) lines) vals w'.
Proof.
  intros Hc Hl Hrun. pose proof (wp_run _ _ _ _ _ (wp_add_line_settings c lines vals w offs s Hc Hl) Hrun) as H.
  destruct H as [(_ & H & _)|(H & _)]; done.
Qed.

Lemma demo_config_rep : config_rep demo_config demo_lines [] demo_world'.
Proof.
  unfold demo_config, demo_world'. destruct demo_build as [[[r c] w]| |] eqn:E; try (by vm_compute in E).
  apply C_bind_inv in E as ([r1 c1] & w1 & E1 & E2).
  assert (r1 = 0) as -> by (vm_compute in E1; congruence).
  assert (r = 0) as ->.
  { revert E2. vm_compute in E1. simplify_eq. vm_compute. congruence. }
  eapply (add_Done [] [] [3; 7] (Some out_settings)) in E1;
    [|apply config_rep_zero, demo_fresh|done].
  exact (add_Done _ [] [5] (Some in_settings) _ _ _ _ E1 eq_refl E2).
Qed.

Definition demo_request : gpiod_line_request :=
  LineRequest (Box 9 (str "gpiochip0")) ([3; 7; 5] ++ replicate 61 0) 3 4.
Lemma demo_request_ok : request_ok demo_request.
Proof. split; vm_compute; [done|lia]. Qed.

Definition demo_buffer : gpiod_edge_event_buffer :=
  EventBuffer 4 1 (Box 1 (replicate 4 zero_edge_event)) (Box 2 (replicate 4 zero_event)).
Lemma demo_buffer_ok : buffer_ok demo_buffer.
Proof. split; vm_compute; try lia; congruence. Qed.
