(* ===== verification/GpiodProps.v ===== *)
(** * libgpiod: the theorems

    The contracts of the library, proved from the lemmas of the [*Spec] files,
    and a concrete instance of each one that has hypotheses. *)

From Stdlib Require Import String.
From S2P Require Import Prelude GpiodBase GpiodUapi GpiodInternal GpiodSettings.
From S2P Require Import GpiodLineConfig GpiodLineConfigSpec GpiodEncode GpiodInfo.
From S2P Require Import GpiodRequest GpiodRequestSpec GpiodChipSpec GpiodDemo.

(** C1. Refinement of [gpiod_line_config_to_uapi]: if the distinct output,
    debounce and flag groups of a configuration fit into the ten attributes of
    the ABI, the call returns 0 and the kernel's decoding of the request gives
    every line its offset; the flags that [uapi/gpio.h] has for its direction,
    edges, drive, bias, polarity and clock ([abi_flags], by bit number; edge
    detection also asks for an input), no others; its debounce period modulo
    2^32 if it is not 0, since the ABI has 32 bits for it (longer periods are
    cut, which [debounce_period_truncated] shows); and, if some line is an output, the
    global output value of its position or else its own one. Otherwise the call
    fails with E2BIG. *)
Theorem to_uapi_refines {K} c lines vals (w : world K) :
  config_rep c lines vals w →
  wp (gpiod_line_config_to_uapi c zero_request) (λ '(r, u) w',
    if decide (attrs_needed lines ≤ GPIO_V2_LINE_NUM_ATTRS_MAX)%nat
    then r = 0 ∧ w' = w ∧ encodes lines vals u
    else r = -1 ∧ w' = with_errno E2BIG w) w.
Proof.
  intros Hc. eapply wp_mono; [by apply wp_to_uapi_encodes|].
  intros [r u] w'. case_decide; tauto.
Qed.
Lemma to_uapi_refines_witness :
  attrs_needed demo_lines = 3%nat ∧
  wp (gpiod_line_config_to_uapi demo_config zero_request) (λ '(r, u) w',
    if decide (attrs_needed demo_lines ≤ GPIO_V2_LINE_NUM_ATTRS_MAX)%nat
    then r = 0 ∧ w' = demo_world' ∧ encodes demo_lines [] u
    else r = -1 ∧ w' = with_errno E2BIG demo_world') demo_world'.
Proof.
  split; [reflexivity|].
  exact (to_uapi_refines demo_config demo_lines [] demo_world' demo_config_rep).
Defined.

(** C2. Memory safety of the line-config object over its whole life: after any
    sequence of add, set-output-values and reset calls on a new object, failed
    allocations included, freeing it leaves exactly the blocks that were live
    before it was created (no leak, no double free). *)
Theorem line_config_life_cycle {K} (w0 : world K) b w1 c w2 :
  fresh_ok w0 → gpiod_line_config_new w0 = Done (Some b, w1) →
  rtc config_step (contents b, w1) (c, w2) →
  wp (gpiod_line_config_free (Some (Box (addr b) c))) (λ _ w3, live w3 = live w0) w2.
Proof. apply wp_config_free_reachable. Qed.
Lemma line_config_life_cycle_witness :
  ∃ b (w1 : world demo) c (w2 : world demo), rtc config_step (contents b, w1) (c, w2) ∧ num_configs c = 2%nat ∧
    wp (gpiod_line_config_free (Some (Box (addr b) c))) (λ _ w3, live w3 = live demo_world) w2.
Proof.
  destruct (gpiod_line_config_new demo_world) as [[[b|] w1]| |] eqn:E1; try (by vm_compute in E1).
  destruct (gpiod_line_config_add_line_settings (contents b) (Some [3; 7]) 2 None w1)
    as [[[r c] w2]| |] eqn:E2; try (by vm_compute in E1; simplify_eq; vm_compute in E2).
  assert (rtc config_step (contents b, w1) (c, w2)) as Hsteps.
  { eapply rtc_once, (step_add _ _ [3; 7]); [done|exact E2]. }
  exists b, w1, c, w2. split; [exact Hsteps|]. split.
  - vm_compute in E1. simplify_eq. vm_compute in E2. by simplify_eq.
  - exact (line_config_life_cycle demo_world b w1 c w2 demo_fresh E1 Hsteps).
Defined.

(** C7. [gpiod_line_config_add_line_settings] on every branch: it adds or
    replaces the lines and owns two new blocks, or it fails with EINVAL (no
    offsets), E2BIG (more than 64 lines) or ENOMEM, and then leaves the object
    and the heap as they were. *)
Theorem add_line_settings_contract {K} c lines vals (w : world K) offs s :
  config_rep c lines vals w → Z.of_nat (length offs) < 2 ^ 63 →
  wp (gpiod_line_config_add_line_settings c (Some offs) (Z.of_nat (length offs)) s)
    (add_post lines vals offs s c w) w.
Proof. apply wp_add_line_settings. Qed.
Lemma add_line_settings_contract_witness :
  wp (gpiod_line_config_add_line_settings demo_config (Some [7; 9]) 2 None)
    (add_post demo_lines [] [7; 9] None demo_config demo_world') demo_world'.
Proof.
  exact (add_line_settings_contract demo_config demo_lines [] demo_world' [7; 9] None
           demo_config_rep eq_refl).
Defined.

(** C8. Add/get round trip: after a successful add, the getter returns the
    settings just given for every offset among those added, the settings it had
    for every other configured offset, and NULL with ENOENT for the rest. When
    the object has a global output value for the position of the line, the copy
    returned carries it in place of the stored output value; when the
    allocation of the copy fails, the getter returns NULL with ENOMEM. *)
Theorem add_get_round_trip {K} c lines vals (w w' : world K) offs s c' off :
  config_rep c lines vals w → Z.of_nat (length offs) < 2 ^ 63 →
  gpiod_line_config_add_line_settings c (Some offs) (Z.of_nat (length offs)) s w =
    Done ((0, c'), w') →
  wp (gpiod_line_config_get_line_settings c' off) (λ r w'',
    match (if decide (off ∈ offs) then Some (default gpiod_line_settings_reset s)
           else snd <$> find_line lines off 0) with
    | None => r = None ∧ errno w'' = ENOENT
    | Some s' =>
        if decide (head (oom w') = Some true) then r = None ∧ errno w'' = ENOMEM else
        ∃ a k l, (k < num_configs c')%nat ∧ line_configs c' !! k = Some l ∧ pl_offset l = off ∧
          r = Some (Box a (match vals !! k with Some v => put_output s' v | None => s' end))
    end) w'.
Proof.
  intros Hc Hl Hrun.
  pose proof (wp_run _ _ _ _ _ (wp_add_line_settings c lines vals w offs s Hc Hl) Hrun) as Hadd.
  destruct Hadd as [(_ & Hc' & _)|(? & _)]; [|done].
  eapply wp_mono; [by eapply wp_get_line_settings|]. intros r w'' Hget.
  unfold get_post in Hget. rewrite <-find_line_upsert_all.
  destruct (find_line _ off 0) as [[k s0]|] eqn:Hf; simpl; [|by destruct Hget as [-> ->]].
  apply find_line_Some in Hf as [_ Hk]. rewrite Nat.sub_0_r in Hk.
  destruct (config_lines_offset _ _ _ _ _ (cr_lines _ _ _ _ Hc') Hk) as (l & Hl' & Ho).
  destruct Hget as [(-> & Hmem & _)|(-> & Hmem & _ & He)]; [rewrite decide_False by done|by rewrite decide_True].
  exists (next w'), k, l. rewrite (cl_num _ _ (cr_lines _ _ _ _ Hc')). by apply lookup_lt_Some in Hk.
Qed.
Lemma add_get_round_trip_witness :
  ∃ c' w', gpiod_line_config_add_line_settings demo_config (Some [7; 9]) 2 None demo_world' =
    Done ((0, c'), w') ∧
  wp (gpiod_line_config_get_line_settings c' 9) (λ r w'',
    match (if decide (9 ∈ [7; 9]) then Some (default gpiod_line_settings_reset None)
           else snd <$> find_line demo_lines 9 0) with
    | None => r = None ∧ errno w'' = ENOENT
    | Some s' =>
        if decide (head (oom w') = Some true) then r = None ∧ errno w'' = ENOMEM else
        ∃ a k l, (k < num_configs c')%nat ∧ line_configs c' !! k = Some l ∧ pl_offset l = 9 ∧
          r = Some (Box a (match ([] : list gpiod_line_value) !! k with Some v => put_output s' v | None => s' end))
    end) w'.
Proof.
  destruct (gpiod_line_config_add_line_settings demo_config (Some [7; 9]) 2 None demo_world')
    as [[[r c'] w']| |] eqn:E; try (by vm_compute in E).
  assert (r = 0) as -> by (vm_compute in E; congruence).
  exists c', w'. split; [done|].
  exact (add_get_round_trip demo_config demo_lines [] demo_world' w' [7; 9] None c' 9
           demo_config_rep eq_refl E).
Defined.

(** [gpiod_line_config_set_output_values] stores the values when all of
    them are valid; on an invalid value or count it fails with EINVAL, and an
    invalid value leaves no global output values behind. *)
Theorem set_output_values_contract {K} c lines vals vs (w : world K) :
  config_rep c lines vals w →
  wp (gpiod_line_config_set_output_values c (Some vs) (Z.of_nat (length vs)))
    (set_values_post lines vs c w) w.
Proof. apply wp_config_set_output_values. Qed.
Lemma set_output_values_contract_witness :
  wp (gpiod_line_config_set_output_values demo_config (Some [1; 0; 2]) 3)
    (set_values_post demo_lines [1; 0; 2] demo_config demo_world') demo_world'.
Proof.
  exact (set_output_values_contract demo_config demo_lines [] [1; 0; 2] demo_world'
           demo_config_rep).
Defined.

(** C25. Set/get round trip on requested lines: on a kernel whose set call
    writes the masked bits and whose get call reads them, both calls succeed
    and the values read back for distinct requested offsets are the values
    written, in the order of the offsets, non-zero values as 1. *)
Theorem set_get_values {K} `{!Kernel K, !ValueKernel K} r offs vs vals (w : world K) :
  request_ok r → length vs = length offs → length vals = length offs → NoDup offs →
  Forall (λ o, o ∈ take (rq_num_lines r) (rq_offsets r)) offs →
  (∀ v k, ret (ioctl_set_values (rq_fd r) v k).1 = 0) →
  (∀ v k, ret (ioctl_get_values (rq_fd r) v k).1 = 0) →
  wp (rc ← gpiod_line_request_set_values_subset r (length offs) (Some offs) (Some vs);
      '(rc', out) ← gpiod_line_request_get_values_subset r (length offs) (Some offs) (Some vals);
      mret (rc, rc', out))
    (λ res _, res = (0, 0, Some ((λ v, if v =? 0 then 0 else 1) <$> vs))) w.
Proof. intros Hr. by apply wp_set_get. Qed.
Lemma set_get_values_witness :
  wp (rc ← gpiod_line_request_set_values_subset demo_request 2 (Some [5; 3]) (Some [1; 0]);
      '(rc', out) ← gpiod_line_request_get_values_subset demo_request 2 (Some [5; 3]) (Some [9; 9]);
      mret (rc, rc', out))
    (λ res _, res = (0, 0, Some [1; 0])) demo_world.
Proof.
  refine (set_get_values demo_request [5; 3] [1; 0] [9; 9] demo_world demo_request_ok
            eq_refl eq_refl _ _ _ _); try reflexivity;
    apply (bool_decide_unpack _); reflexivity.
Defined.

(** An offset that is not part of the request is refused with EINVAL by
    both the get and the set call, before the kernel is entered. *)
Theorem unknown_offset_refused {K} `{!Kernel K} r n offs vs (w : world K) o :
  request_ok r → (n ≤ length offs)%nat → (n ≤ length vs)%nat →
  o ∈ take n offs → o ∉ take (rq_num_lines r) (rq_offsets r) →
  wp (gpiod_line_request_get_values_subset r n (Some offs) (Some vs))
    (λ '(rc, vs') w', rc = -1 ∧ vs' = Some vs ∧ w' = with_errno EINVAL w) w ∧
  wp (gpiod_line_request_set_values_subset r n (Some offs) (Some vs))
    (λ rc w', rc = -1 ∧ w' = with_errno EINVAL w) w.
Proof.
  intros Hr Hn Hv Ho Hnot.
  assert (∀ js, ¬ bits_of r n offs js) as Hno.
  { intros js Hjs. apply list_elem_of_lookup_1 in Ho as (i & Hi).
    eapply Forall2_lookup_l in Hjs as (j & _ & Hj); [|done].
    apply line_bit_Some in Hj as [Hlt Hj]. apply Hnot.
    eapply list_elem_of_lookup_2, lookup_take_Some. split; [done|lia]. }
  split; [apply wp_get_values_subset|apply wp_set_values_subset];
    try done; intros; by exfalso; eapply Hno.
Qed.
Lemma unknown_offset_refused_witness :
  wp (gpiod_line_request_get_values_subset demo_request 2 (Some [3; 6]) (Some [0; 0]))
    (λ '(rc, vs') w', rc = -1 ∧ vs' = Some [0; 0] ∧ w' = with_errno EINVAL demo_world)
    demo_world ∧
  wp (gpiod_line_request_set_values_subset demo_request 2 (Some [3; 6]) (Some [0; 0]))
    (λ rc w', rc = -1 ∧ w' = with_errno EINVAL demo_world) demo_world.
Proof.
  refine (unknown_offset_refused demo_request 2 [3; 6] [0; 0] demo_world 6 demo_request_ok
            _ _ _ _); [simpl; lia|simpl; lia|set_solver|].
  apply (bool_decide_unpack _). reflexivity.
Defined.


(** A read that fails leaves the count of the previous read in the buffer
    while its events have been cleared: every index the count allows then
    yields an all-zero event, whose type is no event type. *)
Theorem failed_read_keeps_count {K} `{!Kernel K, !ReadKernel K} fd b n (w w' : world K) b' i :
  buffer_ok b → 0 ≤ n →
  gpiod_edge_event_buffer_read_fd fd (Some b) n w = Done ((-1, Some b'), w') →
  (i < eb_num_events b)%nat →
  gpiod_edge_event_buffer_get_num_events b' = Z.of_nat (eb_num_events b) ∧
  wp (gpiod_edge_event_buffer_get_event b' i) (λ e w'', w'' = w' ∧ e = Some zero_edge_event) w'.
Proof.
  intros Hb Hn Hrun Hi. pose proof (wp_run _ _ _ _ _ (wp_read_fd fd b n w Hb Hn) Hrun) as H.
  destruct H as (s & k & b1 & _ & [= <-] & (_ & _ & _ & _ & Hpost) & _).
  destruct (_ <=? ret s); [lia|]. destruct Hpost as (_ & Hnum & Hev).
  unfold gpiod_edge_event_buffer_get_num_events, gpiod_edge_event_buffer_get_event.
  rewrite Hnum, Hev. split; [done|]. rewrite decide_False by lia. wps.
  apply (owp_access _ zero_edge_event); [|by wps]. apply lookup_replicate_2.
  pose proof (bo_num _ Hb). lia.
Qed.
Lemma failed_read_keeps_count_witness :
  let w := World 0 0 ∅ [] [] [] (Demo 0 [] []) in
  ∃ b' w', gpiod_edge_event_buffer_read_fd 4 (Some demo_buffer) 10 w = Done ((-1, Some b'), w') ∧
    gpiod_edge_event_buffer_get_num_events b' = 1 ∧
    wp (gpiod_edge_event_buffer_get_event b' 0)
      (λ e w'', w'' = w' ∧ e = Some zero_edge_event) w'.
Proof.
  intros w. eexists _, _. split; [reflexivity|].
  refine (failed_read_keeps_count 4 demo_buffer 10 w _ _ 0 demo_buffer_ok _ eq_refl _);
    simpl; lia.
Defined.

(** [gpiod_chip_get_line_offset_from_name] returns the first line with the
    given name, and -1 with ENOENT when no line has it, on a chip that reports
    its lines. *)
Theorem line_offset_from_name {K} `{!Kernel K, !NameKernel K} chip name (w : world K) :
  0 ∉ name → Z.of_nat (length (line_names (kern w) (ch_fd chip))) < 2 ^ 31 →
  wp (gpiod_chip_get_line_offset_from_name chip (Some name))
    (λ x w', name_post (line_names (kern w) (ch_fd chip)) name x w' ∧ same_mem w w') w.
Proof. apply wp_line_offset_from_name. Qed.
Lemma line_offset_from_name_witness :
  let chip := Chip 3 (Box 0 (str "/dev/gpiochip0")) in
  wp (gpiod_chip_get_line_offset_from_name chip (Some (str "relay")))
    (λ x w', name_post (line_names (kern demo_world) 3) (str "relay") x w' ∧
             same_mem demo_world w') demo_world.
Proof.
  intros chip. refine (line_offset_from_name chip (str "relay") demo_world _ _).
  - apply (bool_decide_unpack _). reflexivity.
  - reflexivity.
Defined.

(** C27. [gpiod_chip_request_lines]: on every failure the heap is as before and
    every descriptor obtained has been closed; on success the object holds the
    configured offsets in order and the kernel's descriptor, the request sent
    encodes the configuration and the consumer, and releasing the object
    returns the heap and closes the descriptor. *)
Theorem request_lines_contract {K} `{!Kernel K, !RequestKernel K} chip rc c lines vals (w : world K) :
  config_rep c lines vals w → options_ok rc →
  wp (gpiod_chip_request_lines chip rc (Some c)) (λ r w', match r with
    | None => live w' = live w ∧
        ∃ fds, opened w' = opened w ++ fds ∧ closed w' = closed w ++ fds
    | Some b =>
        request_ok (contents b) ∧ rq_num_lines (contents b) = length lines ∧
        take (length lines) (rq_offsets (contents b)) = lines.*1 ∧
        sent (ch_fd chip) rc lines vals (contents b) ∧
        opened w' = opened w ++ [rq_fd (contents b)] ∧ closed w' = closed w ∧
        wp (gpiod_line_request_release (Some b)) (λ _ w'',
          live w'' = live w ∧ closed w'' = closed w ++ [rq_fd (contents b)]) w'
    end) w.
Proof. apply wp_request_lines. Qed.
Lemma request_lines_contract_witness :
  let chip := Chip 3 (Box 0 (str "/dev/gpiochip0")) in
  let w := demo_world' in
  wp (gpiod_chip_request_lines chip None (Some demo_config)) (λ r w', match r with
    | None => live w' = live w ∧
        ∃ fds, opened w' = opened w ++ fds ∧ closed w' = closed w ++ fds
    | Some b =>
        request_ok (contents b) ∧ rq_num_lines (contents b) = length demo_lines ∧
        take (length demo_lines) (rq_offsets (contents b)) = demo_lines.*1 ∧
        sent (ch_fd chip) None demo_lines [] (contents b) ∧
        opened w' = opened w ++ [rq_fd (contents b)] ∧ closed w' = closed w ∧
        wp (gpiod_line_request_release (Some b)) (λ _ w'',
          live w'' = live w ∧ closed w'' = closed w ++ [rq_fd (contents b)]) w'
    end) w.
Proof.
  intros chip w.
  exact (request_lines_contract chip None demo_config demo_lines [] w demo_config_rep I).
Defined.

(** [gpiod_chip_open], whatever the kernel and the allocator answer: a
    failure leaks neither memory nor a descriptor, and a success owns two new
    distinct blocks, the path and the one descriptor it opened. *)
Theorem chip_open_balanced {K} `{!Kernel K} path (w : world K) :
  fresh_ok w →
  wp (gpiod_chip_open path) (λ r w', match r with
    | None => live w' = live w ∧
        ∃ fds, opened w' = opened w ++ fds ∧ closed w' = closed w ++ fds
    | Some b => closed w' = closed w ∧ opened w' = opened w ++ [ch_fd (contents b)] ∧
        live w' = {[addr b; addr (ch_path (contents b))]} ∪ live w ∧
        addr b ∉ live w ∧ addr (ch_path (contents b)) ∉ live w ∧
        addr b ≠ addr (ch_path (contents b)) ∧
        path = Some (contents (ch_path (contents b)))
    end) w.
Proof. apply wp_chip_open. Qed.
Lemma chip_open_balanced_witness :
  let w := World 0 0 ∅ [false; false; false; true] [] [] demo_chip in
  wp (gpiod_chip_open (Some (str "/dev/gpiochip0"))) (λ r w', match r with
    | None => live w' = live w ∧
        ∃ fds, opened w' = opened w ++ fds ∧ closed w' = closed w ++ fds
    | Some b => closed w' = closed w ∧ opened w' = opened w ++ [ch_fd (contents b)] ∧
        live w' = {[addr b; addr (ch_path (contents b))]} ∪ live w ∧
        addr b ∉ live w ∧ addr (ch_path (contents b)) ∉ live w ∧
        addr b ≠ addr (ch_path (contents b)) ∧
        Some (str "/dev/gpiochip0") = Some (contents (ch_path (contents b)))
    end) w.
Proof.
  intros w. refine (chip_open_balanced (Some (str "/dev/gpiochip0")) w _).
  intros a Ha. exfalso. set_solver.
Defined.

(** [gpiod_line_request_reconfigure_lines] reaches the kernel only when
    the configuration fits the ABI and covers exactly the requested offsets in
    their order, and then sends the configuration's encoding; otherwise it
    fails with E2BIG or EINVAL and changes nothing. *)
Theorem reconfigure_contract {K} `{!Kernel K} r c lines vals (w : world K) :
  request_ok r → config_rep c lines vals w →
  wp (gpiod_line_request_reconfigure_lines r (Some c)) (λ rc w',
    if decide (attrs_needed lines ≤ GPIO_V2_LINE_NUM_ATTRS_MAX)%nat then
      if decide (take (rq_num_lines r) (rq_offsets r) = lines.*1) then
        ∃ u s k, encodes lines vals u ∧
          ioctl_set_config (rq_fd r) (ur_config u) (kern w) = (s, k) ∧
          rc = ret s ∧ kern w' = k
      else rc = -1 ∧ w' = with_errno EINVAL w
    else rc = -1 ∧ w' = with_errno E2BIG w) w.
Proof. intros Hr. by apply wp_reconfigure. Qed.
Lemma reconfigure_contract_witness :
  take 3 (rq_offsets demo_request) = demo_lines.*1 ∧
  wp (gpiod_line_request_reconfigure_lines demo_request (Some demo_config)) (λ rc w',
    if decide (attrs_needed demo_lines ≤ GPIO_V2_LINE_NUM_ATTRS_MAX)%nat then
      if decide (take (rq_num_lines demo_request) (rq_offsets demo_request) = demo_lines.*1) then
        ∃ u s k, encodes demo_lines [] u ∧
          ioctl_set_config (rq_fd demo_request) (ur_config u) (kern demo_world') = (s, k) ∧
          rc = ret s ∧ kern w' = k
      else rc = -1 ∧ w' = with_errno EINVAL demo_world'
    else rc = -1 ∧ w' = with_errno E2BIG demo_world') demo_world'.
Proof.
  split; [reflexivity|].
  exact (reconfigure_contract demo_request demo_config demo_lines [] demo_world'
           demo_request_ok demo_config_rep).
Defined.

(** What is requested is what is reported: line information carrying the
    flags the kernel decoded from the request (and the used flag) is read back
    as the settings of the line; "as is" comes back as the actual direction
    and an unknown bias. *)
Theorem requested_settings_reported {K} lines vals u i o s name consumer info (w : world K) :
  encodes lines vals u → lines !! i = Some (o, s) → info_wf info name consumer →
  ui_flags info = Z.lor GPIO_V2_LINE_FLAG_USED (kernel_flags (ur_config u) i) →
  wp (fill_line_info info) (λ li w', w' = w ∧
    li_used li = true ∧ li_active_low li = active_low s ∧ li_drive li = drive s ∧
    li_edge li = edge_detection s ∧ li_event_clock li = event_clock s ∧
    li_direction li = (if decide (direction s = DIRECTION_OUTPUT)
                       then DIRECTION_OUTPUT else DIRECTION_INPUT) ∧
    li_bias li = match bias s with BIAS_AS_IS => BIAS_UNKNOWN | b => b end ∧
    cstr (li_name li) = Some name ∧ cstr (li_consumer li) = Some consumer) w.
Proof.
  intros Henc Hi Hwf Hf. rewrite (en_flags _ _ _ Henc i o s Hi), <-make_kernel_flags_abi in Hf.
  destruct (flags_round_trip s) as (H1 & H2 & H3 & H4 & H5 & H6 & H7).
  rewrite <-Hf in H1, H2, H3, H4, H5, H6, H7.
  eapply wp_fill_line_info; [done|]. intros li _ Hn Hc E1 E2 _.
  injection E1 as -> -> ->. injection E2 as -> -> -> ->. split_and!; done.
Qed.
Lemma requested_settings_reported_witness :
  ∃ u li w', gpiod_line_config_to_uapi demo_config zero_request demo_world' =
      Done ((0, u), demo_world') ∧
    let info := UapiInfo (with_nul (str "led") ++ replicate 28 0) zero_name 5 0
                  (Z.lor GPIO_V2_LINE_FLAG_USED (kernel_flags (ur_config u) 2)) [] in
    fill_line_info info demo_world' = Done (li, w') ∧
    li_edge li = EDGE_BOTH ∧ li_event_clock li = CLOCK_REALTIME.
Proof.
  pose proof (wp_to_uapi_encodes demo_config demo_lines [] zero_request demo_world'
                demo_config_rep eq_refl eq_refl) as Hu.
  apply wp_inv in Hu as ([r u] & w' & Hrun & Hpost).
  rewrite decide_True in Hpost by (vm_compute; lia). destruct Hpost as (-> & -> & Henc & _).
  pose (info := UapiInfo (with_nul (str "led") ++ replicate 28 0) zero_name 5 0
                  (Z.lor GPIO_V2_LINE_FLAG_USED (kernel_flags (ur_config u) 2)) []).
  assert (info_wf info (str "led") []) as Hwf by (split; vm_compute; done || lia).
  pose proof (requested_settings_reported demo_lines [] u 2 5 in_settings (str "led") []
                info demo_world' Henc eq_refl Hwf eq_refl) as H.
  apply wp_inv in H as (li & w' & Hli & _ & _ & _ & _ & He & Hc & _).
  exists u, li, w'. split; [exact Hrun|]. split; [exact Hli|]. split; [exact He|exact Hc].
Defined.

(** [gpiod_info_event_from_uapi] accepts exactly the three change events,
    refuses others with ENOMSG, keeps the event's line, and leaks nothing: a
    failure leaves no block and [gpiod_info_event_free] returns both. *)
Theorem info_event_contract {K} u name consumer (w : world K) :
  fresh_ok w → info_wf (uic_info u) name consumer →
  wp (gpiod_info_event_from_uapi u) (λ r w', match r with
    | None => same_mem w w' ∧
        (errno w' = ENOMEM ∨ (errno w' = ENOMSG ∧ ¬ (1 ≤ uic_event_type u ≤ 3)))
    | Some b =>
        1 ≤ uic_event_type u ≤ 3 ∧
        ie_event_type (contents b) =
          (if uic_event_type u =? 1 then INFO_EVENT_LINE_REQUESTED
           else if uic_event_type u =? 2 then INFO_EVENT_LINE_RELEASED
           else INFO_EVENT_LINE_CONFIG_CHANGED) ∧
        li_offset (contents (ie_info (contents b))) = ui_offset (uic_info u) ∧
        cstr (li_name (contents (ie_info (contents b)))) = Some name ∧
        wp (gpiod_info_event_free (Some b)) (λ _ w'', live w'' = live w) w'
    end) w.
Proof. apply wp_info_event_from_uapi. Qed.
Lemma info_event_contract_witness :
  let u := UapiInfoChanged (UapiInfo (with_nul (str "led") ++ replicate 28 0) zero_name 5 0 0 [])
             77 2 in
  wp (gpiod_info_event_from_uapi u) (λ r w', match r with
    | None => same_mem demo_world w' ∧ (errno w' = ENOMEM ∨ (errno w' = ENOMSG ∧ ¬ (1 ≤ 2 ≤ 3)))
    | Some b =>
        1 ≤ 2 ≤ 3 ∧
        ie_event_type (contents b) =
          (if 2 =? 1 then INFO_EVENT_LINE_REQUESTED
           else if 2 =? 2 then INFO_EVENT_LINE_RELEASED
           else INFO_EVENT_LINE_CONFIG_CHANGED) ∧
        li_offset (contents (ie_info (contents b))) = 5 ∧
        cstr (li_name (contents (ie_info (contents b)))) = Some (str "led") ∧
        wp (gpiod_info_event_free (Some b)) (λ _ w'', live w'' = live demo_world) w'
    end) demo_world.
Proof.
  intros u. refine (info_event_contract u (str "led") [] demo_world demo_fresh _).
  split; vm_compute; done || lia.
Defined.

(** A consumer name of any length reaches the kernel as a C string of its
    first 31 characters. *)
Theorem consumer_truncated c s :
  length (rc_consumer c) = GPIO_MAX_NAME_SIZE → Forall (λ x, x ≠ 0) s →
  owp (c' ← gpiod_request_config_set_consumer c (Some s);
       gpiod_request_config_to_uapi c' zero_request)
    (λ u, cstr (ur_consumer u) = Some (take 31 s) ∧
          ur_event_buffer_size u = u32 (rc_event_buffer_size c)).
Proof.
  intros Hl Hs. wps. eapply owp_mono; [by apply set_consumer_spec|].
  intros c' (Hl' & He & Hc). destruct (cstr_spec _ _ Hc) as [Hnz Hlt].
  eapply owp_mono; [by apply request_config_to_uapi_spec; [|rewrite Hl' in Hlt|]|].
  intros u (Hu & _ & Heb & _). by rewrite Heb, He.
Qed.
Lemma consumer_truncated_witness :
  let s := str "a-consumer-name-longer-than-thirty-one-characters" in
  owp (c' ← gpiod_request_config_set_consumer zero_request_config (Some s);
       gpiod_request_config_to_uapi c' zero_request)
    (λ u, cstr (ur_consumer u) = Some (take 31 s) ∧ ur_event_buffer_size u = u32 0).
Proof.
  intros s. refine (consumer_truncated zero_request_config s eq_refl _).
  apply (bool_decide_unpack _). reflexivity.
Defined.

(** The debounce period is an unsigned long in the API and survives a
    set/get on the settings object, but the request carries only its low 32
    bits: a period that is a non-zero multiple of 2^32 is sent as 0, and the
    call still succeeds. *)
Theorem debounce_period_truncated {K} c lines vals (w : world K) i o s p :
  config_rep c lines vals w →
  (attrs_needed lines ≤ GPIO_V2_LINE_NUM_ATTRS_MAX)%nat →
  lines !! i = Some (o, gpiod_line_settings_set_debounce_period_us s p) →
  in_u64 p → p ≠ 0 →
  gpiod_line_settings_get_debounce_period_us
    (gpiod_line_settings_set_debounce_period_us s p) = p ∧
  wp (gpiod_line_config_to_uapi c zero_request) (λ '(r, u) _,
    r = 0 ∧ kernel_debounce (ur_config u) i = Some (p mod 2 ^ 32)) w.
Proof.
  intros Hc Hn Hi Hp H0.
  assert (gpiod_line_settings_get_debounce_period_us
    (gpiod_line_settings_set_debounce_period_us s p) = p) as Hget.
  { unfold gpiod_line_settings_get_debounce_period_us. simpl. rewrite u64_s64. by apply u64_small. }
  split; [done|]. eapply wp_mono; [by apply wp_to_uapi_encodes|]. intros [r u] w'.
  rewrite decide_True by done. intros (-> & _ & Henc & _). split; [done|].
  rewrite (en_debounce _ _ _ Henc i o _ Hi), Hget. cbv zeta.
  by rewrite (proj2 (Z.eqb_neq _ _)) by done.
Qed.
Lemma debounce_period_truncated_witness :
  ∃ c w, wp (gpiod_line_config_to_uapi c zero_request) (λ '(r, u) (_ : world demo),
    r = 0 ∧ kernel_debounce (ur_config u) 0 = Some 0) w.
Proof.
  pose (s := gpiod_line_settings_set_debounce_period_us in_settings (2 ^ 32)).
  destruct (gpiod_line_config_add_line_settings zero_line_config (Some [3]) 1 (Some s) demo_world)
    as [[[r c] w]| |] eqn:E; try (by vm_compute in E).
  assert (r = 0) as -> by (vm_compute in E; congruence).
  pose proof (add_Done [] [] [3] (Some s) _ _ _ _ (config_rep_zero _ demo_fresh) eq_refl E) as Hc.
  exists c, w.
  refine (proj2 (debounce_period_truncated c [(3, s)] [] w 0 3 in_settings (2 ^ 32) Hc
                   _ eq_refl _ _)); [vm_compute; lia|split; vm_compute; done|done].
Defined.

(** [gpiod_edge_event_buffer_new] clamps the capacity to 1..1024 (64 for
    0), returns an empty well-formed buffer that its free function gives back
    whole, or fails with ENOMEM and leaks nothing. *)
Theorem event_buffer_new_contract {K} n (w : world K) :
  fresh_ok w → 0 ≤ n →
  wp (gpiod_edge_event_buffer_new n) (λ r w', match r with
    | None => same_mem w w' ∧ errno w' = ENOMEM
    | Some b => buffer_ok (contents b) ∧ (1 ≤ eb_capacity (contents b) ≤ 1024)%nat ∧
        (1 ≤ n ≤ 1024 → gpiod_edge_event_buffer_get_capacity (contents b) = n) ∧
        gpiod_edge_event_buffer_get_num_events (contents b) = 0 ∧
        wp (gpiod_edge_event_buffer_free (Some b)) (λ _ w'', live w'' = live w) w'
    end) w.
Proof.
  intros Hf Hn. eapply wp_mono; [by apply wp_buffer_new|]. intros [b|] w'; [|done].
  intros (Hok & Hcap & Hnum & Hfree). pose proof (clamp_capacity_range n Hn) as Hr.
  change EVENT_BUFFER_MAX_CAPACITY with 1024 in Hr.
  unfold gpiod_edge_event_buffer_get_capacity, gpiod_edge_event_buffer_get_num_events.
  rewrite Hnum, Hcap. split_and!; try done; [lia..|]. intros Hin. unfold clamp_capacity.
  change EVENT_BUFFER_MAX_CAPACITY with 1024. rewrite (proj2 (Z.eqb_neq _ _)) by lia.
  rewrite (proj2 (Z.ltb_ge _ _)) by lia. lia.
Qed.
Lemma event_buffer_new_contract_witness :
  wp (gpiod_edge_event_buffer_new 16) (λ r w', match r with
    | None => same_mem demo_world w' ∧ errno w' = ENOMEM
    | Some b => buffer_ok (contents b) ∧ (1 ≤ eb_capacity (contents b) ≤ 1024)%nat ∧
        (1 ≤ 16 ≤ 1024 → gpiod_edge_event_buffer_get_capacity (contents b) = 16) ∧
        gpiod_edge_event_buffer_get_num_events (contents b) = 0 ∧
        wp (gpiod_edge_event_buffer_free (Some b)) (λ _ w'', live w'' = live demo_world) w'
    end) demo_world.
Proof. exact (event_buffer_new_contract 16 demo_world demo_fresh ltac:(lia)). Defined.
