(* ===== verification/IgtList.v ===== *)
(** * igt: the circular doubly-linked list ([lib/igt_list.c], [lib/igt_list.h])

    Nodes live in a memory of list heads; every operation is the sequence of
    loads and stores of the C code. A list is a ring of nodes; the lemmas show
    that the operations are insertion and deletion on the sequence of its
    elements and touch no node outside it. *)

From S2P Require Import Prelude.

(** A pointer is an address or NULL. *)
Definition ptr : Type := option nat.
Record igt_list_head : Type := ListHead { prev : ptr; next : ptr }.
Notation mem := (gmap nat igt_list_head).

Definition load (p : ptr) : C mem igt_list_head := λ h,
  match p ≫= (h !!.) with Some n => Done (n, h) | None => Undef end.
Definition store_prev (p v : ptr) : C mem unit := λ h,
  match p with
  | Some a => match h !! a with
              | Some n => Done (tt, <[a := ListHead v (next n)]> h)
              | None => Undef
              end
  | None => Undef
  end.
Definition store_next (p v : ptr) : C mem unit := λ h,
  match p with
  | Some a => match h !! a with
              | Some n => Done (tt, <[a := ListHead (prev n) v]> h)
              | None => Undef
              end
  | None => Undef
  end.

(** ** The operations *)
Definition IGT_INIT_LIST_HEAD (list : nat) : C mem unit :=
  store_prev (Some list) (Some list);;
  store_next (Some list) (Some list).

Definition igt_list_add (elem : nat) (head : ptr) : C mem unit :=
  store_prev (Some elem) head;;
  h ← load head;
  store_next (Some elem) (next h);;
  store_next head (Some elem);;
  e ← load (Some elem);
  store_prev (next e) (Some elem).

Definition igt_list_add_tail (elem : nat) (head : ptr) : C mem unit :=
  h ← load head; igt_list_add elem (prev h).

Definition igt_list_del (elem : nat) : C mem unit :=
  e ← load (Some elem);
  store_next (prev e) (next e);;
  e ← load (Some elem);
  store_prev (next e) (prev e);;
  store_next (Some elem) None;;
  store_prev (Some elem) None.

Definition igt_list_del_init (elem : nat) : C mem unit :=
  igt_list_del elem;; IGT_INIT_LIST_HEAD elem.

Definition igt_list_move (elem list : nat) : C mem unit :=
  igt_list_del elem;; igt_list_add elem (Some list).

Definition igt_list_move_tail (elem list : nat) : C mem unit :=
  igt_list_del elem;; igt_list_add_tail elem (Some list).

(** The loop of [igt_list_length]: [count] is an [int], and fuel bounds the
    number of iterations. *)
Fixpoint length_loop (fuel : nat) (head : nat) (e : ptr) (count : Z) : C mem Z :=
  match fuel with
  | O => lift Undef
  | S f =>
      if decide (e = Some head) then mret count else
      n ← load e;
      if 2 ^ 31 <=? count + 1 then lift Undef else
      length_loop f head (next n) (count + 1)
  end.
Definition igt_list_length (fuel : nat) (head : nat) : C mem Z :=
  h ← load (Some head); length_loop fuel head (next h) 0.

Definition igt_list_empty (head : nat) : C mem bool :=
  h ← load (Some head); mret (bool_decide (next h = Some head)).

(** [igt_list_for_each_entry]: the elements in the order they are visited. *)
Fixpoint for_each_entry (fuel : nat) (head : nat) (pos : ptr) : C mem (list nat) :=
  match fuel, pos with
  | O, _ | _, None => lift Undef
  | S f, Some a =>
      if decide (a = head) then mret [] else
      n ← load pos;
      rest ← for_each_entry f head (next n); mret (a :: rest)
  end.
Fixpoint for_each_entry_reverse (fuel : nat) (head : nat) (pos : ptr) : C mem (list nat) :=
  match fuel, pos with
  | O, _ | _, None => lift Undef
  | S f, Some a =>
      if decide (a = head) then mret [] else
      n ← load pos;
      rest ← for_each_entry_reverse f head (prev n); mret (a :: rest)
  end.

(** ** Rings *)
Definition nxt (h : mem) (a : nat) : ptr := h !! a ≫= next.
Definition prv (h : mem) (a : nat) : ptr := h !! a ≫= prev.

(** From [a] through the nodes [l] to [b]. *)
Fixpoint path (h : mem) (a : nat) (l : list nat) (b : nat) : Prop :=
  match l with
  | [] => nxt h a = Some b ∧ prv h b = Some a
  | x :: l' => (nxt h a = Some x ∧ prv h x = Some a) ∧ path h x l' b
  end.

Record ring (h : mem) (a : nat) (l : list nat) : Prop := {
  rg_path : path h a l a;
  rg_nodup : NoDup (a :: l)
}.

Lemma path_app h a l1 x l2 b : path h a (l1 ++ x :: l2) b ↔ path h a l1 x ∧ path h x l2 b.
Proof.
  revert a. induction l1 as [|y l1 IH]; intros a; simpl; [done|]. rewrite IH. tauto.
Qed.
Lemma path_frame h h' a l b :
  path h a l b → (∀ x, x ∈ a :: l → nxt h' x = nxt h x) →
  (∀ x, x ∈ l ++ [b] → prv h' x = prv h x) → path h' a l b.
Proof.
  revert a. induction l as [|y l IH]; intros a Hp Hn Hv; simpl in *.
  - rewrite Hn, Hv by set_solver. done.
  - destruct Hp as [? Hp]. split; [rewrite Hn, Hv by set_solver; done|].
    apply IH; [done|..]; intros x Hx; [apply Hn|apply Hv]; set_solver.
Qed.

(** A ring can be read from any of its nodes. *)
Lemma ring_rotate h a l1 x l2 : ring h a (l1 ++ x :: l2) → ring h x (l2 ++ a :: l1).
Proof.
  intros [Hp Hn]. apply path_app in Hp as [H1 H2]. split.
  - apply path_app. done.
  - assert (x :: l2 ++ a :: l1 ≡ₚ a :: l1 ++ x :: l2) as -> by solve_Permutation. done.
Qed.

Lemma ring_frame h h' a l :
  ring h a l → (∀ x, x ∈ a :: l → h' !! x = h !! x) → ring h' a l.
Proof.
  intros [Hp Hn] H. split; [|done]. eapply path_frame; [done|..]; intros x Hx;
    unfold nxt, prv; rewrite H; set_solver.
Qed.

(** ** Loads and stores in terms of the links *)
Lemma wp_load h a (Φ : igt_list_head → mem → Prop) :
  is_Some (h !! a) → (∀ n, nxt h a = next n → prv h a = prev n → Φ n h) →
  wp (load (Some a)) Φ h.
Proof.
  intros [n Hn] HΦ. unfold wp, load, nxt, prv in *. simpl. rewrite Hn in *. simpl in *. by apply HΦ.
Qed.
(** [upd h h' a]: [h'] differs from [h] in the node [a] only, which exists. *)
Definition same_but (h h' : mem) (a : nat) : Prop :=
  (∀ x, x ≠ a → h' !! x = h !! x) ∧ ∀ x, is_Some (h !! x) → is_Some (h' !! x).
Lemma wp_store_prev h a v (Φ : unit → mem → Prop) :
  is_Some (h !! a) →
  (∀ h', same_but h h' a → (∀ x, prv h' x = if decide (x = a) then v else prv h x) →
     (∀ x, nxt h' x = nxt h x) → Φ tt h') →
  wp (store_prev (Some a) v) Φ h.
Proof.
  intros [n Hn] HΦ. unfold wp, store_prev. rewrite Hn. apply HΦ.
  - split; intros x; rewrite fin_maps.lookup_insert; case_decide; naive_solver.
  - intros x. unfold prv. rewrite fin_maps.lookup_insert. repeat case_decide; naive_solver.
  - intros x. unfold nxt. rewrite fin_maps.lookup_insert. case_decide; [subst; by rewrite Hn|done].
Qed.
Lemma wp_store_next h a v (Φ : unit → mem → Prop) :
  is_Some (h !! a) →
  (∀ h', same_but h h' a → (∀ x, nxt h' x = if decide (x = a) then v else nxt h x) →
     (∀ x, prv h' x = prv h x) → Φ tt h') →
  wp (store_next (Some a) v) Φ h.
Proof.
  intros [n Hn] HΦ. unfold wp, store_next. rewrite Hn. apply HΦ.
  - split; intros x; rewrite fin_maps.lookup_insert; case_decide; naive_solver.
  - intros x. unfold nxt. rewrite fin_maps.lookup_insert. repeat case_decide; naive_solver.
  - intros x. unfold prv. rewrite fin_maps.lookup_insert. case_decide; [subst; by rewrite Hn|done].
Qed.
Lemma nxt_alloc h a x : nxt h a = Some x → is_Some (h !! a).
Proof. unfold nxt. destruct (h !! a); [by eexists|done]. Qed.
Lemma prv_alloc h a x : prv h a = Some x → is_Some (h !! a).
Proof. unfold prv. destruct (h !! a); [by eexists|done]. Qed.

(** Every node of a ring is allocated, and its neighbours are its links. *)
Lemma ring_first h a l :
  ring h a l → ∃ s, s = default a (head l) ∧ nxt h a = Some s ∧ prv h s = Some a.
Proof.
  intros [Hp _]. exists (default a (head l)). split; [done|].
  destruct l; simpl in *; tauto.
Qed.
Lemma ring_alloc h a l x : ring h a l → x ∈ a :: l → is_Some (h !! x).
Proof.
  intros H Hx. apply elem_of_cons in Hx as [->|Hx].
  - apply ring_first in H as (s & _ & Hs & _). by eapply nxt_alloc.
  - apply list_elem_of_split in Hx as (l1 & l2 & ->).
    apply ring_rotate, ring_first in H as (s & _ & Hs & _). by eapply nxt_alloc.
Qed.

(** What an operation on the nodes [l] leaves alone. *)
Definition frame (h h' : mem) (l : list nat) : Prop :=
  (∀ x, x ∉ l → h' !! x = h !! x) ∧ ∀ x, is_Some (h !! x) → is_Some (h' !! x).
Lemma frame_step h h1 h2 a l : frame h h1 l → same_but h1 h2 a → a ∈ l → frame h h2 l.
Proof.
  intros [F1 F2] [S1 S2] Ha. split; [|auto].
  intros x Hx. rewrite S1 by (intros ->; done). by apply F1.
Qed.
Lemma frame_refl h l : frame h h l.
Proof. done. Qed.
Lemma frame_trans h h1 h2 l : frame h h1 l → frame h1 h2 l → frame h h2 l.
Proof. intros [F1 F2] [G1 G2]. split; [intros x Hx; by rewrite G1, F1|auto]. Qed.
Lemma frame_mono h h' l l' : frame h h' l → l ⊆ l' → frame h h' l'.
Proof. intros [F1 F2] Hl. split; [|done]. intros x Hx. apply F1. set_solver. Qed.

Lemma wp_init a h :
  is_Some (h !! a) → wp (IGT_INIT_LIST_HEAD a) (λ _ h', ring h' a [] ∧ frame h h' [a]) h.
Proof.
  intros Ha. unfold IGT_INIT_LIST_HEAD. wps. apply wp_store_prev; [done|].
  intros h1 S1 P1 N1. apply wp_store_next; [by apply S1|]. intros h2 S2 N2 P2. split.
  - split; [|apply NoDup_singleton]. simpl. rewrite N2, P2, P1. by rewrite !decide_True.
  - eapply frame_step; [eapply frame_step; [apply frame_refl|done|]|done|]; set_solver.
Qed.

Lemma wp_add e p l h :
  ring h p l → e ∉ p :: l → is_Some (h !! e) →
  wp (igt_list_add e (Some p)) (λ _ h', ring h' p (e :: l) ∧ frame h h' (e :: p :: l)) h.
Proof.
  intros Hr He Hal. destruct (ring_first _ _ _ Hr) as (s & Hs & Hn & Hv).
  assert (s ∈ p :: l) as Hsin by (subst s; destruct l; simpl; set_solver).
  assert (is_Some (h !! p)) as Hpa by (by eapply nxt_alloc).
  assert (is_Some (h !! s)) as Hsa by (by eapply prv_alloc).
  unfold igt_list_add. wps. apply wp_store_prev; [done|]. intros h1 S1 P1 N1. wps.
  apply wp_load; [by apply S1|]. intros n Hn1 _. rewrite N1, Hn in Hn1. rewrite <-Hn1. wps.
  apply wp_store_next; [by apply S1|]. intros h2 S2 N2 P2. wps.
  apply wp_store_next; [by apply S2, S1|]. intros h3 S3 N3 P3. wps.
  apply wp_load; [by apply S3, S2, S1|]. intros n3 Hn3 _.
  rewrite N3, N2, decide_False, decide_True in Hn3 by set_solver. rewrite <-Hn3.
  apply wp_store_prev; [by apply S3, S2, S1|]. intros h4 S4 P4 N4.
  assert (∀ x, nxt h4 x = if decide (x = p) then Some e else if decide (x = e) then Some s else nxt h x) as Hnx.
  { intros x. by rewrite N4, N3, N2, N1. }
  assert (∀ x, prv h4 x = if decide (x = s) then Some e else if decide (x = e) then Some p else prv h x) as Hpv.
  { intros x. by rewrite P4, P3, P2, P1. }
  split.
  - destruct Hr as [Hp Hnd]. split.
    + simpl. rewrite Hnx, Hpv, decide_True, decide_False, decide_True by set_solver.
      split; [done|]. destruct l as [|y l']; simpl in *; subst s.
      * rewrite Hnx, Hpv, decide_False, !decide_True by set_solver. done.
      * rewrite Hnx, Hpv, decide_False, !decide_True by set_solver. split; [done|].
        destruct Hp as [_ Hp]. apply NoDup_cons in Hnd as [Hnp Hnd]. apply NoDup_cons in Hnd as [Hny Hnd].
        eapply path_frame; [done|..]; intros x Hx.
        -- by rewrite Hnx, !decide_False by set_solver.
        -- by rewrite Hpv, !decide_False by set_solver.
    + apply NoDup_cons in Hnd as [? ?]. apply NoDup_cons. split; [set_solver|].
      apply NoDup_cons. set_solver.
  - repeat (eapply frame_step; [|done|set_solver]). apply frame_refl.
Qed.

Lemma wp_del e p l h :
  ring h p (e :: l) →
  wp (igt_list_del e) (λ _ h', ring h' p l ∧ frame h h' (e :: p :: l) ∧
    h' !! e = Some (ListHead None None)) h.
Proof.
  intros Hr. pose proof (ring_alloc _ _ _ e Hr ltac:(set_solver)) as He.
  destruct Hr as [[[Hnp Hve] Hp] Hnd]. apply NoDup_cons in Hnd as [Hpn Hnd].
  apply NoDup_cons in Hnd as [Hen Hnd].
  assert (∃ s, s = default p (head l) ∧ nxt h e = Some s ∧ prv h s = Some e) as (s & Hs & Hns & Hvs).
  { exists (default p (head l)). split; [done|]. destruct l; simpl in *; tauto. }
  assert (s ∈ p :: l) as Hsin by (subst s; destruct l; simpl; set_solver).
  assert (is_Some (h !! p)) as Hpa by (by eapply nxt_alloc).
  assert (is_Some (h !! s)) as Hsa by (by eapply prv_alloc).
  unfold igt_list_del. wps. apply wp_load; [done|]. intros n N0 V0.
  rewrite Hns in N0. rewrite Hve in V0. rewrite <-N0, <-V0. wps.
  apply wp_store_next; [done|]. intros h1 S1 N1 P1. wps.
  apply wp_load; [by apply S1|]. intros n1 Hn1 Hv1.
  rewrite N1, decide_False, Hns in Hn1 by set_solver. rewrite P1, Hve in Hv1. rewrite <-Hn1, <-Hv1.
  wps. apply wp_store_prev; [by apply S1|]. intros h2 S2 P2 N2. wps.
  apply wp_store_next; [by apply S2, S1|]. intros h3 S3 N3 P3.
  apply wp_store_prev; [by apply S3, S2, S1|]. intros h4 S4 P4 N4.
  assert (∀ x, x ≠ e → nxt h4 x = if decide (x = p) then Some s else nxt h x) as Hnx.
  { intros x Hx. by rewrite N4, N3, decide_False, N2, N1. }
  assert (∀ x, x ≠ e → prv h4 x = if decide (x = s) then Some p else prv h x) as Hpv.
  { intros x Hx. by rewrite P4, decide_False, P3, P2, P1. }
  split_and!.
  - split; [|by apply NoDup_cons; set_solver]. destruct l as [|y l']; simpl in *; subst s.
    + rewrite Hnx, Hpv, !decide_True by set_solver. done.
    + rewrite Hnx, Hpv, !decide_True by set_solver. split; [done|]. destruct Hp as [_ Hp].
      apply NoDup_cons in Hnd as [Hny Hnd].
      eapply path_frame; [done|..]; intros x Hx.
      * by rewrite Hnx, decide_False by set_solver.
      * by rewrite Hpv, decide_False by set_solver.
  - repeat (eapply frame_step; [|done|set_solver]). apply frame_refl.
  - destruct (proj2 S4 e) as [[pv nx] E4]; [by apply S3, S2, S1|].
    specialize (P4 e). specialize (N4 e). rewrite N3 in N4. unfold prv, nxt in P4, N4.
    rewrite E4, decide_True in P4, N4 by done. simpl in *. by subst.
Qed.

(** ** Lists: a sentinel and the elements after it *)
Lemma wp_add_after e p head l1 l2 h :
  ring h head (l1 ++ p :: l2) → e ∉ head :: l1 ++ p :: l2 → is_Some (h !! e) →
  wp (igt_list_add e (Some p)) (λ _ h', ring h' head (l1 ++ p :: e :: l2) ∧
    frame h h' (e :: head :: l1 ++ p :: l2)) h.
Proof.
  intros Hr He Ha. eapply wp_mono; [apply wp_add; [by apply ring_rotate|set_solver|done]|].
  intros _ h' [Hr' Hf]. split.
  - apply (ring_rotate h' p (e :: l2) head l1 Hr').
  - eapply frame_mono; [done|set_solver].
Qed.

(** The predecessor of the sentinel is the last element. *)
Lemma ring_last h head l : ring h head l → prv h head = Some (default head (last l)).
Proof.
  intros [Hp _]. destruct l as [|z l _] using rev_ind; [by destruct Hp|].
  rewrite last_snoc. simpl. apply path_app in Hp as [_ Hp]. by destruct Hp.
Qed.
Lemma wp_add_tail e head l h :
  ring h head l → e ∉ head :: l → is_Some (h !! e) →
  wp (igt_list_add_tail e (Some head)) (λ _ h', ring h' head (l ++ [e]) ∧
    frame h h' (e :: head :: l)) h.
Proof.
  intros Hr He Ha. unfold igt_list_add_tail. wps.
  apply wp_load; [apply (ring_alloc h head l head Hr); set_solver|]. intros n _ Hv.
  rewrite (ring_last _ _ _ Hr) in Hv. rewrite <-Hv.
  destruct l as [|z l _] using rev_ind; [by apply wp_add|].
  rewrite last_snoc. simpl. eapply wp_mono; [by apply (wp_add_after e z head l [])|].
  intros _ h' [Hr' Hf]. by rewrite <-app_assoc.
Qed.

Lemma wp_del_elem e head l1 l2 h :
  ring h head (l1 ++ e :: l2) →
  wp (igt_list_del e) (λ _ h', ring h' head (l1 ++ l2) ∧ frame h h' (head :: l1 ++ e :: l2) ∧
    h' !! e = Some (ListHead None None)) h.
Proof.
  intros Hr. destruct l1 as [|z l1 _] using rev_ind.
  - eapply wp_mono; [by apply wp_del|]. intros _ h' (Hr' & Hf & He). split_and!; [done| |done].
    eapply frame_mono; [done|set_solver].
  - rewrite <-app_assoc in Hr. simpl in Hr. apply ring_rotate in Hr.
    eapply wp_mono; [by apply (wp_del e z (l2 ++ head :: l1))|].
    intros _ h' (Hr' & Hf & He). split_and!; [| |done].
    + rewrite <-app_assoc. by apply ring_rotate.
    + eapply frame_mono; [done|set_solver].
Qed.

Lemma wp_del_init e head l1 l2 h :
  ring h head (l1 ++ e :: l2) →
  wp (igt_list_del_init e) (λ _ h', ring h' head (l1 ++ l2) ∧ ring h' e [] ∧
    frame h h' (head :: l1 ++ e :: l2)) h.
Proof.
  intros Hr. unfold igt_list_del_init. wps. eapply wp_mono; [by apply wp_del_elem|].
  intros _ h1 (Hr1 & Hf1 & He1). eapply wp_mono; [apply wp_init; by rewrite He1|].
  intros _ h2 [Hre Hf2]. split_and!; [|done|].
  - eapply ring_frame; [done|]. intros x Hx. apply Hf2. destruct Hr as [_ Hnd].
    assert (head :: l1 ++ e :: l2 ≡ₚ e :: head :: l1 ++ l2) as Hperm by solve_Permutation.
    rewrite Hperm in Hnd. apply NoDup_cons in Hnd as [Hnd _]. set_solver.
  - eapply frame_trans; [done|]. eapply frame_mono; [done|set_solver].
Qed.

(** Moving an element to the front or to the end of another list. *)
Section move.
Context (h : mem) (head head' e : nat) (l1 l2 l' : list nat).
Context (Hr : ring h head (l1 ++ e :: l2)) (Hr' : ring h head' l').
Context (Hdisj : ∀ x, x ∈ head' :: l' → x ∉ head :: l1 ++ e :: l2).

Lemma move_add h1 h2 (L : list nat) :
  ring h1 head (l1 ++ l2) → frame h h1 (head :: l1 ++ e :: l2) →
  ring h2 head' L → frame h1 h2 (e :: head' :: l') →
  ring h2 head (l1 ++ l2) ∧ frame h h2 (head' :: l' ++ head :: l1 ++ e :: l2).
Proof.
  intros H1 F1 _ F2. split.
  - eapply ring_frame; [done|]. intros x Hx. apply F2. destruct Hr as [_ Hnd].
    assert (head :: l1 ++ e :: l2 ≡ₚ e :: head :: l1 ++ l2) as Hperm by solve_Permutation.
    rewrite Hperm in Hnd. apply NoDup_cons in Hnd as [Hnd _].
    assert (x ∉ head' :: l') by (intros Hx'; apply (Hdisj x Hx'); set_solver).
    assert (x ≠ e) by (intros ->; done). set_solver.
  - eapply frame_trans; eapply frame_mono; try done; set_solver.
Qed.

Lemma wp_move :
  wp (igt_list_move e head') (λ _ h', ring h' head (l1 ++ l2) ∧ ring h' head' (e :: l') ∧
    frame h h' (head' :: l' ++ head :: l1 ++ e :: l2)) h.
Proof.
  unfold igt_list_move. wps. eapply wp_mono; [by apply wp_del_elem|].
  intros _ h1 (H1 & F1 & He).
  eapply wp_mono; [apply (wp_add e head' l' h1)|].
  - eapply ring_frame; [done|]. intros x Hx. by apply F1, Hdisj.
  - intros Hx. apply (Hdisj e Hx). set_solver.
  - by rewrite He.
  - intros _ h2 [H2 F2]. destruct (move_add h1 h2 _ H1 F1 H2 F2). done.
Qed.
Lemma wp_move_tail :
  wp (igt_list_move_tail e head') (λ _ h', ring h' head (l1 ++ l2) ∧
    ring h' head' (l' ++ [e]) ∧ frame h h' (head' :: l' ++ head :: l1 ++ e :: l2)) h.
Proof.
  unfold igt_list_move_tail. wps. eapply wp_mono; [by apply wp_del_elem|].
  intros _ h1 (H1 & F1 & He).
  eapply wp_mono; [apply (wp_add_tail e head' l' h1)|].
  - eapply ring_frame; [done|]. intros x Hx. by apply F1, Hdisj.
  - intros Hx. apply (Hdisj e Hx). set_solver.
  - by rewrite He.
  - intros _ h2 [H2 F2]. destruct (move_add h1 h2 _ H1 F1 H2 F2). done.
Qed.
End move.

(** ** Traversals *)
Lemma wp_length_loop h head l fuel e count :
  path h e l head → head ∉ l → is_Some (h !! e) → (length l < fuel)%nat →
  count + Z.of_nat (length l) < 2 ^ 31 →
  wp (n ← load (Some e); length_loop fuel head (next n) count)
    (λ x h', h' = h ∧ x = count + Z.of_nat (length l)) h.
Proof.
  revert fuel e count. induction l as [|y l IH]; intros fuel e count Hp Hh He Hf Hc; wps;
    (apply wp_load; [done|]); intros n Hn _; simpl in *.
  - destruct Hp as [Hp _]. rewrite Hp in Hn. rewrite <-Hn. destruct fuel; [lia|]. simpl.
    rewrite decide_True by done. wps. split; [done|lia].
  - destruct Hp as [[Hp Hv] Hp']. rewrite Hp in Hn. rewrite <-Hn. destruct fuel as [|fuel]; [lia|].
    simpl. rewrite decide_False by set_solver. rewrite (proj2 (Z.leb_gt _ _)) by lia.
    eapply wp_mono; [apply (IH fuel y (count + 1)); [done|set_solver|by eapply prv_alloc|lia|lia]|].
    intros x h' [-> ->]. split; [done|lia].
Qed.
Lemma wp_length h head l fuel :
  ring h head l → (length l < fuel)%nat → Z.of_nat (length l) < 2 ^ 31 →
  wp (igt_list_length fuel head) (λ x h', h' = h ∧ x = Z.of_nat (length l)) h.
Proof.
  intros Hr Hf Hl. pose proof (ring_alloc h head l head Hr ltac:(set_solver)) as Ha.
  destruct Hr as [Hp Hnd]. apply NoDup_cons in Hnd as [Hh _].
  unfold igt_list_length. by apply (wp_length_loop h head l fuel head 0).
Qed.
Lemma wp_empty h head l :
  ring h head l → wp (igt_list_empty head) (λ b h', h' = h ∧ b = bool_decide (l = [])) h.
Proof.
  intros Hr. pose proof (ring_alloc h head l head Hr ltac:(set_solver)) as Ha.
  destruct Hr as [Hp Hnd]. unfold igt_list_empty. wps. apply wp_load; [done|]. intros n Hn _. wps.
  split; [done|]. rewrite <-Hn. apply bool_decide_ext. destruct l as [|y l]; simpl in Hp.
  - destruct Hp as [-> _]. done.
  - destruct Hp as [[-> _] _]. apply NoDup_cons in Hnd as [Hnd _]. set_solver.
Qed.
Lemma wp_for_each h head l e fuel :
  path h e l head → head ∉ l → (length l < fuel)%nat →
  wp (for_each_entry fuel head (nxt h e)) (λ x h', h' = h ∧ x = l) h.
Proof.
  revert fuel e. induction l as [|y l IH]; intros fuel e Hp Hh Hf; simpl in *;
    (destruct fuel as [|fuel]; [lia|]).
  - destruct Hp as [-> _]. simpl. by rewrite decide_True by done.
  - destruct Hp as [[-> Hv] Hp]. simpl. rewrite decide_False by set_solver. wps.
    apply wp_load; [by eapply prv_alloc|]. intros n Hn _. rewrite <-Hn. wps.
    eapply wp_mono; [apply IH; [done|set_solver|lia]|]. intros x h' [-> ->]. wps. done.
Qed.
Lemma wp_for_each_reverse h head l e fuel :
  path h head l e → head ∉ l → (length l < fuel)%nat →
  wp (for_each_entry_reverse fuel head (prv h e)) (λ x h', h' = h ∧ x = reverse l) h.
Proof.
  revert fuel e. induction l as [|y l IH] using rev_ind; intros fuel e Hp Hh Hf;
    (destruct fuel as [|fuel]; [lia|]).
  - destruct Hp as [_ ->]. simpl. by rewrite decide_True by done.
  - apply path_app in Hp as [Hp [Hn ->]]. simpl. rewrite decide_False by set_solver. wps.
    apply wp_load; [by eapply nxt_alloc|]. intros n _ Hv. rewrite <-Hv. wps.
    rewrite length_app in Hf. simpl in Hf.
    eapply wp_mono; [apply IH; [done|set_solver|lia]|]. intros x h' [-> ->]. wps.
    by rewrite reverse_snoc.
Qed.
