(* ===== verification/IgtMap.v ===== *)
(** * igt: the open-addressing hash map ([lib/igt_map.c])

    The table, its counters and every operation, with the 32-bit arithmetic of
    the probe sequence. The callbacks given to [igt_map_create] are section
    parameters; a key is identified with the value the key pointer refers to,
    an entry pointer with its index in the table. [calloc] may fail: the state
    of a computation is the sequence of its outcomes ([true] is a failure). *)

From S2P Require Import Prelude.

(** ** The table of sizes *)
Record hash_size : Type := HashSize { hs_max_entries : Z; hs_size : Z; hs_rehash : Z }.
Definition hash_sizes : list hash_size := [
  HashSize 2 5 3;
  HashSize 4 7 5;
  HashSize 8 13 11;
  HashSize 16 19 17;
  HashSize 32 43 41;
  HashSize 64 73 71;
  HashSize 128 151 149;
  HashSize 256 283 281;
  HashSize 512 571 569;
  HashSize 1024 1153 1151;
  HashSize 2048 2269 2267;
  HashSize 4096 4519 4517;
  HashSize 8192 9013 9011;
  HashSize 16384 18043 18041;
  HashSize 32768 36109 36107;
  HashSize 65536 72091 72089;
  HashSize 131072 144409 144407;
  HashSize 262144 288361 288359;
  HashSize 524288 576883 576881;
  HashSize 1048576 1153459 1153457;
  HashSize 2097152 2307163 2307161;
  HashSize 4194304 4613893 4613891;
  HashSize 8388608 9227641 9227639;
  HashSize 16777216 18455029 18455027;
  HashSize 33554432 36911011 36911009;
  HashSize 67108864 73819861 73819859;
  HashSize 134217728 147639589 147639587;
  HashSize 268435456 295279081 295279079;
  HashSize 536870912 590559793 590559791;
  HashSize 1073741824 1181116273 1181116271;
  HashSize 2147483648 2362232233 2362232231].

(** The key of a slot: NULL, the marker [deleted_key], or a key. *)
Inductive slot (K : Type) : Type := Null | Deleted | Ptr (k : K).
Arguments Null {K}.
Arguments Deleted {K}.
Arguments Ptr {K} k.

Record igt_map_entry (K D : Type) : Type := Entry { hash : Z; key : slot K; data : option D }.
Arguments Entry {K D} _ _ _.
Arguments hash {K D} _.
Arguments key {K D} _.
Arguments data {K D} _.

Record igt_map (K D : Type) : Type := Map {
  table : list (igt_map_entry K D);
  size : Z;
  rehash : Z;
  max_entries : Z;
  size_index : nat;
  entries : Z;
  deleted_entries : Z
}.
Arguments Map {K D} _ _ _ _ _ _ _.
Arguments table {K D} _.
Arguments size {K D} _.
Arguments rehash {K D} _.
Arguments max_entries {K D} _.
Arguments size_index {K D} _.
Arguments entries {K D} _.
Arguments deleted_entries {K D} _.

(** Outcomes of the next allocations. *)
Definition calloc_ok : C (list bool) bool := λ o,
  match o with true :: o' => Done (false, o') | _ => Done (true, tail o) end.

Section igt_map.
Context {K D : Type}.
Implicit Types (m : igt_map K D) (e : igt_map_entry K D) (k : K).

Definition entry_is_free e : bool := match key e with Null => true | _ => false end.
Definition entry_is_deleted e : bool := match key e with Deleted => true | _ => false end.
Definition entry_is_present e : bool := match key e with Ptr _ => true | _ => false end.

(** An entry of a table [calloc] has just zeroed. *)
Definition zero_entry : igt_map_entry K D := Entry 0 Null None.
Definition zero_table (hs : hash_size) : list (igt_map_entry K D) :=
  replicate (Z.to_nat (hs_size hs)) zero_entry.

Context (hash_function : K → Z) (key_equals_function : K → K → bool).

Definition empty_map (idx : nat) (hs : hash_size) : igt_map K D :=
  Map (zero_table hs) (hs_size hs) (hs_rehash hs) (hs_max_entries hs) idx 0 0.

(** Two allocations: the map and its table. *)
Definition igt_map_create : C (list bool) (option (igt_map K D)) :=
  ok ← calloc_ok;
  if negb ok then mret None else
  hs ← lift (access (hash_sizes !! 0%nat));
  ok ← calloc_ok;
  if negb ok then mret None else mret (Some (empty_map 0 hs)).

(** ** Iteration *)
Fixpoint next_present (l : list (igt_map_entry K D)) (i : nat) : option nat :=
  match l with
  | [] => None
  | e :: l' => if entry_is_present e then Some i else next_present l' (S i)
  end.
Definition igt_map_next_entry m (entry : option nat) : option nat :=
  let start := match entry with None => 0%nat | Some i => S i end in
  next_present (drop start (table m)) start.

(** [igt_map_foreach]: the entries visited, in order. *)
Fixpoint foreach_from (fuel : nat) m (entry : option nat) :
    outcome (list (igt_map_entry K D)) :=
  match fuel, entry with
  | O, _ => Undef
  | _, None => mret []
  | S f, Some i =>
      e ← access (table m !! i);
      rest ← foreach_from f m (igt_map_next_entry m (Some i)); mret (e :: rest)
  end.
Definition igt_map_foreach m : outcome (list (igt_map_entry K D)) :=
  foreach_from (S (length (table m))) m (igt_map_next_entry m None).

(** ** Search *)
Definition next_address m (h addr : Z) : Z :=
  let double_hash := u32 (1 + h mod rehash m) in
  u32 (addr + double_hash) mod size m.

Definition key_matches (k : K) e : bool :=
  match key e with Ptr k' => key_equals_function k k' | _ => false end.

Fixpoint search_loop (fuel : nat) m (h : Z) k (start addr : Z) : outcome (option nat) :=
  match fuel with
  | O => Undef
  | S f =>
      e ← access (table m !! Z.to_nat addr);
      if entry_is_free e then mret None else
      if entry_is_present e && (hash e =? h) && key_matches k e
      then mret (Some (Z.to_nat addr)) else
      let addr' := next_address m h addr in
      if addr' =? start then mret None else search_loop f m h k start addr'
  end.
Definition igt_map_search_pre_hashed m (h : Z) k : outcome (option nat) :=
  let start := h mod size m in search_loop (Z.to_nat (size m)) m h k start start.
Definition igt_map_search_entry m k : outcome (option nat) :=
  igt_map_search_pre_hashed m (hash_function k) k.
Definition igt_map_search m k : outcome (option D) :=
  r ← igt_map_search_pre_hashed m (hash_function k) k;
  match r with
  | Some i => e ← access (table m !! i); mret (data e)
  | None => mret None
  end.

(** ** Insertion *)
Definition set_entry m (i : nat) e : outcome (igt_map K D) :=
  t ← arr_set (table m) i e;
  mret (Map t (size m) (rehash m) (max_entries m) (size_index m) (entries m)
          (deleted_entries m)).
Definition set_counts m (n d : Z) : igt_map K D :=
  Map (table m) (size m) (rehash m) (max_entries m) (size_index m) n d.

(** The probe loop: [inr] is a matching entry, [inl] the first available one. *)
Fixpoint insert_loop (fuel : nat) m (h : Z) k (start addr : Z) (available : option nat) :
    outcome (option nat + nat) :=
  match fuel with
  | O => Undef
  | S f =>
      e ← access (table m !! Z.to_nat addr);
      let available :=
        if entry_is_present e then available
        else match available with None => Some (Z.to_nat addr) | Some _ => available end in
      if entry_is_free e then mret (inl available) else
      if negb (entry_is_deleted e) && (hash e =? h) && key_matches k e
      then mret (inr (Z.to_nat addr)) else
      let addr' := next_address m h addr in
      if addr' =? start then mret (inl available)
      else insert_loop f m h k start addr' available
  end.

(** The part of [igt_map_insert_pre_hashed] after a possible rehash. *)
Definition insert_slot m (h : Z) k (d : option D) : outcome (igt_map K D * option nat) :=
  let start := h mod size m in
  r ← insert_loop (Z.to_nat (size m)) m h k start start None;
  match r with
  | inr i =>
      e ← access (table m !! i);
      m ← set_entry m i (Entry (hash e) (Ptr k) d);
      mret (m, Some i)
  | inl (Some i) =>
      e ← access (table m !! i);
      let m := if entry_is_deleted e
               then set_counts m (entries m) (u32 (deleted_entries m - 1)) else m in
      m ← set_entry m i (Entry h (Ptr k) d);
      mret (set_counts m (u32 (entries m + 1)) (deleted_entries m), Some i)
  | inl None => mret (m, None)
  end.

(** The loop of [igt_map_rehash] over the old entries, with [insert] for the
    recursive insertions, whose result is ignored. *)
Fixpoint reinsert
    (insert : igt_map K D → Z → K → option D → C (list bool) (igt_map K D * option nat))
    (l : list (igt_map_entry K D)) m : C (list bool) (igt_map K D) :=
  match l with
  | [] => mret m
  | e :: l' =>
      match key e with
      | Ptr k => '(m, _) ← insert m (hash e) k (data e); reinsert insert l' m
      | _ => lift Undef
      end
  end.
Definition rehash_with
    (insert : igt_map K D → Z → K → option D → C (list bool) (igt_map K D * option nat))
    m (new_size_index : nat) : C (list bool) (igt_map K D) :=
  match hash_sizes !! new_size_index with
  | None => mret m
  | Some hs =>
      ok ← calloc_ok;
      if negb ok then mret m else
      l ← lift (igt_map_foreach m);
      reinsert insert l (empty_map new_size_index hs)
  end.

(** Insertion and rehashing call each other; [fuel] bounds the nesting. *)
Fixpoint insert_fuel (fuel : nat) m (h : Z) k (d : option D) :
    C (list bool) (igt_map K D * option nat) :=
  match fuel with
  | O => lift Undef
  | S f =>
      m ← (if max_entries m <=? entries m
           then rehash_with (insert_fuel f) m (S (size_index m))
           else if max_entries m <=? u32 (deleted_entries m + entries m)
           then rehash_with (insert_fuel f) m (size_index m)
           else mret m);
      lift (insert_slot m h k d)
  end.
(** Nesting never goes deeper than three calls. *)
Definition igt_map_insert_pre_hashed m h k d := insert_fuel 3 m h k d.
Definition igt_map_rehash m (new_size_index : nat) : C (list bool) (igt_map K D) :=
  rehash_with (insert_fuel 2) m new_size_index.
(** [key] may be NULL, which the assertion refuses. *)
Definition igt_map_insert m (k : option K) (d : option D) :
    C (list bool) (igt_map K D * option nat) :=
  match k with
  | None => lift Abort
  | Some k => igt_map_insert_pre_hashed m (hash_function k) k d
  end.

(** ** Removal *)
Definition igt_map_remove_entry m (entry : option nat) : outcome (igt_map K D) :=
  match entry with
  | None => mret m
  | Some i =>
      e ← access (table m !! i);
      m ← set_entry m i (Entry (hash e) Deleted (data e));
      mret (set_counts m (u32 (entries m - 1)) (u32 (deleted_entries m + 1)))
  end.

(** A delete callback receives an entry, or NULL. *)
Definition igt_map_remove m k (delete_function : option (option (igt_map_entry K D) → outcome unit)) :
    outcome (igt_map K D) :=
  entry ← igt_map_search_entry m k;
  _ ← match delete_function with
      | None => mret tt
      | Some f =>
          match entry with
          | None => f None
          | Some i => e ← access (table m !! i); f (Some e)
          end
      end;
  igt_map_remove_entry m entry.

Definition igt_map_destroy (m : option (igt_map K D))
    (delete_function : option (igt_map_entry K D → outcome unit)) : outcome unit :=
  match m, delete_function with
  | None, _ | _, None => mret tt
  | Some m, Some f =>
      l ← igt_map_foreach m;
      foldl (λ acc e, _ ← acc; f e) (mret tt) l
  end.

(** ** A random entry: [r] is the value of [random()] *)
Fixpoint find_entry (predicate : option (igt_map_entry K D → bool))
    (l : list (igt_map_entry K D)) (i : nat) : option nat :=
  match l with
  | [] => None
  | e :: l' =>
      if entry_is_present e && match predicate with None => true | Some p => p e end
      then Some i else find_entry predicate l' (S i)
  end.
Definition igt_map_random_entry m (predicate : option (igt_map_entry K D → bool)) (r : Z) :
    option nat :=
  let i := Z.to_nat (r mod size m) in
  if entries m =? 0 then None else
  match find_entry predicate (drop i (table m)) i with
  | Some j => Some j
  | None => find_entry predicate (take i (table m)) 0
  end.
End igt_map.

(** ** Hash functions for integer keys *)
Definition GOLDEN_RATIO_PRIME_32 : Z := 2654404609.
Definition igt_map_hash_32 (key : Z) : Z := u32 (key * GOLDEN_RATIO_PRIME_32).
Definition igt_map_equal_32 (key1 key2 : Z) : bool := key1 =? key2.
Definition GOLDEN_RATIO_PRIME_64 : Z := 11400862456688148481.
Definition igt_map_hash_64 (key : Z) : Z :=
  u32 (Z.shiftr (u64 (key * GOLDEN_RATIO_PRIME_64)) 32).
Definition igt_map_equal_64 (key1 key2 : Z) : bool := key1 =? key2.
