(* ===== verification/IgtMapSpec.v ===== *)
(** * igt: the hash map implements a finite map

    The probe sequence of a key visits every slot (the table sizes are prime),
    so search, insertion, rehashing and removal refine the operations of a
    finite map from keys to data, whatever [calloc] answers. *)

From Stdlib Require Import Znumtheory.
From S2P Require Import Prelude IgtMap.

(** ** The sizes are prime *)
Fixpoint no_divisor (fuel : nat) (d n : Z) : bool :=
  match fuel with
  | O => false
  | S f => if n <? d * d then true else negb (n mod d =? 0) && no_divisor f (d + 1) n
  end.
Lemma no_divisor_spec fuel d n :
  0 < d → no_divisor fuel d n = true → ∀ x, d ≤ x → x * x ≤ n → ¬ (x | n).
Proof.
  revert d. induction fuel as [|f IH]; intros d Hd H x Hx Hsq Hdiv; [done|]. simpl in H.
  destruct (Z.ltb_spec n (d * d)); [nia|]. apply andb_true_iff in H as [H1 H2].
  destruct (decide (x = d)) as [->|]; [|by apply (IH (d + 1) ltac:(lia) H2 x); [lia|..]].
  apply negb_true_iff, Z.eqb_neq in H1. apply H1. by apply Z.mod_divide; [lia|].
Qed.
Lemma no_divisor_prime fuel n : 1 < n → no_divisor fuel 2 n = true → prime n.
Proof.
  intros Hn H. apply prime_alt. split; [done|]. intros x Hx [y Hy].
  assert (∀ z, 2 ≤ z → z * z ≤ n → ¬ (z | n)) as Hno by (by apply (no_divisor_spec fuel); [lia|]).
  assert (1 < y) by nia. destruct (decide (x * x ≤ n)).
  - apply (Hno x); [lia|done|]. by exists y.
  - apply (Hno y); [lia|nia|]. exists x. lia.
Qed.

(** What the algorithms need of a line of the table, and of the next one. *)
Definition size_ok (hs : hash_size) : bool :=
  (1 <? hs_size hs) && no_divisor (Z.to_nat 40000) 2 (hs_size hs) &&
  (0 <? hs_rehash hs) && (hs_rehash hs <? hs_size hs) &&
  (hs_size hs + hs_rehash hs <? 2 ^ 32) && (hs_max_entries hs <? hs_size hs) &&
  (0 <? hs_max_entries hs).
Definition usable : nat := 30.
Lemma sizes_checked : forallb size_ok (take usable hash_sizes) = true.
Proof. vm_compute. reflexivity. Qed.

Record size_spec (hs : hash_size) : Prop := {
  sz_prime : prime (hs_size hs);
  sz_rehash : 0 < hs_rehash hs < hs_size hs;
  sz_wrap : hs_size hs + hs_rehash hs < 2 ^ 32;
  sz_max : 0 < hs_max_entries hs < hs_size hs
}.
Lemma hash_sizes_spec i hs : hash_sizes !! i = Some hs → (i < usable)%nat → size_spec hs.
Proof.
  intros Hi Hlt. assert (size_ok hs = true) as H.
  { eapply forallb_forall; [exact sizes_checked|]. apply list_elem_of_In.
    eapply list_elem_of_lookup_2, lookup_take_Some. done. }
  unfold size_ok in H. rewrite !andb_true_iff, !Z.ltb_lt in H.
  destruct H as ((((((? & ?) & ?) & ?) & ?) & ?) & ?).
  split; [by eapply no_divisor_prime|lia..].
Qed.

(** The next size leaves room: after the first one, a full table fits below
    the next limit. *)
Definition growth_ok (p : hash_size * hash_size) : bool :=
  (hs_size p.1 <? hs_size p.2) && (hs_max_entries p.2 =? 2 * hs_max_entries p.1).
Lemma growth_checked : forallb growth_ok (zip hash_sizes (tail hash_sizes)) = true.
Proof. vm_compute. reflexivity. Qed.
Lemma hash_sizes_next i hs hs' :
  hash_sizes !! i = Some hs → hash_sizes !! S i = Some hs' →
  hs_size hs < hs_size hs' ∧ hs_max_entries hs' = 2 * hs_max_entries hs.
Proof.
  intros H H'. assert (growth_ok (hs, hs') = true) as Hg.
  { eapply forallb_forall; [exact growth_checked|]. apply list_elem_of_In.
    apply (list_elem_of_lookup_2 _ i). by rewrite lookup_zip_with, H, lookup_tail, H'. }
  unfold growth_ok in Hg. simpl in Hg. rewrite !andb_true_iff, !Z.ltb_lt, Z.eqb_eq in Hg. lia.
Qed.
Definition fits_ok (p : hash_size * hash_size) : bool := hs_size p.1 <=? hs_max_entries p.2.
Lemma fits_checked :
  forallb fits_ok (zip (tail hash_sizes) (tail (tail hash_sizes))) = true.
Proof. vm_compute. reflexivity. Qed.
Lemma full_fits i hs hs' :
  hash_sizes !! S i = Some hs → hash_sizes !! S (S i) = Some hs' →
  hs_size hs ≤ hs_max_entries hs'.
Proof.
  intros H H'. assert (fits_ok (hs, hs') = true) as Hg.
  { eapply forallb_forall; [exact fits_checked|]. apply list_elem_of_In.
    apply (list_elem_of_lookup_2 _ i). by rewrite lookup_zip_with, !lookup_tail, H, H'. }
  by apply Z.leb_le in Hg.
Qed.
Lemma hash_sizes_is_Some i : (i ≤ usable)%nat → is_Some (hash_sizes !! i).
Proof. intros. apply lookup_lt_is_Some_2. unfold usable in *. change (length hash_sizes) with 31%nat. lia. Qed.
Lemma max_entries_pow i hs :
  hash_sizes !! i = Some hs → hs_max_entries hs = 2 ^ (Z.of_nat i + 1).
Proof.
  revert hs. induction i as [|i IH]; intros hs H; [simpl in H; by simplify_eq|].
  destruct (lookup_lt_is_Some_2 hash_sizes i) as [hs0 H0];
    [apply lookup_lt_Some in H; lia|].
  destruct (hash_sizes_next i hs0 hs H0 H) as [_ ->]. rewrite (IH hs0 H0).
  replace (Z.of_nat (S i) + 1) with (Z.succ (Z.of_nat i + 1)) by lia.
  rewrite Z.pow_succ_r by lia. done.
Qed.

(** ** The probe sequence *)
Section probe.
Context (n r h : Z) (Hn : prime n) (Hr : 0 < r < n) (Hw : n + r < 2 ^ 32).
Definition step : Z := 1 + h mod r.
Definition paddr (j : Z) : Z := (h + j * step) mod n.

Lemma n_pos : 1 < n. Proof. by destruct Hn. Qed.
Lemma step_range : 0 < step < n.
Proof. unfold step. pose proof (Z.mod_pos_bound h r). lia. Qed.
Lemma paddr_range j : 0 ≤ paddr j < n.
Proof. apply Z.mod_pos_bound. pose proof n_pos. lia. Qed.
Lemma paddr_next j : u32 (paddr j + u32 step) mod n = paddr (j + 1).
Proof.
  pose proof (paddr_range j). pose proof step_range. pose proof n_pos.
  rewrite (u32_small step) by (unfold in_u32; lia).
  assert (step ≤ r) by (unfold step; pose proof (Z.mod_pos_bound h r); lia).
  rewrite u32_small by (unfold in_u32; lia). unfold paddr.
  rewrite Zplus_mod_idemp_l. f_equal. lia.
Qed.
(** Two positions of the sequence coincide only when their distance is a
    multiple of the table size. *)
Lemma paddr_inj i j : paddr i = paddr j → (n | i - j).
Proof.
  unfold paddr. intros H. pose proof n_pos. pose proof step_range.
  assert ((n | (i - j) * step)) as Hd.
  { apply Z.mod_divide; [lia|].
    replace ((i - j) * step) with ((h + i * step) - (h + j * step)) by lia.
    rewrite Zminus_mod, H, Z.sub_diag. apply Z.mod_0_l. lia. }
  apply prime_mult in Hd as [Hd|Hd]; [done| |done].
  exfalso. apply Z.divide_pos_le in Hd; lia.
Qed.
Lemma paddr_inj_range i j : 0 ≤ i < n → 0 ≤ j < n → paddr i = paddr j → i = j.
Proof.
  intros Hi Hj [q Hq]%paddr_inj. assert (q = 0) by nia. lia.
Qed.
(** Every slot is visited. *)
Lemma paddr_surj a : 0 ≤ a < n → ∃ j, 0 ≤ j < n ∧ paddr j = a.
Proof.
  intros Ha. pose proof step_range. pose proof n_pos.
  assert (rel_prime step n) as Hrel.
  { apply rel_prime_le_prime; [done|lia]. }
  apply rel_prime_bezout in Hrel as [u v Huv].
  exists (((a - h) * u) mod n). split; [apply Z.mod_pos_bound; lia|]. unfold paddr.
  rewrite <-Zplus_mod_idemp_r, Zmult_mod_idemp_l, Zplus_mod_idemp_r.
  replace (h + (a - h) * u * step) with (h + (a - h) * (u * step)) by ring.
  replace (u * step) with (1 - v * n) by lia.
  replace (h + (a - h) * (1 - v * n)) with (a + (h - a) * v * n) by ring.
  rewrite Z_mod_plus_full. by apply Z.mod_small.
Qed.
Lemma paddr_wrap j : 0 ≤ j < n → paddr (j + 1) = paddr 0 → j + 1 = n.
Proof.
  intros Hj [q Hq]%paddr_inj. assert (q = 1) by nia. lia.
Qed.
Lemma paddr_full j : j + 1 = n → paddr (j + 1) = paddr 0.
Proof. intros ->. unfold paddr. rewrite Z.mul_comm, Z_mod_plus_full. f_equal. lia. Qed.
End probe.

(** ** The representation *)
Section spec.
Context {K D : Type} `{!EqDecision K, !Countable K}.
Context (hash_function : K → Z) (key_equals_function : K → K → bool).
Context (Hhash : ∀ k, in_u32 (hash_function k)).
Context (Hequal : ∀ k k', key_equals_function k k' = bool_decide (k = k')).
Implicit Types (m : igt_map K D) (e : igt_map_entry K D) (k : K) (M : gmap K (option D)).

(** The bindings of a table, in the order of its slots. *)
Definition binding e : option (K * option D) :=
  match key e with Ptr k => Some (k, data e) | _ => None end.
Definition bindings (t : list (igt_map_entry K D)) : list (K * option D) := omap binding t.
Definition n_deleted (t : list (igt_map_entry K D)) : nat :=
  length (filter (λ e, entry_is_deleted e = true) t).

(** The slot at step [j] of the probe sequence of [k]. *)
Definition pslot m k (j : Z) : option (igt_map_entry K D) :=
  table m !! Z.to_nat (paddr (size m) (rehash m) (hash_function k) j).

Record rep m M : Prop := {
  rp_sizes : ∃ hs, hash_sizes !! size_index m = Some hs ∧ size m = hs_size hs ∧
    rehash m = hs_rehash hs ∧ max_entries m = hs_max_entries hs;
  rp_usable : (size_index m < usable)%nat;
  rp_len : Z.of_nat (length (table m)) = size m;
  rp_entries : entries m = Z.of_nat (length (bindings (table m)));
  rp_deleted : deleted_entries m = Z.of_nat (n_deleted (table m));
  rp_hash i e k : table m !! i = Some e → key e = Ptr k → hash e = hash_function k;
  (* no free slot before a key on its probe sequence *)
  rp_reach i e k j : table m !! i = Some e → key e = Ptr k → 0 ≤ j < size m →
    Z.of_nat i = paddr (size m) (rehash m) (hash_function k) j →
    ∀ j', 0 ≤ j' < j → ∃ e', pslot m k j' = Some e' ∧ entry_is_free e' = false;
  rp_nodup : NoDup (bindings (table m)).*1;
  rp_map : M = list_to_map (bindings (table m))
}.

Lemma rep_size_spec m M : rep m M →
  prime (size m) ∧ 0 < rehash m < size m ∧ size m + rehash m < 2 ^ 32 ∧
  0 < max_entries m < size m.
Proof.
  intros H. destruct (rp_sizes _ _ H) as (hs & Hi & -> & -> & ->).
  by destruct (hash_sizes_spec _ _ Hi (rp_usable _ _ H)).
Qed.
Lemma next_address_paddr m M k j :
  rep m M → next_address m (hash_function k) (paddr (size m) (rehash m) (hash_function k) j) =
            paddr (size m) (rehash m) (hash_function k) (j + 1).
Proof.
  intros H. destruct (rep_size_spec _ _ H) as (? & ? & ? & _). by apply paddr_next.
Qed.
Lemma pslot_Some m M k j : rep m M → ∃ e, pslot m k j = Some e.
Proof.
  intros H. destruct (rep_size_spec _ _ H) as (Hp & _).
  pose proof (paddr_range (size m) (rehash m) (hash_function k) Hp j) as Hr.
  pose proof (rp_len _ _ H). apply lookup_lt_is_Some_2. lia.
Qed.
(** Every slot is on the probe sequence of every key. *)
Lemma slot_pslot m M k i e :
  rep m M → table m !! i = Some e →
  ∃ j, 0 ≤ j < size m ∧ Z.of_nat i = paddr (size m) (rehash m) (hash_function k) j ∧
       pslot m k j = Some e.
Proof.
  intros H Hi. destruct (rep_size_spec _ _ H) as (Hp & Hr & Hw & _).
  destruct (paddr_surj (size m) (rehash m) (hash_function k) Hp Hr (Z.of_nat i)) as (j & Hj & Ha).
  { apply lookup_lt_Some in Hi. pose proof (rp_len _ _ H). lia. }
  exists j. split; [done|]. split; [done|]. unfold pslot. by rewrite Ha, Nat2Z.id.
Qed.

Lemma bindings_elem t k d :
  (k, d) ∈ bindings t ↔ ∃ i e, t !! i = Some e ∧ key e = Ptr k ∧ data e = d.
Proof.
  unfold bindings. rewrite list_elem_of_omap. split.
  - intros (e & (i & Hi)%list_elem_of_lookup_1 & Hb). exists i, e. unfold binding in Hb.
    destruct (key e) as [| |k'] eqn:E; simplify_eq. done.
  - intros (i & e & Hi & Hk & Hd). exists e. split; [by eapply list_elem_of_lookup_2|].
    unfold binding. by rewrite Hk, Hd.
Qed.
Lemma rep_lookup m M k d : rep m M →
  M !! k = Some d ↔ ∃ i e, table m !! i = Some e ∧ key e = Ptr k ∧ data e = d.
Proof.
  intros H. rewrite (rp_map _ _ H), <-bindings_elem. symmetry.
  apply elem_of_list_to_map, (rp_nodup _ _ H).
Qed.
Lemma rep_absent m M k : rep m M →
  M !! k = None ↔ ∀ i e, table m !! i = Some e → key e ≠ Ptr k.
Proof.
  intros H. split.
  - intros HM i e Hi Hk. assert (M !! k = Some (data e)) by (apply (rep_lookup m); eauto). congruence.
  - intros Hno. destruct (M !! k) as [d|] eqn:E; [|done].
    apply (rep_lookup m) in E as (i & e & Hi & Hk & _); [|done]. by destruct (Hno i e).
Qed.
Lemma rep_size m M : rep m M → entries m = Z.of_nat (base.size M).
Proof.
  intros H. rewrite (rp_entries _ _ H), (rp_map _ _ H).
  by rewrite map_size_list_to_map by apply (rp_nodup _ _ H).
Qed.
Lemma n_deleted_cons e t :
  n_deleted (e :: t) = ((if entry_is_deleted e then 1 else 0) + n_deleted t)%nat.
Proof.
  unfold n_deleted. rewrite filter_cons.
  destruct (decide (entry_is_deleted e = true)) as [E|E].
  - by rewrite E.
  - by destruct (entry_is_deleted e).
Qed.
Lemma bindings_cons e t : bindings (e :: t) = option_list (binding e) ++ bindings t.
Proof. unfold bindings. simpl. by destruct (binding e). Qed.
Lemma n_deleted_app t t' : n_deleted (t ++ t') = (n_deleted t + n_deleted t')%nat.
Proof. unfold n_deleted. by rewrite filter_app, length_app. Qed.
Lemma bindings_app t t' : bindings (t ++ t') = bindings t ++ bindings t'.
Proof. apply omap_app. Qed.
Lemma counts_le t : (length (bindings t) + n_deleted t ≤ length t)%nat.
Proof.
  induction t as [|e t IH]; [done|]. rewrite bindings_cons, n_deleted_cons, length_app.
  unfold binding, entry_is_deleted. destruct (key e); simpl; lia.
Qed.
Lemma all_present t :
  (∀ i e, t !! i = Some e → entry_is_present e = true) → length (bindings t) = length t.
Proof.
  induction t as [|e t IH]; intros Hall; [done|]. rewrite bindings_cons, length_app, IH.
  - specialize (Hall 0%nat e eq_refl). unfold entry_is_present in Hall. unfold binding.
    by destruct (key e).
  - intros i e' Hi. by apply (Hall (S i)).
Qed.

(** ** Search *)
Lemma search_loop_ok m M k : rep m M → ∀ fuel j,
  0 ≤ j < size m → Z.of_nat fuel = size m - j →
  (∀ j', 0 ≤ j' < j → ∃ e, pslot m k j' = Some e ∧ entry_is_free e = false ∧ key e ≠ Ptr k) →
  owp (search_loop key_equals_function fuel m (hash_function k) k
         (paddr (size m) (rehash m) (hash_function k) 0)
         (paddr (size m) (rehash m) (hash_function k) j))
    (λ r, match r with
          | Some i => ∃ e, table m !! i = Some e ∧ key e = Ptr k
          | None => M !! k = None
          end).
Proof.
  intros H. destruct (rep_size_spec _ _ H) as (Hp & Hr & Hw & _).
  induction fuel as [|f IH]; intros j Hj Hf Hbefore; [lia|]. cbn [search_loop].
  destruct (pslot_Some m M k j H) as [e He]. wps. apply (owp_access _ e); [exact He|].
  assert (∀ i e', table m !! i = Some e' → key e' = Ptr k → key e ≠ Ptr k →
    (entry_is_free e = true ∨ j + 1 = size m) → False) as Hnot.
  { intros i e' Hi Hk Hne Hor. destruct (slot_pslot m M k i e' H Hi) as (j0 & Hj0 & Ha & Hs).
    destruct (Z.lt_trichotomy j0 j) as [Hlt|[->|Hgt]].
    - destruct (Hbefore j0 ltac:(lia)) as (e2 & He2 & _ & Hk2). congruence.
    - congruence.
    - destruct Hor as [Hfree|]; [|lia].
      destruct (rp_reach m M H i e' k j0 Hi Hk Hj0 Ha j) as (e2 & He2 & Hf2); [lia|]. congruence. }
  destruct (entry_is_free e) eqn:Hfree.
  { apply owp_ret. apply (rep_absent m); [done|]. intros i e' Hi Hk.
    eapply Hnot; eauto. unfold entry_is_free in Hfree. by destruct (key e). }
  destruct (entry_is_present e && (hash e =? hash_function k) && key_matches key_equals_function k e) eqn:Hm.
  { apply owp_ret. exists e. split; [done|]. rewrite !andb_true_iff in Hm. destruct Hm as [_ Hm].
    unfold key_matches in Hm. destruct (key e) as [| |k']; try done.
    rewrite Hequal in Hm. apply bool_decide_eq_true in Hm. by subst. }
  assert (key e ≠ Ptr k) as Hne.
  { intros Hk. rewrite (rp_hash m M H _ _ _ He Hk), Z.eqb_refl in Hm.
    unfold entry_is_present, key_matches in Hm. rewrite Hk, Hequal, bool_decide_true in Hm by done. done. }
  rewrite (next_address_paddr m M) by done.
  destruct (Z.eqb_spec (paddr (size m) (rehash m) (hash_function k) (j + 1))
              (paddr (size m) (rehash m) (hash_function k) 0)) as [Hwrap|Hnw].
  - apply owp_ret. apply (rep_absent m); [done|]. intros i e' Hi Hk.
    apply paddr_wrap in Hwrap; [|done..]. eapply Hnot; eauto.
  - assert (j + 1 ≠ size m) by (intros Hfull; apply Hnw; by apply paddr_full).
    apply IH; [lia|lia|]. intros j' Hj'. destruct (decide (j' = j)) as [->|]; [by exists e|].
    apply Hbefore. lia.
Qed.

Lemma start_paddr m k : hash_function k mod size m = paddr (size m) (rehash m) (hash_function k) 0.
Proof. unfold paddr. f_equal. lia. Qed.

(** A slot that holds the key, or none and the key is unbound. *)
Lemma search_entry_ok m M k : rep m M →
  owp (igt_map_search_entry hash_function key_equals_function m k)
    (λ r, match r with
          | Some i => ∃ e, table m !! i = Some e ∧ key e = Ptr k ∧ M !! k = Some (data e)
          | None => M !! k = None
          end).
Proof.
  intros H. destruct (rep_size_spec _ _ H) as (Hp & _). destruct (id Hp) as [Hgt _].
  unfold igt_map_search_entry, igt_map_search_pre_hashed. cbv zeta. rewrite start_paddr.
  eapply owp_mono; [apply (search_loop_ok m M); [done|lia|lia|lia]|].
  intros [i|]; [|done]. intros (e & Hi & Hk). exists e. split_and!; [done..|].
  apply (rep_lookup m); eauto.
Qed.
Lemma search_ok m M k : rep m M →
  igt_map_search hash_function key_equals_function m k = Done (mjoin (M !! k)).
Proof.
  intros H. pose proof (search_entry_ok m M k H) as Hs. unfold igt_map_search_entry in Hs.
  unfold igt_map_search. apply owp_inv in Hs as ([i|] & -> & Hpost); simpl.
  - destruct Hpost as (e & -> & _ & ->). done.
  - by rewrite Hpost.
Qed.

(** ** Updating a slot *)
Definition with_table m t n d : igt_map K D :=
  Map t (size m) (rehash m) (max_entries m) (size_index m) n d.

Lemma rep_update m M M' i e0 e1 n d :
  rep m M → table m !! i = Some e0 → entry_is_free e1 = false →
  (∀ k, key e1 = Ptr k → hash e1 = hash_function k ∧
     ∀ j, 0 ≤ j < size m → Z.of_nat i = paddr (size m) (rehash m) (hash_function k) j →
     ∀ j', 0 ≤ j' < j → ∃ e', pslot m k j' = Some e' ∧ entry_is_free e' = false) →
  let t := <[i := e1]> (table m) in
  n = Z.of_nat (length (bindings t)) → d = Z.of_nat (n_deleted t) →
  NoDup (bindings t).*1 → M' = list_to_map (bindings t) →
  rep (with_table m t n d) M'.
Proof.
  intros H Hi Hfree Hnew t Hn Hd Hnd HM. pose proof (lookup_lt_Some _ _ _ Hi) as Hlt.
  assert (∀ k j, (∃ e', pslot m k j = Some e' ∧ entry_is_free e' = false) →
    ∃ e', pslot (with_table m t n d) k j = Some e' ∧ entry_is_free e' = false) as Hkeep.
  { intros k j (e' & He' & Hf'). unfold pslot, with_table, t in *. simpl.
    destruct (decide (i = Z.to_nat (paddr (size m) (rehash m) (hash_function k) j))) as [<-|].
    - exists e1. by rewrite list_lookup_insert_eq.
    - exists e'. by rewrite list_lookup_insert_ne. }
  destruct H as [Hs Hu Hl _ _ Hh Hr _ _]. split; unfold with_table; simpl; try done.
  - unfold t. by rewrite length_insert.
  - intros i' e' k He' Hk. unfold t in He'.
    destruct (decide (i = i')) as [<-|]; [|rewrite list_lookup_insert_ne in He' by done; eauto].
    rewrite list_lookup_insert_eq in He' by done. simplify_eq. by apply Hnew.
  - intros i' e' k j He' Hk Hj Ha j' Hj'. apply Hkeep. unfold t in He'.
    destruct (decide (i = i')) as [<-|]; [|rewrite list_lookup_insert_ne in He' by done; eauto].
    rewrite list_lookup_insert_eq in He' by done. simplify_eq. by eapply Hnew.
Qed.

(** The bindings around a slot. *)
Lemma bindings_at t i e0 : t !! i = Some e0 → ∃ B1 B2,
  bindings t = B1 ++ option_list (binding e0) ++ B2 ∧
  ∀ e1, bindings (<[i := e1]> t) = B1 ++ option_list (binding e1) ++ B2.
Proof.
  intros Hi. exists (bindings (take i t)), (bindings (drop (S i) t)). split.
  - rewrite <-(take_drop_middle t i e0 Hi) at 1. by rewrite bindings_app, bindings_cons.
  - intros e1. rewrite insert_take_drop by (by eapply lookup_lt_Some).
    by rewrite bindings_app, bindings_cons.
Qed.
Lemma n_deleted_at t i e0 e1 : t !! i = Some e0 →
  (n_deleted (<[i := e1]> t) + (if entry_is_deleted e0 then 1 else 0) =
   n_deleted t + (if entry_is_deleted e1 then 1 else 0))%nat.
Proof.
  intros Hi. rewrite insert_take_drop by (by eapply lookup_lt_Some).
  rewrite <-(take_drop_middle t i e0 Hi) at 3. rewrite !n_deleted_app, !n_deleted_cons. lia.
Qed.
Lemma list_to_map_middle (B1 B2 : list (K * option D)) k d :
  NoDup (B1 ++ (k, d) :: B2).*1 →
  (list_to_map (B1 ++ (k, d) :: B2) : gmap K (option D)) = <[k := d]> (list_to_map (B1 ++ B2)) ∧
  (list_to_map (B1 ++ B2) : gmap K (option D)) !! k = None ∧ NoDup (B1 ++ B2).*1.
Proof.
  intros Hnd. assert (B1 ++ (k, d) :: B2 ≡ₚ (k, d) :: B1 ++ B2) as Hp by solve_Permutation.
  split; [by rewrite (list_to_map_proper _ _ Hnd Hp)|].
  assert (NoDup ((k, d) :: B1 ++ B2).*1) as Hnd' by (by rewrite <-Hp).
  rewrite fmap_cons in Hnd'. apply NoDup_cons in Hnd' as [Hk Hnd']. split; [|done].
  by apply not_elem_of_list_to_map.
Qed.
Lemma bindings_lt m M : rep m M → 0 ≤ entries m ≤ size m ∧ 0 ≤ deleted_entries m ∧
  entries m + deleted_entries m ≤ size m.
Proof.
  intros H. rewrite (rp_entries _ _ H), (rp_deleted _ _ H), <-(rp_len _ _ H).
  pose proof (counts_le (table m)). lia.
Qed.

(** Writing a new binding for [k]. *)
Lemma rep_write m M i e0 k d h :
  rep m M → table m !! i = Some e0 → h = hash_function k →
  (key e0 = Ptr k ∨ (entry_is_present e0 = false ∧ M !! k = None ∧
     ∃ j, 0 ≤ j < size m ∧ Z.of_nat i = paddr (size m) (rehash m) (hash_function k) j ∧
     ∀ j', 0 ≤ j' < j → ∃ e', pslot m k j' = Some e' ∧ entry_is_free e' = false)) →
  let t := <[i := Entry h (Ptr k) d]> (table m) in
  rep (with_table m t (Z.of_nat (length (bindings t))) (Z.of_nat (n_deleted t))) (<[k := d]> M).
Proof.
  intros H Hi -> Hor t. destruct (rep_size_spec _ _ H) as (Hp & Hr & Hw & _).
  destruct (bindings_at _ _ _ Hi) as (B1 & B2 & HB & HB').
  assert (bindings t = B1 ++ (k, d) :: B2) as Ht by (unfold t; by rewrite HB').
  assert (NoDup (B1 ++ (k, d) :: B2).*1 ∧ <[k := d]> M = <[k := d]> (list_to_map (B1 ++ B2)))
    as [Hnd HM].
  { pose proof (rp_nodup _ _ H) as Hnd. pose proof (rp_map _ _ H) as HM. rewrite HB in Hnd, HM.
    destruct Hor as [Hk|(Hk & Hnone & _)].
    - assert (binding e0 = Some (k, data e0)) as E by (unfold binding; by rewrite Hk).
      rewrite E in Hnd, HM. simpl in Hnd, HM. split; [by rewrite !fmap_app in *|].
      destruct (list_to_map_middle _ _ _ _ Hnd) as (Hmid & _). rewrite HM, Hmid.
      apply fin_maps.insert_insert_eq.
    - assert (binding e0 = None) as E
        by (unfold binding; unfold entry_is_present in Hk; by destruct (key e0)).
      rewrite E in Hnd, HM. simpl in Hnd, HM. split; [|by rewrite HM].
      assert (B1 ++ (k, d) :: B2 ≡ₚ (k, d) :: B1 ++ B2) as -> by solve_Permutation.
      rewrite fmap_cons. apply NoDup_cons. split; [|done]. simpl.
      rewrite HM in Hnone. by apply not_elem_of_list_to_map in Hnone. }
  eapply rep_update; [done|done|done| |done|done|fold t; by rewrite Ht|].
  - simpl. intros k' [= <-]. split; [done|]. intros j Hj Ha j' Hj'.
    destruct Hor as [Hk|(_ & _ & j0 & Hj0 & Ha0 & Hbefore)]; [by eapply (rp_reach m M)|].
    assert (j = j0) as ->; [|by apply Hbefore].
    apply (paddr_inj_range (size m) (rehash m) (hash_function k) Hp Hr); [done|done|congruence].
  - fold t. rewrite Ht, HM. symmetry. by apply list_to_map_middle.
Qed.

(** ** Insertion into a table *)
(** The slot [available] is the first one on the probe sequence that holds no
    key, among the first [j]. *)
Definition available_ok m k (j : Z) (available : option nat) : Prop :=
  match available with
  | None => ∀ j', 0 ≤ j' < j → ∃ e, pslot m k j' = Some e ∧ entry_is_present e = true
  | Some a => ∃ ja e, 0 ≤ ja < j ∧ Z.of_nat a = paddr (size m) (rehash m) (hash_function k) ja ∧
      table m !! a = Some e ∧ entry_is_present e = false ∧
      ∀ j', 0 ≤ j' < ja → ∃ e, pslot m k j' = Some e ∧ entry_is_free e = false
  end.

Lemma available_step m M k j e available :
  rep m M → 0 ≤ j < size m → pslot m k j = Some e → available_ok m k j available →
  (∀ j', 0 ≤ j' < j → ∃ e, pslot m k j' = Some e ∧ entry_is_free e = false) →
  available_ok m k (j + 1)
    (if entry_is_present e then available
     else match available with
          | None => Some (Z.to_nat (paddr (size m) (rehash m) (hash_function k) j))
          | Some _ => available
          end).
Proof.
  intros H Hj He Hav Hbefore. destruct (rep_size_spec _ _ H) as (Hp & _).
  pose proof (paddr_range (size m) (rehash m) (hash_function k) Hp j).
  destruct (entry_is_present e) eqn:Hpr; destruct available as [a|]; simpl in *.
  - destruct Hav as (ja & ea & ? & ? & ? & ? & ?). exists ja, ea. split_and!; try done; lia.
  - intros j' Hj'. destruct (decide (j' = j)) as [->|]; [by exists e|]. apply Hav. lia.
  - destruct Hav as (ja & ea & ? & ? & ? & ? & ?). exists ja, ea. split_and!; try done; lia.
  - exists j, e. split_and!; try done; lia.
Qed.

(** A key that was not met up to a free slot, or up to the last one, is nowhere. *)
Lemma not_probed m M k j e i e' : rep m M → 0 ≤ j < size m → pslot m k j = Some e →
  (∀ j', 0 ≤ j' < j → ∃ e, pslot m k j' = Some e ∧ entry_is_free e = false ∧ key e ≠ Ptr k) →
  key e ≠ Ptr k → entry_is_free e = true ∨ j + 1 = size m → table m !! i = Some e' → key e' ≠ Ptr k.
Proof.
  intros H Hj He Hbefore Hne Hor Hi Hk. destruct (slot_pslot m M k i e' H Hi) as (j0 & Hj0 & Ha & Hs).
  destruct (Z.lt_trichotomy j0 j) as [Hlt|[->|Hgt]].
  - destruct (Hbefore j0 ltac:(lia)) as (e2 & He2 & _ & Hk2). congruence.
  - congruence.
  - destruct Hor as [Hfree|]; [|lia].
    destruct (rp_reach m M H i e' k j0 Hi Hk Hj0 Ha j) as (e2 & He2 & Hf2); [lia|]. congruence.
Qed.
Lemma insert_loop_ok m M k : rep m M → ∀ fuel j available,
  0 ≤ j < size m → Z.of_nat fuel = size m - j → available_ok m k j available →
  (∀ j', 0 ≤ j' < j → ∃ e, pslot m k j' = Some e ∧ entry_is_free e = false ∧ key e ≠ Ptr k) →
  owp (insert_loop key_equals_function fuel m (hash_function k) k
         (paddr (size m) (rehash m) (hash_function k) 0)
         (paddr (size m) (rehash m) (hash_function k) j) available)
    (λ r, match r with
          | inr i => ∃ e, table m !! i = Some e ∧ key e = Ptr k
          | inl av => M !! k = None ∧ ∃ j, 0 ≤ j ≤ size m ∧ available_ok m k j av ∧
                      (av = None → j = size m)
          end).
Proof.
  intros H. destruct (rep_size_spec _ _ H) as (Hp & Hr & Hw & _).
  induction fuel as [|f IH]; intros j av Hj Hf Hav Hbefore; [lia|]. cbn [insert_loop].
  destruct (pslot_Some m M k j H) as [e He]. wps. apply (owp_access _ e); [exact He|]. cbv zeta.
  assert (available_ok m k (j + 1)
    (if entry_is_present e then av
     else match av with
          | None => Some (Z.to_nat (paddr (size m) (rehash m) (hash_function k) j))
          | Some _ => av
          end)) as Hav'.
  { eapply (available_step m M); try done. intros j' Hj'.
    destruct (Hbefore j' Hj') as (e' & ? & ? & _). eauto. }
  set (av' := if entry_is_present e then _ else _) in *.
  pose proof (λ i e', not_probed m M k j e i e' H Hj He Hbefore) as Hnot.
  destruct (entry_is_free e) eqn:Hfree.
  { apply owp_ret. split.
    - apply (rep_absent m); [done|]. intros i e' Hi.
      eapply Hnot; [|by left|done]. unfold entry_is_free in Hfree. by destruct (key e).
    - exists (j + 1). split; [lia|]. split; [done|]. unfold av', entry_is_present.
      unfold entry_is_free in Hfree. destruct (key e); try done. by destruct av. }
  destruct (negb (entry_is_deleted e) && (hash e =? hash_function k) &&
            key_matches key_equals_function k e) eqn:Hm.
  { apply owp_ret. exists e. split; [done|]. rewrite !andb_true_iff in Hm. destruct Hm as [_ Hm].
    unfold key_matches in Hm. destruct (key e) as [| |k']; try done.
    rewrite Hequal in Hm. apply bool_decide_eq_true in Hm. by subst. }
  assert (key e ≠ Ptr k) as Hne.
  { intros Hk. rewrite (rp_hash m M H _ _ _ He Hk), Z.eqb_refl in Hm.
    unfold entry_is_deleted, key_matches in Hm. rewrite Hk, Hequal, bool_decide_true in Hm by done. done. }
  rewrite (next_address_paddr m M) by done.
  destruct (Z.eqb_spec (paddr (size m) (rehash m) (hash_function k) (j + 1))
              (paddr (size m) (rehash m) (hash_function k) 0)) as [Hwrap|Hnw].
  - apply owp_ret. apply paddr_wrap in Hwrap; [|done..]. split.
    + apply (rep_absent m); [done|]. intros i e' Hi. by eapply Hnot; [|right|].
    + exists (j + 1). split; [lia|done].
  - assert (j + 1 ≠ size m) by (intros Hfull; apply Hnw; by apply paddr_full).
    apply IH; [lia|lia|done|]. intros j' Hj'. destruct (decide (j' = j)) as [->|]; [by exists e|].
    apply Hbefore. lia.
Qed.

Definition same_sizes m m' : Prop :=
  size_index m' = size_index m ∧ size m' = size m ∧ max_entries m' = max_entries m.

(** The outcome of an insertion: the binding is there, or the table was full. *)
Definition slot_post m M k d (r : igt_map K D * option nat) : Prop :=
  let '(m', i) := r in
  match i with
  | Some i => rep m' (<[k := d]> M) ∧ same_sizes m m' ∧
      deleted_entries m' ≤ deleted_entries m ∧
      table m' !! i = Some (Entry (hash_function k) (Ptr k) d)
  | None => m' = m ∧ entries m = size m ∧ M !! k = None
  end.

(** The key goes into a slot that held none. *)
Lemma insert_free_slot m M k d a j : rep m M → M !! k = None → 0 ≤ j ≤ size m → available_ok m k j (Some a) →
  owp (e ← access (table m !! a);
       let m := if entry_is_deleted e
                then set_counts m (entries m) (u32 (deleted_entries m - 1)) else m in
       m ← set_entry m a (Entry (hash_function k) (Ptr k) d);
       mret (set_counts m (u32 (entries m + 1)) (deleted_entries m), Some a)) (slot_post m M k d).
Proof.
  intros H HM Hj (ja & e & Hja & Ha & He & Hpr & Hbefore).
  destruct (rep_size_spec _ _ H) as (Hp & Hr & Hw & _). pose proof (bindings_lt m M H) as Hb.
  wps. apply (owp_access _ e); [done|]. pose proof (lookup_lt_Some _ _ _ He) as Hlt.
  set (t := <[a := Entry (hash_function k) (Ptr k) d]> (table m)).
  assert (rep (with_table m t (Z.of_nat (length (bindings t))) (Z.of_nat (n_deleted t)))
            (<[k := d]> M)) as Hrep.
  { eapply rep_write; [done|done|done|right]. split_and!; try done. exists ja.
    split_and!; [lia|lia|done|done]. }
  assert (Z.of_nat (length (bindings t)) = entries m + 1) as Hn.
  { pose proof (rep_size _ _ Hrep) as Hs. simpl in Hs. rewrite Hs, (rep_size _ _ H).
    rewrite map_size_insert_None by done. lia. }
  pose proof (n_deleted_at (table m) a e (Entry (hash_function k) (Ptr k) d) He) as Hd.
  fold t in Hd. cbn [entry_is_deleted key] in Hd.
  assert (deleted_entries m = Z.of_nat (n_deleted (table m))) as Hde by apply H.
  pose proof (counts_le t) as Hc. unfold t in Hc at 3. rewrite length_insert in Hc.
  pose proof (rp_len _ _ H).
  assert (u32 (entries m + 1) = entries m + 1) as Hu by (apply u32_small; unfold in_u32; lia).
  unfold set_entry, set_counts. wps.
  destruct (entry_is_deleted e) eqn:Hdel; apply owp_arr_set; try done; wps; simpl.
  + rewrite (u32_small (deleted_entries m - 1)) by (unfold in_u32; lia). rewrite Hu.
    split_and!; [|done|lia|by apply list_lookup_insert_eq].
    replace (deleted_entries m - 1) with (Z.of_nat (n_deleted t)) by lia. by rewrite <-Hn.
  + rewrite Hu. split_and!; [|done|lia|by apply list_lookup_insert_eq].
    replace (deleted_entries m) with (Z.of_nat (n_deleted t)) by lia. by rewrite <-Hn.
Qed.
(** The key has a slot. *)
Lemma insert_known_slot m M k d i e : rep m M → table m !! i = Some e → key e = Ptr k →
  owp (e ← access (table m !! i);
       m ← set_entry m i (Entry (hash e) (Ptr k) d);
       mret (m, Some i)) (slot_post m M k d).
Proof.
  intros H He Hk. wps. apply (owp_access _ e); [done|]. wps. unfold set_entry. wps.
  pose proof (lookup_lt_Some _ _ _ He). apply owp_arr_set; [done|]. wps.
  rewrite (rp_hash m M H _ _ _ He Hk).
  set (t := <[i := Entry (hash_function k) (Ptr k) d]> (table m)).
  pose proof (rep_write m M i e k d _ H He eq_refl (or_introl Hk)) as Hrep. fold t in Hrep.
  pose proof (n_deleted_at (table m) i e (Entry (hash_function k) (Ptr k) d) He) as Hd.
  fold t in Hd. unfold entry_is_deleted in Hd at 1. rewrite Hk in Hd. cbn [entry_is_deleted key] in Hd.
  assert (is_Some (M !! k)) as HM by (eexists; apply (rep_lookup m); eauto).
  assert (Z.of_nat (length (bindings t)) = entries m) as Hn.
  { pose proof (rep_size _ _ Hrep) as Hs. simpl in Hs. rewrite Hs, (rep_size _ _ H).
    by rewrite map_size_insert_Some by done. }
  split_and!; [|done|simpl; lia|by apply list_lookup_insert_eq].
  rewrite <-Hn, (rp_deleted _ _ H).
  replace (n_deleted (table m)) with (n_deleted t) by lia. exact Hrep.
Qed.
(** All slots hold keys. *)
Lemma no_free_slot m M k : rep m M → available_ok m k (size m) None → entries m = size m.
Proof.
  intros H Hav. rewrite (rp_entries _ _ H), all_present, <-(rp_len _ _ H); [done|].
  intros i e Hi. destruct (slot_pslot m M k i e H Hi) as (j & Hj' & _ & Hs).
  destruct (Hav j Hj') as (e' & He' & Hpr). congruence.
Qed.
Lemma insert_slot_ok m M k d : rep m M →
  owp (insert_slot key_equals_function m (hash_function k) k d) (slot_post m M k d).
Proof.
  intros H. destruct (rep_size_spec _ _ H) as (Hp & Hr & Hw & _). destruct (id Hp) as [Hgt _].
  unfold insert_slot. cbv zeta. rewrite start_paddr. wps.
  eapply owp_mono; [apply (insert_loop_ok m M k H); [lia|lia| |lia]|]; [simpl; lia|].
  intros [[a|]|i].
  - intros (HM & j & Hj & Hav & _). by apply (insert_free_slot m M k d a j).
  - intros (HM & j & Hj & Hav & Hjs). wps. specialize (Hjs eq_refl). subst j.
    split_and!; [done|by eapply no_free_slot|done].
  - intros (e & He & Hk). by apply (insert_known_slot m M k d i e).
Qed.

(** ** Removal *)
Lemma remove_entry_ok m M i e k :
  rep m M → table m !! i = Some e → key e = Ptr k →
  owp (igt_map_remove_entry m (Some i)) (λ m', rep m' (delete k M) ∧ same_sizes m m' ∧
    ∃ e', table m' !! i = Some e' ∧ data e' = data e).
Proof.
  intros H He Hk. pose proof (bindings_lt m M H) as Hb. pose proof (lookup_lt_Some _ _ _ He).
  destruct (rep_size_spec _ _ H) as (Hp & Hr & Hw & _). pose proof (rp_len _ _ H).
  unfold igt_map_remove_entry, set_entry, set_counts. wps.
  apply (owp_access _ e); [done|]. wps. apply owp_arr_set; [done|]. wps. cbn [entries deleted_entries table size rehash max_entries size_index].
  set (t := <[i := Entry (hash e) Deleted (data e)]> (table m)).
  destruct (bindings_at _ _ _ He) as (B1 & B2 & HB & HB'). specialize (HB' (Entry (hash e) Deleted (data e))).
  fold t in HB'. simpl in HB'.
  assert (binding e = Some (k, data e)) as Eb by (unfold binding; by rewrite Hk).
  rewrite Eb in HB. simpl in HB.
  pose proof (rp_nodup _ _ H) as Hnd. rewrite HB in Hnd.
  destruct (list_to_map_middle _ _ _ _ Hnd) as (Hmid & Hnone & Hnd').
  pose proof (n_deleted_at (table m) i e (Entry (hash e) Deleted (data e)) He) as Hd.
  fold t in Hd. unfold entry_is_deleted in Hd. rewrite Hk in Hd. cbn [key] in Hd.
  assert (length (bindings (table m)) = S (length (bindings t))) as Hn.
  { rewrite HB, HB', !length_app. simpl. lia. }
  rewrite (rp_entries _ _ H), (rp_deleted _ _ H) in *.
  rewrite (u32_small (_ - 1)) by (unfold in_u32; lia).
  pose proof (counts_le t) as Hc. unfold t in Hc at 3. rewrite length_insert in Hc.
  rewrite u32_small by (unfold in_u32; lia).
  split_and!; [|done|eexists; split; [by apply list_lookup_insert_eq|done]].
  apply (rep_update m M (delete k M) i e (Entry (hash e) Deleted (data e))); try done; fold t.
  - lia.
  - lia.
  - by rewrite HB'.
  - rewrite (rp_map _ _ H), HB, Hmid, HB'. by apply fin_maps.delete_insert_id.
Qed.

(** ** Iteration *)
Lemma foreach_from_ok m l : ∀ s fuel,
  drop s (table m) = l → (length l < fuel)%nat →
  foreach_from fuel m (next_present l s) = Done (filter (λ e, entry_is_present e = true) l).
Proof.
  induction l as [|e l IH]; intros s fuel Hd Hf; (destruct fuel as [|f]; [simpl in *; lia|]); [done|].
  assert (drop (S s) (table m) = l) as Hd'.
  { replace (S s) with (s + 1)%nat by lia. by rewrite <-drop_drop, Hd. }
  assert (table m !! s = Some e) as He by (by rewrite <-(Nat.add_0_r s), <-lookup_drop, Hd).
  cbn [next_present]. rewrite filter_cons. destruct (entry_is_present e) eqn:E.
  - rewrite decide_True by done. cbn [foreach_from]. rewrite He. cbn. unfold igt_map_next_entry.
    rewrite Hd', (IH (S s) f Hd') by (simpl in Hf; lia). done.
  - rewrite decide_False by done. apply IH; [done|simpl in Hf; lia].
Qed.
Lemma foreach_ok m : igt_map_foreach m = Done (filter (λ e, entry_is_present e = true) (table m)).
Proof. apply (foreach_from_ok m (table m) 0); [done|lia]. Qed.
Lemma bindings_present t :
  bindings (filter (λ e, entry_is_present e = true) t) = bindings t.
Proof.
  induction t as [|e t IH]; [done|]. rewrite filter_cons. case_decide as E.
  - by rewrite !bindings_cons, IH.
  - rewrite bindings_cons, IH. unfold binding, entry_is_present in *. by destruct (key e).
Qed.

(** ** Rehashing *)
Lemma rep_at m M hs : rep m M → hash_sizes !! size_index m = Some hs →
  size m = hs_size hs ∧ max_entries m = hs_max_entries hs.
Proof. intros H Hi. destruct (rp_sizes _ _ H) as (hs' & Hi' & -> & _ & ->). by simplify_eq. Qed.

Lemma bindings_replicate n : bindings (replicate n zero_entry) = [].
Proof. induction n; [done|]. simpl replicate. by rewrite bindings_cons. Qed.
Lemma n_deleted_replicate n : n_deleted (replicate n zero_entry) = 0%nat.
Proof. induction n; [done|]. simpl replicate. by rewrite n_deleted_cons. Qed.

Lemma rep_empty idx hs :
  hash_sizes !! idx = Some hs → (idx < usable)%nat → rep (empty_map idx hs) ∅.
Proof.
  intros Hi Hu. destruct (hash_sizes_spec _ _ Hi Hu) as [[Hgt _] _ _ _].
  split; unfold empty_map, zero_table; simpl; try done.
  - by exists hs.
  - rewrite length_replicate. lia.
  - by rewrite bindings_replicate.
  - by rewrite n_deleted_replicate.
  - intros i e k He. apply lookup_replicate in He as [-> _]. done.
  - intros i e k j He. apply lookup_replicate in He as [-> _]. done.
  - rewrite bindings_replicate. constructor.
  - by rewrite bindings_replicate.
Qed.

(** Reinsertion into a map that satisfies [P], when [insert] is correct on such
    maps with fewer than [N] bindings. *)
Lemma reinsert_ok insert (P : igt_map K D → Prop) (N : nat) :
  (∀ m M k d o, rep m M → P m → (base.size M < N)%nat → M !! k = None →
     wp (insert m (hash_function k) k d) (λ r _, rep r.1 (<[k := d]> M) ∧ P r.1) o) →
  ∀ l m M o, rep m M → P m →
  Forall (λ e, ∃ k, key e = Ptr k ∧ hash e = hash_function k) l →
  NoDup (bindings l).*1 → (∀ k, k ∈ (bindings l).*1 → M !! k = None) →
  (base.size M + length l ≤ N)%nat →
  wp (reinsert insert l m) (λ m' _, rep m' (list_to_map (bindings l) ∪ M) ∧ P m') o.
Proof.
  intros Hins l. induction l as [|e l IH]; intros m M o H HP Hall Hnd Hdis HN; cbn [reinsert].
  - wps. unfold bindings. simpl. by rewrite (left_id_L ∅ (∪)).
  - apply Forall_cons in Hall as [(k & Hk & Hh) Hall]. rewrite Hk, Hh.
    assert (bindings (e :: l) = (k, data e) :: bindings l) as Hb.
    { rewrite bindings_cons. unfold binding. by rewrite Hk. }
    rewrite Hb in *. rewrite fmap_cons in Hnd, Hdis. apply NoDup_cons in Hnd as [Hkn Hnd].
    simpl in HN, Hkn. assert (M !! k = None) as HM by (apply Hdis; simpl; set_solver).
    wps. eapply wp_mono; [apply Hins; [done|done|lia|done]|].
    intros [m1 r] o1 [H1 HP1]. simpl in H1, HP1.
    eapply wp_mono; [apply (IH m1 _ o1 H1 HP1 Hall Hnd)|].
    + intros k' Hk'. rewrite lookup_insert_ne by set_solver. apply Hdis. simpl. set_solver.
    + rewrite map_size_insert_None by done. lia.
    + intros m2 o2 [H2 HP2]. split; [|done]. cbn [list_to_map foldr uncurry].
      rewrite <-insert_union_l, insert_union_r; [done|]. by apply not_elem_of_list_to_map.
Qed.

(** What a rehash does: the same bindings, in a table of at least the size asked
    for unless [calloc] failed. *)
Definition rehash_post m M (o : list bool) idx m' (o' : list bool) : Prop :=
  rep m' M ∧ ((m' = m ∧ head o = Some true) ∨
    ((idx ≤ size_index m')%nat ∧ ∀ hs, hash_sizes !! idx = Some hs → hs_size hs ≤ size m')).

Lemma wp_calloc (Φ : bool → list bool → Prop) o :
  (head o = Some true → Φ false (tail o)) → (head o ≠ Some true → Φ true (tail o)) →
  wp calloc_ok Φ o.
Proof. intros H1 H2. destruct o as [|[] o]; [by apply H2|by apply H1|by apply H2]. Qed.

Lemma rehash_with_ok insert (P : igt_map K D → Prop) m M idx hs o :
  rep m M → hash_sizes !! idx = Some hs → (idx < usable)%nat → P (empty_map idx hs) →
  (∀ m' M' k d o, rep m' M' → P m' → (base.size M' < base.size M)%nat → M' !! k = None →
     wp (insert m' (hash_function k) k d) (λ r _, rep r.1 (<[k := d]> M') ∧ P r.1) o) →
  (∀ m', P m' → (idx ≤ size_index m')%nat ∧ hs_size hs ≤ size m') →
  wp (rehash_with insert m idx) (rehash_post m M o idx) o.
Proof.
  intros H Hi Hu HP Hins HPsize. unfold rehash_with. rewrite Hi. wps. apply wp_calloc.
  { intros Ho. simpl. wps. split; [done|by left]. }
  intros _. cbn [negb]. wps. rewrite foreach_ok. simpl.
  eapply wp_mono; [apply (reinsert_ok insert P (base.size M) Hins _ _ ∅)|].
  - by apply rep_empty.
  - done.
  - apply Forall_forall. intros e [Hpr He]%list_elem_of_filter.
    apply list_elem_of_lookup_1 in He as (i & He). unfold entry_is_present in Hpr.
    destruct (key e) as [| |k] eqn:Hk; try done. exists k. split; [done|]. by eapply (rp_hash m M).
  - rewrite bindings_present. apply (rp_nodup _ _ H).
  - intros k _. apply lookup_empty.
  - rewrite map_size_empty, <-(Nat2Z.id (base.size M)), <-(rep_size _ _ H), (rp_entries _ _ H).
    rewrite <-(bindings_present (table m)), all_present; [lia|].
    intros i e He. apply list_elem_of_lookup_2, list_elem_of_filter in He. tauto.
  - intros m' o' [H' HP']. rewrite bindings_present, (right_id_L ∅ (∪)) in H'.
    rewrite <-(rp_map _ _ H) in H'. split; [done|]. right. destruct (HPsize m' HP').
    split; [done|]. intros hs' Hhs'. by simplify_eq.
Qed.

(** ** Insertion *)
Definition insert_post m M k d (o : list bool) (r : igt_map K D * option nat) : Prop :=
  let '(m', i) := r in
  size m ≤ size m' ∧ (size_index m ≤ size_index m')%nat ∧
  match i with
  | Some i => rep m' (<[k := d]> M) ∧ table m' !! i = Some (Entry (hash_function k) (Ptr k) d)
  | None => m' = m ∧ entries m = size m ∧ head o = Some true ∧ M !! k = None
  end.

Lemma insert_body_ok (rh : nat → C (list bool) (igt_map K D)) m M k d o :
  rep m M → Z.of_nat (base.size M) < 2 ^ 30 →
  (∀ idx hs, hash_sizes !! idx = Some hs → (idx < usable)%nat →
     (idx = S (size_index m) ∧ max_entries m ≤ entries m) ∨
     (idx = size_index m ∧ entries m < max_entries m) →
     wp (rh idx) (rehash_post m M o idx) o) →
  wp (m ← (if max_entries m <=? entries m then rh (S (size_index m))
           else if max_entries m <=? u32 (deleted_entries m + entries m)
           then rh (size_index m) else mret m);
      lift (insert_slot key_equals_function m (hash_function k) k d))
    (λ r _, insert_post m M k d o r) o.
Proof.
  intros H HM Hrh. destruct (rep_size_spec _ _ H) as (Hp & Hr & Hw & Hmax).
  pose proof (rp_usable _ _ H) as Hu. pose proof (bindings_lt m M H) as Hb.
  destruct (rp_sizes _ _ H) as (hs & Hi & Hsz & _ & Hmx).
  assert (∀ m1 (o1 : list bool), rep m1 M → size m ≤ size m1 → (size_index m ≤ size_index m1)%nat →
    (entries m < size m1 ∨ (m1 = m ∧ head o = Some true)) →
    wp (lift (insert_slot key_equals_function m1 (hash_function k) k d))
      (λ r _, insert_post m M k d o r) o1) as Hend.
  { intros m1 o1 H1 Hs1 Hi1 Hor. wps. eapply owp_mono; [by apply (insert_slot_ok m1 M)|].
    intros [m2 [i|]]; unfold slot_post, insert_post.
    - intros (H2 & (-> & -> & _) & _ & Ht). done.
    - intros (-> & Hfull & HMk). destruct Hor as [Hlt|[-> Ho]]; [|done].
      rewrite (rep_size _ _ H1), <-(rep_size _ _ H) in Hfull. lia. }
  destruct (Z.leb_spec (max_entries m) (entries m)) as [Hge|Hlt].
  - wps. assert (S (size_index m) < usable)%nat as Hu'.
    { rewrite (rep_size _ _ H), Hmx, (max_entries_pow _ _ Hi) in Hge.
      assert (2 ^ (Z.of_nat (size_index m) + 1) < 2 ^ 30) as Hlt by lia.
      apply Z.pow_lt_mono_r_iff in Hlt; unfold usable; lia. }
    destruct (hash_sizes_is_Some (S (size_index m))) as [hs' Hi']; [lia|].
    eapply wp_mono; [by eapply Hrh; eauto|].
    intros m1 o1 [H1 [[-> Ho]|[Hidx Hsz1]]]; [by apply Hend; eauto|].
    destruct (hash_sizes_next _ _ _ Hi Hi') as [Hgrow _]. specialize (Hsz1 hs' Hi').
    apply Hend; [done|lia|lia|left; lia].
  - destruct (max_entries m <=? _).
    + wps. eapply wp_mono; [by eapply Hrh; eauto|].
      intros m1 o1 [H1 [[-> Ho]|[Hidx Hsz1]]]; [apply Hend; [done|lia|lia|left; lia]|].
      specialize (Hsz1 hs Hi). apply Hend; [done|lia|lia|left; lia].
    + apply wp_bind, wp_ret. apply Hend; [done|lia|lia|left; lia].
Qed.

(** With one level: no rehash is needed. *)
Lemma insert_fuel_room f m M k d o :
  rep m M → entries m < max_entries m → deleted_entries m = 0 →
  wp (insert_fuel key_equals_function (S f) m (hash_function k) k d)
    (λ r _, rep r.1 (<[k := d]> M) ∧ same_sizes m r.1 ∧ deleted_entries r.1 = 0) o.
Proof.
  intros H Hlt Hd. destruct (rep_size_spec _ _ H) as (Hp & Hr & Hw & Hmax).
  pose proof (bindings_lt m M H) as Hb. cbn [insert_fuel].
  rewrite (proj2 (Z.leb_gt _ _)) by done. rewrite Hd, u32_small by (unfold in_u32; lia).
  rewrite (proj2 (Z.leb_gt _ _)) by lia. wps.
  eapply owp_mono; [by apply (insert_slot_ok m M)|]. intros [m' [i|]]; unfold slot_post; simpl.
  - intros (H' & Hs & Hd' & _). split_and!; [done|done|].
    pose proof (bindings_lt _ _ H'). lia.
  - intros (_ & Hfull & _). lia.
Qed.

(** A rehash whose entries fit below the new limit needs one level. *)
Lemma rehash_room f m M idx hs o :
  rep m M → hash_sizes !! idx = Some hs → (idx < usable)%nat →
  entries m ≤ hs_max_entries hs →
  wp (rehash_with (insert_fuel key_equals_function (S f)) m idx) (rehash_post m M o idx) o.
Proof.
  intros H Hi Hu Hle.
  apply (rehash_with_ok _ (λ m', size_index m' = idx ∧ size m' = hs_size hs ∧
    max_entries m' = hs_max_entries hs ∧ deleted_entries m' = 0) m M idx hs); try done.
  - intros m' M' k d o' H' (Hi' & Hs' & Hm' & Hd') Hlt _.
    eapply wp_mono; [apply insert_fuel_room; [done| |done]|].
    + rewrite Hm', (rep_size _ _ H'). rewrite (rep_size _ _ H) in Hle. lia.
    + intros [m'' r] o''. simpl. intros (H'' & (E1 & E2 & E3) & E4). split_and!; try done; congruence.
  - intros m' (-> & -> & _). split; [done|lia].
Qed.

(** With two levels: every map but a full one of the first size. *)
Lemma insert_fuel_shallow f m M k d o :
  rep m M → Z.of_nat (base.size M) < 2 ^ 30 →
  ((1 ≤ size_index m)%nat ∨ entries m ≤ 4) →
  wp (insert_fuel key_equals_function (S (S f)) m (hash_function k) k d)
    (λ r _, insert_post m M k d o r) o.
Proof.
  intros H HM Hsh. change (insert_fuel key_equals_function (S (S f)) m (hash_function k) k d) with
    (m ← (if max_entries m <=? entries m
          then rehash_with (insert_fuel key_equals_function (S f)) m (S (size_index m))
          else if max_entries m <=? u32 (deleted_entries m + entries m)
          then rehash_with (insert_fuel key_equals_function (S f)) m (size_index m)
          else mret m);
     lift (insert_slot key_equals_function m (hash_function k) k d)).
  apply insert_body_ok; [done|done|]. intros idx hs Hi Hu Hcase.
  apply (rehash_room f m M idx hs); [done|done|done|].
  destruct (rp_sizes _ _ H) as (hs0 & Hi0 & Hsz & _ & Hmx).
  destruct Hcase as [[-> Hge]|[-> Hlt]]; [|simplify_eq; lia].
  pose proof (bindings_lt m M H). destruct Hsh as [Hone|H4].
  - destruct (size_index m) as [|i0]; [lia|]. pose proof (full_fits _ _ _ Hi0 Hi). lia.
  - destruct (hash_sizes_next _ _ _ Hi0 Hi) as [_ ->]. rewrite (max_entries_pow _ _ Hi0).
    destruct (decide (size_index m = 0%nat)) as [E|]; [rewrite E; simpl; lia|].
    assert (2 ^ 2 ≤ 2 ^ (Z.of_nat (size_index m) + 1)) by (apply Z.pow_le_mono_r; lia). lia.
Qed.

(** With three levels: every map. *)
Lemma insert_fuel_ok f m M k d o :
  rep m M → Z.of_nat (base.size M) < 2 ^ 30 →
  wp (insert_fuel key_equals_function (S (S (S f))) m (hash_function k) k d)
    (λ r _, insert_post m M k d o r) o.
Proof.
  intros H HM. destruct (decide (1 ≤ size_index m)%nat) as [|H0]; [by apply insert_fuel_shallow; auto|].
  assert (size_index m = 0%nat) as Hidx by lia. clear H0.
  change (insert_fuel key_equals_function (S (S (S f))) m (hash_function k) k d) with
    (m ← (if max_entries m <=? entries m
          then rehash_with (insert_fuel key_equals_function (S (S f))) m (S (size_index m))
          else if max_entries m <=? u32 (deleted_entries m + entries m)
          then rehash_with (insert_fuel key_equals_function (S (S f))) m (size_index m)
          else mret m);
     lift (insert_slot key_equals_function m (hash_function k) k d)).
  apply insert_body_ok; [done|done|]. intros idx hs Hi Hu Hcase.
  destruct (rp_sizes _ _ H) as (hs0 & Hi0 & Hsz & _ & Hmx). pose proof (bindings_lt m M H) as Hb.
  destruct Hcase as [[-> Hge]|[-> Hlt]]; [|apply (rehash_room (S f) m M (size_index m) hs); [done|done|done|simplify_eq; lia]].
  rewrite Hidx in Hi0, Hi. simpl in Hi0, Hi. injection Hi0 as <-. injection Hi as <-. rewrite Hidx in *.
  apply (rehash_with_ok _ (λ m', (1 ≤ size_index m')%nat ∧ 7 ≤ size m') m M 1 (HashSize 4 7 5)); try done.
  intros m' M' k' d' o' H' [Hi' Hs'] Hlt HM'.
  eapply wp_mono; [apply insert_fuel_shallow; [done|lia|by left]|].
  intros [m'' [i|]] o''; unfold insert_post; simpl.
  - intros (Hs & Hi'' & Hrep & _). split; [done|]. split; lia.
  - intros (_ & _ & _ & Hfull & _). simpl in Hsz.
    pose proof (rep_size _ _ H'). pose proof (rep_size _ _ H). lia.
Qed.
End spec.
