(* ===== verification/IgtMapIface.v ===== *)
(** * igt: what the hash map promises to its clients

    [MapImpl] is the contract the allocators rely on: the operations of
    [igt_map.h] they call, as operations on a finite map, when allocations
    succeed. [igt_map_impl] discharges it for the hash table. *)

From S2P Require Import Prelude IgtMap IgtMapSpec.

(** Allocations that all succeed. *)
Definition no_oom (o : list bool) : Prop := Forall (λ b, b = false) o.

Class MapImpl (T K D : Type) `{!EqDecision K, !Countable K} : Type := {
  mi_create : C (list bool) (option T);
  mi_search : T → K → outcome (option D);
  mi_search_entry : T → K → outcome (option nat);
  mi_entry_data : T → nat → outcome (option D);
  mi_insert : T → K → D → C (list bool) (T * option nat);
  mi_remove_entry : T → option nat → outcome T;
  mi_foreach : T → outcome (list D);

  (** [mi_rep t M]: the object [t] holds the bindings [M]. *)
  mi_rep : T → gmap K D → Prop;
  mi_create_ok o : no_oom o →
    wp mi_create (λ r o', no_oom o' ∧ ∃ t, r = Some t ∧ mi_rep t ∅) o;
  mi_search_ok t M k : mi_rep t M → mi_search t k = Done (M !! k);
  mi_search_entry_ok t M k : mi_rep t M →
    owp (mi_search_entry t k) (λ r, match r with
      | None => M !! k = None
      | Some i => ∃ d, M !! k = Some d ∧ mi_entry_data t i = Done (Some d) ∧
          owp (mi_remove_entry t (Some i)) (λ t', mi_rep t' (delete k M) ∧
            mi_entry_data t' i = Done (Some d))
      end);
  mi_insert_ok t M k d o : mi_rep t M → Z.of_nat (base.size M) < 2 ^ 30 → no_oom o →
    wp (mi_insert t k d) (λ r o', no_oom o' ∧ mi_rep r.1 (<[k := d]> M)) o;
  mi_foreach_ok t M : mi_rep t M →
    owp (mi_foreach t) (λ l, l ≡ₚ (map_to_list M).*2)
}.

(** ** Allocation outcomes are consumed from the front *)
Definition shrinks {A} (m : C (list bool) A) : Prop :=
  ∀ o a o', m o = Done (a, o') → o' `suffix_of` o.

Lemma shrinks_ret {A} (a : A) : shrinks (mret a).
Proof. intros o a' o' H. unfold mret, C_ret in H. by simplify_eq. Qed.
Lemma shrinks_lift {A} (m : outcome A) : shrinks (lift m).
Proof. intros o a o' H. unfold lift in H. destruct m; by simplify_eq. Qed.
Lemma shrinks_bind {A B} (m : C (list bool) A) (k : A → C (list bool) B) :
  shrinks m → (∀ a, shrinks (k a)) → shrinks (m ≫= k).
Proof.
  intros Hm Hk o b o' H. apply C_bind_inv in H as (a & o1 & H1 & H2).
  etrans; [by eapply Hk|by eapply Hm].
Qed.
Lemma shrinks_calloc : shrinks calloc_ok.
Proof.
  intros o a o' H. unfold calloc_ok in H. destruct o as [|b o]; [by simplify_eq|].
  destruct b; simplify_eq; by apply suffix_cons_r.
Qed.
Create HintDb shrinks.
#[export] Hint Resolve shrinks_ret shrinks_lift shrinks_bind shrinks_calloc : shrinks.

Lemma no_oom_suffix o o' : o' `suffix_of` o → no_oom o → no_oom o'.
Proof. intros [l ->] H. by apply Forall_app in H as [_ H]. Qed.
Lemma no_oom_head o : no_oom o → head o ≠ Some true.
Proof. intros H. destruct H; naive_solver. Qed.
Lemma wp_shrinks {A} (m : C (list bool) A) Φ o :
  shrinks m → no_oom o → wp m (λ a _, Φ a) o → wp m (λ a o', no_oom o' ∧ Φ a) o.
Proof.
  intros Hs Ho Hw. apply wp_inv in Hw as (a & o' & Hrun & HΦ). unfold wp. rewrite Hrun.
  split; [|done]. eapply no_oom_suffix; [by eapply Hs|done].
Qed.

Section impl.
Context {K D : Type} `{!EqDecision K, !Countable K}.
Context (hash_function : K → Z) (key_equals_function : K → K → bool).

Lemma shrinks_reinsert (insert : igt_map K D → Z → K → option D → C (list bool) (igt_map K D * option nat)) l m :
  (∀ m h k d, shrinks (insert m h k d)) → shrinks (reinsert insert l m).
Proof.
  intros Hins. revert m. induction l as [|e l IH]; intros m; cbn [reinsert]; [by auto with shrinks|].
  destruct (key e); [by auto with shrinks..|]. apply shrinks_bind; [done|]. by intros [m' r].
Qed.
Lemma shrinks_rehash (insert : igt_map K D → Z → K → option D → C (list bool) (igt_map K D * option nat)) m idx :
  (∀ m h k d, shrinks (insert m h k d)) → shrinks (rehash_with insert m idx).
Proof.
  intros Hins. unfold rehash_with. destruct (hash_sizes !! idx); [|by auto with shrinks].
  apply shrinks_bind; [by auto with shrinks|]. intros []; cbn [negb]; [|by auto with shrinks].
  apply shrinks_bind; [by auto with shrinks|]. intros. by apply shrinks_reinsert.
Qed.
Lemma shrinks_insert fuel (m : igt_map K D) h k d :
  shrinks (insert_fuel key_equals_function fuel m h k d).
Proof.
  revert m h k d. induction fuel as [|f IH]; intros m h k d; cbn [insert_fuel]; [by auto with shrinks|].
  apply shrinks_bind; [|by auto with shrinks].
  destruct (_ <=? _); [by apply shrinks_rehash|].
  destruct (_ <=? _); [by apply shrinks_rehash|by auto with shrinks].
Qed.
End impl.

(** ** The instance *)
Class HashKey (K : Type) `{!EqDecision K} : Type := {
  hash_function : K → Z;
  key_equals_function : K → K → bool;
  hk_range k : in_u32 (hash_function k);
  hk_equal k k' : key_equals_function k k' = bool_decide (k = k')
}.

Section instance.
Context {K D : Type} `{!EqDecision K, !Countable K, !HashKey K}.
Implicit Types (t : igt_map K D) (M : gmap K D).

Definition holds t M : Prop := rep hash_function t (Some <$> M).

Definition entry_data t (i : nat) : outcome (option D) :=
  e ← access (table t !! i); mret (data e).
Definition foreach_data t : outcome (list D) :=
  l ← igt_map_foreach t; mret (omap (M:=list) (data (K:=K) (D:=D)) l).

Lemma create_holds o : no_oom o →
  wp (igt_map_create (K:=K) (D:=D)) (λ r o', no_oom o' ∧ ∃ t, r = Some t ∧ holds t ∅) o.
Proof.
  intros Ho. apply wp_shrinks; [|done|].
  - unfold igt_map_create. apply shrinks_bind; [by auto with shrinks|]. intros []; cbn [negb]; [|by auto with shrinks].
    apply shrinks_bind; [by auto with shrinks|]. intros. apply shrinks_bind; [by auto with shrinks|].
    intros []; cbn [negb]; by auto with shrinks.
  - unfold igt_map_create. wps. apply wp_calloc; [by intros ?%no_oom_head|]. intros _.
    cbn [negb]. wps. simpl. wps. apply wp_calloc.
    + intros Hh. exfalso. eapply no_oom_head; [|exact Hh]. by destruct Ho.
    + intros _. cbn [negb]. wps. eexists. split; [done|]. unfold holds. rewrite fmap_empty.
      by apply rep_empty; [|vm_compute; lia].
Qed.

Lemma search_holds t M k : holds t M →
  igt_map_search hash_function key_equals_function t k = Done (M !! k).
Proof.
  intros H. rewrite (search_ok _ _ hk_equal _ _ k H), lookup_fmap. by destruct (M !! k).
Qed.

Lemma search_entry_holds t M k : holds t M →
  owp (igt_map_search_entry hash_function key_equals_function t k) (λ r, match r with
    | None => M !! k = None
    | Some i => ∃ d, M !! k = Some d ∧ entry_data t i = Done (Some d) ∧
        owp (igt_map_remove_entry t (Some i)) (λ t', holds t' (delete k M) ∧
          entry_data t' i = Done (Some d))
    end).
Proof.
  intros H. eapply owp_mono; [apply (search_entry_ok _ _ hk_equal _ _ k H)|]. intros [i|].
  - intros (e & He & Hk & HM). rewrite lookup_fmap in HM. apply fmap_Some in HM as (d & HM & Hd).
    exists d. split; [done|]. unfold entry_data. rewrite He. split; [simpl; by rewrite Hd|].
    eapply owp_mono; [by apply (remove_entry_ok hash_function t _ i e k H)|].
    intros t' (H' & _ & e' & He' & Hd'). unfold holds. rewrite fmap_delete, He'. split; [done|].
    simpl. by rewrite Hd', Hd.
  - rewrite lookup_fmap. by intros ?%fmap_None.
Qed.

Lemma insert_holds t M k d o :
  holds t M → Z.of_nat (base.size M) < 2 ^ 30 → no_oom o →
  wp (igt_map_insert hash_function key_equals_function t (Some k) (Some d))
    (λ r o', no_oom o' ∧ holds r.1 (<[k := d]> M)) o.
Proof.
  intros H HM Ho. apply wp_shrinks; [apply shrinks_insert|done|].
  eapply wp_mono; [apply (insert_fuel_ok _ _ hk_range hk_equal 0 t (Some <$> M)); [done|]|].
  - by rewrite map_size_fmap.
  - intros [t' [i|]] o'; unfold insert_post; simpl.
    + intros (_ & _ & H' & _). unfold holds. by rewrite fmap_insert.
    + intros (_ & _ & _ & _ & Hh & _). by apply no_oom_head in Ho.
Qed.

Lemma foreach_holds t M : holds t M → owp (foreach_data t) (λ l, l ≡ₚ (map_to_list M).*2).
Proof.
  intros H. unfold foreach_data. rewrite foreach_ok. simpl.
  assert (omap (data (K:=K) (D:=D)) (filter (λ e, entry_is_present e = true) (table t)) =
          omap snd (bindings (table t))) as ->.
  { induction (table t) as [|e l IH]; [done|]. rewrite bindings_cons, omap_app, <-IH, filter_cons.
    case_decide as E; unfold entry_is_present in E; unfold binding; destruct (key e); try done.
    simpl. by destruct (data e). }
  assert (bindings (table t) ≡ₚ map_to_list (Some <$> M)) as ->.
  { rewrite (rp_map _ _ _ H), map_to_list_to_map by apply (rp_nodup _ _ _ H). done. }
  rewrite map_to_list_fmap. induction (map_to_list M) as [|[k d] l IH]; [done|]. simpl. by rewrite IH.
Qed.

#[global] Instance igt_map_impl : MapImpl (igt_map K D) K D := {|
  mi_create := igt_map_create;
  mi_search := igt_map_search hash_function key_equals_function;
  mi_search_entry := igt_map_search_entry hash_function key_equals_function;
  mi_entry_data := entry_data;
  mi_insert t k d := igt_map_insert hash_function key_equals_function t (Some k) (Some d);
  mi_remove_entry := igt_map_remove_entry;
  mi_foreach := foreach_data;
  mi_rep := holds;
  mi_create_ok := create_holds;
  mi_search_ok := search_holds;
  mi_search_entry_ok := search_entry_holds;
  mi_insert_ok := insert_holds;
  mi_foreach_ok := foreach_holds
|}.
End instance.
