(* ===== verification/IgtHeap.v ===== *)
(** * igt: the heap of free ranges ([lib/intel_allocator_simple.c], first half)

    The free address ranges ("holes") of the simple allocator, from the highest
    to the lowest, as [simple_vma_heap] keeps them in its list: validation,
    freeing with coalescing, splitting, and the two allocation strategies.
    Addresses are 64-bit and every sum wraps. The list operations are those of
    [IgtList] on the sequence of holes; a failed [igt_assert] is [Abort]. *)

From S2P Require Import Prelude IgtMap.

Inductive allocator_strategy : Set :=
  ALLOC_STRATEGY_NONE | ALLOC_STRATEGY_LOW_TO_HIGH | ALLOC_STRATEGY_HIGH_TO_LOW.
#[global] Instance allocator_strategy_eq_dec : EqDecision allocator_strategy.
Proof. solve_decision. Defined.

Record simple_vma_hole : Type := Hole { h_offset : Z; h_size : Z }.
Record simple_vma_heap : Type := Heap {
  holes : list simple_vma_hole;
  strategy : allocator_strategy
}.

(** [first] says whether the hole is the head of the list. *)
Fixpoint validate_from (first : bool) (prev_offset : Z) (l : list simple_vma_hole) :
    outcome unit :=
  match l with
  | [] => mret tt
  | h :: l' =>
      _ ← assert_ (0 <? h_size h);
      _ ← (if first
           then assert_ ((u64 (h_size h + h_offset h) =? 0) ||
                         (h_offset h <? u64 (h_size h + h_offset h)))
           else assert_ ((h_offset h <? u64 (h_size h + h_offset h)) &&
                         (u64 (h_size h + h_offset h) <? prev_offset)));
      validate_from false (h_offset h) l'
  end.
Definition simple_vma_heap_validate (l : list simple_vma_hole) : outcome unit :=
  validate_from true 0 l.

(** The holes above [offset], and the rest. *)
Fixpoint split_holes (offset : Z) (l : list simple_vma_hole) :
    list simple_vma_hole * list simple_vma_hole :=
  match l with
  | [] => ([], [])
  | h :: l' =>
      if h_offset h <=? offset then ([], l)
      else let '(hi, lo) := split_holes offset l' in (h :: hi, lo)
  end.

(** The list [simple_vma_heap_free] leaves, by adjacency. *)
Definition free_holes (l : list simple_vma_hole) (offset size : Z) :
    C (list bool) (list simple_vma_hole) :=
  let '(hi, lo) := split_holes offset l in
  let high_hole := last hi in
  let low_hole := head lo in
  _ ← lift (match high_hole with
            | Some high => assert_ (u64 (offset + size) <=? h_offset high)
            | None => mret tt
            end);
  let high_adjacent := match high_hole with
                       | Some high => u64 (offset + size) =? h_offset high
                       | None => false
                       end in
  _ ← lift (match low_hole with
            | Some low =>
                _ ← assert_ (h_offset low <? u64 (h_offset low + h_size low));
                assert_ (u64 (h_offset low + h_size low) <=? offset)
            | None => mret tt
            end);
  let low_adjacent := match low_hole with
                      | Some low => u64 (h_offset low + h_size low) =? offset
                      | None => false
                      end in
  match high_adjacent, high_hole, low_adjacent, low_hole with
  | true, Some high, true, Some low =>
      mret (removelast hi ++
            Hole (h_offset low) (u64 (h_size low + u64 (size + h_size high))) :: tail lo)
  | _, _, true, Some low =>
      mret (hi ++ Hole (h_offset low) (u64 (h_size low + size)) :: tail lo)
  | true, Some high, _, _ =>
      mret (removelast hi ++ Hole offset (u64 (h_size high + size)) :: lo)
  | _, _, _, _ =>
      ok ← calloc_ok;
      _ ← lift (assert_ ok);
      mret (hi ++ Hole offset size :: lo)
  end.

Definition simple_vma_heap_free (l : list simple_vma_hole) (offset size : Z) :
    C (list bool) (list simple_vma_hole) :=
  _ ← lift (assert_ (0 <? size));
  _ ← lift (assert_ ((u64 (offset + size) =? 0) || (offset <? u64 (offset + size))));
  _ ← lift (simple_vma_heap_validate l);
  l ← free_holes l offset size;
  _ ← lift (simple_vma_heap_validate l);
  mret l.

Definition simple_vma_heap_init (start size : Z) (strat : allocator_strategy) :
    C (list bool) simple_vma_heap :=
  l ← simple_vma_heap_free [] start size;
  mret (Heap l (match strat with
                | ALLOC_STRATEGY_LOW_TO_HIGH => ALLOC_STRATEGY_LOW_TO_HIGH
                | _ => ALLOC_STRATEGY_HIGH_TO_LOW
                end)).

(** The holes that replace [hole], from high to low. *)
Definition simple_vma_hole_alloc (hole : simple_vma_hole) (offset size : Z) :
    C (list bool) (list simple_vma_hole) :=
  _ ← lift (assert_ (h_offset hole <=? offset));
  _ ← lift (assert_ (u64 (offset - h_offset hole + size) <=? h_size hole));
  if (offset =? h_offset hole) && (size =? h_size hole) then mret [] else
  _ ← lift (assert_ (u64 (offset - h_offset hole) <=? u64 (h_size hole - size)));
  let waste := u64 (u64 (h_size hole - size) - u64 (offset - h_offset hole)) in
  if waste =? 0 then mret [Hole (h_offset hole) (u64 (h_size hole - size))] else
  if offset =? h_offset hole
  then mret [Hole (u64 (h_offset hole + size)) (u64 (h_size hole - size))] else
  ok ← calloc_ok;
  _ ← lift (assert_ ok);
  mret [Hole (u64 (offset + size)) waste; Hole (h_offset hole) (u64 (offset - h_offset hole))].

(** The offset each strategy picks in a hole, [None] for [continue]. *)
Definition fit_high (h : simple_vma_hole) (size alignment : Z) : option Z :=
  if h_size h <? size then None else
  let offset := u64 (u64 (h_size h - size) + h_offset h) in
  let offset := u64 (offset / alignment * alignment) in
  if offset <? h_offset h then None else Some offset.
Definition fit_low (h : simple_vma_hole) (size alignment : Z) : option Z :=
  if h_size h <? size then None else
  let offset := h_offset h in
  let misalign := offset mod alignment in
  if misalign =? 0 then Some offset else
  let pad := u64 (alignment - misalign) in
  if u64 (h_size h - size) <? pad then None else Some (u64 (offset + pad)).

(** From the top: [above] are the holes already passed. *)
Fixpoint alloc_high (above l : list simple_vma_hole) (size alignment : Z) :
    C (list bool) (option (Z * list simple_vma_hole)) :=
  match l with
  | [] => mret None
  | h :: l' =>
      match fit_high h size alignment with
      | None => alloc_high (above ++ [h]) l' size alignment
      | Some offset =>
          pieces ← simple_vma_hole_alloc h offset size;
          _ ← lift (simple_vma_heap_validate (above ++ pieces ++ l'));
          mret (Some (offset, above ++ pieces ++ l'))
      end
  end.
(** From the bottom: [rl] is the rest of the list, lowest hole first. *)
Fixpoint alloc_low (rl below : list simple_vma_hole) (size alignment : Z) :
    C (list bool) (option (Z * list simple_vma_hole)) :=
  match rl with
  | [] => mret None
  | h :: rl' =>
      match fit_low h size alignment with
      | None => alloc_low rl' (h :: below) size alignment
      | Some offset =>
          pieces ← simple_vma_hole_alloc h offset size;
          _ ← lift (simple_vma_heap_validate (reverse rl' ++ pieces ++ below));
          mret (Some (offset, reverse rl' ++ pieces ++ below))
      end
  end.

(** The offset and the holes left, or [None] for [false]. *)
Definition simple_vma_heap_alloc (heap : simple_vma_heap) (size alignment : Z)
    (strat : allocator_strategy) : C (list bool) (option (Z * list simple_vma_hole)) :=
  _ ← lift (assert_ (0 <? size));
  _ ← lift (assert_ (0 <? alignment));
  _ ← lift (simple_vma_heap_validate (holes heap));
  let strat := match strat with ALLOC_STRATEGY_NONE => strategy heap | s => s end in
  match strat with
  | ALLOC_STRATEGY_HIGH_TO_LOW => alloc_high [] (holes heap) size alignment
  | _ => alloc_low (reverse (holes heap)) [] size alignment
  end.

Fixpoint alloc_addr_from (above l : list simple_vma_hole) (offset size : Z) :
    C (list bool) (option (list simple_vma_hole)) :=
  match l with
  | [] => mret None
  | h :: l' =>
      if offset <? h_offset h then alloc_addr_from (above ++ [h]) l' offset size else
      _ ← lift (assert_ (h_offset h <=? offset));
      if h_size h <? u64 (offset - h_offset h + size) then mret None else
      pieces ← simple_vma_hole_alloc h offset size;
      mret (Some (above ++ pieces ++ l'))
  end.
Definition simple_vma_heap_alloc_addr (l : list simple_vma_hole) (offset size : Z) :
    C (list bool) (option (list simple_vma_hole)) :=
  _ ← lift (assert_ (0 <? size));
  _ ← lift (assert_ ((u64 (offset + size) =? 0) || (offset <? u64 (offset + size))));
  alloc_addr_from [] l offset size.
