(* ===== verification/IgtHeapSpec.v ===== *)
(** * igt: the heap of free ranges is exact

    A heap is described by the addresses its holes cover. Freeing adds exactly
    the freed range and aborts on a range that is already free; allocation
    removes exactly the allocated range, finds the highest (lowest) aligned
    place there is, and fails only when there is none. *)

From S2P Require Import Prelude IgtMap IgtMapSpec IgtMapIface IgtHeap.

(** ** Coverage *)
Definition within (h : simple_vma_hole) (a : Z) : Z :=
  if (h_offset h <=? a) && (a <? h_offset h + h_size h) then 1 else 0.
(** How many ranges of the list contain [a]. *)
Fixpoint cover (l : list simple_vma_hole) (a : Z) : Z :=
  match l with [] => 0 | h :: l' => within h a + cover l' a end.

Lemma within_spec h a :
  (h_offset h ≤ a < h_offset h + h_size h ∧ within h a = 1) ∨
  ((a < h_offset h ∨ h_offset h + h_size h ≤ a) ∧ within h a = 0).
Proof.
  unfold within. destruct (Z.leb_spec (h_offset h) a), (Z.ltb_spec a (h_offset h + h_size h));
    simpl; lia.
Qed.
Lemma within_0_1 h a : 0 ≤ within h a ≤ 1.
Proof. destruct (within_spec h a) as [[_ ->]|[_ ->]]; lia. Qed.
Lemma cover_nonneg l a : 0 ≤ cover l a.
Proof. induction l as [|h l IH]; simpl; [lia|]. pose proof (within_0_1 h a). lia. Qed.
Lemma cover_app l l' a : cover (l ++ l') a = cover l a + cover l' a.
Proof. induction l as [|h l IH]; simpl; lia. Qed.
#[global] Instance cover_perm : Proper ((≡ₚ) ==> (=) ==> (=)) cover.
Proof. intros l l' H a ? <-. induction H; simpl; lia. Qed.
Lemma cover_elem l h a : h ∈ l → within h a ≤ cover l a.
Proof.
  induction 1 as [|h g l _ IH]; simpl; [pose proof (cover_nonneg l a); lia|].
  pose proof (within_0_1 g a). lia.
Qed.
Lemma cover_pos l a : 0 < cover l a → ∃ h, h ∈ l ∧ h_offset h ≤ a < h_offset h + h_size h.
Proof.
  induction l as [|h l IH]; simpl; [lia|]. intros Hc. destruct (within_spec h a) as [[Hw _]|[_ Hw]].
  - exists h. split; [set_solver|done].
  - destruct IH as (g & Hg & Hr); [lia|]. exists g. split; [set_solver|done].
Qed.

(** ** Well-formed heaps: positive sizes, from high to low, not adjacent, and
    below [b] *)
Fixpoint holes_below (b : Z) (l : list simple_vma_hole) : Prop :=
  match l with
  | [] => True
  | h :: l' => 0 ≤ h_offset h ∧ 0 < h_size h ∧ h_offset h + h_size h ≤ b ∧
               holes_below (h_offset h - 1) l'
  end.
(** The bound for what follows [l]. *)
Definition bound_after (b : Z) (l : list simple_vma_hole) : Z :=
  match last l with Some h => h_offset h - 1 | None => b end.

Lemma below_mono b b' l : b ≤ b' → holes_below b l → holes_below b' l.
Proof. destruct l; simpl; [done|]. intros ? (? & ? & ? & ?). split_and!; try done; lia. Qed.
Lemma bound_after_cons b h l : bound_after b (h :: l) = bound_after (h_offset h - 1) l.
Proof.
  unfold bound_after. destruct l as [|g l]; [done|]. rewrite last_cons_cons.
  destruct (last (g :: l)) eqn:E; [done|]. by apply last_None in E.
Qed.
Lemma bound_after_snoc b l h : bound_after b (l ++ [h]) = h_offset h - 1.
Proof. unfold bound_after. by rewrite last_snoc. Qed.
Lemma below_app b l l' :
  holes_below b (l ++ l') ↔ holes_below b l ∧ holes_below (bound_after b l) l'.
Proof.
  revert b. induction l as [|h l IH]; intros b; simpl; [tauto|].
  rewrite IH, bound_after_cons. tauto.
Qed.
Lemma below_cover b l a : holes_below b l → b ≤ a → cover l a = 0.
Proof.
  revert b. induction l as [|h l IH]; intros b; simpl; [done|]. intros (? & ? & ? & Hl) Ha.
  rewrite (IH _ Hl) by lia. destruct (within_spec h a) as [[? _]|[_ ->]]; lia.
Qed.
Lemma below_elem b l h : holes_below b l → h ∈ l →
  0 ≤ h_offset h ∧ 0 < h_size h ∧ h_offset h + h_size h ≤ b.
Proof.
  revert b. induction l as [|g l IH]; intros b Hl Hh; [set_solver|]. simpl in Hl.
  destruct Hl as (? & ? & ? & Hl). apply elem_of_cons in Hh as [->|Hh]; [done|].
  destruct (IH _ Hl Hh) as (? & ? & ?). lia.
Qed.
(** Later holes end below earlier ones. *)
Lemma below_order b l1 h l2 g :
  holes_below b (l1 ++ h :: l2) → g ∈ l2 → h_offset g + h_size g < h_offset h.
Proof.
  intros (_ & _ & _ & _ & Hl)%below_app Hg. pose proof (below_elem _ _ _ Hl Hg). lia.
Qed.
Lemma below_last b l z h :
  holes_below b (l ++ [z]) → h ∈ l ++ [z] → h_offset z ≤ h_offset h.
Proof.
  intros Hb Hh. apply elem_of_app in Hh as [Hh|Hh]; [|set_solver].
  apply list_elem_of_split in Hh as (l1 & l2 & ->). rewrite <-app_assoc in Hb. simpl in Hb.
  pose proof (below_order _ _ _ _ z Hb ltac:(set_solver)).
  pose proof (below_elem _ _ z Hb ltac:(set_solver)). lia.
Qed.
Lemma bound_after_le b l : holes_below b l → bound_after b l ≤ b.
Proof.
  intros Hl. unfold bound_after. destruct (last l) as [h|] eqn:E; [|lia].
  apply last_Some_elem_of in E. pose proof (below_elem _ _ _ Hl E). lia.
Qed.

Lemma assert_true (b : bool) {A} (k : unit → outcome A) : b = true → (assert_ b ≫= k) = k tt.
Proof. by intros ->. Qed.
(** An allocation that succeeds. *)
Lemma wp_calloc_ok (Φ : bool → list bool → Prop) o :
  no_oom o → (∀ o', no_oom o' → Φ true o') → wp calloc_ok Φ o.
Proof.
  intros Ho HΦ. apply wp_calloc; [by intros ?%no_oom_head|]. intros _. apply HΦ.
  destruct Ho; [constructor|done].
Qed.
(** Runs code whose assertions hold by arithmetic. *)
Ltac bool_lia := rewrite ?orb_true_iff, ?andb_true_iff, ?Z.ltb_lt, ?Z.leb_le, ?Z.eqb_eq; lia.
Lemma owp_Done {A} (a : A) (Φ : A → Prop) : Φ a → owp (Done a) Φ.
Proof. done. Qed.
Ltac run := repeat (wp_step || lazymatch goal with
  | |- owp (Done _) _ => apply owp_Done
  | |- owp (assert_ _) _ => apply owp_assert; [bool_lia|]
  end).

Section heap.
Context (E : Z) (HE : 0 ≤ E < 2 ^ 64).

Lemma u64_id x : 0 ≤ x ≤ E → u64 x = x.
Proof. intros. apply u64_small. unfold in_u64. lia. Qed.

Lemma validate_from_ok first prev b l :
  holes_below b l → b ≤ E → (first = false → b < prev) →
  validate_from first prev l = Done tt.
Proof.
  revert first prev b. induction l as [|h l IH]; intros first prev b Hl Hb Hp; [done|].
  cbn [validate_from]. destruct Hl as (? & ? & ? & Hl).
  rewrite assert_true by (apply Z.ltb_lt; lia).
  rewrite (u64_id (h_size h + h_offset h)) by lia.
  rewrite (IH false (h_offset h) (h_offset h - 1)) by (done || lia).
  destruct first; rewrite assert_true; try done.
  - apply orb_true_iff. right. apply Z.ltb_lt. lia.
  - apply andb_true_iff. rewrite !Z.ltb_lt. specialize (Hp eq_refl). lia.
Qed.
Lemma validate_ok l : holes_below E l → simple_vma_heap_validate l = Done tt.
Proof. intros. by apply (validate_from_ok true 0 E). Qed.

Lemma split_holes_spec offset l hi lo :
  split_holes offset l = (hi, lo) →
  l = hi ++ lo ∧ Forall (λ h, offset < h_offset h) hi ∧
  match lo with h :: _ => h_offset h ≤ offset | [] => True end.
Proof.
  revert hi lo. induction l as [|h l IH]; intros hi lo; simpl; [by intros [= <- <-]|].
  destruct (Z.leb_spec (h_offset h) offset).
  - by intros [= <- <-].
  - destruct (split_holes offset l) as [hi' lo'] eqn:Es. intros [= <- <-].
    destruct (IH _ _ eq_refl) as (-> & Hh & Hlo). split_and!; [done| |done]. by constructor.
Qed.

(** ** Freeing *)
Definition freed (l : list simple_vma_hole) (offset size : Z) (l' : list simple_vma_hole) : Prop :=
  holes_below E l' ∧ ∀ a, cover l' a = cover l a + within (Hole offset size) a.

Ltac cover_tac :=
  intros; rewrite ?cover_app; simpl; rewrite ?cover_app; simpl;
  repeat match goal with |- context [within ?h ?a] =>
    destruct (within_spec h a) as [[? ->]|[? ->]] end; simpl in *; lia.

(** The neighbours of a range that is not free leave room for it. *)
Lemma room_above hi lo offset size high :
  holes_below E hi → Forall (λ h, offset < h_offset h) hi → 0 < size →
  (∀ a, offset ≤ a < offset + size → cover (hi ++ lo) a = 0) →
  high ∈ hi → offset + size ≤ h_offset high.
Proof.
  intros Hb Hhi Hs Hfree Hh. pose proof (below_elem _ _ _ Hb Hh).
  rewrite Forall_forall in Hhi. specialize (Hhi _ Hh).
  destruct (decide (offset + size ≤ h_offset high)); [done|]. exfalso.
  specialize (Hfree (h_offset high) ltac:(lia)). rewrite cover_app in Hfree.
  pose proof (cover_elem hi high (h_offset high) Hh). pose proof (cover_nonneg lo (h_offset high)).
  destruct (within_spec high (h_offset high)) as [[? ?]|[? ?]]; lia.
Qed.
Lemma room_below b hi low lo offset size :
  holes_below b (low :: lo) → h_offset low ≤ offset → 0 < size →
  (∀ a, offset ≤ a < offset + size → cover (hi ++ low :: lo) a = 0) →
  h_offset low + h_size low ≤ offset.
Proof.
  simpl. intros (? & ? & ? & _) Hle Hs Hfree.
  destruct (decide (h_offset low + h_size low ≤ offset)); [done|]. exfalso.
  specialize (Hfree offset ltac:(lia)). rewrite cover_app in Hfree. simpl in Hfree.
  pose proof (cover_nonneg hi offset). pose proof (cover_nonneg lo offset).
  destruct (within_spec low offset) as [[? ?]|[? ?]]; lia.
Qed.

(** Leaves of the case analysis: order from the bounds, coverage by counting. *)
Ltac freed_tac :=
  split; [rewrite ?below_app in *; rewrite ?bound_after_snoc in *;
          change (bound_after E []) with E in *; simpl in *;
          repeat match goal with H : holes_below _ _ ∧ _ |- _ => destruct H
                 | H : _ ∧ _ ∧ _ |- _ => destruct H end;
          repeat split; try assumption; try lia
         |cover_tac].

Lemma free_holes_ok l offset size o :
  holes_below E l → 0 ≤ offset → 0 < size → offset + size ≤ E →
  (∀ a, offset ≤ a < offset + size → cover l a = 0) → no_oom o →
  wp (free_holes l offset size) (λ l' o', freed l offset size l' ∧ no_oom o') o.
Proof.
  intros Hl Ho Hs He Hfree Hoom. unfold free_holes.
  destruct (split_holes offset l) as [hi lo] eqn:Hsp.
  apply split_holes_spec in Hsp as (-> & Hhi & Hlo).
  apply below_app in Hl as [Hbh Hbl].
  rewrite (u64_id (offset + size)) by lia.
  destruct hi as [|high hi _] using rev_ind; destruct lo as [|low lo];
    rewrite ?last_snoc, ?removelast_last; cbn [last head tail]; cbv iota.
  - run. apply wp_calloc_ok; [done|]. intros o' Ho'. run. split; [freed_tac|done].
  - pose proof (room_below _ _ _ _ _ _ Hbl Hlo Hs Hfree) as Hroom.
    simpl in Hbl. destruct Hbl as (Hl1 & Hl2 & Hl3 & Hbl).
    rewrite (u64_id (h_offset low + h_size low)) by lia. run.
    destruct (Z.eqb_spec (h_offset low + h_size low) offset) as [Hadj|Hadj].
    + run. split; [|done]. rewrite (u64_id (h_size low + size)) by lia. freed_tac.
    + run. apply wp_calloc_ok; [done|]. intros o' Ho'. run. split; [freed_tac|done].
  - assert (offset + size ≤ h_offset high) as Hroom
      by (eapply room_above; [exact Hbh|done|done|exact Hfree|set_solver]).
    run. destruct (Z.eqb_spec (offset + size) (h_offset high)) as [Hadj|Hadj].
    + run. split; [|done]. pose proof (below_elem _ _ high Hbh ltac:(set_solver)).
      rewrite (u64_id (h_size high + size)) by lia. freed_tac.
    + run. apply wp_calloc_ok; [done|]. intros o' Ho'. run. split; [|done].
      rewrite <-app_assoc. freed_tac.
  - assert (offset + size ≤ h_offset high) as Hroom
      by (eapply room_above; [exact Hbh|done|done|exact Hfree|set_solver]).
    pose proof (room_below _ _ _ _ _ _ Hbl Hlo Hs Hfree) as Hroom'.
    pose proof (below_elem _ _ high Hbh ltac:(set_solver)) as Hhb.
    rewrite bound_after_snoc in Hbl. simpl in Hbl. destruct Hbl as (Hl1 & Hl2 & Hl3 & Hbl).
    rewrite (u64_id (h_offset low + h_size low)) by lia. run.
    destruct (Z.eqb_spec (offset + size) (h_offset high)) as [Hadj|Hadj];
      destruct (Z.eqb_spec (h_offset low + h_size low) offset) as [Hadj'|Hadj'].
    + run. split; [|done]. rewrite (u64_id (size + h_size high)) by lia.
      rewrite (u64_id (h_size low + (size + h_size high))) by lia. freed_tac.
    + run. split; [|done]. rewrite (u64_id (h_size high + size)) by lia. freed_tac.
    + run. split; [|done]. rewrite (u64_id (h_size low + size)) by lia.
      rewrite <-app_assoc. freed_tac.
    + run. apply wp_calloc_ok; [done|]. intros o' Ho'. run. split; [|done].
      rewrite <-app_assoc. freed_tac.
Qed.

Lemma heap_free_ok l offset size o :
  holes_below E l → 0 ≤ offset → 0 < size → offset + size ≤ E →
  (∀ a, offset ≤ a < offset + size → cover l a = 0) → no_oom o →
  wp (simple_vma_heap_free l offset size) (λ l' o', freed l offset size l' ∧ no_oom o') o.
Proof.
  intros Hl Ho Hs He Hfree Hoom. unfold simple_vma_heap_free.
  rewrite (u64_id (offset + size)) by lia. run.
  rewrite validate_ok by done. run. eapply wp_mono; [by apply free_holes_ok|].
  intros l' o' [Hf Ho']. run. rewrite validate_ok by apply Hf. run. done.
Qed.

(** A range that overlaps a hole is refused by the assertions. *)
Lemma lift_Done {A B} (x : A) (k : A → C (list bool) B) o : (lift (Done x) ≫= k) o = k x o.
Proof. done. Qed.
Lemma heap_free_overlap l offset size a o :
  holes_below E l → 0 ≤ offset → 0 < size → offset + size ≤ E →
  offset ≤ a < offset + size → 0 < cover l a →
  simple_vma_heap_free l offset size o = Abort.
Proof.
  intros Hl Ho Hs He Ha Hc. unfold simple_vma_heap_free.
  rewrite (u64_id (offset + size)) by lia. rewrite (proj2 (Z.ltb_lt 0 size)) by lia.
  rewrite (proj2 (Z.ltb_lt offset (offset + size))), orb_true_r by lia. rewrite validate_ok by done.
  change (assert_ true) with (Done tt). rewrite !lift_Done. unfold mbind at 1, C_bind at 1.
  cut (free_holes l offset size o = Abort); [by intros ->|]. unfold free_holes.
  destruct (split_holes offset l) as [hi lo] eqn:Hsp.
  apply split_holes_spec in Hsp as (-> & Hhi & Hlo). apply below_app in Hl as [Hbh Hbl].
  rewrite (u64_id (offset + size)) by lia.
  apply cover_pos in Hc as (h & Hh & Hr). apply elem_of_app in Hh as [Hh|Hh].
  - destruct hi as [|high hi _] using rev_ind; [set_solver|]. rewrite last_snoc.
    pose proof (below_last _ _ _ _ Hbh Hh).
    by rewrite (proj2 (Z.leb_gt _ _)) by lia.
  - destruct lo as [|low lo]; [set_solver|]. cbn [head].
    assert (offset < h_offset low + h_size low) as Hlow.
    { assert (h_offset h ≤ offset) as Hle.
      { apply elem_of_cons in Hh as [->|Hh]; [done|].
        pose proof (below_order _ [] low lo h Hbl Hh). destruct Hbl as (_ & _ & _ & Hbl).
        pose proof (below_elem _ _ _ Hbl Hh). lia. }
      apply elem_of_cons in Hh as [->|Hh]; [lia|].
      pose proof (below_order _ [] low lo h Hbl Hh). lia. }
    pose proof (bound_after_le _ _ Hbh). destruct Hbl as (? & ? & ? & _).
    rewrite (u64_id (h_offset low + h_size low)) by lia.
    assert (∀ (k : unit → C (list bool) (list simple_vma_hole)) (x : outcome unit),
      x = Done tt ∨ x = Abort →
      (lift x ≫= λ _, lift (assert_ (h_offset low <? h_offset low + h_size low) ≫= λ _,
         assert_ (h_offset low + h_size low <=? offset)) ≫= k) o = Abort) as Habort.
    { intros k x Hx. rewrite (proj2 (Z.ltb_lt _ _)), (proj2 (Z.leb_gt _ _)) by lia.
      by destruct Hx as [->| ->]. }
    apply Habort. destruct (last hi) as [high|]; [|by left].
    destruct (offset + size <=? h_offset high); [by left|by right].
Qed.

(** ** Allocating inside a hole *)
Definition hole_ok (h : simple_vma_hole) : Prop :=
  0 ≤ h_offset h ∧ 0 < h_size h ∧ h_offset h + h_size h ≤ E.

Lemma hole_alloc_ok h offset size o :
  hole_ok h → 0 < size → h_offset h ≤ offset → offset + size ≤ h_offset h + h_size h →
  no_oom o →
  wp (simple_vma_hole_alloc h offset size) (λ pieces o', no_oom o' ∧
    (∀ a, cover pieces a + within (Hole offset size) a = within h a) ∧
    ∀ b rest, h_offset h + h_size h ≤ b → holes_below (h_offset h - 1) rest →
      holes_below b (pieces ++ rest)) o.
Proof.
  intros (Ho & Hs & He) Hsz Hle Htop Hoom. unfold simple_vma_hole_alloc.
  rewrite (u64_id (offset - h_offset h + size)), (u64_id (offset - h_offset h)),
    (u64_id (h_size h - size)), (u64_id (h_size h - size - (offset - h_offset h))),
    (u64_id (h_offset h + size)), (u64_id (offset + size)) by lia.
  run. destruct (Z.eqb_spec offset (h_offset h)) as [Hoff|Hoff];
    [destruct (Z.eqb_spec size (h_size h)) as [Hall|Hall]|]; simpl; run.
  - split_and!; [done|cover_tac|]. intros b rest Hb Hrest. simpl. eapply below_mono; [|done]. lia.
  - destruct (Z.eqb_spec (h_size h - size - (offset - h_offset h)) 0) as [Hw|Hw]; run; [lia|].
    split_and!; [done|cover_tac|]. intros b rest Hb Hrest. simpl.
    split_and!; [lia|lia|lia|]. eapply below_mono; [|done]. lia.
  - destruct (Z.eqb_spec (h_size h - size - (offset - h_offset h)) 0) as [Hw|Hw]; run.
    + split_and!; [done|cover_tac|]. intros b rest Hb Hrest. simpl. split_and!; [lia|lia|lia|done].
    + apply wp_calloc_ok; [done|]. intros o' Ho'. run. split_and!; [done|cover_tac|].
      intros b rest Hb Hrest. simpl. split_and!; try lia. done.
Qed.

(** The list after an allocation inside one of its holes. *)
Definition taken (l : list simple_vma_hole) (offset size : Z) (l' : list simple_vma_hole) : Prop :=
  holes_below E l' ∧ ∀ a, cover l' a + within (Hole offset size) a = cover l a.

Lemma replace_hole above h rest pieces offset size :
  holes_below E (above ++ h :: rest) →
  (∀ a, cover pieces a + within (Hole offset size) a = within h a) →
  (∀ b rest, h_offset h + h_size h ≤ b → holes_below (h_offset h - 1) rest →
     holes_below b (pieces ++ rest)) →
  taken (above ++ h :: rest) offset size (above ++ pieces ++ rest).
Proof.
  intros [Ha (_ & _ & Hb & Hr)]%below_app Hcov Hord. split.
  - apply below_app. split; [done|]. by apply Hord.
  - intros a. rewrite !cover_app. simpl. specialize (Hcov a). lia.
Qed.
Lemma hole_ok_elem l h : holes_below E l → h ∈ l → hole_ok h.
Proof. apply below_elem. Qed.

(** ** The strategies *)
(** [o] is an aligned place for [size] inside [h]. *)
Definition fits (h : simple_vma_hole) (size alignment o : Z) : Prop :=
  (alignment | o) ∧ h_offset h ≤ o ∧ o + size ≤ h_offset h + h_size h.
Definition feasible (l : list simple_vma_hole) (size alignment o : Z) : Prop :=
  ∃ h, h ∈ l ∧ fits h size alignment o.

Lemma fit_high_ok h size alignment :
  hole_ok h → 0 < size → 0 < alignment →
  match fit_high h size alignment with
  | Some o => fits h size alignment o ∧ ∀ o', fits h size alignment o' → o' ≤ o
  | None => ∀ o', ¬ fits h size alignment o'
  end.
Proof.
  intros (Ho & Hs & He) Hsz Hal. unfold fit_high, fits.
  destruct (Z.ltb_spec (h_size h) size); [naive_solver lia|].
  rewrite (u64_id (h_size h - size)), (u64_id (h_size h - size + h_offset h)) by lia.
  set (top := h_size h - size + h_offset h).
  pose proof (Z.div_pos top alignment ltac:(lia) Hal) as Hq.
  pose proof (Z.mul_div_le top alignment Hal) as Hle.
  rewrite (u64_id (top / alignment * alignment)) by nia.
  assert (∀ o', (alignment | o') → o' ≤ top → o' ≤ top / alignment * alignment) as Hmax.
  { intros o' [q ->] Hle'. apply Z.mul_le_mono_nonneg_r; [lia|].
    apply Z.div_le_lower_bound; lia. }
  destruct (Z.ltb_spec (top / alignment * alignment) (h_offset h)) as [Hlt|Hge].
  - intros o' (Hd & Hlo & Hhi). specialize (Hmax o' Hd). lia.
  - split; [split_and!; [by exists (top / alignment)|done|lia]|].
    intros o' (Hd & _ & Hhi). apply Hmax; [done|lia].
Qed.

Lemma fit_low_ok h size alignment :
  hole_ok h → 0 < size → 0 < alignment < 2 ^ 64 →
  match fit_low h size alignment with
  | Some o => fits h size alignment o ∧ ∀ o', fits h size alignment o' → o ≤ o'
  | None => ∀ o', ¬ fits h size alignment o'
  end.
Proof.
  intros (Ho & Hs & He) Hsz [Hal Hal2]. unfold fit_low, fits.
  destruct (Z.ltb_spec (h_size h) size); [naive_solver lia|].
  pose proof (Z.mod_pos_bound (h_offset h) alignment Hal) as Hm.
  destruct (Z.eqb_spec (h_offset h mod alignment) 0) as [H0|H0].
  - split; [split_and!; [by apply Z.mod_divide; lia|lia|lia]|naive_solver].
  - rewrite (u64_small (alignment - _)) by (unfold in_u64; lia).
    rewrite (u64_id (h_size h - size)) by lia.
    pose proof (Z.div_mod (h_offset h) alignment ltac:(lia)) as Hdm.
    set (pad := alignment - h_offset h mod alignment) in *.
    assert (h_offset h + pad = (h_offset h / alignment + 1) * alignment) as Hup by lia.
    assert (∀ o', (alignment | o') → h_offset h ≤ o' → h_offset h + pad ≤ o') as Hmin.
    { intros o' [q ->] Hle'. rewrite Hup. apply Z.mul_le_mono_nonneg_r; [lia|].
      apply Z.le_succ_l, Z.div_lt_upper_bound; [lia|]. rewrite Z.mul_comm.
      destruct (decide (h_offset h = q * alignment)) as [Heq|]; [|lia].
      exfalso. apply H0. rewrite Heq. apply Z.mod_mul. lia. }
    destruct (Z.ltb_spec (h_size h - size) pad) as [Hlt|Hge].
    + intros o' (Hd & Hlo & Hhi). specialize (Hmin o' Hd Hlo). lia.
    + rewrite (u64_id (h_offset h + pad)) by lia.
      split; [split_and!; [rewrite Hup; by eexists|lia|lia]|].
      intros o' (Hd & Hlo & _). by apply Hmin.
Qed.

(** The result of an allocation: the extreme feasible place, or none. *)
Definition alloc_post (l : list simple_vma_hole) (size alignment : Z) (better : Z → Z → Prop)
    (r : option (Z * list simple_vma_hole)) : Prop :=
  match r with
  | Some (o, l') => feasible l size alignment o ∧
      (∀ o', feasible l size alignment o' → better o' o) ∧ taken l o size l'
  | None => ∀ o', ¬ feasible l size alignment o'
  end.

Lemma wp_take above h rest offset size o (Φ : list simple_vma_hole → list bool → Prop) :
  holes_below E (above ++ h :: rest) → 0 < size → h_offset h ≤ offset →
  offset + size ≤ h_offset h + h_size h → no_oom o →
  (∀ pieces o', no_oom o' →
     taken (above ++ h :: rest) offset size (above ++ pieces ++ rest) → Φ pieces o') →
  wp (simple_vma_hole_alloc h offset size) Φ o.
Proof.
  intros Hl Hs Hlo Hhi Hoom HΦ.
  eapply wp_mono; [apply hole_alloc_ok; try done; eapply hole_ok_elem; [exact Hl|set_solver]|].
  intros pieces o' (Ho' & Hcov & Hord). apply HΦ; [done|]. by apply replace_hole.
Qed.

Lemma alloc_high_ok l : ∀ above size alignment o,
  holes_below E (above ++ l) → 0 < size → 0 < alignment →
  (∀ o', ¬ feasible above size alignment o') → no_oom o →
  wp (alloc_high above l size alignment)
    (λ r o', no_oom o' ∧ alloc_post (above ++ l) size alignment Z.le r) o.
Proof.
  induction l as [|h l IH]; intros above size al o Hl Hs Hal Hno Hoom; cbn [alloc_high].
  - run. rewrite app_nil_r. done.
  - pose proof (fit_high_ok h size al ltac:(eapply hole_ok_elem; [done|set_solver]) Hs Hal) as Hfit.
    destruct (fit_high h size al) as [off|].
    + destruct Hfit as [(Hd & Hlo & Hhi) Hmax]. run.
      eapply wp_take; try done. intros pieces o' Ho' Ht. run.
      rewrite validate_ok by apply Ht. run. split; [done|]. split_and!; [|..|done].
      * exists h. split; [set_solver|done].
      * intros o2 (g & Hg & Hf). apply elem_of_app in Hg as [Hg|Hg].
        { exfalso. eapply Hno. by exists g. }
        apply elem_of_cons in Hg as [->|Hg]; [by apply Hmax|].
        pose proof (below_order _ _ _ _ g Hl Hg). destruct Hf as (_ & ? & ?). lia.
    + replace (above ++ h :: l) with ((above ++ [h]) ++ l) in * by (by rewrite <-app_assoc).
      apply IH; try done. intros o2 (g & Hg & Hf). apply elem_of_app in Hg as [Hg|Hg].
      * eapply Hno. by exists g.
      * apply list_elem_of_singleton in Hg as ->. by apply (Hfit o2).
Qed.

Lemma alloc_low_ok rl : ∀ below size alignment o,
  holes_below E (reverse rl ++ below) → 0 < size → 0 < alignment < 2 ^ 64 →
  (∀ o', ¬ feasible below size alignment o') → no_oom o →
  wp (alloc_low rl below size alignment)
    (λ r o', no_oom o' ∧ alloc_post (reverse rl ++ below) size alignment Z.ge r) o.
Proof.
  induction rl as [|h rl IH]; intros below size al o Hl Hs Hal Hno Hoom; cbn [alloc_low].
  - run. done.
  - rewrite reverse_cons, <-app_assoc in *. simpl app in *.
    pose proof (fit_low_ok h size al ltac:(eapply hole_ok_elem; [done|set_solver]) Hs Hal) as Hfit.
    destruct (fit_low h size al) as [off|].
    + destruct Hfit as [(Hd & Hlo & Hhi) Hmin]. run.
      eapply wp_take; try done. intros pieces o' Ho' Ht. run.
      rewrite validate_ok by apply Ht. run. split; [done|]. split_and!; [|..|done].
      * exists h. split; [set_solver|done].
      * intros o2 (g & Hg & Hf). apply elem_of_app in Hg as [Hg|Hg].
        { apply list_elem_of_split in Hg as (l1 & l2 & Hsp). rewrite Hsp, <-app_assoc in Hl.
          pose proof (below_order _ l1 g (l2 ++ h :: below) h Hl ltac:(set_solver)).
          destruct Hf as (_ & ? & ?). lia. }
        apply elem_of_cons in Hg as [->|Hg]; [by apply Z.le_ge, Hmin|].
        exfalso. eapply Hno. by exists g.
    + apply IH; try done. intros o2 (g & Hg & Hf). apply elem_of_cons in Hg as [->|Hg].
      * by apply (Hfit o2).
      * eapply Hno. by exists g.
Qed.

(** The strategy in force. *)
Definition effective_strategy (heap : simple_vma_heap) (strat : allocator_strategy) :=
  match strat with ALLOC_STRATEGY_NONE => strategy heap | s => s end.
Definition better_of (s : allocator_strategy) : Z → Z → Prop :=
  match s with ALLOC_STRATEGY_HIGH_TO_LOW => Z.le | _ => Z.ge end.

Lemma heap_alloc_ok heap size alignment strat o :
  holes_below E (holes heap) → 0 < size → 0 < alignment < 2 ^ 64 → no_oom o →
  wp (simple_vma_heap_alloc heap size alignment strat) (λ r o', no_oom o' ∧
    alloc_post (holes heap) size alignment (better_of (effective_strategy heap strat)) r) o.
Proof.
  intros Hl Hs Hal Hoom. unfold simple_vma_heap_alloc. run. rewrite validate_ok by done. run.
  fold (effective_strategy heap strat).
  assert (∀ o', ¬ feasible [] size alignment o') as Hnil by (intros o' (g & ? & _); set_solver).
  destruct (effective_strategy heap strat); simpl.
  1,2: eapply wp_mono; [apply alloc_low_ok; rewrite ?reverse_involutive, ?app_nil_r; done|];
    by rewrite reverse_involutive, app_nil_r.
  apply (alloc_high_ok (holes heap) []); [done|done|lia|done|done].
Qed.

(** ** Allocating a given address *)
Lemma alloc_addr_ok l : ∀ above offset size o,
  holes_below E (above ++ l) → Forall (λ h, offset < h_offset h) above →
  0 ≤ offset → 0 < size → offset + size ≤ E → no_oom o →
  wp (alloc_addr_from above l offset size) (λ r o', no_oom o' ∧ match r with
    | Some l' => feasible (above ++ l) size 1 offset ∧ taken (above ++ l) offset size l'
    | None => ¬ feasible (above ++ l) size 1 offset
    end) o.
Proof.
  induction l as [|h l IH]; intros above off size o Hl Hab Ho Hs He Hoom; cbn [alloc_addr_from].
  - run. split; [done|]. rewrite app_nil_r. intros (g & Hg & _ & Hf & _).
    rewrite Forall_forall in Hab. specialize (Hab g Hg). lia.
  - pose proof (below_elem _ _ h Hl ltac:(set_solver)) as (H1 & H2 & H3).
    destruct (Z.ltb_spec off (h_offset h)) as [Hlt|Hge].
    + replace (above ++ h :: l) with ((above ++ [h]) ++ l) in * by (by rewrite <-app_assoc).
      apply IH; try done. apply Forall_app. split; [done|]. by constructor.
    + run. rewrite (u64_id (off - h_offset h + size)) by lia.
      destruct (Z.ltb_spec (h_size h) (off - h_offset h + size)) as [Hsm|Hfit].
      * run. split; [done|]. intros (g & Hg & _ & Hf1 & Hf2).
        apply elem_of_app in Hg as [Hg|Hg].
        { rewrite Forall_forall in Hab. specialize (Hab g Hg). lia. }
        apply elem_of_cons in Hg as [->|Hg]; [lia|].
        pose proof (below_order _ _ _ _ g Hl Hg). lia.
      * run. eapply wp_take; try done; [lia|]. intros pieces o' Ho' Ht. run.
        split_and!; [done| |done]. exists h. split; [set_solver|].
        split_and!; [apply Z.divide_1_l|done|lia].
Qed.
Lemma heap_alloc_addr_ok l offset size o :
  holes_below E l → 0 ≤ offset → 0 < size → offset + size ≤ E → no_oom o →
  wp (simple_vma_heap_alloc_addr l offset size) (λ r o', no_oom o' ∧ match r with
    | Some l' => feasible l size 1 offset ∧ taken l offset size l'
    | None => ¬ feasible l size 1 offset
    end) o.
Proof.
  intros Hl Ho Hs He Hoom. unfold simple_vma_heap_alloc_addr.
  rewrite (u64_id (offset + size)) by lia. run. by apply (alloc_addr_ok l []).
Qed.
End heap.

(** ** A heap is determined by what it covers *)
Lemma cover_top b h l a : holes_below b (h :: l) → h_offset h - 1 ≤ a →
  cover (h :: l) a = within h a.
Proof. intros (_ & _ & _ & Hl) Ha. simpl. rewrite (below_cover _ _ _ Hl) by lia. lia. Qed.
Lemma cover_0_1 b l a : holes_below b l → cover l a ≤ 1.
Proof.
  revert b. induction l as [|h l IH]; intros b Hl; [simpl; lia|].
  destruct (decide (h_offset h - 1 ≤ a)) as [Ha|Ha].
  - rewrite (cover_top b) by done. pose proof (within_0_1 h a). lia.
  - destruct Hl as (_ & _ & _ & Hl). simpl. specialize (IH _ Hl).
    destruct (within_spec h a) as [[? _]|[_ ->]]; lia.
Qed.
Lemma holes_canonical b b' l l' :
  holes_below b l → holes_below b' l' → (∀ a, cover l a = cover l' a) → l = l'.
Proof.
  revert b b' l'. induction l as [|h l IH]; intros b b' [|h' l'] Hl Hl' Hc; [done|..].
  - specialize (Hc (h_offset h')). rewrite (cover_top _ _ _ _ Hl') in Hc by lia.
    simpl in Hc, Hl'. destruct (within_spec h' (h_offset h')) as [[_ ?]|[? _]]; lia.
  - specialize (Hc (h_offset h)). rewrite (cover_top _ _ _ _ Hl) in Hc by lia.
    simpl in Hc, Hl. destruct (within_spec h (h_offset h)) as [[_ ?]|[? _]]; lia.
  - assert (∀ a, h_offset h - 1 ≤ a → h_offset h' - 1 ≤ a → within h a = within h' a) as Hw.
    { intros a Ha Ha'. specialize (Hc a).
      by rewrite (cover_top _ _ _ _ Hl), (cover_top _ _ _ _ Hl') in Hc by done. }
    destruct (id Hl) as (H1 & H2 & _ & Ht), (id Hl') as (H1' & H2' & _ & Ht').
    assert (h_offset h + h_size h = h_offset h' + h_size h') as Hend.
    { destruct (Z.lt_trichotomy (h_offset h + h_size h) (h_offset h' + h_size h')) as [Hlt|[?|Hgt]]; [|done|].
      - specialize (Hc (h_offset h' + h_size h' - 1)).
        rewrite (cover_top _ _ _ _ Hl), (cover_top _ _ _ _ Hl') in Hc by lia.
        destruct (within_spec h (h_offset h' + h_size h' - 1)) as [[? ?]|[? ?]],
          (within_spec h' (h_offset h' + h_size h' - 1)) as [[? ?]|[? ?]]; lia.
      - specialize (Hc (h_offset h + h_size h - 1)).
        rewrite (cover_top _ _ _ _ Hl), (cover_top _ _ _ _ Hl') in Hc by lia.
        destruct (within_spec h (h_offset h + h_size h - 1)) as [[? ?]|[? ?]],
          (within_spec h' (h_offset h + h_size h - 1)) as [[? ?]|[? ?]]; lia. }
    assert (h_offset h = h_offset h') as Hoff.
    { destruct (Z.lt_trichotomy (h_offset h) (h_offset h')) as [Hlt|[?|Hgt]]; [|done|].
      - specialize (Hw (h_offset h' - 1) ltac:(lia) ltac:(lia)).
        destruct (within_spec h (h_offset h' - 1)) as [[? ?]|[? ?]],
          (within_spec h' (h_offset h' - 1)) as [[? ?]|[? ?]]; lia.
      - specialize (Hw (h_offset h - 1) ltac:(lia) ltac:(lia)).
        destruct (within_spec h (h_offset h - 1)) as [[? ?]|[? ?]],
          (within_spec h' (h_offset h - 1)) as [[? ?]|[? ?]]; lia. }
    assert (h = h') as <- by (destruct h, h'; simpl in *; f_equal; lia).
    f_equal. eapply IH; [done|done|]. intros a. specialize (Hc a). simpl in Hc. lia.
Qed.

(** ** Sizes from coverage *)
Fixpoint total (l : list simple_vma_hole) : Z :=
  match l with [] => 0 | h :: l' => h_size h + total l' end.
Fixpoint sum_to (n : nat) (f : Z → Z) : Z :=
  match n with O => 0 | S m => sum_to m f + f (Z.of_nat m) end.

Lemma total_app l l' : total (l ++ l') = total l + total l'.
Proof. induction l; simpl; lia. Qed.
#[global] Instance total_perm : Proper ((≡ₚ) ==> (=)) total.
Proof. intros l l' H. induction H; simpl; lia. Qed.
Lemma sum_to_ext n f g : (∀ a, f a = g a) → sum_to n f = sum_to n g.
Proof. intros H. induction n; simpl; [done|]. rewrite IHn, H. done. Qed.
Lemma sum_to_add n f g : sum_to n (λ a, f a + g a) = sum_to n f + sum_to n g.
Proof. induction n; simpl; lia. Qed.
Lemma sum_within n h : 0 ≤ h_offset h → 0 ≤ h_size h →
  sum_to n (within h) = Z.max 0 (Z.min (Z.of_nat n) (h_offset h + h_size h) - h_offset h).
Proof.
  intros Ho Hs. induction n as [|n IH]; cbn [sum_to]; [lia|]. rewrite IH.
  destruct (within_spec h (Z.of_nat n)) as [[? ->]|[? ->]]; lia.
Qed.
Lemma sum_cover n l :
  Forall (λ h, 0 ≤ h_offset h ∧ 0 < h_size h ∧ h_offset h + h_size h ≤ Z.of_nat n) l →
  sum_to n (cover l) = total l.
Proof.
  induction 1 as [|h l (? & ? & ?) _ IH]; simpl.
  - induction n; simpl; lia.
  - rewrite sum_to_add, IH, sum_within by lia. lia.
Qed.
