(* ===== verification/IgtAllocator.v ===== *)
(** * igt: the simple allocator ([lib/intel_allocator_simple.c], second half)

    Objects and reserved areas over the heap of free ranges. The two maps are
    used through the interface [MapImpl] only. Records are never changed once
    stored, so a record pointer is its contents; allocations follow the
    outcomes in the state, and an unchecked failed [malloc] is undefined. *)

From S2P Require Import Prelude IgtMap IgtMapSpec IgtMapIface IgtHeap.

Record intel_allocator_record : Type := AllocRec {
  handle : Z;
  r_offset : Z;
  r_size : Z;
  pat_index : Z
}.

Record intel_allocator_simple (T1 T2 : Type) : Type := Simple {
  objects : T1;
  reserved : T2;
  heap : simple_vma_heap;
  start : Z;
  end_ : Z;
  total_size : Z;
  allocated_size : Z;
  allocated_objects : Z;
  reserved_size : Z;
  reserved_areas : Z
}.
Arguments Simple {T1 T2} _ _ _ _ _ _ _ _ _ _.
Arguments objects {T1 T2} _.
Arguments reserved {T1 T2} _.
Arguments heap {T1 T2} _.
Arguments start {T1 T2} _.
Arguments end_ {T1 T2} _.
Arguments total_size {T1 T2} _.
Arguments allocated_size {T1 T2} _.
Arguments allocated_objects {T1 T2} _.
Arguments reserved_size {T1 T2} _.
Arguments reserved_areas {T1 T2} _.

Definition GEN8_GTT_ADDRESS_WIDTH : Z := 48.
Definition DECANONICAL (offset : Z) : Z :=
  Z.land offset (Z.shiftl 1 GEN8_GTT_ADDRESS_WIDTH - 1).
Definition ALLOC_INVALID_ADDRESS : Z := 2 ^ 64 - 1.

(** [rec = malloc(sizeof *rec)], whose result is used unchecked. *)
Definition malloc_rec (r : intel_allocator_record) : C (list bool) intel_allocator_record :=
  ok ← calloc_ok; if ok : bool then mret r else lift Undef.

Section allocator.
Context {T1 T2 : Type} `{!MapImpl T1 Z intel_allocator_record}.
Context `{!MapImpl T2 Z intel_allocator_record}.
Implicit Types ials : intel_allocator_simple T1 T2.

Definition intel_allocator_simple_get_address_range ials : Z * Z := (start ials, end_ ials).

Definition with_heap ials (l : list simple_vma_hole) : intel_allocator_simple T1 T2 :=
  Simple (objects ials) (reserved ials) (Heap l (strategy (heap ials))) (start ials) (end_ ials)
    (total_size ials) (allocated_size ials) (allocated_objects ials) (reserved_size ials)
    (reserved_areas ials).
Definition with_objects ials (t : T1) (size count : Z) : intel_allocator_simple T1 T2 :=
  Simple t (reserved ials) (heap ials) (start ials) (end_ ials) (total_size ials) size count
    (reserved_size ials) (reserved_areas ials).
Definition with_reserved ials (t : T2) (size count : Z) : intel_allocator_simple T1 T2 :=
  Simple (objects ials) t (heap ials) (start ials) (end_ ials) (total_size ials)
    (allocated_size ials) (allocated_objects ials) size count.

Definition intel_allocator_simple_alloc ials (h size alignment pat : Z)
    (strat : allocator_strategy) : C (list bool) (Z * intel_allocator_simple T1 T2) :=
  _ ← lift (assert_ (negb (h =? 0)));
  rec ← lift (mi_search (objects ials) h);
  match rec with
  | Some rec =>
      _ ← lift (assert_ (r_size rec =? size));
      _ ← lift (assert_ (pat_index rec =? pat));
      mret (r_offset rec, ials)
  | None =>
      r ← simple_vma_heap_alloc (heap ials) size alignment strat;
      match r with
      | None => mret (ALLOC_INVALID_ADDRESS, ials)
      | Some (offset, l) =>
          let ials := with_heap ials l in
          rec ← malloc_rec (AllocRec h offset size pat);
          '(t, _) ← mi_insert (objects ials) (handle rec) rec;
          mret (offset, with_objects ials t (u64 (allocated_size ials + size))
                          (u64 (allocated_objects ials + 1)))
      end
  end.

Definition intel_allocator_simple_free ials (h : Z) :
    C (list bool) (bool * intel_allocator_simple T1 T2) :=
  entry ← lift (mi_search_entry (objects ials) h);
  match entry with
  | None => mret (false, ials)
  | Some i =>
      t ← lift (mi_remove_entry (objects ials) (Some i));
      d ← lift (mi_entry_data t i);
      match d with
      | None => mret (false, with_objects ials t (allocated_size ials) (allocated_objects ials))
      | Some rec =>
          l ← simple_vma_heap_free (holes (heap ials)) (r_offset rec) (r_size rec);
          mret (true, with_objects (with_heap ials l) t (u64 (allocated_size ials - r_size rec))
                        (u64 (allocated_objects ials - 1)))
      end
  end.

Definition same (rec : intel_allocator_record) (h size offset : Z) : bool :=
  (handle rec =? h) && (r_size rec =? size) &&
  (DECANONICAL (r_offset rec) =? DECANONICAL offset).

Definition intel_allocator_simple_is_allocated ials (h size offset : Z) : outcome bool :=
  _ ← assert_ (negb (h =? 0));
  rec ← mi_search (objects ials) h;
  mret (match rec with Some rec => same rec h size offset | None => false end).

Definition get_size (start end_ : Z) : Z :=
  let end_ := if end_ =? 0 then Z.shiftl 1 GEN8_GTT_ADDRESS_WIDTH else end_ in
  u64 (end_ - start).

(** The checks [reserve], [unreserve] and [is_reserved] begin with: the
    decanonical start and the size. *)
Definition decanonical_range (start end_ : Z) : outcome (Z * Z) :=
  _ ← assert_ (negb (end_ =? 0));
  let start := DECANONICAL start in
  let end_ := DECANONICAL end_ in
  _ ← assert_ ((start <? end_) || (end_ =? 0));
  mret (start, get_size start end_).

Definition intel_allocator_simple_reserve ials (h start_arg end_arg : Z) :
    C (list bool) (bool * intel_allocator_simple T1 T2) :=
  '(s, size) ← lift (decanonical_range start_arg end_arg);
  _ ← lift (assert_ (u64 (s + size) <=? end_ ials));
  _ ← lift (assert_ (start ials <=? s));
  r ← simple_vma_heap_alloc_addr (holes (heap ials)) s size;
  match r with
  | Some l =>
      let ials := with_heap ials l in
      (* [pat_index] of the new record is not initialised *)
      rec ← malloc_rec (AllocRec h s size 0);
      '(t, _) ← mi_insert (reserved ials) (r_offset rec) rec;
      mret (true, with_reserved ials t (u64 (reserved_size ials + r_size rec))
                    (u64 (reserved_areas ials + 1)))
  | None => mret (false, ials)
  end.

Definition intel_allocator_simple_unreserve ials (h start_arg end_arg : Z) :
    C (list bool) (bool * intel_allocator_simple T1 T2) :=
  '(s, size) ← lift (decanonical_range start_arg end_arg);
  entry ← lift (mi_search_entry (reserved ials) s);
  match entry with
  | None => mret (false, ials)
  | Some i =>
      d ← lift (mi_entry_data (reserved ials) i);
      match d with
      | None => mret (false, ials)
      | Some rec =>
          if negb (r_size rec =? size) then mret (false, ials) else
          if negb (handle rec =? h) then mret (false, ials) else
          t ← lift (mi_remove_entry (reserved ials) (Some i));
          let ials := with_reserved ials t (u64 (reserved_size ials - r_size rec))
                        (u64 (reserved_areas ials - 1)) in
          l ← simple_vma_heap_free (holes (heap ials)) s size;
          mret (true, with_heap ials l)
      end
  end.

Definition intel_allocator_simple_is_reserved ials (start_arg end_arg : Z) : outcome bool :=
  '(s, size) ← decanonical_range start_arg end_arg;
  rec ← mi_search (reserved ials) s;
  match rec with
  | None => mret false
  | Some rec => mret ((r_offset rec =? s) && (r_size rec =? size))
  end.

Definition intel_allocator_simple_is_empty ials : bool :=
  (allocated_objects ials =? 0) && (reserved_areas ials =? 0).

(** The sums [intel_allocator_simple_print] computes and asserts; the result is
    the free space it prints. *)
Definition sum_sizes (l : list Z) : Z := foldl (λ acc n, u64 (acc + n)) 0 l.
Definition intel_allocator_simple_print ials (full : bool) : outcome Z :=
  let total_free := sum_sizes (h_size <$> holes (heap ials)) in
  if full then
    _ ← assert_ (total_free <=? total_size ials);
    _ ← assert_ (total_free =?
                 u64 (u64 (total_size ials - allocated_size ials) - reserved_size ials));
    recs ← mi_foreach (objects ials);
    _ ← assert_ (allocated_size ials =? sum_sizes (r_size <$> recs));
    _ ← assert_ (allocated_objects ials =? sum_sizes ((λ _, 1) <$> recs));
    recs ← mi_foreach (reserved ials);
    _ ← assert_ (reserved_areas ials =? sum_sizes ((λ _, 1) <$> recs));
    _ ← assert_ (reserved_size ials =? sum_sizes (r_size <$> recs));
    mret total_free
  else mret total_free.

Definition intel_allocator_simple_create (start_arg end_arg : Z) (strat : allocator_strategy) :
    C (list bool) (intel_allocator_simple T1 T2) :=
  ok ← calloc_ok;
  _ ← lift (assert_ ok);
  ok ← calloc_ok;
  _ ← lift (assert_ ok);
  objs ← mi_create (D:=intel_allocator_record);
  resv ← mi_create (D:=intel_allocator_record);
  match objs, resv with
  | Some objs, Some resv =>
      let total := u64 (end_arg - start_arg) in
      hp ← simple_vma_heap_init start_arg total strat;
      mret (Simple objs resv hp start_arg end_arg total 0 0 0 0)
  | _, _ => lift Abort
  end.
End allocator.
