(* ===== verification/IgtAllocatorSpec.v ===== *)
(** * igt: the simple allocator partitions its address range

    The invariant: every address between [start] and [end] belongs to exactly
    one of the holes, the objects and the reserved areas, and no other address
    to any; the counters are the sums over the maps. Every operation preserves
    it. The maps are known through their interface only. *)

From S2P Require Import Prelude IgtMap IgtMapSpec IgtMapIface IgtHeap IgtHeapSpec IgtAllocator.

Definition range_of (r : intel_allocator_record) : simple_vma_hole := Hole (r_offset r) (r_size r).
(** The ranges of the records of a map. *)
Definition ranges (M : gmap Z intel_allocator_record) : list simple_vma_hole :=
  range_of <$> (map_to_list M).*2.

Lemma ranges_insert M k r : M !! k = None → ranges (<[k := r]> M) ≡ₚ range_of r :: ranges M.
Proof. intros H. unfold ranges. by rewrite map_to_list_insert by done. Qed.
Lemma ranges_delete M k r : M !! k = Some r → ranges M ≡ₚ range_of r :: ranges (delete k M).
Proof.
  intros H. rewrite <-(insert_delete_id M k r H) at 1. apply ranges_insert, lookup_delete_eq.
Qed.
Lemma ranges_elem M k r : M !! k = Some r → range_of r ∈ ranges M.
Proof. intros H. rewrite (ranges_delete M k r H). set_solver. Qed.
Lemma ranges_length M : length (ranges M) = base.size M.
Proof. unfold ranges. by rewrite !length_fmap, length_map_to_list. Qed.
Lemma ranges_Forall M (P : simple_vma_hole → Prop) :
  (∀ k r, M !! k = Some r → P (range_of r)) → Forall P (ranges M).
Proof.
  intros H. unfold ranges. apply Forall_fmap, Forall_fmap, Forall_forall.
  intros [k r] Hk. apply elem_of_map_to_list in Hk. by eapply H.
Qed.

(** Positive sizes, and the key of a record. *)
Definition recs_ok (key : intel_allocator_record → Z) (M : gmap Z intel_allocator_record) : Prop :=
  ∀ k r, M !! k = Some r → key r = k ∧ 0 < r_size r.

Section spec.
Context {T1 T2 : Type} `{!MapImpl T1 Z intel_allocator_record}.
Context `{!MapImpl T2 Z intel_allocator_record}.
Implicit Types (ials : intel_allocator_simple T1 T2) (M R : gmap Z intel_allocator_record).

Record alloc_inv ials M R : Prop := {
  ai_objects : mi_rep (objects ials) M;
  ai_reserved : mi_rep (reserved ials) R;
  ai_range : 0 ≤ start ials < end_ ials;
  ai_end : end_ ials < 2 ^ 64;
  ai_total : total_size ials = end_ ials - start ials;
  ai_holes : holes_below (end_ ials) (holes (heap ials));
  ai_partition a : cover (holes (heap ials)) a + cover (ranges M) a + cover (ranges R) a =
    within (Hole (start ials) (end_ ials - start ials)) a;
  ai_recs : recs_ok handle M ∧ recs_ok r_offset R;
  ai_allocated : allocated_size ials = total (ranges M) ∧
    allocated_objects ials = Z.of_nat (base.size M);
  ai_areas : reserved_size ials = total (ranges R) ∧
    reserved_areas ials = Z.of_nat (base.size R)
}.

(** Every range of the partition lies in the address range. *)
Lemma range_bounds ials M R h :
  alloc_inv ials M R → h ∈ holes (heap ials) ++ ranges M ++ ranges R → 0 < h_size h →
  start ials ≤ h_offset h ∧ h_offset h + h_size h ≤ end_ ials.
Proof.
  intros H Hin Hs.
  assert (∀ a, within h a ≤ within (Hole (start ials) (end_ ials - start ials)) a) as Hle.
  { intros a. rewrite <-(ai_partition _ _ _ H a), <-Z.add_assoc, <-!cover_app. by apply cover_elem. }
  pose proof (Hle (h_offset h)) as H1. pose proof (Hle (h_offset h + h_size h - 1)) as H2.
  destruct (within_spec h (h_offset h)) as [[_ E1]|[? _]]; [|lia].
  destruct (within_spec h (h_offset h + h_size h - 1)) as [[_ E2]|[? _]]; [|lia].
  rewrite E1 in H1. rewrite E2 in H2.
  destruct (within_spec (Hole (start ials) (end_ ials - start ials)) (h_offset h)) as [[? _]|[_ E3]]; [|lia].
  destruct (within_spec (Hole (start ials) (end_ ials - start ials)) (h_offset h + h_size h - 1))
    as [[? _]|[_ E4]]; simpl in *; lia.
Qed.

(** The sizes add up. *)
Lemma total_partition ials M R : alloc_inv ials M R →
  total (holes (heap ials)) + total (ranges M) + total (ranges R) = end_ ials - start ials.
Proof.
  intros H. pose proof (ai_range _ _ _ H). destruct (ai_recs _ _ _ H) as [HM HR].
  set (l := holes (heap ials) ++ ranges M ++ ranges R).
  assert (Forall (λ h, 0 ≤ h_offset h ∧ 0 < h_size h ∧
            h_offset h + h_size h ≤ Z.of_nat (Z.to_nat (end_ ials))) l) as Hall.
  { assert (Forall (λ h, 0 < h_size h) l) as Hpos.
    { unfold l. rewrite !Forall_app. split_and!.
      - apply Forall_forall. intros h Hh. by apply (below_elem _ _ _ (ai_holes _ _ _ H)).
      - apply ranges_Forall. intros k r Hk. by destruct (HM k r Hk).
      - apply ranges_Forall. intros k r Hk. by destruct (HR k r Hk). }
    rewrite Forall_forall in *. intros h Hh. specialize (Hpos h Hh).
    destruct (range_bounds _ _ _ h H Hh Hpos). lia. }
  pose proof (sum_cover _ _ Hall) as Hsum. unfold l in Hsum. rewrite !total_app in Hsum.
  rewrite (sum_to_ext _ _ (within (Hole (start ials) (end_ ials - start ials)))) in Hsum.
  - rewrite sum_within in Hsum by (simpl; lia). simpl in Hsum. lia.
  - intros a. rewrite !cover_app, <-(ai_partition _ _ _ H a). lia.
Qed.
Lemma total_nonneg l : Forall (λ h, 0 < h_size h) l → Z.of_nat (length l) ≤ total l.
Proof. induction 1; simpl; lia. Qed.
Lemma total_ranges_bounds ials M R : alloc_inv ials M R →
  Z.of_nat (base.size M) ≤ total (ranges M) ∧ Z.of_nat (base.size R) ≤ total (ranges R) ∧
  0 ≤ total (holes (heap ials)).
Proof.
  intros H. destruct (ai_recs _ _ _ H) as [HM HR]. rewrite <-!ranges_length. split_and!.
  - apply total_nonneg, ranges_Forall. intros k r Hk. by destruct (HM k r Hk).
  - apply total_nonneg, ranges_Forall. intros k r Hk. by destruct (HR k r Hk).
  - transitivity (Z.of_nat (length (holes (heap ials)))); [lia|]. apply total_nonneg.
    apply Forall_forall. intros h Hh. by apply (below_elem _ _ _ (ai_holes _ _ _ H)).
Qed.

(** A place found in the holes belongs to no record. *)
Lemma feasible_bounds ials M R size al o :
  alloc_inv ials M R → 0 < size → feasible (holes (heap ials)) size al o →
  start ials ≤ o ∧ o + size ≤ end_ ials.
Proof.
  intros H Hs (h & Hh & _ & Hlo & Hhi).
  pose proof (below_elem _ _ _ (ai_holes _ _ _ H) Hh) as (_ & Hp & _).
  destruct (range_bounds _ _ _ h H ltac:(set_solver) Hp). lia.
Qed.

(** ** Changing one part of the partition *)
Definition alloc_state ials l t1 n1 c1 t2 n2 c2 : intel_allocator_simple T1 T2 :=
  Simple t1 t2 (Heap l (strategy (heap ials))) (start ials) (end_ ials) (total_size ials)
    n1 c1 n2 c2.

Lemma inv_update ials M R M' R' l t1 n1 c1 t2 n2 c2 :
  alloc_inv ials M R → holes_below (end_ ials) l → mi_rep t1 M' → mi_rep t2 R' →
  (∀ a, cover l a + cover (ranges M') a + cover (ranges R') a =
        cover (holes (heap ials)) a + cover (ranges M) a + cover (ranges R) a) →
  recs_ok handle M' → recs_ok r_offset R' →
  n1 = total (ranges M') → c1 = Z.of_nat (base.size M') →
  n2 = total (ranges R') → c2 = Z.of_nat (base.size R') →
  alloc_inv (alloc_state ials l t1 n1 c1 t2 n2 c2) M' R'.
Proof.
  intros H Hl H1 H2 Hc HM HR -> -> -> ->. destruct H as [_ _ Hr He Ht _ Hp _ _ _].
  split; simpl; try done. intros a. by rewrite Hc, Hp.
Qed.

Lemma recs_ok_insert key M k r :
  recs_ok key M → key r = k → 0 < r_size r → recs_ok key (<[k := r]> M).
Proof.
  intros HM Hk Hs k' r' Hr'. apply lookup_insert_Some in Hr' as [[<- <-]|[_ Hr']]; [done|by apply HM].
Qed.
Lemma recs_ok_delete key M k : recs_ok key M → recs_ok key (delete k M).
Proof. intros HM k' r' [_ Hr']%lookup_delete_Some. by apply HM. Qed.

(** The address range a record leaves is not covered by a hole. *)
Lemma record_not_free ials M R r a :
  alloc_inv ials M R → range_of r ∈ ranges M ++ ranges R →
  r_offset r ≤ a < r_offset r + r_size r → cover (holes (heap ials)) a = 0.
Proof.
  intros H Hin Ha. pose proof (ai_partition _ _ _ H a) as Hp.
  pose proof (cover_elem _ _ a Hin) as Hc. rewrite cover_app in Hc.
  pose proof (cover_nonneg (holes (heap ials)) a).
  pose proof (within_0_1 (Hole (start ials) (end_ ials - start ials)) a).
  destruct (within_spec (range_of r) a) as [[_ ?]|[? _]]; simpl in *; lia.
Qed.

Lemma wp_malloc_rec r (Φ : intel_allocator_record → list bool → Prop) o :
  no_oom o → (∀ o', no_oom o' → Φ r o') → wp (malloc_rec r) Φ o.
Proof.
  intros Ho HΦ. unfold malloc_rec. wps. apply wp_calloc_ok; [done|]. intros o' Ho'. wps. by apply HΦ.
Qed.

(** ** Allocation *)
(** The result for a handle that holds no object yet. *)
Definition alloc_result ials M R h size alignment pat strat (res : Z * intel_allocator_simple T1 T2) : Prop :=
  let '(off, ials') := res in
  let better := better_of (effective_strategy (heap ials) strat) in
  (off = ALLOC_INVALID_ADDRESS ∧ ials' = ials ∧
   ∀ o', ¬ feasible (holes (heap ials)) size alignment o') ∨
  (feasible (holes (heap ials)) size alignment off ∧
   (∀ o', feasible (holes (heap ials)) size alignment o' → better o' off) ∧
   taken (end_ ials) (holes (heap ials)) off size (holes (heap ials')) ∧
   alloc_inv ials' (<[h := AllocRec h off size pat]> M) R).

Lemma alloc_new_ok ials M R h size alignment pat strat o :
  alloc_inv ials M R → M !! h = None → h ≠ 0 → 0 < size → 0 < alignment < 2 ^ 64 →
  Z.of_nat (base.size M) < 2 ^ 30 → no_oom o →
  wp (intel_allocator_simple_alloc ials h size alignment pat strat)
    (λ res o', no_oom o' ∧ alloc_result ials M R h size alignment pat strat res) o.
Proof.
  intros H HM Hh Hs Hal Hsz Ho. destruct (ai_recs _ _ _ H) as [HMr HRr].
  pose proof (ai_range _ _ _ H). pose proof (ai_end _ _ _ H).
  unfold intel_allocator_simple_alloc. rewrite (proj2 (Z.eqb_neq _ _)) by done. wps.
  apply owp_assert; [done|]. wps. rewrite (mi_search_ok _ _ h (ai_objects _ _ _ H)), HM. run.
  eapply wp_mono; [apply (heap_alloc_ok (end_ ials) ltac:(lia)); [apply H|done|done|done]|].
  intros [[off l]|] o1 [Ho1 Hpost]; simpl in Hpost; run.
  2: { split; [done|]. by left. }
  destruct Hpost as (Hf & Hbest & Ht). apply wp_malloc_rec; [done|]. intros o2 Ho2. run.
  eapply wp_mono; [by apply mi_insert_ok; [apply H|..]|]. intros [t i] o3 [Ho3 Ht3]. run.
  split; [done|]. right. split_and!; [done|done|done|]. simpl in Ht3.
  set (M' := <[h := AllocRec h off size pat]> M) in *.
  assert (ranges M' ≡ₚ Hole off size :: ranges M) as Hperm by (by apply ranges_insert).
  destruct (ai_allocated _ _ _ H) as [Ha1 Ha2], (ai_areas _ _ _ H) as [Hr1 Hr2].
  assert (alloc_inv (alloc_state ials l t (total (ranges M')) (Z.of_nat (base.size M'))
            (reserved ials) (reserved_size ials) (reserved_areas ials)) M' R) as Hinv.
  { eapply inv_update; try done; [apply Ht|apply H| |by apply recs_ok_insert].
    intros a. rewrite Hperm. simpl. rewrite <-(proj2 Ht a). lia. }
  pose proof (total_partition _ _ _ Hinv) as Htot. pose proof (total_ranges_bounds _ _ _ Hinv) as Hb.
  assert (total (ranges M') = size + total (ranges M)) as E1 by (by rewrite Hperm).
  assert (base.size M' = S (base.size M)) as E2 by (by apply map_size_insert_None).
  simpl in Htot, Hb. rewrite E1, E2 in *.
  unfold alloc_state in Hinv. unfold with_objects, with_heap. simpl.
  rewrite (u64_small (allocated_size ials + size)), (u64_small (allocated_objects ials + 1))
    by (unfold in_u64; lia).
  replace (allocated_size ials + size) with (size + total (ranges M)) by lia.
  replace (allocated_objects ials + 1) with (Z.of_nat (S (base.size M))) by lia. exact Hinv.
Qed.

(** A handle that holds an object: the same offset again, if the request is the
    same; otherwise the assertion fails. *)
Lemma alloc_again_ok ials M R h size alignment pat strat r o :
  alloc_inv ials M R → h ≠ 0 → M !! h = Some r →
  intel_allocator_simple_alloc ials h size alignment pat strat o =
  if (r_size r =? size) && (pat_index r =? pat) then Done ((r_offset r, ials), o) else Abort.
Proof.
  intros H Hh HM. unfold intel_allocator_simple_alloc.
  rewrite (proj2 (Z.eqb_neq _ _)), (mi_search_ok _ _ h (ai_objects _ _ _ H)), HM by done.
  cbn [negb]. change (assert_ true) with (Done tt). rewrite !lift_Done.
  destruct (r_size r =? size), (pat_index r =? pat); reflexivity.
Qed.

(** ** Freeing an object *)
Lemma free_ok ials M R h o :
  alloc_inv ials M R → no_oom o →
  wp (intel_allocator_simple_free ials h) (λ '(b, ials') o', no_oom o' ∧ match M !! h with
    | Some r => b = true ∧ alloc_inv ials' (delete h M) R ∧
        freed (end_ ials) (holes (heap ials)) (r_offset r) (r_size r) (holes (heap ials'))
    | None => b = false ∧ ials' = ials
    end) o.
Proof.
  intros H Ho. destruct (ai_recs _ _ _ H) as [HMr HRr].
  pose proof (ai_range _ _ _ H). pose proof (ai_end _ _ _ H).
  unfold intel_allocator_simple_free. run.
  eapply owp_mono; [apply (mi_search_entry_ok _ _ h (ai_objects _ _ _ H))|].
  intros [i|]; [|intros ->; run; by split].
  intros (r & HM & _ & Hrm). rewrite HM. run.
  eapply owp_mono; [exact Hrm|]. intros t [Ht Hd]. run. rewrite Hd. run.
  destruct (HMr h r HM) as [Hk Hpos].
  assert (range_of r ∈ ranges M) as Hin by (by eapply ranges_elem).
  destruct (range_bounds _ _ _ (range_of r) H ltac:(rewrite !elem_of_app; tauto) Hpos) as [Hlo Hhi]. simpl in Hlo, Hhi.
  eapply wp_mono; [apply (heap_free_ok (end_ ials) ltac:(lia))|].
  { apply H. } { lia. } { done. } { done. }
  { intros a Ha. apply (record_not_free ials M R r); [done|rewrite elem_of_app; tauto|done]. } { done. }
  intros l o1 [Hfr Ho1]. run. split; [done|]. split; [done|]. split; [|done].
  pose proof (ranges_delete M h r HM) as Hperm. set (M' := delete h M) in *.
  destruct (ai_allocated _ _ _ H) as [Ha1 Ha2], (ai_areas _ _ _ H) as [Hr1 Hr2].
  assert (alloc_inv (alloc_state ials l t (total (ranges M')) (Z.of_nat (base.size M'))
            (reserved ials) (reserved_size ials) (reserved_areas ials)) M' R) as Hinv.
  { eapply inv_update; try done; [apply Hfr|apply H| |by apply recs_ok_delete].
    intros a. rewrite Hperm, (proj2 Hfr a). simpl. unfold range_of. lia. }
  pose proof (total_partition _ _ _ H) as Htot. pose proof (total_ranges_bounds _ _ _ Hinv) as Hb.
  pose proof (total_ranges_bounds _ _ _ H) as Hb0.
  assert (total (ranges M) = r_size r + total (ranges M')) as E1 by (by rewrite Hperm).
  assert (base.size M = S (base.size M')) as E2.
  { pose proof (Permutation_length Hperm) as E. cbn [length] in E. by rewrite !ranges_length in E. }
  unfold alloc_state in Hinv. unfold with_objects, with_heap. simpl. simpl in Hb.
  rewrite (u64_small (allocated_size ials - r_size r)), (u64_small (allocated_objects ials - 1))
    by (unfold in_u64; lia).
  replace (allocated_size ials - r_size r) with (total (ranges M')) by lia.
  replace (allocated_objects ials - 1) with (Z.of_nat (base.size M')) by lia. exact Hinv.
Qed.

(** ** Reservation *)
Definition decanonical_end (e : Z) : Z :=
  if DECANONICAL e =? 0 then 2 ^ 48 else DECANONICAL e.
(** The ranges the interface accepts. *)
Definition range_ok (s e : Z) : Prop :=
  e ≠ 0 ∧ (DECANONICAL s < DECANONICAL e ∨ DECANONICAL e = 0).

Lemma decanonical_bounds x : 0 ≤ DECANONICAL x < 2 ^ 48.
Proof.
  unfold DECANONICAL, GEN8_GTT_ADDRESS_WIDTH.
  replace (Z.shiftl 1 48 - 1) with (Z.ones 48) by reflexivity.
  rewrite Z.land_ones by lia. apply Z.mod_pos_bound. lia.
Qed.
Lemma decanonical_range_ok s e :
  range_ok s e →
  decanonical_range s e = Done (DECANONICAL s, decanonical_end e - DECANONICAL s) ∧
  0 ≤ DECANONICAL s < decanonical_end e ∧ decanonical_end e ≤ 2 ^ 48.
Proof.
  intros [He Hr]. pose proof (decanonical_bounds s). pose proof (decanonical_bounds e).
  unfold decanonical_range, get_size, decanonical_end, GEN8_GTT_ADDRESS_WIDTH.
  rewrite (proj2 (Z.eqb_neq e 0)) by done. change (Z.shiftl 1 48) with (2 ^ 48).
  destruct (Z.eqb_spec (DECANONICAL e) 0) as [E|E]; rewrite ?orb_true_r, ?orb_false_r.
  - split; [|lia]. cbn. rewrite u64_small by (unfold in_u64; lia). done.
  - rewrite (proj2 (Z.ltb_lt _ _)) by lia. split; [|lia]. cbn.
    rewrite u64_small by (unfold in_u64; lia). done.
Qed.

Lemma reserve_ok ials M R h s_arg e_arg o :
  alloc_inv ials M R → range_ok s_arg e_arg →
  start ials ≤ DECANONICAL s_arg → decanonical_end e_arg ≤ end_ ials →
  Z.of_nat (base.size R) < 2 ^ 30 → no_oom o →
  let s := DECANONICAL s_arg in
  let size := decanonical_end e_arg - s in
  wp (intel_allocator_simple_reserve ials h s_arg e_arg) (λ '(b, ials') o', no_oom o' ∧
    if b : bool then feasible (holes (heap ials)) size 1 s ∧
      taken (end_ ials) (holes (heap ials)) s size (holes (heap ials')) ∧
      alloc_inv ials' M (<[s := AllocRec h s size 0]> R)
    else ials' = ials ∧ ¬ feasible (holes (heap ials)) size 1 s) o.
Proof.
  intros H Hr Hlo Hhi Hsz Ho s size. destruct (ai_recs _ _ _ H) as [HMr HRr].
  pose proof (ai_range _ _ _ H). pose proof (ai_end _ _ _ H).
  destruct (decanonical_range_ok _ _ Hr) as (Hdr & Hs & He).
  unfold intel_allocator_simple_reserve. rewrite Hdr. fold s size. run.
  rewrite (u64_id (end_ ials) ltac:(lia) (s + size)) by (unfold size; lia). run.
  eapply wp_mono; [apply (heap_alloc_addr_ok (end_ ials) ltac:(lia)); [apply H|lia|unfold size; lia|unfold size; lia|done]|].
  intros [l|] o1 [Ho1 Hpost]; run; [|by split].
  destruct Hpost as [Hf Ht]. apply wp_malloc_rec; [done|]. intros o2 Ho2. run.
  eapply wp_mono; [by apply mi_insert_ok; [apply H|..]|]. intros [t i] o3 [Ho3 Ht3]. run.
  simpl in Ht3. split; [done|]. split; [done|]. split; [done|].
  assert (R !! s = None) as HR.
  { destruct (R !! s) as [r|] eqn:E; [|done]. exfalso. destruct (HRr _ _ E) as [Hk Hp].
    destruct Hf as (g & Hg & _ & Hg1 & Hg2).
    pose proof (record_not_free ials M R r s H ltac:(rewrite elem_of_app; right; by eapply ranges_elem) ltac:(lia)) as Hc.
    pose proof (cover_elem _ _ s Hg). destruct (within_spec g s) as [[_ ?]|[? _]]; unfold size in *; lia. }
  set (R' := <[s := AllocRec h s size 0]> R) in *.
  assert (ranges R' ≡ₚ Hole s size :: ranges R) as Hperm by (by apply ranges_insert).
  destruct (ai_allocated _ _ _ H) as [Ha1 Ha2], (ai_areas _ _ _ H) as [Hr1 Hr2].
  assert (alloc_inv (alloc_state ials l (objects ials) (allocated_size ials) (allocated_objects ials)
            t (total (ranges R')) (Z.of_nat (base.size R'))) M R') as Hinv.
  { eapply inv_update; try done; [apply Ht|apply H| |apply recs_ok_insert; [done|done|simpl; unfold size; lia]].
    intros a. rewrite Hperm. simpl. rewrite <-(proj2 Ht a). lia. }
  pose proof (total_partition _ _ _ Hinv) as Htot. pose proof (total_ranges_bounds _ _ _ Hinv) as Hb.
  assert (total (ranges R') = size + total (ranges R)) as E1 by (by rewrite Hperm).
  assert (base.size R' = S (base.size R)) as E2 by (by apply map_size_insert_None).
  simpl in Htot, Hb. rewrite E1, E2 in *.
  unfold alloc_state in Hinv. unfold with_reserved, with_heap. simpl.
  rewrite (u64_small (reserved_size ials + size)), (u64_small (reserved_areas ials + 1))
    by (unfold in_u64; lia).
  replace (reserved_size ials + size) with (size + total (ranges R)) by lia.
  replace (reserved_areas ials + 1) with (Z.of_nat (S (base.size R))) by lia. exact Hinv.
Qed.

(** Only the holder of a whole reservation can give it back. *)
Lemma unreserve_ok ials M R h s_arg e_arg o :
  alloc_inv ials M R → range_ok s_arg e_arg → no_oom o →
  let s := DECANONICAL s_arg in
  let size := decanonical_end e_arg - s in
  wp (intel_allocator_simple_unreserve ials h s_arg e_arg) (λ '(b, ials') o', no_oom o' ∧
    match R !! s with
    | Some r =>
        if (r_size r =? size) && (handle r =? h)
        then b = true ∧ alloc_inv ials' M (delete s R) ∧
             freed (end_ ials) (holes (heap ials)) s size (holes (heap ials'))
        else b = false ∧ ials' = ials
    | None => b = false ∧ ials' = ials
    end) o.
Proof.
  intros H Hr Ho s size. destruct (ai_recs _ _ _ H) as [HMr HRr].
  pose proof (ai_range _ _ _ H). pose proof (ai_end _ _ _ H).
  destruct (decanonical_range_ok _ _ Hr) as (Hdr & Hs & He).
  unfold intel_allocator_simple_unreserve. rewrite Hdr. fold s size. run.
  eapply owp_mono; [apply (mi_search_entry_ok _ _ s (ai_reserved _ _ _ H))|].
  intros [i|]; [|intros ->; run; by split].
  intros (r & HR & Hd & Hrm). rewrite HR. run. rewrite Hd. run.
  destruct (Z.eqb_spec (r_size r) size) as [Hsz|]; cbn [negb andb]; [|run; done].
  destruct (Z.eqb_spec (handle r) h) as [Hh|]; cbn [negb andb]; [|run; done]. run.
  eapply owp_mono; [exact Hrm|]. intros t [Ht _]. run.
  destruct (HRr s r HR) as [Hk Hpos].
  assert (range_of r ∈ ranges R) as Hin by (by eapply ranges_elem).
  destruct (range_bounds _ _ _ (range_of r) H ltac:(rewrite !elem_of_app; tauto) Hpos) as [Hlo Hhi].
  simpl in Hlo, Hhi. cbn [heap with_reserved].
  eapply wp_mono; [apply (heap_free_ok (end_ ials) ltac:(lia))|].
  { apply H. } { lia. } { unfold size. lia. } { lia. }
  { intros a Ha. apply (record_not_free ials M R r); [done|rewrite elem_of_app; tauto|lia]. } { done. }
  intros l o1 [Hfr Ho1]. run. split; [done|]. split; [done|]. split; [|done].
  pose proof (ranges_delete R s r HR) as Hperm. set (R' := delete s R) in *.
  destruct (ai_allocated _ _ _ H) as [Ha1 Ha2], (ai_areas _ _ _ H) as [Hr1 Hr2].
  assert (alloc_inv (alloc_state ials l (objects ials) (allocated_size ials) (allocated_objects ials)
            t (total (ranges R')) (Z.of_nat (base.size R'))) M R') as Hinv.
  { eapply inv_update; try done; [apply Hfr|apply H| |by apply recs_ok_delete].
    intros a. rewrite Hperm, (proj2 Hfr a). simpl. unfold range_of. rewrite Hk, Hsz. lia. }
  pose proof (total_partition _ _ _ H) as Htot. pose proof (total_ranges_bounds _ _ _ Hinv) as Hb.
  pose proof (total_ranges_bounds _ _ _ H) as Hb0.
  assert (total (ranges R) = r_size r + total (ranges R')) as E1 by (by rewrite Hperm).
  assert (base.size R = S (base.size R')) as E2.
  { pose proof (Permutation_length Hperm) as E. cbn [length] in E. by rewrite !ranges_length in E. }
  unfold alloc_state in Hinv. unfold with_heap, with_reserved. simpl. simpl in Hb.
  rewrite (u64_small (reserved_size ials - r_size r)), (u64_small (reserved_areas ials - 1))
    by (unfold in_u64; lia).
  replace (reserved_size ials - r_size r) with (total (ranges R')) by lia.
  replace (reserved_areas ials - 1) with (Z.of_nat (base.size R')) by lia. exact Hinv.
Qed.

(** ** The audit in [print] and creation *)
Definition zsum (l : list Z) : Z := foldr Z.add 0 l.
Lemma zsum_nonneg l : Forall (λ x, 0 ≤ x) l → 0 ≤ zsum l.
Proof. induction 1; simpl; lia. Qed.
Lemma sum_sizes_ok l : Forall (λ x, 0 ≤ x) l → zsum l < 2 ^ 64 → sum_sizes l = zsum l.
Proof.
  unfold sum_sizes. intros Hl.
  cut (∀ acc, 0 ≤ acc → acc + zsum l < 2 ^ 64 → foldl (λ acc n, u64 (acc + n)) acc l = acc + zsum l).
  { intros Hcut Hlt. by rewrite Hcut by lia. }
  induction Hl as [|x l Hx Hl IH]; intros acc Hacc Hlt; simpl in *; [lia|].
  pose proof (zsum_nonneg l Hl). rewrite u64_small by (unfold in_u64; lia). rewrite IH; lia.
Qed.
Lemma total_zsum l : total l = zsum (h_size <$> l).
Proof. induction l as [|h l IH]; [done|]. simpl. by rewrite IH. Qed.
#[local] Instance zsum_perm : Proper ((≡ₚ) ==> (=)) zsum.
Proof. intros l l' H. induction H; simpl; lia. Qed.

(** The two sums over a map agree with its records. *)
Lemma sums_ok key M recs :
  recs_ok key M → recs ≡ₚ (map_to_list M).*2 → total (ranges M) < 2 ^ 64 →
  sum_sizes (r_size <$> recs) = total (ranges M) ∧
  sum_sizes ((λ _, 1) <$> recs) = Z.of_nat (base.size M).
Proof.
  intros HM Hp Hlt.
  assert (zsum (r_size <$> recs) = total (ranges M)) as E1.
  { rewrite Hp, total_zsum. unfold ranges. by rewrite <-(list_fmap_compose range_of h_size). }
  assert (zsum ((λ _, 1) <$> recs) = Z.of_nat (base.size M)) as E2.
  { rewrite <-length_map_to_list, <-(length_fmap snd), <-(Permutation_length Hp).
    clear. induction recs; cbn [fmap list_fmap zsum foldr length] in *; [done|]. unfold zsum in *. lia. }
  assert (Forall (λ r, 0 < r_size r) recs) as Hpos.
  { rewrite Hp. apply Forall_fmap, Forall_forall. intros [k r] Hk%elem_of_map_to_list.
    by destruct (HM k r Hk). }
  assert (Z.of_nat (base.size M) ≤ total (ranges M)) as Hle.
  { rewrite <-ranges_length. apply total_nonneg, ranges_Forall. intros k r Hk. by destruct (HM k r Hk). }
  split.
  - rewrite sum_sizes_ok, E1; [done| |lia]. apply Forall_fmap. eapply Forall_impl; [exact Hpos|]. simpl. lia.
  - rewrite sum_sizes_ok, E2; [done| |lia]. apply Forall_fmap. by eapply Forall_impl; [exact Hpos|].
Qed.

Lemma print_ok ials M R full : alloc_inv ials M R →
  owp (intel_allocator_simple_print ials full) (λ n, n = total (holes (heap ials))).
Proof.
  intros H. pose proof (total_partition _ _ _ H) as Htot. pose proof (total_ranges_bounds _ _ _ H) as Hb.
  pose proof (ai_range _ _ _ H). pose proof (ai_end _ _ _ H). pose proof (ai_total _ _ _ H) as Ht.
  destruct (ai_recs _ _ _ H) as [HMr HRr].
  destruct (ai_allocated _ _ _ H) as [Ha1 Ha2], (ai_areas _ _ _ H) as [Hr1 Hr2].
  assert (sum_sizes (h_size <$> holes (heap ials)) = total (holes (heap ials))) as Hfree.
  { rewrite total_zsum. apply sum_sizes_ok; [|rewrite <-total_zsum; lia].
    apply Forall_fmap, Forall_forall. intros h Hh.
    pose proof (below_elem _ _ _ (ai_holes _ _ _ H) Hh). simpl. lia. }
  unfold intel_allocator_simple_print. rewrite Hfree. destruct full; [|by run].
  rewrite (u64_small (total_size ials - allocated_size ials)) by (unfold in_u64; lia).
  rewrite (u64_small (_ - reserved_size ials)) by (unfold in_u64; lia). run.
  eapply owp_mono; [apply (mi_foreach_ok _ _ (ai_objects _ _ _ H))|]. intros recs Hp.
  destruct (sums_ok handle M recs HMr Hp ltac:(lia)) as [E1 E2]. rewrite E1, E2. run.
  eapply owp_mono; [apply (mi_foreach_ok _ _ (ai_reserved _ _ _ H))|]. intros recs' Hp'.
  destruct (sums_ok r_offset R recs' HRr Hp' ltac:(lia)) as [E3 E4]. rewrite E3, E4. by run.
Qed.

Lemma create_ok s e strat o :
  0 ≤ s < e → e < 2 ^ 64 → no_oom o →
  wp (intel_allocator_simple_create s e strat) (λ ials o', no_oom o' ∧ alloc_inv ials ∅ ∅ ∧
    holes (heap ials) = [Hole s (e - s)] ∧
    strategy (heap ials) = (if decide (strat = ALLOC_STRATEGY_LOW_TO_HIGH)
                            then ALLOC_STRATEGY_LOW_TO_HIGH else ALLOC_STRATEGY_HIGH_TO_LOW)) o.
Proof.
  intros Hs He Ho. unfold intel_allocator_simple_create. run.
  apply wp_calloc_ok; [done|]. intros o1 Ho1. run.
  apply wp_calloc_ok; [done|]. intros o2 Ho2. run.
  eapply wp_mono; [by apply mi_create_ok|]. intros r1 o3 (Ho3 & t1 & -> & H1). run.
  eapply wp_mono; [by apply mi_create_ok|]. intros r2 o4 (Ho4 & t2 & -> & H2). run.
  rewrite u64_small by (unfold in_u64; lia). unfold simple_vma_heap_init. run.
  eapply wp_mono; [apply (heap_free_ok e ltac:(lia) []); simpl; try done; lia|].
  intros l o5 [[Hl Hc] Ho5]. run. split; [done|].
  assert (l = [Hole s (e - s)]) as ->.
  { eapply holes_canonical; [exact Hl| |].
    - instantiate (1 := e). simpl. split_and!; [lia..|done].
    - intros a. rewrite Hc. simpl. lia. }
  split_and!; [|done|by destruct strat].
  split; simpl; try done.
  intros a. unfold ranges. rewrite map_to_list_empty. simpl. lia.
Qed.
End spec.
