(* ===== verification/IgtAllocatorSteps.v ===== *)
(** * igt: the simple allocator over a whole run

    The states a client can reach: those of [intel_allocator_simple_create],
    closed under every operation that returns, with any arguments of the right
    width. The partition invariant holds in all of them. *)

From S2P Require Import Prelude IgtMap IgtMapSpec IgtMapIface IgtHeap IgtHeapSpec.
From S2P Require Import IgtAllocator IgtAllocatorSpec.

Section steps.
Context {T1 T2 : Type} `{!MapImpl T1 Z intel_allocator_record}.
Context `{!MapImpl T2 Z intel_allocator_record}.
Implicit Types (ials : intel_allocator_simple T1 T2) (M R : gmap Z intel_allocator_record).

(** One call that returns; allocations of the process succeed, and the maps
    stay below the capacity of the largest hash table used. *)
Inductive allocator_step : intel_allocator_simple T1 T2 → intel_allocator_simple T1 T2 → Prop :=
| step_alloc ials h size alignment pat strat off ials' o o' :
    in_u64 size → in_u64 alignment → allocated_objects ials < 2 ^ 30 → no_oom o →
    intel_allocator_simple_alloc ials h size alignment pat strat o = Done ((off, ials'), o') →
    allocator_step ials ials'
| step_free ials h b ials' o o' :
    no_oom o → intel_allocator_simple_free ials h o = Done ((b, ials'), o') →
    allocator_step ials ials'
| step_reserve ials h s e b ials' o o' :
    reserved_areas ials < 2 ^ 30 → no_oom o →
    intel_allocator_simple_reserve ials h s e o = Done ((b, ials'), o') →
    allocator_step ials ials'
| step_unreserve ials h s e b ials' o o' :
    no_oom o → intel_allocator_simple_unreserve ials h s e o = Done ((b, ials'), o') →
    allocator_step ials ials'.

Inductive allocator_reachable : intel_allocator_simple T1 T2 → Prop :=
| reach_create s e strat ials o o' :
    0 ≤ s < e → e < 2 ^ 64 → no_oom o →
    intel_allocator_simple_create s e strat o = Done (ials, o') → allocator_reachable ials
| reach_step ials ials' :
    allocator_reachable ials → allocator_step ials ials' → allocator_reachable ials'.

(** A failed assertion at the head of a sequence ends the run. *)
Lemma assert_run {W B} b (k : unit → C W B) (w : W) r :
  (lift (assert_ b) ≫= k) w = Done r → b = true ∧ k tt w = Done r.
Proof. intros (a & w' & H & Hk)%C_bind_inv. destruct b; simpl in H; [|done]. by simplify_eq. Qed.
Lemma oassert_run {B} b (k : unit → outcome B) r :
  (assert_ b ≫= k) = Done r → b = true ∧ k tt = Done r.
Proof. by destruct b. Qed.

Lemma decanonical_range_run s e r : decanonical_range s e = Done r → range_ok s e.
Proof.
  unfold decanonical_range. intros [He H]%oassert_run. apply oassert_run in H as [Hs _].
  apply negb_true_iff, Z.eqb_neq in He. apply orb_true_iff in Hs. split; [done|].
  destruct Hs as [?%Z.ltb_lt|?%Z.eqb_eq]; [by left|by right].
Qed.
(** The arguments of an allocation that returns. *)
Lemma alloc_args ials M R h size alignment pat strat o r :
  alloc_inv ials M R → M !! h = None →
  intel_allocator_simple_alloc ials h size alignment pat strat o = Done r →
  h ≠ 0 ∧ 0 < size ∧ 0 < alignment.
Proof.
  intros H HM. unfold intel_allocator_simple_alloc. intros [Hh Hr]%assert_run.
  rewrite (mi_search_ok _ _ h (ai_objects _ _ _ H)), HM in Hr.
  apply C_bind_inv in Hr as (x & o1 & Hx & Hr). simpl in Hx. simplify_eq.
  apply C_bind_inv in Hr as (y & o2 & Hy & _). unfold simple_vma_heap_alloc in Hy.
  apply assert_run in Hy as [Hs Hy]. apply assert_run in Hy as [Hal _].
  apply negb_true_iff, Z.eqb_neq in Hh. apply Z.ltb_lt in Hs, Hal. done.
Qed.
(** The range of a reservation that returns. *)
Lemma reserve_args ials M R h s e o r :
  alloc_inv ials M R → intel_allocator_simple_reserve ials h s e o = Done r →
  range_ok s e ∧ start ials ≤ DECANONICAL s ∧ decanonical_end e ≤ end_ ials.
Proof.
  intros H Hr. unfold intel_allocator_simple_reserve in Hr.
  apply C_bind_inv in Hr as ([s' n] & o1 & Hd & Hr). unfold lift in Hd.
  destruct (decanonical_range s e) as [p| |] eqn:Ep; simplify_eq.
  pose proof (decanonical_range_run _ _ _ Ep) as Hok.
  destruct (decanonical_range_ok _ _ Hok) as (Hdr & Hb & He). rewrite Hdr in Ep. simplify_eq.
  apply assert_run in Hr as [H1 Hr]. apply assert_run in Hr as [H2 _].
  apply Z.leb_le in H1, H2. rewrite u64_small in H1 by (unfold in_u64; lia). split_and!; [done|lia..].
Qed.

Lemma alloc_preserves ials M R h size alignment pat strat off ials' o o' :
  alloc_inv ials M R → in_u64 alignment → allocated_objects ials < 2 ^ 30 → no_oom o →
  intel_allocator_simple_alloc ials h size alignment pat strat o = Done ((off, ials'), o') →
  ∃ M', alloc_inv ials' M' R.
Proof.
  intros H Hal Hc Ho Hr. destruct (M !! h) as [r|] eqn:E.
  - exists M. destruct (decide (h = 0)) as [->|Hh].
    { by unfold intel_allocator_simple_alloc in Hr; apply assert_run in Hr as [? _]. }
    rewrite (alloc_again_ok ials M R h _ _ _ _ r o H Hh E) in Hr.
    destruct (_ && _); by simplify_eq.
  - destruct (alloc_args _ _ _ _ _ _ _ _ _ _ H E Hr) as (Hh & Hs & Ha).
    destruct Hal as [_ Hal]. destruct (ai_allocated _ _ _ H) as [_ Hsz].
    pose proof (wp_run _ _ _ _ _ (alloc_new_ok ials M R h size alignment pat strat o H E Hh Hs
      (conj Ha Hal) ltac:(lia) Ho) Hr) as [_ [(_ & -> & _)|(_ & _ & _ & Hi)]]; by eexists.
Qed.

Lemma step_preserves ials ials' M R :
  allocator_step ials ials' → alloc_inv ials M R → ∃ M' R', alloc_inv ials' M' R'.
Proof.
  intros Hst H. destruct Hst as [ials h size al pat strat off ials' o o' _ Hal Hc Ho Hr
    |ials h b ials' o o' Ho Hr|ials h s e b ials' o o' Hc Ho Hr|ials h s e b ials' o o' Ho Hr].
  - destruct (alloc_preserves _ _ _ _ _ _ _ _ _ _ _ _ H Hal Hc Ho Hr) as [M' H']. by exists M', R.
  - pose proof (wp_run _ _ _ _ _ (free_ok ials M R h o H Ho) Hr) as [_ Hp].
    destruct (M !! h); [destruct Hp as (_ & Hp & _)|destruct Hp as [_ ->]]; by do 2 eexists.
  - destruct (reserve_args _ _ _ _ _ _ _ _ H Hr) as (Hok & Hlo & Hhi).
    destruct (ai_areas _ _ _ H) as [_ Hsz].
    pose proof (wp_run _ _ _ _ _ (reserve_ok ials M R h s e o H Hok Hlo Hhi ltac:(lia) Ho) Hr) as [_ Hp].
    destruct b; [destruct Hp as (_ & _ & Hp)|destruct Hp as [-> _]]; by do 2 eexists.
  - assert (range_ok s e) as Hok.
    { unfold intel_allocator_simple_unreserve in Hr. apply C_bind_inv in Hr as (p & ? & Hd & _).
      unfold lift in Hd. destruct (decanonical_range s e) eqn:E; simplify_eq.
      by apply decanonical_range_run in E. }
    pose proof (wp_run _ _ _ _ _ (unreserve_ok ials M R h s e o H Hok Ho) Hr) as [_ Hp].
    destruct (R !! DECANONICAL s); [destruct (_ && _); [destruct Hp as (_ & Hp & _)|]|];
      try destruct Hp as [_ ->]; by do 2 eexists.
Qed.

Lemma reachable_inv ials : allocator_reachable ials → ∃ M R, alloc_inv ials M R.
Proof.
  induction 1 as [s e strat ials o o' Hs He Ho Hr|ials ials' _ (M & R & H) Hst].
  - pose proof (wp_run _ _ _ _ _ (create_ok s e strat o Hs He Ho) Hr) as (_ & H & _).
    by exists ∅, ∅.
  - by eapply step_preserves.
Qed.

(** ** What the partition means for records *)
Definition disjoint_recs (r1 r2 : intel_allocator_record) : Prop :=
  r_offset r1 + r_size r1 ≤ r_offset r2 ∨ r_offset r2 + r_size r2 ≤ r_offset r1.

Lemma partition_disjoint ials M R r1 r2 rest :
  alloc_inv ials M R → ranges M ++ ranges R ≡ₚ range_of r1 :: range_of r2 :: rest →
  0 < r_size r1 → 0 < r_size r2 → disjoint_recs r1 r2.
Proof.
  intros H Hp H1 H2. unfold disjoint_recs.
  destruct (decide (r_offset r1 + r_size r1 ≤ r_offset r2)) as [?|Hn]; [by left|].
  destruct (decide (r_offset r2 + r_size r2 ≤ r_offset r1)) as [?|Hn']; [by right|].
  exfalso. set (a := Z.max (r_offset r1) (r_offset r2)).
  pose proof (ai_partition _ _ _ H a) as Ha. rewrite <-Z.add_assoc, <-cover_app, Hp in Ha.
  simpl in Ha. pose proof (cover_nonneg (holes (heap ials)) a). pose proof (cover_nonneg rest a).
  pose proof (within_0_1 (Hole (start ials) (end_ ials - start ials)) a).
  destruct (within_spec (range_of r1) a) as [[_ ?]|[Hw _]];
    destruct (within_spec (range_of r2) a) as [[_ ?]|[Hw' _]]; simpl in *; lia.
Qed.

Lemma ranges_two M k1 k2 r1 r2 : k1 ≠ k2 → M !! k1 = Some r1 → M !! k2 = Some r2 →
  ranges M ≡ₚ range_of r1 :: range_of r2 :: ranges (delete k2 (delete k1 M)).
Proof.
  intros Hk E1 E2. rewrite (ranges_delete M k1 r1 E1), (ranges_delete _ k2 r2); [done|].
  by rewrite lookup_delete_ne.
Qed.
Lemma objects_disjoint ials M R k1 k2 r1 r2 : alloc_inv ials M R → k1 ≠ k2 →
  M !! k1 = Some r1 → M !! k2 = Some r2 → disjoint_recs r1 r2.
Proof.
  intros H Hk E1 E2. destruct (ai_recs _ _ _ H) as [HM _].
  eapply partition_disjoint; [done| |by eapply HM|by eapply HM].
  rewrite (ranges_two M k1 k2 r1 r2) by done. simpl. reflexivity.
Qed.
Lemma areas_disjoint ials M R k1 k2 r1 r2 : alloc_inv ials M R → k1 ≠ k2 →
  R !! k1 = Some r1 → R !! k2 = Some r2 → disjoint_recs r1 r2.
Proof.
  intros H Hk E1 E2. destruct (ai_recs _ _ _ H) as [_ HR].
  eapply partition_disjoint; [done| |by eapply HR|by eapply HR].
  rewrite (ranges_two R k1 k2 r1 r2), (Permutation_app_comm (ranges M)) by done. simpl. reflexivity.
Qed.
Lemma object_area_disjoint ials M R k1 k2 r1 r2 : alloc_inv ials M R →
  M !! k1 = Some r1 → R !! k2 = Some r2 → disjoint_recs r1 r2.
Proof.
  intros H E1 E2. destruct (ai_recs _ _ _ H) as [HM HR].
  eapply partition_disjoint; [done| |by eapply HM|by eapply HR].
  rewrite (ranges_delete M k1 r1 E1), (ranges_delete R k2 r2 E2).
  simpl. rewrite <-Permutation_middle. reflexivity.
Qed.
Lemma record_bounds ials M R k r : alloc_inv ials M R → (M !! k = Some r ∨ R !! k = Some r) →
  start ials ≤ r_offset r ∧ r_offset r + r_size r ≤ end_ ials.
Proof.
  intros H Hk. destruct (ai_recs _ _ _ H) as [HM HR].
  apply (range_bounds ials M R (range_of r) H).
  - rewrite !elem_of_app. right. destruct Hk as [E|E]; [left|right]; by eapply ranges_elem.
  - destruct Hk as [E|E]; [by eapply HM|by eapply HR].
Qed.
End steps.
