(* ===== verification/IgtProps.v ===== *)
(** * igt: the theorems

    The contracts of the list, the hash map, the heap of free ranges and the
    simple allocator, and a concrete instance of each that has hypotheses. *)

From S2P Require Import Prelude IgtList IgtMap IgtMapSpec IgtMapIface.
From S2P Require Import IgtHeap IgtHeapSpec IgtAllocator IgtAllocatorSpec IgtAllocatorSteps.

(** ** The list *)

(** Editing a list: on a well-linked circular list, [igt_list_add] after
    any element inserts there, [igt_list_add_tail] appends, and [igt_list_del]
    unlinks exactly the element and nulls its pointers; no node outside the
    list and the element is touched. *)
Theorem list_edit_refines (h : gmap nat igt_list_head) head l1 p l2 e :
  ring h head (l1 ++ p :: l2) → e ∉ head :: l1 ++ p :: l2 → is_Some (h !! e) →
  wp (igt_list_add e (Some p)) (λ _ h', ring h' head (l1 ++ p :: e :: l2) ∧
    frame h h' (e :: head :: l1 ++ p :: l2)) h ∧
  wp (igt_list_add_tail e (Some head)) (λ _ h', ring h' head ((l1 ++ p :: l2) ++ [e]) ∧
    frame h h' (e :: head :: l1 ++ p :: l2)) h ∧
  wp (igt_list_del p) (λ _ h', ring h' head (l1 ++ l2) ∧ frame h h' (head :: l1 ++ p :: l2) ∧
    h' !! p = Some (ListHead None None)) h.
Proof.
  intros Hr He Ha. split_and!.
  - by apply wp_add_after.
  - by apply wp_add_tail.
  - by apply wp_del_elem.
Qed.
(** Nodes 0 (the sentinel), 1 and 2 in a ring; node 3 is free. *)
Definition demo_mem : gmap nat igt_list_head :=
  {[ 0%nat := ListHead (Some 2%nat) (Some 1%nat);
     1%nat := ListHead (Some 0%nat) (Some 2%nat);
     2%nat := ListHead (Some 1%nat) (Some 0%nat);
     3%nat := ListHead None None ]}.
Lemma demo_ring : ring demo_mem 0 [1%nat; 2%nat].
Proof.
  split; [vm_compute; repeat split; reflexivity|].
  apply (bool_decide_unpack _). vm_compute. reflexivity.
Qed.
Lemma list_edit_refines_witness :
  wp (igt_list_add 3 (Some 1%nat)) (λ _ h', ring h' 0 [1%nat; 3%nat; 2%nat] ∧
    frame demo_mem h' [3%nat; 0%nat; 1%nat; 2%nat]) demo_mem.
Proof.
  refine (proj1 (list_edit_refines demo_mem 0 [] 1 [2%nat] 3 demo_ring _ _)).
  - apply (bool_decide_unpack _). vm_compute. reflexivity.
  - vm_compute. eexists. reflexivity.
Defined.

(** Traversal terminates and is exact: on a list of [n] elements (with any
    fuel above [n]) [igt_list_length] returns [n], [igt_list_empty] whether [n]
    is 0, and the forward and backward iterations visit the elements in order
    and in reverse order, without changing memory. *)
Theorem list_traversal (h : gmap nat igt_list_head) head l fuel :
  ring h head l → (length l < fuel)%nat → Z.of_nat (length l) < 2 ^ 31 →
  wp (igt_list_length fuel head) (λ n h', h' = h ∧ n = Z.of_nat (length l)) h ∧
  wp (igt_list_empty head) (λ b h', h' = h ∧ b = bool_decide (l = [])) h ∧
  wp (for_each_entry fuel head (nxt h head)) (λ x h', h' = h ∧ x = l) h ∧
  wp (for_each_entry_reverse fuel head (prv h head)) (λ x h', h' = h ∧ x = reverse l) h.
Proof.
  intros Hr Hf Hl. destruct (id Hr) as [Hp Hnd]. apply NoDup_cons in Hnd as [Hh _]. split_and!.
  - by apply wp_length.
  - by apply wp_empty.
  - by apply wp_for_each.
  - by apply wp_for_each_reverse.
Qed.
Lemma list_traversal_witness :
  wp (for_each_entry_reverse 3 0 (prv demo_mem 0)) (λ x h', h' = demo_mem ∧ x = [2%nat; 1%nat])
    demo_mem.
Proof.
  refine (proj2 (proj2 (proj2 (list_traversal demo_mem 0 [1%nat; 2%nat] 3 demo_ring _ _))));
    simpl; lia.
Defined.

(** ** The hash map *)

(** Hash keys of the two kinds the library provides. *)
#[local] Instance key_32 : HashKey Z.
Proof.
  refine {| hash_function := igt_map_hash_32; key_equals_function := igt_map_equal_32 |}.
  - intros k. apply wrap_range. lia.
  - intros k k'. unfold igt_map_equal_32. by destruct (Z.eqb_spec k k'); symmetry; [apply bool_decide_true|apply bool_decide_false].
Defined.
#[local] Instance key_64 : HashKey Z | 100.
Proof.
  refine {| hash_function := igt_map_hash_64; key_equals_function := igt_map_equal_64 |}.
  - intros k. apply wrap_range. lia.
  - intros k k'. unfold igt_map_equal_64. by destruct (Z.eqb_spec k k'); symmetry; [apply bool_decide_true|apply bool_decide_false].
Defined.

(** C28. Search refines lookup: in a well-formed table (of any of the first
    thirty sizes) [igt_map_search] terminates and returns the data bound to the
    key, and NULL exactly when the key is unbound or bound to NULL. *)
Theorem map_search_refines {K D} `{!EqDecision K, !Countable K, !HashKey K}
    (m : igt_map K D) (M : gmap K (option D)) k :
  rep hash_function m M →
  igt_map_search hash_function key_equals_function m k = Done (mjoin (M !! k)).
Proof. intros H. by apply search_ok; [apply hk_equal|]. Qed.
(** Three keys inserted into a new map, which rehashes it once. *)
Definition demo_fill : outcome (igt_map Z Z * list bool) :=
  (('(m, _) ← igt_map_insert igt_map_hash_32 igt_map_equal_32
                (empty_map 0 (HashSize 2 5 3)) (Some 7) (Some 70);
    '(m, _) ← igt_map_insert igt_map_hash_32 igt_map_equal_32 m (Some 8) (Some 80);
    '(m, _) ← igt_map_insert igt_map_hash_32 igt_map_equal_32 m (Some 9) (Some 90);
    mret m) : C (list bool) (igt_map Z Z)) [].
Definition demo_map : igt_map Z Z :=
  match demo_fill with Done (m, _) => m | _ => empty_map 0 (HashSize 2 5 3) end.
Definition demo_bindings : gmap Z (option Z) :=
  <[9 := Some 90]> (<[8 := Some 80]> (<[7 := Some 70]> ∅)).
Lemma demo_map_rep : rep hash_function demo_map demo_bindings.
Proof.
  unfold demo_map, demo_fill. pose proof (rep_empty (D:=Z) hash_function 0 (HashSize 2 5 3) eq_refl ltac:(vm_compute; lia)) as H0.
  assert (∀ m M k d o, rep (D:=Z) hash_function m M → (base.size M < 5)%nat → no_oom o →
    ∃ m' i o', igt_map_insert igt_map_hash_32 igt_map_equal_32 m (Some k) d o = Done ((m', i), o') ∧
      rep hash_function m' (<[k := d]> M) ∧ no_oom o') as Hins.
  { intros m M k d o Hm Hs Ho.
    pose proof (wp_shrinks _ (λ r, insert_post hash_function m M k d o r) o
      (shrinks_insert _ _ _ _ _ _) Ho
      (insert_fuel_ok hash_function key_equals_function hk_range hk_equal 0 m M k d o Hm ltac:(lia))) as Hw.
    apply wp_inv in Hw as ([m' [i|]] & o' & Hrun & Ho' & Hpost).
    - exists m', (Some i), o'. split; [exact Hrun|]. by destruct Hpost as (_ & _ & Hr & _).
    - exfalso. destruct Hpost as (_ & _ & _ & _ & Hh & _). by apply no_oom_head in Ho. }
  destruct (Hins _ _ 7 (Some 70) [] H0) as (m1 & i1 & o1 & E1 & H1 & Ho1); [vm_compute; lia|constructor|].
  destruct (Hins _ _ 8 (Some 80) o1 H1) as (m2 & i2 & o2 & E2 & H2 & Ho2); [vm_compute; lia|done|].
  destruct (Hins _ _ 9 (Some 90) o2 H2) as (m3 & i3 & o3 & E3 & H3 & Ho3); [vm_compute; lia|done|].
  by rewrite (C_bind_Done _ _ _ _ _ E1), (C_bind_Done _ _ _ _ _ E2), (C_bind_Done _ _ _ _ _ E3).
Qed.
Lemma map_search_refines_witness :
  igt_map_search igt_map_hash_32 igt_map_equal_32 demo_map 8 = Done (Some 80) ∧
  igt_map_search igt_map_hash_32 igt_map_equal_32 demo_map 6 = Done None.
Proof.
  split.
  - exact (map_search_refines demo_map demo_bindings 8 demo_map_rep).
  - exact (map_search_refines demo_map demo_bindings 6 demo_map_rep).
Defined.

(** C29. Insertion refines map update, rehashing included, with three levels of
    insert/rehash nesting whatever [calloc] answers, in a map of less than 2^30
    keys: either the binding is
    there (all others kept) and the returned entry holds it, or the map is
    unchanged, its table was completely full and the allocation of a larger one
    failed. No entry is ever lost by a rehash. *)
Theorem map_insert_refines {K D} `{!EqDecision K, !Countable K, !HashKey K}
    (m : igt_map K D) (M : gmap K (option D)) k d (o : list bool) :
  rep hash_function m M → Z.of_nat (base.size M) < 2 ^ 30 →
  wp (igt_map_insert hash_function key_equals_function m (Some k) d) (λ '(m', i) _, match i with
    | Some i => rep hash_function m' (<[k := d]> M) ∧
        table m' !! i = Some (Entry (hash_function k) (Ptr k) d)
    | None => m' = m ∧ entries m = size m ∧ head o = Some true ∧ M !! k = None
    end) o.
Proof.
  intros H HM. eapply wp_mono; [by apply (insert_fuel_ok _ _ hk_range hk_equal 0)|].
  intros [m' [i|]] o'; unfold insert_post; tauto.
Qed.
Lemma map_insert_refines_witness :
  wp (igt_map_insert igt_map_hash_32 igt_map_equal_32 demo_map (Some 8) (Some 81)) (λ '(m', i) _,
    match i with
    | Some i => rep hash_function m' (<[8 := Some 81]> demo_bindings) ∧
        table m' !! i = Some (Entry (igt_map_hash_32 8) (Ptr 8) (Some 81))
    | None => m' = demo_map ∧ entries demo_map = size demo_map ∧
        head [false; true] = Some true ∧ demo_bindings !! 8 = None
    end) [false; true].
Proof.
  refine (map_insert_refines demo_map demo_bindings 8 (Some 81) [false; true] demo_map_rep _).
  vm_compute. reflexivity.
Defined.

(** Removal refines deletion: [igt_map_remove] unbinds the key and keeps
    every other binding; without a delete function an absent key changes
    nothing. *)
Theorem map_remove_refines {K D} `{!EqDecision K, !Countable K, !HashKey K}
    (m : igt_map K D) (M : gmap K (option D)) k :
  rep hash_function m M →
  owp (igt_map_remove hash_function key_equals_function m k None)
    (λ m', rep hash_function m' (delete k M) ∧ (M !! k = None → m' = m)).
Proof.
  intros H. unfold igt_map_remove. wps.
  eapply owp_mono; [by apply (search_entry_ok _ _ hk_equal m M k)|]. intros [i|]; wps.
  - intros (e & He & Hk & HM). eapply owp_mono; [by eapply remove_entry_ok|].
    intros m' [H' _]. split; [done|congruence].
  - intros HM. by rewrite delete_id.
Qed.
Lemma map_remove_refines_witness :
  owp (igt_map_remove igt_map_hash_32 igt_map_equal_32 demo_map 8 None)
    (λ m', rep hash_function m' (delete 8 demo_bindings) ∧
           (demo_bindings !! 8 = None → m' = demo_map)).
Proof. exact (map_remove_refines demo_map demo_bindings 8 demo_map_rep). Defined.

(** A callback that reads its entry. *)
Definition read_entry {K D} (e : option (igt_map_entry K D)) : outcome unit :=
  match e with Some _ => Done tt | None => Undef end.

(** [igt_map_remove] passes NULL to the delete function when the key is
    not in the map: a callback that reads its entry (as every one in the
    library does) is then undefined. *)
Theorem map_remove_absent_callback {K D} `{!EqDecision K, !Countable K, !HashKey K}
    (m : igt_map K D) (M : gmap K (option D)) k :
  rep hash_function m M → M !! k = None →
  igt_map_remove hash_function key_equals_function m k (Some read_entry) = Undef.
Proof.
  intros H HM. pose proof (search_entry_ok _ _ hk_equal m M k H) as Hs.
  apply owp_inv in Hs as ([i|] & Hrun & Hpost).
  - destruct Hpost as (e & _ & _ & Hsome). congruence.
  - unfold igt_map_remove. by rewrite Hrun.
Qed.
Lemma map_remove_absent_callback_witness :
  igt_map_remove igt_map_hash_32 igt_map_equal_32 demo_map 6 (Some read_entry) = Undef.
Proof. exact (map_remove_absent_callback demo_map demo_bindings 6 demo_map_rep eq_refl). Defined.

(** Iteration visits exactly the bindings: [igt_map_foreach] terminates
    and yields, each once, the entries that hold a key, and their keys and
    data are the map's; the entry count is the number of bindings. *)
Theorem map_foreach_exact {K D} `{!EqDecision K, !Countable K, !HashKey K}
    (m : igt_map K D) (M : gmap K (option D)) :
  rep hash_function m M →
  owp (igt_map_foreach m) (λ l, bindings l ≡ₚ map_to_list M ∧
    Z.of_nat (length l) = entries m ∧ entries m = Z.of_nat (base.size M)).
Proof.
  intros H. rewrite foreach_ok. simpl. rewrite bindings_present. split_and!.
  - by rewrite (rp_map _ _ _ H), map_to_list_to_map by apply (rp_nodup _ _ _ H).
  - rewrite (rp_entries _ _ _ H), <-(bindings_present (table m)), all_present; [done|].
    intros i e He. apply list_elem_of_lookup_2, list_elem_of_filter in He. tauto.
  - by eapply rep_size.
Qed.
Lemma map_foreach_exact_witness :
  owp (igt_map_foreach demo_map) (λ l, bindings l ≡ₚ map_to_list demo_bindings ∧
    Z.of_nat (length l) = entries demo_map ∧ entries demo_map = Z.of_nat (base.size demo_bindings)).
Proof. exact (map_foreach_exact demo_map demo_bindings demo_map_rep). Defined.

(** ** The heap of free ranges *)

(** C30. Allocation from the heap is sound, complete and optimal: when no
    allocation of a hole fails, no assertion fails either, and it returns an aligned offset at which the whole size is
    free, the highest one (strategy high-to-low) or the lowest one
    (low-to-high), and exactly those addresses stop being free; or it fails
    and no aligned offset has the size free. *)
Theorem heap_alloc_optimal E (heap : simple_vma_heap) size alignment strat o :
  0 ≤ E < 2 ^ 64 → holes_below E (holes heap) → 0 < size → 0 < alignment < 2 ^ 64 → no_oom o →
  wp (simple_vma_heap_alloc heap size alignment strat) (λ r _, match r with
    | Some (off, l') => feasible (holes heap) size alignment off ∧
        (∀ off', feasible (holes heap) size alignment off' →
                 better_of (effective_strategy heap strat) off' off) ∧
        holes_below E l' ∧
        ∀ a, cover l' a + within (Hole off size) a = cover (holes heap) a
    | None => ∀ off', ¬ feasible (holes heap) size alignment off'
    end) o.
Proof.
  intros HE Hl Hs Hal Ho. eapply wp_mono; [by apply (heap_alloc_ok E HE)|].
  by intros [[off l']|] o' [_ Hpost].
Qed.
(** Three holes, from high to low. *)
Definition demo_holes : list simple_vma_hole := [Hole 4096 100; Hole 1024 512; Hole 16 64].
Lemma demo_holes_below : holes_below 8192 demo_holes.
Proof. simpl. lia. Qed.
Lemma heap_alloc_optimal_witness :
  wp (simple_vma_heap_alloc (Heap demo_holes ALLOC_STRATEGY_HIGH_TO_LOW) 128 256
        ALLOC_STRATEGY_NONE) (λ r _, match r with
    | Some (off, l') => feasible demo_holes 128 256 off ∧
        (∀ off', feasible demo_holes 128 256 off' → off' ≤ off) ∧
        holes_below 8192 l' ∧ ∀ a, cover l' a + within (Hole off 128) a = cover demo_holes a
    | None => ∀ off', ¬ feasible demo_holes 128 256 off'
    end) [].
Proof.
  refine (heap_alloc_optimal 8192 (Heap demo_holes ALLOC_STRATEGY_HIGH_TO_LOW) 128 256
    ALLOC_STRATEGY_NONE [] _ demo_holes_below _ _ _); [lia..|constructor].
Defined.

(** C31. Freeing a range none of which is free, with memory for a new hole, fails
    no assertion, and makes exactly that range free; the holes stay ordered and coalesced (no
    two of them touch). *)
Theorem heap_free_exact E l offset size o :
  0 ≤ E < 2 ^ 64 → holes_below E l → 0 ≤ offset → 0 < size → offset + size ≤ E →
  (∀ a, offset ≤ a < offset + size → cover l a = 0) → no_oom o →
  wp (simple_vma_heap_free l offset size) (λ l' _, holes_below E l' ∧
    ∀ a, cover l' a = cover l a + within (Hole offset size) a) o.
Proof.
  intros HE Hl Ho Hs He Hf Hoom. eapply wp_mono; [by apply (heap_free_ok E HE)|].
  by intros l' o' [H _].
Qed.
Lemma heap_free_exact_witness :
  wp (simple_vma_heap_free demo_holes 1536 2560) (λ l' _, holes_below 8192 l' ∧
    ∀ a, cover l' a = cover demo_holes a + within (Hole 1536 2560) a) [].
Proof.
  refine (heap_free_exact 8192 demo_holes 1536 2560 [] _ demo_holes_below _ _ _ _ _);
    [lia|lia|lia|lia| |constructor].
  intros a Ha. unfold demo_holes, cover, within. simpl.
  repeat match goal with |- context [Z.leb ?x ?y] => destruct (Z.leb_spec x y) end;
  repeat match goal with |- context [Z.ltb ?x ?y] => destruct (Z.ltb_spec x y) end; simpl; lia.
Defined.

(** Double frees are caught: freeing a range of which one address is
    already free always fails an assertion, whatever the allocations do. *)
Theorem heap_double_free_caught E l offset size a o :
  0 ≤ E < 2 ^ 64 → holes_below E l → 0 ≤ offset → 0 < size → offset + size ≤ E →
  offset ≤ a < offset + size → 0 < cover l a →
  simple_vma_heap_free l offset size o = Abort.
Proof. intros HE Hl Ho Hs He Ha Hc. by eapply (heap_free_overlap E HE). Qed.
Lemma heap_double_free_caught_witness : simple_vma_heap_free demo_holes 1500 100 [] = Abort.
Proof.
  refine (heap_double_free_caught 8192 demo_holes 1500 100 1500 [] _ demo_holes_below _ _ _ _ _);
    [lia..|reflexivity].
Defined.

(** Freeing undoes allocating: after a successful allocation, freeing the
    range returned gives back the very same list of holes, so no sequence of
    such pairs fragments the address space. *)
Theorem heap_alloc_free_restores E (heap : simple_vma_heap) size alignment strat off l' o o' :
  0 ≤ E < 2 ^ 64 → holes_below E (holes heap) → 0 < size → 0 < alignment < 2 ^ 64 → no_oom o →
  simple_vma_heap_alloc heap size alignment strat o = Done (Some (off, l'), o') →
  wp (simple_vma_heap_free l' off size) (λ l _, l = holes heap) o'.
Proof.
  intros HE Hl Hs Hal Ho Hrun.
  pose proof (wp_run _ _ _ _ _ (heap_alloc_ok E HE heap size alignment strat o Hl Hs Hal Ho) Hrun)
    as (Ho' & (h & Hh & _ & Hlo & Hhi) & _ & Hl' & Hc).
  destruct (below_elem _ _ _ Hl Hh) as (? & ? & ?).
  eapply wp_mono; [apply (heap_free_ok E HE); [done|lia|done|lia| |done]|].
  - intros a Ha. specialize (Hc a). pose proof (cover_nonneg l' a).
    pose proof (cover_0_1 _ _ a Hl). destruct (within_spec (Hole off size) a) as [[_ ?]|[? _]]; simpl in *; lia.
  - intros l o'' [[Hb Hc'] _]. eapply holes_canonical; [done..|]. intros a. by rewrite Hc', Hc.
Qed.
Lemma heap_alloc_free_restores_witness :
  wp (simple_vma_heap_free [Hole 4096 100; Hole 1408 128; Hole 1024 256; Hole 16 64] 1280 128)
    (λ l _, l = demo_holes) [].
Proof.
  refine (heap_alloc_free_restores 8192 (Heap demo_holes ALLOC_STRATEGY_HIGH_TO_LOW) 128 256
    ALLOC_STRATEGY_NONE 1280 _ [] [] _ demo_holes_below _ _ _ _); [lia..|constructor|reflexivity].
Defined.

(** ** The simple allocator *)

(** The two maps the allocator creates: objects by 32-bit handle, reserved
    areas by 64-bit offset. *)
Definition map_impl_32 : MapImpl (igt_map Z intel_allocator_record) Z intel_allocator_record :=
  igt_map_impl (HashKey0 := key_32).
Definition map_impl_64 : MapImpl (igt_map Z intel_allocator_record) Z intel_allocator_record :=
  igt_map_impl (HashKey0 := key_64).
Definition simple : Type :=
  intel_allocator_simple (igt_map Z intel_allocator_record) (igt_map Z intel_allocator_record).
Definition result {A} (d : A) (r : outcome (A * list bool)) : A :=
  match r with Done (a, _) => a | _ => d end.
Definition demo_none : simple :=
  Simple (empty_map 0 (HashSize 2 5 3)) (empty_map 0 (HashSize 2 5 3))
    (Heap [] ALLOC_STRATEGY_NONE) 0 0 0 0 0 0 0.
(** A new allocator over 4096 .. 2^20, an object in it, a reserved area. *)
Definition demo_new : simple := result demo_none
  (intel_allocator_simple_create (MapImpl0 := map_impl_32) (MapImpl1 := map_impl_64)
     4096 (2 ^ 20) ALLOC_STRATEGY_LOW_TO_HIGH []).
Definition demo_one : simple := snd (result (0, demo_none)
  (intel_allocator_simple_alloc (MapImpl0 := map_impl_32) demo_new 7 8192 4096 0
     ALLOC_STRATEGY_NONE [])).
Definition demo_two : simple := snd (result (false, demo_none)
  (intel_allocator_simple_reserve (MapImpl1 := map_impl_64) demo_one 9 65536 131072 [])).
Lemma demo_new_reachable :
  allocator_reachable (MapImpl0 := map_impl_32) (MapImpl1 := map_impl_64) demo_new.
Proof.
  apply (reach_create 4096 (2 ^ 20) ALLOC_STRATEGY_LOW_TO_HIGH demo_new [] []);
    [lia|lia|constructor|vm_compute; reflexivity].
Qed.
Lemma demo_one_reachable :
  allocator_reachable (MapImpl0 := map_impl_32) (MapImpl1 := map_impl_64) demo_one.
Proof.
  eapply reach_step; [apply demo_new_reachable|].
  apply (step_alloc _ 7 8192 4096 0 ALLOC_STRATEGY_NONE 4096 _ [] []);
    [unfold in_u64; lia|unfold in_u64; lia|vm_compute; reflexivity|constructor|vm_compute; reflexivity].
Qed.
Lemma demo_two_reachable :
  allocator_reachable (MapImpl0 := map_impl_32) (MapImpl1 := map_impl_64) demo_two.
Proof.
  eapply reach_step; [apply demo_one_reachable|].
  apply (step_reserve _ 9 65536 131072 true _ [] []);
    [vm_compute; reflexivity|constructor|vm_compute; reflexivity].
Qed.

(** C32. The allocator never hands out an address twice: in every state that
    calls of create, alloc, free, reserve and unreserve can reach, with any
    arguments, as long as allocations succeed and there are less than 2^30
    objects and areas, the live objects and the reserved areas are pairwise disjoint
    and inside the range, and every address of the range is either free or in
    exactly one of them. *)
Theorem allocator_never_overlaps {T1 T2} `{!MapImpl T1 Z intel_allocator_record}
    `{!MapImpl T2 Z intel_allocator_record} (ials : intel_allocator_simple T1 T2) :
  allocator_reachable ials → ∃ M R : gmap Z intel_allocator_record,
    mi_rep (objects ials) M ∧ mi_rep (reserved ials) R ∧
    (∀ h1 h2 r1 r2, h1 ≠ h2 → M !! h1 = Some r1 → M !! h2 = Some r2 → disjoint_recs r1 r2) ∧
    (∀ h k r1 r2, M !! h = Some r1 → R !! k = Some r2 → disjoint_recs r1 r2) ∧
    (∀ k1 k2 r1 r2, k1 ≠ k2 → R !! k1 = Some r1 → R !! k2 = Some r2 → disjoint_recs r1 r2) ∧
    (∀ k r, M !! k = Some r ∨ R !! k = Some r →
      start ials ≤ r_offset r ∧ r_offset r + r_size r ≤ end_ ials) ∧
    ∀ a, start ials ≤ a < end_ ials →
      cover (holes (heap ials)) a + cover (ranges M) a + cover (ranges R) a = 1.
Proof.
  intros (M & R & H)%reachable_inv. exists M, R. split_and!; [apply H|apply H|..].
  - intros h1 h2 r1 r2. by apply (objects_disjoint ials M R).
  - intros h k r1 r2. by apply (object_area_disjoint ials M R).
  - intros k1 k2 r1 r2. by apply (areas_disjoint ials M R).
  - intros k r. by apply (record_bounds ials M R).
  - intros a Ha. rewrite (ai_partition _ _ _ H a).
    destruct (within_spec (Hole (start ials) (end_ ials - start ials)) a) as [[_ ?]|[? _]]; simpl in *; lia.
Qed.
Lemma allocator_never_overlaps_witness :
  ∃ M R, mi_rep (MapImpl := map_impl_32) (objects demo_two) M ∧
         mi_rep (MapImpl := map_impl_64) (reserved demo_two) R.
Proof.
  destruct (allocator_never_overlaps (MapImpl0 := map_impl_32) (MapImpl1 := map_impl_64)
    demo_two demo_two_reachable) as (M & R & H1 & H2 & _). by exists M, R.
Defined.

(** C33. Allocating an object, when no allocation fails and there are less than
    2^30 objects: a handle that has an object gets its offset
    back when size and pat index agree, and fails an assertion otherwise; a new
    handle gets the extreme free aligned offset for its strategy and is
    recorded with it, or the invalid address, with the state unchanged, when
    the size fits nowhere. *)
Theorem allocator_alloc_contract {T1 T2} `{!MapImpl T1 Z intel_allocator_record}
    `{!MapImpl T2 Z intel_allocator_record} (ials : intel_allocator_simple T1 T2)
    M R h size alignment pat strat o :
  alloc_inv ials M R → h ≠ 0 → 0 < size → 0 < alignment < 2 ^ 64 →
  Z.of_nat (base.size M) < 2 ^ 30 → no_oom o →
  match M !! h with
  | Some r =>
      intel_allocator_simple_alloc ials h size alignment pat strat o =
      if (r_size r =? size) && (pat_index r =? pat) then Done ((r_offset r, ials), o) else Abort
  | None =>
      wp (intel_allocator_simple_alloc ials h size alignment pat strat)
        (λ '(off, ials') _,
          (off = ALLOC_INVALID_ADDRESS ∧ ials' = ials ∧
           ∀ o', ¬ feasible (holes (heap ials)) size alignment o') ∨
          (feasible (holes (heap ials)) size alignment off ∧
           (∀ o', feasible (holes (heap ials)) size alignment o' →
                  better_of (effective_strategy (heap ials) strat) o' off) ∧
           alloc_inv ials' (<[h := AllocRec h off size pat]> M) R)) o
  end.
Proof.
  intros H Hh Hs Hal Hsz Ho. destruct (M !! h) as [r|] eqn:E.
  - by eapply alloc_again_ok.
  - eapply wp_mono; [by apply alloc_new_ok|]. intros [off ials'] o' [_ Hp]. unfold alloc_result in Hp. tauto.
Qed.
Lemma demo_new_inv : alloc_inv (MapImpl0 := map_impl_32) (MapImpl1 := map_impl_64) demo_new ∅ ∅.
Proof.
  refine (proj1 (proj2 (wp_run _ _ _ _ _ (create_ok (MapImpl0 := map_impl_32)
    (MapImpl1 := map_impl_64) 4096 (2 ^ 20) ALLOC_STRATEGY_LOW_TO_HIGH [] _ _ _) _)));
    [lia|lia|constructor|vm_compute; reflexivity].
Qed.
Lemma allocator_alloc_contract_witness :
  wp (intel_allocator_simple_alloc (MapImpl0 := map_impl_32) demo_new 7 8192 4096 0
        ALLOC_STRATEGY_NONE)
    (λ '(off, ials') _,
      (off = ALLOC_INVALID_ADDRESS ∧ ials' = demo_new ∧
       ∀ o', ¬ feasible (holes (heap demo_new)) 8192 4096 o') ∨
      (feasible (holes (heap demo_new)) 8192 4096 off ∧
       (∀ o', feasible (holes (heap demo_new)) 8192 4096 o' → o' >= off) ∧
       alloc_inv (MapImpl0 := map_impl_32) (MapImpl1 := map_impl_64) ials'
         (<[7 := AllocRec 7 off 8192 0]> ∅) ∅)) [].
Proof.
  refine (allocator_alloc_contract (MapImpl0 := map_impl_32) (MapImpl1 := map_impl_64) demo_new
    ∅ ∅ 7 8192 4096 0 ALLOC_STRATEGY_NONE [] demo_new_inv _ _ _ _ _);
    [lia|lia|lia|vm_compute; reflexivity|constructor].
Defined.

(** Freeing an object succeeds exactly for a handle that has one, never
    fails an assertion, returns exactly the object's range to the holes and
    forgets the handle; the state is otherwise unchanged. *)
Theorem allocator_free_contract {T1 T2} `{!MapImpl T1 Z intel_allocator_record}
    `{!MapImpl T2 Z intel_allocator_record} (ials : intel_allocator_simple T1 T2) M R h o :
  alloc_inv ials M R → no_oom o →
  wp (intel_allocator_simple_free ials h) (λ '(b, ials') _, match M !! h with
    | Some r => b = true ∧ alloc_inv ials' (delete h M) R ∧
        (∀ a, cover (holes (heap ials')) a = cover (holes (heap ials)) a + within (range_of r) a)
    | None => b = false ∧ ials' = ials
    end) o.
Proof.
  intros H Ho. eapply wp_mono; [by apply free_ok|]. intros [b ials'] o' [_ Hp].
  destruct (M !! h); [|done]. destruct Hp as (? & ? & _ & ?). done.
Qed.
Lemma allocator_free_contract_witness :
  wp (intel_allocator_simple_free (MapImpl0 := map_impl_32) demo_new 7)
    (λ '(b, ials') _, b = false ∧ ials' = demo_new) [].
Proof.
  refine (allocator_free_contract (MapImpl0 := map_impl_32) (MapImpl1 := map_impl_64) demo_new
    ∅ ∅ 7 [] demo_new_inv _). constructor.
Defined.

(** Reserving a range inside the allocator's succeeds exactly when the
    whole (decanonicalised) range is free, and takes exactly it; unreserving
    succeeds exactly for a whole reserved area by its holder, and gives exactly
    it back; otherwise both return false and change nothing. *)
Theorem allocator_reserve_contract {T1 T2} `{!MapImpl T1 Z intel_allocator_record}
    `{!MapImpl T2 Z intel_allocator_record} (ials : intel_allocator_simple T1 T2) M R h s e o :
  alloc_inv ials M R → range_ok s e → start ials ≤ DECANONICAL s → decanonical_end e ≤ end_ ials →
  Z.of_nat (base.size R) < 2 ^ 30 → no_oom o →
  let off := DECANONICAL s in
  let size := decanonical_end e - off in
  wp (intel_allocator_simple_reserve ials h s e) (λ '(b, ials') _,
    if b : bool then feasible (holes (heap ials)) size 1 off ∧
      alloc_inv ials' M (<[off := AllocRec h off size 0]> R)
    else ials' = ials ∧ ¬ feasible (holes (heap ials)) size 1 off) o ∧
  wp (intel_allocator_simple_unreserve ials h s e) (λ '(b, ials') _,
    match R !! off with
    | Some r => if (r_size r =? size) && (handle r =? h)
                then b = true ∧ alloc_inv ials' M (delete off R) ∧
                     (∀ a, cover (holes (heap ials')) a =
                           cover (holes (heap ials)) a + within (Hole off size) a)
                else b = false ∧ ials' = ials
    | None => b = false ∧ ials' = ials
    end) o.
Proof.
  intros H Hr Hlo Hhi Hsz Ho off size. split.
  - eapply wp_mono; [by apply reserve_ok|]. intros [[] ials'] o' [_ Hp]; fold off size in Hp; tauto.
  - eapply wp_mono; [by apply unreserve_ok|]. intros [b ials'] o' [_ Hp]. fold off size in Hp.
    destruct (R !! off) as [r|]; [|done]. destruct (_ && _); [|done].
    destruct Hp as (? & ? & _ & ?). done.
Qed.
Lemma allocator_reserve_contract_witness :
  wp (intel_allocator_simple_reserve (MapImpl1 := map_impl_64) demo_new 9 65536 131072)
    (λ '(b, ials') _, if b : bool then feasible (holes (heap demo_new)) 65536 1 65536 ∧
      alloc_inv (MapImpl0 := map_impl_32) (MapImpl1 := map_impl_64) ials' ∅
        (<[65536 := AllocRec 9 65536 65536 0]> ∅)
    else ials' = demo_new ∧ ¬ feasible (holes (heap demo_new)) 65536 1 65536) [].
Proof.
  refine (proj1 (allocator_reserve_contract (MapImpl0 := map_impl_32) (MapImpl1 := map_impl_64)
    demo_new ∅ ∅ 9 65536 131072 [] demo_new_inv _ _ _ _ _)).
  - split; [done|]. left. reflexivity.
  - vm_compute. intros [=].
  - vm_compute. intros [=].
  - vm_compute. reflexivity.
  - constructor.
Defined.

(** The audit of [intel_allocator_simple_print] never fails: in every
    reachable state all the sums it asserts agree, and the free space it
    reports is the range minus the objects and the reserved areas;
    [intel_allocator_simple_is_empty] says whether all of the range is free. *)
Theorem allocator_audit_passes {T1 T2} `{!MapImpl T1 Z intel_allocator_record}
    `{!MapImpl T2 Z intel_allocator_record} (ials : intel_allocator_simple T1 T2) full :
  allocator_reachable ials →
  owp (intel_allocator_simple_print ials full) (λ free,
    free = end_ ials - start ials - allocated_size ials - reserved_size ials ∧
    intel_allocator_simple_is_empty ials = (free =? end_ ials - start ials)).
Proof.
  intros (M & R & H)%reachable_inv. eapply owp_mono; [by apply (print_ok ials M R)|].
  intros free ->. pose proof (total_partition _ _ _ H) as Ht.
  pose proof (total_ranges_bounds _ _ _ H) as Hb.
  destruct (ai_allocated _ _ _ H) as [Ha Hc], (ai_areas _ _ _ H) as [Hr Hd]. split; [lia|].
  unfold intel_allocator_simple_is_empty. rewrite Hc, Hd.
  destruct (decide (M = ∅)) as [->|HM].
  - destruct (decide (R = ∅)) as [->|HR].
    + unfold ranges in Ht. rewrite map_to_list_empty in Ht. simpl in Ht.
      rewrite (proj2 (Z.eqb_eq (total _) _)) by lia. done.
    + apply map_size_non_empty_iff in HR. rewrite (proj2 (Z.eqb_neq (Z.of_nat (base.size R)) 0)) by lia.
      rewrite (proj2 (Z.eqb_neq (total _) _)) by lia. by rewrite andb_false_r.
  - apply map_size_non_empty_iff in HM. rewrite (proj2 (Z.eqb_neq (Z.of_nat (base.size M)) 0)) by lia.
    by rewrite (proj2 (Z.eqb_neq (total _) _)) by lia.
Qed.
Lemma allocator_audit_passes_witness :
  owp (intel_allocator_simple_print (MapImpl0 := map_impl_32) (MapImpl1 := map_impl_64) demo_two true)
    (λ free, free = end_ demo_two - start demo_two - allocated_size demo_two - reserved_size demo_two ∧
       intel_allocator_simple_is_empty demo_two = (free =? end_ demo_two - start demo_two)).
Proof.
  exact (allocator_audit_passes (MapImpl0 := map_impl_32) (MapImpl1 := map_impl_64) demo_two true
    demo_two_reachable).
Defined.
