(* ===== verification/LtpBoolExpr.v ===== *)
(** * ltp: boolean expressions ([lib/tst_bool_expr.c])

    The tokenizer, which runs twice (to count, then to fill the buffer), the
    shunting-yard translation into a linked list of tokens in postfix order,
    with the error marks it leaves, the evaluator with its stack of sixteen,
    the printer and the error report.

    A C string is the list of its characters before the NUL. A pointer into
    the expression is an offset, a pointer to a token its index in the buffer;
    an array used as a stack is the list of its live values, the top first,
    with the array's capacity checked at each push. *)

From Stdlib Require Import String Ascii.
From S2P Require Import Prelude.

Notation cstring := (list ascii).
Definition msg (s : string) : cstring := list_ascii_of_string s.

Inductive tst_op : Set :=
  TST_OP_NOT | TST_OP_AND | TST_OP_OR | TST_OP_VAR | TST_OP_LPAR | TST_OP_RPAR.
#[global] Instance tst_op_eq_dec : EqDecision tst_op.
Proof. solve_decision. Defined.

(** [next] and [priv] are NULL as [None]; [next] holds nothing meaningful until
    the list is constructed. *)
Record tst_expr_tok : Type := Token {
  op : tst_op;
  tok : nat;
  tok_len : nat;
  next : option nat;
  priv : option cstring
}.
Record tst_expr : Type := Expr {
  rpn : option nat;
  buf : list tst_expr_tok
}.
Definition set_next (t : tst_expr_tok) (n : option nat) : tst_expr_tok :=
  Token (op t) (tok t) (tok_len t) n (priv t).
Definition set_priv (t : tst_expr_tok) (m : cstring) : tst_expr_tok :=
  Token (op t) (tok t) (tok_len t) (next t) (Some m).

Definition char_to_op (c : ascii) : tst_op :=
  if Ascii.eqb c "(" then TST_OP_LPAR
  else if Ascii.eqb c ")" then TST_OP_RPAR
  else if Ascii.eqb c "&" then TST_OP_AND
  else if Ascii.eqb c "|" then TST_OP_OR
  else if Ascii.eqb c "!" then TST_OP_NOT
  else TST_OP_VAR.

(** ** The tokenizer

    [last] is [None] for the NULL of the counting pass, and otherwise the
    tokens written so far with the room left in the buffer. *)
Definition writer : Type := option (list tst_expr_tok * nat).

Definition new_tok (expr : cstring) (last : writer) (t len : nat) : outcome (Z * writer) :=
  if (len =? 0)%nat then mret (0, last) else
  match last with
  | None => mret (1, None)
  | Some (written, room) =>
      c ← access (expr !! t);
      match room with
      | O => Undef
      | S room => mret (1, Some (written ++ [Token (char_to_op c) t len None None], room))
      end
  end.

Definition is_op (c : ascii) : bool :=
  Ascii.eqb c "(" || Ascii.eqb c ")" || Ascii.eqb c "!" || Ascii.eqb c "&" || Ascii.eqb c "|".
Definition is_blank (c : ascii) : bool := Ascii.eqb c (ascii_of_nat 9) || Ascii.eqb c " ".
Definition quote : ascii := ascii_of_nat 34.

(** [while (expr[i+1] != quote && expr[i+1]) i++;
    if (expr[i+1] == quote) i++;] over the characters after [i]. *)
Fixpoint skip_quoted (rest : cstring) (i : nat) : nat :=
  match rest with
  | [] => i
  | c :: rest' => if Ascii.eqb c quote then S i else skip_quoted rest' (S i)
  end.

Fixpoint tokenize_loop (fuel : nat) (expr : cstring) (i j : nat) (last : writer) (token_cnt : Z) :
    outcome (Z * writer) :=
  match fuel with
  | O => Undef
  | S fuel =>
      match expr !! i with
      | None =>
          '(n, last) ← new_tok expr last j (i - j);
          mret (u32 (token_cnt + n), last)
      | Some c =>
          if is_op c then
            '(n, last) ← new_tok expr last j (i - j);
            '(n', last) ← new_tok expr last i 1;
            tokenize_loop fuel expr (S i) (S i) last (u32 (u32 (token_cnt + n) + n'))
          else if is_blank c then
            '(n, last) ← new_tok expr last j (i - j);
            tokenize_loop fuel expr (S i) (S i) last (u32 (token_cnt + n))
          else if Ascii.eqb c quote then
            tokenize_loop fuel expr (S (skip_quoted (drop (S i) expr) i)) j last token_cnt
          else tokenize_loop fuel expr (S i) j last token_cnt
      end
  end.
Definition tokenize (expr : cstring) (last : writer) : outcome (Z * writer) :=
  tokenize_loop (S (length expr)) expr 0 0 last 0.

(** ** The stacks *)
Definition stack_push (capacity : nat) (stack : list nat) (i : nat) : outcome (list nat) :=
  if decide (length stack < capacity)%nat then mret (i :: stack) else Undef.
Definition stack_empty (stack : list nat) : bool :=
  match stack with [] => true | _ => false end.
Definition stack_pop (stack : list nat) : option nat * list nat :=
  match stack with [] => (None, []) | i :: s => (Some i, s) end.
(** [None] is [TST_OP_NONE]. *)
Definition stack_peek_op (b : list tst_expr_tok) (stack : list nat) : outcome (option tst_op) :=
  match stack with
  | [] => mret None
  | i :: _ => t ← access (b !! i); mret (Some (op t))
  end.

(** Whether the previous token makes an operand wrong here. *)
Definition check_one (prev : option tst_op) : bool :=
  match prev with
  | Some TST_OP_AND | Some TST_OP_OR | Some TST_OP_NOT | None | Some TST_OP_LPAR => false
  | _ => true
  end.
(** Whether the previous token ends an operand. *)
Definition check_two (prev : option tst_op) : bool :=
  match prev with
  | Some TST_OP_VAR | Some TST_OP_RPAR => true
  | _ => false
  end.

Section shunting_yard.
Context (b : list tst_expr_tok) (cnt : nat).

(** [while (stack_peek_op(op_stack) == TST_OP_NOT) push(out, pop(op_stack))]:
    the operator stack and the output. *)
Fixpoint pop_nots (op_stack out : list nat) : outcome (list nat * list nat) :=
  match op_stack with
  | [] => mret ([], out)
  | i :: s =>
      t ← access (b !! i);
      match op t with
      | TST_OP_NOT => out ← stack_push (S cnt) out i; pop_nots s out
      | _ => mret (op_stack, out)
      end
  end.

(** Pops everything up to the left parenthesis, [None] if there is none. *)
Fixpoint pop_to_lpar (op_stack out : list nat) : outcome (option (list nat * list nat)) :=
  match op_stack with
  | [] => mret None
  | i :: s =>
      t ← access (b !! i);
      match op t with
      | TST_OP_LPAR => mret (Some (s, out))
      | _ => out ← stack_push (S cnt) out i; pop_to_lpar s out
      end
  end.

(** One token: the message of an error, or the two stacks. *)
Definition sy_token (i : nat) (t : tst_expr_tok) (prev_op : option tst_op)
    (op_stack out : list nat) : outcome (cstring + list nat * list nat) :=
  match op t with
  | TST_OP_VAR =>
      if check_one prev_op then mret (inl (msg "Expected operation")) else
      out ← stack_push (S cnt) out i;
      r ← pop_nots op_stack out;
      mret (inr r)
  | TST_OP_LPAR =>
      if check_one prev_op then mret (inl (msg "Expected operation")) else
      op_stack ← stack_push cnt op_stack i;
      mret (inr (op_stack, out))
  | TST_OP_RPAR =>
      if negb (check_two prev_op) then mret (inl (msg "Expected variable or )")) else
      r ← pop_to_lpar op_stack out;
      match r with
      | None => mret (inl (msg "Missing ("))
      | Some (op_stack, out) => r ← pop_nots op_stack out; mret (inr r)
      end
  | TST_OP_NOT =>
      if check_one prev_op then mret (inl (msg "Expected operation")) else
      op_stack ← stack_push cnt op_stack i;
      mret (inr (op_stack, out))
  | TST_OP_AND | TST_OP_OR =>
      if negb (check_two prev_op) then mret (inl (msg "Expected variable or (")) else
      p ← stack_peek_op b op_stack;
      '(op_stack, out) ←
        match p, stack_pop op_stack with
        | Some (TST_OP_AND | TST_OP_OR), (Some k, s) =>
            out ← stack_push (S cnt) out k; mret (s, out)
        | _, _ => mret (op_stack, out)
        end;
      op_stack ← stack_push cnt op_stack i;
      mret (inr (op_stack, out))
  end.

(** The loop over the tokens from index [i]; an error is the index of the
    token to mark and the message. *)
Fixpoint sy_loop (toks : list tst_expr_tok) (i : nat) (prev_op : option tst_op)
    (op_stack out : list nat) : outcome (nat * cstring + list nat * list nat) :=
  match toks with
  | [] => mret (inr (op_stack, out))
  | t :: toks' =>
      r ← sy_token i t prev_op op_stack out;
      match r with
      | inl m => mret (inl (i, m))
      | inr (op_stack, out) => sy_loop toks' (S i) (Some (op t)) op_stack out
      end
  end.

(** The remaining operations, or the unmatched parenthesis. *)
Fixpoint pop_remaining (op_stack out : list nat) : outcome (nat * cstring + list nat) :=
  match op_stack with
  | [] => mret (inr out)
  | i :: s =>
      t ← access (b !! i);
      match op t with
      | TST_OP_LPAR => mret (inl (i, msg "Missing )"))
      | _ => out ← stack_push (S cnt) out i; pop_remaining s out
      end
  end.

(** The token to mark with the message, or the output in order. *)
Definition sy_translate : outcome (nat * cstring + list nat) :=
  r ← sy_loop (take cnt b) 0 None [] [];
  match r with
  | inl e => mret (inl e)
  | inr (op_stack, out) =>
      t ← access (b !! (cnt - 1)%nat);
      if negb (check_two (Some (op t)))
      then mret (inl ((cnt - 1)%nat, msg "Unfinished expression"))
      else
        r ← pop_remaining op_stack out;
        match r with
        | inl e => mret (inl e)
        | inr out => mret (inr (reverse out))
        end
  end.
End shunting_yard.

(** [out[j]->next = out[j + 1]], the last one NULL. *)
Fixpoint link (b : list tst_expr_tok) (out : list nat) : outcome (list tst_expr_tok) :=
  match out with
  | [] => mret b
  | i :: out' =>
      t ← access (b !! i);
      link (<[i := set_next t (head out')]> b) out'
  end.

(** The expression as the call leaves it, and whether it returned 1. *)
Definition shunting_yard (expr : tst_expr) (cnt : nat) : outcome (bool * tst_expr) :=
  r ← sy_translate (buf expr) cnt;
  match r with
  | inl (i, m) =>
      t ← access (buf expr !! i);
      mret (true, Expr (rpn expr) (<[i := set_priv t m]> (buf expr)))
  | inr out =>
      (* out[out_pos] = NULL is a write of the array of cnt + 1 *)
      _ ← stack_push (S cnt) out 0%nat;
      b ← link (buf expr) out;
      mret (false, Expr (head out) b)
  end.

(** ** The error report, as the text written to the stream *)
Fixpoint first_marked (b : list tst_expr_tok) (i : nat) : nat :=
  match b with
  | [] => i
  | t :: b' => match priv t with Some _ => i | None => first_marked b' (S i) end
  end.
Definition print_spaces (n : nat) : cstring := replicate n " "%char.
Definition newline : cstring := [ascii_of_nat 10].

Definition tst_bool_expr_err (text : cstring) (expr : tst_expr) (cnt : nat) : outcome cstring :=
  t0 ← access (buf expr !! 0%nat);
  let i := first_marked (take cnt (buf expr)) 0 in
  t ← access (buf expr !! i);
  let spaces := Z.to_nat (u32 (Z.of_nat (tok t) - Z.of_nat (tok t0))) in
  err ← access (priv t);
  mret (drop (tok t0) text ++ newline ++ print_spaces spaces ++ ["^"%char] ++ newline ++
        (if (length err <? spaces)%nat then print_spaces (spaces - length err + 1) else []) ++
        err ++ newline).

(** ** Parsing: the expression, and what was written to stderr *)
Definition tst_bool_expr_parse (malloc_ok : bool) (expr : cstring) :
    outcome (option tst_expr * cstring) :=
  '(tok_cnt, _) ← tokenize expr None;
  if tok_cnt =? 0 then mret (None, []) else
  if negb malloc_ok then mret (None, []) else
  '(_, last) ← tokenize expr (Some ([], Z.to_nat tok_cnt));
  '(b, _) ← access last;
  '(failed, ret) ← shunting_yard (Expr None b) (Z.to_nat tok_cnt);
  if failed : bool then
    text ← tst_bool_expr_err expr ret (Z.to_nat tok_cnt);
    mret (None, text)
  else mret (Some ret, []).

(** ** Printing *)
Definition tok_text (text : cstring) (t : tst_expr_tok) : cstring :=
  take (tok_len t) (drop (tok t) text).
Fixpoint print_loop (fuel : nat) (text : cstring) (b : list tst_expr_tok) (i : option nat) :
    outcome cstring :=
  match i with
  | None => mret []
  | Some k =>
      match fuel with
      | O => Undef
      | S fuel =>
          t ← access (b !! k);
          rest ← print_loop fuel text b (next t);
          mret (tok_text text t ++ (match next t with Some _ => [" "%char] | None => [] end) ++ rest)
      end
  end.
Definition tst_bool_expr_print (text : cstring) (expr : tst_expr) : outcome cstring :=
  print_loop (length (buf expr)) text (buf expr) (rpn expr).

(** ** Evaluation

    [stack] is the C stack up to [pos], the top first. *)
Definition MAX_STACK : nat := 16.
Definition truth (v : bool) : Z := if v then 1 else 0.

Fixpoint eval_loop (map : tst_expr_tok → Z) (fuel : nat) (b : list tst_expr_tok)
    (i : option nat) (stack : list Z) : outcome Z :=
  match i with
  | None => access (last stack)
  | Some k =>
      match fuel with
      | O => Undef
      | S fuel =>
          t ← access (b !! k);
          match op t with
          | TST_OP_NOT =>
              match stack with
              | x :: s => eval_loop map fuel b (next t) (truth (x =? 0) :: s)
              | [] => Undef
              end
          | TST_OP_OR =>
              match stack with
              | x :: y :: s =>
                  eval_loop map fuel b (next t) (truth (negb (x =? 0) || negb (y =? 0)) :: s)
              | _ => Undef
              end
          | TST_OP_AND =>
              match stack with
              | x :: y :: s =>
                  eval_loop map fuel b (next t) (truth (negb (x =? 0) && negb (y =? 0)) :: s)
              | _ => Undef
              end
          | TST_OP_VAR =>
              if (MAX_STACK <=? length stack)%nat then mret (-1) else
              let v := map t in
              if v =? -1 then mret (-1) else eval_loop map fuel b (next t) (v :: stack)
          | TST_OP_LPAR | TST_OP_RPAR => eval_loop map fuel b (next t) stack
          end
      end
  end.
Definition tst_bool_expr_eval (map : tst_expr_tok → Z) (expr : tst_expr) : outcome Z :=
  eval_loop map (length (buf expr)) (buf expr) (rpn expr) [].
