(* ===== verification/LtpBoolExprSpec.v ===== *)
(** * ltp: boolean expressions, what parsing and evaluation compute

    The tokenizer is related to a character-level lexer; the shunting yard to
    the grammar

      expression ::= operand | expression (& or |) operand
      operand    ::= variable | ! operand | ( expression )

    through an abstract machine whose states are the partial parses (zippers)
    the two stacks represent; the evaluator to the meaning of the expression. *)

From Stdlib Require Import String Ascii.
From S2P Require Import Prelude LtpBoolExpr.

(** ** The lexer

    [lex q cur s]: the tokens of [s], [cur] being the token under way and [q]
    whether a quotation is open in it. *)
Definition emit (cur : cstring) : list cstring := match cur with [] => [] | _ => [cur] end.
Fixpoint lex (q : bool) (cur s : cstring) : list cstring :=
  match s with
  | [] => emit cur
  | c :: s =>
      if q then lex (negb (Ascii.eqb c quote)) (cur ++ [c]) s
      else if is_op c then emit cur ++ [c] :: lex false [] s
      else if is_blank c then emit cur ++ lex false [] s
      else lex (Ascii.eqb c quote) (cur ++ [c]) s
  end.

(** The same with the place of every token: [lex_at i q cur s] for the text [s]
    that starts at offset [i], directly behind [cur]. *)
Definition emit_at (i : nat) (cur : cstring) : list (nat * cstring) :=
  match cur with [] => [] | _ => [((i - length cur)%nat, cur)] end.
Fixpoint lex_at (i : nat) (q : bool) (cur s : cstring) : list (nat * cstring) :=
  match s with
  | [] => emit_at i cur
  | c :: s =>
      if q then lex_at (S i) (negb (Ascii.eqb c quote)) (cur ++ [c]) s
      else if is_op c then emit_at i cur ++ (i, [c]) :: lex_at (S i) false [] s
      else if is_blank c then emit_at i cur ++ lex_at (S i) false [] s
      else lex_at (S i) (Ascii.eqb c quote) (cur ++ [c]) s
  end.
(** What a piece of text is: one of the five operators, or else a variable. *)
Definition spelled (s : cstring) : tst_op :=
  if decide (s = msg "(") then TST_OP_LPAR else if decide (s = msg ")") then TST_OP_RPAR
  else if decide (s = msg "&") then TST_OP_AND else if decide (s = msg "|") then TST_OP_OR
  else if decide (s = msg "!") then TST_OP_NOT else TST_OP_VAR.
Definition token_of (x : nat * cstring) : tst_expr_tok :=
  Token (spelled x.2) x.1 (length x.2) None None.
(** The tokens of a text. *)
Definition tokens (text : cstring) : list tst_expr_tok := token_of <$> lex_at 0 false [] text.

Lemma lex_at_text i q cur s : (lex_at i q cur s).*2 = lex q cur s.
Proof.
  assert (∀ i cur, (emit_at i cur).*2 = emit cur) as He by (by intros ? []).
  revert i q cur. induction s as [|c s IH]; intros i q cur; simpl; [done|].
  destruct q; [done|]. destruct (is_op c); [|destruct (is_blank c)]; [| |done];
    by rewrite fmap_app, He; simpl; rewrite IH.
Qed.
Lemma spelled_op c : spelled [c] = char_to_op c.
Proof.
  unfold spelled, char_to_op, msg. simpl.
  destruct (Ascii.eqb_spec c "("), (Ascii.eqb_spec c ")"), (Ascii.eqb_spec c "&"),
    (Ascii.eqb_spec c "|"), (Ascii.eqb_spec c "!"); repeat case_decide; congruence.
Qed.
Lemma spelled_var c s : is_op c = false → spelled (c :: s) = char_to_op c.
Proof.
  intros Hc. rewrite <-spelled_op. destruct s as [|d s]; [done|].
  rewrite spelled_op. unfold spelled, msg. simpl. repeat (rewrite decide_False by congruence).
  unfold is_op in Hc. rewrite !orb_false_iff in Hc. destruct Hc as [[[[H1 H2] H3] H4] H5].
  unfold char_to_op. by rewrite H1, H2, H3, H4, H5.
Qed.

Lemma skip_quoted_shift s i : skip_quoted s i = (i + skip_quoted s 0)%nat.
Proof.
  revert i. induction s as [|c s IH]; intros i; simpl; [lia|].
  destruct (Ascii.eqb c quote); [lia|]. rewrite (IH (S i)), (IH 1%nat). lia.
Qed.
Lemma lex_at_quoted s i cur :
  lex_at i true cur s =
  lex_at (i + skip_quoted s 0) false (cur ++ take (skip_quoted s 0) s) (drop (skip_quoted s 0) s).
Proof.
  revert i cur. induction s as [|c s IH]; intros i cur; simpl; [by rewrite app_nil_r, Nat.add_0_r|].
  destruct (Ascii.eqb c quote); [by rewrite Nat.add_1_r|]. cbn [negb]. rewrite (skip_quoted_shift s 1), IH.
  simpl. by rewrite <-app_assoc, Nat.add_succ_r.
Qed.
Lemma skip_quoted_length s : (skip_quoted s 0 ≤ length s)%nat.
Proof.
  induction s as [|c s IH]; simpl; [lia|]. destruct (Ascii.eqb c quote); [lia|].
  rewrite skip_quoted_shift. lia.
Qed.
Lemma lex_length q cur s :
  (length (lex q cur s) ≤ length s + match cur with [] => 0 | _ => 1 end)%nat.
Proof.
  revert q cur. induction s as [|c s IH]; intros q cur; simpl; [by destruct cur|].
  assert (∀ q, length (lex q (cur ++ [c]) s) ≤ length s + 1)%nat as Hc.
  { intros q'. specialize (IH q' (cur ++ [c])). by destruct cur. }
  destruct q; [etrans; [apply Hc|]; lia|].
  destruct (is_op c); [|destruct (is_blank c)].
  - rewrite length_app. simpl. specialize (IH false []). simpl in IH. destruct cur; simpl; lia.
  - rewrite length_app. specialize (IH false []). simpl in IH. destruct cur; simpl; lia.
  - etrans; [apply Hc|]; lia.
Qed.

(** A token as the tokenizer writes it; no quotation mark follows a variable. *)
Definition tok_ok (expr : cstring) (t : tst_expr_tok) : Prop :=
  (0 < tok_len t)%nat ∧ (tok t + tok_len t ≤ length expr)%nat ∧
  (∃ c, expr !! tok t = Some c ∧ op t = char_to_op c) ∧ next t = None ∧ priv t = None ∧
  (op t = TST_OP_VAR → expr !! (tok t + tok_len t)%nat ≠ Some quote).

(** The tokens start at [lo] or later, each behind the one before. *)
Fixpoint ascending (lo : nat) (ts : list tst_expr_tok) : Prop :=
  match ts with [] => True | t :: ts => (lo ≤ tok t)%nat ∧ ascending (tok t + tok_len t) ts end.
Lemma ascending_mono lo lo' ts : (lo' ≤ lo)%nat → ascending lo ts → ascending lo' ts.
Proof. destruct ts; simpl; [done|]. intros ? [? ?]. split; [lia|done]. Qed.
Lemma ascending_first lo ts i t : ascending lo ts → ts !! i = Some t → (lo ≤ tok t)%nat.
Proof.
  revert lo i. induction ts as [|t0 ts IH]; intros lo i H Hi; [done|]. destruct H as [H0 H].
  destruct i as [|i]; simpl in Hi; [by simplify_eq|]. specialize (IH _ _ H Hi). lia.
Qed.

Definition advance (last : writer) (ts : list tst_expr_tok) : writer :=
  match last with None => None | Some (w, room) => Some (w ++ ts, room - length ts)%nat end.
Definition has_room (last : writer) (n : nat) : Prop :=
  match last with None => True | Some (_, room) => (n ≤ room)%nat end.
Lemma advance_app last ts ts' : advance (advance last ts) ts' = advance last (ts ++ ts').
Proof.
  destruct last as [[w room]|]; simpl; [|done]. rewrite <-app_assoc, length_app. do 2 f_equal. lia.
Qed.
Lemma has_room_app last ts n :
  has_room last (length ts + n) → has_room last (length ts) ∧ has_room (advance last ts) n.
Proof. destruct last as [[w room]|]; simpl; [lia|done]. Qed.

(** The text [j .. i) of the expression. *)
Definition slice (expr : cstring) (j i : nat) : cstring := take (i - j) (drop j expr).
Lemma slice_S expr j i c : (j ≤ i)%nat → expr !! i = Some c → slice expr j (S i) = slice expr j i ++ [c].
Proof.
  intros Hj Hc. unfold slice. replace (S i - j)%nat with (S (i - j)) by lia.
  apply take_S_r. rewrite lookup_drop. by replace (j + (i - j))%nat with i by lia.
Qed.
Lemma slice_nil expr i : slice expr i i = [].
Proof. unfold slice. by rewrite Nat.sub_diag. Qed.
Lemma slice_length expr j i : (i ≤ length expr)%nat → length (slice expr j i) = (i - j)%nat.
Proof. intros. unfold slice. rewrite length_take, length_drop. lia. Qed.
Lemma slice_app expr j i k : (j ≤ i)%nat →
  slice expr j (i + k) = slice expr j i ++ take k (drop i expr).
Proof.
  intros Hj. unfold slice. replace (i + k - j)%nat with ((i - j) + k)%nat by lia.
  rewrite <-(take_take_drop (drop j expr)), drop_drop. by replace (j + (i - j))%nat with i by lia.
Qed.

(** One token written: an operator stands alone. *)
Lemma op_no_var c : is_op c = true → char_to_op c ≠ TST_OP_VAR.
Proof.
  unfold is_op, char_to_op. rewrite !orb_true_iff.
  intros [[[[->| ->]| ->]| ->]| ->]; by repeat case_match.
Qed.
Lemma slice_spelled expr j i c : (j < i ≤ length expr)%nat → expr !! j = Some c →
  (i - j = 1)%nat ∨ is_op c = false → spelled (slice expr j i) = char_to_op c.
Proof.
  intros Hij Hc Hop. unfold slice. rewrite (drop_S _ _ _ Hc).
  destruct (i - j)%nat as [|n] eqn:E; [lia|]. rewrite firstn_cons.
  destruct Hop as [[= ->]|Hop]; [by rewrite take_0, spelled_op|by apply spelled_var].
Qed.
Lemma new_tok_ok expr j i : (j ≤ i ≤ length expr)%nat →
  (∀ c, expr !! j = Some c → (j < i)%nat → (i - j = 1)%nat ∨ is_op c = false) →
  (∀ c, expr !! j = Some c → char_to_op c = TST_OP_VAR → expr !! i ≠ Some quote) →
  ∃ ts, (ts = token_of <$> emit_at i (slice expr j i) ∧
      tok_text expr <$> ts = (emit_at i (slice expr j i)).*2) ∧ Forall (tok_ok expr) ts ∧
    (∀ ts', ascending i ts' → ascending j (ts ++ ts')) ∧
    ∀ last, has_room last (length ts) →
      new_tok expr last j (i - j) = Done (Z.of_nat (length ts), advance last ts).
Proof.
  intros [Hj Hi] Hop Hq. unfold new_tok. destruct (Nat.eqb_spec (i - j) 0) as [E|E].
  - exists []. replace i with j by lia. rewrite slice_nil. do 2 (split; [done || constructor|]). split; [done|].
    intros [[w room]|] _; simpl; [|done]. by rewrite app_nil_r, Nat.sub_0_r.
  - assert (is_Some (expr !! j)) as [c Hc] by (apply lookup_lt_is_Some; lia).
    exists [Token (char_to_op c) j (i - j) None None]. split; [|split_and!].
    + pose proof (slice_length expr j i Hi) as Hl.
      pose proof (slice_spelled expr j i c ltac:(lia) Hc (Hop c Hc ltac:(lia))) as Hs.
      cbn [fmap list_fmap]. unfold tok_text. cbn [tok tok_len]. fold (slice expr j i).
      unfold emit_at. destruct (slice expr j i) as [|d s]; [simpl in Hl; lia|]. split; [|done].
      cbn [fmap list_fmap]. unfold token_of. cbn [fst snd]. rewrite Hs, Hl. do 2 f_equal. lia.
    + constructor; [|constructor]. unfold tok_ok. simpl. split_and!; [lia|lia|by exists c|done|done|].
      replace (j + (i - j))%nat with i by lia. by apply Hq.
    + intros ts' Hts. simpl. split; [done|]. by replace (j + (i - j))%nat with i by lia.
    + intros [[w [|room]]|]; simpl; [lia| |done]. intros _. rewrite Hc. simpl. by rewrite Nat.sub_0_r.
Qed.

(** What a loop of the tokenizer writes. *)
Definition writes (expr : cstring) (lo : nat) (toks : list (nat * cstring))
    (run : writer → Z → outcome (Z * writer)) : Prop :=
  ∃ ts, (ts = token_of <$> toks ∧ tok_text expr <$> ts = toks.*2) ∧ Forall (tok_ok expr) ts ∧ ascending lo ts ∧
    ∀ last cnt, has_room last (length ts) → 0 ≤ cnt → cnt + Z.of_nat (length ts) < 2 ^ 32 →
      run last cnt = Done (cnt + Z.of_nat (length ts), advance last ts).

(** Writing the pending token and then the rest. *)
Lemma writes_emit expr j i toks run : (j ≤ i ≤ length expr)%nat →
  (∀ c, expr !! j = Some c → (j < i)%nat → (i - j = 1)%nat ∨ is_op c = false) →
  (∀ c, expr !! j = Some c → char_to_op c = TST_OP_VAR → expr !! i ≠ Some quote) →
  writes expr i toks run →
  writes expr j (emit_at i (slice expr j i) ++ toks) (λ last cnt,
    '(n, last) ← new_tok expr last j (i - j); run last (u32 (cnt + n))).
Proof.
  intros Hij Hop Hq (ts & [Ht Hx] & Hf & Ha & Hrun).
  destruct (new_tok_ok expr j i Hij Hop Hq) as (ts0 & [Ht0 Hx0] & Hf0 & Ha0 & Hrun0).
  exists (ts0 ++ ts). split; [split|split_and!].
  - by rewrite fmap_app, Ht, Ht0.
  - by rewrite !fmap_app, Hx, Hx0.
  - by apply Forall_app.
  - by apply Ha0.
  - intros last cnt Hroom Hcnt Hlt. rewrite length_app in *.
    apply has_room_app in Hroom as [Hr1 Hr2]. rewrite (Hrun0 last Hr1). simpl.
    rewrite u32_small by (unfold in_u32; lia). rewrite Hrun, advance_app by (done || lia).
    do 2 f_equal. lia.
Qed.
Lemma writes_end expr j i : (j ≤ i ≤ length expr)%nat → expr !! i = None →
  (∀ c, expr !! j = Some c → (j < i)%nat → is_op c = false) →
  writes expr j (emit_at i (slice expr j i)) (λ last cnt,
    '(n, last) ← new_tok expr last j (i - j); mret (u32 (cnt + n), last)).
Proof.
  intros Hij Hi Hop. rewrite <-(app_nil_r (emit_at _ _)).
  apply (writes_emit expr j i [] (λ last cnt, mret (cnt, last)) Hij); [by eauto|by rewrite Hi|].
  exists []. split; [done|]. split_and!; [constructor|done|]. intros last cnt _ _ _. simpl.
  rewrite Z.add_0_r. destruct last as [[w room]|]; simpl; [|done].
  by rewrite app_nil_r, Nat.sub_0_r.
Qed.

Lemma writes_lower expr lo lo' toks run : (lo' ≤ lo)%nat → writes expr lo toks run → writes expr lo' toks run.
Proof.
  intros Hlo (ts & Ht & Hf & Ha & Hrun). exists ts. split; [done|]. split_and!; try done. by eapply ascending_mono.
Qed.

Lemma op_slice expr i c : expr !! i = Some c → emit_at (S i) (slice expr i (S i)) = [(i, [c])].
Proof.
  intros Hc. rewrite (slice_S expr i i c), slice_nil by (done || lia). simpl. by rewrite Nat.sub_0_r.
Qed.

(** The operator at [i], alone. *)
Lemma writes_op expr i c toks run : expr !! i = Some c → is_op c = true →
  writes expr (S i) toks run →
  writes expr i ((i, [c]) :: toks) (λ last cnt, '(n, last) ← new_tok expr last i 1; run last (u32 (cnt + n))).
Proof.
  intros Hc Hop H. pose proof (lookup_lt_Some _ _ _ Hc) as Hlt.
  apply (writes_emit expr i (S i)) in H; [|lia|intros; lia|].
  - rewrite (op_slice _ _ _ Hc) in H. by replace (S i - i)%nat with 1%nat in H by lia.
  - intros c' Hc' Hv. rewrite Hc in Hc'. simplify_eq. by apply op_no_var in Hv.
Qed.

Lemma tokenize_loop_ok fuel expr i j :
  (j ≤ i ≤ length expr)%nat → (length expr - i < fuel)%nat →
  (∀ c, expr !! j = Some c → (j < i)%nat → is_op c = false) →
  writes expr j (lex_at i false (slice expr j i) (drop i expr)) (tokenize_loop fuel expr i j).
Proof.
  revert i j. induction fuel as [|fuel IH]; intros i j Hij Hf Hj; [lia|].
  cbn [tokenize_loop]. destruct (expr !! i) as [c|] eqn:Hc.
  2: { rewrite drop_ge by (by apply lookup_ge_None). by apply writes_end. }
  pose proof (lookup_lt_Some _ _ _ Hc) as Hlt. rewrite (drop_S _ _ _ Hc). cbn [lex_at].
  assert (writes expr (S i) (lex_at (S i) false [] (drop (S i) expr)) (tokenize_loop fuel expr (S i) (S i))) as Hnext.
  { rewrite <-(slice_nil expr (S i)) at 1. apply IH; [lia|lia|]. intros; lia. }
  assert (is_op c = false → ∀ c', expr !! j = Some c' → is_op c' = false) as Hj'.
  { intros Ho c' Hc'. destruct (decide (j = i)) as [->|]; [congruence|]. apply Hj; [done|lia]. }
  destruct (is_op c) eqn:Hop; [|destruct (is_blank c) eqn:Hbl].
  - assert (c ≠ quote) as Hnq by (by intros ->).
    apply (writes_emit expr j i _ (λ last cnt, '(n, last) ← new_tok expr last i 1;
      tokenize_loop fuel expr (S i) (S i) last (u32 (cnt + n)))); [done|by eauto|congruence|].
    by apply writes_op.
  - assert (c ≠ quote) as Hnq by (by intros ->).
    apply writes_emit; [done|by eauto|congruence|]. by apply (writes_lower expr (S i)); [lia|].
  - rewrite <-(slice_S _ _ _ _ (proj1 Hij) Hc). destruct (Ascii.eqb c quote).
    + rewrite lex_at_quoted. pose proof (skip_quoted_length (drop (S i) expr)) as Hs.
      rewrite length_drop in Hs. rewrite (skip_quoted_shift _ i).
      rewrite drop_drop, <-slice_app by lia. apply IH; [lia|lia|]. by eauto.
    + apply IH; [lia|lia|]. by eauto.
Qed.

(** The counting pass and the pass that fills a buffer of that size. *)
Lemma tokenize_ok expr : Z.of_nat (length expr) < 2 ^ 32 →
  let ts := tokens expr in
  tok_text expr <$> ts = lex false [] expr ∧ Forall (tok_ok expr) ts ∧ ascending 0 ts ∧
    tokenize expr None = Done (Z.of_nat (length ts), None) ∧
    tokenize expr (Some ([], length ts)) = Done (Z.of_nat (length ts), Some (ts, O)).
Proof.
  intros Hlen ts. pose proof (lex_length false [] expr) as Hl.
  destruct (tokenize_loop_ok (S (length expr)) expr 0 0 ltac:(lia) ltac:(lia) ltac:(intros; lia)) as (ts' & [Ht Hx] & Hf & Ha & Hrun).
  rewrite slice_nil, drop_0 in Ht, Hx. rewrite lex_at_text in Hx. fold (tokens expr) in Ht. subst ts'.
  unfold ts in *. rewrite <-(lex_at_text 0), length_fmap in Hl.
  assert (length (tokens expr) ≤ length expr + 0)%nat by (unfold tokens; by rewrite length_fmap).
  split_and!; [done|done|done|..]; unfold tokenize; rewrite ?Hrun; simpl; try done; try lia.
  by rewrite Nat.sub_diag.
Qed.
