(* ===== verification/LtpBoolExprParse.v ===== *)
(** * ltp: the shunting yard parses the grammar

    Expressions over token indices, their infix and postfix orders, and the
    machine of partial parses the shunting yard implements. *)

From Stdlib Require Import String Ascii.
From S2P Require Import Prelude LtpBoolExpr.

Inductive operand : Type :=
| OVar (i : nat)
| ONot (i : nat) (o : operand)
| OPar (i : nat) (e : bexpr) (j : nat)
with bexpr : Type :=
| EOp (o : operand)
| EBin (l : bexpr) (i : nat) (o : operand).

Scheme operand_mut := Induction for operand Sort Prop
  with bexpr_mut := Induction for bexpr Sort Prop.
Combined Scheme expr_mut from operand_mut, bexpr_mut.

(** The tokens in the order they are written. *)
Fixpoint otoks (o : operand) : list nat :=
  match o with
  | OVar i => [i]
  | ONot i o => i :: otoks o
  | OPar i e j => i :: etoks e ++ [j]
  end
with etoks (e : bexpr) : list nat :=
  match e with
  | EOp o => otoks o
  | EBin l i o => etoks l ++ i :: otoks o
  end.
(** The tokens in postfix order, without the parentheses. *)
Fixpoint opost (o : operand) : list nat :=
  match o with
  | OVar i => [i]
  | ONot i o => opost o ++ [i]
  | OPar i e j => epost e
  end
with epost (e : bexpr) : list nat :=
  match e with
  | EOp o => opost o
  | EBin l i o => epost l ++ opost o ++ [i]
  end.

Section parse.
Context (b : list tst_expr_tok).

(** The kind of the token at an index. *)
Definition kind (i : nat) : option tst_op := op <$> b !! i.
Definition binary (i : nat) : Prop := kind i = Some TST_OP_AND ∨ kind i = Some TST_OP_OR.

(** Every index holds a token of the kind the grammar has there. *)
Fixpoint owf (o : operand) : Prop :=
  match o with
  | OVar i => kind i = Some TST_OP_VAR
  | ONot i o => kind i = Some TST_OP_NOT ∧ owf o
  | OPar i e j => kind i = Some TST_OP_LPAR ∧ ewf e ∧ kind j = Some TST_OP_RPAR
  end
with ewf (e : bexpr) : Prop :=
  match e with
  | EOp o => owf o
  | EBin l i o => ewf l ∧ binary i ∧ owf o
  end.

(** ** Partial parses

    A frame is what precedes an operand inside one pair of parentheses: the
    left expression with its operator, and the negations (the last first). *)
Definition lhs : Type := option (bexpr * nat).
Record frame : Type := Frame { left : lhs; nots : list nat }.
Inductive zstate : Type :=
| Expect (f : frame) (fs : list (nat * frame))
| After (l : lhs) (o : operand) (fs : list (nat * frame)).

Definition combine (l : lhs) (o : operand) : bexpr :=
  match l with None => EOp o | Some (e, i) => EBin e i o end.
Fixpoint negate (ns : list nat) (o : operand) : operand :=
  match ns with [] => o | n :: ns => negate ns (ONot n o) end.

Definition zstep (i : nat) (k : tst_op) (z : zstate) : cstring + zstate :=
  match z, k with
  | Expect f fs, TST_OP_VAR => inr (After (left f) (negate (nots f) (OVar i)) fs)
  | Expect f fs, TST_OP_NOT => inr (Expect (Frame (left f) (i :: nots f)) fs)
  | Expect f fs, TST_OP_LPAR => inr (Expect (Frame None []) ((i, f) :: fs))
  | Expect f fs, TST_OP_RPAR => inl (msg "Expected variable or )")
  | Expect f fs, (TST_OP_AND | TST_OP_OR) => inl (msg "Expected variable or (")
  | After l o fs, (TST_OP_VAR | TST_OP_NOT | TST_OP_LPAR) => inl (msg "Expected operation")
  | After l o fs, (TST_OP_AND | TST_OP_OR) => inr (Expect (Frame (Some (combine l o, i)) []) fs)
  | After l o fs, TST_OP_RPAR =>
      match fs with
      | [] => inl (msg "Missing (")
      | (p, f) :: fs => inr (After (left f) (negate (nots f) (OPar p (combine l o) i)) fs)
      end
  end.

(** The stacks and the input a partial parse stands for. *)
Definition lstack (l : lhs) : list nat := match l with Some (_, i) => [i] | None => [] end.
Definition lout (l : lhs) : list nat := match l with Some (e, _) => epost e | None => [] end.
Definition ltoks (l : lhs) : list nat := match l with Some (e, i) => etoks e ++ [i] | None => [] end.
Fixpoint fstack (fs : list (nat * frame)) : list nat :=
  match fs with [] => [] | (p, f) :: fs => p :: nots f ++ lstack (left f) ++ fstack fs end.
Fixpoint fout (fs : list (nat * frame)) : list nat :=
  match fs with [] => [] | (p, f) :: fs => fout fs ++ lout (left f) end.
Fixpoint ftoks (fs : list (nat * frame)) : list nat :=
  match fs with
  | [] => []
  | (p, f) :: fs => ftoks fs ++ ltoks (left f) ++ reverse (nots f) ++ [p]
  end.
Definition zstack (z : zstate) : list nat :=
  match z with
  | Expect f fs => nots f ++ lstack (left f) ++ fstack fs
  | After l o fs => lstack l ++ fstack fs
  end.
Definition zout (z : zstate) : list nat :=
  match z with
  | Expect f fs => fout fs ++ lout (left f)
  | After l o fs => fout fs ++ lout l ++ opost o
  end.
Definition ztoks (z : zstate) : list nat :=
  match z with
  | Expect f fs => ftoks fs ++ ltoks (left f) ++ reverse (nots f)
  | After l o fs => ftoks fs ++ ltoks l ++ otoks o
  end.
Definition after (z : zstate) : bool := match z with After _ _ _ => true | Expect _ _ => false end.

Definition lwf (l : lhs) : Prop := match l with Some (e, i) => ewf e ∧ binary i | None => True end.
Definition frame_wf (f : frame) : Prop :=
  lwf (left f) ∧ Forall (λ n, kind n = Some TST_OP_NOT) (nots f).
Definition frames_wf (fs : list (nat * frame)) : Prop :=
  Forall (λ pf, kind pf.1 = Some TST_OP_LPAR ∧ frame_wf pf.2) fs.
Definition zwf (z : zstate) : Prop :=
  match z with
  | Expect f fs => frame_wf f ∧ frames_wf fs
  | After l o fs => lwf l ∧ owf o ∧ frames_wf fs
  end.

Lemma negate_post ns o : opost (negate ns o) = opost o ++ ns.
Proof.
  revert o. induction ns as [|n ns IH]; intros o; simpl; [by rewrite app_nil_r|].
  rewrite IH. simpl. by rewrite <-app_assoc.
Qed.
Lemma negate_toks ns o : otoks (negate ns o) = reverse ns ++ otoks o.
Proof.
  revert o. induction ns as [|n ns IH]; intros o; simpl; [done|].
  rewrite IH, reverse_cons. simpl. by rewrite <-app_assoc.
Qed.
Lemma negate_wf ns o :
  Forall (λ n, kind n = Some TST_OP_NOT) ns → owf o → owf (negate ns o).
Proof. intros H. revert o. induction H; intros o' Ho; simpl; [done|]. by apply IHForall. Qed.
Lemma combine_post l o : epost (combine l o) = lout l ++ opost o ++ lstack l.
Proof. destruct l as [[e i]|]; simpl; [done|]. by rewrite app_nil_r. Qed.
Lemma combine_toks l o : etoks (combine l o) = ltoks l ++ otoks o.
Proof. destruct l as [[e i]|]; simpl; [|done]. by rewrite <-app_assoc. Qed.
Lemma combine_wf l o : lwf l → owf o → ewf (combine l o).
Proof. destruct l as [[e i]|]; simpl; tauto. Qed.

(** A step of the machine consumes its token and stays well formed. *)
Lemma zstep_ok i k z z' : kind i = Some k → zwf z → zstep i k z = inr z' →
  zwf z' ∧ ztoks z' = ztoks z ++ [i] ∧
  after z' = match k with TST_OP_VAR | TST_OP_RPAR => true | _ => false end.
Proof.
  intros Hi Hz Hs. destruct z as [f fs|l o fs].
  - destruct Hz as [[Hl Hn] Hf].
    destruct k; simpl in Hs; simplify_eq; cbn [ztoks zwf after]; cbn [left nots ftoks ltoks].
    + rewrite reverse_cons, <-!app_assoc. split_and!; [|done..]. split; [done|]. by constructor.
    + rewrite negate_toks, <-!app_assoc. split_and!; [done|by apply negate_wf|done..].
    + rewrite reverse_nil, <-!app_assoc. simpl. split_and!; [by split|by constructor|done..].
  - destruct Hz as (Hl & Ho & Hf).
    destruct k; simpl in Hs; [done| | |done|done|].
    1,2: simplify_eq; cbn [ztoks zwf after]; cbn [left nots ltoks];
      rewrite combine_toks, reverse_nil, app_nil_r, <-!app_assoc; (split_and!; [|done..]);
      (split; [|apply Forall_nil_2]); (split; [by apply combine_wf|]); first [by left|by right].
    destruct fs as [|[p f] fs]; [done|]. simplify_eq. apply Forall_cons in Hf as [[Hp [Hfl Hfn]] Hf].
    cbn [ztoks zwf after]. cbn [ftoks]. rewrite negate_toks. cbn [otoks]. rewrite combine_toks.
    split_and!; [done| |done| |done].
    + apply negate_wf; [done|]. simpl. split_and!; [done|by apply combine_wf|done].
    + rewrite <-!app_assoc. done.
Qed.

(** ** The tokens are all there: a partial parse uses each once *)
Lemma post_sub :
  (∀ o, opost o ⊆+ otoks o) ∧ (∀ e, epost e ⊆+ etoks e).
Proof.
  apply expr_mut; simpl.
  - done.
  - intros i o IH. rewrite (Permutation_app_comm (opost o)). simpl. by apply submseteq_skip.
  - intros i e IH j. apply submseteq_cons. etrans; [exact IH|]. apply submseteq_inserts_r. done.
  - done.
  - intros l IHl i o IHo. apply submseteq_app; [done|].
    rewrite (Permutation_app_comm (opost o)). simpl. by apply submseteq_skip.
Qed.
Lemma lhs_sub l : lout l ++ lstack l ⊆+ ltoks l.
Proof.
  destruct l as [[e i]|]; simpl; [|done]. apply submseteq_app; [apply post_sub|done].
Qed.
Lemma frame_sub f : (lout (left f) ++ lstack (left f)) ++ nots f ⊆+ ltoks (left f) ++ reverse (nots f).
Proof. apply submseteq_app; [apply lhs_sub|]. by rewrite reverse_Permutation. Qed.
Lemma frames_sub fs : fout fs ++ fstack fs ⊆+ ftoks fs.
Proof.
  induction fs as [|[p f] fs IH]; simpl; [done|].
  transitivity ((fout fs ++ fstack fs) ++ ((lout (left f) ++ lstack (left f)) ++ nots f) ++ [p]).
  - apply Permutation_submseteq. solve_Permutation.
  - rewrite (app_assoc (ltoks (left f))). apply submseteq_app; [done|].
    apply submseteq_app; [apply frame_sub|done].
Qed.
Lemma zstate_sub z : zout z ++ zstack z ⊆+ ztoks z.
Proof.
  destruct z as [f fs|l o fs]; simpl.
  - transitivity ((fout fs ++ fstack fs) ++ ((lout (left f) ++ lstack (left f)) ++ nots f)).
    + apply Permutation_submseteq. solve_Permutation.
    + apply submseteq_app; [apply frames_sub|apply frame_sub].
  - transitivity ((fout fs ++ fstack fs) ++ (lout l ++ lstack l) ++ opost o).
    + apply Permutation_submseteq. solve_Permutation.
    + apply submseteq_app; [apply frames_sub|]. apply submseteq_app; [apply lhs_sub|apply post_sub].
Qed.
Lemma zstate_length z : (length (zout z) + length (zstack z) ≤ length (ztoks z))%nat.
Proof. rewrite <-length_app. apply submseteq_length, zstate_sub. Qed.

(** ** The shunting yard implements the machine *)
Section simulation.
Context (cnt : nat).

Lemma ret_bind {A B} (a : A) (k : A → outcome B) : (Done a ≫= k) = k a.
Proof. done. Qed.
Lemma stack_push_ok cap st i : (length st < cap)%nat → stack_push cap st i = Done (i :: st).
Proof. intros. unfold stack_push. by rewrite decide_True. Qed.
Lemma kind_access i k : kind i = Some k → ∃ t, b !! i = Some t ∧ op t = k.
Proof. unfold kind. by intros (t & Ht & ->)%fmap_Some_1; exists t. Qed.

(** What a run of negations may be followed by. *)
Definition no_not (s : list nat) : Prop :=
  match s with [] => True | i :: _ => ∃ k, kind i = Some k ∧ k ≠ TST_OP_NOT end.
Lemma no_not_frames fs : frames_wf fs → no_not (fstack fs).
Proof. intros H. destruct H as [|[p f] fs [Hp _] _]; simpl; [done|]. by exists TST_OP_LPAR. Qed.
Lemma no_not_lhs l fs : lwf l → frames_wf fs → no_not (lstack l ++ fstack fs).
Proof.
  destruct l as [[e i]|]; simpl; [|intros _; by apply no_not_frames].
  intros [_ [H|H]] _; by eexists.
Qed.

Lemma pop_nots_ok ns rest out :
  Forall (λ n, kind n = Some TST_OP_NOT) ns → no_not rest → (length out + length ns ≤ S cnt)%nat →
  pop_nots b cnt (ns ++ rest) out = Done (rest, reverse ns ++ out).
Proof.
  intros Hns Hrest. revert out. induction Hns as [|n ns Hn Hns IH]; intros out Hlen.
  - simpl. destruct rest as [|i rest]; [done|]. destruct Hrest as (k & Hk & Hne).
    apply kind_access in Hk as (t & Ht & <-). cbn [pop_nots]. rewrite Ht. simpl. by destruct (op t).
  - apply kind_access in Hn as (t & Ht & Hop). simpl in *. rewrite Ht. simpl. rewrite Hop.
    rewrite stack_push_ok by lia. simpl. rewrite IH by (simpl; lia).
    by rewrite reverse_cons, <-app_assoc.
Qed.
Lemma pop_to_lpar_ok l rest out : lwf l → (length out + length (lstack l) ≤ S cnt)%nat →
  pop_to_lpar b cnt (lstack l ++ rest) out = pop_to_lpar b cnt rest (lstack l ++ out).
Proof.
  destruct l as [[e i]|]; [|done]. simpl. intros [_ Hi] Hlen.
  assert (∃ t, b !! i = Some t ∧ (op t = TST_OP_AND ∨ op t = TST_OP_OR)) as (t & Ht & Hop).
  { destruct Hi as [Hi|Hi]; apply kind_access in Hi as (t & Ht & Hop); eauto. }
  rewrite Ht. simpl. rewrite stack_push_ok by lia. by destruct Hop as [-> | ->].
Qed.
Lemma peek_lhs l fs : lwf l → frames_wf fs →
  match l with
  | Some (_, i) => ∃ k, stack_peek_op b (lstack l ++ fstack fs) = Done (Some k) ∧
                        (k = TST_OP_AND ∨ k = TST_OP_OR)
  | None => stack_peek_op b (fstack fs) = Done None ∨
            stack_peek_op b (fstack fs) = Done (Some TST_OP_LPAR)
  end.
Proof.
  destruct l as [[e i]|]; simpl.
  - intros [_ [Hi|Hi]] _; apply kind_access in Hi as (t & Ht & Hop); rewrite Ht; simpl; eauto.
  - intros _ H. destruct H as [|[p f] fs [Hp _] _]; simpl; [by left|]. right.
    apply kind_access in Hp as (t & Ht & Hop). simpl in Ht. rewrite Ht. simpl. by rewrite Hop.
Qed.

Definition yard (z : zstate) : list nat * list nat := (zstack z, reverse (zout z)).

Lemma check_one_two prev : check_one prev = check_two prev.
Proof. by destruct prev as [[]|]. Qed.

Lemma token_expect i t f fs prev :
  b !! i = Some t → zwf (Expect f fs) → (length (ztoks (Expect f fs)) < cnt)%nat →
  check_two prev = false →
  sy_token b cnt i t prev (zstack (Expect f fs)) (reverse (zout (Expect f fs))) =
  Done (match zstep i (op t) (Expect f fs) with inl m => inl m | inr z' => inr (yard z') end).
Proof.
  intros Ht [[Hl Hn] Hf] Hlen Hprev. pose proof (zstate_length (Expect f fs)) as Hsub.
  unfold sy_token. rewrite check_one_two, Hprev. cbn [negb]. destruct (op t); try done.
  - rewrite stack_push_ok by lia. done.
  - rewrite stack_push_ok by (rewrite length_reverse; lia). cbn [mbind outcome_bind].
    cbn [zstack]. rewrite pop_nots_ok; [|done|by apply no_not_lhs|].
    2: { cbn [length]. rewrite length_reverse. cbn [zstack] in Hsub. rewrite !length_app in Hsub. lia. }
    cbn [mbind outcome_bind]. unfold yard. cbn [zstep zstack zout]. rewrite negate_post.
    cbn [opost]. rewrite (app_assoc (fout fs)), !reverse_app. simpl. by rewrite <-app_assoc.
  - rewrite stack_push_ok by lia. cbn [mbind outcome_bind]. unfold yard. simpl.
    by rewrite app_nil_r.
Qed.

Lemma token_close i l o fs :
  kind i = Some TST_OP_RPAR → zwf (After l o fs) → (length (ztoks (After l o fs)) < cnt)%nat →
  (r ← pop_to_lpar b cnt (zstack (After l o fs)) (reverse (zout (After l o fs)));
   match r with
   | None => mret (inl (msg "Missing ("))
   | Some (op_stack, out) => r ← pop_nots b cnt op_stack out; mret (inr r)
   end) =
  Done (match zstep i TST_OP_RPAR (After l o fs) with inl m => inl m | inr z' => inr (yard z') end).
Proof.
  intros Hi (Hl & Ho & Hf) Hlen. pose proof (zstate_length (After l o fs)) as Hsub.
  cbn [zstack] in *. rewrite length_app in Hsub.
  rewrite pop_to_lpar_ok by (done || rewrite length_reverse; lia).
  destruct fs as [|[p f] fs]; [done|]. apply Forall_cons in Hf as [[Hp [Hfl Hfn]] Hf].
  apply kind_access in Hp as (t & Ht & Hop). cbn [fstack pop_to_lpar]. simpl in Ht. rewrite Ht.
  cbn [access]. rewrite !ret_bind, Hop, ret_bind.
  cbn [fstack length] in Hsub. rewrite !length_app in Hsub. cbn [snd] in *.
  rewrite pop_nots_ok; [|done|by apply no_not_lhs|].
  2: { rewrite length_app, length_reverse. lia. }
  rewrite ret_bind. unfold yard. cbn [zstep zstack zout]. rewrite negate_post.
  cbn [opost fout]. rewrite combine_post, !reverse_app, <-!app_assoc. do 3 f_equal.
  by destruct l as [[e k]|].
Qed.

Lemma token_binary i l o fs :
  zwf (After l o fs) → (length (ztoks (After l o fs)) < cnt)%nat →
  (p ← stack_peek_op b (zstack (After l o fs));
   '(op_stack, out) ←
     match p, stack_pop (zstack (After l o fs)) with
     | Some (TST_OP_AND | TST_OP_OR), (Some k, s) =>
         out ← stack_push (S cnt) (reverse (zout (After l o fs))) k; mret (s, out)
     | _, _ => mret (zstack (After l o fs), reverse (zout (After l o fs)))
     end;
   op_stack ← stack_push cnt op_stack i;
   mret (inr (op_stack, out))) =
  Done (inr (A:=cstring) (yard (Expect (Frame (Some (combine l o, i)) []) fs))).
Proof.
  intros (Hl & Ho & Hf) Hlen. pose proof (zstate_length (After l o fs)) as Hsub.
  pose proof (peek_lhs l fs Hl Hf) as Hp. cbn [zstack] in *. rewrite length_app in Hsub.
  assert (∀ X, reverse (fout fs ++ epost (combine l o)) = X →
    yard (Expect (Frame (Some (combine l o, i)) []) fs) = (i :: fstack fs, X)) as Hy by (by intros ? <-).
  destruct l as [[e k]|]; cbn [lstack app length] in *.
  - destruct Hp as (q & -> & Hq). rewrite ret_bind. cbn [stack_pop].
    rewrite (stack_push_ok (S cnt)) by (rewrite length_reverse; lia). rewrite ret_bind.
    rewrite (Hy (k :: reverse (zout (After (Some (e, k)) o fs)))).
    + destruct Hq as [-> | ->]; cbv beta iota; rewrite ret_bind; cbv beta iota;
        (rewrite stack_push_ok by lia); done.
    + cbn [zout lout combine epost]. by rewrite !app_assoc, reverse_snoc.
  - rewrite (Hy (reverse (zout (After None o fs)))) by done.
    destruct Hp as [-> | ->]; rewrite !ret_bind; cbv beta iota; (rewrite stack_push_ok by lia); done.
Qed.

Lemma token_after i t l o fs prev :
  b !! i = Some t → zwf (After l o fs) → (length (ztoks (After l o fs)) < cnt)%nat →
  check_two prev = true →
  sy_token b cnt i t prev (zstack (After l o fs)) (reverse (zout (After l o fs))) =
  Done (match zstep i (op t) (After l o fs) with inl m => inl m | inr z' => inr (yard z') end).
Proof.
  intros Ht Hz Hlen Hprev. unfold sy_token. rewrite check_one_two, Hprev. cbn [negb].
  destruct (op t) eqn:Hop; try done.
  - by apply token_binary.
  - by apply token_binary.
  - apply token_close; [unfold kind; by rewrite Ht, <-Hop|done..].
Qed.

Lemma token_sim i t z prev :
  b !! i = Some t → zwf z → (length (ztoks z) < cnt)%nat → check_two prev = after z →
  sy_token b cnt i t prev (zstack z) (reverse (zout z)) =
  Done (match zstep i (op t) z with inl m => inl m | inr z' => inr (yard z') end).
Proof. destruct z; [apply token_expect|apply token_after]. Qed.

(** The machine over a list of token indices; an error is the token it marks
    and the message. *)
Fixpoint zrun (ks : list nat) (z : zstate) : nat * cstring + zstate :=
  match ks with
  | [] => inr z
  | i :: ks =>
      match kind i with
      | None => inl (i, [])
      | Some k => match zstep i k z with inl m => inl (i, m) | inr z => zrun ks z end
      end
  end.
Lemma zrun_app ks js z :
  zrun (ks ++ js) z = match zrun ks z with inl e => inl e | inr z => zrun js z end.
Proof.
  revert z. induction ks as [|i ks IH]; intros z; simpl; [done|].
  destruct (kind i); [|done]. destruct (zstep i t z); [done|]. apply IH.
Qed.
Lemma zrun_ok ks z z' : zwf z → zrun ks z = inr z' →
  zwf z' ∧ ztoks z' = ztoks z ++ ks.
Proof.
  revert z. induction ks as [|i ks IH]; intros z Hz Hr; simpl in Hr; [simplify_eq|].
  { split; [done|]. by rewrite app_nil_r. }
  destruct (kind i) as [k|] eqn:Hk; [|done]. destruct (zstep i k z) as [m|z1] eqn:Hs; [done|].
  destruct (zstep_ok _ _ _ _ Hk Hz Hs) as (Hz1 & Ht1 & _).
  destruct (IH _ Hz1 Hr) as [? Ht]. split; [done|]. by rewrite Ht, Ht1, <-app_assoc.
Qed.
Lemma zrun_err ks z i m : zrun ks z = inl (i, m) → i ∈ ks.
Proof.
  revert z. induction ks as [|k ks IH]; intros z Hr; simpl in Hr; [done|].
  destruct (kind k); [|simplify_eq; left]. destruct (zstep k t z); [simplify_eq; left|].
  right. by eapply IH.
Qed.

(** The kind of the last token tells the mode. *)
Definition prev_of (i : nat) : option tst_op := match i with O => None | S k => kind k end.
Lemma loop_sim n z : zwf z → length b = cnt → (n ≤ cnt)%nat →
  ztoks z = seq 0 n → check_two (prev_of n) = after z →
  sy_loop b cnt (drop n b) n (prev_of n) (zstack z) (reverse (zout z)) =
    Done (match zrun (seq n (cnt - n)) z with inl e => inl e | inr z' => inr (yard z') end) ∧
  ∀ z', zrun (seq n (cnt - n)) z = inr z' → check_two (prev_of cnt) = after z'.
Proof.
  intros Hz Hlen Hn. remember (cnt - n)%nat as k eqn:Hk.
  revert n z Hz Hn Hk. induction k as [|k IH]; intros n z Hz Hn Hk Ht Hp.
  { assert (n = cnt) as -> by lia. rewrite drop_ge by lia. simpl. split; [done|]. by intros ? [= ->]. }
  destruct (b !! n) as [t|] eqn:Hb; [|apply lookup_ge_None in Hb; lia].
  rewrite (drop_S _ _ _ Hb). cbn [sy_loop seq zrun].
  rewrite token_sim; [|done|done|rewrite Ht, length_seq; lia|done].
  assert (kind n = Some (op t)) as Hkn by (unfold kind; by rewrite Hb). rewrite Hkn, ret_bind.
  destruct (zstep n (op t) z) as [m|z1] eqn:Hs; [by split|].
  destruct (zstep_ok _ _ _ _ Hkn Hz Hs) as (Hz1 & Ht1 & Ha).
  unfold yard. rewrite <-Hkn. apply (IH (S n) z1); [done|lia|lia| |].
  - rewrite Ht1, Ht, seq_S. done.
  - simpl. rewrite Hkn, Ha. by destruct (op t).
Qed.

Lemma pop_remaining_ok l fs out : lwf l → frames_wf fs →
  (length out + length (lstack l) ≤ S cnt)%nat →
  pop_remaining b cnt (lstack l ++ fstack fs) out =
  Done (match fs with [] => inr (lstack l ++ out) | (p, _) :: _ => inl (p, msg "Missing )") end).
Proof.
  intros Hl Hf Hlen.
  assert (pop_remaining b cnt (fstack fs) (lstack l ++ out) = Done (match fs with
    [] => inr (lstack l ++ out) | (p, _) :: _ => inl (p, msg "Missing )") end)) as Hfs.
  { destruct Hf as [|[p f] fs [Hp _] _]; [done|]. apply kind_access in Hp as (t & Ht & Hop).
    simpl in Ht. cbn [fstack pop_remaining]. rewrite Ht. cbn [access]. by rewrite ret_bind, Hop. }
  destruct l as [[e i]|]; [|done]. simpl in Hlen, Hl. cbn [lstack app pop_remaining].
  assert (∃ t, b !! i = Some t ∧ (op t = TST_OP_AND ∨ op t = TST_OP_OR)) as (t & Ht & Hop).
  { destruct Hl as [_ [Hi|Hi]]; apply kind_access in Hi as (t & Ht & Hop); eauto. }
  rewrite Ht, stack_push_ok by lia. cbn [access]. rewrite !ret_bind. by destruct Hop as [-> | ->].
Qed.

(** The outcome of a parse. *)
Definition zinit : zstate := Expect (Frame None []) [].
Definition verdict : nat * cstring + bexpr :=
  match zrun (seq 0 cnt) zinit with
  | inl e => inl e
  | inr (Expect _ _) => inl ((cnt - 1)%nat, msg "Unfinished expression")
  | inr (After l o []) => inr (combine l o)
  | inr (After l o ((p, _) :: _)) => inl (p, msg "Missing )")
  end.

Lemma translate_ok : length b = cnt → (0 < cnt)%nat →
  sy_translate b cnt = Done (match verdict with inl e => inl e | inr e => inr (epost e) end).
Proof.
  intros Hlen Hpos. unfold sy_translate. rewrite take_ge by lia.
  assert (zwf zinit) as Hz by repeat constructor.
  destruct (loop_sim 0 zinit Hz Hlen ltac:(lia) eq_refl eq_refl) as [Hrun Hlast].
  rewrite drop_0, Nat.sub_0_r in *. cbn [prev_of zinit zstack zout nots lstack left fstack fout lout app] in Hrun.
  rewrite reverse_nil in Hrun. fold zinit in Hrun. rewrite Hrun. unfold verdict. clear Hrun.
  destruct (zrun (seq 0 cnt) zinit) as [e|z] eqn:Hr; [done|]. rewrite ret_bind. unfold yard.
  specialize (Hlast z eq_refl).
  destruct (b !! (cnt - 1)%nat) as [t|] eqn:Hb; [|apply lookup_ge_None in Hb; lia].
  assert (prev_of cnt = Some (op t)) as Hpo.
  { replace cnt with (S (cnt - 1)) by lia. simpl. unfold kind. by rewrite Hb. }
  rewrite Hpo in Hlast. cbn [access]. rewrite ret_bind, Hlast.
  destruct (zrun_ok _ _ _ Hz Hr) as [Hz' Ht']. pose proof (zstate_length z) as Hl'.
  rewrite Ht', length_app, length_seq in Hl'. simpl in Hl'.
  destruct z as [f fs|l o fs]; [done|]. destruct Hz' as (Hwl & _ & Hwf). cbn [after negb zstack] in *.
  rewrite length_app in Hl'. rewrite pop_remaining_ok by (done || rewrite length_reverse; lia).
  rewrite ret_bind. destruct fs as [|[p f] fs]; [|done].
  rewrite combine_post. cbn [zout fout]. rewrite reverse_app, reverse_involutive. simpl.
  rewrite <-app_assoc. do 4 f_equal. by destruct l as [[]|].
Qed.

(** ** Soundness and completeness for the grammar *)
Lemma verdict_sound e : verdict = inr e → etoks e = seq 0 cnt ∧ ewf e.
Proof.
  unfold verdict. intros H. assert (zwf zinit) as Hz by repeat constructor.
  destruct (zrun (seq 0 cnt) zinit) as [?|[f fs|l o [|[p f] fs]]] eqn:Hr; simplify_eq.
  destruct (zrun_ok _ _ _ Hz Hr) as [(Hl & Ho & _) Ht]. rewrite combine_toks.
  split; [exact Ht|by apply combine_wf].
Qed.

Lemma run_operand :
  (∀ o f fs, owf o → zrun (otoks o) (Expect f fs) = inr (After (left f) (negate (nots f) o) fs)) ∧
  (∀ e fs, ewf e → ∃ l o, zrun (etoks e) (Expect (Frame None []) fs) = inr (After l o fs) ∧
                          combine l o = e).
Proof.
  apply expr_mut; simpl.
  - intros i f fs Hi. by rewrite Hi.
  - intros i o IH f fs [Hi Ho]. rewrite Hi. simpl. by rewrite IH.
  - intros i e IH j f fs (Hi & He & Hj). rewrite Hi. simpl.
    destruct (IH ((i, f) :: fs) He) as (l & o & Hr & <-). rewrite zrun_app, Hr. simpl. by rewrite Hj.
  - intros o IH fs Ho. exists None, o. by rewrite IH.
  - intros l IHl i o IHo fs (Hl & Hi & Ho). destruct (IHl fs Hl) as (l' & o' & Hr & Hc).
    exists (Some (l, i)), o. rewrite zrun_app, Hr. cbn [zrun]. split; [|done].
    destruct Hi as [-> | ->]; simpl; by rewrite IHo, Hc.
Qed.
Lemma verdict_complete e : etoks e = seq 0 cnt → ewf e → verdict = inr e.
Proof.
  intros Ht Hw. destruct (proj2 run_operand e [] Hw) as (l & o & Hr & Hc).
  unfold verdict, zinit. by rewrite <-Ht, Hr, Hc.
Qed.
Lemma verdict_err i m : (0 < cnt)%nat → verdict = inl (i, m) → (i < cnt)%nat.
Proof.
  intros Hpos. unfold verdict. assert (zwf zinit) as Hz by repeat constructor.
  destruct (zrun (seq 0 cnt) zinit) as [[k m']|[f fs|l o [|[p f] fs]]] eqn:Hr; intros; simplify_eq.
  - apply zrun_err, elem_of_seq in Hr. lia.
  - lia.
  - destruct (zrun_ok _ _ _ Hz Hr) as [_ Ht]. simpl in Ht.
    assert (i ∈ seq 0 cnt) as Hi by (rewrite <-Ht; set_solver). apply elem_of_seq in Hi. lia.
Qed.
End simulation.
End parse.
