(* ===== verification/LtpBoolExprEval.v ===== *)
(** * ltp: the linked expression and its value

    The list the shunting yard links is the postfix order of the expression;
    walking it evaluates the expression, unless a variable is undefined or
    more than sixteen values are pending. *)

From Stdlib Require Import String Ascii.
From S2P Require Import Prelude LtpBoolExpr LtpBoolExprSpec LtpBoolExprParse.

(** ** Linking *)
(** Following [next] from [i] meets exactly [l]. *)
Fixpoint chain (b : list tst_expr_tok) (i : option nat) (l : list nat) : Prop :=
  match l with
  | [] => i = None
  | k :: l => i = Some k ∧ ∃ t, b !! k = Some t ∧ chain b (next t) l
  end.
(** The buffers agree except for the links. *)
Definition same_toks (b b' : list tst_expr_tok) : Prop :=
  (λ t, set_next t None) <$> b = (λ t, set_next t None) <$> b'.

Lemma chain_insert b i l k t : k ∉ l → chain b i l → chain (<[k := t]> b) i l.
Proof.
  revert i. induction l as [|j l IH]; intros i Hk; simpl; [done|].
  apply not_elem_of_cons in Hk as [Hj Hk].
  intros (-> & t' & Ht' & Hc). split; [done|]. exists t'. rewrite list_lookup_insert_ne by done. eauto.
Qed.
Lemma same_toks_set_next b i t n : b !! i = Some t → same_toks (<[i := set_next t n]> b) b.
Proof.
  intros Ht. unfold same_toks. rewrite list_fmap_insert. apply list_insert_id.
  by rewrite list_lookup_fmap, Ht.
Qed.
Lemma link_ok out b : NoDup out → Forall (λ i, i < length b)%nat out →
  ∃ b', link b out = Done b' ∧ chain b' (head out) out ∧ same_toks b' b ∧
    ∀ k, k ∉ out → b' !! k = b !! k.
Proof.
  intros Hnd. revert b. induction Hnd as [|i out Hi Hnd IH]; intros b Hlt; [by exists b|].
  apply Forall_cons in Hlt as [Hb Hlt]. apply lookup_lt_is_Some in Hb as [t Ht].
  destruct (IH (<[i := set_next t (head out)]> b)) as (b' & Hl & Hc & Hs & Hk).
  { by rewrite length_insert. }
  exists b'. cbn [link]. rewrite Ht. split_and!; [done|..].
  - simpl. split; [done|]. exists (set_next t (head out)). split; [|done].
    rewrite Hk by done. apply list_lookup_insert_eq. by eapply lookup_lt_Some.
  - unfold same_toks in *. rewrite Hs. by apply same_toks_set_next.
  - intros k [Hki Hko]%not_elem_of_cons. rewrite Hk by done. by apply list_lookup_insert_ne.
Qed.

Lemma same_toks_lookup b b' k : same_toks b b' →
  (λ t, set_next t None) <$> b !! k = (λ t, set_next t None) <$> b' !! k.
Proof. intros H. by rewrite <-!list_lookup_fmap, H. Qed.
Lemma same_toks_kind b b' k : same_toks b b' → kind b k = kind b' k.
Proof.
  intros H. apply (same_toks_lookup _ _ k) in H. unfold kind.
  destruct (b !! k), (b' !! k); simpl in *; try done. unfold set_next in H. congruence.
Qed.
Lemma same_toks_length b b' : same_toks b b' → length b = length b'.
Proof. intros H. apply (f_equal length) in H. by rewrite !length_fmap in H. Qed.
Lemma same_toks_text text b b' : same_toks b b' → tok_text text <$> b = tok_text text <$> b'.
Proof.
  intros H. apply (f_equal (fmap (M:=list) (tok_text text))) in H. by rewrite <-!list_fmap_compose in H.
Qed.
Lemma wf_kind b b' : (∀ k, kind b k = kind b' k) →
  (∀ o, owf b o → owf b' o) ∧ (∀ e, ewf b e → ewf b' e).
Proof.
  intros Hk. apply expr_mut; simpl; unfold binary.
  - intros i. by rewrite Hk.
  - intros i o IH. rewrite <-Hk. tauto.
  - intros i e IH j. rewrite <-!Hk. tauto.
  - done.
  - intros l IHl i o IHo. rewrite <-!Hk. tauto.
Qed.

(** ** The meaning of an expression *)
Section meaning.
Context (map : tst_expr_tok → Z) (b : list tst_expr_tok).

(** The value of the variable at an index. *)
Definition value (i : nat) : Z := match b !! i with Some t => map t | None => -1 end.
Definition apply_op (i : nat) (x y : Z) : Z :=
  if decide (kind b i = Some TST_OP_AND)
  then truth (negb (x =? 0) && negb (y =? 0)) else truth (negb (x =? 0) || negb (y =? 0)).
Fixpoint osem (o : operand) : Z :=
  match o with
  | OVar i => value i
  | ONot _ o => truth (osem o =? 0)
  | OPar _ e _ => esem e
  end
with esem (e : bexpr) : Z :=
  match e with
  | EOp o => osem o
  | EBin l i o => apply_op i (esem l) (osem o)
  end.

(** The values pending at once, at most. *)
Fixpoint oneed (o : operand) : nat :=
  match o with OVar _ => 1 | ONot _ o => oneed o | OPar _ e _ => eneed e end
with eneed (e : bexpr) : nat :=
  match e with EOp o => oneed o | EBin l _ o => eneed l `max` S (oneed o) end.
Fixpoint odefined (o : operand) : bool :=
  match o with OVar i => negb (value i =? -1) | ONot _ o => odefined o | OPar _ e _ => edefined e end
with edefined (e : bexpr) : bool :=
  match e with EOp o => odefined o | EBin l _ o => edefined l && odefined o end.

(** The evaluator over the indices of a chain. *)
Fixpoint eval_ks (ks : list nat) (stack : list Z) : outcome Z :=
  match ks with
  | [] => access (last stack)
  | k :: ks =>
      t ← access (b !! k);
      match op t with
      | TST_OP_NOT =>
          match stack with x :: s => eval_ks ks (truth (x =? 0) :: s) | [] => Undef end
      | TST_OP_OR =>
          match stack with
          | x :: y :: s => eval_ks ks (truth (negb (x =? 0) || negb (y =? 0)) :: s)
          | _ => Undef
          end
      | TST_OP_AND =>
          match stack with
          | x :: y :: s => eval_ks ks (truth (negb (x =? 0) && negb (y =? 0)) :: s)
          | _ => Undef
          end
      | TST_OP_VAR =>
          if (MAX_STACK <=? length stack)%nat then mret (-1) else
          if map t =? -1 then mret (-1) else eval_ks ks (map t :: stack)
      | TST_OP_LPAR | TST_OP_RPAR => eval_ks ks stack
      end
  end.
Lemma eval_chain fuel i ks stack : chain b i ks → (length ks ≤ fuel)%nat →
  eval_loop map fuel b i stack = eval_ks ks stack.
Proof.
  revert fuel i stack. induction ks as [|k ks IH]; intros fuel i stack Hc Hf; simpl in Hc.
  - subst. by destruct fuel.
  - destruct Hc as (-> & t & Ht & Hc). destruct fuel as [|fuel]; simpl in Hf; [lia|].
    cbn [eval_loop eval_ks]. rewrite Ht. cbn [access]. rewrite !ret_bind.
    destruct (op t); try (destruct stack as [|x [|y s]]; try done; by apply IH; [|lia]).
    destruct (_ <=? _)%nat; [done|]. destruct (map t =? -1); [done|]. by apply IH; [|lia].
Qed.

(** An operand leaves its value on the stack, or the evaluation stops. *)
Definition runs (d n : nat) (defined : bool) : bool := (d + n <=? MAX_STACK)%nat && defined.
Lemma runs_and d n n' f f' :
  runs d n f && runs (S d) n' f' = runs d (n `max` S n') (f && f').
Proof.
  unfold runs. destruct f, f'; rewrite ?andb_false_r, ?andb_true_r; try done.
  apply eq_iff_eq_true. rewrite andb_true_iff, !Nat.leb_le. lia.
Qed.
Lemma eval_expr :
  (∀ o ks stack, owf b o → eval_ks (opost o ++ ks) stack =
    if runs (length stack) (oneed o) (odefined o) then eval_ks ks (osem o :: stack) else Done (-1)) ∧
  (∀ e ks stack, ewf b e → eval_ks (epost e ++ ks) stack =
    if runs (length stack) (eneed e) (edefined e) then eval_ks ks (esem e :: stack) else Done (-1)).
Proof.
  apply expr_mut.
  - intros i ks stack Hi. destruct (kind_access _ _ _ Hi) as (t & Ht & Hop).
    cbn [opost app eval_ks oneed odefined osem]. unfold value. rewrite Ht. cbn [access].
    rewrite ret_bind, Hop. unfold runs. rewrite Nat.add_1_r.
    change (S (length stack) <=? MAX_STACK)%nat with (length stack <? MAX_STACK)%nat.
    rewrite Nat.leb_antisym. destruct (length stack <? MAX_STACK)%nat; [|done]. cbn [negb andb].
    by destruct (map t =? -1).
  - intros i o IH ks stack [Hi Ho]. destruct (kind_access _ _ _ Hi) as (t & Ht & Hop).
    cbn [opost oneed odefined osem]. rewrite <-app_assoc, IH by done.
    destruct (runs _ _ _); [|done]. cbn [app eval_ks]. by rewrite Ht; cbn [access]; rewrite ret_bind, Hop.
  - intros i e IH j ks stack (_ & He & _). by apply IH.
  - intros o IH ks stack Ho. by apply IH.
  - intros l IHl i o IHo ks stack (Hl & Hi & Ho). cbn [epost eneed edefined esem].
    rewrite <-!app_assoc, IHl, <-runs_and by done. destruct (runs _ (eneed l) _); [|done].
    rewrite IHo by done. cbn [length andb]. destruct (runs _ _ _); [|done]. cbn [app eval_ks].
    unfold apply_op.
    destruct Hi as [Hi|Hi]; destruct (kind_access _ _ _ Hi) as (t & Ht & Hop);
      rewrite Hi, Ht; cbn [access]; rewrite ret_bind, Hop.
    + by rewrite decide_True, andb_comm.
    + by rewrite decide_False, orb_comm.
Qed.
Lemma eval_ok e i fuel : ewf b e → chain b i (epost e) → (length (epost e) ≤ fuel)%nat →
  eval_loop map fuel b i [] =
  Done (if (eneed e <=? MAX_STACK)%nat && edefined e then esem e else -1).
Proof.
  intros He Hc Hf. rewrite (eval_chain _ _ _ _ Hc Hf), <-(app_nil_r (epost e)).
  rewrite (proj2 eval_expr) by done. unfold runs. simpl. by destruct (_ && _).
Qed.
End meaning.

(** ** Printing *)
Fixpoint spaced (l : list cstring) : cstring :=
  match l with
  | [] => []
  | [x] => x
  | x :: l => x ++ " "%char :: spaced l
  end.
Lemma print_chain text b fuel i ks : chain b i ks → (length ks ≤ fuel)%nat →
  ∃ ts, Forall2 (λ k t, b !! k = Some t) ks ts ∧
    print_loop fuel text b i = Done (spaced (tok_text text <$> ts)).
Proof.
  revert fuel i. induction ks as [|k ks IH]; intros fuel i Hc Hf; simpl in Hc.
  - subst. exists []. by destruct fuel.
  - destruct Hc as (-> & t & Ht & Hc). destruct fuel as [|fuel]; simpl in Hf; [lia|].
    destruct (IH fuel _ Hc ltac:(lia)) as (ts & Hts & Hp). exists (t :: ts). split; [by constructor|].
    cbn [print_loop]. rewrite Ht. cbn [access]. rewrite ret_bind, Hp, ret_bind.
    destruct Hts as [|k' t' ks ts Hk Hts]; simpl in Hc.
    + rewrite Hc. simpl. by rewrite app_nil_r.
    + destruct Hc as [-> _]. done.
Qed.

(** ** Parsing as a whole *)
Lemma post_nodup e n : etoks e = seq 0 n →
  NoDup (epost e) ∧ Forall (λ i, i < n)%nat (epost e) ∧ (length (epost e) ≤ n)%nat.
Proof.
  intros He. pose proof (proj2 post_sub e) as Hs. rewrite He in Hs. split_and!.
  - apply submseteq_Permutation in Hs as [k Hk]. pose proof (NoDup_seq 0 n) as Hnd.
    rewrite Hk in Hnd. by apply NoDup_app in Hnd as [? _].
  - apply Forall_forall. intros i Hi. apply (elem_of_submseteq _ _ _ Hi) in Hs.
    apply elem_of_seq in Hs. lia.
  - apply submseteq_length in Hs. by rewrite length_seq in Hs.
Qed.

Lemma first_marked_ok b i t m n : Forall (λ t, priv t = None) b → b !! i = Some t →
  first_marked (<[i := set_priv t m]> b) n = (n + i)%nat.
Proof.
  intros Hb. revert i n. induction Hb as [|t' b Ht' Hb IH]; intros i n Hi; [done|].
  destruct i as [|i]; simpl in *; [simplify_eq; simpl; lia|].
  rewrite Ht', IH by done. lia.
Qed.

(** The three lines of an error report: the expression from its first token,
    a caret under the token, the message. *)
Definition report (text : cstring) (t0 t : tst_expr_tok) (m : cstring) : cstring :=
  drop (tok t0) text ++ newline ++
  print_spaces (tok t - tok t0) ++ ["^"%char] ++ newline ++
  (if (length m <? tok t - tok t0)%nat then print_spaces (tok t - tok t0 - length m + 1) else []) ++
  m ++ newline.

Lemma err_ok text b i t0 t m : Forall (λ t, priv t = None) b → b !! 0%nat = Some t0 →
  b !! i = Some t → (tok t0 ≤ tok t)%nat → Z.of_nat (tok t) < 2 ^ 32 →
  tst_bool_expr_err text (Expr None (<[i := set_priv t m]> b)) (length b) =
  Done (report text t0 t m).
Proof.
  intros Hp H0 Hi Hle Hlt. unfold tst_bool_expr_err. cbn [buf].
  rewrite take_ge by (by rewrite length_insert). rewrite (first_marked_ok b i t m 0 Hp Hi). simpl.
  pose proof (lookup_lt_Some _ _ _ Hi) as Hl.
  assert (∃ t0', <[i := set_priv t m]> b !! 0%nat = Some t0' ∧ tok t0' = tok t0) as (t0' & H0' & Ht0).
  { destruct i as [|i]; [|by rewrite list_lookup_insert_ne by done; exists t0].
    rewrite list_lookup_insert_eq by done. eexists. split; [done|]. simpl. by simplify_eq. }
  rewrite H0', list_lookup_insert_eq by done. simpl. rewrite Ht0.
  rewrite u32_small by (unfold in_u32; lia).
  replace (Z.to_nat (Z.of_nat (tok t) - Z.of_nat (tok t0))) with (tok t - tok t0)%nat by lia. done.
Qed.

(** The parse of a text with at least one token, by its verdict. *)
Lemma parse_ok text : Z.of_nat (length text) < 2 ^ 32 →
  let ts := tokens text in
  tok_text text <$> ts = lex false [] text ∧ Forall (tok_ok text) ts ∧ ascending 0 ts ∧
    if decide (ts = []) then tst_bool_expr_parse true text = Done (None, []) else
    match verdict ts (length ts) with
    | inr e => ∃ ret, tst_bool_expr_parse true text = Done (Some ret, []) ∧
        same_toks (buf ret) ts ∧ chain (buf ret) (rpn ret) (epost e)
    | inl (i, m) => ∃ t0 t, ts !! 0%nat = Some t0 ∧ ts !! i = Some t ∧ (tok t0 ≤ tok t)%nat ∧
        tst_bool_expr_parse true text = Done (None, report text t0 t m)
    end.
Proof.
  intros Hlen. destruct (tokenize_ok text Hlen) as (Ht & Hf & Ha & Hcount & Hfill).
  cbv zeta. generalize dependent (tokens text). intros ts Ht Hf Ha Hcount Hfill. do 3 (split; [done|]). unfold tst_bool_expr_parse. rewrite Hcount, ret_bind.
  case_decide as Hts; [by subst|].
  assert (0 < length ts)%nat as Hpos by (destruct ts; simpl; [done|lia]).
  rewrite (proj2 (Z.eqb_neq _ _)) by lia. cbn [negb]. rewrite Nat2Z.id, Hfill, ret_bind.
  cbn [access]. rewrite ret_bind. unfold shunting_yard. cbn [buf rpn].
  rewrite (translate_ok ts (length ts)), ret_bind by done.
  destruct (verdict ts (length ts)) as [[i m]|e] eqn:Hv.
  - pose proof (verdict_err _ _ _ _ Hpos Hv) as Hi.
    apply lookup_lt_is_Some in Hi as [t Hi]. apply lookup_lt_is_Some in Hpos as [t0 H0].
    assert (tok t0 ≤ tok t)%nat as Hle.
    { destruct ts as [|t0' ts]; [done|]. destruct Ha as [_ Ha]. destruct i; simpl in *; simplify_eq; [done|].
      pose proof (ascending_first _ _ _ _ Ha Hi). lia. }
    exists t0, t. split_and!; try done. rewrite Hi. cbn [access]. rewrite !ret_bind, (err_ok text ts i t0 t).
    + done.
    + eapply Forall_impl; [done|]. by intros t' (_ & _ & _ & _ & ? & _).
    + done.
    + done.
    + done.
    + rewrite Forall_lookup in Hf. destruct (Hf _ _ Hi) as (? & ? & _). lia.
  - destruct (verdict_sound _ _ _ Hv) as [He Hw]. destruct (post_nodup _ _ He) as (Hnd & Hlt & Hl).
    destruct (link_ok _ _ Hnd Hlt) as (b & Hlink & Hc & Hs & _).
    rewrite stack_push_ok by lia. rewrite ret_bind, Hlink, !ret_bind. by eexists.
Qed.
