(* ===== verification/LtpKver.v ===== *)
(** * ltp: kernel versions ([lib/tst_kvercmp.c])

    Parsing "major.minor.patch" with [strtoul] and comparing versions packed
    into an [int], and the comparison of vendor versions with [sscanf]. A
    string is the list of its characters before the NUL; arithmetic on [int]
    that does not fit, and a left shift of a negative [int], are undefined. *)

From Stdlib Require Import String Ascii.
From S2P Require Import Prelude LtpBoolExpr.

Definition INT_MAX : Z := 2 ^ 31 - 1.
Definition ULONG_MAX : Z := 2 ^ 64 - 1.
Definition int (x : Z) : outcome Z :=
  if (- 2 ^ 31 <=? x) && (x <=? INT_MAX) then Done x else Undef.
(** [x << n] on [int]. *)
Definition shl_int (x n : Z) : outcome Z :=
  if x <? 0 then Undef else int (Z.shiftl x n).

(** ** The number scanners of the C library *)
Definition code (c : ascii) : Z := Z.of_nat (nat_of_ascii c).
Definition isspace (c : ascii) : bool := (code c =? 32) || ((9 <=? code c) && (code c <=? 13)).
Definition isdigit (c : ascii) : bool := (48 <=? code c) && (code c <=? 57).
Definition digit_val (c : ascii) : Z := code c - 48.

Fixpoint skip_space (s : cstring) : cstring :=
  match s with c :: s' => if isspace c then skip_space s' else s | [] => [] end.
(** The optional sign: whether it is a minus, and the rest. *)
Definition scan_sign (s : cstring) : bool * cstring :=
  match s with
  | c :: s' => if Ascii.eqb c "-" then (true, s') else if Ascii.eqb c "+" then (false, s') else (false, s)
  | [] => (false, [])
  end.
Fixpoint scan_digits (s : cstring) (acc : Z) : Z * cstring :=
  match s with
  | c :: s' => if isdigit c then scan_digits s' (10 * acc + digit_val c) else (acc, s)
  | [] => (acc, [])
  end.
(** A decimal number with an optional sign, or [None] if there is no digit. *)
Definition scan_number (s : cstring) : option (bool * Z * cstring) :=
  let '(neg, s) := scan_sign (skip_space s) in
  match s with
  | c :: _ => if isdigit c then let '(v, rest) := scan_digits s 0 in Some (neg, v, rest) else None
  | [] => None
  end.

(** [strtoul(str, &end, 10)]; [None] when [end == str]. *)
Definition strtoul (s : cstring) : option (Z * cstring) :=
  match scan_number s with
  | None => None
  | Some (neg, v, rest) =>
      Some (if ULONG_MAX <? v then ULONG_MAX else if neg : bool then u64 (- v) else v, rest)
  end.

(** ** Versions *)
(** The end of the number and the value for [*d], or [None] for NULL. *)
Definition parse_digit (str : cstring) : option (cstring * Z) :=
  match strtoul str with
  | None => None
  | Some (v, end_) => if INT_MAX <? v then None else Some (end_, v)
  end.

(** [*(str++) != '.']: the rest of the string after the dot. *)
Definition dot (str : cstring) : option cstring :=
  match str with c :: s => if Ascii.eqb c "." then Some s else None | [] => None end.
Definition version_end (str : cstring) : bool :=
  match str with [] => true | c :: _ => Ascii.eqb c " " || Ascii.eqb c "-" end.

(** The return value and the three numbers as the call leaves them. *)
Definition tst_parse_kver (str_kver : cstring) : Z * (Z * Z * Z) :=
  match parse_digit str_kver with
  | None => (1, (0, 0, 0))
  | Some (str, v1) =>
      match dot str with
      | None => (1, (v1, 0, 0))
      | Some str =>
          match parse_digit str with
          | None => (1, (v1, 0, 0))
          | Some (str, v2) =>
              if version_end str then (0, (v1, v2, 0)) else
              match dot str with
              | None => (1, (v1, v2, 0))
              | Some str =>
                  match parse_digit str with
                  | None => (1, (v1, v2, 0))
                  | Some (_, v3) => (0, (v1, v2, v3))
                  end
              end
          end
      end
  end.

(** [(v1 << 20) + (v2 << 10) + v3] *)
Definition pack (v1 v2 v3 : Z) : outcome Z :=
  a ← shl_int v1 20;
  b ← shl_int v2 10;
  s ← int (a + b);
  int (s + v3).

(** The result, and whether the invalid version was warned about. *)
Definition tst_kvcmp (cur_kver : cstring) (r1 r2 r3 : Z) : outcome (Z * bool) :=
  let '(bad, (a1, a2, a3)) := tst_parse_kver cur_kver in
  testver ← pack r1 r2 r3;
  currver ← pack a1 a2 a3;
  d ← int (currver - testver);
  mret (d, negb (bad =? 0)).

(** [release] is what [uname] reports. *)
Definition tst_kvercmp (release : cstring) (r1 r2 r3 : Z) : outcome (Z * bool) :=
  tst_kvcmp release r1 r2 r3.

(** ** Vendor versions: [sscanf(s, "%d.%d.%d-%d.%d", ...)] *)
(** [%d]: the number, [None] when it does not match; a value that is not an
    [int] is undefined. *)
Definition scan_d (s : cstring) : outcome (option (Z * cstring)) :=
  match scan_number s with
  | None => mret None
  | Some (neg, v, rest) => n ← int (if neg : bool then - v else v); mret (Some (n, rest))
  end.
(** A literal character of the format. *)
Definition scan_char (c : ascii) (s : cstring) : option cstring :=
  match s with x :: s' => if Ascii.eqb x c then Some s' else None | [] => None end.
(** The conversions in turn, each after its separator; the numbers that are not
    reached keep the 0 they were initialised with. *)
Fixpoint scan_fields (seps : list (option ascii)) (s : cstring) : outcome (list Z) :=
  match seps with
  | [] => mret []
  | sep :: seps =>
      let stop := mret (replicate (S (length seps)) 0) in
      match (match sep with Some c => scan_char c s | None => Some s end) with
      | None => stop
      | Some s =>
          r ← scan_d s;
          match r with
          | None => stop
          | Some (n, s) => ns ← scan_fields seps s; mret (n :: ns)
          end
      end
  end.
Definition vendor_format : list (option ascii) :=
  [None; Some "."; Some "."; Some "-"; Some "."]%char.

(** The first difference that is not 0, or the last. *)
Fixpoint first_difference (cs ts : list Z) : outcome Z :=
  match cs, ts with
  | [c], [t] => int (c - t)
  | c :: cs, t :: ts => ret ← int (c - t); if ret =? 0 then first_difference cs ts else mret ret
  | _, _ => mret 0
  end.
Definition tst_kvexcmp (tst_exv cur_ver : cstring) : outcome Z :=
  cs ← scan_fields vendor_format cur_ver;
  ts ← scan_fields vendor_format tst_exv;
  first_difference cs ts.
