(* ===== verification/LtpKverSpec.v ===== *)
(** * ltp: kernel versions, what the comparisons order

    Numbers as strings of digits, the packed comparison as the lexicographic
    order within its fields, and the vendor comparison as the lexicographic
    order of five numbers. *)

From Stdlib Require Import String Ascii.
From S2P Require Import Prelude LtpBoolExpr LtpBoolExprParse LtpKver.

(** ** Numbers *)
(** A number as it is written: at least one digit. *)
Definition digits (ds : cstring) : Prop := ds ≠ [] ∧ Forall (λ c, isdigit c = true) ds.
(** Its value, the first digit the most significant. *)
Definition dec (ds : cstring) : Z := foldl (λ acc c, 10 * acc + digit_val c) 0 ds.
Definition no_digit (rest : cstring) : Prop :=
  match rest with [] => True | c :: _ => isdigit c = false end.

Lemma scan_digits_ok ds rest acc : Forall (λ c, isdigit c = true) ds → no_digit rest →
  scan_digits (ds ++ rest) acc = (foldl (λ acc c, 10 * acc + digit_val c) acc ds, rest).
Proof.
  intros Hd Hr. revert acc. induction Hd as [|c ds Hc Hd IH]; intros acc.
  - destruct rest as [|c rest]; simpl in *; [done|]. by rewrite Hr.
  - simpl. by rewrite Hc, IH.
Qed.
Lemma digit_not_special c : isdigit c = true →
  isspace c = false ∧ Ascii.eqb c "-" = false ∧ Ascii.eqb c "+" = false.
Proof.
  intros [H1%Z.leb_le H2%Z.leb_le]%andb_true_iff. unfold isspace. split_and!.
  - apply orb_false_iff. rewrite andb_false_iff, Z.eqb_neq, !Z.leb_gt. lia.
  - apply Ascii.eqb_neq. intros ->. vm_compute in H1. done.
  - apply Ascii.eqb_neq. intros ->. vm_compute in H1. done.
Qed.
Lemma scan_number_ok ds rest : digits ds → no_digit rest →
  scan_number (ds ++ rest) = Some (false, dec ds, rest).
Proof.
  intros [Hne Hd] Hr. destruct ds as [|c ds]; [done|]. unfold scan_number.
  destruct (digit_not_special c) as (Hs & Hm & Hp); [by inversion Hd|].
  simpl. rewrite Hs. unfold scan_sign. rewrite Hm, Hp.
  rewrite (Forall_inv Hd : isdigit c = true).
  change (c :: ds ++ rest) with ((c :: ds) ++ rest). by rewrite (scan_digits_ok (c :: ds) rest 0 Hd Hr).
Qed.
Lemma dec_nonneg ds : Forall (λ c, isdigit c = true) ds → 0 ≤ dec ds.
Proof.
  intros Hd. unfold dec. cut (∀ acc, 0 ≤ acc → 0 ≤ foldl (λ acc c, 10 * acc + digit_val c) acc ds); [auto with lia|].
  induction Hd as [|c ds Hc _ IH]; intros acc Ha; simpl; [done|]. apply IH.
  apply andb_true_iff in Hc as [Hc%Z.leb_le _]. unfold digit_val. lia.
Qed.
Lemma parse_digit_ok ds rest : digits ds → no_digit rest → dec ds ≤ INT_MAX →
  parse_digit (ds ++ rest) = Some (rest, dec ds).
Proof.
  intros Hd Hr Hv. unfold parse_digit, strtoul. rewrite (scan_number_ok _ _ Hd Hr).
  unfold INT_MAX, ULONG_MAX in *. rewrite (proj2 (Z.ltb_ge _ (dec ds))) by lia.
  by rewrite (proj2 (Z.ltb_ge _ (dec ds))) by lia.
Qed.

(** ** Version strings *)
Definition dotted (ds : cstring) (rest : cstring) : cstring := ds ++ "."%char :: rest.
Lemma parse_short ds1 ds2 rest : digits ds1 → digits ds2 → version_end rest = true →
  dec ds1 ≤ INT_MAX → dec ds2 ≤ INT_MAX →
  tst_parse_kver (dotted ds1 (ds2 ++ rest)) = (0, (dec ds1, dec ds2, 0)).
Proof.
  intros H1 H2 Hr V1 V2. unfold tst_parse_kver, dotted. rewrite (parse_digit_ok ds1) by done.
  cbn [dot]. rewrite Ascii.eqb_refl, (parse_digit_ok ds2); [by rewrite Hr|done| |done].
  destruct rest as [|c rest]; [done|]. simpl in *. by apply orb_true_iff in Hr as [->%Ascii.eqb_eq| ->%Ascii.eqb_eq].
Qed.
Lemma parse_full ds1 ds2 ds3 rest : digits ds1 → digits ds2 → digits ds3 → no_digit rest →
  dec ds1 ≤ INT_MAX → dec ds2 ≤ INT_MAX → dec ds3 ≤ INT_MAX →
  tst_parse_kver (dotted ds1 (dotted ds2 (ds3 ++ rest))) = (0, (dec ds1, dec ds2, dec ds3)).
Proof.
  intros H1 H2 H3 Hr V1 V2 V3. unfold tst_parse_kver, dotted. rewrite (parse_digit_ok ds1) by done.
  cbn [dot]. rewrite Ascii.eqb_refl, (parse_digit_ok ds2) by done. cbn [version_end dot].
  by rewrite Ascii.eqb_refl, (parse_digit_ok ds3) by done.
Qed.

(** ** Packing *)
Definition fields_ok (v1 v2 v3 : Z) : Prop :=
  0 ≤ v1 < 2048 ∧ 0 ≤ v2 < 1024 ∧ 0 ≤ v3 < 1024.
Lemma int_ok x : - 2 ^ 31 ≤ x ≤ INT_MAX → int x = Done x.
Proof.
  intros [H1 H2]. unfold int. by rewrite (proj2 (Z.leb_le _ _) H1), (proj2 (Z.leb_le _ _) H2).
Qed.
Lemma shl_int_ok x n : 0 ≤ n → 0 ≤ x → x * 2 ^ n ≤ INT_MAX → shl_int x n = Done (x * 2 ^ n).
Proof.
  intros Hn Hx Hv. unfold shl_int. rewrite (proj2 (Z.ltb_ge _ _) Hx), Z.shiftl_mul_pow2 by done.
  apply int_ok. split; [|done]. transitivity 0; [lia|]. apply Z.mul_nonneg_nonneg; [done|]. apply Z.pow_nonneg. lia.
Qed.
Lemma pack_ok v1 v2 v3 : 0 ≤ v1 → 0 ≤ v2 → 0 ≤ v3 →
  v1 * 1048576 + v2 * 1024 + v3 ≤ INT_MAX →
  pack v1 v2 v3 = Done (v1 * 1048576 + v2 * 1024 + v3).
Proof.
  intros H1 H2 H3 Hv. unfold pack, INT_MAX in *.
  rewrite (shl_int_ok v1 20) by (unfold INT_MAX; lia). rewrite ret_bind.
  rewrite (shl_int_ok v2 10) by (unfold INT_MAX; lia). rewrite ret_bind.
  change (2 ^ 20) with 1048576. change (2 ^ 10) with 1024.
  rewrite int_ok by (unfold INT_MAX; lia). rewrite ret_bind. apply int_ok. unfold INT_MAX. lia.
Qed.

(** The order on versions. *)
Definition lex3 (a r : Z * Z * Z) : comparison :=
  match a.1.1 ?= r.1.1 with
  | Eq => match a.1.2 ?= r.1.2 with Eq => a.2 ?= r.2 | c => c end
  | c => c
  end.
Lemma pack_compare a1 a2 a3 r1 r2 r3 : fields_ok a1 a2 a3 → fields_ok r1 r2 r3 →
  ((a1 * 1048576 + a2 * 1024 + a3) - (r1 * 1048576 + r2 * 1024 + r3) ?= 0) =
  lex3 (a1, a2, a3) (r1, r2, r3).
Proof.
  intros (? & ? & ?) (? & ? & ?). unfold lex3. simpl.
  destruct (Z.compare_spec a1 r1); [|apply Z.compare_lt_iff; lia|apply Z.compare_gt_iff; lia].
  destruct (Z.compare_spec a2 r2); [|apply Z.compare_lt_iff; lia|apply Z.compare_gt_iff; lia].
  destruct (Z.compare_spec a3 r3); [apply Z.compare_eq_iff; lia|apply Z.compare_lt_iff; lia|apply Z.compare_gt_iff; lia].
Qed.
Lemma kvcmp_ok kver a1 a2 a3 r1 r2 r3 : tst_parse_kver kver = (0, (a1, a2, a3)) →
  0 ≤ a1 → 0 ≤ a2 → 0 ≤ a3 → a1 * 1048576 + a2 * 1024 + a3 ≤ INT_MAX →
  0 ≤ r1 → 0 ≤ r2 → 0 ≤ r3 → r1 * 1048576 + r2 * 1024 + r3 ≤ INT_MAX →
  tst_kvcmp kver r1 r2 r3 =
  Done ((a1 * 1048576 + a2 * 1024 + a3) - (r1 * 1048576 + r2 * 1024 + r3), false).
Proof.
  intros Hp ? ? ? ? ? ? ? ?. unfold tst_kvcmp. rewrite Hp, !pack_ok, !ret_bind by done.
  unfold INT_MAX in *. rewrite int_ok by (unfold INT_MAX; lia). done.
Qed.

(** ** Vendor versions *)
(** A version written with all its separators. *)
Fixpoint vendor (seps : list (option ascii)) (nums : list cstring) (rest : cstring) : cstring :=
  match seps, nums with
  | sep :: seps, ds :: nums =>
      match sep with Some c => [c] | None => [] end ++ ds ++ vendor seps nums rest
  | _, _ => rest
  end.
Definition sep_ok (sep : option ascii) : Prop :=
  match sep with Some c => isdigit c = false | None => False end.
Lemma vendor_no_digit seps nums rest :
  Forall sep_ok seps → length seps = length nums → no_digit rest → no_digit (vendor seps nums rest).
Proof.
  intros Hs Hl Hr. destruct Hs as [|[c|] seps Hc Hs], nums; simpl in *; try done.
Qed.
Lemma scan_fields_ok seps nums rest sep ds :
  Forall sep_ok seps → length seps = length nums → Forall (λ ds, digits ds ∧ dec ds ≤ INT_MAX) (ds :: nums) →
  no_digit rest →
  scan_fields (sep :: seps) (vendor (sep :: seps) (ds :: nums) rest) = Done (dec <$> ds :: nums).
Proof.
  intros Hs. revert nums sep ds. induction Hs as [|sep' seps Hsep Hs IH]; intros nums sep ds Hl Hd Hr;
    apply Forall_cons in Hd as [[Hds Hv] Hd]; pose proof (dec_nonneg _ (proj2 Hds)).
  - destruct nums; [|done]. destruct sep as [c|]; cbn [scan_fields vendor app scan_char];
      rewrite ?Ascii.eqb_refl; unfold scan_d; rewrite (scan_number_ok ds) by done;
      (rewrite int_ok by (unfold INT_MAX in *; lia)); done.
  - destruct nums as [|ds' nums]; [done|]. simpl in Hl.
    assert (no_digit (vendor (sep' :: seps) (ds' :: nums) rest)) as Hnd.
    { apply vendor_no_digit; [by constructor|simpl; lia|done]. }
    remember (vendor (sep' :: seps) (ds' :: nums) rest) as tail eqn:Etail.
    assert (vendor (sep :: sep' :: seps) (ds :: ds' :: nums) rest =
      match sep with Some c => [c] | None => [] end ++ ds ++ tail) as -> by (by subst).
    remember (sep' :: seps) as seps' eqn:Eseps.
    destruct sep as [c|]; cbn [scan_fields app scan_char];
      rewrite ?Ascii.eqb_refl; unfold scan_d; rewrite (scan_number_ok ds) by done;
      (rewrite int_ok by (unfold INT_MAX in *; lia)); rewrite !ret_bind; subst;
      (rewrite IH by (done || lia)); done.
Qed.

(** The order on lists of numbers of one length. *)
Fixpoint lex_list (cs ts : list Z) : comparison :=
  match cs, ts with
  | c :: cs, t :: ts => match c ?= t with Eq => lex_list cs ts | o => o end
  | _, _ => Eq
  end.
Lemma first_difference_ok cs ts : length cs = length ts →
  Forall (λ n, 0 ≤ n ≤ INT_MAX) cs → Forall (λ n, 0 ≤ n ≤ INT_MAX) ts →
  ∃ d, first_difference cs ts = Done d ∧ (d ?= 0) = lex_list cs ts.
Proof.
  revert ts. induction cs as [|c cs IH]; intros [|t ts] Hl Hc Ht; try done; [by exists 0|].
  apply Forall_cons in Hc as [Hc0 Hc]. apply Forall_cons in Ht as [Ht0 Ht]. simpl in Hl.
  assert (int (c - t) = Done (c - t)) as Hint by (apply int_ok; unfold INT_MAX in *; lia).
  assert (c - t ≠ 0 → (c - t ?= 0) = match c ?= t with Eq => lex_list cs ts | o => o end) as Hne.
  { intros. destruct (Z.compare_spec c t); [lia|apply Z.compare_lt_iff; lia|apply Z.compare_gt_iff; lia]. }
  destruct cs as [|c' cs], ts as [|t' ts]; try done.
  - exists (c - t). split; [done|]. cbn [lex_list]. destruct (Z.eq_dec (c - t) 0) as [E|E]; [|by apply Hne].
    assert (c = t) as -> by lia. by rewrite Z.sub_diag, !Z.compare_refl.
  - cbn [first_difference]. rewrite Hint, ret_bind.
    destruct (Z.eqb_spec (c - t) 0) as [E|E]; [|by exists (c - t); split; [|apply Hne]].
    destruct (IH (t' :: ts)) as (d & Hd & Hc'); [simpl in *; lia|done|done|].
    exists d. split; [exact Hd|]. cbn [lex_list] in *. assert (c = t) as -> by lia. by rewrite Z.compare_refl.
Qed.
