(* ===== verification/LtpKconfig.v ===== *)
(** * ltp: the kernel configuration ([lib/tst_kconfig.c])

    Constraints on the kernel configuration are boolean expressions over
    variables "CONFIG_NAME" or "CONFIG_NAME=value". [tst_kconfig_check] parses
    them, collects the variables, reads the values of these from the
    configuration file and evaluates the expressions.

    A pointer into a [char] array is the rest of the array from there; reading
    at its end is undefined. The environment, the file system and [zcat] are a
    parameter; [tst_brk] ends the test, which is [Abort]. *)

From Stdlib Require Import String Ascii.
From S2P Require Import Prelude LtpBoolExpr LtpKver.

Definition NUL : ascii := Ascii.zero.
Definition deref (p : cstring) : outcome ascii := access (head p).

(** ** What is used of [string.h] and [ctype.h] *)
Fixpoint skip_blanks (p : cstring) : outcome cstring :=
  match p with
  | [] => Undef
  | c :: p' => if isspace c then skip_blanks p' else mret p
  end.
Fixpoint starts_with (n p : cstring) : bool :=
  match n, p with
  | [], _ => true
  | a :: n', b :: p' => Ascii.eqb a b && starts_with n' p'
  | _, [] => false
  end.
Fixpoint strstr (p n : cstring) : outcome (option cstring) :=
  match p with
  | [] => Undef
  | c :: p' =>
      if starts_with n p then mret (Some p) else
      if Ascii.eqb c NUL then mret None else strstr p' n
  end.
(** [!strncmp(a, b, n)] *)
Fixpoint same_prefix (n : nat) (a b : cstring) : outcome bool :=
  match n with
  | O => mret true
  | S n =>
      x ← deref a;
      y ← deref b;
      if negb (Ascii.eqb x y) then mret false else
      if Ascii.eqb x NUL then mret true else same_prefix n (tail a) (tail b)
  end.
(** The characters before the NUL, of at most [n]. *)
Fixpoint strndup (p : cstring) (n : nat) : cstring :=
  match n, p with
  | S n, c :: p' => if Ascii.eqb c NUL then [] else c :: strndup p' n
  | _, _ => []
  end.
Definition between (a b : nat) (c : ascii) : bool := (a <=? nat_of_ascii c)%nat && (nat_of_ascii c <=? b)%nat.
Definition isupper (c : ascii) : bool := between 65 90 c.
Definition isalnum (c : ascii) : bool := isdigit c || isupper c || between 97 122 c.
Definition id_char (c : ascii) : bool := isupper c || isdigit c || Ascii.eqb c "_".

(** ** Variables *)
Record tst_kconfig_var : Type := Var {
  id : cstring;
  id_len : nat;
  choice : ascii;
  val : option cstring
}.
Definition set_choice (c : ascii) (v : tst_kconfig_var) : tst_kconfig_var :=
  Var (id v) (id_len v) c (val v).
Definition set_val (w : cstring) (v : tst_kconfig_var) : tst_kconfig_var :=
  Var (id v) (id_len v) "v" (Some w).
(** The array [id] as a pointer to its start. *)
Definition id_ptr (v : tst_kconfig_var) : cstring := id v ++ [NUL].
Definition SIZEOF_ID : nat := 64.

(** ** The environment *)
Record kconfig_env : Type := Env {
  (** [KCONFIG_SKIP_CHECK] is set, and [KCONFIG_PATH] *)
  skip_check : bool;
  env_path : option cstring;
  (** [!access(path, F_OK)], and [release] of [uname] *)
  exists_file : cstring → bool;
  release : cstring;
  (** The text [zcat] ([true]) or [fopen] gives, [None] when it fails. *)
  open_file : bool → cstring → option cstring;
  (** What the array [line] holds before a line is read. *)
  line0 : cstring
}.
Definition kconfig_skip_check (E : kconfig_env) : bool := skip_check E.
(** [snprintf] into the buffer of 1024 *)
Definition path_buf (E : kconfig_env) (before after : string) : cstring :=
  take 1023 (msg before ++ release E ++ msg after).
Definition kconfig_path (E : kconfig_env) : option cstring :=
  let rest :=
    if exists_file E (msg "/proc/config.gz") then Some (msg "/proc/config.gz") else
    let p := path_buf E "/lib/modules/" "/build/.config" in
    if exists_file E p then Some p else
    let p := path_buf E "/lib/modules/" "/config" in
    if exists_file E p then Some p else
    let p := path_buf E "/boot/config-" "" in
    if exists_file E p then Some p else
    let p := path_buf E "/lib/kernel/config-" "" in
    if exists_file E p then Some p else None in
  match env_path E with
  | Some p => if exists_file E p then Some p else rest
  | None => rest
  end.
Definition open_kconfig (E : kconfig_env) : outcome (option cstring) :=
  match kconfig_path E with
  | None => mret None
  | Some p =>
      gz ← strstr (p ++ [NUL]) (msg ".gz");
      match open_file E (bool_decide (is_Some gz)) p with
      | None => Abort
      | Some text => mret (Some text)
      end
  end.

(** ** Reading the file *)
Fixpoint name_len (p : cstring) : outcome nat :=
  match p with
  | [] => Undef
  | c :: p' => if id_char c then n ← name_len p'; mret (S n) else mret O
  end.
(** [while (!isspace(val[val_len])) val_len++] *)
Fixpoint value_len (p : cstring) : outcome nat :=
  match p with
  | [] => Undef
  | c :: p' => if isspace c then mret O else n ← value_len p'; mret (S n)
  end.
(** The value after the name: where it starts and its length; [None] when no
    "=" follows. *)
Definition find_value (p : cstring) : outcome (option (cstring * nat)) :=
  p ← skip_blanks p;
  c ← deref p;
  if negb (Ascii.eqb c "=") then mret None else
  p ← skip_blanks (tail p);
  n ← value_len p;
  mret (Some (p, n)).
(** The loop over the variables: the result and the array. *)
Fixpoint assign_vars (is_not_set : bool) (var : cstring) (var_len : nat)
    (vars : list tst_kconfig_var) : outcome (bool * list tst_kconfig_var) :=
  match vars with
  | [] => mret (false, [])
  | v :: vs =>
      same ← (if (id_len v =? var_len)%nat then same_prefix var_len (id_ptr v) var else mret false);
      if negb same then
        '(r, vs) ← assign_vars is_not_set var var_len vs; mret (r, v :: vs)
      else if is_not_set then mret (true, set_choice "n" v :: vs)
      else
        w ← find_value (drop var_len var);
        match w with
        | None => mret (false, v :: vs)
        | Some (p, n) =>
            c ← deref p;
            if (n =? 1)%nat && Ascii.eqb c "y" then mret (true, set_choice "y" v :: vs) else
            if (n =? 1)%nat && Ascii.eqb c "m" then mret (true, set_choice "m" v :: vs) else
            '(r, vs) ← assign_vars is_not_set var var_len vs;
            mret (r, set_val (strndup p n) v :: vs)
        end
  end.
Definition kconfig_parse_line (line : cstring) (vars : list tst_kconfig_var) :
    outcome (bool * list tst_kconfig_var) :=
  line ← skip_blanks line;
  c ← deref line;
  not_set ← (if Ascii.eqb c "#" then strstr line (msg "is not set") else mret None);
  if Ascii.eqb c "#" && bool_decide (not_set = None) then mret (false, vars) else
  var ← strstr line (msg "CONFIG_");
  match var with
  | None => mret (false, vars)
  | Some var =>
      var_len ← name_len var;
      assign_vars (Ascii.eqb c "#") var var_len vars
  end.

(** [fgets] with a buffer of [n + 1]: up to [n] characters, up to a newline. *)
Fixpoint line_of (n : nat) (file : cstring) : cstring :=
  match n, file with
  | S n, c :: file' => if Ascii.eqb c "010" then [c] else c :: line_of n file'
  | _, _ => []
  end.
(** The buffer after the line was stored: what was behind the NUL stays. *)
Definition store_line (buf l : cstring) : cstring := l ++ [NUL] ++ drop (S (length l)) buf.
Definition LINE_SIZE : nat := 128.
Fixpoint read_loop (f : nat) (buf file : cstring) (vars : list tst_kconfig_var) (found : nat) :
    outcome (list tst_kconfig_var) :=
  match file with
  | [] => mret vars
  | _ =>
      let l := line_of (LINE_SIZE - 1) file in
      let buf := store_line buf l in
      '(r, vars) ← kconfig_parse_line buf vars;
      let found := if r : bool then S found else found in
      if (found =? length vars)%nat then mret vars else
      match f with O => Undef | S f => read_loop f buf (drop (length l) file) vars found end
  end.
Definition tst_kconfig_read (E : kconfig_env) (vars : list tst_kconfig_var) :
    outcome (list tst_kconfig_var) :=
  fp ← open_kconfig E;
  match fp with
  | None => Abort
  | Some file => read_loop (length file) (line0 E) file vars 0
  end.

(** ** Checking variables *)
Fixpoint strnchr (s : cstring) (c : ascii) (len : nat) : outcome (option nat) :=
  match len with
  | O => mret None
  | S len =>
      x ← deref s;
      if Ascii.eqb x c then mret (Some O) else
      r ← strnchr (tail s) c len; mret (S <$> r)
  end.
Definition get_len (kconfig : cstring) (len : nat) : outcome nat :=
  sep ← strnchr kconfig "=" len;
  mret (default len sep).
(** The text from the start of a token. *)
Definition tok_ptr (text : cstring) (t : tst_expr_tok) : cstring := drop (tok t) text ++ [NUL].
Definition print_err (text : cstring) (t : tst_expr_tok) (spaces : nat) (err : cstring) : cstring :=
  tok_text text t ++ newline ++ print_spaces spaces ++ ["^"%char] ++ newline ++ err ++ newline ++ newline.
(** Where the loop over the name stops: the end of the token, a wrong
    character, or the index after it. *)
Inductive name_stop : Type :=
| NameEnd
| NameBad (i : nat)
| NameValue (i : nat).
Fixpoint scan_name (p : cstring) (i len : nat) : outcome name_stop :=
  match p with
  | [] => Undef
  | c :: p' =>
      if Ascii.eqb c NUL then mret (NameValue i) else
      if (len <=? i)%nat then mret NameEnd else
      if isupper c || Ascii.eqb c "_" || isdigit c then scan_name p' (S i) len else
      if Ascii.eqb c "=" then mret (NameValue (S i)) else mret (NameBad i)
  end.
(** [do i++; while (i < len && go(tok[i]))], from the character at [i]. *)
Fixpoint scan_while (go : ascii → bool) (p : cstring) (i len : nat) : outcome nat :=
  if (len <=? S i)%nat then mret (S i) else
  match p with
  | [] => Undef
  | _ :: p' => c ← deref p'; if go c then scan_while go p' (S i) len else mret (S i)
  end.
(** The value returned and the text printed. *)
Definition validate_value (text : cstring) (t : tst_expr_tok) (i : nat) : outcome (Z * cstring) :=
  let err (i : nat) (m : string) := mret (1, print_err text t i (msg m)) in
  if (tok_len t <=? i)%nat then
    c ← access (tok_ptr text t !! (i - 1)%nat);
    if Ascii.eqb c "=" then mret (-1, print_err text t i (msg "Missing value")) else mret (0, [])
  else
    c ← access (tok_ptr text t !! i);
    if Ascii.eqb c quote then
      i ← scan_while (λ c, negb (Ascii.eqb c quote)) (drop i (tok_ptr text t)) i (tok_len t);
      if (i <? tok_len t - 1)%nat then err i "Garbage after a string"%string else
      c ← access (tok_ptr text t !! i);
      if negb (Ascii.eqb c quote) then err i "Untermianted string"%string else mret (0, [])
    else
      i ← scan_while isalnum (drop i (tok_ptr text t)) i (tok_len t);
      if (i <? tok_len t)%nat then err i "Invalid character in variable value"%string else mret (0, []).
Definition validate_var (text : cstring) (t : tst_expr_tok) : outcome (Z * cstring) :=
  let err (i : nat) (m : string) := mret (1, print_err text t i (msg m)) in
  same ← (if (tok_len t <? 7)%nat then mret false
          else same_prefix 7 (tok_ptr text t) (msg "CONFIG_"));
  if negb same then err O "Expected CONFIG_ prefix"%string else
  r ← scan_name (drop 7 (tok_ptr text t)) 7 (tok_len t);
  match r with
  | NameEnd => mret (0, [])
  | NameBad i => err i "Unexpected character in variable name"%string
  | NameValue i => validate_value text t i
  end.

(** ** The variables of the expressions *)
(** The tokens from [i] on in the order of the list. *)
Fixpoint rpn_toks (f : nat) (b : list tst_expr_tok) (i : option nat) : outcome (list tst_expr_tok) :=
  match i with
  | None => mret []
  | Some k =>
      match f with
      | O => Undef
      | S f => t ← access (b !! k); ts ← rpn_toks f b (next t); mret (t :: ts)
      end
  end.
Definition var_toks (e : tst_expr) : outcome (list tst_expr_tok) :=
  ts ← rpn_toks (length (buf e)) (buf e) (rpn e);
  mret (filter (λ t, op t = TST_OP_VAR) ts).
(** A parsed expression with its text. *)
Notation parsed := (cstring * tst_expr)%type.
Fixpoint validate_toks (text : cstring) (ts : list tst_expr_tok) (ret : Z) : outcome Z :=
  match ts with
  | [] => mret ret
  | t :: ts => '(r, _) ← validate_var text t; validate_toks text ts (Z.lor ret (u32 r))
  end.
Fixpoint validate_vars (exprs : list parsed) (ret : Z) : outcome Z :=
  match exprs with
  | [] => mret ret
  | (text, e) :: exprs => ts ← var_toks e; ret ← validate_toks text ts ret; validate_vars exprs ret
  end.
Fixpoint get_var_cnt (exprs : list parsed) (cnt : nat) : outcome nat :=
  match exprs with
  | [] => mret cnt
  | (_, e) :: exprs => ts ← var_toks e; get_var_cnt exprs (cnt + length ts)%nat
  end.
(** [!strcmp] of two arrays that hold strings. *)
Fixpoint find_var (vars : list tst_kconfig_var) (k : nat) (var : cstring) : option nat :=
  match vars with
  | [] => None
  | v :: vs => if decide (id v = var) then Some k else find_var vs (S k) var
  end.
(** [priv] of the tokens of one expression: the index of the variable, by the
    place of the token in the text. *)
Notation privs := (gmap nat nat).
Fixpoint populate_toks (var_cnt : nat) (text : cstring) (ts : list tst_expr_tok)
    (vars : list tst_kconfig_var) (p : privs) : outcome (list tst_kconfig_var * privs) :=
  match ts with
  | [] => mret (vars, p)
  | t :: ts =>
      if (var_cnt <=? length vars)%nat then Undef else
      n ← get_len (tok_ptr text t) (tok_len t);
      if (SIZEOF_ID <=? n + 1)%nat then Abort else
      let v := Var (strndup (tok_ptr text t) n) n NUL None in
      match find_var vars 0 (id v) with
      | Some k => populate_toks var_cnt text ts vars (<[tok t := k]> p)
      | None => populate_toks var_cnt text ts (vars ++ [v]) (<[tok t := length vars]> p)
      end
  end.
Fixpoint populate_vars (var_cnt : nat) (exprs : list parsed) (vars : list tst_kconfig_var) :
    outcome (list tst_kconfig_var * list privs) :=
  match exprs with
  | [] => mret (vars, [])
  | (text, e) :: exprs =>
      ts ← var_toks e;
      '(vars, p) ← populate_toks var_cnt text ts vars ∅;
      '(vars, ps) ← populate_vars var_cnt exprs vars;
      mret (vars, p :: ps)
  end.

(** ** Evaluation *)
Definition map (text : cstring) (vars : list tst_kconfig_var) (p : privs) (t : tst_expr_tok) :
    outcome Z :=
  k ← access (p !! tok t);
  v ← access (vars !! k);
  if Ascii.eqb (choice v) NUL then mret 0 else
  sep ← strnchr (tok_ptr text t) "=" (tok_len t);
  match sep with
  | None => mret (truth (Ascii.eqb (choice v) "y" || Ascii.eqb (choice v) "m"))
  | Some i =>
      let w := drop (S i) (tok_ptr text t) in
      let len := (tok_len t - S i)%nat in
      n ← same_prefix len w (msg "n" ++ [NUL]);
      y ← same_prefix len w (msg "y" ++ [NUL]);
      m ← same_prefix len w (msg "m" ++ [NUL]);
      let c := if m : bool then "m"%char else if y : bool then "y"%char
               else if n : bool then "n"%char else "v"%char in
      if negb (Ascii.eqb c "v") then mret (truth (Ascii.eqb (choice v) c)) else
      if negb (Ascii.eqb (choice v) "v") then mret 0 else
      s ← access (val v);
      if negb (length s =? len)%nat then mret 0 else
      r ← same_prefix len w (s ++ [NUL]);
      mret (truth r)
  end.
(** The evaluator calls [map] for the variables it meets; every call is defined. *)
Definition eval_constraint (vars : list tst_kconfig_var) (x : parsed) (p : privs) : outcome Z :=
  ts ← var_toks x.2;
  _ ← mapM (map x.1 vars p) ts;
  tst_bool_expr_eval
    (λ t, match map x.1 vars p t with Done v => v | _ => -1 end) x.2.
Fixpoint eval_all (vars : list tst_kconfig_var) (exprs : list parsed) (ps : list privs) (ret : Z) :
    outcome Z :=
  match exprs, ps with
  | x :: exprs, p :: ps =>
      v ← eval_constraint vars x p;
      eval_all vars exprs ps (if v =? 1 then ret else 1)
  | _, _ => mret ret
  end.
Fixpoint parse_all (kconfigs : list cstring) : outcome (list parsed) :=
  match kconfigs with
  | [] => mret []
  | k :: ks =>
      '(e, _) ← tst_bool_expr_parse true k;
      match e with
      | None => Abort
      | Some e => es ← parse_all ks; mret ((k, e) :: es)
      end
  end.
(** The constraints are an array that ends with NULL; [array_len] never looks at
    its first element. *)
Definition tst_kconfig_check (E : kconfig_env) (kconfigs : list cstring) : outcome Z :=
  match kconfigs with
  | [] => Undef
  | _ =>
      if kconfig_skip_check E then mret 0 else
      exprs ← parse_all kconfigs;
      bad ← validate_vars exprs 0;
      if negb (bad =? 0) then Abort else
      var_cnt ← get_var_cnt exprs 0;
      '(vars, ps) ← populate_vars var_cnt exprs [];
      vars ← tst_kconfig_read E vars;
      eval_all vars exprs ps 0
  end.
Definition tst_kconfig_get (E : kconfig_env) (confname : cstring) : outcome ascii :=
  if kconfig_skip_check E then mret NUL else
  if (SIZEOF_ID <=? length confname)%nat then Abort else
  vars ← tst_kconfig_read E [Var confname (length confname) NUL None];
  v ← access (head vars);
  mret (choice v).
