(* ===== verification/LtpKconfigRead.v ===== *)
(** * ltp: what reading the configuration file gives

    A configuration file as a list of settings, comments and other lines, and
    the proof that [tst_kconfig_read] gives each variable the setting of its
    name: the reader of one line against the line's meaning, and the loop with
    its early exit against the whole file. *)

From Stdlib Require Import String Ascii.
From S2P Require Import Prelude LtpBoolExpr LtpKver LtpKconfig.

(** ** Configuration files *)
Inductive config_line : Type :=
| Other (s : cstring)
| NotSet (name : cstring)
| Assign (name v : cstring).
Inductive setting : Type := SetN | SetY | SetM | SetV (w : cstring).

Definition NL : ascii := "010".
Definition body (l : config_line) : cstring :=
  match l with
  | Other s => s
  | NotSet n => msg "# " ++ n ++ msg " is not set"
  | Assign n v => n ++ "="%char :: v
  end.
Definition line_text (l : config_line) : cstring := body l ++ [NL].
Definition file_text (ls : list config_line) : cstring := concat (line_text <$> ls).

(** What a line sets its variable to. *)
Definition value_setting (w : cstring) : setting :=
  if decide (w = msg "y") then SetY else if decide (w = msg "m") then SetM else SetV w.
Definition line_setting (l : config_line) : option (cstring * setting) :=
  match l with
  | Other _ => None
  | NotSet n => Some (n, SetN)
  | Assign n v => Some (n, value_setting v)
  end.
Definition settings (ls : list config_line) : list (cstring * setting) := omap line_setting ls.

(** What the reader makes of it: only the characters before the first blank
    count. *)
Fixpoint word (v : cstring) : cstring :=
  match v with c :: v' => if isspace c then [] else c :: word v' | [] => [] end.
Definition read_setting (l : config_line) : option (cstring * setting) :=
  match l with
  | Other _ => None
  | NotSet n => Some (n, SetN)
  | Assign n v => Some (n, value_setting (word v))
  end.
Definition read_settings (ls : list config_line) : list (cstring * setting) := omap read_setting ls.
Fixpoint setting_of (ss : list (cstring * setting)) (n : cstring) : option setting :=
  match ss with
  | [] => None
  | (n', s) :: ss => if decide (n' = n) then Some s else setting_of ss n
  end.

(** Where a text occurs first. *)
Fixpoint find (n s : cstring) : option nat :=
  match s with
  | [] => None
  | _ :: s' => if starts_with n s then Some O else S <$> find n s'
  end.
Definition occurs (n s : cstring) : bool := bool_decide (is_Some (find n s)).
Definition name_ok (n : cstring) : bool := starts_with (msg "CONFIG_") n && forallb id_char n.
Definition plain (c : ascii) : bool := negb (Ascii.eqb c NL) && negb (Ascii.eqb c NUL).
Definition line_ok (l : config_line) : bool :=
  (length (body l) <? LINE_SIZE - 1)%nat && forallb plain (body l) &&
  match l with
  | Other s => negb (occurs (msg "CONFIG_") s) ||
               bool_decide (head s = Some "#"%char) && negb (occurs (msg "is not set") s)
  | NotSet n => name_ok n
  | Assign n v => name_ok n && match v with [] => false | c :: _ => negb (isspace c) end
  end.

(** What a setting makes of a variable, and whether the reader counts it. *)
Definition apply_setting (s : setting) (v : tst_kconfig_var) : tst_kconfig_var :=
  match s with
  | SetN => set_choice "n" v
  | SetY => set_choice "y" v
  | SetM => set_choice "m" v
  | SetV w => set_val w v
  end.
Definition counted (s : setting) : bool := match s with SetV _ => false | _ => true end.
Definition update (n : cstring) (s : setting) (v : tst_kconfig_var) : tst_kconfig_var :=
  if decide (id v = n) then apply_setting s v else v.
Definition assigned (ss : list (cstring * setting)) (v : tst_kconfig_var) : tst_kconfig_var :=
  match setting_of ss (id v) with Some s => apply_setting s v | None => v end.
Definition fresh (n : cstring) : tst_kconfig_var := Var n (length n) NUL None.
Definition var_ok (v : tst_kconfig_var) : Prop := id_len v = length (id v).

(** ** The string functions on strings *)
Lemma eqb_false (a b : ascii) : a ≠ b → Ascii.eqb a b = false.
Proof. apply Ascii.eqb_neq. Qed.
Lemma starts_with_stop n s c r : c ∉ n → starts_with n (s ++ c :: r) = starts_with n s.
Proof.
  revert s. induction n as [|a n IH]; intros s Hn; [done|]. apply not_elem_of_cons in Hn as [Ha Hn].
  destruct s as [|b s]; simpl; [by rewrite eqb_false|]. by rewrite IH.
Qed.
Lemma strstr_text n s r : n ≠ [] → NUL ∉ n → NUL ∉ s →
  strstr (s ++ NUL :: r) n = Done ((λ i, drop i s ++ NUL :: r) <$> find n s).
Proof.
  intros Hn HN. induction s as [|c s IH]; intros Hs.
  - cbn [app strstr]. pose proof (starts_with_stop n [] NUL r HN) as E. cbn [app] in E. rewrite E.
    by destruct n.
  - apply not_elem_of_cons in Hs as [Hc Hs]. cbn [app strstr find].
    pose proof (starts_with_stop n (c :: s) NUL r HN) as E. cbn [app] in E. rewrite E.
    destruct (starts_with n (c :: s)); [done|]. rewrite eqb_false by done.
    rewrite (IH Hs). by destruct (find n s).
Qed.
Lemma starts_with_app n s : starts_with n (n ++ s) = true.
Proof. induction n as [|c n IH]; simpl; [done|]. by rewrite Ascii.eqb_refl, IH. Qed.
Lemma starts_with_extend n s t : starts_with n s = true → starts_with n (s ++ t) = true.
Proof.
  revert s. induction n as [|a n IH]; intros [|b s]; simpl; try done.
  rewrite !andb_true_iff. naive_solver.
Qed.
Lemma find_middle n a s : n ≠ [] → is_Some (find n (a ++ n ++ s)).
Proof.
  intros Hn. induction a as [|b a IH].
  - destruct n as [|c n]; [done|]. pose proof (starts_with_app (c :: n) s) as E. cbn [app] in E.
    cbn [app find]. rewrite E. eauto.
  - cbn [app find]. case_match; [eauto|]. destruct IH as [i IH]. rewrite IH. simpl. eauto.
Qed.
Lemma skip_blanks_head c p : isspace c = false → skip_blanks (c :: p) = Done (c :: p).
Proof. intros H. simpl. by rewrite H. Qed.
Lemma name_len_app n c r : forallb id_char n = true → id_char c = false →
  name_len (n ++ c :: r) = Done (length n).
Proof.
  intros Hn Hc. induction n as [|a n IH]; simpl in *; [by rewrite Hc|].
  apply andb_true_iff in Hn as [-> Hn]. by rewrite (IH Hn).
Qed.
Lemma value_len_word v r : NL ∉ v → value_len (v ++ NL :: r) = Done (length (word v)).
Proof.
  induction v as [|a v IH]; intros Hv; simpl; [done|]. apply not_elem_of_cons in Hv as [_ Hv].
  destruct (isspace a); [done|]. by rewrite (IH Hv).
Qed.
Lemma same_prefix_eq n a r : NUL ∉ n → length a = length n →
  same_prefix (length n) (a ++ [NUL]) (n ++ r) = Done (bool_decide (a = n)).
Proof.
  revert a. induction n as [|c n IH]; intros [|b a] Hn Hl; simpl in *; try done.
  apply not_elem_of_cons in Hn as [Hc Hn]. destruct (Ascii.eqb_spec b c) as [->|Hb]; simpl.
  - rewrite eqb_false by done. rewrite IH by (done || lia). f_equal. apply bool_decide_ext. naive_solver.
  - f_equal. symmetry. apply bool_decide_eq_false. naive_solver.
Qed.
Lemma strndup_word v r : NUL ∉ v → strndup (v ++ r) (length (word v)) = word v.
Proof.
  induction v as [|a v IH]; intros Hv; simpl; [by destruct r|]. apply not_elem_of_cons in Hv as [Ha Hv].
  destruct (isspace a); [done|]. simpl. by rewrite eqb_false, IH.
Qed.

Lemma id_char_NUL : id_char NUL = false.
Proof. done. Qed.
Lemma id_char_nospace c : id_char c = true → isspace c = false.
Proof. destruct c as [[] [] [] [] [] [] [] []]; vm_compute; congruence. Qed.
Lemma forallb_notin (f : ascii → bool) s c : forallb f s = true → f c = false → c ∉ s.
Proof.
  intros Hf Hc Hin. induction Hin; simpl in Hf; apply andb_true_iff in Hf as [? ?]; [congruence|auto].
Qed.
Lemma name_NUL n : name_ok n = true → NUL ∉ n.
Proof. intros [_ H]%andb_true_iff. by apply (forallb_notin _ _ _ H). Qed.
Lemma name_head n : name_ok n = true → ∃ n', n = "C"%char :: n'.
Proof.
  intros [H _]%andb_true_iff. destruct n as [|c n]; [done|]. cbn [starts_with msg list_ascii_of_string] in H.
  apply andb_true_iff in H as [Hc _]. apply Ascii.eqb_eq in Hc. subst. eauto.
Qed.

(** ** One line *)
Lemma update_id n s v : update n s v = v ∨ id v = n.
Proof. unfold update. case_decide; [by right|by left]. Qed.
Lemma update_notin n s (vars : list tst_kconfig_var) : n ∉ id <$> vars → update n s <$> vars = vars.
Proof.
  intros Hn. rewrite <-(list_fmap_id vars) at 2. apply list_fmap_ext. intros i v Hv.
  destruct (update_id n s v) as [->|Hid]; [done|]. destruct Hn. rewrite <-Hid.
  apply list_elem_of_fmap. exists v. split; [done|]. by eapply list_elem_of_lookup_2.
Qed.
(** The value part of a line is read. *)
Lemma find_value_ok c v r : isspace c = false → NL ∉ c :: v →
  find_value ("="%char :: (c :: v) ++ NL :: r) =
  Done (Some ((c :: v) ++ NL :: r, length (word (c :: v)))).
Proof.
  intros Hc Hv. unfold find_value. rewrite skip_blanks_head by done.
  cbn [mbind outcome_bind deref head access negb Ascii.eqb]. cbn [tail app].
  rewrite skip_blanks_head by done. cbn [mbind outcome_bind].
  pose proof (value_len_word (c :: v) r Hv) as E. cbn [app] in E. by rewrite E.
Qed.
(** Whether the entry has the name. *)
Lemma name_test n r v : NUL ∉ n → var_ok v →
  (if (id_len v =? length n)%nat then same_prefix (length n) (id_ptr v) (n ++ r) else mret false) =
  Done (bool_decide (id v = n)).
Proof.
  intros Hn Hv. unfold var_ok in Hv. rewrite Hv. destruct (Nat.eqb_spec (length (id v)) (length n)) as [E|E].
  - by apply same_prefix_eq.
  - rewrite bool_decide_eq_false_2; [done|]. intros Hx. by rewrite Hx in E.
Qed.
(** What a line says of the variable named in it, from behind the name. *)
Definition says (ns : bool) (r : cstring) (s : setting) : Prop :=
  if ns then s = SetN else
  ∃ c v q, r = "="%char :: (c :: v) ++ NL :: q ∧ isspace c = false ∧ NL ∉ c :: v ∧ NUL ∉ c :: v ∧
    s = value_setting (word (c :: v)).
Lemma assign_vars_miss ns n r (vars : list tst_kconfig_var) : NUL ∉ n → Forall var_ok vars → n ∉ id <$> vars →
  assign_vars ns (n ++ r) (length n) vars = Done (false, vars).
Proof.
  intros Hn Hok Hin. induction Hok as [|v vs Hv Hok IH]; [done|].
  rewrite fmap_cons in Hin. apply not_elem_of_cons in Hin as [Hne Hin]. cbn [assign_vars].
  rewrite name_test, bool_decide_eq_false_2 by done. cbn [mbind outcome_bind negb].
  by rewrite (IH Hin).
Qed.
Lemma value_setting_cases w :
  value_setting w = if (length w =? 1)%nat && bool_decide (head w = Some "y"%char) then SetY
    else if (length w =? 1)%nat && bool_decide (head w = Some "m"%char) then SetM else SetV w.
Proof.
  unfold value_setting. destruct w as [|a [|b w]]; cbn [length Nat.eqb andb head].
  - by rewrite !decide_False.
  - destruct (decide (a = "y"%char)) as [->|Hy]; [done|].
    rewrite decide_False by (intros E; by injection E as ->).
    rewrite bool_decide_eq_false_2 by (intros E; by injection E as ->).
    destruct (decide (a = "m"%char)) as [->|Hm]; [done|].
    rewrite decide_False by (intros E; by injection E as ->).
    by rewrite bool_decide_eq_false_2 by (intros E; by injection E as ->).
  - by rewrite !decide_False.
Qed.
Lemma head_word c v r : isspace c = false → head (c :: v ++ r) = head (word (c :: v)).
Proof. intros Hc. simpl. by rewrite Hc. Qed.
Lemma assign_vars_hit ns n r s v vs : NUL ∉ n → var_ok v → Forall var_ok vs →
  n ∉ id <$> vs → id v = n → says ns r s →
  assign_vars ns (n ++ r) (length n) (v :: vs) = Done (counted s, apply_setting s v :: vs).
Proof.
  intros Hn Hv Hok Hin Hid Hs. cbn [assign_vars]. rewrite name_test, bool_decide_eq_true_2 by done.
  cbn [mbind outcome_bind negb]. destruct ns; [by rewrite Hs|].
  rewrite assign_vars_miss by done. destruct Hs as (c & w & q & -> & Hc & HNL & HNUL & ->).
  rewrite drop_app_length, find_value_ok by done. cbn [mbind outcome_bind].
  rewrite strndup_word, value_setting_cases by done. unfold deref.
  rewrite <-(head_word c w (NL :: q) Hc). cbn [app head access mbind outcome_bind].
  destruct (length (word (c :: w)) =? 1)%nat; [|done]. cbn [andb].
  destruct (Ascii.eqb_spec c "y") as [->|Hy]; [done|].
  rewrite bool_decide_eq_false_2 by (by intros [= ->]).
  destruct (Ascii.eqb_spec c "m") as [->|Hm]; [done|].
  by rewrite bool_decide_eq_false_2 by (by intros [= ->]).
Qed.
Lemma assign_vars_ok ns n r s (vars : list tst_kconfig_var) :
  NUL ∉ n → Forall var_ok vars → NoDup (id <$> vars) → says ns r s →
  assign_vars ns (n ++ r) (length n) vars =
  Done (counted s && bool_decide (n ∈ id <$> vars), update n s <$> vars).
Proof.
  intros Hn Hok Hnd Hs. induction Hok as [|v vs Hv Hok IH].
  { rewrite bool_decide_eq_false_2 by apply not_elem_of_nil. by rewrite andb_false_r. }
  rewrite fmap_cons in Hnd. apply NoDup_cons in Hnd as [Hv0 Hnd]. rewrite !fmap_cons.
  destruct (decide (id v = n)) as [Hid|Hid].
  - subst n. rewrite (assign_vars_hit ns (id v) r s) by done.
    rewrite bool_decide_eq_true_2, andb_true_r by apply list_elem_of_here.
    rewrite update_notin by done. unfold update. by rewrite decide_True by done.
  - cbn [assign_vars]. rewrite name_test, bool_decide_eq_false_2 by done. cbn [mbind outcome_bind negb].
    rewrite (IH Hnd). cbn [mbind outcome_bind]. unfold update at 2. rewrite decide_False by done.
    do 2 f_equal. f_equal. apply bool_decide_ext. rewrite elem_of_cons. naive_solver.
Qed.
Lemma find_drop n s i : find n s = None → find n (drop i s) = None.
Proof.
  revert i. induction s as [|c s IH]; intros [|i] H; try done. simpl in H. cbn [drop]. apply IH.
  case_match; [done|]. by destruct (find n s).
Qed.
Lemma find_snoc n s c : n ≠ [] → c ∉ n → find n s = None → find n (s ++ [c]) = None.
Proof.
  intros Hn Hc. induction s as [|a s IH]; intros H; cbn [app find].
  - pose proof (starts_with_stop n [] c [] Hc) as E. cbn [app] in E. rewrite E. by destruct n.
  - pose proof (starts_with_stop n (a :: s) c [] Hc) as E. cbn [app] in E. rewrite E.
    cbn [find] in H. case_match; [done|]. destruct (find n s); [done|]. by rewrite IH.
Qed.
Lemma find_none n s : occurs n s = false → find n s = None.
Proof. intros H. apply bool_decide_eq_false in H. by apply eq_None_not_Some. Qed.
(** The blanks at the start of a string are skipped. *)
Lemma skip_blanks_text s r : ∃ i, skip_blanks (s ++ NUL :: r) = Done (drop i s ++ NUL :: r) ∧
  ∀ c, head s = Some c → isspace c = false → i = O.
Proof.
  induction s as [|c s IH]; cbn [app skip_blanks].
  - exists O. by split.
  - destruct (isspace c) eqn:Hc.
    + destruct IH as (i & IH & _). exists (S i). split; [done|]. intros ? [= ->]. congruence.
    + by exists O.
Qed.
Lemma body_NUL l : line_ok l = true → NUL ∉ body l ∧ NL ∉ body l ∧ (length (body l) < LINE_SIZE - 1)%nat.
Proof.
  unfold line_ok. rewrite !andb_true_iff. intros [[Hlen Hp] _]. apply Nat.ltb_lt in Hlen.
  split_and!; [by apply (forallb_notin _ _ _ Hp)..|done].
Qed.

Lemma notin_drop (c : ascii) i s : c ∉ s → c ∉ drop i s.
Proof. intros H Hd. apply H. rewrite <-(take_drop i s). apply elem_of_app. by right. Qed.
Lemma notin_snoc (c a : ascii) s : c ∉ s → c ≠ a → c ∉ s ++ [a].
Proof. intros. rewrite elem_of_app, list_elem_of_singleton. naive_solver. Qed.

(** A line that names no variable. *)
Lemma parse_other s rest vars : line_ok (Other s) = true →
  kconfig_parse_line (line_text (Other s) ++ NUL :: rest) vars = Done (false, vars).
Proof.
  intros Hl. destruct (body_NUL _ Hl) as (HNUL & _). unfold line_ok in Hl.
  apply andb_true_iff in Hl as [_ Hl]. cbn [body] in *. unfold kconfig_parse_line, line_text. cbn [body].
  assert (NUL ∉ s ++ [NL]) as HN by (by apply notin_snoc).
  destruct (skip_blanks_text (s ++ [NL]) rest) as (i & -> & Hi). cbn [mbind outcome_bind].
  set (u := drop i (s ++ [NL])) in *. assert (NUL ∉ u) as HN' by (by apply notin_drop).
  assert (∃ c, deref (u ++ NUL :: rest) = Done c) as [c Hc] by (destruct u; simpl; eauto).
  rewrite Hc. cbn [mbind outcome_bind]. rewrite !strstr_text by (done || set_solver).
  apply orb_true_iff in Hl as [Hl|[Hh Hl]%andb_true_iff]; apply negb_true_iff in Hl.
  - assert (find (msg "CONFIG_") u = None) as ->
      by (apply find_drop, find_snoc, find_none; done || set_solver).
    cbn [fmap option_fmap option_map mbind outcome_bind].
    destruct (Ascii.eqb c "#"); [|done]. cbn [mbind outcome_bind andb].
    by destruct (bool_decide _).
  - apply bool_decide_eq_true in Hh. destruct s as [|h s]; [done|]. injection Hh as ->.
    assert (i = O) as -> by (by eapply Hi). injection Hc as <-.
    assert (find (msg "is not set") u = None) as ->
      by (apply find_drop, find_snoc, find_none; done || set_solver).
    done.
Qed.
(** A line that names a variable, from the name on. *)
Lemma parse_named (ns : bool) a n d r s rest vars : name_ok n = true → id_char d = false →
  skip_blanks (a ++ n ++ d :: r ++ NUL :: rest) = Done (a ++ n ++ d :: r ++ NUL :: rest) →
  deref (a ++ n ++ d :: r ++ NUL :: rest) = Done (if ns then "#"%char else "C"%char) →
  (ns = true → is_Some (find (msg "is not set") (a ++ n ++ d :: r))) →
  find (msg "CONFIG_") (a ++ n ++ d :: r) = Some (length a) → NUL ∉ a ++ n ++ d :: r →
  Forall var_ok vars → NoDup (id <$> vars) → says ns (d :: r ++ NUL :: rest) s →
  kconfig_parse_line (a ++ n ++ d :: r ++ NUL :: rest) vars =
  Done (counted s && bool_decide (n ∈ id <$> vars), update n s <$> vars).
Proof.
  intros Hn Hd Hskip Hc Hset Hfind HN Hok Hnd Hs. unfold kconfig_parse_line.
  rewrite Hskip. cbn [mbind outcome_bind]. rewrite Hc. cbn [mbind outcome_bind].
  assert (∀ q, q ≠ [] → NUL ∉ q → strstr (a ++ n ++ d :: r ++ NUL :: rest) q =
    Done ((λ i, drop i (a ++ n ++ d :: r) ++ NUL :: rest) <$> find q (a ++ n ++ d :: r))) as Hstr.
  { intros q Hq Hq'. rewrite <-(strstr_text q _ rest Hq Hq' HN). f_equal. by rewrite <-!app_assoc. }
  rewrite !Hstr, Hfind by (done || set_solver).
  assert ((if Ascii.eqb (if ns then "#" else "C") "#" then
             Done ((λ i, drop i (a ++ n ++ d :: r) ++ NUL :: rest) <$>
               find (msg "is not set") (a ++ n ++ d :: r)) else mret None) =
          Done (if ns then (λ i, drop i (a ++ n ++ d :: r) ++ NUL :: rest) <$>
               find (msg "is not set") (a ++ n ++ d :: r) else None)) as -> by (by destruct ns).
  cbn [mbind outcome_bind fmap option_fmap option_map].
  rewrite drop_app_length, <-app_assoc. cbn [app].
  rewrite name_len_app by (done || by apply andb_true_iff in Hn as [_ ?]). cbn [mbind outcome_bind].
  replace (Ascii.eqb (if ns then "#" else "C") "#") with ns by (by destruct ns).
  rewrite (assign_vars_ok ns n _ s) by (done || by apply name_NUL).
  destruct ns; [|done]. destruct (Hset eq_refl) as [i ->]. done.
Qed.
Lemma named_find n d r : name_ok n = true → find (msg "CONFIG_") (n ++ d :: r) = Some O.
Proof.
  intros Hn. destruct (name_head n Hn) as [n' ->]. apply andb_true_iff in Hn as [Hn _].
  apply (starts_with_extend _ _ (d :: r)) in Hn. cbn [app] in *. cbn [find]. by rewrite Hn.
Qed.
(** What reading a line does. *)
Definition line_effect (l : config_line) (vars : list tst_kconfig_var) : bool * list tst_kconfig_var :=
  match read_setting l with
  | None => (false, vars)
  | Some (n, s) => (counted s && bool_decide (n ∈ id <$> vars), update n s <$> vars)
  end.
Lemma parse_line_ok l rest vars : line_ok l = true → Forall var_ok vars → NoDup (id <$> vars) →
  kconfig_parse_line (line_text l ++ NUL :: rest) vars = Done (line_effect l vars).
Proof.
  intros Hl Hok Hnd. destruct (body_NUL _ Hl) as (HN & HNL & _).
  destruct l as [s|n|n v]; [by apply parse_other|..]; unfold line_text; cbn [body] in *;
    apply andb_true_iff in Hl as [_ Hl].
  - pose proof (parse_named true (msg "# ") n " " (msg "is not set" ++ [NL]) SetN rest vars) as H.
    rewrite <-!app_assoc in *. apply H; try done.
    + intros _. pose proof (find_middle (msg "is not set") (msg "# " ++ n ++ [" "%char]) [NL]) as F.
      rewrite <-!app_assoc in F. by apply F.
    + pose proof (named_find n " " (msg "is not set" ++ [NL]) Hl) as F.
      change (msg "# ") with ["#"; " "]%char. cbn [app find]. rewrite F. done.
    + change (NUL ∉ msg "# " ++ n ++ msg " is not set" ++ [NL]). rewrite !app_assoc.
      apply notin_snoc; [|done]. by rewrite <-!app_assoc.
  - apply andb_true_iff in Hl as [Hn Hv]. destruct v as [|c v]; [done|]. apply negb_true_iff in Hv.
    pose proof (parse_named false [] n "=" ((c :: v) ++ [NL]) (value_setting (word (c :: v))) rest vars) as H.
    rewrite <-!app_assoc in *. cbn [app] in *. rewrite ?app_comm_cons, <-?app_assoc in *. apply H; try done.
    + destruct (name_head n Hn) as [n' ->]. by apply skip_blanks_head.
    + by destruct (name_head n Hn) as [n' ->].
    + by apply named_find.
    + change (NUL ∉ n ++ "="%char :: c :: v ++ [NL]). rewrite !app_comm_cons, app_assoc. by apply notin_snoc.
    + exists c, v, (NUL :: rest). split_and!; [done|done|..]; set_solver.
Qed.

(** ** The whole file *)
Lemma setting_of_app ss ss' n :
  setting_of (ss ++ ss') n = match setting_of ss n with Some s => Some s | None => setting_of ss' n end.
Proof. induction ss as [|[n' s] ss IH]; simpl; [done|]. by case_decide. Qed.
Lemma setting_of_notin ss n : n ∉ ss.*1 → setting_of ss n = None.
Proof.
  induction ss as [|[n' s] ss IH]; [done|]. rewrite fmap_cons. intros [Hn Hs]%not_elem_of_cons. simpl.
  rewrite decide_False by done. auto.
Qed.
Lemma apply_setting_id s v : id (apply_setting s v) = id v ∧ id_len (apply_setting s v) = id_len v.
Proof. by destruct s. Qed.
Lemma assigned_id ss v : id (assigned ss v) = id v ∧ id_len (assigned ss v) = id_len v.
Proof. unfold assigned. case_match; [apply apply_setting_id|done]. Qed.
Lemma assigned_ids ss (vars : list tst_kconfig_var) : id <$> (assigned ss <$> vars) = id <$> vars.
Proof. rewrite <-list_fmap_compose. apply list_fmap_ext. intros. apply assigned_id. Qed.
Lemma assigned_ok ss vars : Forall var_ok vars → Forall var_ok (assigned ss <$> vars).
Proof.
  intros H. apply Forall_fmap. eapply Forall_impl; [done|]. intros v Hv. unfold var_ok. simpl.
  by destruct (assigned_id ss v) as [-> ->].
Qed.
Lemma assigned_snoc ss n s v : n ∉ ss.*1 → update n s (assigned ss v) = assigned (ss ++ [(n, s)]) v.
Proof.
  intros Hn. unfold update. rewrite (proj1 (assigned_id ss v)). unfold assigned.
  rewrite setting_of_app. cbn [setting_of]. case_decide as E.
  - rewrite <-E in Hn. rewrite setting_of_notin by done. by rewrite decide_True.
  - case_match; [done|]. by rewrite decide_False by congruence.
Qed.

(** The variables whose setting the reader has counted. *)
Definition is_counted (ss : list (cstring * setting)) (v : tst_kconfig_var) : bool :=
  match setting_of ss (id v) with Some s => counted s | None => false end.
Fixpoint count_set (ss : list (cstring * setting)) (vars : list tst_kconfig_var) : nat :=
  match vars with
  | [] => O
  | v :: vs => ((if is_counted ss v then 1 else 0) + count_set ss vs)%nat
  end.
Lemma count_set_all ss vars : (count_set ss vars ≤ length vars)%nat ∧
  (count_set ss vars = length vars → Forall (λ v, is_counted ss v = true) vars).
Proof.
  induction vars as [|v vs [IH1 IH2]]; simpl; [done|]. destruct (is_counted ss v) eqn:E.
  - split; [lia|]. intros H. constructor; [done|]. apply IH2. lia.
  - split; [lia|]. lia.
Qed.
Lemma is_counted_snoc ss n s v : n ∉ ss.*1 →
  is_counted (ss ++ [(n, s)]) v = is_counted ss v || bool_decide (id v = n) && counted s.
Proof.
  intros Hn. unfold is_counted. rewrite setting_of_app. cbn [setting_of].
  destruct (decide (id v = n)) as [E|E].
  - rewrite <-E in Hn. rewrite setting_of_notin, decide_True, bool_decide_eq_true_2 by done. done.
  - rewrite decide_False, bool_decide_eq_false_2 by congruence. cbn [andb]. rewrite orb_false_r. by destruct (setting_of ss (id v)).
Qed.
Lemma count_set_snoc ss n s vars : n ∉ ss.*1 → NoDup (id <$> vars) →
  count_set (ss ++ [(n, s)]) vars =
  (count_set ss vars + if counted s && bool_decide (n ∈ id <$> vars) then 1 else 0)%nat.
Proof.
  intros Hn. induction vars as [|v vs IH]; intros Hnd.
  { rewrite bool_decide_eq_false_2 by apply not_elem_of_nil. by rewrite andb_false_r. }
  rewrite fmap_cons in *. apply NoDup_cons in Hnd as [Hv Hnd]. cbn [count_set]. rewrite (IH Hnd).
  rewrite is_counted_snoc by done. destruct (decide (id v = n)) as [E|E].
  - rewrite E in *. rewrite (bool_decide_eq_false_2 (n ∈ id <$> vs)) by done.
    rewrite (bool_decide_eq_true_2 (n = n)) by done.
    rewrite (bool_decide_eq_true_2 (n ∈ n :: _)) by apply list_elem_of_here.
    assert (is_counted ss v = false) as -> by (unfold is_counted; by rewrite E, setting_of_notin).
    destruct (counted s); simpl; lia.
  - rewrite (bool_decide_eq_false_2 (id v = n)) by done. cbn [andb]. rewrite orb_false_r.
    assert (bool_decide (n ∈ id v :: (id <$> vs)) = bool_decide (n ∈ id <$> vs)) as ->; [|lia].
    apply bool_decide_ext. rewrite elem_of_cons. naive_solver.
Qed.

Lemma line_of_text l rest : line_ok l = true →
  line_of (LINE_SIZE - 1) (line_text l ++ rest) = line_text l.
Proof.
  intros Hl. destruct (body_NUL _ Hl) as (_ & HNL & Hlen). unfold line_text. rewrite <-app_assoc. cbn [app].
  revert HNL Hlen. generalize (body l) (LINE_SIZE - 1)%nat. intros s n. revert n.
  induction s as [|c s IH]; intros [|n] HNL Hlen; cbn [length] in Hlen; try lia; [done|].
  apply not_elem_of_cons in HNL as [Hc HNL]. cbn [app line_of].
  rewrite eqb_false by (intros E; by apply Hc). f_equal. apply IH; [done|lia].
Qed.
Lemma assigned_rest ss ss' vars : Forall (λ v, is_counted ss v = true) vars →
  assigned (ss ++ ss') <$> vars = assigned ss <$> vars.
Proof.
  intros H. apply list_fmap_ext. intros i v Hv. rewrite Forall_lookup in H. specialize (H _ _ Hv). simpl in H.
  unfold is_counted in H. unfold assigned. rewrite setting_of_app. by destruct (setting_of ss (id v)).
Qed.
(** The counted variables and the effect of one more line. *)
Lemma effect_ok l ss vars : NoDup (ss ++ read_settings [l]).*1 → NoDup (id <$> vars) →
  line_effect l (assigned ss <$> vars) =
  (bool_decide (count_set (ss ++ read_settings [l]) vars = S (count_set ss vars)),
   assigned (ss ++ read_settings [l]) <$> vars) ∧
  (count_set (ss ++ read_settings [l]) vars = count_set ss vars ∨
   count_set (ss ++ read_settings [l]) vars = S (count_set ss vars)).
Proof.
  intros Hnd Hids. unfold line_effect, read_settings in *. cbn [omap list_omap] in *.
  destruct (read_setting l) as [[n s]|].
  - assert (n ∉ ss.*1) as Hn.
    { rewrite fmap_app in Hnd. apply NoDup_app in Hnd as (_ & Hd & _). intros Hin.
      apply (Hd _ Hin), list_elem_of_here. }
    rewrite assigned_ids, count_set_snoc by done. split.
    + f_equal; [|rewrite <-list_fmap_compose; apply list_fmap_ext; intros; by apply assigned_snoc].
      symmetry. destruct (counted s && _); [apply bool_decide_eq_true_2|apply bool_decide_eq_false_2]; lia.
    + destruct (counted s && _); lia.
  - rewrite app_nil_r. split; [|by left]. rewrite bool_decide_eq_false_2 by lia. done.
Qed.
Lemma read_loop_ok ls f b ss (vars : list tst_kconfig_var) :
  Forall (λ l, line_ok l = true) ls → Forall var_ok vars → NoDup (id <$> vars) →
  NoDup (ss ++ read_settings ls).*1 → (length (file_text ls) ≤ f)%nat →
  read_loop f b (file_text ls) (assigned ss <$> vars) (count_set ss vars) =
  Done (assigned (ss ++ read_settings ls) <$> vars).
Proof.
  intros Hls Hok Hids. revert f b ss. induction Hls as [|l ls Hl Hls IH]; intros f b ss Hnd Hf.
  { destruct f; simpl; by rewrite app_nil_r. }
  change (file_text (l :: ls)) with (line_text l ++ file_text ls) in *.
  change (read_settings (l :: ls)) with (omap read_setting ([l] ++ ls)) in *. rewrite omap_app in *.
  fold (read_settings [l]) (read_settings ls) in *. rewrite app_assoc in *.
  assert (line_text l ≠ []) as Hne by (unfold line_text; by destruct (body l)).
  destruct f as [|f].
  { destruct (line_text l); [done|]. simpl in Hf. lia. }
  destruct (effect_ok l ss vars) as [He Hc]; [|done|].
  { rewrite fmap_app in Hnd. by apply NoDup_app in Hnd as (? & _). }
  destruct (line_text l ++ file_text ls) as [|c u] eqn:Eu; [by destruct (line_text l)|].
  cbn [read_loop]. rewrite <-Eu. rewrite line_of_text by done. unfold store_line.
  cbn [app].
  rewrite parse_line_ok by (done || by apply assigned_ok || by rewrite assigned_ids).
  rewrite He. cbn [mbind outcome_bind]. rewrite length_fmap, drop_app_length.
  assert ((if bool_decide (count_set (ss ++ read_settings [l]) vars = S (count_set ss vars))
           then S (count_set ss vars) else count_set ss vars) = count_set (ss ++ read_settings [l]) vars) as ->
    by (case_bool_decide; lia).
  destruct (Nat.eqb_spec (count_set (ss ++ read_settings [l]) vars) (length vars)) as [E|E].
  - by rewrite (assigned_rest (ss ++ read_settings [l]) (read_settings ls)) by (by apply count_set_all).
  - apply IH; [done|]. rewrite <-Eu, length_app in Hf. destruct (line_text l); [done|]. simpl in Hf. lia.
Qed.

(** The file is opened and has this text. *)
Definition config_file (E : kconfig_env) (ls : list config_line) : Prop :=
  open_kconfig E = Done (Some (file_text ls)) ∧ Forall (λ l, line_ok l = true) ls ∧
  NoDup (settings ls).*1.
Lemma read_names ls : (read_settings ls).*1 = (settings ls).*1.
Proof.
  unfold read_settings, settings. induction ls as [|[s|n|n v] ls IH]; [done|..];
    cbn [omap list_omap read_setting line_setting]; by rewrite ?fmap_cons, IH.
Qed.
Lemma kconfig_read_ok E ls (vars : list tst_kconfig_var) :
  config_file E ls → Forall var_ok vars → NoDup (id <$> vars) →
  tst_kconfig_read E vars = Done (assigned (read_settings ls) <$> vars).
Proof.
  intros (Hopen & Hls & Hnd) Hok Hids. rewrite <-read_names in Hnd. unfold tst_kconfig_read. rewrite Hopen. cbn [mbind outcome_bind].
  pose proof (read_loop_ok ls (length (file_text ls)) (line0 E) [] vars Hls Hok Hids Hnd ltac:(lia)) as H.
  assert (assigned [] <$> vars = vars) as Ha by (by rewrite <-(list_fmap_id vars) at 2).
  assert (count_set [] vars = O) as Hc by (clear; induction vars; done).
  by rewrite Ha, Hc in H.
Qed.

(** ** Values without a blank

    For a variable whose value has no blank the reader finds the setting of the
    file. *)
Definition no_blank (v : cstring) : bool := forallb (λ c, negb (isspace c)) v.
Definition plain_values (ls : list config_line) (n : cstring) : Prop :=
  ∀ v, Assign n v ∈ ls → no_blank v = true.
Lemma word_no_blank v : no_blank v = true → word v = v.
Proof.
  induction v as [|c v IH]; [done|]. cbn [no_blank forallb word]. intros [Hc Hv]%andb_true_iff.
  apply negb_true_iff in Hc. rewrite Hc. f_equal. by apply IH.
Qed.
Lemma read_setting_of ls n : plain_values ls n → setting_of (read_settings ls) n = setting_of (settings ls) n.
Proof.
  unfold read_settings, settings. induction ls as [|[s|n'|n' v] ls IH]; intros Hn; [done|..];
    cbn [omap list_omap read_setting line_setting setting_of].
  all: rewrite IH by (intros v' Hv'; apply Hn; by right); try done.
  case_decide as E; [|done]. subst n'. by rewrite word_no_blank by (apply Hn; left).
Qed.
(** Where a string value comes from. *)
Lemma setting_string ls n x : setting_of (settings ls) n = Some (SetV x) →
  Assign n x ∈ ls ∧ x ≠ msg "y" ∧ x ≠ msg "m".
Proof.
  unfold settings. induction ls as [|[s|n'|n' v] ls IH]; [done|..];
    cbn [omap list_omap line_setting setting_of]; try case_decide as E.
  - intros H%IH. set_solver.
  - done.
  - intros H%IH. set_solver.
  - unfold value_setting. repeat case_decide; intros; simplify_eq. split; [left|done].
  - intros H%IH. set_solver.
Qed.
Lemma kconfig_read_names E ls names : config_file E ls → NoDup names → Forall (plain_values ls) names →
  tst_kconfig_read E (fresh <$> names) = Done (assigned (settings ls) <$> (fresh <$> names)).
Proof.
  intros Hfile Hnd Hv. rewrite (kconfig_read_ok E ls); [|done| |].
  - f_equal. apply list_fmap_ext. intros i v Hi. apply list_lookup_fmap_Some in Hi as (n & -> & Hn).
    unfold assigned. cbn [id]. rewrite read_setting_of; [done|].
    rewrite Forall_lookup in Hv. by apply (Hv i).
  - apply Forall_fmap, Forall_true. done.
  - by rewrite <-list_fmap_compose, list_fmap_id.
Qed.
