(* ===== verification/LtpKconfigVars.v ===== *)
(** * ltp: the variables of the constraints

    The language of variables [validate_var] accepts, the table of variables
    [populate_vars] builds and the value [map] gives a variable. *)

From Stdlib Require Import String Ascii.
From S2P Require Import Prelude LtpBoolExpr LtpBoolExprSpec LtpKver LtpKconfig LtpKconfigRead.

(** ** The accepted variables *)
Fixpoint closes (s : cstring) : bool :=
  match s with
  | [] => false
  | [c] => Ascii.eqb c quote
  | c :: s' => negb (Ascii.eqb c quote) && closes s'
  end.
(** A quotation, or any character with letters and digits behind it. *)
Definition value_ok (v : cstring) : bool :=
  match v with
  | [] => false
  | c :: s => if Ascii.eqb c quote then closes s else forallb isalnum s
  end.
Fixpoint name_value_ok (s : cstring) : bool :=
  match s with
  | [] => true
  | c :: s' => if id_char c then name_value_ok s' else Ascii.eqb c "=" && value_ok s'
  end.
Definition variable_ok (s : cstring) : bool :=
  starts_with (msg "CONFIG_") s && name_value_ok (drop 7 s).

(** ** The scans *)
Fixpoint span (go : ascii → bool) (s : cstring) : nat :=
  match s with c :: s' => if go c then S (span go s') else O | [] => O end.
Lemma span_le go s : (span go s ≤ length s)%nat.
Proof. induction s as [|c s IH]; simpl; [lia|]. destruct (go c); lia. Qed.
Lemma span_all go s : span go s = length s ↔ forallb go s = true.
Proof.
  induction s as [|c s IH]; simpl; [done|]. destruct (go c); simpl; [|naive_solver lia].
  rewrite <-IH. lia.
Qed.
Lemma span_stop go s : (span go s < length s)%nat → ∃ c, s !! span go s = Some c ∧ go c = false.
Proof.
  induction s as [|c s IH]; simpl; [lia|]. destruct (go c) eqn:E; [|by exists c].
  intros H. apply IH. lia.
Qed.
Lemma scan_while_cons go c p i len : scan_while go (c :: p) i len =
  if (len <=? S i)%nat then mret (S i) else
  d ← deref p; if go d then scan_while go p (S i) len else mret (S i).
Proof. done. Qed.
Lemma scan_while_span go c s x q i :
  scan_while go (c :: s ++ x :: q) i (S i + length s) = Done (S i + span go s)%nat.
Proof.
  revert c i. induction s as [|d s IH]; intros c i.
  - rewrite scan_while_cons. cbn [length span]. by rewrite Nat.add_0_r, Nat.leb_refl.
  - rewrite scan_while_cons. cbn [app length span]. rewrite (proj2 (Nat.leb_gt _ _)) by lia.
    unfold deref. cbn [head access mbind outcome_bind]. destruct (go d); [|by rewrite Nat.add_0_r].
    replace (S i + S (length s))%nat with (S (S i) + length s)%nat by lia.
    rewrite IH. f_equal. lia.
Qed.
Lemma closes_span s : closes s = bool_decide (S (span (λ c, negb (Ascii.eqb c quote)) s) = length s).
Proof.
  induction s as [|c s IH]; [done|]. cbn [closes span]. destruct (Ascii.eqb c quote) eqn:E; cbn [negb andb].
  - destruct s; [done|]. symmetry. by apply bool_decide_eq_false.
  - destruct s as [|d s]; [done|]. rewrite IH. apply bool_decide_ext. simpl. lia.
Qed.

(** What the scan of a name finds, from behind the prefix. *)
Lemma scan_name_ok s x q i : NUL ∉ s →
  ∃ r, scan_name (s ++ x :: q) i (i + length s) = Done r ∧
    match r with
    | NameEnd => forallb id_char s = true
    | NameBad _ => name_value_ok s = false
    | NameValue j =>
        (j = (i + length s)%nat ∧ forallb id_char s = true) ∨
        ∃ a v, s = a ++ "="%char :: v ∧ forallb id_char a = true ∧ j = (i + S (length a))%nat
    end.
Proof.
  revert i. induction s as [|c s IH]; intros i HN; cbn [app scan_name length].
  - destruct (Ascii.eqb x NUL).
    + exists (NameValue i). split; [done|]. left. split; [lia|done].
    + rewrite (proj2 (Nat.leb_le _ _)) by lia. by exists NameEnd.
  - apply not_elem_of_cons in HN as [Hc HN]. rewrite eqb_false by done.
    rewrite (proj2 (Nat.leb_gt _ _)) by lia.
    replace (isupper c || Ascii.eqb c "_" || isdigit c) with (id_char c)
      by (unfold id_char; destruct (isupper c), (isdigit c), (Ascii.eqb c "_"); done).
    cbn [name_value_ok forallb]. destruct (id_char c) eqn:Hid; cbn [andb].
    + replace (i + S (length s))%nat with (S i + length s)%nat by lia.
      destruct (IH (S i) HN) as (r & -> & Hr). exists r. split; [done|]. destruct r as [| |j]; [done..|].
      destruct Hr as [[-> Hr]|(a & v & -> & Ha & ->)]; [by left|].
      right. exists (c :: a), v. simpl. rewrite Hid. split_and!; [done|done|lia].
    + destruct (Ascii.eqb_spec c "=") as [->|Hne].
      * eexists. split; [done|]. right. exists [], s. split_and!; [done|done|simpl; lia].
      * by eexists.
Qed.
Lemma name_value_app a v : forallb id_char a = true →
  name_value_ok (a ++ "="%char :: v) = value_ok v.
Proof.
  induction a as [|c a IH]; [done|]. simpl. intros [-> Ha]%andb_true_iff. auto.
Qed.
Lemma name_value_all a : forallb id_char a = true → name_value_ok a = true.
Proof. induction a as [|c a IH]; [done|]. simpl. intros [-> Ha]%andb_true_iff. auto. Qed.

(** ** Checking a variable *)
Definition tok_at (text : cstring) (t : tst_expr_tok) : Prop :=
  (tok t + tok_len t ≤ length text)%nat ∧ op t = TST_OP_VAR ∧
  text !! (tok t + tok_len t)%nat ≠ Some quote.
(** The text from a token: the token, and a character that is no quotation
    mark. *)
Lemma tok_ptr_split text t : tok_at text t →
  ∃ x q, tok_ptr text t = tok_text text t ++ x :: q ∧ x ≠ quote ∧ length (tok_text text t) = tok_len t.
Proof.
  intros (Hlen & _ & Hq).
  assert (tok_ptr text t = tok_text text t ++ drop (tok t + tok_len t) text ++ [NUL]) as ->.
  { unfold tok_ptr, tok_text. by rewrite <-drop_drop, app_assoc, take_drop. }
  unfold tok_text. rewrite length_take, length_drop.
  destruct (text !! (tok t + tok_len t)%nat) as [x|] eqn:Hx.
  - exists x, (drop (S (tok t + tok_len t)) text ++ [NUL]). rewrite (drop_S _ _ _ Hx).
    split_and!; [done|congruence|lia].
  - exists NUL, []. rewrite (drop_ge text (tok t + tok_len t)) by (by apply lookup_ge_None). split_and!; [done|done|lia].
Qed.
Lemma prefix_test u x q : NUL ∉ u → (7 ≤ length u)%nat →
  same_prefix 7 (u ++ x :: q) (msg "CONFIG_") = Done (starts_with (msg "CONFIG_") u).
Proof.
  intros HN. assert (∀ m u, NUL ∉ m → (length m ≤ length u)%nat →
    same_prefix (length m) (u ++ x :: q) m = Done (starts_with m u)) as H.
  { clear. induction m as [|c m IH]; intros [|d u] Hm Hl; simpl in *; try done; [lia|].
    apply not_elem_of_cons in Hm as [Hc Hm]. destruct (Ascii.eqb_spec d c) as [->|Hd]; simpl.
    - rewrite Ascii.eqb_refl, eqb_false by done. apply IH; [done|lia].
    - by rewrite eqb_false by congruence. }
  intros Hl. apply (H (msg "CONFIG_")); [set_solver|done].
Qed.

(** The value of a variable is checked, from behind the equals sign. *)
Lemma validate_value_ok text t a v x q : tok_text text t = a ++ v → v ≠ [] →
  tok_ptr text t = (a ++ v) ++ x :: q → x ≠ quote → tok_len t = length (a ++ v) →
  ∃ r m, validate_value text t (length a) = Done (r, m) ∧ (r = 0 ↔ value_ok v = true).
Proof.
  intros Ht Hne Hp Hx Hl. unfold validate_value. rewrite Hl, Hp, length_app.
  destruct v as [|c s]; [done|]. rewrite (proj2 (Nat.leb_gt _ _)) by (simpl; lia).
  assert (∀ j, ((a ++ c :: s) ++ x :: q) !! (length a + j)%nat = (c :: s ++ x :: q) !! j) as Hj.
  { intros j. rewrite <-app_assoc. by rewrite lookup_app_r, Nat.add_comm, Nat.add_sub by lia. }
  pose proof (Hj O) as H0. rewrite Nat.add_0_r in H0. rewrite H0. cbn [lookup list_lookup access mbind outcome_bind].
  rewrite <-app_assoc, drop_app_length. cbn [app length value_ok].
  replace (length a + S (length s))%nat with (S (length a) + length s)%nat by lia.
  rewrite !scan_while_span. cbn [mbind outcome_bind].
  destruct (Ascii.eqb c quote).
  - rewrite closes_span. pose proof (span_le (λ c, negb (Ascii.eqb c quote)) s) as Hs.
    set (k := span _ s) in *. destruct (_ <? _)%nat eqn:E.
    { apply Nat.ltb_lt in E. do 2 eexists. split; [done|]. rewrite bool_decide_eq_true. lia. }
    apply Nat.ltb_ge in E. change (a ++ c :: s ++ x :: q) with (a ++ (c :: s) ++ x :: q).
    rewrite app_assoc. replace (S (length a) + k)%nat with (length a + S k)%nat by lia. rewrite Hj.
    change ((c :: s ++ x :: q) !! S k) with ((s ++ x :: q) !! k).
    destruct (decide (S k = length s)) as [Ek|Ek].
    + destruct (span_stop (λ c, negb (Ascii.eqb c quote)) s) as (d & Hd & Hgo); [fold k; lia|].
      fold k in Hd. rewrite lookup_app_l by lia. rewrite Hd. cbn [access mbind outcome_bind]. rewrite Hgo.
      do 2 eexists. split; [done|]. by rewrite bool_decide_eq_true.
    + assert (k = length s) as -> by lia. rewrite list_lookup_middle by done. cbn [access mbind outcome_bind].
      rewrite eqb_false by done. cbn [negb]. do 2 eexists. split; [done|]. rewrite bool_decide_eq_true. lia.
  - pose proof (span_le isalnum s) as Hs. pose proof (span_all isalnum s) as Ha.
    destruct (_ <? _)%nat eqn:E; [apply Nat.ltb_lt in E|apply Nat.ltb_ge in E];
      do 2 eexists; (split; [done|]); rewrite <-Ha; lia.
Qed.
(** At the end of the token only a trailing equals sign is wrong. *)
Lemma validate_value_end text t s c x q : tok_ptr text t = (s ++ [c]) ++ x :: q →
  tok_len t = length (s ++ [c]) →
  ∃ r m, validate_value text t (tok_len t) = Done (r, m) ∧ (r = 0 ↔ c ≠ "="%char).
Proof.
  intros Hp Hl. unfold validate_value. rewrite Nat.leb_refl, Hl, Hp, length_app. cbn [length].
  rewrite Nat.add_sub, <-app_assoc. cbn [app]. rewrite list_lookup_middle by done.
  cbn [access mbind outcome_bind]. destruct (Ascii.eqb_spec c "="); do 2 eexists; split; done.
Qed.
Lemma starts_with_split n u : starts_with n u = true → u = n ++ drop (length n) u.
Proof.
  revert u. induction n as [|c n IH]; intros [|d u]; simpl; try done.
  intros [->%Ascii.eqb_eq H]%andb_true_iff. f_equal. auto.
Qed.
Lemma tok_text_NUL text t : NUL ∉ text → NUL ∉ tok_text text t.
Proof.
  intros HN H. apply HN. unfold tok_text in H. rewrite <-(take_drop (tok t) text). apply elem_of_app. right.
  rewrite <-(take_drop (tok_len t) (drop (tok t) text)). apply elem_of_app. by left.
Qed.
Lemma validate_var_ok text t : NUL ∉ text → tok_at text t →
  ∃ r m, validate_var text t = Done (r, m) ∧ (r = 0 ↔ variable_ok (tok_text text t) = true).
Proof.
  intros HN Ht. destruct (tok_ptr_split text t Ht) as (x & q & Hp & Hx & Hl).
  pose proof (tok_text_NUL text t HN) as HNu. unfold validate_var, variable_ok.
  destruct (starts_with (msg "CONFIG_") (tok_text text t)) eqn:Hs.
  2: { destruct (tok_len t <? 7)%nat eqn:E7; [do 2 eexists; by split|]. apply Nat.ltb_ge in E7.
       rewrite Hp, prefix_test, Hs by (done || lia). do 2 eexists. by split. }
  pose proof (starts_with_split _ _ Hs) as Hu. change (length (msg "CONFIG_")) with 7%nat in Hu.
  set (w := drop 7 (tok_text text t)) in *. assert (tok_len t = 7 + length w)%nat as Hlen.
  { rewrite <-Hl, Hu, length_app. done. }
  assert (NUL ∉ w) as HNw by (by apply notin_drop).
  rewrite (proj2 (Nat.ltb_ge _ _)) by lia. rewrite Hp, prefix_test, Hs by (done || lia).
  cbn [mbind outcome_bind negb andb]. rewrite drop_app_le by lia. fold w. rewrite Hlen.
  destruct (scan_name_ok w x q 7 HNw) as (r & -> & Hr). cbn [mbind outcome_bind]. destruct r as [|j|j].
  - do 2 eexists. split; [done|]. by rewrite name_value_all.
  - do 2 eexists. split; [done|]. by rewrite Hr.
  - destruct Hr as [[-> Hr]|(a & v & Hw & Ha & ->)].
    + rewrite name_value_all, <-Hlen by done.
      assert (∃ s c, tok_text text t = s ++ [c] ∧ c ≠ "="%char) as (s & c & Hsc & Hc).
      { rewrite Hu. destruct w as [|c w' _] using rev_ind; [by exists (msg "CONFIG"), "_"%char|].
        exists (msg "CONFIG_" ++ w'), c. split; [by rewrite app_assoc|]. rewrite forallb_app in Hr.
        intros ->. by apply andb_true_iff in Hr as [_ ?]. }
      destruct (validate_value_end text t s c x q) as (r & m & -> & Hiff); [congruence..|]. naive_solver.
    + rewrite Hw, name_value_app by done. rewrite Hw in Hu. destruct v as [|d v].
      * destruct (validate_value_end text t (msg "CONFIG_" ++ a) "=" x q) as (r & m & Hv & Hiff).
        { rewrite Hp, Hu. by rewrite !app_assoc. }
        { rewrite <-Hl, Hu. by rewrite !app_assoc. }
        exists r, m. replace (7 + S (length a))%nat with (tok_len t) by (rewrite Hlen, Hw, length_app; simpl; lia).
        split; [done|]. rewrite Hiff. split; [intros Hn; by destruct Hn|done].
      * destruct (validate_value_ok text t (msg "CONFIG_" ++ a ++ ["="%char]) (d :: v) x q) as (r & m & Hv & Hiff).
        { rewrite Hu. by rewrite <-!app_assoc. } { done. }
        { rewrite Hp, Hu. by rewrite <-!app_assoc. } { done. }
        { rewrite <-Hl, Hu. by rewrite <-!app_assoc. }
        exists r, m. split; [|done]. rewrite <-Hv. f_equal. rewrite !length_app. simpl. lia.
Qed.

(** ** The name and the value of a variable *)
Fixpoint before_eq (s : cstring) : cstring :=
  match s with c :: s' => if Ascii.eqb c "=" then [] else c :: before_eq s' | [] => [] end.
Fixpoint after_eq (s : cstring) : option cstring :=
  match s with c :: s' => if Ascii.eqb c "=" then Some s' else after_eq s' | [] => None end.
Lemma strnchr_eq u r :
  strnchr (u ++ r) "=" (length u) =
  Done (match after_eq u with Some _ => Some (length (before_eq u)) | None => None end).
Proof.
  induction u as [|c u IH]; [done|]. cbn [app length strnchr]. unfold deref.
  cbn [head access mbind outcome_bind after_eq before_eq tail].
  destruct (Ascii.eqb c "="); [done|]. rewrite IH. cbn [mbind outcome_bind]. by destruct (after_eq u).
Qed.
Lemma before_after u :
  match after_eq u with Some w => u = before_eq u ++ "="%char :: w | None => before_eq u = u end.
Proof.
  induction u as [|c u IH]; [done|]. cbn [after_eq before_eq].
  destruct (Ascii.eqb_spec c "=") as [->|]; [done|]. destruct (after_eq u); simpl; by f_equal.
Qed.
Lemma get_len_ok u r : get_len (u ++ r) (length u) = Done (length (before_eq u)).
Proof.
  unfold get_len. rewrite strnchr_eq. cbn [mbind outcome_bind]. pose proof (before_after u) as H.
  destruct (after_eq u); [done|]. by rewrite H.
Qed.
Lemma strndup_name u r : NUL ∉ u → strndup (u ++ r) (length (before_eq u)) = before_eq u.
Proof.
  induction u as [|c u IH]; intros Hu; [by destruct r|]. apply not_elem_of_cons in Hu as [Hc Hu].
  cbn [before_eq]. destruct (Ascii.eqb c "="); [done|]. cbn [app length strndup].
  by rewrite eqb_false, IH.
Qed.
Lemma after_eq_value u w : after_eq u = Some w → variable_ok u = true → w ≠ [].
Proof.
  intros Hw [Hu H]%andb_true_iff. apply starts_with_split in Hu. rewrite Hu in Hw.
  change (length (msg "CONFIG_")) with 7%nat in Hw. revert Hw H. generalize (drop 7 u). clear.
  intros s Hw H. change (after_eq s = Some w) in Hw. induction s as [|c s IH]; [done|].
  cbn [after_eq name_value_ok] in *. destruct (Ascii.eqb_spec c "=") as [->|].
  - injection Hw as ->. by destruct w.
  - destruct (id_char c); [by apply IH|]. done.
Qed.

(** ** The value of a variable in a configuration *)
Definition holds (ss : list (cstring * setting)) (u : cstring) : bool :=
  match setting_of ss (before_eq u), after_eq u with
  | None, _ => false
  | Some (SetY | SetM), None => true
  | Some _, None => false
  | Some SetN, Some w => bool_decide (w = msg "n")
  | Some SetY, Some w => bool_decide (w = msg "y")
  | Some SetM, Some w => bool_decide (w = msg "m")
  | Some (SetV x), Some w => bool_decide (x = w) && bool_decide (w ∉ [msg "n"; msg "y"; msg "m"])
  end.

Lemma same_prefix_comm n a b : same_prefix n a b = same_prefix n b a.
Proof.
  revert a b. induction n as [|n IH]; intros a b; [done|]. cbn [same_prefix]. unfold deref.
  destruct a as [|x a], b as [|y b]; try done. cbn [head access mbind outcome_bind tail].
  rewrite (Ascii.eqb_sym x y). destruct (Ascii.eqb_spec y x) as [->|]; [|done]. by rewrite IH.
Qed.
Lemma same_prefix_one w r c : w ≠ [] → NUL ∉ w → c ≠ NUL →
  same_prefix (length w) (w ++ r) ([c] ++ [NUL]) = Done (bool_decide (w = [c])).
Proof.
  intros Hne HN Hc. destruct w as [|a w]; [done|]. apply not_elem_of_cons in HN as [Ha HN].
  cbn [length app same_prefix]. unfold deref. cbn [head access mbind outcome_bind tail].
  destruct (Ascii.eqb_spec a c) as [->|Hac]; cbn [negb].
  2: { by rewrite bool_decide_eq_false_2 by congruence. }
  rewrite eqb_false by done. destruct w as [|b w]; [by rewrite bool_decide_eq_true_2|].
  apply not_elem_of_cons in HN as [Hb HN]. cbn [length app same_prefix]. unfold deref.
  cbn [head access mbind outcome_bind]. rewrite eqb_false by done.
  by rewrite bool_decide_eq_false_2 by congruence.
Qed.
(** The comparison with a value. *)
Lemma compare_ok w r x : NUL ∉ w →
  (if negb (length x =? length w)%nat then mret 0 else
   b ← same_prefix (length w) (w ++ r) (x ++ [NUL]); mret (truth b)) = Done (truth (bool_decide (x = w))).
Proof.
  intros HN. destruct (Nat.eqb_spec (length x) (length w)) as [E|E]; cbn [negb].
  - by rewrite same_prefix_comm, same_prefix_eq.
  - rewrite bool_decide_eq_false_2; [done|]. by intros ->.
Qed.
Lemma map_ok text ss vars p t k : NUL ∉ text → tok_at text t →
  variable_ok (tok_text text t) = true → p !! tok t = Some k →
  vars !! k = Some (assigned ss (fresh (before_eq (tok_text text t)))) →
  map text vars p t = Done (truth (holds ss (tok_text text t))).
Proof.
  intros HN Ht Hok Hp Hk. destruct (tok_ptr_split text t Ht) as (x & q & Hptr & _ & Hl).
  pose proof (tok_text_NUL text t HN) as HNu. unfold map, holds. rewrite Hp, Hptr, <-Hl.
  set (u := tok_text text t) in *. cbn [access mbind outcome_bind]. rewrite Hk. cbn [access mbind outcome_bind]. unfold assigned. cbn [id fresh].
  rewrite strnchr_eq. destruct (setting_of ss (before_eq u)) as [s|]; [|done].
  cbn [mbind outcome_bind]. pose proof (before_after u) as Hu. pose proof (after_eq_value u) as Hv.
  destruct (after_eq u) as [w|]; [|by destruct s].
  specialize (Hv w eq_refl Hok). set (n := before_eq u) in *.
  assert (NUL ∉ w) as HNw by (rewrite Hu in HNu; set_solver).
  assert (drop (S (length n)) (u ++ x :: q) = w ++ x :: q) as ->.
  { rewrite Hu, <-app_assoc. cbn [app]. by rewrite cons_middle, app_assoc, drop_app_ge, length_app, Nat.add_1_r, Nat.sub_diag by (rewrite length_app; simpl; lia). }
  assert (length u - S (length n) = length w)%nat as -> by (rewrite Hu, length_app; simpl; lia).
  change (msg "n") with ["n"%char]. change (msg "y") with ["y"%char]. change (msg "m") with ["m"%char].
  rewrite !same_prefix_one by done. cbn [mbind outcome_bind].
  destruct (decide (w = ["m"%char])) as [->|Hm]; [by destruct s; rewrite ?andb_false_r|].
  destruct (decide (w = ["y"%char])) as [->|Hy]; [by destruct s; rewrite ?andb_false_r|].
  destruct (decide (w = ["n"%char])) as [->|Hn]; [by destruct s; rewrite ?andb_false_r|].
  rewrite !(bool_decide_eq_false_2 (w = _)) by done.
  destruct s as [| | |v]; [done..|].
  rewrite (bool_decide_eq_true_2 (w ∉ _)) by set_solver. rewrite andb_true_r. cbn [apply_setting set_val choice val access mbind outcome_bind].
  apply compare_ok. done.
Qed.

(** ** The table of variables *)
Definition tok_name (text : cstring) (t : tst_expr_tok) : cstring := before_eq (tok_text text t).
Definition short (text : cstring) (t : tst_expr_tok) : bool := (length (tok_name text t) + 1 <? SIZEOF_ID)%nat.
(** The variables of an expression. *)
Definition toks_ok (text : cstring) (ts : list tst_expr_tok) : Prop :=
  NUL ∉ text ∧ (∀ t, t ∈ ts → tok_at text t) ∧
  ∀ t t', t ∈ ts → t' ∈ ts → tok t = tok t' → t = t'.
(** The token's entry in the table. *)
Definition points (text : cstring) (vars : list tst_kconfig_var) (p : gmap nat nat) (t : tst_expr_tok) : Prop :=
  ∃ k, p !! tok t = Some k ∧ vars !! k = Some (fresh (tok_name text t)).
Definition table_ok (vars : list tst_kconfig_var) : Prop :=
  NoDup (id <$> vars) ∧ Forall (λ v, v = fresh (id v)) vars.

Lemma find_var_ok vars n k :
  match find_var vars k n with
  | Some j => ∃ i v, j = (k + i)%nat ∧ vars !! i = Some v ∧ id v = n
  | None => n ∉ id <$> vars
  end.
Proof.
  revert k. induction vars as [|v vs IH]; intros k; simpl; [apply not_elem_of_nil|].
  case_decide as E; [exists O, v; split_and!; [lia|done|done]|].
  specialize (IH (S k)). destruct (find_var vs (S k) n) as [j|].
  - destruct IH as (i & v' & -> & Hi & Hv). exists (S i), v'. split_and!; [lia|done|done].
  - apply not_elem_of_cons. split; [congruence|done].
Qed.
Lemma points_extend text vars vs p t : points text vars p t → points text (vars ++ vs) p t.
Proof. intros (k & Hp & Hk). exists k. split; [done|]. by apply lookup_app_l_Some. Qed.
Lemma table_add vars n : table_ok vars → n ∉ id <$> vars → table_ok (vars ++ [fresh n]).
Proof.
  intros [Hnd Hf] Hn. split.
  - rewrite fmap_app. apply NoDup_app. split_and!; [done| |apply NoDup_singleton].
    intros m Hm ->%list_elem_of_singleton. done.
  - apply Forall_app. split; [done|]. by constructor.
Qed.
(** Recording one token keeps the entries of the others. *)
Lemma points_insert text ts vars p t k : toks_ok text (ts ++ [t]) →
  (∀ t', t' ∈ ts → points text vars p t') → vars !! k = Some (fresh (tok_name text t)) →
  ∀ t', t' ∈ ts ++ [t] → points text vars (<[tok t := k]> p) t'.
Proof.
  intros (_ & _ & Hinj) Hp Hk t' Ht'. unfold points. destruct (decide (tok t' = tok t)) as [E|E].
  - apply Hinj in E as ->; [|done|set_solver]. exists k. by rewrite lookup_insert_eq.
  - apply elem_of_app in Ht' as [Ht'| ->%list_elem_of_singleton]; [|done].
    destruct (Hp _ Ht') as (j & Hj & Hv). exists j. by rewrite lookup_insert_ne.
Qed.
Lemma populate_toks_ok text cnt before ts vars p :
  toks_ok text (before ++ ts) → table_ok vars → (∀ t, t ∈ before → points text vars p t) →
  (length vars + length ts ≤ cnt)%nat →
  if forallb (short text) ts then
    ∃ vs p', populate_toks cnt text ts vars p = Done (vars ++ vs, p') ∧ table_ok (vars ++ vs) ∧
      (length vs ≤ length ts)%nat ∧ ∀ t, t ∈ before ++ ts → points text (vars ++ vs) p' t
  else populate_toks cnt text ts vars p = Abort.
Proof.
  revert before vars p. induction ts as [|t ts IH]; intros before vars p Hts Hv Hp Hlen.
  { simpl. exists [], p. rewrite !app_nil_r. by split_and!. }
  cbn [forallb populate_toks length] in *. rewrite (proj2 (Nat.leb_gt _ _)) by lia.
  assert (tok_at text t) as Ht by (apply Hts; set_solver).
  destruct (tok_ptr_split text t Ht) as (x & q & Hptr & _ & Hl). rewrite Hptr, <-Hl, get_len_ok.
  cbn [mbind outcome_bind]. fold (tok_name text t). rewrite strndup_name by (apply tok_text_NUL, Hts).
  fold (tok_name text t). unfold short at 1. rewrite Nat.ltb_antisym.
  destruct (SIZEOF_ID <=? _)%nat; [done|]. cbn [negb andb]. fold (fresh (tok_name text t)).
  assert (before ++ t :: ts = (before ++ [t]) ++ ts) as Eb by (by rewrite <-app_assoc).
  rewrite Eb in *.
  assert (toks_ok text (before ++ [t])) as Htd by (destruct Hts as (? & Ha & Hb); split_and!; [done|set_solver..]).
  pose proof (find_var_ok vars (tok_name text t) 0) as Hf. cbn [id fresh].
  destruct (find_var vars 0 (tok_name text t)) as [j|].
  - destruct Hf as (i & v & -> & Hi & Hid). simpl in Hi |- *.
    assert (vars !! i = Some (fresh (tok_name text t))) as Hi'.
    { destruct Hv as [_ Hv]. rewrite Forall_lookup in Hv. rewrite <-Hid. by rewrite <-(Hv _ _ Hi). }
    specialize (IH (before ++ [t]) vars (<[tok t:=i]> p) Hts Hv (points_insert _ _ _ _ _ _ Htd Hp Hi') ltac:(lia)).
    case_match; [|done]. destruct IH as (vs & p' & Hrun & Hok & Hle & Hpt). exists vs, p'. split_and!; [done|done|lia|done].
  - assert ((vars ++ [fresh (tok_name text t)]) !! length vars = Some (fresh (tok_name text t))) as Hk
      by (by rewrite list_lookup_middle).
    specialize (IH (before ++ [t]) (vars ++ [fresh (tok_name text t)]) (<[tok t:=length vars]> p) Hts (table_add _ _ Hv Hf)).
    rewrite length_app in IH. cbn [length] in IH.
    specialize (IH (points_insert _ _ _ _ _ _ Htd (λ t' H, points_extend _ _ _ _ _ (Hp t' H)) Hk) ltac:(lia)).
    case_match; [|done]. destruct IH as (vs & p' & Hrun & Hok & Hle & Hpt).
    exists (fresh (tok_name text t) :: vs), p'.
    assert (vars ++ fresh (tok_name text t) :: vs = (vars ++ [fresh (tok_name text t)]) ++ vs) as ->
      by (by rewrite <-app_assoc). split_and!; [done|done|simpl; lia|done].
Qed.
