(* ===== verification/LtpKconfigSpec.v ===== *)
(** * ltp: what checking constraints gives

    The parsed constraints with the variables in them, the passes of
    [tst_kconfig_check] over all of them, and its result: whether every
    constraint holds in the configuration. *)

From Stdlib Require Import String Ascii.
From S2P Require Import Prelude LtpBoolExpr LtpBoolExprSpec LtpBoolExprParse LtpBoolExprEval.
From S2P Require Import LtpKver LtpKconfig LtpKconfigRead LtpKconfigVars.

(** ** Parsed constraints *)
Record constraint : Type := Constraint {
  c_text : cstring;
  c_expr : tst_expr;
  c_tree : bexpr
}.
Definition string_ok (k : cstring) : Prop := NUL ∉ k ∧ Z.of_nat (length k) < 2 ^ 32.
(** The text is the written form of the tree. *)
Definition is_parsed (c : constraint) : Prop :=
  string_ok (c_text c) ∧ tst_bool_expr_parse true (c_text c) = Done (Some (c_expr c), []) ∧
  etoks (c_tree c) = seq 0 (length (buf (c_expr c))) ∧ ewf (buf (c_expr c)) (c_tree c).
Definition is_var (c : constraint) (t : tst_expr_tok) : Prop :=
  t ∈ buf (c_expr c) ∧ op t = TST_OP_VAR.
(** The variables are in the accepted language and their names fit. *)
Definition vars_valid (c : constraint) : Prop :=
  ∀ t, is_var c t → variable_ok (tok_text (c_text c) t) = true.
Definition vars_short (c : constraint) : Prop := ∀ t, is_var c t → short (c_text c) t = true.
(** The value of the expression is 1 when its variables have their values in
    the configuration. *)
Definition satisfied (ss : list (cstring * setting)) (c : constraint) : bool :=
  (eneed (c_tree c) <=? MAX_STACK)%nat &&
  (esem (λ t, truth (holds ss (tok_text (c_text c) t))) (buf (c_expr c)) (c_tree c) =? 1).

(** ** The variables of a parsed constraint *)
Lemma rpn_toks_chain b f i ks : chain b i ks → (length ks ≤ f)%nat →
  ∃ ts, rpn_toks f b i = Done ts ∧ Forall2 (λ k t, b !! k = Some t) ks ts.
Proof.
  revert f i. induction ks as [|k ks IH]; intros f i Hc Hf; simpl in Hc.
  - subst. exists []. by destruct f.
  - destruct Hc as (-> & t & Ht & Hc). destruct f as [|f]; simpl in Hf; [lia|].
    destruct (IH f _ Hc ltac:(lia)) as (ts & Hts & Hall). exists (t :: ts).
    cbn [rpn_toks]. rewrite Ht. cbn [access mbind outcome_bind]. rewrite Hts. split; [done|]. by constructor.
Qed.
(** Every variable is in the postfix order. *)
Lemma post_vars b :
  (∀ o, owf b o → ∀ i, i ∈ otoks o → kind b i = Some TST_OP_VAR → i ∈ opost o) ∧
  (∀ e, ewf b e → ∀ i, i ∈ etoks e → kind b i = Some TST_OP_VAR → i ∈ epost e).
Proof.
  apply expr_mut; simpl.
  - done.
  - intros i o IH [Hi Ho] j [->|Hj]%elem_of_cons Hk; [congruence|]. apply elem_of_app. left. by apply IH.
  - intros i e IH j (Hi & He & Hj) k Hk Hv. apply elem_of_cons in Hk as [->|Hk]; [congruence|].
    apply elem_of_app in Hk as [Hk| ->%list_elem_of_singleton]; [by apply IH|congruence].
  - done.
  - intros l IHl i o IHo (Hl & Hi & Ho) k Hk Hv. rewrite !elem_of_app.
    apply elem_of_app in Hk as [Hk|[->|Hk]%elem_of_cons].
    + left. by apply IHl.
    + destruct Hi; congruence.
    + right. left. by apply IHo.
Qed.
Lemma ascending_inj lo ts i j t t' : ascending lo ts → Forall (λ t, 0 < tok_len t)%nat ts →
  ts !! i = Some t → ts !! j = Some t' → tok t = tok t' → i = j.
Proof.
  revert lo i j. induction ts as [|t0 ts IH]; intros lo i j Ha Hpos Hi Hj Heq; [done|].
  destruct Ha as [_ Ha]. apply Forall_cons in Hpos as [H0 Hpos].
  destruct i as [|i], j as [|j]; simpl in *; simplify_eq; [done|..].
  - pose proof (ascending_first _ _ _ _ Ha Hj). lia.
  - pose proof (ascending_first _ _ _ _ Ha Hi). lia.
  - f_equal. by eapply IH.
Qed.

(** A parsed constraint: the chain of its tokens, and its variables. *)
Definition view (c : constraint) (ts : list tst_expr_tok) : Prop :=
  chain (buf (c_expr c)) (rpn (c_expr c)) (epost (c_tree c)) ∧
  (length (epost (c_tree c)) ≤ length (buf (c_expr c)))%nat ∧
  var_toks (c_expr c) = Done ts ∧ (∀ t, t ∈ ts ↔ is_var c t) ∧ toks_ok (c_text c) ts.
Lemma same_toks_at b b' k t : same_toks b b' → b !! k = Some t →
  ∃ t', b' !! k = Some t' ∧ tok t = tok t' ∧ tok_len t = tok_len t' ∧ op t = op t'.
Proof.
  intros Hs Ht. pose proof (same_toks_lookup _ _ k Hs) as H. rewrite Ht in H.
  destruct (b' !! k) as [t'|]; [|done]. exists t'. unfold set_next in H. simpl in H. by simplify_eq.
Qed.
Lemma var_toks_chain c : chain (buf (c_expr c)) (rpn (c_expr c)) (epost (c_tree c)) →
  etoks (c_tree c) = seq 0 (length (buf (c_expr c))) → ewf (buf (c_expr c)) (c_tree c) →
  ∃ ts, var_toks (c_expr c) = Done ts ∧ ∀ t, t ∈ ts ↔ is_var c t.
Proof.
  intros Hc He Hw. destruct (post_nodup _ _ He) as (_ & _ & Hl). unfold var_toks, is_var.
  destruct (rpn_toks_chain _ _ _ _ Hc Hl) as (ts & -> & Hall). cbn [mbind outcome_bind].
  eexists. split; [done|]. intros t. rewrite list_elem_of_filter. split.
  - intros [Hop Ht]. split; [|done]. apply list_elem_of_lookup_1 in Ht as [i Hi].
    destruct (Forall2_lookup_r _ _ _ _ _ Hall Hi) as (k & _ & Hk). by eapply list_elem_of_lookup_2.
  - intros [Ht Hop]. split; [done|]. apply list_elem_of_lookup_1 in Ht as [k Hk].
    assert (k ∈ epost (c_tree c)) as Hin.
    { apply (proj2 (post_vars (buf (c_expr c))) _ Hw).
      - rewrite He. apply elem_of_seq. apply lookup_lt_Some in Hk. lia.
      - unfold kind. by rewrite Hk; simpl; rewrite Hop. }
    apply list_elem_of_lookup_1 in Hin as [i Hi].
    destruct (Forall2_lookup_l _ _ _ _ _ Hall Hi) as (t' & Ht' & Hk').
    rewrite Hk in Hk'. simplify_eq. by eapply list_elem_of_lookup_2.
Qed.
(** Parsing a text fails, or gives a constraint with its variables. *)
Lemma parse_cases k : string_ok k →
  (∃ m, tst_bool_expr_parse true k = Done (None, m)) ∨
  (∃ c ts, c_text c = k ∧ is_parsed c ∧ view c ts).
Proof.
  intros [HN Hlen]. destruct (parse_ok k Hlen) as (Ht & Hf & Ha & Hp).
  generalize dependent (tokens k). intros ts Ht Hf Ha Hp.
  case_decide; [left; eauto|]. destruct (verdict ts (length ts)) as [[i m]|e] eqn:Hv.
  { left. destruct Hp as (? & ? & _ & _ & _ & ?). eauto. }
  right. destruct (verdict_sound _ _ _ Hv) as [He Hw]. destruct Hp as (ret & Hp & Hs & Hc).
  pose proof (same_toks_length _ _ Hs) as Hl. rewrite <-Hl in He.
  assert (ewf (buf ret) e) as Hw'.
  { eapply wf_kind; [|done]. intros j. symmetry. by apply same_toks_kind. }
  destruct (var_toks_chain (Constraint k ret e) Hc He Hw') as (vs & Hvs & Hin).
  exists (Constraint k ret e), vs. destruct (post_nodup _ _ He) as (_ & _ & Hlp).
  split_and!; [done|done|]. split_and!; [done|done|done|done|]. rewrite Forall_lookup in Hf. split_and!; [done|..].
  - intros t [Ht' Hop]%Hin. apply list_elem_of_lookup_1 in Ht' as [j Hj].
    destruct (same_toks_at _ _ _ _ Hs Hj) as (t' & Hj' & E1 & E2 & E3).
    destruct (Hf _ _ Hj') as (_ & Hle & _ & _ & _ & Hq). unfold tok_at. rewrite E1, E2.
    split_and!; [done|done|]. apply Hq. by rewrite <-E3.
  - intros t t' [H1 _]%Hin [H2 _]%Hin Heq. apply list_elem_of_lookup_1 in H1 as [i Hi], H2 as [j Hj].
    destruct (same_toks_at _ _ _ _ Hs Hi) as (u & Hu & E1 & _), (same_toks_at _ _ _ _ Hs Hj) as (u' & Hu' & E1' & _).
    assert (i = j) as ->; [|simpl in *; congruence].
    apply (ascending_inj 0 ts i j u u'); [done| |done|done|congruence].
    apply Forall_lookup. intros n w Hw0. by apply Hf in Hw0 as [? _].
Qed.
Lemma parsed_unique c c' : is_parsed c → is_parsed c' → c_text c = c_text c' → c = c'.
Proof.
  intros (_ & Hp & He & Hw) (_ & Hp' & He' & Hw') Heq. destruct c as [k r e], c' as [k' r' e']. simpl in *.
  subst k'. rewrite Hp in Hp'. simplify_eq. f_equal.
  apply (verdict_complete _ _ _ He) in Hw. apply (verdict_complete _ _ _ He') in Hw'. congruence.
Qed.
Lemma parsed_view c : is_parsed c → ∃ ts, view c ts.
Proof.
  intros H. destruct (parse_cases (c_text c)) as [(m & Hm)|(c' & ts & Hk & Hc & Hv)].
  - apply H.
  - destruct H as (_ & Hp & _). congruence.
  - rewrite (parsed_unique c c') by done. by exists ts.
Qed.

(** ** The passes over the constraints *)
Notation viewed := (constraint * list tst_expr_tok)%type.
Definition exprs (zs : list viewed) : list (cstring * tst_expr) :=
  (λ z, (c_text z.1, c_expr z.1)) <$> zs.
Definition viewed_ok (z : viewed) : Prop := is_parsed z.1 ∧ view z.1 z.2.

Lemma parse_all_cases ks : Forall string_ok ks →
  (parse_all ks = Abort ∧ ∃ k, k ∈ ks ∧ ∀ c, is_parsed c → c_text c ≠ k) ∨
  ∃ zs, parse_all ks = Done (exprs zs) ∧ Forall viewed_ok zs ∧ (λ z, c_text z.1) <$> zs = ks.
Proof.
  induction 1 as [|k ks Hk Hks IH]; [right; by exists []|]. cbn [parse_all].
  destruct (parse_cases k Hk) as [[m Hm]|(c & ts & Hc & Hp & Hv)].
  - left. rewrite Hm. split; [done|]. exists k. split; [left|]. intros c (_ & Hp & _) E. congruence.
  - destruct (Hp) as (_ & Hrun & _). rewrite Hc in Hrun. rewrite Hrun. cbn [mbind outcome_bind].
    destruct IH as [[-> (k' & Hin & Hno)]|(zs & -> & Hzs & Ht)].
    + left. split; [done|]. exists k'. split; [by right|done].
    + right. exists ((c, ts) :: zs). cbn [mbind outcome_bind]. split_and!.
      * unfold exprs. rewrite fmap_cons. simpl. by rewrite Hc.
      * by constructor.
      * rewrite fmap_cons. simpl. by rewrite Hc, Ht.
Qed.

(** [validate_var] returns 0, 1 or -1. *)
Ltac outcome_inv H :=
  cbv zeta in H;
  repeat first [ match type of H with (if ?b then _ else _) = _ => destruct b end
               | apply outcome_bind_inv in H as (? & _ & H) ].
Lemma validate_value_range text t i r m : validate_value text t i = Done (r, m) → r = 0 ∨ r = 1 ∨ r = -1.
Proof. unfold validate_value. intros H. outcome_inv H; injection H as <- _; tauto. Qed.
Lemma validate_var_range text t r m : validate_var text t = Done (r, m) → r = 0 ∨ r = 1 ∨ r = -1.
Proof.
  unfold validate_var. intros H. outcome_inv H; [injection H as <- _; tauto|].
  match type of H with match ?x with _ => _ end = _ => destruct x end; [injection H as <- _; tauto..|].
  by eapply validate_value_range.
Qed.
Lemma validate_toks_ok text ts ret : toks_ok text ts →
  ∃ r, validate_toks text ts ret = Done r ∧
    (r = 0 ↔ ret = 0 ∧ ∀ t, t ∈ ts → variable_ok (tok_text text t) = true).
Proof.
  intros (HN & Hat & _). revert ret. induction ts as [|t ts IH]; intros ret.
  { exists ret. split; [done|]. split; [|tauto]. intros ->. split; [done|]. by intros t ?%not_elem_of_nil. }
  cbn [validate_toks]. destruct (validate_var_ok text t HN) as (r & m & Hr & Hiff); [apply Hat; left|].
  rewrite Hr. cbn [mbind outcome_bind].
  destruct (IH (λ t' H, Hat t' (list_elem_of_further _ _ _ H)) (Z.lor ret (u32 r))) as (r' & -> & Hr').
  exists r'. split; [done|]. rewrite Hr', Z.lor_eq_0_iff.
  assert (u32 r = 0 ↔ r = 0) as -> by (apply validate_var_range in Hr as [->|[->| ->]]; done).
  rewrite Hiff. setoid_rewrite elem_of_cons. naive_solver.
Qed.
Lemma validate_vars_ok zs ret : Forall viewed_ok zs →
  ∃ r, validate_vars (exprs zs) ret = Done r ∧ (r = 0 ↔ ret = 0 ∧ Forall (λ z, vars_valid z.1) zs).
Proof.
  intros Hzs. revert ret. induction Hzs as [|[c ts] zs [Hp (_ & _ & Hv & Hin & Hok)] Hzs IH]; intros ret.
  { exists ret. split; [done|]. naive_solver. }
  unfold exprs. rewrite fmap_cons. cbn [validate_vars fst]. simpl in Hv, Hin, Hok. rewrite Hv.
  cbn [mbind outcome_bind]. destruct (validate_toks_ok _ _ ret Hok) as (r & -> & Hr). cbn [mbind outcome_bind].
  destruct (IH r) as (r' & Hrun & Hr'). exists r'. split; [done|]. rewrite Hr', Hr, Forall_cons.
  unfold vars_valid at 2. simpl. setoid_rewrite Hin. tauto.
Qed.
Fixpoint total_vars (zs : list viewed) : nat :=
  match zs with [] => O | (_, ts) :: zs => (length ts + total_vars zs)%nat end.
Lemma get_var_cnt_ok zs cnt : Forall viewed_ok zs →
  get_var_cnt (exprs zs) cnt = Done (cnt + total_vars zs)%nat.
Proof.
  intros Hzs. revert cnt. induction Hzs as [|[c ts] zs [_ (_ & _ & Hv & _)] Hzs IH]; intros cnt.
  { simpl. by rewrite Nat.add_0_r. }
  unfold exprs. rewrite fmap_cons. cbn [get_var_cnt fst]. simpl in Hv. rewrite Hv. cbn [mbind outcome_bind].
  fold (exprs zs). rewrite IH. cbn [total_vars]. f_equal. lia.
Qed.
Lemma forallb_elem {A} (f : A → bool) l : forallb f l = true ↔ ∀ x, x ∈ l → f x = true.
Proof.
  induction l as [|x l IH]; simpl; [split; [by intros _ x ?%not_elem_of_nil|done]|].
  rewrite andb_true_iff, IH. setoid_rewrite elem_of_cons. naive_solver.
Qed.
Lemma populate_vars_ok cnt zs vars : Forall viewed_ok zs → table_ok vars →
  (length vars + total_vars zs ≤ cnt)%nat →
  (∃ vs ps, populate_vars cnt (exprs zs) vars = Done (vars ++ vs, ps) ∧ table_ok (vars ++ vs) ∧
    Forall (λ z, vars_short z.1) zs ∧
    Forall2 (λ z p, ∀ t, t ∈ z.2 → points (c_text z.1) (vars ++ vs) p t) zs ps) ∨
  (populate_vars cnt (exprs zs) vars = Abort ∧ ¬ Forall (λ z, vars_short z.1) zs).
Proof.
  intros Hzs. revert vars. induction Hzs as [|[c ts] zs [_ (_ & _ & Hv & Hin & Hok)] Hzs IH]; intros vars Ht Hlen.
  { left. exists [], []. rewrite app_nil_r. split_and!; [done|done|constructor..]. }
  unfold exprs. rewrite fmap_cons. cbn [populate_vars fst]. simpl in Hv, Hin, Hok. rewrite Hv.
  cbn [mbind outcome_bind]. fold (exprs zs).
  change (total_vars ((c, ts) :: zs)) with (length ts + total_vars zs)%nat in Hlen.
  pose proof (populate_toks_ok (c_text c) cnt [] ts vars ∅ Hok Ht
    (λ t H, match not_elem_of_nil t H with end) ltac:(lia)) as Hpop.
  assert (vars_short c ↔ forallb (short (c_text c)) ts = true) as Hshort.
  { unfold vars_short. setoid_rewrite <-Hin. symmetry. apply forallb_elem. }
  destruct (forallb _ ts).
  2: { right. rewrite Hpop. split; [done|]. by intros [?%Hshort _]%Forall_cons. }
  destruct Hpop as (vs & p & -> & Hvs & Hle & Hpts). cbn [mbind outcome_bind].
  destruct (IH (vars ++ vs) Hvs) as [(vs' & ps & -> & Ht' & Hs & Hps)|[-> Hs]].
  - rewrite length_app. lia.
  - left. exists (vs ++ vs'), (p :: ps). rewrite app_assoc. split_and!; [done|done|constructor; [by apply Hshort|done]|].
    constructor; [|done]. intros t Hin'. apply points_extend. by apply Hpts.
  - right. split; [done|]. by intros [_ ?]%Forall_cons.
Qed.

(** ** Evaluating the constraints *)
Lemma sem_ext m m' b : (∀ t, t ∈ b → op t = TST_OP_VAR → m t = m' t) →
  (∀ o, owf b o → osem m b o = osem m' b o) ∧ (∀ e, ewf b e → esem m b e = esem m' b e).
Proof.
  intros Hm. apply expr_mut; simpl.
  - intros i Hi. destruct (kind_access _ _ _ Hi) as (t & Ht & Hop). unfold value. rewrite Ht.
    apply Hm; [by eapply list_elem_of_lookup_2|done].
  - intros i o IH [_ Ho]. by rewrite IH.
  - intros i e IH j (_ & He & _). by apply IH.
  - done.
  - intros l IHl i o IHo (Hl & _ & Ho). by rewrite IHl, IHo.
Qed.
Lemma all_defined m b : (∀ t, t ∈ b → op t = TST_OP_VAR → m t ≠ -1) →
  (∀ o, owf b o → odefined m b o = true) ∧ (∀ e, ewf b e → edefined m b e = true).
Proof.
  intros Hm. apply expr_mut; simpl.
  - intros i Hi. destruct (kind_access _ _ _ Hi) as (t & Ht & Hop). unfold value. rewrite Ht.
    apply negb_true_iff, Z.eqb_neq. apply Hm; [by eapply list_elem_of_lookup_2|done].
  - intros i o IH [_ Ho]. by apply IH.
  - intros i e IH j (_ & He & _). by apply IH.
  - done.
  - intros l IHl i o IHo (Hl & _ & Ho). by rewrite IHl, IHo.
Qed.
Lemma mapM_defined {A B} (f : A → outcome B) l : (∀ x, x ∈ l → ∃ y, f x = Done y) →
  ∃ ys, mapM f l = Done ys.
Proof.
  induction l as [|x l IH]; intros H; [by exists []|]. destruct (H x) as [y Hy]; [left|].
  destruct IH as [ys Hys]; [intros; apply H; by right|]. exists (y :: ys). cbn [mapM]. rewrite Hy.
  cbn [mbind outcome_bind]. by rewrite Hys.
Qed.
Lemma eval_constraint_ok ss table c ts p : is_parsed c → view c ts → vars_valid c → table_ok table →
  (∀ t, t ∈ ts → points (c_text c) table p t) →
  ∃ v, eval_constraint (assigned ss <$> table) (c_text c, c_expr c) p = Done v ∧
    (v =? 1) = satisfied ss c.
Proof.
  intros (_ & _ & _ & Hw) (Hc & Hl & Hv & Hin & HN & Hat & _) Hval Htab Hp.
  assert (∀ t, t ∈ ts → map (c_text c) (assigned ss <$> table) p t =
                        Done (truth (holds ss (tok_text (c_text c) t)))) as Hmap.
  { intros t Ht. destruct (Hp t Ht) as (k & Hk & Htk). eapply (map_ok _ _ _ _ _ k); try done.
    - by apply Hat.
    - apply Hval. by apply Hin.
    - by rewrite list_lookup_fmap, Htk. }
  unfold eval_constraint. cbn [fst snd]. rewrite Hv. cbn [mbind outcome_bind].
  destruct (mapM_defined (map (c_text c) (assigned ss <$> table) p) ts) as [ys ->]; [eauto|].
  cbn [mbind outcome_bind]. unfold tst_bool_expr_eval. rewrite (eval_ok _ _ (c_tree c)) by done.
  eexists. split; [done|].
  assert (∀ t, t ∈ buf (c_expr c) → op t = TST_OP_VAR →
    match map (c_text c) (assigned ss <$> table) p t with Done v => v | _ => -1 end =
    truth (holds ss (tok_text (c_text c) t))) as Heq.
  { intros t Ht Hop. by rewrite Hmap by (by apply Hin). }
  set (m := λ t, match map _ _ _ t with Done v => v | _ => -1 end) in *.
  assert (∀ t, t ∈ buf (c_expr c) → op t = TST_OP_VAR → m t ≠ -1) as Hdef.
  { intros t Ht Hop. unfold m. rewrite Heq by done. by destruct (holds ss _). }
  rewrite (proj2 (all_defined m _ Hdef)), (proj2 (sem_ext m _ _ Heq)), andb_true_r by done.
  unfold satisfied. by case_match.
Qed.
Lemma eval_all_ok ss table zs ps ret : Forall viewed_ok zs → Forall (λ z, vars_valid z.1) zs →
  table_ok table → Forall2 (λ z p, ∀ t, t ∈ z.2 → points (c_text z.1) table p t) zs ps →
  eval_all (assigned ss <$> table) (exprs zs) ps ret =
  Done (if forallb (satisfied ss) (fst <$> zs) then ret else 1).
Proof.
  intros Hzs Hval Htab Hps. revert ret Hzs Hval. induction Hps as [|[c ts] p zs ps Hp Hps IH]; intros ret Hzs Hval; [done|].
  apply Forall_cons in Hzs as [[Hpar Hview] Hzs]. apply Forall_cons in Hval as [Hv Hval].
  unfold exprs. rewrite !fmap_cons. cbn [eval_all fst forallb]. fold (exprs zs).
  destruct (eval_constraint_ok ss table c ts p Hpar Hview Hv Htab Hp) as (v & -> & Hsat).
  cbn [mbind outcome_bind]. rewrite (IH _ Hzs Hval), Hsat. simpl.
  destruct (satisfied ss c); [done|]. by destruct (forallb _ _).
Qed.

(** ** The check as a whole *)
Definition accepted (c : constraint) : Prop := is_parsed c ∧ vars_valid c ∧ vars_short c.
Lemma table_var_ok vars : table_ok vars → Forall var_ok vars.
Proof. intros [_ H]. eapply Forall_impl; [done|]. intros v ->. done. Qed.
Lemma parsed_exprs cs : Forall is_parsed cs → ∃ zs, fst <$> zs = cs ∧ Forall viewed_ok zs.
Proof.
  induction 1 as [|c cs Hc _ (zs & Hz & Hok)]; [by exists []|]. destruct (parsed_view c Hc) as [ts Hts].
  exists ((c, ts) :: zs). rewrite fmap_cons, Hz. split; [done|]. by constructor.
Qed.
Lemma parse_all_ok zs : Forall viewed_ok zs → parse_all (c_text <$> (fst <$> zs)) = Done (exprs zs).
Proof.
  induction 1 as [|[c ts] zs [(_ & Hp & _) _] _ IH]; [done|]. rewrite !fmap_cons. cbn [parse_all fst].
  simpl in Hp. rewrite Hp. cbn [mbind outcome_bind]. by rewrite IH.
Qed.
Lemma Forall_fst {P : constraint → Prop} (zs : list viewed) :
  Forall P (fst <$> zs) ↔ Forall (λ z, P z.1) zs.
Proof. by rewrite Forall_fmap. Qed.
Lemma table_nil : table_ok [].
Proof. split; [apply NoDup_nil_2|constructor]. Qed.
Lemma check_ok E ls cs : kconfig_skip_check E = false → config_file E ls → cs ≠ [] →
  Forall accepted cs →
  tst_kconfig_check E (c_text <$> cs) =
  Done (if forallb (satisfied (read_settings ls)) cs then 0 else 1).
Proof.
  intros Hskip Hfile Hne Hacc.
  destruct (parsed_exprs cs) as (zs & <- & Hzs); [eapply Forall_impl; [exact Hacc|]; by intros c [? _]|].
  apply Forall_fst in Hacc.
  assert (Forall (λ z, vars_valid z.1) zs) as Hval by (eapply Forall_impl; [exact Hacc|]; by intros z (_ & ? & _)).
  assert (Forall (λ z, vars_short z.1) zs) as Hsh by (eapply Forall_impl; [exact Hacc|]; by intros z (_ & _ & ?)).
  unfold tst_kconfig_check. destruct (c_text <$> (fst <$> zs)) eqn:Ek; [by destruct zs|]. rewrite <-Ek.
  rewrite Hskip, parse_all_ok by done. cbn [mbind outcome_bind].
  destruct (validate_vars_ok zs 0 Hzs) as (r & -> & Hr). cbn [mbind outcome_bind].
  rewrite (proj2 Hr) by done. cbn [Z.eqb negb]. rewrite get_var_cnt_ok by done. cbn [mbind outcome_bind].
  destruct (populate_vars_ok (0 + total_vars zs) zs [] Hzs table_nil ltac:(simpl; lia))
    as [(vs & ps & -> & Htab & _ & Hps)|[_ Hno]]; [|done].
  cbn [mbind outcome_bind app] in *.
  rewrite (kconfig_read_ok E ls vs Hfile (table_var_ok _ Htab) (proj1 Htab)). cbn [mbind outcome_bind].
  by apply eval_all_ok.
Qed.
(** Otherwise the test ends, whatever the configuration is. *)
Lemma check_rejects E ks : kconfig_skip_check E = false → Forall string_ok ks → ks ≠ [] →
  ¬ (∃ cs, c_text <$> cs = ks ∧ Forall accepted cs) → tst_kconfig_check E ks = Abort.
Proof.
  intros Hskip Hks Hne Hno. unfold tst_kconfig_check. destruct ks as [|k ks]; [done|]. rewrite Hskip.
  destruct (parse_all_cases (k :: ks) Hks) as [[-> _]|(zs & -> & Hzs & Ht)]; [done|]. cbn [mbind outcome_bind].
  destruct (validate_vars_ok zs 0 Hzs) as (r & -> & Hr). cbn [mbind outcome_bind].
  destruct (Z.eqb_spec r 0) as [E0|E0]; cbn [negb]; [|done]. apply Hr in E0 as [_ Hval].
  rewrite get_var_cnt_ok by done. cbn [mbind outcome_bind].
  destruct (populate_vars_ok (0 + total_vars zs) zs [] Hzs table_nil ltac:(simpl; lia))
    as [(vs & ps & _ & _ & Hsh & _)|[-> _]]; [|done].
  destruct Hno. exists (fst <$> zs). rewrite <-Ht, <-list_fmap_compose. split; [done|].
  apply Forall_fst. rewrite !Forall_lookup in *. intros i z Hz. split_and!; [by apply (Hzs i)|by apply (Hval i)|by apply (Hsh i)].
Qed.

(** ** Constraints in the words of the file

    A variable is true in a configuration if it is set to y or m, a variable
    with a value if the configuration has exactly this value; n is the value
    of a variable that is not set. *)
Definition set_text (s : setting) : cstring :=
  match s with SetN => msg "n" | SetY => msg "y" | SetM => msg "m" | SetV x => x end.
Definition true_in (ss : list (cstring * setting)) (u : cstring) : bool :=
  match setting_of ss (before_eq u), after_eq u with
  | None, _ => false
  | Some s, None => match s with SetY | SetM => true | _ => false end
  | Some s, Some w => bool_decide (set_text s = w)
  end.
Definition meets (ss : list (cstring * setting)) (c : constraint) : bool :=
  esem (λ t, truth (true_in ss (tok_text (c_text c) t))) (buf (c_expr c)) (c_tree c) =? 1.
(** What the reader and the evaluator can deal with. *)
Definition within_reach (ls : list config_line) (c : constraint) : Prop :=
  (eneed (c_tree c) ≤ MAX_STACK)%nat ∧
  ∀ t v, is_var c t → Assign (tok_name (c_text c) t) v ∈ ls → no_blank v = true ∧ v ≠ msg "n".
Lemma holds_true_in ls u : plain_values ls (before_eq u) → Assign (before_eq u) (msg "n") ∉ ls →
  holds (read_settings ls) u = true_in (settings ls) u.
Proof.
  intros Hp Hn. unfold holds, true_in. rewrite read_setting_of by done.
  pose proof (setting_string ls (before_eq u)) as Hs.
  destruct (setting_of (settings ls) (before_eq u)) as [s|]; [|done].
  destruct (after_eq u) as [w|]; destruct s as [| | |x]; cbn [set_text]; try done;
    try (apply bool_decide_ext; naive_solver).
  destruct (Hs x eq_refl) as (Hx & Hy & Hm). destruct (decide (x = w)) as [<-|Hne].
  - rewrite !bool_decide_eq_true_2; [done| |done]. rewrite !not_elem_of_cons. split_and!; [congruence|done|done|set_solver].
  - by rewrite !(bool_decide_eq_false_2 (x = w)).
Qed.
Lemma satisfied_meets ls c : within_reach ls c → is_parsed c →
  satisfied (read_settings ls) c = meets (settings ls) c.
Proof.
  intros [Hd Hv] (_ & _ & _ & Hw). unfold satisfied, meets. rewrite (proj2 (Nat.leb_le _ _) Hd). cbn [andb].
  f_equal. refine (proj2 (sem_ext _ _ _ _) _ Hw). intros t Ht Hop. f_equal. apply holds_true_in.
  - intros v Hin. by apply (Hv t).
  - intros Hin. by destruct (Hv t (msg "n")).
Qed.
Lemma check_meets E ls cs : kconfig_skip_check E = false → config_file E ls → cs ≠ [] →
  Forall accepted cs → Forall (within_reach ls) cs →
  tst_kconfig_check E (c_text <$> cs) = Done (if forallb (meets (settings ls)) cs then 0 else 1).
Proof.
  intros Hskip Hfile Hne Hacc Hin. rewrite (check_ok E ls) by done. clear Hne.
  assert (forallb (satisfied (read_settings ls)) cs = forallb (meets (settings ls)) cs) as ->; [|done].
  induction Hacc as [|c cs [Hc _] _ IH]; [done|]. apply Forall_cons in Hin as [H1 H2]. cbn [forallb].
  by rewrite satisfied_meets, IH.
Qed.
