(* ===== verification/LtpKconfigProps.v ===== *)
(** * ltp: the kernel configuration, the theorems

    What [tst_kconfig_check], [tst_kconfig_read], [tst_kconfig_get] and
    [validate_var] promise, with a small configuration they are applied to, and
    the files the reader gets wrong. *)

From Stdlib Require Import String Ascii.
From S2P Require Import Prelude LtpBoolExpr LtpBoolExprSpec LtpBoolExprParse LtpBoolExprEval.
From S2P Require Import LtpKver LtpKconfig LtpKconfigRead LtpKconfigVars LtpKconfigSpec.

(** ** A configuration and two constraints *)
Definition demo_lines : list config_line :=
  [Other (msg "# Automatically generated"); Other []; Assign (msg "CONFIG_MODULES") (msg "y");
   NotSet (msg "CONFIG_KASAN"); Assign (msg "CONFIG_CC_VERSION") (quote :: msg "gcc 12" ++ [quote]);
   Assign (msg "CONFIG_HZ") (msg "250"); Assign (msg "CONFIG_TUN") (msg "m")].
(** The text is found where the distribution of the running kernel puts it. *)
Definition demo_env (text : cstring) : kconfig_env :=
  Env false None (λ p, bool_decide (p = msg "/boot/config-6.1.0")) (msg "6.1.0")
    (λ gz p, if gz then None else Some text) (replicate LINE_SIZE "z"%char).
Definition no_NUL (s : cstring) : bool := forallb (λ c, negb (Ascii.eqb c NUL)) s.
Lemma string_ok_check s : no_NUL s && (Z.of_nat (length s) <? 2 ^ 32) = true → string_ok s.
Proof.
  intros [H1 H2]%andb_true_iff. split; [by apply (forallb_notin _ _ _ H1)|by apply Z.ltb_lt].
Qed.
Lemma demo_file : config_file (demo_env (file_text demo_lines)) demo_lines.
Proof. split_and!; [done|by repeat constructor|]. apply (bool_decide_unpack _). by vm_compute. Qed.


(** ** The theorems *)


(** Bad constraints are refused before the configuration is looked at: if
    some constraint does not parse, or has a variable that is not well formed or
    whose name does not fit into the table, the test is ended; no array is
    accessed out of range on the way, whatever the constraints are. *)
Theorem kconfig_check_refuses E ks : kconfig_skip_check E = false → Forall string_ok ks → ks ≠ [] →
  ¬ (∃ cs, c_text <$> cs = ks ∧ Forall accepted cs) → tst_kconfig_check E ks = Abort.
Proof. intros. by apply check_rejects. Qed.
Lemma kconfig_check_refuses_witness :
  tst_kconfig_check (demo_env []) [msg "CONFIG_HZ="] = Abort.
Proof.
  apply kconfig_check_refuses; [done|constructor; [by apply string_ok_check|constructor]|done|].
  intros (cs & Hcs & Hacc). destruct cs as [|c cs]; [done|]. apply Forall_cons in Hacc as [(Hp & Hv & _) _].
  destruct c as [k r e]. injection Hcs as -> _. destruct Hp as (_ & Hp & _). vm_compute in Hp.
  injection Hp as <-. unfold vars_valid, is_var in Hv. cbn [c_expr buf c_text] in Hv.
  specialize (Hv _ (conj (list_elem_of_here _ _) eq_refl)). by vm_compute in Hv.
Defined.

(** C38. Reading the file gives every variable its setting: for distinct names
    whose values in the file have no blank, and a file as above (settings of
    distinct variables and other lines, every line shorter than 127 characters
    and with its newline), [tst_kconfig_read] leaves each entry with the setting the file has
    for its name (y, m, n for "is not set", or v with the value), and untouched
    if there is none, although it may stop reading early and whatever the
    line buffer held before; [tst_kconfig_get] returns the choice of the one
    variable it is asked for. *)
Theorem kconfig_read_settings E ls names : config_file E ls → NoDup names → Forall (plain_values ls) names →
  tst_kconfig_read E (fresh <$> names) = Done (assigned (settings ls) ∘ fresh <$> names) ∧
  ∀ n, kconfig_skip_check E = false → (length n < SIZEOF_ID)%nat → plain_values ls n →
    tst_kconfig_get E n = Done (match setting_of (settings ls) n with
      | None => NUL | Some SetN => "n" | Some SetY => "y" | Some SetM => "m" | Some (SetV _) => "v" end)%char.
Proof.
  intros Hfile Hnd Hv. split.
  - rewrite (kconfig_read_names E ls names Hfile Hnd Hv). by rewrite <-list_fmap_compose.
  - intros n Hskip Hlen Hn. unfold tst_kconfig_get. rewrite Hskip, (proj2 (Nat.leb_gt _ _)) by done.
    fold (fresh n). rewrite (kconfig_read_names E ls [n] Hfile (NoDup_singleton n) ltac:(by repeat constructor) : tst_kconfig_read E [fresh n] = _).
    cbn [mbind outcome_bind fmap list_fmap head access]. unfold assigned. cbn [id fresh].
    by destruct (setting_of (settings ls) n) as [[]|].
Qed.
Lemma demo_plain n : n ≠ msg "CONFIG_CC_VERSION" → plain_values demo_lines n.
Proof.
  intros Hn v Hin. unfold demo_lines in Hin.
  repeat (apply elem_of_cons in Hin as [Hin|Hin]; [simplify_eq; done|]). by apply not_elem_of_nil in Hin.
Qed.
Lemma kconfig_read_settings_witness :
  tst_kconfig_read (demo_env (file_text demo_lines)) (fresh <$> [msg "CONFIG_HZ"; msg "CONFIG_SMP"]) =
    Done [Var (msg "CONFIG_HZ") 9 "v"%char (Some (msg "250")); fresh (msg "CONFIG_SMP")] ∧
  tst_kconfig_get (demo_env (file_text demo_lines)) (msg "CONFIG_TUN") = Done "m"%char.
Proof.
  destruct (kconfig_read_settings _ demo_lines [msg "CONFIG_HZ"; msg "CONFIG_SMP"] demo_file) as [H1 H2].
  - apply (bool_decide_unpack _). by vm_compute.
  - repeat constructor; apply demo_plain; done.
  - split; [rewrite H1; vm_compute; reflexivity|]. rewrite H2; [done|done|vm_compute; lia|by apply demo_plain].
Defined.

(** The check of a variable is a recogniser: for a variable token of a text,
    [validate_var] always returns, and returns 0 exactly for CONFIG_ with
    capital letters, digits and underscores, alone or with = and a value that is
    a closed quotation or a character with letters and digits behind it. *)
Theorem validate_var_recognises text t : NUL ∉ text → tok_at text t →
  ∃ r m, validate_var text t = Done (r, m) ∧ (r = 0 ↔ variable_ok (tok_text text t) = true).
Proof. apply validate_var_ok. Qed.
Lemma validate_var_recognises_witness :
  ∃ r m, validate_var (msg "CONFIG_HZ=250") (Token TST_OP_VAR 0 13 None None) = Done (r, m) ∧ r = 0.
Proof.
  destruct (validate_var_recognises (msg "CONFIG_HZ=250") (Token TST_OP_VAR 0 13 None None)) as (r & m & Hr & Hiff).
  - set_solver.
  - split_and!; [vm_compute; lia|done|done].
  - exists r, m. split; [done|]. by apply Hiff.
Defined.

(** ** What the reader gets wrong *)
(** Without a newline at its end the last line is read on into what the buffer
    held before: a y becomes a string, and the constraint fails. *)
Lemma last_line_misread :
  tst_kconfig_check (demo_env (msg "# CONFIG_KASAN is not set" ++ [NL] ++ msg "CONFIG_TUN=y")) [msg "CONFIG_TUN"] = Done 1.
Proof. by vm_compute. Qed.
(** With a buffer that holds no blank it is read past the array. *)
Lemma last_line_overrun :
  tst_kconfig_check (demo_env (msg "CONFIG_TUN=y")) [msg "CONFIG_TUN"] = Undef.
Proof. by vm_compute. Qed.
(** A string with a blank is cut there, and the constraint that spells it out
    never holds. *)
Lemma quoted_blank_cut :
  tst_kconfig_check (demo_env (file_text [Assign (msg "CONFIG_CC") (quote :: msg "gcc 12" ++ [quote])]))
    [msg "CONFIG_CC=" ++ quote :: msg "gcc 12" ++ [quote]] = Done 1.
Proof. by vm_compute. Qed.
(** A variable the file assigns n does not have the value n. *)
Lemma assigned_n_differs :
  tst_kconfig_check (demo_env (file_text [Assign (msg "CONFIG_A") (msg "n")])) [msg "CONFIG_A=n"] = Done 1.
Proof. by vm_compute. Qed.
(** A variable that is set to a number does not hold by its name alone. *)
Lemma number_not_true :
  tst_kconfig_check (demo_env (file_text demo_lines)) [msg "CONFIG_HZ"] = Done 1.
Proof. by vm_compute. Qed.
(** A variable written twice is counted twice, and reading stops before the
    other variables. *)
Lemma repeated_line_stops :
  tst_kconfig_check (demo_env (file_text [Assign (msg "CONFIG_A") (msg "y"); Assign (msg "CONFIG_A") (msg "y");
    Assign (msg "CONFIG_B") (msg "y")])) [msg "CONFIG_A & CONFIG_B"] = Done 1.
Proof. by vm_compute. Qed.
