(* ===== verification/LtpKverDist.v ===== *)
(** * ltp: distribution kernels ([lib/tst_kvercmp.c], [lib/safe_file_ops.c])

    [tst_kvercmp2] compares the running kernel with the version a distribution
    backported a feature to, if the table has one for the distribution, and with
    the upstream version otherwise. The name of the distribution comes from the
    release string or from the ID line of /etc/os-release, which is scanned with
    [file_lines_scanf]. *)

From Stdlib Require Import String Ascii.
From S2P Require Import Prelude LtpBoolExpr LtpKver LtpKverSpec LtpKconfig LtpKconfigRead.

(** ** Scanning the lines of a file *)
Definition BUFSIZ : nat := 8192.
(** The C string in a line. *)
Definition c_string (l : cstring) : cstring := strndup l (length l).
(** The first line the format matches; [scan] is [vsscanf] with all its
    conversions. *)
Fixpoint scan_lines {A} (scan : cstring → option A) (f : nat) (file : cstring) : outcome (option A) :=
  match file with
  | [] => mret None
  | _ =>
      let l := line_of (BUFSIZ - 1) file in
      match scan (c_string l) with
      | Some a => mret (Some a)
      | None => match f with O => Undef | S f => scan_lines scan f (drop (length l) file) end
      end
  end.
(** [fp] is [None] when [fopen] fails; the result is [None] for the return
    value 1. *)
Definition file_lines_scanf {A} (strict : bool) (fp : option cstring) (scan : cstring → option A) :
    outcome (option A) :=
  match fp with
  | None => Abort
  | Some file =>
      r ← scan_lines scan (length file) file;
      match r with
      | None => if strict then Abort else mret None
      | Some a => mret (Some a)
      end
  end.

(** ** The name of the distribution *)
(** [sscanf(line, "ID=%s", ...)] *)
Definition scan_id (line : cstring) : option cstring :=
  if starts_with (msg "ID=") line then
    match word (skip_space (drop 3 line)) with [] => None | w => Some w end
  else None.
Definition toupper (c : ascii) : ascii :=
  if between 97 122 c then ascii_of_nat (nat_of_ascii c - 32) else c.
(** Up to the first quotation mark, in capitals. *)
Fixpoint capitals (p : cstring) : cstring :=
  match p with
  | [] => []
  | c :: p => if Ascii.eqb c quote then [] else toupper c :: capitals p
  end.
Definition SIZEOF_DISTNAME : nat := 64.
(** /etc/os-release: whether [access] finds it, and its text if it opens. *)
Record os_release : Type := OsRelease {
  osr_exists : bool;
  osr_open : option cstring
}.
Definition contains (s n : cstring) : outcome bool := r ← strstr (s ++ [NUL]) n; mret (bool_decide (is_Some r)).
Definition tst_kvcmp_distname (O : os_release) (kver : cstring) : outcome (option cstring) :=
  el7 ← contains kver (msg ".el7");
  if el7 : bool then mret (Some (msg "RHEL7")) else
  el8 ← contains kver (msg ".el8");
  if el8 : bool then mret (Some (msg "RHEL8")) else
  el9 ← contains kver (msg ".el9");
  if el9 : bool then mret (Some (msg "RHEL9")) else
  if osr_exists O then
    r ← file_lines_scanf true (osr_open O) scan_id;
    w ← access r;
    if (SIZEOF_DISTNAME <=? length w)%nat then Undef else
    mret (Some (match w with
                | c :: w' => if Ascii.eqb c quote then capitals w' else capitals w
                | [] => []
                end))
  else mret None.

(** ** The comparison *)
Record tst_kern_exv : Type := Exv { dist_name : cstring; extra_ver : cstring }.
Fixpoint find_dist (vers : list tst_kern_exv) (d : cstring) : option tst_kern_exv :=
  match vers with
  | [] => None
  | v :: vers => if decide (dist_name v = d) then Some v else find_dist vers d
  end.
(** [kver] is [release] of [uname]. *)
Definition tst_kvercmp2 (O : os_release) (kver : cstring) (r1 r2 r3 : Z) (vers : list tst_kern_exv) :
    outcome Z :=
  cur_dist_name ← tst_kvcmp_distname O kver;
  match cur_dist_name with
  | None => '(d, _) ← tst_kvercmp kver r1 r2 r3; mret d
  | Some name =>
      match find_dist vers name with
      | Some v => tst_kvexcmp (extra_ver v) kver
      | None => '(d, _) ← tst_kvcmp kver r1 r2 r3; mret d
      end
  end.

(** ** The name found in /etc/os-release *)
Lemma strndup_all s r n : NUL ∉ s → (length s ≤ n)%nat → strndup (s ++ NUL :: r) n = s ∧ strndup s n = s.
Proof.
  revert n. induction s as [|c s IH]; intros n HN Hn; [by destruct n|].
  apply not_elem_of_cons in HN as [Hc HN]. destruct n as [|n]; simpl in *; [lia|].
  rewrite eqb_false by done. destruct (IH n HN ltac:(lia)) as [-> ->]. done.
Qed.
Lemma c_string_text s : NUL ∉ s → c_string s = s.
Proof. intros HN. by apply (strndup_all s [] (length s) HN). Qed.
Lemma line_of_first s n rest : NL ∉ s → (length s < n)%nat → line_of n (s ++ NL :: rest) = s ++ [NL].
Proof.
  revert n. induction s as [|c s IH]; intros [|n] HN Hn; simpl in *; try lia; [done|].
  apply not_elem_of_cons in HN as [Hc HN]. rewrite eqb_false by (by apply not_eq_sym). by rewrite IH by (done || lia).
Qed.
(** A line of the file that fits the buffer. *)
Definition os_line (s : cstring) : Prop := NL ∉ s ∧ NUL ∉ s ∧ (length s < BUFSIZ - 1)%nat.
Lemma scan_lines_first {A} (scan : cstring → option A) ls l rest a f :
  Forall os_line ls → os_line l → Forall (λ l, scan (l ++ [NL]) = None) ls → scan (l ++ [NL]) = Some a →
  (length ls ≤ f)%nat →
  scan_lines scan f (concat ((λ l, l ++ [NL]) <$> ls) ++ l ++ NL :: rest) = Done (Some a).
Proof.
  intros Hls Hl Hno Ha. revert f. induction Hls as [|s ls Hs Hls IH]; intros f Hf.
  - simpl. destruct Hl as (HNL & HNUL & Hlen).
    destruct (l ++ NL :: rest) as [|c u] eqn:Eu; [by destruct l|].
    assert (line_of (BUFSIZ - 1) (c :: u) = l ++ [NL]) as Hline by (rewrite <-Eu; by apply line_of_first).
    destruct f; cbn [scan_lines]; rewrite Hline, c_string_text, Ha by (by apply notin_snoc); done.
  - apply Forall_cons in Hno as [Hsn Hno]. rewrite fmap_cons. cbn [concat].
    set (tl := concat _ ++ l ++ NL :: rest) in *. destruct Hs as (HNL & HNUL & Hlen).
    destruct f as [|f]; cbn [length] in Hf; [lia|].
    assert ((s ++ [NL]) ++ concat ((λ l, l ++ [NL]) <$> ls) ++ l ++ NL :: rest = s ++ NL :: tl) as Etl
      by (unfold tl; by rewrite <-app_assoc).
    rewrite <-app_assoc, Etl. destruct (s ++ NL :: tl) as [|c u] eqn:Eu; [by destruct s|].
    assert (line_of (BUFSIZ - 1) (c :: u) = s ++ [NL]) as Hline by (rewrite <-Eu; by apply line_of_first).
    cbn [scan_lines]. rewrite Hline, c_string_text, Hsn by (by apply notin_snoc).
    assert (drop (length (s ++ [NL])) (c :: u) = tl) as ->.
    { rewrite <-Eu. change (s ++ NL :: tl) with (s ++ [NL] ++ tl). by rewrite app_assoc, drop_app_length. }
    apply IH; [done|lia].
Qed.

(** The name as the file writes it, plain or quoted. *)
Definition written (quoted : bool) (v : cstring) : cstring :=
  if quoted then quote :: v ++ [quote] else v.
Definition dist_text (v : cstring) : Prop :=
  v ≠ [] ∧ quote ∉ v ∧ NUL ∉ v ∧ Forall (λ c, isspace c = false) v ∧ (length v + 2 < SIZEOF_DISTNAME)%nat.
Lemma word_line w : w ≠ [] → Forall (λ c, isspace c = false) w →
  word (skip_space (w ++ [NL])) = w.
Proof.
  intros Hne Hw. assert (∀ w, Forall (λ c, isspace c = false) w → word (w ++ [NL]) = w) as H.
  { clear. induction 1 as [|c w Hc _ IH]; [done|]. simpl. by rewrite Hc, IH. }
  destruct Hw as [|c w Hc Hw]; [done|]. cbn [app skip_space]. rewrite Hc.
  apply (H (c :: w)). by constructor.
Qed.
Lemma capitals_text v r : quote ∉ v → capitals (v ++ quote :: r) = toupper <$> v ∧ capitals v = toupper <$> v.
Proof.
  induction v as [|c v IH]; intros Hv; [by split|]. apply not_elem_of_cons in Hv as [Hc Hv].
  destruct (IH Hv) as [E1 E2]. cbn [app capitals]. rewrite eqb_false by (by apply not_eq_sym).
  by rewrite E1, E2.
Qed.
Lemma contains_ok s n : n ≠ [] → NUL ∉ n → NUL ∉ s → contains s n = Done (occurs n s).
Proof.
  intros Hn HN Hs. unfold contains, occurs. rewrite strstr_text by done. cbn [mbind outcome_bind].
  f_equal. apply bool_decide_ext. by rewrite fmap_is_Some.
Qed.

(** The name of the distribution: for a kernel that is no RHEL kernel, with an
    os-release file whose first line that starts with ID= has a name of at most
    61 characters, plain or in quotation marks, the result is the name in
    capitals. *)
Theorem distname_from_os_release kver ls rest q v :
  NUL ∉ kver → occurs (msg ".el7") kver = false → occurs (msg ".el8") kver = false →
  occurs (msg ".el9") kver = false → Forall os_line ls → Forall (λ l, starts_with (msg "ID=") l = false) ls →
  dist_text v →
  tst_kvcmp_distname
    (OsRelease true (Some (concat ((λ l, l ++ [NL]) <$> ls) ++ (msg "ID=" ++ written q v) ++ NL :: rest))) kver =
  Done (Some (toupper <$> v)).
Proof.
  intros HN H7 H8 H9 Hls Hno (Hne & Hq & HNv & Hsp & Hlen). unfold tst_kvcmp_distname.
  rewrite !contains_ok by (done || set_solver). rewrite H7. cbn [mbind outcome_bind].
  rewrite H8. cbn [mbind outcome_bind]. rewrite H9. cbn [mbind outcome_bind osr_exists osr_open].
  assert (written q v ≠ [] ∧ Forall (λ c, isspace c = false) (written q v) ∧
          (length (written q v) < SIZEOF_DISTNAME)%nat) as (Wne & Wsp & Wlen).
  { destruct q; cbn [written]; [|split_and!; [done|done|lia]]. split_and!; [done| |].
    - constructor; [done|]. apply Forall_app. split; [done|]. by constructor.
    - rewrite length_cons, length_app. simpl. lia. }
  unfold file_lines_scanf.
  rewrite (scan_lines_first scan_id ls (msg "ID=" ++ written q v) rest (written q v)).
  - cbn [mbind outcome_bind mret outcome_ret access]. rewrite (proj2 (Nat.leb_gt _ _)) by done. do 2 f_equal.
    destruct q; cbn [written].
    + change (Ascii.eqb quote quote) with true. cbv iota. by apply capitals_text.
    + destruct v as [|c v]; [done|]. apply not_elem_of_cons in Hq as Hc. rewrite eqb_false by naive_solver.
      by apply (capitals_text (c :: v) []).
  - done.
  - assert (∀ c, isspace c = true ∨ c = NUL → c ∉ msg "ID=" ++ written q v) as Hc.
    { intros c Hc Hin. rewrite elem_of_app in Hin. destruct Hin as [Hin|Hin].
      - unfold msg in Hin. repeat (apply elem_of_cons in Hin as [->|Hin]; [by destruct Hc|]). by apply not_elem_of_nil in Hin.
      - rewrite Forall_forall in Wsp. specialize (Wsp _ Hin). destruct Hc as [Hc| ->]; [congruence|].
        destruct q; cbn [written] in Hin; set_solver. }
    split_and!; [apply Hc; by left|apply Hc; by right|]. rewrite length_app.
    change (length (msg "ID=")) with 3%nat. unfold SIZEOF_DISTNAME in *.
    assert (100 < BUFSIZ - 1)%nat by (by apply Nat.ltb_lt; vm_compute). lia.
  - eapply Forall_impl; [exact Hno|]. intros l Hl. unfold scan_id.
    rewrite starts_with_stop, Hl by set_solver. done.
  - unfold scan_id. rewrite <-app_assoc, starts_with_app. change (drop 3 (msg "ID=" ++ ?x)) with x.
    rewrite word_line by done. by destruct (written q v).
  - rewrite length_app. assert (length ls ≤ length (concat ((λ l, l ++ [NL]) <$> ls)))%nat; [|lia].
    clear. induction ls as [|l ls IH]; [done|]. rewrite fmap_cons. cbn [concat length]. rewrite !length_app. simpl. lia.
Qed.
Lemma distname_suse :
  tst_kvcmp_distname (OsRelease true (Some (msg "NAME=SLES" ++ [NL] ++ msg "ID=" ++ written true (msg "sles") ++ [NL])))
    (msg "5.14.21-150500.55-default") = Done (Some (msg "SLES")).
Proof. by vm_compute. Qed.
