(* ===== verification/LtpProps.v ===== *)
(** * ltp: the theorems

    The contracts of the boolean expressions and of the kernel version
    comparison, with a concrete instance of each. *)

From Stdlib Require Import String Ascii.
From S2P Require Import Prelude LtpBoolExpr LtpBoolExprSpec LtpBoolExprParse LtpBoolExprEval.
From S2P Require Import LtpKver LtpKverSpec.

(** ** Boolean expressions *)

(** C34. Parsing accepts exactly the grammar: with [tokens text] the tokens a
    character-level lexer finds in a text of less than 2^32 characters (their
    places, and each one an operator or a variable by what it spells),
    [tst_bool_expr_parse] returns an expression if and only if they are the
    written form of one, when [malloc] succeeds; then its buffer holds these
    tokens, its list is the postfix order of that expression, and
    [tst_bool_expr_print] writes the texts of the tokens in that order. *)
Theorem bool_expr_parse_correct text : Z.of_nat (length text) < 2 ^ 32 →
  let ts := tokens text in
  tok_text text <$> ts = lex false [] text ∧
    ((∃ ret out, tst_bool_expr_parse true text = Done (Some ret, out)) ↔
     (∃ e, etoks e = seq 0 (length ts) ∧ ewf ts e)) ∧
    ∀ e, etoks e = seq 0 (length ts) → ewf ts e →
      ∃ ret, tst_bool_expr_parse true text = Done (Some ret, []) ∧
        chain (buf ret) (rpn ret) (epost e) ∧ same_toks (buf ret) ts ∧
        ∃ ps, Forall2 (λ k t, buf ret !! k = Some t) (epost e) ps ∧
          tst_bool_expr_print text ret = Done (spaced (tok_text text <$> ps)).
Proof.
  intros Hlen. destruct (parse_ok text Hlen) as (Ht & _ & _ & Hp).
  generalize dependent (tokens text). intros ts Ht Hp. cbv zeta. split; [done|].
  case_decide as Hts.
  { rewrite Hp. subst ts. assert (∀ e, ¬ (etoks e = seq 0 (length (@nil tst_expr_tok)) ∧ ewf [] e)) as Hno.
    { intros e [He Hw]. by apply (verdict_complete [] 0) in He. }
    split; [split|]; [intros (? & ? & ?); done|intros (e & ?); by destruct (Hno e)|].
    intros e He Hw. by destruct (Hno e). }
  destruct (verdict ts (length ts)) as [[i m]|e0] eqn:Hv.
  - destruct Hp as (t0 & t & _ & _ & _ & Hp). rewrite Hp.
    assert (∀ e, etoks e = seq 0 (length ts) → ewf ts e → False) as Hno.
    { intros e He Hw. apply (verdict_complete ts) in He; [congruence|done]. }
    split; [split|]; [intros (? & ? & ?); done|intros (e & He & Hw); by destruct (Hno e)|].
    intros e He Hw. by destruct (Hno e).
  - destruct (verdict_sound _ _ _ Hv) as [He0 Hw0]. destruct Hp as (ret & Hp & Hs & Hc). split.
    { split; [intros _; by exists e0|intros _; eauto]. }
    intros e He Hw. pose proof (verdict_complete ts _ _ He Hw) as Hv'. rewrite Hv in Hv'. simplify_eq.
    exists ret. split_and!; try done. destruct (post_nodup _ _ He) as (_ & _ & Hl).
    apply print_chain; [done|]. by rewrite (same_toks_length _ _ Hs).
Qed.
(** Tokens 0 to 8 of the text are ! ( A | B ) & C. *)
Definition demo_tree : bexpr :=
  EBin (EOp (ONot 0 (OPar 1 (EBin (EOp (OVar 2)) 3 (OVar 4)) 5))) 6 (OVar 7).
Lemma bool_expr_parse_correct_witness :
  (∃ ret, tst_bool_expr_parse true (msg "!(A | B) & C") = Done (Some ret, []) ∧
    tst_bool_expr_print (msg "!(A | B) & C") ret = Done (msg "A B | ! C &")) ∧
  ¬ ∃ ret out, tst_bool_expr_parse true (msg "A B") = Done (Some ret, out).
Proof.
  split.
  - destruct (bool_expr_parse_correct (msg "!(A | B) & C") ltac:(vm_compute; reflexivity)) as (_ & _ & H).
    destruct (H demo_tree) as (ret & Hp & _); [vm_compute; reflexivity|vm_compute; tauto|].
    exists ret. split; [exact Hp|]. vm_compute in Hp. injection Hp as <-. vm_compute. reflexivity.
  - destruct (bool_expr_parse_correct (msg "A B") ltac:(vm_compute; reflexivity)) as (_ & Hiff & _).
    intros (e & He & Hw)%Hiff. apply (verdict_complete (tokens (msg "A B")) 2 e He) in Hw.
    vm_compute in Hw. discriminate Hw.
Defined.

(** C35. Evaluation computes the meaning: for a parsed expression it returns
    the value of the expression the tokens spell ([&] and [|] associate to the
    left with the same precedence, [!] binds tightest), and -1 exactly when a
    variable is undefined (its map value is -1) or when more than sixteen
    values are pending at once; no array is ever accessed out of range. *)
Theorem bool_expr_eval_correct map text ret out :
  Z.of_nat (length text) < 2 ^ 32 → tst_bool_expr_parse true text = Done (Some ret, out) →
  ∃ e, etoks e = seq 0 (length (buf ret)) ∧ ewf (buf ret) e ∧
    tok_text text <$> buf ret = lex false [] text ∧
    tst_bool_expr_eval map ret =
    Done (if (eneed e <=? MAX_STACK)%nat && edefined map (buf ret) e
          then esem map (buf ret) e else -1).
Proof.
  intros Hlen Hrun. destruct (parse_ok text Hlen) as (Ht & _ & _ & Hp).
  generalize dependent (tokens text). intros ts Ht Hp.
  case_decide; [congruence|]. destruct (verdict ts (length ts)) as [[i m]|e] eqn:Hv.
  { destruct Hp as (t0 & t & _ & _ & _ & Hp). congruence. }
  destruct (verdict_sound _ _ _ Hv) as [He Hw]. destruct (post_nodup _ _ He) as (_ & _ & Hl).
  destruct Hp as (ret' & Hp & Hs & Hc). rewrite Hp in Hrun. simplify_eq.
  pose proof (same_toks_length _ _ Hs) as Hlen'. exists e.
  assert (ewf (buf ret) e) as Hw'.
  { eapply wf_kind; [|done]. intros k. symmetry. by apply same_toks_kind. }
  split_and!; [by rewrite Hlen'|done| |apply eval_ok; [done|done|lia]].
  rewrite <-Ht. by apply same_toks_text.
Qed.
(** A is 1, B is undefined, anything else 0. *)
Definition demo_vars (text : cstring) (t : tst_expr_tok) : Z :=
  if decide (tok_text text t = msg "A") then 1 else if decide (tok_text text t = msg "B") then -1 else 0.
Definition demo_parse (text : cstring) : tst_expr :=
  match tst_bool_expr_parse true text with Done (Some ret, _) => ret | _ => Expr None [] end.
Lemma bool_expr_eval_correct_witness :
  (∃ e, etoks e = seq 0 (length (buf (demo_parse (msg "A & !C | A")))) ∧
     ewf (buf (demo_parse (msg "A & !C | A"))) e ∧
     tst_bool_expr_eval (demo_vars (msg "A & !C | A")) (demo_parse (msg "A & !C | A")) =
     Done (if (eneed e <=? MAX_STACK)%nat &&
              edefined (demo_vars (msg "A & !C | A")) (buf (demo_parse (msg "A & !C | A"))) e
           then esem (demo_vars (msg "A & !C | A")) (buf (demo_parse (msg "A & !C | A"))) e else -1)) ∧
  tst_bool_expr_eval (demo_vars (msg "A & !C | A")) (demo_parse (msg "A & !C | A")) = Done 1 ∧
  tst_bool_expr_eval (demo_vars (msg "A | B")) (demo_parse (msg "A | B")) = Done (-1).
Proof.
  split.
  - destruct (bool_expr_eval_correct (demo_vars (msg "A & !C | A")) (msg "A & !C | A")
      (demo_parse (msg "A & !C | A")) [] ltac:(vm_compute; reflexivity) ltac:(vm_compute; reflexivity))
      as (e & He & Hw & _ & Hr). exact (ex_intro _ e (conj He (conj Hw Hr))).
  - split; vm_compute; reflexivity.
Defined.


(** The two passes of the tokenizer agree: the count of the first is the
    number of tokens the second writes into a buffer of that size, without
    overrunning it; the tokens are the non-empty pieces of the text a
    character-level lexer finds (operators alone, the rest split at blanks,
    quotations kept whole), each classified by its first character. *)
Theorem tokenize_two_passes text : Z.of_nat (length text) < 2 ^ 32 →
  let ts := tokens text in
  tokenize text None = Done (Z.of_nat (length ts), None) ∧
    tokenize text (Some ([], length ts)) = Done (Z.of_nat (length ts), Some (ts, O)) ∧
    tok_text text <$> ts = lex false [] text ∧
    Forall (λ t, (0 < tok_len t)%nat ∧ (tok t + tok_len t ≤ length text)%nat ∧
                 ∃ c, text !! tok t = Some c ∧ op t = char_to_op c) ts.
Proof.
  intros Hlen. destruct (tokenize_ok text Hlen) as (Ht & Hf & _ & Hc & Hw). cbv zeta.
  split_and!; try done. eapply Forall_impl; [done|].
  intros t (? & ? & ? & _). done.
Qed.
Lemma tokenize_two_passes_witness :
  ∃ ts, tokenize (msg "A&(B |C)") None = Done (Z.of_nat (length ts), None) ∧
    tok_text (msg "A&(B |C)") <$> ts = [msg "A"; msg "&"; msg "("; msg "B"; msg "|"; msg "C"; msg ")"].
Proof.
  destruct (tokenize_two_passes (msg "A&(B |C)") ltac:(vm_compute; reflexivity))
    as (Hc & _ & Ht & _). by exists (tokens (msg "A&(B |C)")).
Defined.

(** ** Kernel versions *)

(** C39. [tst_kvcmp] orders kernel versions: for a release written
    major.minor.patch, or major.minor followed by the end, a blank or a dash
    (a patch level of 0), whatever comes after, the sign of the result is the
    lexicographic order of the running and the given version, and no [int]
    overflows, as long as the major numbers are below 2048 and the others below
    1024. *)
Theorem kvcmp_orders_versions ds1 ds2 ds3 rest r1 r2 r3 :
  digits ds1 → digits ds2 → digits ds3 →
  fields_ok (dec ds1) (dec ds2) (dec ds3) → fields_ok r1 r2 r3 →
  (no_digit rest → ∃ d,
    tst_kvcmp (dotted ds1 (dotted ds2 (ds3 ++ rest))) r1 r2 r3 = Done (d, false) ∧
    (d ?= 0) = lex3 (dec ds1, dec ds2, dec ds3) (r1, r2, r3)) ∧
  (version_end rest = true → ∃ d,
    tst_kvcmp (dotted ds1 (ds2 ++ rest)) r1 r2 r3 = Done (d, false) ∧
    (d ?= 0) = lex3 (dec ds1, dec ds2, 0) (r1, r2, r3)).
Proof.
  intros H1 H2 H3 Ha Hr. pose proof Ha as (? & ? & ?). pose proof Hr as (? & ? & ?). split.
  - intros Hrest. eexists. split; [|by apply pack_compare].
    apply kvcmp_ok; [apply parse_full; unfold INT_MAX; (done || lia)|unfold INT_MAX; lia..].
  - intros Hrest. eexists. split; [|apply (pack_compare (dec ds1) (dec ds2) 0); [repeat split; lia|done]].
    apply kvcmp_ok; [apply parse_short; unfold INT_MAX; (done || lia)|unfold INT_MAX; lia..].
Qed.
Lemma demo_digits : digits (msg "4") ∧ digits (msg "19") ∧ digits (msg "307").
Proof. repeat split; try done; repeat constructor. Qed.
Lemma kvcmp_orders_versions_witness : ∃ d,
  tst_kvcmp (msg "4.19.307-52-default") 4 20 0 = Done (d, false) ∧ (d ?= 0) = Lt.
Proof.
  refine (proj1 (kvcmp_orders_versions (msg "4") (msg "19") (msg "307") (msg "-52-default") 4 20 0
    (proj1 demo_digits) (proj1 (proj2 demo_digits)) (proj2 (proj2 demo_digits)) _ _) _).
  - vm_compute. repeat split; intros [=].
  - repeat split; lia.
  - reflexivity.
Defined.

(** The packed fields overlap beyond 1023: such a patch level compares equal to
    the next minor version. *)
Lemma kvcmp_patch_alias : tst_kvcmp (msg "4.9.1024") 4 10 0 = Done (0, false).
Proof. reflexivity. Qed.

(** [tst_kvexcmp] orders vendor versions: for two versions written
    a.b.c-d.e with numbers in the range of [int], followed by anything but a
    digit, the sign of the result is the lexicographic order of the five
    numbers, and no difference overflows. *)
Theorem kvexcmp_orders_versions (ns ms : list cstring) rest rest' :
  length ns = 5%nat → length ms = 5%nat →
  Forall (λ ds, digits ds ∧ dec ds ≤ INT_MAX) ns → Forall (λ ds, digits ds ∧ dec ds ≤ INT_MAX) ms →
  no_digit rest → no_digit rest' →
  ∃ d, tst_kvexcmp (vendor vendor_format ms rest') (vendor vendor_format ns rest) = Done d ∧
       (d ?= 0) = lex_list (dec <$> ns) (dec <$> ms).
Proof.
  intros Hn Hm Fn Fm Hr Hr'.
  assert (∀ l r, length l = 5%nat → Forall (λ ds, digits ds ∧ dec ds ≤ INT_MAX) l → no_digit r →
    scan_fields vendor_format (vendor vendor_format l r) = Done (dec <$> l)) as Hscan.
  { intros [|ds l] r Hl Fl Hnd; [done|]. apply scan_fields_ok; [repeat constructor|by injection Hl|done|done]. }
  unfold tst_kvexcmp. rewrite !Hscan, !ret_bind by done.
  assert (∀ l, Forall (λ ds, digits ds ∧ dec ds ≤ INT_MAX) l →
    Forall (λ n, 0 ≤ n ≤ INT_MAX) (dec <$> l)) as Hrange.
  { intros l Fl. apply Forall_fmap. eapply Forall_impl; [done|]. intros ds [[_ Hd] Hv]. simpl.
    split; [by apply dec_nonneg|done]. }
  apply first_difference_ok; [by rewrite !length_fmap, Hn|by apply Hrange..].
Qed.
Lemma kvexcmp_orders_versions_witness : ∃ d,
  tst_kvexcmp (msg "3.10.0-514.2.el7") (msg "3.10.0-1160.1.el7") = Done d ∧ (d ?= 0) = Gt.
Proof.
  refine (kvexcmp_orders_versions [msg "3"; msg "10"; msg "0"; msg "1160"; msg "1"]
    [msg "3"; msg "10"; msg "0"; msg "514"; msg "2"] (msg ".el7") (msg ".el7") eq_refl eq_refl _ _ _ _).
  - repeat constructor; (done || (vm_compute; intros [=])).
  - repeat constructor; (done || (vm_compute; intros [=])).
  - reflexivity.
  - reflexivity.
Defined.
