(* ===== verification/Sparsebit.v ===== *)
(** * selftests: the sparse bit array ([kvm/lib/sparsebit.c])

    A set of 64-bit indices kept in a binary search tree. A node describes the
    32 bits from its [idx] by its [mask], and [num_after] further bits, all
    set, right after them. Nodes live in a memory of nodes; every operation is
    the sequence of loads and stores of the C code, with the arithmetic of
    [uint64_t] and [uint32_t]. A loop over the tree runs at most as many times
    as there are nodes, which is the fuel it is given; a failed [calloc] and a
    failed [assert] abort. [1 << n] with [n] = 31 is the bit 31, as compilers
    take it. *)

From S2P Require Import Prelude.

Definition MASK_BITS : Z := 32.
(** [~(mask_t) 0] *)
Definition FULL : Z := 2 ^ 32 - 1.

Record node : Type := Node {
  parent : option nat;
  left : option nat;
  right : option nat;
  idx : Z;
  num_after : Z;
  mask : Z
}.
(** The array with the memory its nodes live in: [brk] is the next address,
    [oom] says which of the next allocations fail. *)
Record sparsebit : Type := SB {
  root : option nat;
  num_set : Z;
  mem : gmap nat node;
  brk : nat;
  oom : list bool
}.
Notation S_ := (C sparsebit).

(** ** Loads and stores *)
Definition load (p : nat) : S_ node := λ s,
  match mem s !! p with Some n => Done (n, s) | None => Undef end.
Definition with_mem (s : sparsebit) (m : gmap nat node) : sparsebit :=
  SB (root s) (num_set s) m (brk s) (oom s).
Definition upd (p : nat) (f : node → node) : S_ unit := λ s,
  match mem s !! p with
  | Some n => Done (tt, with_mem s (<[p := f n]> (mem s)))
  | None => Undef
  end.
Definition set_parent (x : option nat) (n : node) : node :=
  Node x (left n) (right n) (idx n) (num_after n) (mask n).
Definition set_left (x : option nat) (n : node) : node :=
  Node (parent n) x (right n) (idx n) (num_after n) (mask n).
Definition set_right (x : option nat) (n : node) : node :=
  Node (parent n) (left n) x (idx n) (num_after n) (mask n).
Definition set_idx (x : Z) (n : node) : node :=
  Node (parent n) (left n) (right n) x (num_after n) (mask n).
Definition set_num_after (x : Z) (n : node) : node :=
  Node (parent n) (left n) (right n) (idx n) x (mask n).
Definition set_mask (x : Z) (n : node) : node :=
  Node (parent n) (left n) (right n) (idx n) (num_after n) x.
Definition set_root (x : option nat) : S_ unit :=
  modify (λ s, SB x (num_set s) (mem s) (brk s) (oom s)).
Definition set_num_set (f : Z → Z) : S_ unit :=
  modify (λ s, SB (root s) (f (num_set s)) (mem s) (brk s) (oom s)).
Definition free (p : nat) : S_ unit := λ s,
  match mem s !! p with
  | Some _ => Done (tt, with_mem s (delete p (mem s)))
  | None => Undef
  end.
(** [calloc] of a node, [abort] when it fails. *)
Definition zero_node : node := Node None None None 0 0 0.
Definition calloc_node : S_ nat := λ s,
  match oom s with
  | true :: _ => Abort
  | o => Done (brk s, SB (root s) (num_set s) (<[brk s := zero_node]> (mem s)) (S (brk s)) (tail o))
  end.
Definition fuel : S_ nat := λ s, Done (base.size (mem s), s).

(** ** Bits of a mask *)
Definition mask_bits (m : Z) : list Z := filter (λ i, Z.testbit m i = true) (seqZ 0 32).
Definition popcount (m : Z) : Z := Z.of_nat (length (mask_bits m)).
(** [__builtin_ctz], undefined on 0. *)
Definition ctz (m : Z) : outcome Z := access (head (mask_bits m)).
Definition bit1 (n : Z) : Z := Z.shiftl 1 n.
Definition has_bit (m n : Z) : bool := negb (Z.land m (bit1 n) =? 0).

Definition node_num_set (n : node) : Z := u64 (num_after n + popcount (mask n)).
(** The last bit a node describes. *)
Definition node_end (n : node) : Z := u64 (idx n + MASK_BITS + num_after n - 1).
(** [idx & -MASK_BITS] *)
Definition align (i : Z) : Z := Z.land i (2 ^ 64 - MASK_BITS).

(** ** Walking the tree *)
Fixpoint leftmost (f : nat) (p : nat) : S_ nat :=
  n ← load p;
  match left n, f with
  | None, _ => mret p
  | Some q, S f => leftmost f q
  | Some _, O => lift Undef
  end.
Fixpoint rightmost (f : nat) (p : nat) : S_ nat :=
  n ← load p;
  match right n, f with
  | None, _ => mret p
  | Some q, S f => rightmost f q
  | Some _, O => lift Undef
  end.
Definition node_first : S_ (option nat) :=
  s ← get;
  match root s with
  | None => mret None
  | Some p => f ← fuel; r ← leftmost f p; mret (Some r)
  end.

(** [while (nodep->parent && nodep == nodep->parent->right) nodep = nodep->parent;
    return nodep->parent;] *)
Fixpoint up_from_right (f : nat) (p : nat) : S_ (option nat) :=
  n ← load p;
  match parent n with
  | None => mret None
  | Some q =>
      m ← load q;
      if decide (right m = Some p) then
        match f with S f => up_from_right f q | O => lift Undef end
      else mret (Some q)
  end.
Fixpoint up_from_left (f : nat) (p : nat) : S_ (option nat) :=
  n ← load p;
  match parent n with
  | None => mret None
  | Some q =>
      m ← load q;
      if decide (left m = Some p) then
        match f with S f => up_from_left f q | O => lift Undef end
      else mret (Some q)
  end.
Definition node_next (np : nat) : S_ (option nat) :=
  n ← load np;
  f ← fuel;
  match right n with
  | Some r => q ← leftmost f r; mret (Some q)
  | None => up_from_right f np
  end.
Definition node_prev (np : nat) : S_ (option nat) :=
  n ← load np;
  f ← fuel;
  match left n with
  | Some l => q ← rightmost f l; mret (Some q)
  | None => up_from_left f np
  end.

(** A copy of the subtree at [p] of the memory [m]. *)
Fixpoint copy_subtree (f : nat) (m : gmap nat node) (p : nat) : S_ nat :=
  match f with
  | O => lift Undef
  | S f =>
      r ← calloc_node;
      n ← lift (access (m !! p));
      upd r (λ x, set_mask (mask n) (set_num_after (num_after n) (set_idx (idx n) x)));;
      match left n with
      | Some q => c ← copy_subtree f m q; upd r (set_left (Some c));; upd c (set_parent (Some r))
      | None => mret tt
      end;;
      match right n with
      | Some q => c ← copy_subtree f m q; upd r (set_right (Some c));; upd c (set_parent (Some r))
      | None => mret tt
      end;;
      mret r
  end.
Definition node_copy_subtree (m : gmap nat node) (p : nat) : S_ nat :=
  copy_subtree (base.size m) m p.

Definition describes (n : node) (i : Z) : bool := (idx n <=? i) && (i <=? node_end n).
Fixpoint find_loop (f : nat) (p : option nat) (i : Z) : S_ (option nat) :=
  match p with
  | None => mret None
  | Some p =>
      n ← load p;
      if describes n i then mret (Some p) else
      match f with
      | O => lift Undef
      | S f => find_loop f (if i <? idx n then left n else right n) i
      end
  end.
Definition node_find (i : Z) : S_ (option nat) :=
  s ← get; f ← fuel; find_loop f (root s) i.

(** Attaches the new node [nodep] below [parentp]. *)
Fixpoint attach (f : nat) (i : Z) (nodep parentp : nat) : S_ unit :=
  n ← load parentp;
  if i <? idx n then
    match left n, f with
    | None, _ => upd parentp (set_left (Some nodep));; upd nodep (set_parent (Some parentp))
    | Some q, S f => attach f i nodep q
    | Some _, O => lift Undef
    end
  else
    lift (assert_ (node_end n <? i));;
    match right n, f with
    | None, _ => upd parentp (set_right (Some nodep));; upd nodep (set_parent (Some parentp))
    | Some q, S f => attach f i nodep q
    | Some _, O => lift Undef
    end.
(** Moves the bits of [prev] that overlap the mask of [nodep] into it. *)
Fixpoint take_overlap (f : nat) (prev nodep : nat) : S_ unit :=
  q ← load prev;
  n ← load nodep;
  if idx n <=? node_end q then
    let n1 := u32 (u64 (node_end q - idx n)) in
    lift (assert_ (0 <? num_after q));;
    lift (assert_ (n1 <? MASK_BITS));;
    lift (assert_ (negb (has_bit (mask n) n1)));;
    upd nodep (set_mask (Z.lor (mask n) (bit1 n1)));;
    upd prev (set_num_after (u64 (num_after q - 1)));;
    match f with S f => take_overlap f prev nodep | O => lift Undef end
  else mret tt.
Definition node_add (i : Z) : S_ nat :=
  nodep ← calloc_node;
  upd nodep (set_idx (align i));;
  s ← get;
  match root s with
  | None => set_root (Some nodep);; mret nodep
  | Some parentp =>
      f ← fuel;
      attach f i nodep parentp;;
      prev ← node_prev nodep;
      match prev with
      | Some prev => take_overlap 32 prev nodep
      | None => mret tt
      end;;
      mret nodep
  end.

Definition sparsebit_all_set : S_ bool :=
  s ← get;
  mret (match root s with Some _ => num_set s =? 0 | None => false end).

(** [nodep] is replaced by [child] in its parent, or at the root. *)
Definition replace_child (nodep : nat) (child : option nat) : S_ unit :=
  n ← load nodep;
  match parent n with
  | None =>
      set_root child;;
      match child with Some c => upd c (set_parent None) | None => mret tt end
  | Some q =>
      match child with Some c => upd c (set_parent (Some q)) | None => mret tt end;;
      m ← load q;
      if decide (left m = Some nodep) then upd q (set_left child)
      else
        lift (assert_ (bool_decide (right m = Some nodep)));;
        upd q (set_right child)
  end.
Definition node_rm (nodep : nat) : S_ unit :=
  n ← load nodep;
  let count := node_num_set n in
  all ← sparsebit_all_set;
  s ← get;
  lift (assert_ ((count <=? num_set s) || all));;
  set_num_set (λ x, u64 (x - count));;
  match left n, right n with
  | Some l, Some r =>
      f ← fuel;
      tmp ← leftmost f r;
      upd tmp (set_left (Some l));;
      upd nodep (set_left None);;
      upd l (set_parent (Some tmp))
  | _, _ => mret tt
  end;;
  n ← load nodep;
  match left n, right n with
  | Some l, _ => replace_child nodep (Some l)
  | None, Some r => replace_child nodep (Some r)
  | None, None => replace_child nodep None
  end;;
  free nodep.

(** ** Splitting and reducing *)
Definition node_split (i : Z) : S_ nat :=
  lift (assert_ (i mod MASK_BITS =? 0));;
  nodep1 ← node_find i;
  match nodep1 with
  | None => node_add i
  | Some nodep1 =>
      n1 ← load nodep1;
      if idx n1 =? i then mret nodep1 else
      let offset := u64 (i - u64 (idx n1 + MASK_BITS)) in
      let orig_num_after := num_after n1 in
      upd nodep1 (set_num_after offset);;
      nodep2 ← node_add i;
      let rest := u64 (orig_num_after - offset) in
      (if MASK_BITS <=? rest
       then upd nodep2 (λ n, set_num_after (u64 (rest - MASK_BITS)) (set_mask FULL n))
       else upd nodep2 (λ n, set_num_after 0 (set_mask (u32 (bit1 rest - 1)) n)));;
      mret nodep2
  end.

Definition is_empty (n : node) : bool := (mask n =? 0) && (num_after n =? 0).

(** The reductions between the node [n] at [nodep] and the previous one: whether
    something was reduced. *)
Definition prev_step (nodep : nat) (n : node) (prev : option nat) : S_ bool :=
  match prev with
  | None => mret false
  | Some prev =>
      q ← load prev;
      if is_empty q then node_rm prev;; mret true
      else if (u32 (mask n + 1) =? 0) && (u64 (idx q + MASK_BITS) =? idx n) then
        upd prev (set_num_after (u64 (num_after q + (MASK_BITS + num_after n))));;
        upd nodep (λ n, set_num_after 0 (set_mask 0 n));;
        mret true
      else
        let prev_highest_bit := u64 (idx q + MASK_BITS - 1 + num_after q) in
        if (u64 (prev_highest_bit + 1) =? idx n) &&
           (Z.lor (mask n) (Z.shiftr (mask n) 1) =? mask n) then
          let num_contiguous := popcount (mask n) in
          lift (assert_ ((0 <? num_contiguous) && (bit1 num_contiguous - 1 =? mask n)));;
          upd prev (set_num_after (u64 (num_after q + num_contiguous)));;
          upd nodep (set_mask 0);;
          (if num_contiguous =? MASK_BITS then
             upd prev (λ q, set_num_after (u64 (num_after q + num_after n)) q);;
             upd nodep (set_num_after 0)
           else mret tt);;
          mret true
        else mret false
  end.
(** The same with the next one: [None] when nothing was reduced, and otherwise
    the node to continue with. *)
Definition next_step (nodep : nat) (n : node) (next : option nat) : S_ (option (option nat)) :=
  match next with
  | None => mret None
  | Some next =>
      x ← load next;
      if is_empty x then node_rm next;; mret (Some (Some nodep))
      else if (idx x =? u64 (idx n + MASK_BITS + num_after n)) && (mask x =? FULL) then
        upd nodep (λ n, set_num_after (u64 (num_after n + MASK_BITS)) n);;
        upd next (set_mask 0);;
        upd nodep (λ n, set_num_after (u64 (num_after n + num_after x)) n);;
        upd next (set_num_after 0);;
        node_rm next;;
        mret (Some (Some nodep))
      else mret None
  end.

(** One pass of [node_reduce] over [nodep]: [None] when nothing was reduced,
    and otherwise the node to continue with, if any. *)
Definition reduce_pass (nodep : nat) : S_ (option (option nat)) :=
  n ← load nodep;
  if is_empty n then
    tmp ← node_next nodep;
    tmp ← (match tmp with Some t => mret (Some t) | None => node_prev nodep end);
    node_rm nodep;;
    mret (Some tmp)
  else if mask n =? 0 then
    lift (assert_ (negb (num_after n =? 0)));;
    lift (assert_ (idx n <? u64 (idx n + MASK_BITS)));;
    upd nodep (set_idx (u64 (idx n + MASK_BITS)));;
    (if MASK_BITS <=? num_after n
     then upd nodep (λ n, set_num_after (u64 (num_after n - MASK_BITS)) (set_mask FULL n))
     else upd nodep (λ n, set_num_after 0 (set_mask (u32 (bit1 (num_after n) - 1)) n)));;
    mret (Some (Some nodep))
  else
    prev ← node_prev nodep;
    r ← prev_step nodep n prev;
    if r : bool then mret (Some (Some nodep)) else
    next ← node_next nodep;
    next_step nodep n next.
Fixpoint reduce_loop (f : nat) (nodep : nat) : S_ unit :=
  r ← reduce_pass nodep;
  match r, f with
  | None, _ | Some None, _ => mret tt
  | Some (Some nodep), S f => reduce_loop f nodep
  | Some (Some _), O => lift Undef
  end.
Definition node_reduce (nodep : nat) : S_ unit :=
  f ← fuel; reduce_loop (4 * f + 3) nodep.

(** ** Single bits *)
Definition sparsebit_is_set (i : Z) : S_ bool :=
  nodep ← node_find i;
  match nodep with
  | None => mret false
  | Some p =>
      n ← load p;
      if negb (num_after n =? 0) && (u64 (idx n + MASK_BITS) <=? i) then mret true else
      lift (assert_ ((idx n <=? i) && (u64 (i - idx n) <? MASK_BITS)));;
      mret (has_bit (mask n) (i - idx n))
  end.
Definition bit_set (i : Z) : S_ unit :=
  set ← sparsebit_is_set i;
  if set : bool then mret tt else
  nodep ← node_split (align i);
  n ← load nodep;
  lift (assert_ ((idx n <=? i) && (i <=? u64 (idx n + MASK_BITS - 1))));;
  lift (assert_ (negb (has_bit (mask n) (i - idx n))));;
  upd nodep (set_mask (Z.lor (mask n) (bit1 (i - idx n))));;
  set_num_set (λ x, u64 (x + 1));;
  node_reduce nodep.
Definition bit_clear (i : Z) : S_ unit :=
  set ← sparsebit_is_set i;
  if negb set then mret tt else
  nodep ← node_find i;
  match nodep with
  | None => mret tt
  | Some nodep =>
      n ← load nodep;
      nodep ← (if u64 (idx n + MASK_BITS) <=? i then node_split (align i) else mret nodep);
      n ← load nodep;
      lift (assert_ ((idx n <=? i) && (i <=? u64 (idx n + MASK_BITS - 1))));;
      lift (assert_ (has_bit (mask n) (i - idx n)));;
      upd nodep (set_mask (Z.land (mask n) (FULL - bit1 (i - idx n))));;
      all ← sparsebit_all_set;
      s ← get;
      lift (assert_ ((0 <? num_set s) || all));;
      set_num_set (λ x, u64 (x - 1));;
      node_reduce nodep
  end.
