(* ===== verification/SparsebitOps.v ===== *)
(** * selftests: the interface of the sparse bit array

    The functions of [kvm/lib/sparsebit.c] on top of the tree: queries, ranges,
    copies and the internal validation. The loops over bits of a mask run at
    most 32 times; the searches for a run of bits visit every run at most once,
    and a node has at most 33 places where a run may start. *)

From S2P Require Import Prelude Sparsebit.

(** ** First bits of a node *)
Definition node_first_set (n : node) (start : Z) : outcome Z :=
  let leading := bit1 start in
  n1 ← ctz (Z.land (mask n) (u32 (- leading)));
  mret (u64 (idx n + n1)).
Definition node_first_clear (n : node) (start : Z) : outcome Z :=
  let leading := bit1 start in
  n1 ← ctz (Z.land (Z.lxor (mask n) FULL) (u32 (- leading)));
  mret (u64 (idx n + n1)).

(** ** Questions about the whole array *)
Definition sparsebit_is_clear (i : Z) : S_ bool :=
  b ← sparsebit_is_set i; mret (negb b).
Definition sparsebit_num_set : S_ Z := s ← get; mret (num_set s).
Definition sparsebit_any_set : S_ bool :=
  s ← get;
  match root s with
  | None => mret false
  | Some p =>
      n ← load p;
      lift (assert_ (negb (mask n =? 0)));;
      lift (assert_ ((0 <? num_set s) ||
                     ((num_after n =? u64 (0 - MASK_BITS)) && (mask n =? FULL))));;
      mret true
  end.
Definition sparsebit_all_clear : S_ bool := b ← sparsebit_any_set; mret (negb b).
Definition sparsebit_any_clear : S_ bool := b ← sparsebit_all_set; mret (negb b).

(** The first index after the bits a node describes. *)
Definition node_limit (n : node) : Z := u64 (idx n + MASK_BITS + num_after n).

Definition sparsebit_first_set : S_ Z :=
  any ← sparsebit_any_set;
  lift (assert_ any);;
  nodep ← node_first;
  match nodep with
  | None => lift Undef
  | Some p => n ← load p; lift (node_first_set n 0)
  end.
Definition sparsebit_first_clear : S_ Z :=
  any ← sparsebit_any_clear;
  lift (assert_ any);;
  nodep1 ← node_first;
  match nodep1 with
  | None => mret 0
  | Some p1 =>
      n1 ← load p1;
      if 0 <? idx n1 then mret 0 else
      if negb (mask n1 =? FULL) then lift (node_first_clear n1 0) else
      nodep2 ← node_next p1;
      match nodep2 with
      | None =>
          lift (assert_ (mask n1 =? FULL));;
          lift (assert_ (negb (node_limit n1 =? 0)));;
          mret (node_limit n1)
      | Some p2 =>
          n2 ← load p2;
          if negb (node_limit n1 =? idx n2) then mret (node_limit n1)
          else lift (node_first_clear n2 0)
      end
  end.

(** ** The next bit *)
(** The leftmost node that ends at or after [lowest], and whether it describes
    that index. *)
Fixpoint candidate_loop (f : nat) (p : option nat) (lowest : Z) (candidate : option nat) :
    S_ (option nat * bool) :=
  match p with
  | None => mret (candidate, false)
  | Some p =>
      n ← load p;
      if lowest <=? node_end n then
        if idx n <=? lowest then mret (Some p, true) else
        match f with O => lift Undef | S f => candidate_loop f (left n) lowest (Some p) end
      else
        match f with O => lift Undef | S f => candidate_loop f (right n) lowest candidate end
  end.
Definition sparsebit_next_set (prev : Z) : S_ Z :=
  let lowest_possible := u64 (prev + 1) in
  if lowest_possible =? 0 then mret 0 else
  s ← get;
  f ← fuel;
  '(candidate, contains) ← candidate_loop f (root s) lowest_possible None;
  match candidate with
  | None => mret 0
  | Some candidate =>
      n ← load candidate;
      lift (assert_ (negb (mask n =? 0)));;
      if negb contains then
        lift (assert_ (lowest_possible <? idx n));;
        lift (node_first_set n 0)
      else
      let start := u64 (lowest_possible - idx n) in
      if (start <? MASK_BITS) && (bit1 start <=? mask n) then lift (node_first_set n start) else
      if negb (num_after n =? 0) then
        let first_num_after_idx := u64 (idx n + MASK_BITS) in
        mret (if lowest_possible <? first_num_after_idx then first_num_after_idx
              else lowest_possible)
      else
      candidate ← node_next candidate;
      match candidate with
      | None => mret 0
      | Some candidate => n ← load candidate; lift (node_first_set n 0)
      end
  end.

(** [for (idx = i; idx < MASK_BITS; idx++) if (!(mask & (1 << idx))) return ...] *)
Fixpoint clear_bit_from (f : nat) (m i : Z) : option Z :=
  match f with
  | O => None
  | S f =>
      if i <? MASK_BITS then
        if has_bit m i then clear_bit_from f m (i + 1) else Some i
      else None
  end.
Definition sparsebit_next_clear (prev : Z) : S_ Z :=
  let lowest_possible := u64 (prev + 1) in
  if lowest_possible =? 0 then mret 0 else
  nodep1 ← node_find lowest_possible;
  match nodep1 with
  | None => mret lowest_possible
  | Some p1 =>
      n1 ← load p1;
      match clear_bit_from 32 (mask n1) (u64 (lowest_possible - idx n1)) with
      | Some i => mret (u64 (idx n1 + i))
      | None =>
          nodep2 ← node_next p1;
          match nodep2 with
          | None => mret (node_limit n1)
          | Some p2 =>
              n2 ← load p2;
              if negb (node_limit n1 =? idx n2) then mret (node_limit n1)
              else lift (node_first_clear n2 0)
          end
      end
  end.

(** ** Runs of bits *)
Definition sparsebit_is_set_num (i num : Z) : S_ bool :=
  lift (assert_ (0 <? num));;
  lift (assert_ (i <=? u64 (i + num - 1)));;
  b ← sparsebit_is_set i;
  if negb b then mret false else
  next_cleared ← sparsebit_next_clear i;
  mret ((next_cleared =? 0) || (num <=? u64 (next_cleared - i))).
Definition sparsebit_is_clear_num (i num : Z) : S_ bool :=
  lift (assert_ (0 <? num));;
  lift (assert_ (i <=? u64 (i + num - 1)));;
  b ← sparsebit_is_clear i;
  if negb b then mret false else
  next_set ← sparsebit_next_set i;
  mret ((next_set =? 0) || (num <=? u64 (next_set - i))).

Fixpoint next_set_num_loop (f : nat) (i num : Z) : S_ Z :=
  if negb (i =? 0) && (i <=? u64 (i + num - 1)) then
    b ← sparsebit_is_set i;
    lift (assert_ b);;
    b ← sparsebit_is_set_num i num;
    if b : bool then mret i else
    i ← sparsebit_next_clear i;
    if i =? 0 then mret 0 else
    i ← sparsebit_next_set i;
    match f with O => lift Undef | S f => next_set_num_loop f i num end
  else mret 0.
Definition sparsebit_next_set_num (start num : Z) : S_ Z :=
  lift (assert_ (1 <=? num));;
  i ← sparsebit_next_set start;
  f ← fuel;
  next_set_num_loop (33 * f + 1) i num.
Fixpoint next_clear_num_loop (f : nat) (i num : Z) : S_ Z :=
  if negb (i =? 0) && (i <=? u64 (i + num - 1)) then
    b ← sparsebit_is_clear i;
    lift (assert_ b);;
    b ← sparsebit_is_clear_num i num;
    if b : bool then mret i else
    i ← sparsebit_next_set i;
    if i =? 0 then mret 0 else
    i ← sparsebit_next_clear i;
    match f with O => lift Undef | S f => next_clear_num_loop f i num end
  else mret 0.
Definition sparsebit_next_clear_num (start num : Z) : S_ Z :=
  lift (assert_ (1 <=? num));;
  i ← sparsebit_next_clear start;
  f ← fuel;
  next_clear_num_loop (33 * f + 1) i num.

(** ** Ranges *)
(** [for (; n > 0 && idx % MASK_BITS != 0; idx++, n--) op(idx)]: [idx] and [n]
    as the loop leaves them. *)
Fixpoint leading_loop (f : nat) (op : Z → S_ unit) (i n : Z) : S_ (Z * Z) :=
  if (0 <? n) && negb (i mod MASK_BITS =? 0) then
    op i;;
    match f with O => lift Undef | S f => leading_loop f op (u64 (i + 1)) (u64 (n - 1)) end
  else mret (i, n).
(** [for (; n > 0; idx++, n--) op(idx)] *)
Fixpoint trailing_loop (f : nat) (op : Z → S_ unit) (i n : Z) : S_ unit :=
  if 0 <? n then
    op i;;
    match f with O => lift Undef | S f => trailing_loop f op (u64 (i + 1)) (u64 (n - 1)) end
  else mret tt.
(** The nodes after [nodep] up to [middle_end] are removed. *)
Fixpoint remove_middle (f : nat) (nodep : nat) (middle_end : Z) : S_ unit :=
  next ← node_next nodep;
  match next with
  | None => mret tt
  | Some next =>
      x ← load next;
      if idx x <? middle_end then
        lift (assert_ (node_end x <=? middle_end));;
        node_rm next;;
        match f with O => lift Undef | S f => remove_middle f nodep middle_end end
      else mret tt
  end.
Definition set_mask_bits (nodep : nat) : S_ unit :=
  for_each 32 0 tt (λ n1 _,
    n ← load nodep;
    if negb (has_bit (mask n) (Z.of_nat n1)) then
      upd nodep (set_mask (Z.lor (mask n) (bit1 (Z.of_nat n1))));;
      set_num_set (λ x, u64 (x + 1))
    else mret tt).
Definition clear_mask_bits (nodep : nat) : S_ unit :=
  for_each 32 0 tt (λ n1 _,
    n ← load nodep;
    if has_bit (mask n) (Z.of_nat n1) then
      upd nodep (set_mask (Z.land (mask n) (FULL - bit1 (Z.of_nat n1))));;
      set_num_set (λ x, u64 (x - 1))
    else mret tt).

(** The beginning of the middle part: the node that starts it, after the nodes
    behind it were removed. *)
Definition split_middle (middle_start middle_end : Z) : S_ nat :=
  nodep ← node_split middle_start;
  (if middle_end <? u64 (middle_end + 1)
   then _ ← node_split (u64 (middle_end + 1)); mret tt else mret tt);;
  f ← fuel;
  remove_middle f nodep middle_end;;
  mret nodep.

Definition sparsebit_set_num (start num : Z) : S_ unit :=
  lift (assert_ (0 <? num));;
  lift (assert_ (start <=? u64 (start + num - 1)));;
  '(i, n) ← leading_loop 32 bit_set start num;
  let middle_start := i in
  let middle_end := u64 (middle_start + align n - 1) in
  (if MASK_BITS <=? n then
     nodep ← split_middle middle_start middle_end;
     set_mask_bits nodep;;
     x ← load nodep;
     set_num_set (λ c, u64 (c - num_after x));;
     let after := u64 (middle_end - middle_start + 1 - MASK_BITS) in
     upd nodep (set_num_after after);;
     set_num_set (λ c, u64 (c + after));;
     node_reduce nodep
   else mret tt);;
  let i := u64 (middle_end + 1) in
  let n := u64 (n - u64 (middle_end - middle_start + 1)) in
  lift (assert_ (n <? MASK_BITS));;
  trailing_loop 32 bit_set i n.
Definition sparsebit_clear_num (start num : Z) : S_ unit :=
  lift (assert_ (0 <? num));;
  lift (assert_ (start <=? u64 (start + num - 1)));;
  '(i, n) ← leading_loop 32 bit_clear start num;
  let middle_start := i in
  let middle_end := u64 (middle_start + align n - 1) in
  (if MASK_BITS <=? n then
     nodep ← split_middle middle_start middle_end;
     clear_mask_bits nodep;;
     x ← load nodep;
     set_num_set (λ c, u64 (c - num_after x));;
     upd nodep (set_num_after 0);;
     node_reduce nodep
   else mret tt);;
  let i := u64 (middle_end + 1) in
  let n := u64 (n - u64 (middle_end - middle_start + 1)) in
  lift (assert_ (n <? MASK_BITS));;
  trailing_loop 32 bit_clear i n.

Definition sparsebit_set (i : Z) : S_ unit := sparsebit_set_num i 1.
Definition sparsebit_clear (i : Z) : S_ unit := sparsebit_clear_num i 1.
(** [~(sparsebit_idx_t) 0] *)
Definition ALL_BUT_ONE : Z := 2 ^ 64 - 1.
Definition sparsebit_set_all : S_ unit :=
  sparsebit_set 0;;
  sparsebit_set_num 1 ALL_BUT_ONE;;
  b ← sparsebit_all_set;
  lift (assert_ b).
Definition sparsebit_clear_all : S_ unit :=
  sparsebit_clear 0;;
  sparsebit_clear_num 1 ALL_BUT_ONE;;
  b ← sparsebit_any_set;
  lift (assert_ (negb b)).

(** ** Life cycle *)
Definition sparsebit_alloc (oom : list bool) : outcome sparsebit :=
  match oom with
  | true :: _ => Abort
  | o => Done (SB None 0 ∅ 0 (tail o))
  end.
(** The pointer the call leaves, and the nodes that are still allocated. *)
Definition sparsebit_free (sbitp : option sparsebit) :
    outcome (option sparsebit * gmap nat node) :=
  match sbitp with
  | None => mret (None, ∅)
  | Some s => '(_, s) ← sparsebit_clear_all s; mret (None, mem s)
  end.
Definition sparsebit_copy (s : sparsebit) : S_ unit :=
  sparsebit_clear_all;;
  match root s with
  | None => mret tt
  | Some p =>
      r ← node_copy_subtree (mem s) p;
      set_root (Some r);;
      set_num_set (λ _, num_set s)
  end.

(** ** Validation *)
(** Whether the parent pointer of the child [c] is [p]. *)
Definition child_ok (p : nat) (c : option nat) : S_ bool :=
  match c with
  | None => mret true
  | Some c => n ← load c; mret (bool_decide (parent n = Some p))
  end.
(** The checks of one node, [true] when one of them fails. *)
Definition node_error (prev : option node) (p : nat) (n : node) : S_ bool :=
  if mask n =? 0 then mret true else
  if 2 ^ 64 - 1 - MASK_BITS + 1 <? num_after n then mret true else
  if negb (idx n mod MASK_BITS =? 0) then mret true else
  if node_end n <? idx n then mret true else
  l ← child_ok p (left n);
  if negb l then mret true else
  r ← child_ok p (right n);
  if negb r then mret true else
  s ← get;
  if bool_decide (parent n = None) && negb (bool_decide (root s = Some p)) then mret true else
  mret (match prev with
        | None => false
        | Some q =>
            (idx n <=? idx q) || (idx n <=? node_end q) ||
            ((mask n =? FULL) && (node_limit q =? idx n))
        end).
Fixpoint validate_loop (f : nat) (prev : option node) (nodep : option nat) (total_bits_set : Z) :
    S_ (bool * Z) :=
  match nodep with
  | None => mret (false, total_bits_set)
  | Some p =>
      n ← load p;
      let total_bits_set := u64 (total_bits_set + popcount (mask n) + num_after n) in
      error_detected ← node_error prev p n;
      if error_detected : bool then mret (true, total_bits_set) else
      next ← node_next p;
      match f with O => lift Undef | S f => validate_loop f (Some n) next total_bits_set end
  end.
Definition sparsebit_validate_internal : S_ unit :=
  first ← node_first;
  f ← fuel;
  '(error_detected, total_bits_set) ← validate_loop f None first 0;
  s ← get;
  let error_detected :=
    if negb error_detected then negb (num_set s =? total_bits_set) else error_detected in
  lift (assert_ (negb error_detected)).
