(* ===== verification/SparsebitTree.v ===== *)
(** * selftests: the tree of the sparse bit array is a list of entries

    [srep s A]: the memory of [s] holds exactly the nodes of a binary tree with
    parent pointers whose inorder sequence is [A]. Walking, inserting and
    removing are then operations on the list [A]; nothing above this file
    mentions the tree. *)

From S2P Require Import Prelude Sparsebit.

Record ent : Type := Ent { addr : nat; e_idx : Z; e_num : Z; e_mask : Z }.
Definition mk (par l r : option nat) (e : ent) : node :=
  Node par l r (e_idx e) (e_num e) (e_mask e).

Inductive tree : Type :=
| Leaf
| T (l : tree) (e : ent) (r : tree).
Implicit Types (t l r : tree) (e : ent) (A : list ent) (m : gmap nat node) (s : sparsebit).

Fixpoint inorder t : list ent :=
  match t with Leaf => [] | T l e r => inorder l ++ e :: inorder r end.
Definition rt t : option nat := match t with Leaf => None | T _ e _ => Some (addr e) end.
Definition addrs t : list nat := addr <$> inorder t.
Fixpoint shape m (par : option nat) t : Prop :=
  match t with
  | Leaf => True
  | T l e r => m !! addr e = Some (mk par (rt l) (rt r) e) ∧
               shape m (Some (addr e)) l ∧ shape m (Some (addr e)) r
  end.

Lemma addrs_T l e r : addrs (T l e r) = addrs l ++ addr e :: addrs r.
Proof. unfold addrs. cbn [inorder]. by rewrite fmap_app. Qed.
Lemma rt_elem t p : rt t = Some p → p ∈ addrs t.
Proof. destruct t as [|l e r]; [done|]. intros [= <-]. rewrite addrs_T. set_solver. Qed.
Lemma inorder_nil t : inorder t = [] → rt t = None.
Proof. destruct t; [done|]. simpl. by intros []%symmetry%app_cons_not_nil. Qed.
Lemma rt_None t : rt t = None → t = Leaf.
Proof. by destruct t. Qed.

Lemma shape_ext m m' par t :
  (∀ p, p ∈ addrs t → m' !! p = m !! p) → shape m par t → shape m' par t.
Proof.
  revert par. induction t as [|l IHl e r IHr]; intros par Hext; [done|].
  setoid_rewrite addrs_T in Hext. intros (He & Hl & Hr). split_and!.
  - rewrite Hext by set_solver. done.
  - apply IHl; [|done]. intros p Hp. apply Hext. set_solver.
  - apply IHr; [|done]. intros p Hp. apply Hext. set_solver.
Qed.
Lemma shape_insert_out m par t p n :
  p ∉ addrs t → shape m par t → shape (<[p := n]> m) par t.
Proof.
  intros Hp. apply shape_ext. intros q Hq. apply lookup_insert_ne. by intros ->.
Qed.
Lemma shape_delete_out m par t p : p ∉ addrs t → shape m par t → shape (delete p m) par t.
Proof. intros Hp. apply shape_ext. intros q Hq. apply lookup_delete_ne. by intros ->. Qed.

(** ** Contexts: the way from a subtree up to the root *)
Inductive ctx : Type :=
| Top
| InL (c : ctx) (e : ent) (r : tree)
| InR (c : ctx) (l : tree) (e : ent).
Implicit Types c : ctx.

Fixpoint plug c t : tree :=
  match c with
  | Top => t
  | InL c e r => plug c (T t e r)
  | InR c l e => plug c (T l e t)
  end.
Fixpoint before c : list ent :=
  match c with
  | Top => []
  | InL c _ _ => before c
  | InR c l e => before c ++ inorder l ++ [e]
  end.
Fixpoint after c : list ent :=
  match c with
  | Top => []
  | InL c e r => e :: inorder r ++ after c
  | InR c _ _ => after c
  end.
Definition up c : option nat :=
  match c with Top => None | InL _ e _ | InR _ _ e => Some (addr e) end.
Fixpoint depth c : nat :=
  match c with Top => 0 | InL c _ _ | InR c _ _ => S (depth c) end.
(** The nodes of the context, around a subtree with the root [x]. *)
Fixpoint cshape m c (x : option nat) : Prop :=
  match c with
  | Top => True
  | InL c e r => m !! addr e = Some (mk (up c) x (rt r) e) ∧
                 shape m (Some (addr e)) r ∧ cshape m c (Some (addr e))
  | InR c l e => m !! addr e = Some (mk (up c) (rt l) x e) ∧
                 shape m (Some (addr e)) l ∧ cshape m c (Some (addr e))
  end.
Definition caddrs c : list nat := addr <$> before c ++ after c.

Lemma inorder_plug c t : inorder (plug c t) = before c ++ inorder t ++ after c.
Proof.
  revert t. induction c as [|c IH e r|c IH l e]; intros t; simpl.
  - by rewrite app_nil_r.
  - rewrite IH. simpl. by rewrite <-!app_assoc.
  - rewrite IH. simpl. by rewrite <-!app_assoc.
Qed.
Lemma addrs_plug c t : addrs (plug c t) ≡ₚ addrs t ++ caddrs c.
Proof.
  unfold addrs, caddrs. rewrite inorder_plug, !fmap_app.
  rewrite (Permutation_app_comm (addr <$> before c)), <-app_assoc.
  by rewrite (Permutation_app_comm (addr <$> after c)).
Qed.
Lemma shape_plug m c t : shape m None (plug c t) ↔ cshape m c (rt t) ∧ shape m (up c) t.
Proof.
  revert t. induction c as [|c IH e r|c IH l e]; intros t; simpl.
  - tauto.
  - rewrite IH. simpl. tauto.
  - rewrite IH. simpl. tauto.
Qed.
Lemma rt_plug_T c l r l' r' e : rt (plug c (T l e r)) = rt (plug c (T l' e r')).
Proof. revert l r l' r' e. induction c as [|c IH e' r''|c IH l'' e']; intros; simpl; auto. Qed.
Lemma rt_plug c t : rt (plug c t) = match c with Top => rt t | _ => rt (plug c Leaf) end.
Proof. destruct c; [done| |]; apply rt_plug_T. Qed.
Lemma cshape_ext m m' c x :
  (∀ p, p ∈ caddrs c → m' !! p = m !! p) → cshape m c x → cshape m' c x.
Proof.
  revert x. induction c as [|c IH e r|c IH l e]; intros x Hext; [done|..];
    unfold caddrs in Hext; simpl in Hext; setoid_rewrite fmap_app in Hext;
    intros (He & Ht & Hc); (split_and!; [rewrite Hext; [done|set_solver]| |]).
  - eapply shape_ext; [|done]. intros p Hp. apply Hext. unfold addrs in Hp. set_solver.
  - apply IH; [|done]. intros p Hp. apply Hext. unfold caddrs in Hp. set_solver.
  - eapply shape_ext; [|done]. intros p Hp. apply Hext. unfold addrs in Hp. set_solver.
  - apply IH; [|done]. intros p Hp. apply Hext. unfold caddrs in Hp. set_solver.
Qed.
Lemma caddrs_InL c e r : caddrs (InL c e r) ≡ₚ addr e :: addrs r ++ caddrs c.
Proof.
  unfold caddrs, addrs. simpl. rewrite !fmap_app. simpl. rewrite !fmap_app.
  rewrite Permutation_app_comm. simpl. constructor. rewrite <-!app_assoc.
  by rewrite (Permutation_app_comm (addr <$> after c)).
Qed.
Lemma caddrs_InR c l e : caddrs (InR c l e) ≡ₚ addr e :: addrs l ++ caddrs c.
Proof.
  unfold caddrs, addrs. simpl. rewrite !fmap_app. simpl.
  rewrite <-!app_assoc. simpl. rewrite <-!Permutation_middle, !app_assoc.
  by rewrite (Permutation_app_comm (addr <$> before c)).
Qed.
Lemma depth_length c : (depth c ≤ length (before c ++ after c))%nat.
Proof.
  induction c as [|c IH e r|c IH l e]; simpl; [lia|..]; rewrite ?length_app in *;
    simpl; rewrite ?length_app in *; simpl; lia.
Qed.

(** Every entry of the sequence is a node in a context. *)
Lemma split_tree t A e B :
  inorder t = A ++ e :: B →
  ∃ c l r, t = plug c (T l e r) ∧ A = before c ++ inorder l ∧ B = inorder r ++ after c.
Proof.
  assert (∀ c t A e B, inorder t = A ++ e :: B →
    ∃ c' l r, plug c t = plug c' (T l e r) ∧ before c ++ A = before c' ++ inorder l ∧
              B ++ after c = inorder r ++ after c') as H.
  { clear. intros c t. revert c. induction t as [|l IHl x r IHr]; intros c A e B; simpl.
    - intros []%app_cons_not_nil.
    - intros [(k & Hl & Hr)|(k & -> & Hr)]%app_eq_inv.
      + destruct k as [|y k]; simpl in Hr; injection Hr as -> ->.
        * exists c, l, r. rewrite app_nil_r in Hl. by subst.
        * destruct (IHl (InL c x r) A y k Hl) as (c' & l' & r' & Hp & Hb & Ha).
          exists c', l', r'. split; [done|]. rewrite <-Ha. simpl. by rewrite <-app_assoc.
      + destruct k as [|y k]; simpl in Hr.
        * injection Hr as <- <-. exists c, l, r. by rewrite app_nil_r.
        * injection Hr as <- Hr.
          destruct (IHr (InR c l x) k e B Hr) as (c' & l' & r' & Hp & Hb & Ha).
          exists c', l', r'. split; [done|]. rewrite <-Hb, <-Ha. simpl. by rewrite <-!app_assoc. }
  intros Ht. destruct (H Top t A e B Ht) as (c & l & r & Hp & Hb & Ha). simpl in *.
  rewrite app_nil_r in Ha. eauto 10.
Qed.

(** ** Representation

    [tr_oom]: no [calloc] fails from here on; the code ends the test otherwise. *)
Record trep s t : Prop := {
  tr_root : root s = rt t;
  tr_shape : shape (mem s) None t;
  tr_nodup : NoDup (addrs t);
  tr_dom : ∀ p, is_Some (mem s !! p) ↔ p ∈ addrs t;
  tr_brk : ∀ p, p ∈ addrs t → (p < brk s)%nat;
  tr_oom : oom s = []
}.
Definition srep s A : Prop := ∃ t, trep s t ∧ inorder t = A.

Lemma trep_fuel s t : trep s t → base.size (mem s) = length (addrs t).
Proof.
  intros H. rewrite <-size_dom. rewrite <-(size_list_to_set (C:=gset nat) (addrs t)) by apply H.
  f_equal. apply set_eq. intros p. rewrite elem_of_dom, elem_of_list_to_set. apply H.
Qed.
Lemma srep_fuel s A : srep s A → base.size (mem s) = length A.
Proof. intros (t & H & <-). rewrite (trep_fuel s t H). apply length_fmap. Qed.
Lemma srep_nodup s A : srep s A → NoDup (addr <$> A).
Proof. intros (t & H & <-). apply H. Qed.

(** A sequence with the count of set bits. *)
Definition st s A (n : Z) : Prop := srep s A ∧ num_set s = n.

(** ** Primitives *)
Lemma wp_load_node p n Φ s : mem s !! p = Some n → Φ n s → wp (load p) Φ s.
Proof. unfold wp, load. by intros ->. Qed.
Lemma wp_upd p n f Φ s :
  mem s !! p = Some n → Φ tt (with_mem s (<[p := f n]> (mem s))) → wp (upd p f) Φ s.
Proof. unfold wp, upd. by intros ->. Qed.
Lemma wp_free_node p n Φ s :
  mem s !! p = Some n → Φ tt (with_mem s (delete p (mem s))) → wp (free p) Φ s.
Proof. unfold wp, free. by intros ->. Qed.
Lemma wp_fuel Φ s : Φ (base.size (mem s)) s → wp fuel Φ s.
Proof. done. Qed.
Lemma wp_fuel_st A n Φ s : st s A n → Φ (length A) s → wp fuel Φ s.
Proof. intros [H _]. unfold wp, fuel. by rewrite (srep_fuel s A H). Qed.

(** ** Walking *)
Lemma wp_leftmost m par t f Φ s e B :
  mem s = m → shape m par t → (length (inorder t) ≤ f)%nat → inorder t = e :: B →
  Φ (addr e) s → ∀ p, rt t = Some p → wp (leftmost f p) Φ s.
Proof.
  intros <-. revert par f e B. induction t as [|l IHl x r _]; [done|].
  intros par f e B (Hx & Hl & Hr) Hf Hi HΦ p [= <-]. destruct f as [|f]; simpl.
  { simpl in Hf. rewrite length_app in Hf. simpl in Hf. lia. }
  wps. apply (wp_load_node _ _ _ _ Hx). simpl. destruct (rt l) as [q|] eqn:Eq.
  - simpl in Hi, Hf. destruct (inorder l) as [|y k] eqn:El; [by rewrite inorder_nil in Eq|].
    injection Hi as -> _. eapply IHl; try done. simpl in *. rewrite length_app in Hf. simpl in *. lia.
  - apply rt_None in Eq as ->. injection Hi as -> _. by wps.
Qed.
Lemma wp_rightmost m par t f Φ s e B :
  mem s = m → shape m par t → (length (inorder t) ≤ f)%nat → inorder t = B ++ [e] →
  Φ (addr e) s → ∀ p, rt t = Some p → wp (rightmost f p) Φ s.
Proof.
  intros <-. revert par f e B. induction t as [|l _ x r IHr]; [done|].
  intros par f e B (Hx & Hl & Hr) Hf Hi HΦ p [= <-].
  assert (length (inorder r) < f)%nat as Hlen.
  { simpl in Hf. rewrite length_app in Hf. simpl in Hf. lia. }
  destruct f as [|f]; [lia|]. simpl.
  wps. apply (wp_load_node _ _ _ _ Hx). simpl. destruct (rt r) as [q|] eqn:Eq.
  - simpl in Hi. destruct (inorder r) as [|y k _] eqn:Er using rev_ind;
      [by rewrite inorder_nil in Eq|].
    assert (y = e) as <-.
    { rewrite app_comm_cons, app_assoc in Hi. by apply app_inj_tail in Hi as [_ ?]. }
    eapply IHr; try done. lia.
  - apply rt_None in Eq as ->. simpl in Hi. apply app_inj_tail in Hi as [_ ->]. by wps.
Qed.

(** From a subtree whose root is [p] up to the next entry of the context. *)
Lemma wp_up_from_right c t f Φ s p :
  shape (mem s) None (plug c t) → NoDup (addrs (plug c t)) → rt t = Some p →
  (depth c ≤ f)%nat → Φ (addr <$> head (after c)) s → wp (up_from_right f p) Φ s.
Proof.
  revert f t p. induction c as [|c IH e r|c IH l e]; intros f t p Hs Hd Hp Hf HΦ.
  - destruct t as [|l x r]; [done|]. injection Hp as <-. destruct Hs as (Hx & _).
    destruct f; simpl; wps; apply (wp_load_node _ _ _ _ Hx); simpl; by wps.
  - pose proof Hs as Hs'. simpl in Hs'. apply shape_plug in Hs' as (Hc & He & Ht & Hr).
    destruct t as [|l x r']; [done|]. injection Hp as <-. destruct Ht as (Hx & _).
    assert (rt r ≠ Some (addr x)).
    { intros Hx'%rt_elem. simpl in Hd. rewrite addrs_plug, !addrs_T in Hd.
      apply NoDup_app in Hd as (Hd & _). apply NoDup_app in Hd as (_ & Hd & _).
      apply (Hd (addr x)); set_solver. }
    destruct f; simpl; wps; apply (wp_load_node _ _ _ _ Hx); simpl; wps;
      apply (wp_load_node _ _ _ _ He); simpl; rewrite decide_False by done; by wps.
  - pose proof Hs as Hs'. simpl in Hs'. apply shape_plug in Hs' as (Hc & He & Hl & Ht).
    destruct t as [|l' x r']; [done|]. injection Hp as <-. destruct Ht as (Hx & _).
    simpl in Hf. destruct f as [|f]; [lia|]. simpl. wps. apply (wp_load_node _ _ _ _ Hx). simpl. wps.
    apply (wp_load_node _ _ _ _ He). simpl. rewrite decide_True by done.
    apply (IH f (T l e (T l' x r'))); try done. lia.
Qed.
Lemma wp_up_from_left c t f Φ s p :
  shape (mem s) None (plug c t) → NoDup (addrs (plug c t)) → rt t = Some p →
  (depth c ≤ f)%nat → Φ (addr <$> last (before c)) s → wp (up_from_left f p) Φ s.
Proof.
  revert f t p. induction c as [|c IH e r|c IH l e]; intros f t p Hs Hd Hp Hf HΦ.
  - destruct t as [|l x r]; [done|]. injection Hp as <-. destruct Hs as (Hx & _).
    destruct f; simpl; wps; apply (wp_load_node _ _ _ _ Hx); simpl; by wps.
  - pose proof Hs as Hs'. simpl in Hs'. apply shape_plug in Hs' as (Hc & He & Ht & Hr).
    destruct t as [|l' x r']; [done|]. injection Hp as <-. destruct Ht as (Hx & _).
    simpl in Hf. destruct f as [|f]; [lia|]. simpl. wps. apply (wp_load_node _ _ _ _ Hx). simpl. wps.
    apply (wp_load_node _ _ _ _ He). simpl. rewrite decide_True by done.
    apply (IH f (T (T l' x r') e r)); try done. lia.
  - pose proof Hs as Hs'. simpl in Hs'. apply shape_plug in Hs' as (Hc & He & Hl & Ht).
    destruct t as [|l' x r']; [done|]. injection Hp as <-. destruct Ht as (Hx & _).
    assert (rt l ≠ Some (addr x)).
    { intros Hx'%rt_elem. simpl in Hd. rewrite addrs_plug, !addrs_T in Hd.
      apply NoDup_app in Hd as (Hd & _). apply NoDup_app in Hd as (_ & Hd & _).
      apply (Hd (addr x)); set_solver. }
    simpl in HΦ. rewrite app_assoc, last_snoc in HΦ.
    destruct f; simpl; wps; apply (wp_load_node _ _ _ _ Hx); simpl; wps;
      apply (wp_load_node _ _ _ _ He); simpl; rewrite decide_False by done; by wps.
Qed.

(** ** Walking, on the sequence *)
Lemma trep_at s t A e B :
  trep s t → inorder t = A ++ e :: B →
  ∃ c l r, t = plug c (T l e r) ∧ A = before c ++ inorder l ∧ B = inorder r ++ after c ∧
    mem s !! addr e = Some (mk (up c) (rt l) (rt r) e) ∧
    shape (mem s) (Some (addr e)) l ∧ shape (mem s) (Some (addr e)) r ∧
    cshape (mem s) c (Some (addr e)).
Proof.
  intros Ht Hi. destruct (split_tree t A e B Hi) as (c & l & r & -> & -> & ->).
  pose proof (tr_shape s _ Ht) as (Hc & He & Hl & Hr)%shape_plug. eauto 15.
Qed.
Lemma st_root s A n : st s A n → root s = None ↔ A = [].
Proof.
  intros [(t & Ht & <-) _]. rewrite (tr_root s t Ht). split.
  - intros ->%rt_None. done.
  - apply inorder_nil.
Qed.

Lemma wp_load_st A e B n Φ s :
  st s (A ++ e :: B) n → (∀ par lc rc, Φ (mk par lc rc e) s) → wp (load (addr e)) Φ s.
Proof.
  intros [(t & Ht & Hi) _] HΦ.
  destruct (trep_at s t A e B Ht Hi) as (c & l & r & _ & _ & _ & He & _).
  by apply (wp_load_node _ _ _ _ He).
Qed.

Lemma wp_node_first A n Φ s :
  st s A n → Φ (addr <$> head A) s → wp node_first Φ s.
Proof.
  intros Hst HΦ. pose proof Hst as [(t & Ht & Hi) _]. unfold node_first. wps. apply wp_get.
  rewrite (tr_root s t Ht). destruct (rt t) as [p|] eqn:Ep; wps.
  - apply (wp_fuel_st _ _ _ _ Hst). wps. destruct A as [|e B]; [by rewrite inorder_nil in Ep|].
    eapply wp_leftmost; [done|apply Ht|by rewrite Hi|done| |done]. by wps.
  - apply rt_None in Ep as ->. by subst.
Qed.

Lemma depth_le c l e r A B :
  A ++ e :: B = before c ++ inorder (T l e r) ++ after c →
  (depth c < length (A ++ e :: B))%nat.
Proof.
  intros ->. pose proof (depth_length c). simpl. rewrite ?length_app in *. simpl.
  rewrite ?length_app in *. lia.
Qed.
Lemma wp_node_next A e B n Φ s :
  st s (A ++ e :: B) n → Φ (addr <$> head B) s → wp (node_next (addr e)) Φ s.
Proof.
  intros Hst HΦ. pose proof Hst as [(t & Ht & Hi) _].
  destruct (trep_at s t A e B Ht Hi) as (c & l & r & -> & HA & HB & He & Hl & Hr & Hc).
  unfold node_next. wps. apply (wp_load_node _ _ _ _ He). wps. apply (wp_fuel_st _ _ _ _ Hst).
  cbn [mk right]. destruct (rt r) as [q|] eqn:Eq; wps.
  - destruct (inorder r) as [|y k] eqn:Er; [by rewrite inorder_nil in Eq|]. subst B.
    eapply wp_leftmost; [done|exact Hr| |exact Er| |exact Eq].
    + rewrite Er, !length_app. simpl. rewrite length_app. lia.
    + wps. done.
  - apply rt_None in Eq as ->. simpl in HB. subst B.
    eapply wp_up_from_right; [apply Ht|apply Ht|done| |done].
    apply Nat.lt_le_incl. eapply depth_le. by rewrite <-inorder_plug, Hi.
Qed.
Lemma wp_node_prev A e B n Φ s :
  st s (A ++ e :: B) n → Φ (addr <$> last A) s → wp (node_prev (addr e)) Φ s.
Proof.
  intros Hst HΦ. pose proof Hst as [(t & Ht & Hi) _].
  destruct (trep_at s t A e B Ht Hi) as (c & l & r & -> & HA & HB & He & Hl & Hr & Hc).
  unfold node_prev. wps. apply (wp_load_node _ _ _ _ He). wps. apply (wp_fuel_st _ _ _ _ Hst).
  cbn [mk left]. destruct (rt l) as [q|] eqn:Eq; wps.
  - destruct (inorder l) as [|y k _] eqn:El using rev_ind; [by rewrite inorder_nil in Eq|]. subst A.
    eapply wp_rightmost; [done|exact Hl| |exact El| |exact Eq].
    + rewrite El, !length_app. simpl. lia.
    + wps. by rewrite app_assoc, last_snoc in HΦ.
  - apply rt_None in Eq as ->. simpl in HA. rewrite app_nil_r in HA. subst A.
    eapply wp_up_from_left; [apply Ht|apply Ht|done| |done].
    apply Nat.lt_le_incl. eapply depth_le. by rewrite <-inorder_plug, Hi.
Qed.

(** ** Changing the fields of an entry *)
Lemma cshape_insert_out m c x p n : p ∉ caddrs c → cshape m c x → cshape (<[p := n]> m) c x.
Proof. intros Hp. apply cshape_ext. intros q Hq. apply lookup_insert_ne. by intros ->. Qed.
Lemma NoDup_at c l e r :
  NoDup (addrs (plug c (T l e r))) →
  addr e ∉ addrs l ∧ addr e ∉ addrs r ∧ addr e ∉ caddrs c ∧
  (∀ p, p ∈ addrs l → p ∉ addrs r ∧ p ∉ caddrs c) ∧ (∀ p, p ∈ addrs r → p ∉ caddrs c) ∧
  NoDup (addrs l) ∧ NoDup (addrs r) ∧ NoDup (caddrs c).
Proof.
  rewrite addrs_plug, addrs_T, NoDup_app, NoDup_app, NoDup_cons.
  intros ((Hl & Hlr & Her & Hr) & Hout & Hc). setoid_rewrite elem_of_cons in Hlr.
  setoid_rewrite elem_of_app in Hout. setoid_rewrite elem_of_cons in Hout.
  split_and!; try done; naive_solver.
Qed.
Lemma dom_insert_same m p n n' q :
  m !! p = Some n → is_Some (<[p := n']> m !! q) ↔ is_Some (m !! q).
Proof.
  intros Hp. destruct (decide (q = p)) as [->|].
  - rewrite Hp, fin_maps.lookup_insert, decide_True by done. split; eauto.
  - by rewrite lookup_insert_ne by congruence.
Qed.
Lemma wp_upd_st A e B n f e' Φ s :
  st s (A ++ e :: B) n → (∀ par lc rc, f (mk par lc rc e) = mk par lc rc e') → addr e' = addr e →
  (∀ s', st s' (A ++ e' :: B) n → Φ tt s') → wp (upd (addr e) f) Φ s.
Proof.
  intros [(t & Ht & Hi) Hn] Hf Ha HΦ.
  destruct (trep_at s t A e B Ht Hi) as (c & l & r & -> & HA & HB & He & Hl & Hr & Hc).
  apply (wp_upd _ _ _ _ _ He). apply HΦ. split; [|done].
  exists (plug c (T l e' r)). split; [|by rewrite inorder_plug, HA, HB; simpl; rewrite <-!app_assoc].
  destruct (NoDup_at c l e r (tr_nodup s _ Ht)) as (Hel & Her & Hec & _).
  assert (addrs (plug c (T l e' r)) ≡ₚ addrs (plug c (T l e r))) as Hp.
  { by rewrite !addrs_plug, !addrs_T, Ha. }
  destruct Ht as [Hroot _ Hd Hdom Hbrk Hoom]. rewrite Hf, <-Ha in *. split; simpl.
  - rewrite Hroot. clear -Ha. destruct c; [simpl; by rewrite Ha|..]; by rewrite !(rt_plug _ (T _ _ _)).
  - apply shape_plug. simpl. split; [|split].
    + by apply cshape_insert_out.
    + by rewrite fin_maps.lookup_insert, decide_True.
    + by split; apply shape_insert_out.
  - by rewrite Hp.
  - intros p. rewrite (dom_insert_same _ _ _ _ _ He), Hp. apply Hdom.
  - intros p. rewrite Hp. apply Hbrk.
  - done.
Qed.
Lemma wp_set_num_set A n f Φ s :
  st s A n → (∀ s', st s' A (f n) → Φ tt s') → wp (set_num_set f) Φ s.
Proof.
  intros [(t & [] & Hi) <-] HΦ. apply wp_modify, HΦ. split; [|done]. by exists t.
Qed.

(** ** Removing a node *)
(** [l] becomes the left child of the leftmost node of [r]. *)
Fixpoint graft l r : tree :=
  match r with Leaf => l | T rl e rr => T (graft l rl) e rr end.

Lemma inorder_graft l r : inorder (graft l r) = inorder l ++ inorder r.
Proof.
  induction r as [|rl IH e rr _]; simpl; [by rewrite app_nil_r|]. by rewrite IH, <-app_assoc.
Qed.
Lemma graft_Leaf r : graft Leaf r = r.
Proof. induction r as [|rl IH e rr _]; simpl; [done|]. by rewrite IH. Qed.
Lemma rt_graft l r : rt (graft l r) = match rt r with Some p => Some p | None => rt l end.
Proof. by destruct r. Qed.

Lemma shape_reparent m par par' t p n :
  shape m par t → rt t = Some p → NoDup (addrs t) → m !! p = Some n →
  shape (<[p := set_parent par' n]> m) par' t.
Proof.
  destruct t as [|l e r]; [done|]. intros (He & Hl & Hr) [= <-] Hd Hn.
  pose proof (NoDup_at Top l e r Hd) as (Hel & Her & _). rewrite He in Hn. injection Hn as <-.
  split_and!; [by rewrite fin_maps.lookup_insert, decide_True|by apply shape_insert_out..].
Qed.
Lemma shape_graft m m' par parl l r lp x B :
  shape m par r → inorder r = x :: B → shape m parl l → rt l = Some lp →
  NoDup (addrs l ++ addrs r) →
  (∀ p, p ≠ addr x → p ≠ lp → m' !! p = m !! p) →
  m' !! addr x = set_left (Some lp) <$> m !! addr x →
  m' !! lp = set_parent (Some (addr x)) <$> m !! lp →
  shape m' par (graft l r).
Proof.
  intros Hr Hi Hl Hlp Hd Hext Hx Hlm. revert par B Hr Hi Hd.
  induction r as [|rl IHl e rr _]; [done|]. intros par B (He & Hrl & Hrr) Hi Hd.
  rewrite addrs_T in Hd. pose proof (rt_elem l lp Hlp) as Hin.
  apply NoDup_app in Hd as (Hdl & Hlr & (Hdrl & Herr & Hdr)%NoDup_app).
  assert (x ∈ inorder (T rl e rr)) as Hxin by (rewrite Hi; set_solver).
  assert (shape m' (Some (addr e)) rr ↔ shape m (Some (addr e)) rr) as Hrr'.
  { assert (∀ p, p ∈ addrs rr → m' !! p = m !! p) as Hp.
    { intros p Hp. apply Hext; [|intros ->; apply (Hlr lp Hin); set_solver].
      intros ->. apply NoDup_cons in Hdr as [Her _]. simpl in Hi.
      destruct (inorder rl) as [|y k] eqn:Erl; injection Hi as -> _; [done|].
      apply (Herr (addr x)); unfold addrs; rewrite ?Erl; set_solver. }
    split; apply shape_ext; intros p ?; by rewrite Hp. }
  simpl. rewrite Hrr', rt_graft. destruct (rt rl) as [q|] eqn:Eq.
  - destruct (inorder rl) as [|y k] eqn:Erl; [by rewrite inorder_nil in Eq|].
    simpl in Hi. rewrite Erl in Hi. injection Hi as -> _.
    split_and!; [|eapply IHl; [done..|]|done].
    + rewrite Hext, He; [done| |].
      * intros Heq. apply (Herr (addr e)); [|set_solver]. unfold addrs. rewrite Erl, Heq. set_solver.
      * intros <-. apply (Hlr _ Hin). set_solver.
    + apply NoDup_app. split_and!; [done| |done]. intros p Hp. specialize (Hlr p Hp). set_solver.
  - apply rt_None in Eq as ->. injection Hi as -> _. rewrite He in Hx. simpl.
    split_and!; [by rewrite Hx, Hlp| |done].
    assert (∃ n, m !! lp = Some n) as [n Hn].
    { destruct l as [|ll le lr]; [done|]. injection Hlp as <-. destruct Hl as (-> & _). eauto. }
    eapply shape_ext; [|exact (shape_reparent m parl (Some (addr x)) l lp n Hl Hlp Hdl Hn)].
    intros p Hp. destruct (decide (p = lp)) as [->|Hne].
    + by rewrite Hlm, fin_maps.lookup_insert, decide_True, Hn by done.
    + rewrite lookup_insert_ne by done. apply Hext; [|done]. intros ->.
      apply (Hlr _ Hp). set_solver.
Qed.

(** What stores leave alone. *)
Definition frame s s' : Prop :=
  brk s' = brk s ∧ oom s' = oom s ∧ num_set s' = num_set s ∧
  ∀ p, is_Some (mem s' !! p) ↔ is_Some (mem s !! p).
#[global] Instance frame_refl : Reflexive frame.
Proof. by intros s. Qed.
#[global] Instance frame_trans : Transitive frame.
Proof.
  intros s1 s2 s3 (? & ? & ? & Hd) (? & ? & ? & Hd'). split_and!; try congruence.
  intros p. by rewrite Hd', Hd.
Qed.
Lemma frame_upd s p n n' : mem s !! p = Some n → frame s (with_mem s (<[p := n']> (mem s))).
Proof. intros H. split_and!; try done. intros q. by apply (dom_insert_same _ _ n). Qed.

(** The subtree [g] of [e] takes its place. *)
Lemma wp_replace_child c e x y g Φ s :
  mem s !! addr e = Some (mk (up c) x y e) → cshape (mem s) c (Some (addr e)) →
  shape (mem s) (Some (addr e)) g → NoDup (addr e :: addrs g ++ caddrs c) →
  root s = match c with Top => Some (addr e) | _ => rt (plug c Leaf) end →
  (∀ s', shape (mem s') None (plug c g) → root s' = rt (plug c g) → frame s s' → Φ tt s') →
  wp (replace_child (addr e) (rt g)) Φ s.
Proof.
  intros He Hc Hg (Hne & (Hdg & Hgc & Hdc)%NoDup_app)%NoDup_cons Hroot HΦ.
  unfold replace_child. wps. apply (wp_load_node _ _ _ _ He). cbn [mk parent].
  (* the root of [g] gets the new parent *)
  assert (∀ Ψ s, mem s !! addr e = Some (mk (up c) x y e) → cshape (mem s) c (Some (addr e)) →
    shape (mem s) (Some (addr e)) g →
    (∀ s', root s' = root s → cshape (mem s') c (Some (addr e)) → shape (mem s') (up c) g →
      frame s s' → Ψ tt s') →
    wp (match rt g with Some q => upd q (set_parent (up c)) | None => mret tt end) Ψ s) as Hpar.
  { clear s He Hc Hg Hroot HΦ. intros Ψ s He Hc Hg HΨ. destruct (rt g) as [q|] eqn:Eq.
    - assert (∃ n, mem s !! q = Some n) as [n Hn].
      { destruct g; [done|]. injection Eq as <-. destruct Hg as (-> & _). eauto. }
      apply (wp_upd _ _ _ _ _ Hn). apply HΨ; [done| | |by eapply frame_upd].
      + apply cshape_insert_out; [|done]. apply Hgc. by apply rt_elem.
      + by eapply shape_reparent.
    - apply rt_None in Eq as ->. wps. by apply HΨ. }
  destruct c as [|c e' r'|c l' e']; cbn [up] in *.
  - wps. unfold set_root. wps. apply Hpar; [done..|]. intros s' Hr _ Hg' Hf. by apply HΦ.
  - wps. apply Hpar; [done..|]. intros s' Hr (He' & Hr' & Hc') Hg' Hf. wps.
    apply (wp_load_node _ _ _ _ He'). cbn [mk left]. rewrite decide_True by done.
    apply (wp_upd _ _ _ _ _ He').
    assert (addr e' ∉ addrs r' ∧ addr e' ∉ caddrs c ∧ addr e' ∉ addrs g) as (Hn1 & Hn2 & Hn3).
    { rewrite caddrs_InL, NoDup_cons in Hdc. rewrite caddrs_InL in Hne.
      setoid_rewrite caddrs_InL in Hgc. set_solver. }
    apply HΦ.
    + apply (shape_plug _ (InL c e' r')). simpl. split_and!.
      * by rewrite fin_maps.lookup_insert, decide_True.
      * by apply shape_insert_out.
      * by apply cshape_insert_out.
      * by apply shape_insert_out.
    + simpl. rewrite Hr, Hroot. apply rt_plug_T.
    + etrans; [exact Hf|]. by eapply frame_upd.
  - wps. apply Hpar; [done..|]. intros s' Hr (He' & Hl' & Hc') Hg' Hf. wps.
    apply (wp_load_node _ _ _ _ He'). cbn [mk left right].
    assert (addr e' ∉ addrs l' ∧ addr e' ∉ caddrs c ∧ addr e' ∉ addrs g ∧ addr e ∉ addrs l')
      as (Hn1 & Hn2 & Hn3 & Hn4).
    { rewrite caddrs_InR, NoDup_cons in Hdc. rewrite caddrs_InR in Hne.
      setoid_rewrite caddrs_InR in Hgc. set_solver. }
    rewrite decide_False by (intros ?%rt_elem; done). wps. rewrite bool_decide_true by done. wps.
    apply (wp_upd _ _ _ _ _ He'). apply HΦ.
    + apply (shape_plug _ (InR c l' e')). simpl. split_and!.
      * by rewrite fin_maps.lookup_insert, decide_True.
      * by apply shape_insert_out.
      * by apply cshape_insert_out.
      * by apply shape_insert_out.
    + simpl. rewrite Hr, Hroot. apply rt_plug_T.
    + etrans; [exact Hf|]. by eapply frame_upd.
Qed.

(** The first half of [node_rm]: the left subtree moves below the right one. *)
Definition joined s c e g s' : Prop :=
  ∃ x y, mem s' !! addr e = Some (mk (up c) x y e) ∧
    match x with Some _ => x | None => y end = rt g ∧
    shape (mem s') (Some (addr e)) g ∧ cshape (mem s') c (Some (addr e)) ∧
    root s' = root s ∧ frame s s'.
Lemma wp_join c l e r Φ s p q :
  rt l = Some p → rt r = Some q →
  shape (mem s) None (plug c (T l e r)) → NoDup (addrs (plug c (T l e r))) →
  (length (inorder (T l e r)) ≤ base.size (mem s))%nat →
  (∀ s', joined s c e (graft l r) s' → Φ tt s') →
  wp (f ← fuel; tmp ← leftmost f q; upd tmp (set_left (Some p));;
      upd (addr e) (set_left None);; upd p (set_parent (Some tmp))) Φ s.
Proof.
  intros Hp Hq (Hc & He & Hl & Hr)%shape_plug Hd Hf HΦ.
  destruct (NoDup_at c l e r Hd) as (Hel & Her & Hec & Hlo & Hro & Hdl & Hdr & Hdc).
  destruct (inorder r) as [|x B] eqn:Er; [by rewrite inorder_nil in Hq|].
  assert (addr x ∈ addrs r) as Hx by (unfold addrs; rewrite Er; set_solver).
  pose proof (rt_elem l p Hp) as Hpl.
  assert (∃ nx, mem s !! addr x = Some nx) as [nx Hnx].
  { destruct (split_tree r [] x B Er) as (c' & l' & r' & -> & _).
    assert (∀ t par, shape (mem s) par (plug c' t) → ∃ par', shape (mem s) par' t) as Hsub.
    { clear. induction c' as [|c' IH e r|c' IH l e]; intros t par; [by eauto|..];
        intros (par' & _ & ? & ?)%IH; eauto. }
    destruct (Hsub _ _ Hr) as (par' & -> & _). eauto. }
  assert (∃ np, mem s !! p = Some np) as [np Hnp].
  { destruct l; [done|]. injection Hp as <-. destruct Hl as (-> & _). eauto. }
  assert (addr x ≠ addr e ∧ p ≠ addr e ∧ p ≠ addr x) as (H1 & H2 & H3).
  { destruct (Hlo p Hpl). split_and!; intros Heq; rewrite ?Heq in *; done. }
  wps. apply wp_fuel. wps.
  eapply wp_leftmost; [done|exact Hr| |exact Er| |exact Hq].
  { simpl in Hf. rewrite length_app in Hf. simpl in Hf. rewrite Er in *. simpl in *. lia. }
  wps. apply (wp_upd _ _ _ _ _ Hnx). wps. eapply wp_upd; [by simpl; rewrite lookup_insert_ne|].
  wps. eapply wp_upd; [by simpl; rewrite !lookup_insert_ne|]. apply HΦ.
  eexists _, _. split_and!; simpl.
  - rewrite lookup_insert_ne, fin_maps.lookup_insert, decide_True by done. reflexivity.
  - by rewrite rt_graft, Hq.
  - pose (m := <[addr e := set_left None (mk (up c) (rt l) (rt r) e)]> (mem s)).
    assert (m !! addr x = Some nx ∧ m !! p = Some np) as [Hmx Hmp].
    { unfold m. by rewrite !lookup_insert_ne. }
    apply (shape_graft m _ (Some (addr e)) (Some (addr e)) l r p x B);
      [by apply shape_insert_out|done|by apply shape_insert_out|done| | | |].
    + apply NoDup_app. split_and!; [done| |done]. intros z Hz. by apply Hlo.
    + intros z Hz1 Hz2. rewrite lookup_insert_ne by done. unfold m.
      destruct (decide (z = addr e)) as [->|]; [|by rewrite !lookup_insert_ne].
      by rewrite !fin_maps.lookup_insert, !decide_True.
    + by rewrite Hmx, !lookup_insert_ne, fin_maps.lookup_insert, decide_True by done.
    + by rewrite Hmp, fin_maps.lookup_insert, decide_True by done.
  - do 3 (apply cshape_insert_out; [by set_solver|]). done.
  - done.
  - split_and!; try done. intros z. simpl.
    rewrite (dom_insert_same _ p np), (dom_insert_same _ (addr e) (mk (up c) (rt l) (rt r) e));
      rewrite ?lookup_insert_ne by done; try done. by eapply dom_insert_same.
Qed.

(** The tree once a node was taken out and its children joined. *)
Lemma trep_without s s' c l e r :
  trep s (plug c (T l e r)) → shape (mem s') None (plug c (graft l r)) → root s' = rt (plug c (graft l r)) →
  brk s' = brk s → oom s' = oom s → (∀ p, is_Some (mem s' !! p) ↔ is_Some (mem s !! p)) →
  trep (SB (root s') (num_set s') (delete (addr e) (mem s')) (brk s') (oom s')) (plug c (graft l r)).
Proof.
  intros Ht Hs Hr Hbrk Hoom Hdom.
  assert (NoDup (addr e :: addrs (graft l r) ++ caddrs c)) as [Hnin Hnd]%NoDup_cons.
  { pose proof (tr_nodup s _ Ht) as Hd. rewrite addrs_plug, addrs_T in Hd. revert Hd.
    unfold addrs. rewrite inorder_graft, fmap_app. by rewrite <-Permutation_middle. }
  split; simpl; [done| | | | |by rewrite Hoom; apply Ht].
  - apply shape_delete_out; [|done]. by rewrite addrs_plug.
  - by rewrite addrs_plug.
  - intros p. rewrite addrs_plug. destruct (decide (p = addr e)) as [->|Hne].
    + rewrite lookup_delete_eq. split; [by intros []|done].
    + rewrite lookup_delete_ne, Hdom by done. rewrite (tr_dom s _ Ht), addrs_plug, addrs_T.
      unfold addrs. rewrite inorder_graft, fmap_app. set_solver.
  - intros p Hp. rewrite Hbrk. apply (tr_brk s _ Ht). revert Hp.
    rewrite !addrs_plug, addrs_T. unfold addrs. rewrite inorder_graft, fmap_app. set_solver.
Qed.
Lemma wp_node_rm A e B n Φ s :
  st s (A ++ e :: B) n → u64 (e_num e + popcount (e_mask e)) ≤ n ∨ n = 0 →
  (∀ s', st s' (A ++ B) (u64 (n - u64 (e_num e + popcount (e_mask e)))) → Φ tt s') →
  wp (node_rm (addr e)) Φ s.
Proof.
  intros [(t & Ht & Hi) Hn] Hcount HΦ.
  destruct (trep_at s t A e B Ht Hi) as (c & l & r & -> & HA & HB & He & Hl & Hr & Hc).
  pose proof (NoDup_at c l e r (tr_nodup s _ Ht)) as (Hel & Her & Hec & Hlo & Hro & Hdl & Hdr & Hdc).
  pose proof (tr_root s _ Ht) as Hroot.
  unfold node_rm. wps. apply (wp_load_node _ _ _ _ He). cbn [mk left right]. wps.
  unfold sparsebit_all_set. wps. apply wp_get. wps. apply wp_get. wps. apply owp_assert.
  { apply orb_true_iff. rewrite Z.leb_le. destruct Hcount as [Hle| ->]; [left; unfold node_num_set; simpl; lia|right].
    rewrite Hroot. destruct (rt (plug c (T l e r))) eqn:E; [by rewrite Hn|].
    apply rt_None in E. rewrite E in Hi. by apply app_cons_not_nil in Hi. }
  wps. unfold set_num_set. wps.
  set (s1 := SB _ _ _ _ _).
  apply (wp_mono _ (λ _, joined s1 c e (graft l r))).
  { pose proof (tr_shape s _ Ht) as Hsh.
    destruct (rt l) as [p|] eqn:Ep; [destruct (rt r) as [q|] eqn:Eq|].
    - apply (wp_join c l e r _ s1 p q Ep Eq Hsh (tr_nodup s _ Ht)); [|done].
      simpl. rewrite (trep_fuel s _ Ht). unfold addrs. rewrite length_fmap, inorder_plug.
      rewrite !length_app. simpl. rewrite length_app. simpl. lia.
    - apply rt_None in Eq as ->. wps. exists (Some p), None. simpl. by split_and!.
    - apply rt_None in Ep as ->. rewrite graft_Leaf. destruct (rt r) as [q|] eqn:Eq; wps;
        [exists None, (Some q)|exists None, None]; by split_and!. }
  intros _ s2 (x & y & He2 & Hxy & Hg2 & Hc2 & Hr2 & Hf2). wps.
  apply (wp_load_node _ _ _ _ He2). cbn [mk left right].
  assert (NoDup (addr e :: addrs (graft l r) ++ caddrs c)) as Hnd.
  { pose proof (tr_nodup s _ Ht) as Hd. rewrite addrs_plug, addrs_T in Hd. revert Hd.
    unfold addrs. rewrite inorder_graft, fmap_app. by rewrite <-Permutation_middle. }
  assert (∀ Ψ, wp (replace_child (addr e) (rt (graft l r))) Ψ s2 →
    wp (match x, y with
        | Some l, _ => replace_child (addr e) (Some l)
        | None, Some r => replace_child (addr e) (Some r)
        | None, None => replace_child (addr e) None
        end) Ψ s2) as Hsel.
  { intros Ψ. rewrite <-Hxy. by destruct x, y. }
  wps. apply Hsel. eapply wp_replace_child; [done..| |].
  { rewrite Hr2. simpl. rewrite Hroot. apply rt_plug. }
  intros s3 Hs3 Hr3 Hf3. pose proof (frame_trans _ _ _ Hf2 Hf3) as (Hbrk & Hoom & Hns & Hdom).
  assert (∃ n3, mem s3 !! addr e = Some n3) as [n3 He3].
  { apply Hdom. eexists. exact He. }
  wps. apply (wp_free_node _ _ _ _ He3). apply HΦ.
  split; [|simpl; rewrite Hns; simpl; by rewrite Hn].
  exists (plug c (graft l r)). split; [|by rewrite inorder_plug, inorder_graft, HA, HB, <-!app_assoc].
  by apply (trep_without s s3 c l e r).
Qed.
