(* ===== verification/SparsebitSearch.v ===== *)
(** * selftests: searching and inserting in the sparse bit array

    The entries of the sequence describe disjoint ranges of indices in
    ascending order; with that, descending in the tree finds the entry that
    describes an index, the first one after it, and the place of a new one. *)

From S2P Require Import Prelude Sparsebit SparsebitOps SparsebitTree.

Implicit Types (t l r : tree) (e : ent) (A B : list ent) (c : ctx) (s : sparsebit).

(** The first index after those an entry describes. *)
Definition e_lim e : Z := e_idx e + 32 + e_num e.
Definition ok_ent e : Prop :=
  0 ≤ e_idx e ∧ e_idx e mod 32 = 0 ∧ 0 ≤ e_num e ∧ e_lim e ≤ 2 ^ 64 ∧ 0 ≤ e_mask e < 2 ^ 32.
Definition covers e (i : Z) : Prop := e_idx e ≤ i < e_lim e.

(** Ascending, disjoint, not below [b]. *)
Fixpoint wf_from (b : Z) A : Prop :=
  match A with [] => True | e :: A' => ok_ent e ∧ b ≤ e_idx e ∧ wf_from (e_lim e) A' end.
(** The limit of the last entry, or [b]. *)
Definition lim (b : Z) A : Z := foldl (λ _ e, e_lim e) b A.

Lemma lim_app b A B : lim b (A ++ B) = lim (lim b A) B.
Proof. apply foldl_app. Qed.
Lemma lim_snoc b A e : lim b (A ++ [e]) = e_lim e.
Proof. by rewrite lim_app. Qed.
Lemma wf_app b A B : wf_from b (A ++ B) ↔ wf_from b A ∧ wf_from (lim b A) B.
Proof.
  revert b. induction A as [|e A IH]; intros b; simpl; [tauto|]. rewrite IH. tauto.
Qed.
Lemma wf_mono b b' A : b' ≤ b → wf_from b A → wf_from b' A.
Proof. destruct A as [|e A]; simpl; [done|]. intros ? (? & ? & ?). split_and!; auto; lia. Qed.
Lemma ok_lim e : ok_ent e → e_idx e + 32 ≤ e_lim e.
Proof. unfold ok_ent, e_lim. lia. Qed.
Lemma lim_ge b A : wf_from b A → b ≤ lim b A.
Proof.
  revert b. induction A as [|e A IH]; intros b; simpl; [lia|].
  intros (Ho & ? & Hw%IH). apply ok_lim in Ho. lia.
Qed.
Lemma lim_mono b b' A : b' ≤ b → lim b' A ≤ lim b A.
Proof. by destruct A. Qed.
Lemma wf_elem b A e :
  wf_from b A → e ∈ A → ok_ent e ∧ b ≤ e_idx e ∧ e_lim e ≤ lim b A.
Proof.
  intros Hw [A1 [A2 ->]]%list_elem_of_split. apply wf_app in Hw as (Hw1 & Ho & Hi & Hw2).
  apply lim_ge in Hw1, Hw2. rewrite lim_app. simpl. split_and!; [done|lia|done].
Qed.
Lemma wf_Forall b A : wf_from b A → Forall ok_ent A.
Proof. intros Hw. apply Forall_forall. intros e He. by apply (wf_elem b A e). Qed.
Lemma node_end_ok e par x y : ok_ent e → node_end (mk par x y e) = e_lim e - 1.
Proof.
  intros (? & ? & ? & ? & ?). unfold node_end, e_lim, MASK_BITS in *. cbn [mk idx num_after].
  rewrite u64_small; unfold in_u64; lia.
Qed.
Lemma node_limit_ok e par x y : ok_ent e → node_limit (mk par x y e) = u64 (e_lim e).
Proof. done. Qed.

(** ** Finding *)
Lemma describes_spec e par x y i :
  ok_ent e → describes (mk par x y e) i = true ↔ covers e i.
Proof.
  intros Ho. unfold describes, covers. rewrite (node_end_ok e) by done.
  rewrite andb_true_iff, !Z.leb_le. cbn [mk idx]. lia.
Qed.
Lemma wf_T b l e r :
  wf_from b (inorder (T l e r)) →
  wf_from b (inorder l) ∧ ok_ent e ∧ wf_from (e_lim e) (inorder r) ∧
  (∀ x, x ∈ inorder l → e_lim x ≤ e_idx e) ∧ (∀ x, x ∈ inorder r → e_lim e ≤ e_idx x).
Proof.
  simpl. rewrite wf_app. simpl. intros (Hl & Ho & Hi & Hr). split_and!; try done.
  - intros x Hx. destruct (wf_elem _ _ _ Hl Hx) as (_ & _ & ?). lia.
  - intros x Hx. by destruct (wf_elem _ _ _ Hr Hx) as (_ & ? & _).
Qed.
Lemma wp_find_loop i par t b f (Φ : option nat → sparsebit → Prop) s :
  shape (mem s) par t → wf_from b (inorder t) → (length (inorder t) ≤ f)%nat →
  (∀ e, e ∈ inorder t → covers e i → Φ (Some (addr e)) s) →
  ((∀ e, e ∈ inorder t → ¬ covers e i) → Φ None s) →
  wp (find_loop f (rt t) i) Φ s.
Proof.
  revert par b f. induction t as [|l IHl e r IHr]; intros par b f.
  { intros _ _ _ _ HN. destruct f; apply HN; set_solver. }
  intros (He & Hl & Hr) Hw Hf HS HN.
  destruct (wf_T b l e r Hw) as (Hwl & Ho & Hwr & Hle & Hre).
  simpl in Hf. rewrite length_app in Hf. simpl in Hf. destruct f as [|f]; [lia|].
  cbn [rt find_loop]. wps. apply (wp_load_node _ _ _ _ He).
  destruct (describes _ i) eqn:Ed; [wps; apply HS; [set_solver|by eapply describes_spec in Ed]|].
  assert (¬ covers e i) as Hn.
  { intros Hc. apply (describes_spec e par (rt l) (rt r)) in Hc; [congruence|done]. }
  cbn [mk idx left right]. destruct (Z.ltb_spec i (e_idx e)).
  - eapply IHl; [done..|lia|intros; apply HS; set_solver|]. intros Hno. apply HN. simpl.
    intros x [?|[->|Hx%Hre]%elem_of_cons]%elem_of_app; [by apply Hno|done|].
    intros [Hx' _]. apply ok_lim in Ho. lia.
  - eapply IHr; [done..|lia|intros; apply HS; set_solver|]. intros Hno. apply HN. simpl.
    intros x [Hx%Hle|[->|?]%elem_of_cons]%elem_of_app; [|done|by apply Hno].
    intros [_ Hx']. lia.
Qed.
Lemma wp_node_find A n i (Φ : option nat → sparsebit → Prop) s b :
  st s A n → wf_from b A →
  (∀ A1 e A2, A = A1 ++ e :: A2 → covers e i → Φ (Some (addr e)) s) →
  ((∀ e, e ∈ A → ¬ covers e i) → Φ None s) →
  wp (node_find i) Φ s.
Proof.
  intros Hst Hw HS HN. pose proof Hst as [(t & Ht & Hi) _]. unfold node_find. wps. apply wp_get.
  wps. apply (wp_fuel_st _ _ _ _ Hst). rewrite (tr_root s t Ht). subst A.
  eapply wp_find_loop; [apply Ht|done..| |done].
  intros e [A1 [A2 He]]%list_elem_of_split. by eapply HS.
Qed.

(** The first entry that ends after [i]. *)
Lemma wp_candidate_loop i par t b f cand (Φ : option nat * bool → sparsebit → Prop) s :
  shape (mem s) par t → wf_from b (inorder t) → (length (inorder t) ≤ f)%nat →
  (∀ A e B, inorder t = A ++ e :: B → covers e i → Φ (Some (addr e), true) s) →
  (∀ A e B, inorder t = A ++ e :: B → (∀ x, x ∈ A → e_lim x ≤ i) → i < e_idx e →
    Φ (Some (addr e), false) s) →
  ((∀ e, e ∈ inorder t → e_lim e ≤ i) → Φ (cand, false) s) →
  wp (candidate_loop f (rt t) i cand) Φ s.
Proof.
  revert par b f cand. induction t as [|l IHl e r IHr]; intros par b f cand.
  { intros _ _ _ _ _ HN. destruct f; apply HN; set_solver. }
  intros (He & Hl & Hr) Hw Hf HS HA HN.
  destruct (wf_T b l e r Hw) as (Hwl & Ho & Hwr & Hle & Hre).
  simpl in Hf. rewrite length_app in Hf. simpl in Hf. destruct f as [|f]; [lia|].
  cbn [rt candidate_loop]. wps. apply (wp_load_node _ _ _ _ He). rewrite (node_end_ok e) by done.
  cbn [mk idx left right]. destruct (Z.leb_spec i (e_lim e - 1)).
  - destruct (Z.leb_spec (e_idx e) i); [wps; apply (HS (inorder l) e (inorder r)); [done|split; lia]|].
    eapply IHl; [done..|lia| | |].
    + intros A x B HA'. apply (HS A x (B ++ e :: inorder r)). simpl. by rewrite HA', <-app_assoc.
    + intros A x B HA'. apply (HA A x (B ++ e :: inorder r)). simpl. by rewrite HA', <-app_assoc.
    + intros Hall. by apply (HA (inorder l) e (inorder r)).
  - eapply IHr; [done..|lia| | |].
    + intros A x B HA'. apply (HS (inorder l ++ e :: A) x B). simpl. by rewrite HA', <-app_assoc.
    + intros A x B HA' Hall Hx. apply (HA (inorder l ++ e :: A) x B); [|
        |done]. { simpl. by rewrite HA', <-app_assoc. }
      intros y [Hy%Hle|[->|Hy]%elem_of_cons]%elem_of_app; [apply ok_lim in Ho; lia|lia|auto].
    + intros Hall. apply HN. simpl.
      intros y [Hy%Hle|[->|Hy]%elem_of_cons]%elem_of_app; [apply ok_lim in Ho; lia|lia|auto].
Qed.

(** ** Adding a node *)
(** The stores that hang [new] below [e], the last node of the context [c]. *)
Lemma wp_hang new c e g x (Φ : unit → sparsebit → Prop) s :
  up c = Some (addr e) → mem s !! addr e = Some x → addr e ≠ addr new →
  mem s !! addr new = Some (mk None None None new) →
  (∀ m, (∀ p, p ≠ addr e → p ≠ addr new → m !! p = mem s !! p) → m !! addr e = Some (g x) →
    cshape m c (Some (addr new))) →
  (∀ m, shape m None (plug c (T Leaf new Leaf)) →
    (∀ p, is_Some (m !! p) ↔ is_Some (mem s !! p)) → Φ tt (with_mem s m)) →
  wp (upd (addr e) g;; upd (addr new) (set_parent (Some (addr e)))) Φ s.
Proof.
  intros Hup He Hne Hnew Hcs HΦ. wps. apply (wp_upd _ _ _ _ _ He).
  eapply wp_upd; [simpl; by rewrite lookup_insert_ne|]. simpl. apply HΦ.
  - apply shape_plug. split; [|split; [|done]].
    + apply Hcs.
      * intros p ? ?. by rewrite !lookup_insert_ne.
      * by rewrite lookup_insert_ne, fin_maps.lookup_insert, decide_True.
    + rewrite fin_maps.lookup_insert, decide_True by done. by rewrite Hup.
  - intros p. rewrite (dom_insert_same _ (addr new) (mk None None None new));
      [by eapply dom_insert_same|by rewrite lookup_insert_ne].
Qed.
(** One step of the descent, at a node that does not cover [i]. *)
Lemma wp_attach_step i new e par lc rc f (Φ : unit → sparsebit → Prop) s :
  mem s !! addr e = Some (mk par lc rc e) → ok_ent e → ¬ covers e i →
  (i < e_idx e → wp (match lc, f with
    | None, _ => upd (addr e) (set_left (Some (addr new)));;
                 upd (addr new) (set_parent (Some (addr e)))
    | Some q, S f => attach f i (addr new) q
    | Some _, O => lift Undef end) Φ s) →
  (e_lim e ≤ i → wp (match rc, f with
    | None, _ => upd (addr e) (set_right (Some (addr new)));;
                 upd (addr new) (set_parent (Some (addr e)))
    | Some q, S f => attach f i (addr new) q
    | Some _, O => lift Undef end) Φ s) → wp (attach f i (addr new) (addr e)) Φ s.
Proof.
  intros He Ho Hni HL HR. unfold covers in Hni.
  destruct f as [|f]; cbn [attach]; wps; apply (wp_load_node _ _ _ _ He); cbn [mk idx left right];
    (destruct (Z.ltb_spec i (e_idx e)); [by apply HL|]); wps;
    (apply owp_assert; [rewrite (node_end_ok e) by done; apply Z.ltb_lt; lia|]);
    wps; apply HR; lia.
Qed.
Lemma wp_attach i new t0 (Φ : unit → sparsebit → Prop) s :
  shape (mem s) None t0 → mem s !! addr new = Some (mk None None None new) →
  addr new ∉ addrs t0 → NoDup (addrs t0) →
  (∀ m c, plug c Leaf = t0 → c ≠ Top → (∀ e, e ∈ before c → e_lim e ≤ i) →
    (∀ e, e ∈ after c → i < e_idx e) → shape m None (plug c (T Leaf new Leaf)) →
    (∀ p, is_Some (m !! p) ↔ is_Some (mem s !! p)) → Φ tt (with_mem s m)) →
  ∀ t c b f q, plug c t = t0 → rt t = Some q → wf_from b (inorder t) →
  (length (inorder t) ≤ S f)%nat → (∀ e, e ∈ inorder t → ¬ covers e i) →
  (∀ e, e ∈ before c → e_lim e ≤ i) → (∀ e, e ∈ after c → i < e_idx e) →
  wp (attach f i (addr new) q) Φ s.
Proof.
  intros Hs Hnew Hnin Hd HΦ t. induction t as [|l IHl e r IHr]; [done|].
  intros c b f q Hp [= <-] Hw Hf Hno Hb Ha.
  destruct (wf_T b l e r Hw) as (Hwl & Ho & Hwr & Hle & Hre).
  pose proof Hs as Hs'. rewrite <-Hp in Hs'. apply shape_plug in Hs' as (Hc & He & Hl & Hr).
  pose proof (NoDup_at c l e r) as Hnd. rewrite Hp in Hnd.
  destruct (Hnd Hd) as (Hel & Her & Hec & Hlo & Hro & _). clear Hnd.
  assert (addr new ∉ addrs l ∧ addr new ∉ addrs r ∧ addr new ∉ caddrs c ∧ addr e ≠ addr new)
    as (Hn1 & Hn2 & Hn3 & Hn4).
  { rewrite <-Hp, addrs_plug, addrs_T in Hnin. set_solver. }
  assert (¬ covers e i) as Hni by (apply Hno; set_solver).
  simpl in Hf. rewrite length_app in Hf. simpl in Hf.
  pose proof (ok_lim e Ho) as Hlim.
  assert (∀ m t, (∀ p, p ≠ addr e → p ≠ addr new → m !! p = mem s !! p) → addr e ∉ addrs t →
    addr new ∉ addrs t → shape (mem s) (Some (addr e)) t → shape m (Some (addr e)) t) as Hext.
  { intros m t Hm H1 H2. apply shape_ext. intros p Hpt. apply Hm; by intros ->. }
  assert (∀ m, (∀ p, p ≠ addr e → p ≠ addr new → m !! p = mem s !! p) →
    cshape m c (Some (addr e))) as Hcext.
  { intros m Hm. eapply cshape_ext; [|exact Hc]. intros p Hpt. apply Hm; by intros ->. }
  assert (∀ x B, inorder l = x :: B ∨ inorder r = x :: B → ∃ f', f = S f' ∧
    (length (inorder l) ≤ S f')%nat ∧ (length (inorder r) ≤ S f')%nat) as Hfuel.
  { intros x B Hx. destruct f as [|f]; [|exists f; split_and!; [done|lia..]].
    destruct Hx as [Hx|Hx]; rewrite Hx in Hf; simpl in Hf; lia. }
  assert (∀ t q, rt t = Some q → ∃ x B, inorder t = x :: B) as Hcons.
  { intros t q Ht. destruct (inorder t) eqn:E; [by rewrite inorder_nil in Ht|eauto]. }
  eapply wp_attach_step; [exact He|done|done|..]; intros Hi.
  - destruct (rt l) as [q|] eqn:El.
    + destruct (Hcons l q El) as (x & B & Hx). destruct (Hfuel x B) as (f' & -> & ? & ?); [by left|].
      apply (IHl (InL c e r) b f' q); try done; [set_solver|]. simpl.
      intros y [->|[Hy%Hre|Hy]%elem_of_app]%elem_of_cons; [done|lia|by apply Ha].
    + apply rt_None in El as ->. eapply (wp_hang new (InL c e r) e); try done.
      * intros m Hm Hme. split; [done|]. split; [by apply Hext|by apply Hcext].
      * intros m Hm Hdom. apply (HΦ m (InL c e r)); try done. simpl.
        intros y [->|[Hy%Hre|Hy]%elem_of_app]%elem_of_cons; [done|lia|by apply Ha].
  - assert (∀ y, y ∈ before (InR c l e) → e_lim y ≤ i) as Hbr.
    { simpl. intros y [Hy|[Hy%Hle|Hy%list_elem_of_singleton]%elem_of_app]%elem_of_app;
        [by apply Hb|lia|by subst]. }
    destruct (rt r) as [q|] eqn:Er.
    + destruct (Hcons r q Er) as (x & B & Hx). destruct (Hfuel x B) as (f' & -> & ? & ?); [by right|].
      apply (IHr (InR c l e) (e_lim e) f' q); try done. set_solver.
    + apply rt_None in Er as ->. eapply (wp_hang new (InR c l e) e); try done.
      * intros m Hm Hme. split; [done|]. split; [by apply Hext|by apply Hcext].
      * intros m Hm Hdom. by apply (HΦ m (InR c l e)).
Qed.

Lemma testbit_small x w n : 0 ≤ x < 2 ^ w → w ≤ n → Z.testbit x n = false.
Proof.
  intros [? Hx] Hn. destruct (decide (x = 0)) as [->|]; [apply Z.testbit_0_l|].
  apply Z.bits_above_log2; [done|]. apply Z.log2_lt_pow2 in Hx; lia.
Qed.
Lemma align_spec i : in_u64 i → align i = i / 32 * 32.
Proof.
  intros Hi. unfold align. change (2 ^ 64 - MASK_BITS) with (Z.shiftl (Z.ones 59) 5).
  change 32 with (2 ^ 5). rewrite <-Z.shiftl_mul_pow2, <-Z.shiftr_div_pow2 by lia.
  apply Z.bits_inj'. intros n Hn. rewrite Z.land_spec, !Z.shiftl_spec by done.
  destruct (decide (n < 5)).
  { rewrite (Z.testbit_neg_r _ (n - 5)), (Z.testbit_neg_r (Z.shiftr i 5)) by lia.
    apply andb_false_r. }
  rewrite Z.shiftr_spec by lia. replace (n - 5 + 5) with n by lia.
  destruct (decide (n < 64)).
  - rewrite Z.ones_spec_low by lia. apply andb_true_r.
  - by rewrite (testbit_small i 64 n Hi) by lia.
Qed.
Lemma align_aligned i : in_u64 i → i mod 32 = 0 → align i = i.
Proof. intros Hi Hm. rewrite align_spec by done. pose proof (Z.div_mod i 32). lia. Qed.

Lemma aligned_lt i j : i mod 32 = 0 → j mod 32 = 0 → i < j → i + 32 ≤ j.
Proof. intros Hi Hj ?. pose proof (Z.div_mod i 32). pose proof (Z.div_mod j 32). lia. Qed.

(** The array after the new node was hung into the tree. *)
Lemma st_hung s t n new c m :
  trep s t → num_set s = n → addr new = brk s → mem s !! brk s = None → plug c Leaf = t → c ≠ Top →
  shape m None (plug c (T Leaf new Leaf)) →
  (∀ p, is_Some (m !! p) ↔ is_Some (<[brk s := mk None None None new]> (mem s) !! p)) →
  st (SB (rt t) (num_set s) m (S (brk s)) (oom s)) (before c ++ new :: after c) n.
Proof.
  intros Ht Hn Hnew Hfresh Hc Hne Hsh Hdom.
  assert (brk s ∉ addrs t) as Hnin.
  { intros Hin%(tr_dom s t Ht). rewrite Hfresh in Hin. by destruct Hin. }
  split; [|done]. exists (plug c (T Leaf new Leaf)). split; [|by rewrite inorder_plug].
  assert (addrs (plug c (T Leaf new Leaf)) ≡ₚ brk s :: addrs t) as Hp.
  { rewrite <-Hc, !addrs_plug, <-Hnew. done. }
  split; simpl; [|done|..|apply Ht].
  - rewrite <-Hc. clear -Hne. destruct c as [|c e r|c l e]; [done|..];
      symmetry; [apply (rt_plug (InL c e r))|apply (rt_plug (InR c l e))].
  - rewrite Hp. constructor; [done|apply Ht].
  - intros p. rewrite Hdom, Hp, elem_of_cons. destruct (decide (p = brk s)) as [->|Hpne].
    + rewrite fin_maps.lookup_insert, decide_True by done. split; eauto.
    + rewrite lookup_insert_ne by done. rewrite (tr_dom s t Ht). naive_solver.
  - intros p. rewrite Hp, elem_of_cons. intros [->|Hin]; [lia|]. apply (tr_brk s t Ht) in Hin. lia.
Qed.
(** No bit of the node before is moved into the new one. *)
Lemma wp_no_overlap A1 new A2 n (Φ : nat → sparsebit → Prop) s :
  st s (A1 ++ new :: A2) n → (∀ e, e ∈ A1 → ok_ent e ∧ e_lim e ≤ e_idx new) → Φ (addr new) s →
  wp (prev ← node_prev (addr new);
      match prev with Some prev => take_overlap 32 prev (addr new) | None => mret tt end;;
      mret (addr new)) Φ s.
Proof.
  intros Hst Hbef HΦ. wps. eapply (wp_node_prev A1 new); [exact Hst|].
  destruct (last A1) as [x|] eqn:El; simpl; wps; [|done].
  apply last_Some in El as [B ->]. rewrite <-app_assoc in Hst. simpl in Hst.
  unfold take_overlap. wps. eapply (wp_load_st B x); [exact Hst|]. intros. wps.
  eapply (wp_load_st (B ++ [x]) new); [rewrite <-app_assoc; exact Hst|]. intros.
  destruct (Hbef x) as [Hox Hlx]; [set_solver|]. rewrite (node_end_ok x) by done. cbn [mk idx].
  destruct (Z.leb_spec (e_idx new) (e_lim x - 1)); [lia|]. by wps.
Qed.
(** The first node of an array. *)
Lemma st_first s n new : st s [] n → addr new = brk s →
  st (SB (Some (brk s)) (num_set s) (<[brk s := mk None None None new]> (mem s)) (S (brk s)) (oom s)) [new] n.
Proof.
  intros [(t & Ht & HA) Hn] Hnew. apply inorder_nil, rt_None in HA as ->. split; [|done].
  exists (T Leaf new Leaf). split; [|done]. split; simpl; [by rewrite Hnew| | | | |apply Ht].
  - split_and!; try done. by rewrite Hnew, fin_maps.lookup_insert, decide_True.
  - apply NoDup_singleton.
  - intros p. unfold addrs. simpl. rewrite list_elem_of_singleton, Hnew.
    destruct (decide (p = brk s)) as [->|Hpne].
    + rewrite fin_maps.lookup_insert, decide_True by done. split; eauto.
    + rewrite lookup_insert_ne by done. rewrite (tr_dom s _ Ht). unfold addrs. simpl. set_solver.
  - unfold addrs. simpl. rewrite Hnew. intros p ->%list_elem_of_singleton. lia.
Qed.
(** A new node for the 32 bits from [i], which no node describes. *)
Lemma wp_node_add A n i (Φ : nat → sparsebit → Prop) s b :
  st s A n → wf_from b A → b ≤ i → in_u64 i → i mod 32 = 0 → (∀ e, e ∈ A → ¬ covers e i) →
  (∀ s' p A1 A2, A = A1 ++ A2 → lim b A1 ≤ i → wf_from (i + 32) A2 →
    st s' (A1 ++ Ent p i 0 0 :: A2) n → Φ p s') →
  wp (node_add i) Φ s.
Proof.
  intros Hst Hw Hb Hi Hm Hno HΦ. pose proof Hst as [(t & Ht & HA) Hn].
  unfold node_add, calloc_node. wps. unfold wp at 1. rewrite (tr_oom s t Ht). cbn [tail].
  wps. eapply wp_upd; [simpl; by rewrite fin_maps.lookup_insert, decide_True|].
  unfold with_mem. cbn [root num_set mem brk oom]. rewrite insert_insert_eq, align_aligned by done.
  assert (mem s !! brk s = None) as Hfresh.
  { apply eq_None_not_Some. intros Hs%(tr_dom s t Ht)%(tr_brk s t Ht). lia. }
  assert (brk s ∉ addrs t) as Hnin.
  { intros Hin%(tr_dom s t Ht). rewrite Hfresh in Hin. by destruct Hin. }
  set (new := Ent (brk s) i 0 0). change (set_idx i zero_node) with (mk None None None new).
  wps. apply wp_get. cbn [root]. rewrite (tr_root s t Ht). destruct (rt t) as [q|] eqn:Eq.
  2: { apply rt_None in Eq as ->. unfold set_root. wps. simpl in HA. subst A.
       apply (HΦ _ _ [] []); [done..|]. rewrite <-(tr_oom s _ Ht). by apply (st_first s n new). }
  wps. apply wp_fuel. cbn [mem]. wps. match goal with |- wp _ _ ?x => set (s1 := x) end.
  assert (shape (mem s1) None t) as Hshape by (apply shape_insert_out; [done|apply Ht]).
  assert (mem s1 !! addr new = Some (mk None None None new)) as Hnew
    by (simpl; by rewrite fin_maps.lookup_insert, decide_True).
  eapply (λ H, wp_attach i new t _ s1 Hshape Hnew Hnin (tr_nodup s t Ht) H t Top b _ q);
    [|done|done|by rewrite HA| |by rewrite HA|set_solver|set_solver]; cycle 1.
  { simpl. rewrite map_size_insert, Hfresh. simpl. rewrite (trep_fuel s t Ht). unfold addrs.
    rewrite length_fmap. lia. }
  intros m c Hc Hne Hbef Haft Hsh Hdom.
  assert (A = before c ++ after c) as HAc by (by rewrite <-HA, <-Hc, inorder_plug).
  pose proof (st_hung s t n new c m Ht Hn eq_refl Hfresh Hc Hne Hsh Hdom) as Hst'.
  rewrite Eq, (tr_oom s t Ht) in Hst'. eapply (wp_no_overlap (before c) new); [exact Hst'| |].
  - intros e He. split; [|by apply Hbef]. destruct (wf_elem b A e Hw) as [? _]; [|done]. rewrite HAc. set_solver.
  - eapply HΦ; [exact HAc| | |exact Hst'].
    + unfold lim. destruct (before c) as [|x B _] using rev_ind; [done|].
      rewrite foldl_snoc. apply Hbef. set_solver.
    + rewrite HAc, wf_app in Hw. destruct Hw as [_ Hw]. destruct (after c) as [|x B]; [done|].
      destruct Hw as (Ho & Hx & Hw). split_and!; try done.
      specialize (Haft x ltac:(set_solver)). destruct Ho as (_ & Hmx & _). by apply aligned_lt.
Qed.
