(* ===== verification/SparsebitBits.v ===== *)
(** * selftests: the bits of entries and masks

    The indices an entry sets, the number of them, and the arithmetic of the
    32-bit masks. *)

From S2P Require Import Prelude Sparsebit SparsebitOps SparsebitTree SparsebitSearch.

Implicit Types (e x : ent) (A B : list ent).

(** ** Masks *)
Definition in_mask (m : Z) : Prop := 0 ≤ m < 2 ^ 32.

Lemma elem_of_mask_bits m i : i ∈ mask_bits m ↔ Z.testbit m i = true ∧ 0 ≤ i < 32.
Proof. unfold mask_bits. rewrite list_elem_of_filter, elem_of_seqZ. intuition lia. Qed.
Lemma mask_bits_NoDup m : NoDup (mask_bits m).
Proof. apply NoDup_filter, NoDup_seqZ. Qed.
Lemma testbit_range m i : in_mask m → Z.testbit m i = true → 0 ≤ i < 32.
Proof.
  intros Hm Hi. destruct (decide (i < 0)); [by rewrite Z.testbit_neg_r in Hi|].
  destruct (decide (32 ≤ i)); [by rewrite (testbit_small m 32) in Hi|lia].
Qed.
Lemma mask_ext m m' :
  in_mask m → in_mask m' → (∀ i, 0 ≤ i < 32 → Z.testbit m i = Z.testbit m' i) → m = m'.
Proof.
  intros Hm Hm' H. apply Z.bits_inj'. intros i Hi. destruct (decide (i < 32)); [by apply H|].
  rewrite !(testbit_small _ 32) by (done || lia). done.
Qed.
Lemma mask_zero m : in_mask m → (∀ i, 0 ≤ i < 32 → Z.testbit m i = false) → m = 0.
Proof.
  intros Hm H. apply mask_ext; [done|done|]. intros i Hi. by rewrite H, Z.testbit_0_l.
Qed.
Lemma mask_of_bits m : 0 ≤ m → (∀ i, 32 ≤ i → Z.testbit m i = false) → in_mask m.
Proof.
  intros Hm H. split; [done|]. destruct (decide (m = 0)) as [->|]; [done|].
  apply Z.log2_lt_pow2; [lia|]. destruct (decide (32 ≤ Z.log2 m)); [|lia].
  assert (Z.testbit m (Z.log2 m) = true) by (apply Z.bit_log2; lia).
  rewrite H in *; done.
Qed.
Lemma testbit_bit1 j i : 0 ≤ j → Z.testbit (bit1 j) i = bool_decide (i = j).
Proof.
  intros Hj. unfold bit1. rewrite Z.shiftl_1_l. case_bool_decide; subst.
  - by apply Z.pow2_bits_true.
  - by apply Z.pow2_bits_false.
Qed.
Lemma has_bit_spec m j : 0 ≤ j → has_bit m j = Z.testbit m j.
Proof.
  intros Hj. unfold has_bit, bit1. rewrite <-(Z2Nat.id j Hj). apply land_shl1_eqb.
Qed.
Lemma FULL_bits i : Z.testbit FULL i = bool_decide (0 ≤ i < 32).
Proof.
  change FULL with (Z.ones 32). case_bool_decide.
  - by apply Z.ones_spec_low.
  - destruct (decide (i < 0)); [by apply Z.testbit_neg_r|]. apply Z.ones_spec_high; lia.
Qed.
Lemma FULL_mask : in_mask FULL.
Proof. by split. Qed.

(** Setting and clearing one bit. *)
Lemma lor_bit m j i :
  0 ≤ j → Z.testbit (Z.lor m (bit1 j)) i = Z.testbit m i || bool_decide (i = j).
Proof. intros Hj. by rewrite Z.lor_spec, testbit_bit1. Qed.
Lemma lor_mask m j : in_mask m → 0 ≤ j < 32 → in_mask (Z.lor m (bit1 j)).
Proof.
  intros Hm Hj. apply mask_of_bits.
  - apply Z.lor_nonneg. split; [apply Hm|]. unfold bit1. rewrite Z.shiftl_1_l. lia.
  - intros i Hi. rewrite lor_bit, (testbit_small m 32) by (done || lia).
    by rewrite bool_decide_false by lia.
Qed.
Lemma cleared_bit j i :
  0 ≤ j < 32 → Z.testbit (FULL - bit1 j) i = bool_decide (0 ≤ i < 32) && negb (bool_decide (i = j)).
Proof.
  intros Hj. rewrite Z.sub_nocarry_ldiff.
  - by rewrite Z.ldiff_spec, FULL_bits, testbit_bit1 by lia.
  - apply Z.bits_inj'. intros k Hk. rewrite Z.ldiff_spec, FULL_bits, testbit_bit1 by lia.
    rewrite Z.testbit_0_l. repeat case_bool_decide; simpl; done || lia.
Qed.
Lemma land_bit m j i :
  in_mask m → 0 ≤ j < 32 →
  Z.testbit (Z.land m (FULL - bit1 j)) i = Z.testbit m i && negb (bool_decide (i = j)).
Proof.
  intros Hm Hj. rewrite Z.land_spec, cleared_bit by done.
  destruct (Z.testbit m i) eqn:E; [|done]. apply testbit_range in E; [|done].
  by rewrite bool_decide_true.
Qed.
Lemma land_mask m k : in_mask m → in_mask (Z.land m k).
Proof.
  intros Hm. apply mask_of_bits; [apply Z.land_nonneg; left; apply Hm|].
  intros i Hi. by rewrite Z.land_spec, (testbit_small m 32).
Qed.

(** ** Counting *)
Lemma popcount_range m : 0 ≤ popcount m ≤ 32.
Proof.
  unfold popcount, mask_bits. pose proof (length_filter (λ i, Z.testbit m i = true) (seqZ 0 32)).
  rewrite length_seqZ in *. lia.
Qed.
Lemma popcount_add m m' j :
  0 ≤ j < 32 → Z.testbit m j = false →
  (∀ i, Z.testbit m' i = Z.testbit m i || bool_decide (i = j)) → popcount m' = popcount m + 1.
Proof.
  intros Hj Hm H. unfold popcount.
  rewrite (Permutation_length (l':=j :: mask_bits m)); [simpl; lia|].
  apply NoDup_Permutation; [apply mask_bits_NoDup| |].
  - constructor; [|apply mask_bits_NoDup]. rewrite elem_of_mask_bits, Hm. by intros [].
  - intros i. rewrite elem_of_cons, !elem_of_mask_bits, H, orb_true_iff, bool_decide_eq_true.
    intuition (subst; auto; lia).
Qed.
Lemma popcount_set m j :
  0 ≤ j < 32 → Z.testbit m j = false → popcount (Z.lor m (bit1 j)) = popcount m + 1.
Proof. intros Hj Hm. apply (popcount_add m _ j); [done..|]. intros i. apply lor_bit. lia. Qed.
Lemma popcount_clear m j :
  in_mask m → 0 ≤ j < 32 → Z.testbit m j = true →
  popcount (Z.land m (FULL - bit1 j)) = popcount m - 1.
Proof.
  intros Hm Hj Hb. rewrite (popcount_add (Z.land m (FULL - bit1 j)) m j); [lia|done|..].
  - rewrite land_bit, bool_decide_true by done. apply andb_false_r.
  - intros i. rewrite land_bit by done. case_bool_decide; subst; simpl.
    + by rewrite orb_true_r, Hb.
    + by rewrite andb_true_r, orb_false_r.
Qed.
Lemma popcount_0 m : in_mask m → popcount m = 0 ↔ m = 0.
Proof.
  intros Hm. split; [|by intros ->]. intros Hp. apply mask_zero; [done|]. intros i Hi.
  destruct (Z.testbit m i) eqn:E; [|done]. exfalso.
  assert (i ∈ mask_bits m) as Hin by (by apply elem_of_mask_bits).
  unfold popcount in Hp. destruct (mask_bits m); [set_solver|]. simpl in Hp. lia.
Qed.
(** [k] bits from the lowest. *)
Lemma low_bits k i : 0 ≤ k ≤ 32 → Z.testbit (2 ^ k - 1) i = bool_decide (0 ≤ i < k).
Proof.
  intros Hk. rewrite Z.sub_1_r, <-Z.ones_equiv. case_bool_decide.
  - by apply Z.ones_spec_low.
  - destruct (decide (i < 0)); [by apply Z.testbit_neg_r|]. apply Z.ones_spec_high; lia.
Qed.
Lemma low_mask k : 0 ≤ k ≤ 32 → in_mask (2 ^ k - 1).
Proof.
  intros Hk. split.
  - assert (0 < 2 ^ k) by (apply Z.pow_pos_nonneg; lia). lia.
  - assert (2 ^ k ≤ 2 ^ 32) by (apply Z.pow_le_mono_r; lia). lia.
Qed.
Lemma popcount_low k : 0 ≤ k ≤ 32 → popcount (2 ^ k - 1) = k.
Proof.
  intros Hk. assert (k ∈ seqZ 0 33) as Hin by (apply elem_of_seqZ; lia).
  assert (Forall (λ k, popcount (2 ^ k - 1) = k) (seqZ 0 33)) as H.
  { repeat constructor. }
  by eapply Forall_forall in H.
Qed.
(** A mask whose bits are closed downwards is an initial segment. *)
Lemma contiguous m :
  in_mask m → m ≠ 0 → Z.lor m (Z.shiftr m 1) = m →
  m = 2 ^ popcount m - 1 ∧ 0 < popcount m.
Proof.
  intros Hm Hne Hc.
  assert (0 ≤ Z.log2 m) as Hlog by apply Z.log2_nonneg.
  assert (Z.log2 m < 32) by (apply Z.log2_lt_pow2; unfold in_mask in Hm; lia).
  assert (∀ d, 0 ≤ d → d ≤ Z.log2 m → Z.testbit m (Z.log2 m - d) = true) as Hdown.
  { intros d. apply (natlike_ind (λ d, d ≤ Z.log2 m → Z.testbit m (Z.log2 m - d) = true)).
    - intros _. rewrite Z.sub_0_r. apply Z.bit_log2. unfold in_mask in Hm. lia.
    - intros x Hx IH Hle.
      pose proof (f_equal (λ z, Z.testbit z (Z.log2 m - Z.succ x)) Hc) as Hb. cbn beta in Hb.
      rewrite Z.lor_spec, Z.shiftr_spec in Hb by lia.
      replace (Z.log2 m - Z.succ x + 1) with (Z.log2 m - x) in Hb by lia.
      rewrite IH, orb_true_r in Hb by lia. done. }
  assert (m = 2 ^ (Z.log2 m + 1) - 1) as Heq.
  { apply mask_ext; [done|apply low_mask; lia|]. intros i Hi. rewrite low_bits by lia.
    case_bool_decide.
    - replace i with (Z.log2 m - (Z.log2 m - i)) by lia. apply Hdown; lia.
    - apply Z.bits_above_log2; unfold in_mask in Hm; lia. }
  assert (popcount m = Z.log2 m + 1) as Hp by (rewrite Heq at 1; apply popcount_low; lia).
  rewrite Hp. split; [done|lia].
Qed.

(** ** Entries *)
Definition in_ent e (i : Z) : Prop :=
  covers e i ∧ (e_idx e + 32 ≤ i ∨ Z.testbit (e_mask e) (i - e_idx e) = true).
Definition in_set A (i : Z) : Prop := Exists (λ e, in_ent e i) A.
Definition cnt e : Z := e_num e + popcount (e_mask e).
Definition total A : Z := foldr (λ e z, cnt e + z) 0 A.

Lemma in_set_app A B i : in_set (A ++ B) i ↔ in_set A i ∨ in_set B i.
Proof. apply Exists_app. Qed.
Lemma in_set_cons e A i : in_set (e :: A) i ↔ in_ent e i ∨ in_set A i.
Proof. apply Exists_cons. Qed.
Lemma in_set_nil i : in_set [] i ↔ False.
Proof. apply Exists_nil. Qed.
Lemma bits_total_app A B : total (A ++ B) = total A + total B.
Proof. induction A as [|e A IH]; simpl; [done|]. lia. Qed.
Lemma cnt_range e : ok_ent e → 0 ≤ cnt e ≤ e_lim e - e_idx e.
Proof.
  intros (? & ? & ? & ? & ?). unfold cnt, e_lim. pose proof (popcount_range (e_mask e)). lia.
Qed.
Lemma wf_0 b A : wf_from b A → wf_from 0 A.
Proof. destruct A; [done|]. intros (Ho & _ & Hw). split_and!; try done. apply Ho. Qed.
Lemma lim_le b A : wf_from b A → b ≤ 2 ^ 64 → lim b A ≤ 2 ^ 64.
Proof.
  intros Hw Hb. destruct A as [|e A _] using rev_ind; [done|]. rewrite lim_snoc.
  apply wf_app in Hw as [_ (Ho & _)]. apply Ho.
Qed.
Lemma total_range_from b A : wf_from b A → 0 ≤ total A ≤ lim b A - b.
Proof.
  revert b. induction A as [|e A IH]; intros b; simpl; [lia|].
  intros (Ho & ? & Hw%IH). apply cnt_range in Ho. lia.
Qed.
Lemma total_range b A : wf_from b A → 0 ≤ total A ≤ 2 ^ 64.
Proof.
  intros Hw%wf_0. pose proof (total_range_from 0 A Hw). pose proof (lim_le 0 A Hw). lia.
Qed.
Lemma in_ent_lim e i : in_ent e i → e_idx e ≤ i < e_lim e.
Proof. by intros [? _]. Qed.
Lemma in_set_lim b A i : wf_from b A → in_set A i → b ≤ i < lim b A.
Proof.
  intros Hw (e & He & Hi%in_ent_lim)%Exists_exists.
  destruct (wf_elem b A e Hw He) as (_ & ? & ?). lia.
Qed.
Lemma in_ent_empty e i : e_mask e = 0 → e_num e = 0 → in_ent e i ↔ False.
Proof.
  intros Hm Hn. unfold in_ent, covers, e_lim. rewrite Hm, Hn, Z.testbit_0_l. split; [|done].
  intros [? [?|?]]; [lia|done].
Qed.
Lemma cnt_empty e : e_mask e = 0 → e_num e = 0 → cnt e = 0.
Proof. intros Hm Hn. unfold cnt. by rewrite Hm, Hn. Qed.

(** The first index after the highest bit that is set. *)
Definition e_top e : Z := if e_num e =? 0 then e_idx e + Z.log2 (e_mask e) + 1 else e_lim e.
Lemma top_le_lim e : ok_ent e → e_idx e < e_top e ≤ e_lim e.
Proof.
  intros (? & ? & ? & ? & Hm). unfold e_top, e_lim in *. pose proof (Z.log2_nonneg (e_mask e)).
  destruct (Z.eqb_spec (e_num e) 0); [|lia]. destruct (decide (e_mask e = 0)) as [Heq|].
  - rewrite Heq in *. change (Z.log2 0) with 0 in *. lia.
  - assert (Z.log2 (e_mask e) < 32) by (apply Z.log2_lt_pow2; lia). lia.
Qed.

(** Valid sequences: masks are not 0, and a full one does not follow a bit that
    is set. *)
Fixpoint valid_from (b t : Z) A : Prop :=
  match A with
  | [] => True
  | e :: A' => ok_ent e ∧ b ≤ e_idx e ∧ e_mask e ≠ 0 ∧ (e_mask e = FULL → t ≠ e_idx e) ∧
               valid_from (e_lim e) (e_top e) A'
  end.
Definition valid A : Prop := valid_from (-1) (-1) A.
Definition top (t : Z) A : Z := foldl (λ _ e, e_top e) t A.

Lemma top_snoc t A e : top t (A ++ [e]) = e_top e.
Proof. unfold top. by rewrite foldl_snoc. Qed.
Lemma valid_wf b t A : valid_from b t A → wf_from b A.
Proof.
  revert b t. induction A as [|e A IH]; intros b t; simpl; [done|].
  intros (? & ? & _ & _ & ?). eauto.
Qed.
Lemma valid_app b t A B :
  valid_from b t (A ++ B) ↔ valid_from b t A ∧ valid_from (lim b A) (top t A) B.
Proof. revert b t. induction A as [|e A IH]; intros b t; simpl; [tauto|]. rewrite IH. tauto. Qed.
Lemma valid_weaken b t A : valid_from b t A → valid A.
Proof.
  destruct A as [|e A]; [done|]. intros (Ho & ? & ? & Hf & ?).
  pose proof Ho as (? & _). split_and!; try done; lia.
Qed.
Lemma valid_suffix A B : valid (A ++ B) → valid B.
Proof. intros [Hv Hb]%valid_app. by eapply valid_weaken. Qed.
Lemma valid_prefix A B : valid (A ++ B) → valid A.
Proof. by intros [? _]%valid_app. Qed.
Lemma valid_elem b t A e : valid_from b t A → e ∈ A → e_mask e ≠ 0.
Proof.
  intros Hv [A1 [A2 ->]]%list_elem_of_split. apply valid_app in Hv as (_ & _ & _ & ? & _). done.
Qed.
Lemma top_lim A : valid A → top (-1) A ≤ lim (-1) A.
Proof.
  destruct A as [|e A _] using rev_ind; [done|]. rewrite top_snoc, lim_snoc.
  intros [_ (Ho & _)]%valid_app. by apply top_le_lim.
Qed.

(** [k] bits from [i]. *)
Definition run_ent (p : nat) (i k : Z) : ent :=
  if 32 <=? k then Ent p i (k - 32) FULL else Ent p i 0 (2 ^ k - 1).
Lemma run_idx p i k : e_idx (run_ent p i k) = i.
Proof. unfold run_ent. by destruct (32 <=? k). Qed.
Lemma run_addr p i k : addr (run_ent p i k) = p.
Proof. unfold run_ent. by destruct (32 <=? k). Qed.
Lemma run_lim p i k : e_lim (run_ent p i k) = i + Z.max 32 k.
Proof. unfold run_ent, e_lim. destruct (Z.leb_spec 32 k); simpl; lia. Qed.
Lemma run_cnt p i k : 0 ≤ k → cnt (run_ent p i k) = k.
Proof.
  intros Hk. unfold run_ent, cnt. destruct (Z.leb_spec 32 k); cbn [e_num e_mask].
  - change (popcount FULL) with 32. lia.
  - rewrite popcount_low; lia.
Qed.
Lemma run_mask p i k : 0 < k → e_mask (run_ent p i k) ≠ 0 ∧ in_mask (e_mask (run_ent p i k)).
Proof.
  intros Hk. unfold run_ent. destruct (Z.leb_spec 32 k); cbn [e_mask]; [done|].
  split; [|apply low_mask; lia]. assert (2 ^ 1 ≤ 2 ^ k) by (apply Z.pow_le_mono_r; lia). lia.
Qed.
Lemma run_bits p i k j : 0 ≤ k → in_ent (run_ent p i k) j ↔ i ≤ j < i + k.
Proof.
  intros Hk. unfold in_ent, covers. rewrite run_lim, run_idx. unfold run_ent.
  destruct (Z.leb_spec 32 k); cbn [e_mask].
  - rewrite FULL_bits, bool_decide_eq_true. lia.
  - rewrite low_bits, bool_decide_eq_true by lia. lia.
Qed.
Lemma run_ok p i k :
  0 ≤ i → i mod 32 = 0 → 0 < k → i + k ≤ 2 ^ 64 → ok_ent (run_ent p i k).
Proof.
  intros Hi Hm Hk Hl. pose proof (run_mask p i k Hk) as [_ Hmask]. unfold ok_ent.
  rewrite run_lim, run_idx. split_and!; try done; [| |apply Hmask..].
  - unfold run_ent. destruct (Z.leb_spec 32 k); cbn [e_num]; lia.
  - assert (i + 32 ≤ 2 ^ 64) by (apply aligned_lt; [done..|lia]). lia.
Qed.
Lemma run_top p i k : 0 < k → e_top (run_ent p i k) = i + k.
Proof.
  intros Hk. unfold e_top. rewrite run_lim, run_idx. unfold run_ent.
  destruct (Z.leb_spec 32 k); cbn [e_num e_mask].
  - change (Z.log2 FULL) with 31. destruct (Z.eqb_spec (k - 32) 0); lia.
  - simpl. rewrite Z.sub_1_r, Z.log2_pred_pow2 by lia. lia.
Qed.
