(* ===== verification/SparsebitReduce.v ===== *)
(** * selftests: splitting and reducing the sparse bit array

    [node_split] keeps the set of bits; [node_reduce], called with the node
    next to every violation, keeps it too, terminates, and leaves a valid
    sequence. *)

From S2P Require Import Prelude Sparsebit SparsebitOps SparsebitTree SparsebitSearch SparsebitBits.

Lemma partition_unique {X} (P : X → Prop) (A1 A2 B1 B2 : list X) :
  A1 ++ A2 = B1 ++ B2 → (∀ x, x ∈ A1 → P x) → (∀ x, x ∈ A2 → ¬ P x) →
  (∀ x, x ∈ B1 → P x) → (∀ x, x ∈ B2 → ¬ P x) → A1 = B1 ∧ A2 = B2.
Proof.
  intros [(k & -> & ->)|(k & -> & ->)]%app_eq_inv HA1 HA2 HB1 HB2;
    (destruct k as [|y k]; [by rewrite app_nil_r|exfalso]).
  - apply (HB2 y); [set_solver|]. apply HA1. set_solver.
  - apply (HA2 y); [set_solver|]. apply HB1. set_solver.
Qed.

Implicit Types (e x q : ent) (A B : list ent) (s : sparsebit).

(** ** Membership of one bit *)
Lemma covers_unique b A B e i x :
  wf_from b (A ++ e :: B) → covers e i → x ∈ A ++ e :: B → covers x i → x = e.
Proof.
  intros Hw [He1 He2] Hx [Hx1 Hx2]. apply wf_app in Hw as [HA (Ho & Hi & HB)].
  apply elem_of_app in Hx as [Hx|[->|Hx]%elem_of_cons]; [|done|].
  - destruct (wf_elem _ _ _ HA Hx) as (_ & _ & ?). lia.
  - destruct (wf_elem _ _ _ HB Hx) as (_ & ? & _). lia.
Qed.
Lemma in_set_at b A B e i :
  wf_from b (A ++ e :: B) → covers e i → in_set (A ++ e :: B) i ↔ in_ent e i.
Proof.
  intros Hw He. unfold in_set. rewrite Exists_exists. split; [|intros; exists e; set_solver].
  intros (x & Hx & Hi). by rewrite (covers_unique b A B e i x Hw He Hx (proj1 Hi)) in Hi.
Qed.
Lemma wp_is_set A n i (Φ : bool → sparsebit → Prop) s b :
  st s A n → wf_from b A → in_u64 i →
  (∀ r : bool, (r = true ↔ in_set A i) → Φ r s) → wp (sparsebit_is_set i) Φ s.
Proof.
  intros Hst Hw Hi HΦ. unfold sparsebit_is_set. wps.
  eapply (wp_node_find A n i); [done..| |].
  - intros A1 e A2 HA [Hc1 Hc2]. wps. subst A. eapply (wp_load_st A1 e); [done|]. intros.
    cbn [mk num_after idx mask].
    assert (ok_ent e) as Ho by (by apply wf_app in Hw as [_ (? & _)]).
    destruct Ho as (H1 & H2 & H3 & H4 & H5). unfold e_lim, in_u64 in *.
    assert (in_set (A1 ++ e :: A2) i ↔ in_ent e i) as Hat by (by eapply in_set_at).
    destruct (decide (e_idx e + 32 ≤ i)).
    + unfold MASK_BITS. rewrite u64_small by (unfold in_u64; lia).
      destruct (Z.eqb_spec (e_num e) 0); [lia|]. destruct (Z.leb_spec (e_idx e + 32) i); [|lia].
      simpl. wps. apply HΦ. rewrite Hat. split; [|done]. intros _. split; [split; [|unfold e_lim]; lia|lia].
    + assert (negb (e_num e =? 0) && (u64 (e_idx e + MASK_BITS) <=? i) = false) as ->.
      { apply andb_false_iff. destruct (Z.eqb_spec (e_num e) 0); [by left|right].
        unfold MASK_BITS. rewrite u64_small by (unfold in_u64; lia). apply Z.leb_gt. lia. }
      wps. apply owp_assert.
      { rewrite u64_small by (unfold in_u64; lia). apply andb_true_iff.
        unfold MASK_BITS. rewrite Z.leb_le, Z.ltb_lt. lia. }
      wps. apply HΦ. rewrite has_bit_spec by lia. rewrite Hat. unfold in_ent, covers, e_lim.
      split; [intros; split; [lia|by right]|]. intros [_ [?|?]]; [lia|done].
  - intros Hno. wps. apply HΦ. split; [done|].
    intros (e & He & Hi')%Exists_exists. destruct (Hno e He). apply Hi'.
Qed.

(** ** Splitting *)
Definition cut_ent x (i : Z) : ent := Ent (addr x) (e_idx x) (i - e_idx x - 32) (e_mask x).
Definition rest_ent (p : nat) x (i : Z) : ent := run_ent p i (e_lim x - i).

Lemma cut_lim x i : e_lim (cut_ent x i) = i.
Proof. unfold cut_ent, e_lim. simpl. lia. Qed.
Lemma cut_ok x i : ok_ent x → e_idx x + 32 ≤ i < e_lim x → ok_ent (cut_ent x i).
Proof.
  intros (? & ? & ? & ? & ?) ?. unfold ok_ent. rewrite cut_lim. cbn [cut_ent e_idx e_num e_mask].
  split_and!; try done; lia.
Qed.
Lemma cut_rest_bits p x i j :
  e_idx x + 32 ≤ i < e_lim x →
  in_ent (cut_ent x i) j ∨ in_ent (rest_ent p x i) j ↔ in_ent x j.
Proof.
  intros Hi. unfold rest_ent. rewrite run_bits by lia. unfold in_ent, covers.
  rewrite cut_lim. cbn [cut_ent e_idx e_mask]. split.
  - intros [[? ?]|?]; (split; [lia|]); [tauto|left; lia].
  - intros [? Hj]. destruct (decide (j < i)); [left|right; lia]. split; [lia|done].
Qed.
Lemma cut_rest_cnt p x i :
  e_idx x + 32 ≤ i < e_lim x → cnt (cut_ent x i) + cnt (rest_ent p x i) = cnt x.
Proof.
  intros Hi. unfold rest_ent. rewrite run_cnt by lia. unfold cnt, cut_ent, e_lim in *. simpl. lia.
Qed.

(** The second node of a split gets the bits behind the cut. *)
Lemma wp_put_rest A1 x A2 n i p (Φ : unit → sparsebit → Prop) s :
  ok_ent x → e_idx x + 32 ≤ i < e_lim x → st s (A1 ++ cut_ent x i :: Ent p i 0 0 :: A2) n →
  (∀ s', st s' (A1 ++ cut_ent x i :: rest_ent p x i :: A2) n → Φ tt s') →
  let k := e_lim x - i in
  wp (if 32 <=? k then upd p (λ n, set_num_after (u64 (k - 32)) (set_mask FULL n))
      else upd p (λ n, set_num_after 0 (set_mask (u32 (bit1 k - 1)) n))) Φ s.
Proof.
  intros (H1 & H2 & H3 & H4 & H5) Hi Hst HΦ k. unfold k, e_lim in *.
  rewrite cons_middle, app_assoc in Hst. unfold rest_ent, run_ent, e_lim in HΦ.
  destruct (Z.leb_spec 32 (e_idx x + 32 + e_num x - i)).
  - eapply (wp_upd_st (A1 ++ [cut_ent x i]) (Ent p i 0 0) A2 n _ (Ent p i (e_idx x + 32 + e_num x - i - 32) FULL));
      [done|intros; unfold mk; simpl|done|].
    + by rewrite u64_small by (unfold in_u64; lia).
    + intros s3. rewrite <-app_assoc. apply HΦ.
  - eapply (wp_upd_st (A1 ++ [cut_ent x i]) (Ent p i 0 0) A2 n _ (Ent p i 0 (2 ^ (e_idx x + 32 + e_num x - i) - 1)));
      [done|intros; unfold mk; simpl|done|].
    + unfold bit1. rewrite Z.shiftl_1_l, u32_small; [done|]. apply (low_mask (e_idx x + 32 + e_num x - i)). lia.
    + intros s3. rewrite <-app_assoc. apply HΦ.
Qed.
(** The new node goes right behind the node that was cut. *)
Lemma cut_place b A1 x A2 i B1 B2 :
  wf_from b (A1 ++ x :: A2) → e_idx x + 32 ≤ i < e_lim x → A1 ++ cut_ent x i :: A2 = B1 ++ B2 →
  wf_from b (A1 ++ cut_ent x i :: A2) → lim b B1 ≤ i → wf_from (i + 32) B2 →
  B1 = A1 ++ [cut_ent x i] ∧ B2 = A2.
Proof.
  intros [HA1 (Ho & Hx & HA2)]%wf_app Hi HB Hw1 HlB HwB2. apply (partition_unique (λ y, e_idx y < i)).
  - by rewrite <-HB, <-app_assoc.
  - intros y Hy. rewrite HB, wf_app in Hw1. destruct Hw1 as [HwB1 _].
    destruct (wf_elem _ _ _ HwB1 Hy) as (Hoy%ok_lim & _ & ?). lia.
  - intros y Hy. destruct (wf_elem _ _ _ HwB2 Hy) as (_ & ? & _). lia.
  - intros y [Hy|Hy%list_elem_of_singleton]%elem_of_app.
    + destruct (wf_elem _ _ _ HA1 Hy) as (Hoy%ok_lim & _ & ?). lia.
    + subst y. simpl. lia.
  - intros y Hy. destruct (wf_elem _ _ _ HA2 Hy) as (_ & ? & _). lia.
Qed.
Lemma wp_node_split A n i (Φ : nat → sparsebit → Prop) s b :
  st s A n → wf_from b A → b ≤ i → in_u64 i → i mod 32 = 0 →
  (∀ s' p A1 A2, A = A1 ++ A2 → lim b A1 ≤ i → wf_from (i + 32) A2 →
    st s' (A1 ++ Ent p i 0 0 :: A2) n → Φ p s') →
  (∀ A1 e A2, A = A1 ++ e :: A2 → e_idx e = i → Φ (addr e) s) →
  (∀ s' p A1 x A2, A = A1 ++ x :: A2 → e_idx x + 32 ≤ i < e_lim x →
    st s' (A1 ++ cut_ent x i :: rest_ent p x i :: A2) n → Φ p s') →
  wp (node_split i) Φ s.
Proof.
  intros Hst Hw Hb Hi Hm Hadd Hat Hcut. unfold node_split. wps. apply owp_assert.
  { unfold MASK_BITS. by rewrite Hm. }
  wps. eapply (wp_node_find A n i); [done..| |].
  - intros A1 x A2 HA Hc. wps. subst A. eapply (wp_load_st A1 x); [done|]. intros.
    pose proof Hw as [HA1 (Ho & Hx & HA2)]%wf_app.
    cbn [mk idx]. destruct (Z.eqb_spec (e_idx x) i); [wps; by eapply Hat|].
    assert (e_idx x + 32 ≤ i) as Hge.
    { unfold covers in Hc. apply aligned_lt; [apply Ho|done|lia]. }
    unfold in_u64 in Hi. destruct Hc as [_ Hlim]. pose proof Ho as (H1 & H2 & H3 & H4 & H5).
    cbn [num_after]. unfold MASK_BITS. rewrite (u64_small (e_idx x + 32)) by (unfold in_u64; lia).
    rewrite (u64_small (i - _)) by (unfold in_u64; lia).
    replace (i - (e_idx x + 32)) with (i - e_idx x - 32) by lia.
    wps. eapply (wp_upd_st A1 x A2 n _ (cut_ent x i)); [done|done|done|]. intros s1 Hst1.
    assert (ok_ent (cut_ent x i)) as Hok by (by apply cut_ok).
    assert (wf_from b (A1 ++ cut_ent x i :: A2)) as Hw1.
    { apply wf_app. split; [done|]. split_and!; try done. rewrite cut_lim.
      eapply wf_mono; [|done]. lia. }
    wps. eapply (wp_node_add _ n i _ _ b Hst1 Hw1); [done..| |].
    { intros y [Hy|[->|Hy]%elem_of_cons]%elem_of_app [Hy1 Hy2].
      - destruct (wf_elem _ _ _ HA1 Hy) as (_ & _ & ?). lia.
      - rewrite cut_lim in Hy2. lia.
      - destruct (wf_elem _ _ _ HA2 Hy) as (_ & ? & _). lia. }
    intros s2 p B1 B2 HB HlB HwB2 Hst2.
    destruct (cut_place b A1 x A2 i B1 B2) as [-> ->]; [by apply wf_app|done..|].
    rewrite <-app_assoc in Hst2.
    cbn beta zeta. cbn [mk num_after]. set (k := e_lim x - i).
    assert (u64 (e_num x - (i - e_idx x - 32)) = k) as ->.
    { unfold k, e_lim in *. rewrite u64_small by (unfold in_u64; lia). lia. }
    wps. eapply (wp_put_rest A1 x A2 n i p); [done..|]. intros s3 Hst3. wps. by eapply Hcut.
  - intros Hno. wps. by eapply wp_node_add.
Qed.

(** ** Reducing

    [RI A e B]: everything is in order but for the node [e] in focus and an
    empty node that may follow it. *)
Definition empty_ent e : Prop := e_mask e = 0 ∧ e_num e = 0.
#[global] Instance empty_ent_dec e : Decision (empty_ent e).
Proof. apply and_dec; apply _. Defined.
(** How [e] follows [A] and precedes [B]. *)
Definition fits A e B : Prop :=
  (empty_ent e ∧ wf_from (lim (-1) A) B) ∨
  (e_mask e = 0 ∧ e_num e ≠ 0 ∧ lim (-1) A < e_idx e + 32 ∧ wf_from (e_lim e) B) ∨
  (e_mask e ≠ 0 ∧ lim (-1) A ≤ e_idx e ∧ wf_from (e_lim e) B).
Definition RI A e B : Prop :=
  valid A ∧ ok_ent e ∧ fits A e B ∧
  (valid B ∨ ∃ x B', B = x :: B' ∧ empty_ent x ∧ valid B').

(** The measure: three for every node, and what the node in focus may still
    need. *)
Definition phase A e : nat :=
  if decide (e_mask e = 0) then (if decide (e_num e = 0) then 0 else 1)
  else if decide (lim (-1) A = e_idx e) then 2 else 0.
Definition measure A e B : nat := 3 * length (A ++ e :: B) + phase A e.
Lemma phase_le A e : (phase A e ≤ 2)%nat.
Proof. unfold phase. repeat case_decide; lia. Qed.

Definition reduced A e B A' e' B' : Prop :=
  RI A' e' B' ∧ (∀ i, in_set (A' ++ e' :: B') i ↔ in_set (A ++ e :: B) i) ∧
  total (A' ++ e' :: B') = total (A ++ e :: B) ∧ (measure A' e' B' < measure A e B)%nat.

Lemma is_empty_spec e par lc rc : is_empty (mk par lc rc e) = bool_decide (empty_ent e).
Proof.
  unfold is_empty, empty_ent. cbn [mk mask num_after].
  destruct (Z.eqb_spec (e_mask e) 0), (Z.eqb_spec (e_num e) 0); simpl;
    symmetry; first [by apply bool_decide_eq_true_2|apply bool_decide_eq_false_2; tauto].
Qed.
Lemma sub_zero n : in_u64 n → u64 (n - u64 (0 + popcount 0)) = n.
Proof. intros Hn. change (u64 (0 + popcount 0)) with 0. rewrite Z.sub_0_r. by apply u64_small. Qed.
Lemma wp_rm_empty A e B n (Φ : unit → sparsebit → Prop) s :
  st s (A ++ e :: B) n → in_u64 n → empty_ent e → (∀ s', st s' (A ++ B) n → Φ tt s') →
  wp (node_rm (addr e)) Φ s.
Proof.
  intros Hst Hn [Hm Hk] HΦ. eapply wp_node_rm; [done| |].
  - left. rewrite Hm, Hk. change (u64 (0 + popcount 0)) with 0. apply Hn.
  - rewrite Hm, Hk, sub_zero by done. done.
Qed.
Lemma head_wf b x B : wf_from b (x :: B) → ok_ent x ∧ b ≤ e_idx x ∧ wf_from (e_lim x) B.
Proof. done. Qed.

(** *** The node in focus is empty: it is removed *)
Lemma reduced_next A e x B :
  RI A e (x :: B) → empty_ent e → reduced A e (x :: B) A x B.
Proof.
  intros (HA & Ho & Hfit & HB) He.
  assert (wf_from (lim (-1) A) (x :: B)) as (Hox & Hx & Hw).
  { destruct Hfit as [[_ ?]|[(_ & Hn & _)|(Hm & _)]]; [done|by destruct He|by destruct He]. }
  split; [|split_and!].
  - split_and!; [done|done| |].
    + destruct HB as [Hv|(y & B' & [= <- <-] & Hy & Hv)].
      * right. right. split_and!; [apply Hv|done..].
      * left. split; [done|]. eapply wf_mono; [|done]. apply ok_lim in Hox. lia.
    + left. destruct HB as [Hv|(y & B' & [= <- <-] & Hy & Hv)]; [|done].
      by apply (valid_suffix [x]).
  - intros i. rewrite !in_set_app, !in_set_cons, (in_ent_empty e) by apply He. tauto.
  - rewrite !bits_total_app. simpl. rewrite (cnt_empty e) by apply He. lia.
  - unfold measure. rewrite !length_app. simpl. pose proof (phase_le A x). lia.
Qed.
Lemma reduced_prev A q e :
  RI (A ++ [q]) e [] → empty_ent e → reduced (A ++ [q]) e [] A q [].
Proof.
  intros (HA & Ho & Hfit & HB) He. apply valid_app in HA as [HA (Hoq & Hq & Hm & _)].
  split; [|split_and!].
  - split_and!; [done|done| |by left]. right. right. done.
  - intros i. rewrite <-app_assoc, !in_set_app, !in_set_cons, (in_ent_empty e) by apply He.
    rewrite !in_set_nil. tauto.
  - rewrite <-app_assoc, !bits_total_app. simpl. rewrite (cnt_empty e) by apply He. lia.
  - unfold measure. rewrite !length_app. simpl. pose proof (phase_le A q).
    lia.
Qed.

(** *** The mask is empty: bits after it are moved into it *)
Definition shift_ent e : ent := run_ent (addr e) (e_idx e + 32) (e_num e).
Lemma reduced_shift A e B :
  RI A e B → e_mask e = 0 → e_num e ≠ 0 → reduced A e B A (shift_ent e) B.
Proof.
  intros (HA & Ho & Hfit & HB) Hm Hn. pose proof Ho as (H1 & H2 & H3 & H4 & H5).
  unfold e_lim in H4.
  assert (lim (-1) A < e_idx e + 32 ∧ wf_from (e_lim e) B) as [Hl Hw].
  { destruct Hfit as [[[_ ?] _]|[(_ & _ & ? & ?)|(? & _)]]; done. }
  assert ((e_idx e + 32) mod 32 = 0) as Hal.
  { rewrite <-Z.add_mod_idemp_r by done. change (32 mod 32) with 0. by rewrite Z.add_0_r. }
  assert (ok_ent (shift_ent e)) as Hok by (apply run_ok; [lia|done|lia|lia]).
  assert (e_mask (shift_ent e) ≠ 0) as Hm' by (apply run_mask; lia).
  split; [|split_and!].
  - split_and!; [done|done| |done]. right. right. split; [done|].
    unfold shift_ent at 1. rewrite run_idx. split; [lia|].
    destruct B as [|y B]; [done|]. destruct Hw as (Hoy & Hy & Hw). split_and!; try done.
    unfold shift_ent. rewrite run_lim. unfold e_lim in Hy.
    assert (e_idx e + 32 + 32 ≤ e_idx y) by (apply aligned_lt; [done|apply Hoy|lia]). lia.
  - intros i. rewrite !in_set_app, !in_set_cons.
    assert (in_ent (shift_ent e) i ↔ in_ent e i) as ->; [|done].
    unfold shift_ent. rewrite run_bits by done. unfold in_ent, covers, e_lim.
    rewrite Hm, Z.testbit_0_l. split; [intros; split; [lia|left; lia]|]. intros [? [?|?]]; [lia|done].
  - rewrite !bits_total_app. simpl. unfold shift_ent. rewrite run_cnt by done. unfold cnt.
    rewrite Hm. change (popcount 0) with 0. lia.
  - unfold measure, phase. rewrite !length_app. simpl.
    rewrite !(decide_True _ _ Hm), !(decide_False _ _ Hn), (decide_False _ _ Hm').
    unfold shift_ent. rewrite run_idx, decide_False by lia. lia.
Qed.

(** *** Bits are moved to the end of the previous or current node *)
Definition grow_ent q (k : Z) : ent := Ent (addr q) (e_idx q) (e_num q + k) (e_mask q).
Lemma grow_lim q k : e_lim (grow_ent q k) = e_lim q + k.
Proof. unfold grow_ent, e_lim. simpl. lia. Qed.
Lemma grow_ok q k : ok_ent q → 0 ≤ k → e_lim q + k ≤ 2 ^ 64 → ok_ent (grow_ent q k).
Proof.
  intros (? & ? & ? & ? & ?) ? ?. unfold ok_ent. rewrite grow_lim.
  cbn [grow_ent e_idx e_num e_mask]. split_and!; try done; lia.
Qed.
Lemma grow_cnt q k : cnt (grow_ent q k) = cnt q + k.
Proof. unfold cnt, grow_ent. simpl. lia. Qed.
Lemma grow_bits q k i :
  ok_ent q → 0 ≤ k → in_ent (grow_ent q k) i ↔ in_ent q i ∨ e_lim q ≤ i < e_lim q + k.
Proof.
  intros Ho%ok_lim Hk. unfold in_ent, covers. rewrite grow_lim. cbn [grow_ent e_idx e_mask].
  split.
  - intros [? ?]. destruct (decide (i < e_lim q)); [left; split; [lia|done]|right; lia].
  - intros [[? ?]|?]; (split; [lia|]); [done|left; lia].
Qed.
Lemma valid_grow A q k :
  valid (A ++ [q]) → 0 ≤ k → e_lim q + k ≤ 2 ^ 64 → valid (A ++ [grow_ent q k]).
Proof.
  intros [HA (Ho & Hi & Hm & Hf & _)]%valid_app Hk Hl. apply valid_app. split; [done|].
  split_and!; try done. by apply grow_ok.
Qed.
Lemma in_mask_range e i : ok_ent e → Z.testbit (e_mask e) (i - e_idx e) = true → covers e i.
Proof.
  intros Ho Hb. destruct Ho as (? & ? & ? & ? & Hm). apply testbit_range in Hb; [|done].
  unfold covers, e_lim. lia.
Qed.

Lemma RI_prev A q e B :
  RI (A ++ [q]) e B → e_mask e ≠ 0 → e_lim q ≤ e_idx e ∧ wf_from (e_lim e) B.
Proof.
  intros (_ & _ & Hfit & _) Hm. rewrite <-(lim_snoc (-1) A q).
  by destruct Hfit as [[[? _] _]|[(? & _)|(_ & ? & ?)]].
Qed.
Lemma reduced_full_prev A q e B :
  RI (A ++ [q]) e B → e_mask e = FULL → e_lim q = e_idx e →
  reduced (A ++ [q]) e B (A ++ [grow_ent q (32 + e_num e)]) (Ent (addr e) (e_idx e) 0 0) B.
Proof.
  intros HRI Hm Hl. pose proof HRI as (HA & Ho & _ & HB).
  destruct (RI_prev A q e B HRI) as [_ Hw]; [by rewrite Hm|].
  pose proof Ho as (H1 & H2 & H3 & H4 & H5). unfold e_lim in H4.
  assert (ok_ent q) as Hoq by (by apply valid_app in HA as [_ (? & _)]).
  split; [|split_and!].
  - split; [apply valid_grow; [done|lia|lia]|]. split_and!; [| |done].
    + unfold ok_ent, e_lim. cbn [e_idx e_num e_mask]. split_and!; try done; lia.
    + left. split; [done|]. rewrite lim_snoc, grow_lim. unfold e_lim in Hw at 1.
      by rewrite Hl, Z.add_assoc.
  - intros i. rewrite <-!app_assoc. simpl. rewrite !in_set_app, !in_set_cons, grow_bits by (done || lia).
    rewrite (in_ent_empty (Ent _ _ _ _)) by done. assert (in_ent e i ↔ e_lim q ≤ i < e_lim q + (32 + e_num e)); [|tauto].
    rewrite Hl. unfold in_ent, covers, e_lim. rewrite Hm, FULL_bits, bool_decide_eq_true. lia.
  - rewrite <-!app_assoc, !bits_total_app. simpl. rewrite grow_cnt. unfold cnt. rewrite Hm.
    cbn [e_num e_mask]. change (popcount FULL) with 32. change (popcount 0) with 0. lia.
  - unfold measure, phase. rewrite !length_app. cbn [e_mask e_num].
    rewrite !lim_snoc. rewrite Hm. simpl. repeat case_decide; try done; lia.
Qed.
Lemma reduced_part_prev A q e B k :
  RI (A ++ [q]) e B → e_mask e = 2 ^ k - 1 → 0 < k < 32 → e_lim q = e_idx e →
  reduced (A ++ [q]) e B (A ++ [grow_ent q k]) (Ent (addr e) (e_idx e) (e_num e) 0) B.
Proof.
  intros HRI Hm Hk Hl. pose proof HRI as (HA & Ho & _ & HB).
  assert (e_mask e ≠ 0) as Hne.
  { rewrite Hm. assert (2 ^ 1 ≤ 2 ^ k) by (apply Z.pow_le_mono_r; lia). lia. }
  destruct (RI_prev A q e B HRI Hne) as [_ Hw].
  pose proof Ho as (H1 & H2 & H3 & H4 & H5). unfold e_lim in H4.
  assert (ok_ent q) as Hoq by (by apply valid_app in HA as [_ (? & _)]).
  split; [|split_and!].
  - split; [apply valid_grow; [done|lia|lia]|]. split_and!; [| |done].
    + unfold ok_ent, e_lim. cbn [e_idx e_num e_mask]. split_and!; try done; lia.
    + unfold fits. rewrite lim_snoc, grow_lim. cbn [e_idx e_num e_mask].
      destruct (decide (e_num e = 0)).
      * left. split; [done|]. eapply wf_mono; [|done]. unfold e_lim in *. lia.
      * right. left. split_and!; try done. lia.
  - intros i. rewrite <-!app_assoc. simpl. rewrite !in_set_app, !in_set_cons, grow_bits by (done || lia).
    assert (in_ent e i ↔ e_lim q ≤ i < e_lim q + k ∨ in_ent (Ent (addr e) (e_idx e) (e_num e) 0) i);
      [|tauto].
    rewrite Hl. unfold in_ent, covers, e_lim. cbn [e_idx e_num e_mask].
    rewrite Hm, low_bits, Z.testbit_0_l, bool_decide_eq_true by lia. lia.
  - rewrite <-!app_assoc, !bits_total_app. simpl. rewrite grow_cnt. unfold cnt. rewrite Hm.
    cbn [e_num e_mask]. rewrite popcount_low by lia. change (popcount 0) with 0. lia.
  - unfold measure, phase. rewrite !length_app. cbn [e_mask e_num e_idx].
    rewrite !lim_snoc. simpl. repeat case_decide; try done; lia.
Qed.
Lemma RI_next A e x B :
  RI A e (x :: B) → e_mask e ≠ 0 → lim (-1) A ≤ e_idx e ∧ wf_from (e_lim e) (x :: B).
Proof.
  intros (_ & _ & Hfit & _) Hm.
  by destruct Hfit as [[[? _] _]|[(? & _)|(_ & ? & ?)]].
Qed.
Lemma reduced_drop_next A e x B :
  RI A e (x :: B) → e_mask e ≠ 0 → empty_ent x → reduced A e (x :: B) A e B.
Proof.
  intros HRI Hm Hx. pose proof HRI as (HA & Ho & _ & HB).
  destruct (RI_next A e x B HRI Hm) as (Hl & Hox & Hix & Hw). split; [|split_and!].
  - split_and!; [done|done| |].
    + right. right. split_and!; try done. eapply wf_mono; [|done]. apply ok_lim in Hox. lia.
    + left. destruct HB as [Hv|(y & B' & [= <- <-] & _ & Hv)]; [by apply (valid_suffix [x])|done].
  - intros i. rewrite !in_set_app, !in_set_cons, (in_ent_empty x) by apply Hx. tauto.
  - rewrite !bits_total_app. simpl. rewrite (cnt_empty x) by apply Hx. lia.
  - unfold measure. rewrite !length_app. simpl. lia.
Qed.
Lemma reduced_merge_next A e x B :
  RI A e (x :: B) → e_mask e ≠ 0 → e_mask x = FULL → e_lim e = e_idx x →
  reduced A e (x :: B) A (grow_ent e (32 + e_num x)) B.
Proof.
  intros HRI Hm Hx Hl. pose proof HRI as (HA & Ho & _ & HB).
  destruct (RI_next A e x B HRI Hm) as (Hle & Hox & Hix & Hw).
  pose proof Hox as (H1 & H2 & H3 & H4 & H5). unfold e_lim in H4. split; [|split_and!].
  - split_and!; [done|apply grow_ok; [done|lia|lia]| |].
    + right. right. split_and!; try done. rewrite grow_lim, Hl.
      replace (e_idx x + (32 + e_num x)) with (e_lim x) by (unfold e_lim; lia). done.
    + left. destruct HB as [Hv|(y & B' & [= <- <-] & [Hy _] & Hv)]; [|by rewrite Hx in Hy].
      by apply (valid_suffix [x]).
  - intros i. rewrite !in_set_app, !in_set_cons, grow_bits by (done || lia).
    assert (in_ent x i ↔ e_lim e ≤ i < e_lim e + (32 + e_num x)); [|tauto].
    rewrite Hl. unfold in_ent, covers, e_lim. rewrite Hx, FULL_bits, bool_decide_eq_true. lia.
  - rewrite !bits_total_app. simpl. rewrite grow_cnt. unfold cnt. rewrite Hx.
    change (popcount FULL) with 32. lia.
  - unfold measure, phase. rewrite !length_app. cbn [grow_ent e_mask e_idx]. simpl.
    repeat case_decide; try done; lia.
Qed.
(** *** Nothing to reduce *)
Lemma reduce_done A e B :
  RI A e B → e_mask e ≠ 0 → (e_mask e = FULL → lim (-1) A ≠ e_idx e) →
  (∀ x B', B = x :: B' → ¬ empty_ent x ∧ (e_mask x = FULL → e_lim e ≠ e_idx x)) →
  valid (A ++ e :: B).
Proof.
  intros (HA & Ho & Hfit & HB) Hm Hf Hnext.
  assert (lim (-1) A ≤ e_idx e ∧ wf_from (e_lim e) B) as [Hl Hw].
  { by destruct Hfit as [[[? _] _]|[(? & _)|(_ & ? & ?)]]. }
  apply valid_app. split; [done|]. simpl. split_and!; try done.
  { intros Hfull%Hf. pose proof (top_lim A HA). lia. }
  destruct B as [|x B]; [done|]. destruct (Hnext x B eq_refl) as [Hne Hfx].
  destruct HB as [Hv|(y & B' & [= <- <-] & Hy & _)]; [|done].
  destruct Hv as (? & ? & ? & ? & ?). destruct Hw as (? & ? & ?). split_and!; try done.
  intros Hfull%Hfx. apply top_le_lim in Ho. lia.
Qed.

(** *** The code *)
Definition pass_post A e B (n : Z) (Φ : option (option nat) → sparsebit → Prop) : Prop :=
  ∀ s' A' e' B', reduced A e B A' e' B' → st s' (A' ++ e' :: B') n → Φ (Some (Some (addr e'))) s'.

Lemma wp_pass_shift A e B n Φ s :
  st s (A ++ e :: B) n → RI A e B → e_mask e = 0 → e_num e ≠ 0 → pass_post A e B n Φ →
  wp (upd (addr e) (set_idx (u64 (e_idx e + MASK_BITS)));;
      (if MASK_BITS <=? e_num e
       then upd (addr e) (λ n, set_num_after (u64 (num_after n - MASK_BITS)) (set_mask FULL n))
       else upd (addr e) (λ n, set_num_after 0 (set_mask (u32 (bit1 (num_after n) - 1)) n)));;
      mret (Some (Some (addr e)))) Φ s.
Proof.
  intros Hst HRI Hm Hn HΦ. pose proof HRI as (_ & (H1 & H2 & H3 & H4 & H5) & _ & _).
  unfold e_lim, MASK_BITS in *. wps. rewrite u64_small by (unfold in_u64; lia).
  eapply (wp_upd_st A e B n _ (Ent (addr e) (e_idx e + 32) (e_num e) 0)); [done| |done|].
  { intros. unfold mk, set_idx. simpl. by rewrite Hm. }
  intros s1 Hst1. wps.
  assert (∀ s', st s' (A ++ shift_ent e :: B) n → Φ (Some (Some (addr e))) s') as Hpost.
  { intros s' Hst'. rewrite <-(run_addr (addr e) (e_idx e + 32) (e_num e)).
    eapply HΦ; [by apply reduced_shift|done]. }
  unfold shift_ent, run_ent in Hpost.
  destruct (Z.leb_spec 32 (e_num e)).
  - eapply (wp_upd_st A (Ent (addr e) (e_idx e + 32) (e_num e) 0) B n _
      (Ent (addr e) (e_idx e + 32) (e_num e - 32) FULL));
      [done| |done|].
    { intros. unfold mk, set_num_after. simpl. by rewrite u64_small by (unfold in_u64; lia). }
    intros s2 Hst2. wps. by apply Hpost.
  - eapply (wp_upd_st A (Ent (addr e) (e_idx e + 32) (e_num e) 0) B n _
      (Ent (addr e) (e_idx e + 32) 0 (2 ^ e_num e - 1))); [done| |done|].
    { intros. unfold mk, set_num_after, bit1. simpl.
      rewrite Z.shiftl_1_l, u32_small by (apply (low_mask (e_num e)); lia). done. }
    intros s2 Hst2. wps. by apply Hpost.
Qed.

(** The bits of the mask go over to the previous node, and those after it when
    the mask was full. *)
Lemma wp_prev_part A q e B n (Φ : bool → sparsebit → Prop) s par lc rc par1 lc1 rc1 :
  st s (A ++ q :: e :: B) n → RI (A ++ [q]) e B → e_mask e ≠ 0 → ok_ent q → e_lim q = e_idx e →
  Z.lor (e_mask e) (Z.shiftr (e_mask e) 1) = e_mask e →
  (∀ s' A' e', reduced (A ++ [q]) e B A' e' B → st s' (A' ++ e' :: B) n → addr e' = addr e → Φ true s') →
  wp (lift (assert_ ((0 <? popcount (e_mask e)) && (bit1 (popcount (e_mask e)) - 1 =? e_mask e)));;
      upd (addr q) (set_num_after (u64 (num_after (mk par1 lc1 rc1 q) + popcount (e_mask e))));;
      upd (addr e) (set_mask 0);;
      (if popcount (e_mask e) =? MASK_BITS then
         upd (addr q) (λ x : node, set_num_after (u64 (num_after x + num_after (mk par lc rc e))) x);;
         upd (addr e) (set_num_after 0)
       else mret tt);;
      mret true) Φ s.
Proof.
  intros Hst HRI Hm Hoq Hl Ec Hred. pose proof HRI as (HA & Ho & _).
  pose proof Ho as (H1 & H2 & H3 & H4 & H5). pose proof Hoq as (Q1 & Q2 & Q3 & Q4 & Q5).
  pose proof (RI_prev A q e B HRI Hm) as [Hle Hw].
  destruct (contiguous (e_mask e)) as [Hpow Hpos]; [done..|]. pose proof (popcount_range (e_mask e)) as Hpr.
  cbn [mk num_after]. unfold MASK_BITS, e_lim in *.
  wps. apply owp_assert.
  { unfold bit1. rewrite Z.shiftl_1_l, <-Hpow, Z.eqb_refl. rewrite andb_true_r. by apply Z.ltb_lt. }
  wps. eapply (wp_upd_st A q (e :: B) n _ (grow_ent q (popcount (e_mask e)))); [done| |done|].
  { intros. unfold mk, set_num_after, e_lim in *. simpl.
    by rewrite u64_small by (unfold in_u64; lia). }
  intros s1 Hst1. wps.
  eapply (wp_upd_st (A ++ [grow_ent q (popcount (e_mask e))]) e B n _
            (Ent (addr e) (e_idx e) (e_num e) 0)); [by rewrite <-app_assoc|done|done|].
  intros s2 Hst2. wps. destruct (Z.eqb_spec (popcount (e_mask e)) 32) as [H32|H32].
  + rewrite H32 in *. wps. rewrite <-app_assoc in Hst2. simpl in Hst2.
    eapply (wp_upd_st A (grow_ent q 32) _ n _ (grow_ent q (32 + e_num e))); [exact Hst2| |done|].
    { intros. unfold mk, set_num_after, e_lim in *. simpl.
      rewrite u64_small by (unfold in_u64; lia). f_equal. lia. }
    intros s3 Hst3. eapply (wp_upd_st (A ++ [grow_ent q (32 + e_num e)]) (Ent (addr e) (e_idx e) (e_num e) 0) B n _
                              (Ent (addr e) (e_idx e) 0 0)); [by rewrite <-app_assoc|done|done|].
    intros s4 Hst4. wps. eapply Hred; [|exact Hst4|done]. by apply reduced_full_prev.
  + wps. eapply Hred; [|exact Hst2|done]. apply reduced_part_prev; try done. lia.
Qed.
Lemma wp_prev_step A q e B n (Φ : bool → sparsebit → Prop) s par lc rc :
  st s (A ++ q :: e :: B) n → RI (A ++ [q]) e B → e_mask e ≠ 0 →
  (∀ s' A' e', reduced (A ++ [q]) e B A' e' B → st s' (A' ++ e' :: B) n → addr e' = addr e →
    Φ true s') →
  ((e_mask e = FULL → e_lim q ≠ e_idx e) → Φ false s) →
  wp (prev_step (addr e) (mk par lc rc e) (Some (addr q))) Φ s.
Proof.
  intros Hst HRI Hm Hred Hnone. pose proof HRI as (HA & Ho & _).
  pose proof (RI_prev A q e B HRI Hm) as [Hle Hw].
  assert (ok_ent q ∧ e_mask q ≠ 0) as [Hoq Hmq]
    by (by apply valid_app in HA as [_ (? & _ & ? & _)]).
  pose proof Ho as (H1 & H2 & H3 & H4 & H5). pose proof Hoq as (Q1 & Q2 & Q3 & Q4 & Q5).
  unfold prev_step. wps. eapply (wp_load_st A q); [done|]. intros par1 lc1 rc1.
  rewrite is_empty_spec, bool_decide_eq_false_2 by (by intros [? _]).
  cbn [mk idx num_after mask]. unfold MASK_BITS, e_lim in *.
  assert (e_mask e = FULL → u64 (e_idx q + 32) = e_idx e → e_lim q = e_idx e) as Hadj.
  { intros _ Hq. rewrite u64_small in Hq by (unfold in_u64; lia). unfold e_lim. lia. }
  destruct ((u32 (e_mask e + 1) =? 0) && (u64 (e_idx q + 32) =? e_idx e)) eqn:Efull.
  { apply andb_true_iff in Efull as [Ef%Z.eqb_eq Eq%Z.eqb_eq].
    assert (e_mask e = FULL) as Hf.
    { destruct (decide (e_mask e = FULL)) as [|Hne]; [done|]. unfold FULL in *.
      rewrite u32_small in Ef by (unfold in_u32; lia). lia. }
    specialize (Hadj Hf Eq). unfold e_lim in Hadj. wps.
    eapply (wp_upd_st A q (e :: B) n _ (grow_ent q (32 + e_num e))); [done| |done|].
    { intros. unfold mk, set_num_after. simpl. by rewrite u64_small by (unfold in_u64; lia). }
    intros s1 Hst1. wps.
    eapply (wp_upd_st (A ++ [grow_ent q (32 + e_num e)]) e B n _ (Ent (addr e) (e_idx e) 0 0));
      [by rewrite <-app_assoc|done|done|].
    intros s2 Hst2. wps. eapply Hred; [|exact Hst2|done]. by apply reduced_full_prev. }
  replace (u64 (u64 (e_idx q + 32 - 1 + e_num q) + 1)) with (u64 (e_lim q)).
  2: { unfold e_lim. rewrite (u64_small (_ - 1 + _)) by (unfold in_u64; lia). f_equal. lia. }
  destruct ((u64 (e_lim q) =? e_idx e) &&
            (Z.lor (e_mask e) (Z.shiftr (e_mask e) 1) =? e_mask e)) eqn:Epart.
  - apply andb_true_iff in Epart as [Eq%Z.eqb_eq Ec%Z.eqb_eq].
    assert (e_lim q = e_idx e) as Hl.
    { unfold e_lim in *. rewrite u64_small in Eq by (unfold in_u64; lia). done. }
    by apply (wp_prev_part A q e B n Φ s par lc rc par1 lc1 rc1).
  - wps. apply Hnone. intros Hf Hl. unfold e_lim in Epart. rewrite Hf, Hl in Epart.
    rewrite u64_small, Z.eqb_refl in Epart by (unfold in_u64; lia). done.
Qed.
Lemma wp_next_step A e x B n Φ s par lc rc :
  st s (A ++ e :: x :: B) n → in_u64 n → RI A e (x :: B) → e_mask e ≠ 0 →
  pass_post A e (x :: B) n Φ →
  (¬ empty_ent x → (e_mask x = FULL → e_lim e ≠ e_idx x) → Φ None s) →
  wp (next_step (addr e) (mk par lc rc e) (Some (addr x))) Φ s.
Proof.
  intros Hst Hn HRI Hm HΦ Hnone. pose proof HRI as (HA & Ho & _).
  pose proof (RI_next A e x B HRI Hm) as (Hle & Hox & Hix & Hw).
  pose proof Ho as (H1 & H2 & H3 & H4 & H5). pose proof Hox as (Q1 & Q2 & Q3 & Q4 & Q5).
  unfold next_step. wps. eapply (wp_load_st (A ++ [e]) x B n); [by rewrite <-app_assoc|].
  intros par1 lc1 rc1. rewrite is_empty_spec. case_bool_decide as Hx.
  { wps. eapply (wp_rm_empty (A ++ [e]) x B n); [by rewrite <-app_assoc|done..|].
    intros s1. rewrite <-app_assoc. intros Hst1. wps. eapply HΦ; [by apply reduced_drop_next|done]. }
  cbn [mk idx num_after mask]. unfold MASK_BITS. change (e_idx e + 32 + e_num e) with (e_lim e).
  destruct ((e_idx x =? u64 (e_lim e)) && (e_mask x =? FULL)) eqn:Em.
  - apply andb_true_iff in Em as [Eq%Z.eqb_eq Ef%Z.eqb_eq].
    assert (e_lim e = e_idx x) as Hl.
    { unfold e_lim in *. rewrite u64_small in Eq by (unfold in_u64; lia). done. }
    wps. eapply (wp_upd_st A e (x :: B) n _ (grow_ent e 32)); [done| |done|].
    { intros. unfold mk, set_num_after, e_lim in *. simpl.
      by rewrite u64_small by (unfold in_u64; lia). }
    intros s1 Hst1. wps. eapply (wp_upd_st (A ++ [grow_ent e 32]) x B n _
      (Ent (addr x) (e_idx x) (e_num x) 0)); [by rewrite <-app_assoc|done|done|].
    intros s2. rewrite <-app_assoc. intros Hst2. wps.
    eapply (wp_upd_st A (grow_ent e 32) _ n _ (grow_ent e (32 + e_num x))); [exact Hst2| |done|].
    { intros. unfold mk, set_num_after, e_lim in *. simpl.
      rewrite u64_small by (unfold in_u64; lia). f_equal. lia. }
    intros s3 Hst3. wps. eapply (wp_upd_st (A ++ [grow_ent e (32 + e_num x)]) (Ent (addr x) (e_idx x) (e_num x) 0) B n _
      (Ent (addr x) (e_idx x) 0 0)); [by rewrite <-app_assoc|done|done|].
    intros s4 Hst4. wps.
    eapply (wp_rm_empty (A ++ [grow_ent e (32 + e_num x)]) (Ent (addr x) (e_idx x) 0 0) B n); [exact Hst4|done..|].
    intros s5. rewrite <-app_assoc. intros Hst5. wps.
    change (addr e) with (addr (grow_ent e (32 + e_num x))).
    eapply HΦ; [by apply reduced_merge_next|done].
  - wps. apply Hnone; [done|]. intros Hf Hl. rewrite Hf, Hl, u64_small, !Z.eqb_refl in Em; [done|].
    unfold in_u64, e_lim in *. lia.
Qed.

Lemma wp_reduce_pass A e B n Φ s :
  st s (A ++ e :: B) n → in_u64 n → RI A e B →
  (valid (A ++ e :: B) → Φ None s) →
  (∀ s', A = [] → B = [] → empty_ent e → st s' [] n → Φ (Some None) s') →
  pass_post A e B n Φ → wp (reduce_pass (addr e)) Φ s.
Proof.
  intros Hst Hn HRI Hdone Hnil HΦ. pose proof HRI as (HA & Ho & Hfit & HB).
  unfold reduce_pass. wps. eapply (wp_load_st A e B n); [done|]. intros par lc rc.
  rewrite is_empty_spec. case_bool_decide as He.
  { (* the node is removed *)
    wps. eapply (wp_node_next A e B n); [done|]. wps.
    destruct B as [|x B]; simpl.
    - eapply (wp_node_prev A e [] n); [done|]. wps.
      eapply (wp_rm_empty A e [] n); [done..|]. intros s' Hst'. rewrite app_nil_r in Hst'. wps.
      destruct A as [|q A _] using rev_ind; [by apply Hnil|]. rewrite last_snoc. simpl.
      eapply HΦ; [by apply reduced_prev|]. done.
    - wps. eapply (wp_rm_empty A e (x :: B) n); [done..|]. intros s' Hst'. wps.
      eapply HΦ; [by apply reduced_next|done]. }
  cbn [mk mask idx num_after]. pose proof Ho as (H1 & H2 & H3 & H4 & H5).
  destruct (Z.eqb_spec (e_mask e) 0) as [Hm|Hm].
  { assert (e_num e ≠ 0) as Hk by (intros ?; by apply He).
    wps. apply owp_assert; [by apply negb_true_iff, Z.eqb_neq|]. wps. apply owp_assert.
    { unfold e_lim, MASK_BITS in *. rewrite u64_small by (unfold in_u64; lia). apply Z.ltb_lt. lia. }
    by eapply wp_pass_shift. }
  assert ((e_mask e = FULL → lim (-1) A ≠ e_idx e) →
    wp (node_next (addr e)) (λ next, wp (next_step (addr e) (mk par lc rc e) next) Φ) s) as Hnext.
  { intros Hprev. eapply (wp_node_next A e B n); [done|].
    destruct B as [|x B]; simpl.
    - wps. apply Hdone. by apply reduce_done.
    - eapply (wp_next_step A e x B n Φ s par lc rc); [done..|]. intros Hx Hl. apply Hdone. apply reduce_done; try done.
      intros y B' [= <- <-]. done. }
  wps. eapply (wp_node_prev A e B n); [done|]. wps.
  destruct A as [|q A _] using rev_ind.
  - simpl. wps. apply Hnext. simpl. lia.
  - rewrite last_snoc. simpl. rewrite <-app_assoc in Hst. simpl in Hst.
    eapply (wp_prev_step A q e B n _ s par lc rc); [done..| |].
    + intros s' A' e' Hred Hst' <-. wps. by eapply HΦ.
    + intros Hl. wps. apply Hnext. by rewrite lim_snoc.
Qed.

(** Reducing keeps the bits and their number, and ends with a valid sequence. *)
Lemma wp_reduce_loop f A e B n (Φ : unit → sparsebit → Prop) s :
  st s (A ++ e :: B) n → in_u64 n → RI A e B → (measure A e B ≤ f)%nat →
  (∀ s' A', st s' A' n → valid A' → (∀ i, in_set A' i ↔ in_set (A ++ e :: B) i) →
    total A' = total (A ++ e :: B) → Φ tt s') →
  wp (reduce_loop f (addr e)) Φ s.
Proof.
  revert A e B s. induction f as [|f IH]; intros A e B s Hst Hn HRI Hf HΦ.
  { exfalso. unfold measure in Hf. rewrite length_app in Hf. simpl in Hf. lia. }
  cbn [reduce_loop]. wps. eapply wp_reduce_pass; [done..| | |].
  - intros Hv. wps. by eapply HΦ.
  - intros s' -> -> [Hm Hk] Hst'. wps. eapply HΦ; [done..| |].
    + intros i. simpl. rewrite in_set_cons, in_ent_empty by done. tauto.
    + simpl. by rewrite cnt_empty.
  - intros s' A' e' B' (HRI' & Hset & Htot & Hme) Hst'. eapply IH; [done..|lia|].
    intros s'' A'' Hst'' Hv Hset' Htot'. eapply HΦ; [done..| |congruence].
    intros i. by rewrite Hset', Hset.
Qed.
Lemma wp_node_reduce A e B n (Φ : unit → sparsebit → Prop) s :
  st s (A ++ e :: B) n → in_u64 n → RI A e B →
  (∀ s' A', st s' A' n → valid A' → (∀ i, in_set A' i ↔ in_set (A ++ e :: B) i) →
    total A' = total (A ++ e :: B) → Φ tt s') →
  wp (node_reduce (addr e)) Φ s.
Proof.
  intros Hst Hn HRI HΦ. unfold node_reduce. wps. eapply wp_fuel_st; [done|].
  eapply wp_reduce_loop; [done..| |done]. unfold measure. pose proof (phase_le A e). lia.
Qed.
