(* ===== verification/SparsebitRange.v ===== *)
(** * selftests: setting and clearing bits and ranges

    [sb s P]: the array is well formed and holds exactly the indices of [P].
    Setting and clearing a range change [P] by exactly that range. *)

From S2P Require Import Prelude Sparsebit SparsebitOps SparsebitTree SparsebitSearch.
From S2P Require Import SparsebitBits SparsebitReduce.

Implicit Types (e x : ent) (A B : list ent) (s : sparsebit) (P R : Z → Prop).

Definition sb s P : Prop :=
  ∃ A, st s A (u64 (total A)) ∧ valid A ∧ ∀ i, in_set A i ↔ P i.
(** [P] with the indices of [R] set or cleared. *)
Definition put (v : bool) R P : Z → Prop := λ j, if v then P j ∨ R j else P j ∧ ¬ R j.
Definition range (a k : Z) : Z → Prop := λ j, a ≤ j < a + k.

Lemma sb_ext s P P' : (∀ i, P i ↔ P' i) → sb s P → sb s P'.
Proof. intros H (A & ? & ? & HA). exists A. split_and!; try done. intros i. by rewrite HA. Qed.
Lemma put_range v a k k' P j :
  0 ≤ k → 0 ≤ k' → put v (range (a + k) k') (put v (range a k) P) j ↔ put v (range a (k + k')) P j.
Proof. unfold put, range. destruct v; intros; intuition lia. Qed.
Lemma put_empty v a P j : put v (range a 0) P j ↔ P j.
Proof. unfold put, range. destruct v; intuition lia. Qed.
#[local] Hint Resolve u64_range : core.

(** ** Splitting a valid sequence *)
Record focus A (a : Z) (A1 : list ent) e (A2 : list ent) : Prop := {
  f_idx : e_idx e = a;
  f_ok : ok_ent e;
  f_before : valid A1;
  f_lim : lim (-1) A1 ≤ a;
  f_tail : valid (e :: A2) ∨ empty_ent e ∧ valid A2;
  f_wf : wf_from (e_lim e) A2;
  f_bits : ∀ i, in_set (A1 ++ e :: A2) i ↔ in_set A i;
  f_total : total (A1 ++ e :: A2) = total A
}.
Lemma f_after A a A1 e A2 : focus A a A1 e A2 → valid A2.
Proof. intros H. destruct (f_tail _ _ _ _ _ H) as [Hv|[_ ?]]; [by apply (valid_suffix [e])|done]. Qed.
Lemma focus_wf A a A1 e A2 : focus A a A1 e A2 → wf_from (-1) (A1 ++ e :: A2).
Proof.
  intros H. apply wf_app. split; [eapply valid_wf, H|]. split_and!; [apply H| |apply H].
  rewrite (f_idx _ _ _ _ _ H). apply H.
Qed.
Lemma zero_ent_ok p i : in_u64 i → i mod 32 = 0 → ok_ent (Ent p i 0 0).
Proof.
  intros [? ?] Hm. unfold ok_ent, e_lim. cbn [e_idx e_num e_mask].
  assert (i + 32 ≤ 2 ^ 64) by (by apply aligned_lt). split_and!; try done; lia.
Qed.
Lemma rest_wf p x i B :
  ok_ent x → in_u64 i → i mod 32 = 0 → e_idx x + 32 ≤ i < e_lim x → wf_from (e_lim x) B →
  ok_ent (rest_ent p x i) ∧ wf_from (e_lim (rest_ent p x i)) B.
Proof.
  intros Ho Hi Hm Hx Hw. destruct Ho as (? & ? & ? & ? & ?). unfold in_u64 in Hi. split.
  - apply run_ok; try done; lia.
  - unfold rest_ent. rewrite run_lim. destruct B as [|y B]; [done|].
    destruct Hw as (Hoy & Hy & Hw). split_and!; try done.
    assert (i + 32 ≤ e_idx y) by (apply aligned_lt; [done|apply Hoy|lia]). lia.
Qed.
Lemma valid_raise b b' t B : valid_from b t B → wf_from b' B → valid_from b' t B.
Proof.
  destruct B as [|y B]; [done|]. intros (? & ? & ? & ? & ?) (? & ? & ?). by split_and!.
Qed.
Lemma rest_valid p x i B :
  valid (x :: B) → in_u64 i → i mod 32 = 0 → e_idx x + 32 ≤ i < e_lim x →
  valid (rest_ent p x i :: B).
Proof.
  intros (Ho & _ & _ & _ & HB) Hi Hm Hx.
  destruct (rest_wf p x i B) as [Hor Hwr]; [done..|by eapply valid_wf|].
  unfold rest_ent in *. pose proof (run_mask p i (e_lim x - i)) as [? _]; [lia|].
  unfold in_u64 in Hi. split_and!; try done; rewrite ?run_idx; [lia|lia|].
  rewrite run_top by lia. replace (i + (e_lim x - i)) with (e_top x).
  - by eapply valid_raise.
  - unfold e_top, e_lim in *. destruct (Z.eqb_spec (e_num x) 0); lia.
Qed.
Lemma wp_split_valid A n a (Φ : nat → sparsebit → Prop) s :
  st s A n → valid A → in_u64 a → a mod 32 = 0 →
  (∀ s' A1 e A2, st s' (A1 ++ e :: A2) n → focus A a A1 e A2 → Φ (addr e) s') →
  wp (node_split a) Φ s.
Proof.
  intros Hst Hv Ha Hm HΦ. pose proof (valid_wf _ _ _ Hv) as Hw.
  eapply (wp_node_split A n a Φ s (-1)); [done..|unfold in_u64 in Ha; lia|done|done| | |].
  - intros s' p A1 A2 -> Hl Hw2 Hst'. apply (HΦ s' A1 (Ent p a 0 0) A2 Hst'). split; try done.
    + by apply zero_ent_ok.
    + by apply valid_app in Hv as [? _].
    + right. split; [done|]. by eapply valid_suffix.
    + unfold e_lim. cbn [e_idx e_num]. by rewrite Z.add_0_r.
    + intros i. rewrite !in_set_app, in_set_cons, in_ent_empty by done. tauto.
    + rewrite !bits_total_app. simpl. by rewrite cnt_empty.
  - intros A1 e A2 -> He. apply (HΦ s A1 e A2); [done|].
    pose proof Hv as [HA1 (Ho & Hi & ? & ? & HA2)]%valid_app. split; try done.
    + by rewrite <-He.
    + left. by eapply valid_suffix.
    + by eapply valid_wf.
  - intros s' p A1 x A2 -> Hx Hst'. pose proof Hv as [HA1 (Ho & Hi & ? & ? & HA2)]%valid_app.
    destruct (rest_wf p x a A2) as [Hor Hwr]; [done..|by eapply valid_wf|].
    rewrite <-(run_addr p a (e_lim x - a)).
    apply (HΦ s' (A1 ++ [cut_ent x a]) (rest_ent p x a) A2); [by rewrite <-app_assoc|].
    split; try done.
    + apply run_idx.
    + apply valid_app. split; [done|]. split_and!; try done. by apply cut_ok.
    + by rewrite lim_snoc, cut_lim.
    + left. apply rest_valid; try done. by eapply valid_suffix.
    + intros i. rewrite <-app_assoc. simpl. rewrite !in_set_app, !in_set_cons.
      rewrite <-(cut_rest_bits p x a i Hx). tauto.
    + rewrite <-app_assoc, !bits_total_app. simpl. rewrite <-(cut_rest_cnt p x a Hx). lia.
Qed.
Lemma fits_of A e B :
  ok_ent e → lim (-1) A ≤ e_idx e → wf_from (e_lim e) B → fits A e B.
Proof.
  intros Ho Hl Hw. unfold fits. destruct (decide (e_mask e = 0)) as [Hm|]; [|tauto].
  destruct (decide (e_num e = 0)).
  - left. split; [done|]. eapply wf_mono; [|done]. apply ok_lim in Ho. lia.
  - right. left. split_and!; try done. lia.
Qed.

(** ** One bit *)
Definition bit_op (v : bool) : Z → S_ unit := if v then bit_set else bit_clear.
Definition with_mask e (m : Z) : ent := Ent (addr e) (e_idx e) (e_num e) m.
Lemma with_mask_ok e m : ok_ent e → in_mask m → ok_ent (with_mask e m).
Proof. by intros (? & ? & ? & ? & ?). Qed.

(** After the mask of the node in focus was changed at the bit of [i]. *)
Lemma wp_finish_bit A a A1 e A2 m (v : bool) i P (Φ : unit → sparsebit → Prop) s :
  st s (A1 ++ with_mask e m :: A2) (u64 (total (A1 ++ with_mask e m :: A2))) →
  focus A a A1 e A2 → (∀ j, in_set A j ↔ P j) → in_mask m → a ≤ i < a + 32 →
  (∀ j, Z.testbit m j = if v then Z.testbit (e_mask e) j || bool_decide (j = i - a)
                        else Z.testbit (e_mask e) j && negb (bool_decide (j = i - a))) →
  (∀ s', sb s' (put v (range i 1) P) → Φ tt s') →
  wp (node_reduce (addr e)) Φ s.
Proof.
  intros Hst Hf HP Hm Hi Hbits HΦ. change (addr e) with (addr (with_mask e m)).
  pose proof (f_idx _ _ _ _ _ Hf) as Hidx.
  eapply (wp_node_reduce A1 (with_mask e m) A2); [exact Hst|done| |].
  - split_and!; [apply Hf|by apply with_mask_ok, Hm; apply Hf| |left; by eapply f_after].
    apply fits_of; [by apply with_mask_ok, Hm; apply Hf| |apply Hf].
    simpl. rewrite Hidx. apply Hf.
  - intros s' A' Hst' Hv Hset Htot. apply HΦ. exists A'. rewrite Htot. split_and!; [done..|].
    intros j. rewrite Hset.
    assert (P j ↔ in_set A1 j ∨ in_ent e j ∨ in_set A2 j) as HPj.
    { by rewrite <-HP, <-(f_bits _ _ _ _ _ Hf), in_set_app, in_set_cons. }
    assert (j = i → ¬ in_set A1 j ∧ ¬ in_set A2 j) as Hout.
    { intros ->. pose proof (f_lim _ _ _ _ _ Hf). pose proof (ok_lim _ (f_ok _ _ _ _ _ Hf)).
      split; intros Hin; eapply in_set_lim in Hin;
        [|eapply valid_wf, Hf| |apply (f_wf _ _ _ _ _ Hf)]; lia. }
    rewrite in_set_app, in_set_cons. pose proof (f_ok _ _ _ _ _ Hf) as (? & ? & ? & _).
    unfold put, range, in_ent, covers, with_mask, e_lim in *. cbn [e_idx e_num e_mask].
    specialize (Hbits (j - e_idx e)). rewrite Hidx in *.
    destruct v; rewrite HPj, Hbits, ?orb_true_iff, ?andb_true_iff, ?negb_true_iff,
        ?bool_decide_eq_true, ?bool_decide_eq_false; clear Hbits HPj;
      (destruct (decide (j = i)) as [Hj|]; [destruct (Hout Hj)|]); intuition lia.
Qed.

Lemma bit_index i : in_u64 i → in_u64 (align i) ∧ align i mod 32 = 0 ∧ align i ≤ i < align i + 32.
Proof.
  intros Hi. rewrite align_spec by done. unfold in_u64 in *.
  pose proof (Z.div_mod i 32). pose proof (Z.mod_pos_bound i 32).
  rewrite Z.mod_mul by done. split_and!; lia.
Qed.
Lemma focus_assert a e i par lc rc :
  ok_ent e → e_idx e = a → a ≤ i < a + 32 →
  (idx (mk par lc rc e) <=? i) && (i <=? u64 (idx (mk par lc rc e) + MASK_BITS - 1)) = true.
Proof.
  intros (? & ? & ? & Hl & ?) <- Hi. unfold e_lim, MASK_BITS in *. cbn [mk idx].
  rewrite u64_small by (unfold in_u64; lia). rewrite andb_true_iff, !Z.leb_le. lia.
Qed.
Lemma focus_bit A a A1 e A2 i P :
  focus A a A1 e A2 → (∀ j, in_set A j ↔ P j) → a ≤ i < a + 32 →
  Z.testbit (e_mask e) (i - e_idx e) = true ↔ P i.
Proof.
  intros Hf HP Hi. pose proof (f_idx _ _ _ _ _ Hf) as Hidx.
  pose proof (f_ok _ _ _ _ _ Hf) as (? & ? & ? & _).
  rewrite <-HP, <-(f_bits _ _ _ _ _ Hf), (in_set_at (-1)); [|by eapply focus_wf|].
  - unfold in_ent, covers, e_lim. intuition lia.
  - unfold covers, e_lim. lia.
Qed.
Lemma total_change (A1 A2 : list ent) e e' d :
  cnt e' = cnt e + d → total (A1 ++ e' :: A2) = total (A1 ++ e :: A2) + d.
Proof. intros Hc. rewrite !bits_total_app. simpl. lia. Qed.

Lemma wp_bit_set i P (Φ : unit → sparsebit → Prop) s :
  sb s P → in_u64 i → (∀ s', sb s' (put true (range i 1) P) → Φ tt s') → wp (bit_set i) Φ s.
Proof.
  intros (A & Hst & Hv & HP) Hi HΦ. unfold bit_set. wps.
  eapply wp_is_set; [done|by eapply valid_wf|done|]. intros r Hr. rewrite HP in Hr. destruct r.
  { wps. apply HΦ. exists A. split_and!; try done. intros j. rewrite HP. unfold put, range.
    destruct (decide (j = i)) as [->|]; [|intuition lia]. tauto. }
  destruct (bit_index i Hi) as (Ha & Hm & Hai). wps.
  eapply wp_split_valid; [done..|]. intros s1 A1 e A2 Hst1 Hf. wps.
  eapply (wp_load_st A1 e A2); [done|]. intros par lc rc. wps.
  pose proof (f_idx _ _ _ _ _ Hf) as Hidx. pose proof (f_ok _ _ _ _ _ Hf) as Ho.
  apply owp_assert; [by eapply focus_assert|]. wps. cbn [mk mask idx].
  assert (Z.testbit (e_mask e) (i - e_idx e) = false) as Hbit.
  { apply not_true_is_false. rewrite focus_bit by done. rewrite <-Hr. done. }
  assert (0 ≤ i - e_idx e < 32) as Hrange by lia.
  apply owp_assert; [by rewrite has_bit_spec, Hbit by lia|]. wps.
  eapply (wp_upd_st A1 e A2 _ _ (with_mask e (Z.lor (e_mask e) (bit1 (i - e_idx e)))));
    [done..|]. intros s2 Hst2.
  wps. eapply wp_set_num_set; [done|]. intros s3 Hst3.
  eapply (wp_finish_bit A (align i) A1 e A2 _ true i); [|done|done| |done| |done].
  - rewrite (total_change A1 A2 e (with_mask e _) 1); [|unfold cnt; cbn [with_mask e_num e_mask];
      rewrite popcount_set by done; lia].
    rewrite (f_total _ _ _ _ _ Hf). by rewrite u64_add in Hst3.
  - apply lor_mask; [apply Ho|lia].
  - intros j. rewrite lor_bit by lia. by rewrite Hidx.
Qed.
(** The node whose mask describes the bit [i], split off if it is in a run. *)
Lemma wp_focus_bit B1 x B2 i par lc rc (Φ : nat → sparsebit → Prop) s :
  let A := B1 ++ x :: B2 in
  st s A (u64 (total A)) → valid A → in_u64 i → covers x i →
  (∀ s' A1 e A2, st s' (A1 ++ e :: A2) (u64 (total A)) → focus A (align i) A1 e A2 → Φ (addr e) s') →
  wp (if u64 (idx (mk par lc rc x) + MASK_BITS) <=? i then node_split (align i) else mret (addr x)) Φ s.
Proof.
  intros A Hst Hv Hi Hc HΦ. unfold A in *. destruct (bit_index i Hi) as (Ha & Hm & Hai).
  pose proof Hv as [HB1 (Hox & Hix & Hmx & Hfx & HB2)]%valid_app.
  cbn [mk idx]. pose proof Hox as (H1 & H2 & H3 & H4 & H5). pose proof (valid_wf _ _ _ Hv) as Hw.
  assert (align i mod 32 = 0) by done. unfold MASK_BITS, covers, e_lim, in_u64 in *.
  destruct (Z.leb_spec (u64 (e_idx x + 32)) i) as [_|Hlt].
  - eapply wp_split_valid; [done..|]. intros s1 A1 e A2 Hst1 Hf. by eapply HΦ.
  - wps. eapply (HΦ s B1 x B2); [done|].
    assert (i < e_idx x + 32).
    { destruct (decide (e_idx x + 32 = 2 ^ 64)); [lia|].
      rewrite u64_small in Hlt by (unfold in_u64; lia). done. }
    assert (e_idx x = align i) as Hxi.
    { rewrite align_spec by done. pose proof (Z.div_mod (e_idx x) 32).
      pose proof (Z.div_mod i 32). pose proof (Z.mod_pos_bound i 32). lia. }
    split; try done.
    + lia.
    + left. by eapply valid_suffix.
    + by eapply valid_wf.
Qed.
Lemma wp_bit_clear i P (Φ : unit → sparsebit → Prop) s :
  sb s P → in_u64 i → (∀ s', sb s' (put false (range i 1) P) → Φ tt s') → wp (bit_clear i) Φ s.
Proof.
  intros (A & Hst & Hv & HP) Hi HΦ. unfold bit_clear. wps. pose proof (valid_wf _ _ _ Hv) as Hw.
  eapply wp_is_set; [done..|]. intros r Hr. rewrite HP in Hr. destruct r; cycle 1.
  { wps. apply HΦ. exists A. split_and!; try done. intros j. rewrite HP. unfold put, range.
    destruct (decide (j = i)) as [->|]; [|intuition lia]. naive_solver. }
  assert (P i) as HPi by (by apply Hr).
  destruct (bit_index i Hi) as (Ha & Hm & Hai). wps. cbn [negb]. wps.
  eapply wp_node_find; [done..| |]; cycle 1.
  { intros Hno. apply HP, Exists_exists in HPi as (e & He & Hin). by destruct (Hno e He), Hin. }
  intros B1 x B2 HA Hc. wps. subst A. eapply (wp_load_st B1 x B2); [done|]. intros par lc rc. wps.
  eapply (wp_focus_bit B1 x B2 i); [done..|]. intros s1 A1 e A2 Hst1 Hf. wps.
  eapply (wp_load_st A1 e A2); [done|]. intros par1 lc1 rc1. wps.
  pose proof (f_idx _ _ _ _ _ Hf) as Hidx. pose proof (f_ok _ _ _ _ _ Hf) as Ho.
  apply owp_assert; [by eapply focus_assert|]. wps. cbn [mk mask idx].
  assert (Z.testbit (e_mask e) (i - e_idx e) = true) as Hbit by (by apply (focus_bit _ _ _ _ _ i P Hf HP Hai)).
  assert (0 ≤ i - e_idx e < 32) as Hrange by lia.
  apply owp_assert; [by rewrite has_bit_spec, Hbit by lia|]. wps.
  eapply (wp_upd_st A1 e A2 _ _ (with_mask e (Z.land (e_mask e) (FULL - bit1 (i - e_idx e)))));
    [done..|]. intros s2 Hst2.
  assert (popcount (Z.land (e_mask e) (FULL - bit1 (i - e_idx e))) = popcount (e_mask e) - 1) as Hpop.
  { apply popcount_clear; [apply Ho|done..]. }
  unfold sparsebit_all_set. wps. apply wp_get. wps. apply wp_get. wps. apply owp_assert.
  { apply orb_true_iff. rewrite (proj2 Hst2), Z.ltb_lt. destruct (root s2) eqn:Er; cycle 1.
    { eapply st_root in Hst2. apply Hst2 in Er. by apply app_nil in Er as [_ ?]. }
    rewrite Z.eqb_eq. pose proof (u64_range (total (B1 ++ x :: B2))) as [? _]. lia. }
  wps. eapply wp_set_num_set; [done|]. intros s3 Hst3.
  eapply (wp_finish_bit (B1 ++ x :: B2) (align i) A1 e A2 _ false i); [|done|done| |done| |done].
  - rewrite (total_change A1 A2 e (with_mask e (Z.land (e_mask e) (FULL - bit1 (i - e_idx e)))) (-1)); [|unfold cnt; cbn [with_mask e_num e_mask]; lia].
    rewrite (f_total _ _ _ _ _ Hf). by rewrite u64_sub in Hst3.
  - apply land_mask. apply Ho.
  - intros j. rewrite land_bit by (apply Ho || lia). by rewrite Hidx.
Qed.
Lemma wp_bit_op v i P (Φ : unit → sparsebit → Prop) s :
  sb s P → in_u64 i → (∀ s', sb s' (put v (range i 1) P) → Φ tt s') → wp (bit_op v i) Φ s.
Proof. destruct v; [apply wp_bit_set|apply wp_bit_clear]. Qed.

(** ** Loops over single bits *)
Lemma sb_put_empty v a P s : sb s P → sb s (put v (range a 0) P).
Proof. apply sb_ext. intros j. by rewrite put_empty. Qed.
Lemma sb_put_step v a k k' P s :
  0 ≤ k → 0 ≤ k' → sb s (put v (range (a + k) k') (put v (range a k) P)) →
  sb s (put v (range a (k + k')) P).
Proof. intros Hk Hk'. apply sb_ext. intros j. by apply put_range. Qed.

Lemma wp_leading v f i n P (Φ : Z * Z → sparsebit → Prop) s :
  sb s P → in_u64 i → in_u64 n → i + n ≤ 2 ^ 64 →
  (i mod 32 ≠ 0 → 32 - i mod 32 ≤ Z.of_nat f) →
  (∀ s' d, 0 ≤ d ≤ n → d = n ∨ (i + d) mod 32 = 0 → sb s' (put v (range i d) P) →
    Φ (u64 (i + d), n - d) s') →
  wp (leading_loop f (bit_op v) i n) Φ s.
Proof.
  revert i n P s. induction f as [|f IH]; intros i n P s Hsb Hi Hn Hle Hf HΦ;
    cbn [leading_loop]; unfold MASK_BITS.
  all: assert (n = 0 ∨ i mod 32 = 0 →
      wp (mret (i, n)) Φ s) as Hstop.
  1, 3: intros Hs; wps; replace i with (u64 (i + 0)) by (rewrite Z.add_0_r; by apply u64_small);
    replace n with (n - 0) at 1 by lia; apply HΦ;
    [unfold in_u64 in *; lia|rewrite Z.add_0_r; lia|by apply sb_put_empty].
  all: destruct (Z.ltb_spec 0 n), (Z.eqb_spec (i mod 32) 0); simpl;
    try (apply Hstop; unfold in_u64 in *; lia).
  - pose proof (Z.mod_pos_bound i 32). lia.
  - wps. apply (wp_bit_op v i P); [done..|]. intros s1 Hsb1. cbn beta.
    rewrite (u64_small (n - 1)) by (unfold in_u64 in *; lia).
    destruct (decide (n = 1)) as [->|].
    + destruct f; cbn [leading_loop]; simpl; wps;
        (replace (1 - 1) with (1 - 1) by lia; apply HΦ; [lia|by left|done]).
    + unfold in_u64 in *. rewrite u64_small by (unfold in_u64; lia).
      apply (IH (i + 1) (n - 1) (put v (range i 1) P)); [done|unfold in_u64; lia..| |].
      * intros Hne. assert ((i + 1) mod 32 = i mod 32 + 1).
        { pose proof (Z.mod_pos_bound i 32). pose proof (Z.mod_pos_bound (i + 1) 32).
          pose proof (Z.div_mod i 32). pose proof (Z.div_mod (i + 1) 32). lia. }
        lia.
      * intros s' d Hd Hend Hsb'. replace (i + 1 + d) with (i + (1 + d)) by lia.
        replace (n - 1 - d) with (n - (1 + d)) by lia. apply HΦ; [lia| |].
        -- destruct Hend as [->|Hend]; [left; lia|right]. rewrite <-Hend. f_equal. lia.
        -- apply sb_put_step; [lia..|done].
Qed.
Lemma wp_trailing v f i n P (Φ : unit → sparsebit → Prop) s :
  sb s P → in_u64 i → 0 ≤ n ≤ Z.of_nat f → i + n ≤ 2 ^ 64 →
  (∀ s', sb s' (put v (range i n) P) → Φ tt s') →
  wp (trailing_loop f (bit_op v) i n) Φ s.
Proof.
  revert i n P s. induction f as [|f IH]; intros i n P s Hsb Hi Hn Hle HΦ;
    cbn [trailing_loop]; (destruct (Z.ltb_spec 0 n); simpl; [|wps; apply HΦ;
      replace n with 0 by lia; by apply sb_put_empty]); [lia|].
  wps. apply (wp_bit_op v i P); [done..|]. intros s1 Hsb1. cbn beta. unfold in_u64 in *.
  rewrite (u64_small (n - 1)) by (unfold in_u64; lia).
  destruct (decide (n = 1)) as [->|].
  - destruct f; cbn [trailing_loop]; simpl; wps; by apply HΦ.
  - rewrite u64_small by (unfold in_u64; lia).
    apply (IH (i + 1) (n - 1) (put v (range i 1) P)); [done|unfold in_u64; lia..|].
    intros s' Hsb'. apply HΦ. replace n with (1 + (n - 1)) by lia. apply sb_put_step; [lia..|done].
Qed.

(** ** Whole masks: the middle of a range *)
Lemma split_position A1 e A2 (B1 B2 : list ent) :
  A1 ++ e :: A2 = B1 ++ B2 → e ∉ B2 → ∃ M, B1 = A1 ++ e :: M ∧ A2 = M ++ B2.
Proof.
  intros [(k & -> & ->)|(k & -> & Hk)]%app_eq_inv He; [set_solver|].
  destruct k as [|y M]; simplify_eq/=; [set_solver|eauto].
Qed.
Lemma wf_at b A e B :
  wf_from b (A ++ e :: B) →
  (∀ x, x ∈ A → e_lim x ≤ e_idx e) ∧ ok_ent e ∧ (∀ x, x ∈ B → e_lim e ≤ e_idx x).
Proof.
  intros [HA (Ho & Hi & HB)]%wf_app. split_and!; [|done|].
  - intros x Hx. destruct (wf_elem _ _ _ HA Hx) as (_ & _ & ?). lia.
  - intros x Hx. by destruct (wf_elem _ _ _ HB Hx) as (_ & ? & _).
Qed.

Lemma wp_split_second A1 e A2 n i (Φ : nat → sparsebit → Prop) s :
  st s (A1 ++ e :: A2) n → wf_from (-1) (A1 ++ e :: A2) →
  valid (e :: A2) ∨ empty_ent e ∧ valid A2 → e_idx e < i → in_u64 i → i mod 32 = 0 →
  (∀ p s' e' M e2 A3, st s' (A1 ++ e' :: M ++ e2 :: A3) n →
    wf_from (-1) (A1 ++ e' :: M ++ e2 :: A3) → addr e' = addr e → e_idx e' = e_idx e →
    e_idx e2 = i → valid (e2 :: A3) ∨ empty_ent e2 ∧ valid A3 →
    (∀ j, in_set (A1 ++ e' :: M ++ e2 :: A3) j ↔ in_set (A1 ++ e :: A2) j) →
    total (A1 ++ e' :: M ++ e2 :: A3) = total (A1 ++ e :: A2) → Φ p s') →
  wp (node_split i) Φ s.
Proof.
  intros Hst Hw Hv He Hi Hm HΦ. destruct (wf_at _ _ _ _ Hw) as (Hb1 & Hoe & Hb2).
  assert (valid A2) as Hv2 by (destruct Hv as [Hv|[_ ?]]; [by apply (valid_suffix [e])|done]).
  eapply (wp_node_split _ n i Φ s (-1)); [done..|unfold in_u64 in Hi; lia|done|done| | |].
  - intros s' p B1 B2 HB Hl Hw2 Hst'.
    destruct (split_position A1 e A2 B1 B2 HB) as (M & -> & ->).
    { intros Hin. destruct (wf_elem _ _ _ Hw2 Hin) as (_ & ? & _). lia. }
    rewrite <-app_assoc in Hst'. apply (HΦ p s' e M (Ent p i 0 0) B2); try done.
    + rewrite app_comm_cons, app_assoc in Hw |- *. apply wf_app in Hw as [Hw1 _]. apply wf_app.
      split; [done|]. split_and!; [by apply zero_ent_ok|done|]. unfold e_lim. simpl.
      by rewrite Z.add_0_r.
    + right. split; [done|]. by eapply valid_suffix.
    + intros j. rewrite !in_set_app, !in_set_cons, !in_set_app, !in_set_cons,
        (in_ent_empty (Ent _ _ _ _)) by done. tauto.
    + rewrite !bits_total_app. simpl. rewrite !bits_total_app. simpl. by rewrite (cnt_empty (Ent _ _ _ _)).
  - intros B1 x B2 HB Hx. destruct (split_position A1 e A2 B1 (x :: B2) HB) as (M & -> & ->).
    { intros [->|Hin]%elem_of_cons; [lia|]. rewrite HB in Hw.
      destruct (wf_at _ _ _ _ Hw) as (_ & Hox%ok_lim & Hx2). specialize (Hx2 e Hin). lia. }
    apply (HΦ _ s e M x B2); try done. left. by eapply valid_suffix.
  - intros s' p B1 x B2 HB Hx Hst'. pose proof Hw as Hw'. rewrite HB in Hw'.
    destruct (wf_at _ _ _ _ Hw') as (Hx1 & Hox & Hx2).
    pose proof Hw' as [HwB1 (_ & HxB & HwB2)]%wf_app.
    destruct (rest_wf p x i B2) as [Hor Hwr]; [done..|].
    assert (∀ j, in_set (B1 ++ cut_ent x i :: rest_ent p x i :: B2) j ↔
                 in_set (A1 ++ e :: A2) j) as Hset.
    { intros j. rewrite HB, !in_set_app, !in_set_cons, <-(cut_rest_bits p x i j Hx). tauto. }
    assert (total (B1 ++ cut_ent x i :: rest_ent p x i :: B2) = total (A1 ++ e :: A2)) as Htot.
    { rewrite HB, !bits_total_app. simpl. rewrite <-(cut_rest_cnt p x i Hx). lia. }
    assert (wf_from (-1) (B1 ++ cut_ent x i :: rest_ent p x i :: B2)) as HwN.
    { apply wf_app. split; [done|]. split; [by apply cut_ok|]. split; [done|].
      rewrite cut_lim. split; [done|]. split; [|done]. unfold rest_ent. by rewrite run_idx. }
    assert (e_idx (rest_ent p x i) = i) as Hri by apply run_idx.
    assert ((e = x ∧ A1 = B1 ∧ A2 = B2) ∨ ∃ M, B1 = A1 ++ e :: M ∧ A2 = M ++ x :: B2) as Hpos.
    { destruct (app_eq_inv _ _ _ _ HB) as [(k & -> & Hk)|(k & -> & Hk)];
        (destruct k as [|y M]; simplify_eq/=; [left; by rewrite app_nil_r|]).
      - exfalso. assert (e_lim y ≤ e_idx e) by (apply Hb1; set_solver). lia.
      - right. by exists M. }
    destruct Hpos as [(<- & <- & <-)|(M & -> & ->)].
    + apply (HΦ p s' (cut_ent e i) [] (rest_ent p e i) A2); try done.
      left. destruct Hv as [Hv|[[_ Hn] _]]; [by apply rest_valid|].
      exfalso. unfold e_lim in Hx. lia.
    + rewrite <-app_assoc in Hst', HwN, Htot. setoid_rewrite <-app_assoc in Hset.
      assert (∀ e2, (A1 ++ e :: (M ++ [cut_ent x i]) ++ e2 :: B2) =
                    A1 ++ (e :: M) ++ cut_ent x i :: e2 :: B2) as Heq.
      { intros e2. simpl. by rewrite <-app_assoc. }
      apply (HΦ p s' e (M ++ [cut_ent x i]) (rest_ent p x i) B2); rewrite ?Heq; try done.
      left. apply rest_valid; try done. by eapply valid_suffix.
Qed.

Lemma rm_count (A B : list ent) x b :
  wf_from b (A ++ x :: B) →
  u64 (e_num x + popcount (e_mask x)) ≤ u64 (total (A ++ x :: B)) ∨ u64 (total (A ++ x :: B)) = 0.
Proof.
  intros Hw. pose proof (total_range _ _ Hw) as Ht. pose proof Hw as [HA (Ho & _ & HB)]%wf_app.
  pose proof (total_range _ _ HA). pose proof (total_range _ _ HB). pose proof (cnt_range _ Ho) as Hc.
  unfold cnt in *. destruct (decide (total (A ++ x :: B) = 2 ^ 64)) as [->|]; [by right|left].
  rewrite bits_total_app in *. simpl in *. unfold cnt in *.
  rewrite !u64_small by (unfold in_u64; lia). lia.
Qed.
Lemma wp_remove_middle f A e M B lst (Φ : unit → sparsebit → Prop) s :
  st s (A ++ e :: M ++ B) (u64 (total (A ++ e :: M ++ B))) → wf_from (-1) (A ++ e :: M ++ B) →
  (∀ x, x ∈ M → e_idx x < lst ∧ e_lim x ≤ lst + 1) →
  (∀ x, head B = Some x → lst ≤ e_idx x) → (length M ≤ f)%nat →
  (∀ s', st s' (A ++ e :: B) (u64 (total (A ++ e :: B))) → Φ tt s') →
  wp (remove_middle f (addr e) lst) Φ s.
Proof.
  revert f s. induction M as [|x M IH]; intros f s Hst Hw HM HB Hf HΦ; cbn [app] in *.
  - assert (∀ Ψ : option nat → sparsebit → Prop, Ψ (addr <$> head B) s →
      wp (node_next (addr e)) Ψ s) as Hnext by (intros Ψ; by eapply wp_node_next).
    destruct f; cbn [remove_middle]; wps; apply Hnext; (destruct B as [|y B]; simpl;
      [wps; by apply HΦ|]); wps;
      (eapply (wp_load_st (A ++ [e]) y B); [rewrite <-app_assoc; exact Hst|]); intros par lc rc;
      cbn [mk idx]; specialize (HB y eq_refl); (destruct (Z.ltb_spec (e_idx y) lst); [lia|]);
      wps; by apply HΦ.
  - destruct f as [|f]; [simpl in Hf; lia|]. cbn [remove_middle]. wps.
    eapply (wp_node_next A e (x :: M ++ B)); [done|]. simpl. wps.
    eapply (wp_load_st (A ++ [e]) x (M ++ B)); [rewrite <-app_assoc; exact Hst|]. intros par lc rc.
    destruct (HM x) as [Hx1 Hx2]; [set_solver|]. rewrite cons_middle, app_assoc in Hw.
    pose proof Hw as [_ (Hox & _)]%wf_app.
    cbn [mk idx]. destruct (Z.ltb_spec (e_idx x) lst); [|lia]. wps.
    apply owp_assert; [rewrite (node_end_ok x) by done; apply Z.leb_le; lia|]. wps.
    assert (A ++ e :: x :: M ++ B = (A ++ [e]) ++ x :: M ++ B) as Heq by (by rewrite <-app_assoc).
    eapply (wp_node_rm (A ++ [e]) x (M ++ B)); [rewrite <-app_assoc; exact Hst| |].
    { rewrite Heq. by eapply rm_count. }
    intros s1 Hst1. cbn beta. rewrite <-app_assoc in Hst1. cbn [app] in Hst1.
    rewrite u64_sub_r, u64_sub in Hst1.
    replace (total (A ++ e :: x :: M ++ B) - (e_num x + popcount (e_mask x)))
      with (total (A ++ e :: M ++ B)) in Hst1
      by (rewrite !bits_total_app; simpl; unfold cnt; lia).
    apply IH; try done.
    + apply wf_app in Hw as [Hw1 (_ & Hix & Hw2)]. rewrite cons_middle, app_assoc. apply wf_app.
      split; [done|]. eapply wf_mono; [|done]. apply ok_lim in Hox. lia.
    + intros y Hy. apply HM. set_solver.
    + simpl in Hf. lia.
Qed.

(** The node at the start of the middle part, and what is left behind it. *)
Record middle A (a w : Z) (A1 : list ent) e B : Prop := {
  m_idx : e_idx e = a;
  m_ok : ok_ent e;
  m_before : valid A1;
  m_lim : lim (-1) A1 ≤ a;
  m_after : valid B ∨ ∃ x B', B = x :: B' ∧ empty_ent x ∧ valid B';
  m_wf : wf_from (a + w) B;
  m_bits : ∀ j, in_set A1 j ∨ in_set B j ↔ in_set A j ∧ ¬ range a w j
}.
Lemma wp_split_middle A a w (Φ : nat → sparsebit → Prop) s :
  st s A (u64 (total A)) → valid A → 0 ≤ a → a mod 32 = 0 → 32 ≤ w → w mod 32 = 0 →
  a + w ≤ 2 ^ 64 →
  (∀ s' A1 e B, st s' (A1 ++ e :: B) (u64 (total (A1 ++ e :: B))) → middle A a w A1 e B →
    Φ (addr e) s') →
  wp (split_middle a (a + w - 1)) Φ s.
Proof.
  intros Hst Hv Ha Hm Hw Hwm Hl HΦ. unfold split_middle. wps.
  eapply wp_split_valid; [done..|unfold in_u64; lia|done|]. intros s1 A1 e A2 Hst1 Hf. wps.
  pose proof (focus_wf _ _ _ _ _ Hf) as Hwf. pose proof (f_idx _ _ _ _ _ Hf) as Hidx.
  pose proof (f_bits _ _ _ _ _ Hf) as Hbits. rewrite <-(f_total _ _ _ _ _ Hf) in Hst1.
  destruct (decide (a + w = 2 ^ 64)) as [Hend|Hend].
  - replace (u64 (a + w - 1 + 1)) with 0 by (by replace (a + w - 1 + 1) with (2 ^ 64) by lia).
    destruct (Z.ltb_spec (a + w - 1) 0); [lia|]. wps.
    eapply wp_fuel_st; [done|]. wps.
    pose proof (wf_at _ _ _ _ Hwf) as (Hb1 & Hoe & Hb2).
    pose proof (f_wf _ _ _ _ _ Hf) as HwA2.
    apply (wp_remove_middle _ A1 e A2 []); rewrite ?app_nil_r; try done.
    + intros x Hx. destruct (wf_elem _ _ _ HwA2 Hx) as ((? & ? & ? & ? & ?) & _ & _).
      unfold e_lim in *. lia.
    + rewrite length_app. simpl. lia.
    + intros s2 Hst2. wps. eapply HΦ; [done|]. split; try done; [apply Hf..|by left|].
      intros j. rewrite <-Hbits, in_set_app, in_set_cons, in_set_nil. unfold range.
      pose proof (in_set_lim _ _ j (valid_wf _ _ _ (f_before _ _ _ _ _ Hf))) as H1.
      pose proof (in_set_lim _ _ j HwA2) as H2. pose proof (in_ent_lim e j) as H3.
      pose proof (f_lim _ _ _ _ _ Hf). pose proof (ok_lim _ Hoe).
      assert (in_set A2 j → j < 2 ^ 64).
      { intros Hin%H2. pose proof (lim_le _ _ HwA2). destruct Hoe as (_ & _ & _ & ? & _). lia. }
      destruct Hoe as (_ & _ & _ & ? & _). intuition lia.
  - replace (u64 (a + w - 1 + 1)) with (a + w)
      by (rewrite u64_small by (unfold in_u64; lia); lia).
    destruct (Z.ltb_spec (a + w - 1) (a + w)); [|lia]. wps.
    eapply (wp_split_second A1 e A2); [done..|apply Hf|lia|unfold in_u64; lia| |].
    { rewrite <-Z.add_mod_idemp_r, Hwm, Z.add_0_r by done. done. }
    intros _ s2 e' M e2 A3 Hst2 Hwf2 Haddr Hidx' Hi2 Hv3 Hset Htot. wps.
    eapply wp_fuel_st; [done|]. wps. rewrite <-Haddr.
    pose proof (wf_at _ _ _ _ Hwf2) as (Hb1 & Hoe & Hb2).
    pose proof Hwf2 as [_ (_ & _ & Hwt)]%wf_app. pose proof Hwt as [HwM (Ho2 & Hl2 & Hw3)]%wf_app.
    rewrite <-Htot in Hst2.
    apply (wp_remove_middle _ A1 e' M (e2 :: A3)); try done.
    + intros x Hx. destruct (wf_elem _ _ _ HwM Hx) as (Hox%ok_lim & _ & ?). lia.
    + intros x [= <-]. lia.
    + rewrite !length_app. simpl. rewrite !length_app. lia.
    + intros s3 Hst3. wps. eapply HΦ; [done|]. split; [congruence|done|apply Hf..| | |].
      * destruct Hv3 as [?|[? ?]]; [by left|right; eauto].
      * split; [done|]. split; [lia|done].
      * intros j. rewrite <-Hbits, <-Hset, !in_set_app, !in_set_cons, !in_set_app, !in_set_cons.
        unfold range.
        pose proof (in_set_lim _ _ j (valid_wf _ _ _ (f_before _ _ _ _ _ Hf))) as H1.
        pose proof (in_set_lim _ _ j HwM) as H2. pose proof (in_ent_lim e' j) as H3.
        pose proof (in_set_lim _ _ j Hw3) as H4. pose proof (in_ent_lim e2 j) as H5.
        pose proof (f_lim _ _ _ _ _ Hf). pose proof (ok_lim _ Hoe). pose proof (ok_lim _ Ho2).
        pose proof (lim_ge _ _ HwM). intuition lia.
Qed.

(** The loops over the bits of the mask, with the count kept in step. *)
Definition masked s A e (m : Z) B : Prop :=
  in_mask m ∧ st s (A ++ with_mask e m :: B) (u64 (total (A ++ with_mask e m :: B))).
Lemma masked_change s A e m m' B d :
  popcount m' = popcount m + d →
  total (A ++ with_mask e m' :: B) = total (A ++ with_mask e m :: B) + d.
Proof. intros Hp. apply total_change. unfold cnt. simpl. lia. Qed.
Lemma wp_set_mask_bits A e B (Φ : unit → sparsebit → Prop) s :
  masked s A e (e_mask e) B → (∀ s', masked s' A e FULL B → Φ tt s') →
  wp (set_mask_bits (addr e)) Φ s.
Proof.
  intros Hs HΦ. unfold set_mask_bits.
  apply (wp_each (λ k _ s, ∃ m, masked s A e m B ∧ ∀ j, 0 ≤ j < Z.of_nat k → Z.testbit m j = true)).
  - exists (e_mask e). split; [done|]. lia.
  - intros k [] s1 Hk (m & [Hm Hst] & Hbits). change (addr e) with (addr (with_mask e m)). wps.
    eapply (wp_load_st A (with_mask e m) B); [done|]. intros par lc rc. cbn [mk mask].
    rewrite has_bit_spec by lia. cbn [with_mask e_mask].
    destruct (Z.testbit m (Z.of_nat k)) eqn:Eb; cbn [negb]; wps.
    + exists m. split; [done|]. intros j Hj. destruct (decide (j = Z.of_nat k)) as [->|]; [done|].
      apply Hbits. lia.
    + eapply (wp_upd_st A (with_mask e m) B _ _ (with_mask e (Z.lor m (bit1 (Z.of_nat k)))));
        [done..|]. intros s2 Hst2. wps. eapply wp_set_num_set; [done|]. intros s3 Hst3.
      exists (Z.lor m (bit1 (Z.of_nat k))). split; [split|].
      * apply lor_mask; [done|lia].
      * rewrite (masked_change s A e m _ B 1) by (apply popcount_set; [lia|done]).
        by rewrite u64_add in Hst3.
      * intros j Hj. rewrite lor_bit by lia. case_bool_decide; [apply orb_true_r|].
        rewrite Hbits by lia. done.
  - intros [] s1 (m & [Hm Hst] & Hbits). apply HΦ. replace FULL with m; [done|].
    apply mask_ext; [done|apply FULL_mask|]. intros i Hi. rewrite FULL_bits, Hbits by (simpl; lia).
    by rewrite bool_decide_true.
Qed.
Lemma wp_clear_mask_bits A e B (Φ : unit → sparsebit → Prop) s :
  masked s A e (e_mask e) B → (∀ s', masked s' A e 0 B → Φ tt s') →
  wp (clear_mask_bits (addr e)) Φ s.
Proof.
  intros Hs HΦ. unfold clear_mask_bits.
  apply (wp_each (λ k _ s, ∃ m, masked s A e m B ∧ ∀ j, 0 ≤ j < Z.of_nat k → Z.testbit m j = false)).
  - exists (e_mask e). split; [done|]. lia.
  - intros k [] s1 Hk (m & [Hm Hst] & Hbits). change (addr e) with (addr (with_mask e m)). wps.
    eapply (wp_load_st A (with_mask e m) B); [done|]. intros par lc rc. cbn [mk mask].
    rewrite has_bit_spec by lia. cbn [with_mask e_mask].
    destruct (Z.testbit m (Z.of_nat k)) eqn:Eb; wps.
    + eapply (wp_upd_st A (with_mask e m) B _ _
                (with_mask e (Z.land m (FULL - bit1 (Z.of_nat k))))); [done..|].
      intros s2 Hst2. wps. eapply wp_set_num_set; [done|]. intros s3 Hst3.
      exists (Z.land m (FULL - bit1 (Z.of_nat k))). split; [split|].
      * by apply land_mask.
      * rewrite (masked_change s A e m _ B (-1)) by (rewrite popcount_clear by (done || lia); lia).
        by rewrite u64_sub in Hst3.
      * intros j Hj. rewrite land_bit by (done || lia). case_bool_decide; [apply andb_false_r|].
        rewrite Hbits by lia. done.
    + exists m. split; [done|]. intros j Hj. destruct (decide (j = Z.of_nat k)) as [->|]; [done|].
      apply Hbits. lia.
  - intros [] s1 (m & [Hm Hst] & Hbits). apply HΦ. replace 0 with m; [done|].
    apply mask_zero; [done|]. intros i Hi. apply Hbits. simpl. lia.
Qed.

(** After the middle node was rewritten to [k] set bits. *)
Lemma wp_finish_middle A a w A1 e B v k m P (Φ : unit → sparsebit → Prop) s :
  st s (A1 ++ Ent (addr e) a k m :: B) (u64 (total (A1 ++ Ent (addr e) a k m :: B))) →
  middle A a w A1 e B → (∀ j, in_set A j ↔ P j) → 32 ≤ w → 0 ≤ a → a mod 32 = 0 →
  a + w ≤ 2 ^ 64 → (if v : bool then k = w - 32 ∧ m = FULL else k = 0 ∧ m = 0) →
  (∀ s', sb s' (put v (range a w) P) → Φ tt s') →
  wp (node_reduce (addr e)) Φ s.
Proof.
  intros Hst Hmid HP Hw Ha Hm Hl Hv HΦ. set (x := Ent (addr e) a k m) in *.
  change (addr e) with (addr x).
  eapply (wp_node_reduce A1 x B); [exact Hst|done| |].
  - split; [apply Hmid|]. split; [|split; [|apply Hmid]].
    + unfold ok_ent, e_lim, x. cbn [e_idx e_num e_mask].
      destruct v, Hv as [-> ->]; split_and!; try done; lia.
    + unfold fits, x, e_lim, empty_ent. cbn [e_idx e_num e_mask].
      pose proof (m_lim _ _ _ _ _ _ Hmid). pose proof (m_wf _ _ _ _ _ _ Hmid) as Hwf.
      destruct v, Hv as [-> ->].
      * right. right. split_and!; [done..|]. by replace (a + 32 + (w - 32)) with (a + w) by lia.
      * left. split; [done|]. eapply wf_mono; [|done]. lia.
  - intros s' A' Hst' Hval Hset Htot. apply HΦ. exists A'. rewrite Htot. split_and!; [done..|].
    intros j. rewrite Hset, in_set_app, in_set_cons. pose proof (m_bits _ _ _ _ _ _ Hmid j) as Hbits.
    rewrite HP in Hbits. unfold put, range in *.
    assert (in_ent x j ↔ v = true ∧ a ≤ j < a + w) as ->.
    { unfold in_ent, covers, e_lim, x. cbn [e_idx e_num e_mask]. destruct v, Hv as [-> ->].
      - rewrite FULL_bits, bool_decide_eq_true. lia.
      - rewrite Z.testbit_0_l. split; [|by intros []]. intros [? [?|?]]; [lia|done]. }
    destruct (decide (a ≤ j < a + w)); destruct v; intuition done.
Qed.

(** ** Ranges *)
(** The middle blocks of the two functions, and what they have in common. *)
Definition middle_block (v : bool) (middle_start middle_end : Z) : S_ unit :=
  nodep ← split_middle middle_start middle_end;
  if v then
    set_mask_bits nodep;;
    x ← load nodep;
    set_num_set (λ c, u64 (c - num_after x));;
    let after := u64 (middle_end - middle_start + 1 - MASK_BITS) in
    upd nodep (set_num_after after);;
    set_num_set (λ c, u64 (c + after));;
    node_reduce nodep
  else
    clear_mask_bits nodep;;
    x ← load nodep;
    set_num_set (λ c, u64 (c - num_after x));;
    upd nodep (set_num_after 0);;
    node_reduce nodep.
Definition put_num (v : bool) (start num : Z) : S_ unit :=
  lift (assert_ (0 <? num));;
  lift (assert_ (start <=? u64 (start + num - 1)));;
  '(i, n) ← leading_loop 32 (bit_op v) start num;
  let middle_start := i in
  let middle_end := u64 (middle_start + align n - 1) in
  (if MASK_BITS <=? n then middle_block v middle_start middle_end else mret tt);;
  let i := u64 (middle_end + 1) in
  let n := u64 (n - u64 (middle_end - middle_start + 1)) in
  lift (assert_ (n <? MASK_BITS));;
  trailing_loop 32 (bit_op v) i n.
Lemma set_num_put : sparsebit_set_num = put_num true.
Proof. reflexivity. Qed.
Lemma clear_num_put : sparsebit_clear_num = put_num false.
Proof. reflexivity. Qed.

Lemma wp_middle_block v a w P (Φ : unit → sparsebit → Prop) s :
  sb s P → 0 ≤ a → a mod 32 = 0 → 32 ≤ w → w mod 32 = 0 → a + w ≤ 2 ^ 64 →
  (∀ s', sb s' (put v (range a w) P) → Φ tt s') →
  wp (middle_block v a (a + w - 1)) Φ s.
Proof.
  intros (A & Hst & Hv & HP) Ha Hm Hw Hwm Hl HΦ. unfold middle_block. wps.
  eapply wp_split_middle; [done..|]. intros s1 A1 e B Hst1 Hmid. cbn beta.
  assert (masked s1 A1 e (e_mask e) B) as Hmask.
  { split; [apply (m_ok _ _ _ _ _ _ Hmid)|]. by destruct e. }
  pose proof (m_idx _ _ _ _ _ _ Hmid) as Hidx.
  assert (∀ m c, total (A1 ++ Ent (addr e) a c m :: B) =
                 total (A1 ++ with_mask e m :: B) + (c - e_num e)) as Htot.
  { intros m c. apply total_change. unfold cnt. simpl. lia. }
  destruct v; wps.
  - eapply wp_set_mask_bits; [done|]. intros s2 [_ Hst2]. wps.
    change (addr e) with (addr (with_mask e FULL)).
    eapply (wp_load_st A1 (with_mask e FULL) B); [done|]. intros par lc rc. wps.
    eapply wp_set_num_set; [done|]. intros s3 Hst3. wps. unfold MASK_BITS.
    replace (u64 (a + w - 1 - a + 1 - 32)) with (w - 32)
      by (rewrite u64_small by (unfold in_u64; lia); lia).
    eapply (wp_upd_st A1 (with_mask e FULL) B _ _ (Ent (addr e) a (w - 32) FULL));
      [done|by intros; unfold mk; simpl; rewrite Hidx|done|]. intros s4 Hst4. wps.
    eapply wp_set_num_set; [done|]. intros s5 Hst5.
    change (addr (with_mask e FULL)) with (addr e).
    eapply (wp_finish_middle A a w A1 e B true (w - 32) FULL); [|done..].
    rewrite Htot. cbn [mk num_after with_mask e_num] in Hst5.
    rewrite u64_add, u64_sub, u64_add in Hst5 || rewrite u64_sub, u64_add in Hst5.
    by replace (total (A1 ++ with_mask e FULL :: B) + (w - 32 - e_num e))
      with (total (A1 ++ with_mask e FULL :: B) - e_num e + (w - 32)) by lia.
  - eapply wp_clear_mask_bits; [done|]. intros s2 [_ Hst2]. wps.
    change (addr e) with (addr (with_mask e 0)).
    eapply (wp_load_st A1 (with_mask e 0) B); [done|]. intros par lc rc. wps.
    eapply wp_set_num_set; [done|]. intros s3 Hst3. wps.
    eapply (wp_upd_st A1 (with_mask e 0) B _ _ (Ent (addr e) a 0 0));
      [done|by intros; unfold mk; simpl; rewrite Hidx|done|]. intros s4 Hst4.
    change (addr (with_mask e 0)) with (addr e).
    eapply (wp_finish_middle A a w A1 e B false 0 0); [|done..].
    rewrite Htot. cbn [mk num_after with_mask e_num] in Hst4. rewrite u64_sub in Hst4.
    by rewrite Z.add_sub_assoc, Z.add_0_r.
Qed.

(** Setting and clearing a range that does not wrap. *)
Lemma wp_put_num v start num P (Φ : unit → sparsebit → Prop) s :
  sb s P → 0 ≤ start → 0 < num < 2 ^ 64 → start + num ≤ 2 ^ 64 →
  (∀ s', sb s' (put v (range start num) P) → Φ tt s') →
  wp (put_num v start num) Φ s.
Proof.
  intros Hsb Hs Hn Hl HΦ. unfold put_num. wps. apply owp_assert; [apply Z.ltb_lt; lia|].
  wps. apply owp_assert; [rewrite u64_small by (unfold in_u64; lia); apply Z.leb_le; lia|].
  wps. apply (wp_leading v 32 start num P); [done|unfold in_u64; lia..|done| |].
  { pose proof (Z.mod_pos_bound start 32). lia. }
  intros s1 d Hd Hend Hsb1. wps. set (n := num - d). set (a := u64 (start + d)).
  assert (align n = n / 32 * 32) as -> by (apply align_spec; unfold in_u64, n; lia).
  set (w := n / 32 * 32). unfold MASK_BITS.
  pose proof (Z.div_mod n 32) as Hdiv. pose proof (Z.mod_pos_bound n 32) as Hmod.
  assert (0 ≤ w ≤ n ∧ n - w < 32 ∧ w mod 32 = 0) as (Hw1 & Hw2 & Hw3).
  { unfold w, n in *. rewrite Z.mod_mul by done. lia. }
  assert (0 < n → a = start + d) as Han.
  { intros ?. unfold a, n in *. apply u64_small. unfold in_u64. lia. }
  (* the middle *)
  apply (wp_mono _ (λ _ s2, sb s2 (put v (range start (d + w)) P))).
  { destruct (Z.leb_spec 32 n) as [H32|H32].
    - assert (a = start + d) as -> by (apply Han; lia). assert (32 ≤ w) by lia.
      rewrite (u64_small (start + d + w - 1)) by (unfold in_u64, n in *; lia).
      apply (wp_middle_block v (start + d) w (put v (range start d) P)); try done; [lia| |unfold n in *; lia|].
      + destruct Hend as [->|?]; [unfold n in *; lia|done].
      + intros s2 Hsb2. apply sb_put_step; [lia..|done].
    - wps. replace (d + w) with d; [done|]. assert (n / 32 = 0) by (apply Z.div_small; lia).
      unfold w. lia. }
  intros [] s2 Hsb2. wps.
  assert (u64 (n - u64 (u64 (a + w - 1) - a + 1)) = n - w) as ->.
  { rewrite u64_sub_r. replace (n - (u64 (a + w - 1) - a + 1)) with (n + a - 1 - u64 (a + w - 1)) by lia.
    rewrite u64_sub_r. replace (n + a - 1 - (a + w - 1)) with (n - w) by lia.
    apply u64_small. unfold in_u64, n in *. lia. }
  rewrite u64_add. replace (a + w - 1 + 1) with (a + w) by lia.
  apply owp_assert; [apply Z.ltb_lt; lia|]. wps.
  apply (wp_trailing v 32 _ _ (put v (range start (d + w)) P)); [done|done| | |].
  - lia.
  - destruct (decide (n = w)) as [Hnw|].
    + pose proof (u64_range (a + w)) as [_ ?]. lia.
    + rewrite Han by lia. rewrite u64_small; unfold in_u64, n in *; lia.
  - intros s3 Hsb3. apply HΦ. replace num with (d + w + (n - w)) by (unfold n; lia).
    apply sb_put_step; [lia..|]. destruct (decide (n = w)) as [Hnw|].
    + rewrite Hnw, Z.sub_diag in *. eapply sb_ext; [|exact Hsb3]. intros j. by rewrite !put_empty.
    + rewrite Han in Hsb3 by lia. rewrite u64_small in Hsb3 by (unfold in_u64, n in *; lia).
      by rewrite Z.add_assoc.
Qed.
