(* ===== verification/SparsebitCount.v ===== *)
(** * selftests: the number of bits and the whole array

    The count is the size of the set modulo 2^64; an array with all bits set is
    a single node. Clearing everything releases every node. *)

From S2P Require Import Prelude Sparsebit SparsebitOps SparsebitTree SparsebitSearch.
From S2P Require Import SparsebitBits SparsebitReduce SparsebitRange.

Implicit Types (e x : ent) (A B : list ent) (s : sparsebit) (P R : Z → Prop).

(** ** The set of an array *)
Definition ent_bits e : list Z :=
  ((λ j, e_idx e + j) <$> mask_bits (e_mask e)) ++ seqZ (e_idx e + 32) (e_num e).
Definition all_bits A : list Z := A ≫= ent_bits.

Lemma elem_of_ent_bits e i : ok_ent e → i ∈ ent_bits e ↔ in_ent e i.
Proof.
  intros (? & ? & Hn & ? & Hm). unfold ent_bits, in_ent, covers, e_lim.
  rewrite elem_of_app, list_elem_of_fmap, elem_of_seqZ. split.
  - intros [(j & -> & [Hj ?]%elem_of_mask_bits)|?]; [|lia]. split; [lia|right].
    by replace (e_idx e + j - e_idx e) with j by lia.
  - intros [? [?|Hb]]; [right; lia|left]. exists (i - e_idx e). split; [lia|].
    apply elem_of_mask_bits. split; [done|]. by eapply testbit_range.
Qed.
Lemma ent_bits_NoDup e : ok_ent e → NoDup (ent_bits e).
Proof.
  intros Ho. unfold ent_bits. apply NoDup_app. split_and!.
  - apply NoDup_fmap; [intros a b; lia|apply mask_bits_NoDup].
  - intros i (j & -> & [_ ?]%elem_of_mask_bits)%list_elem_of_fmap. rewrite elem_of_seqZ. lia.
  - apply NoDup_seqZ.
Qed.
Lemma length_ent_bits e : ok_ent e → Z.of_nat (length (ent_bits e)) = cnt e.
Proof.
  intros (? & ? & ? & _). unfold ent_bits, cnt, popcount.
  rewrite length_app, length_fmap, length_seqZ. lia.
Qed.
Lemma elem_of_all_bits b A i : wf_from b A → i ∈ all_bits A ↔ in_set A i.
Proof.
  intros Hw%wf_Forall. unfold all_bits, in_set. rewrite list_elem_of_bind, Exists_exists.
  rewrite Forall_forall in Hw. split; intros (e & H1 & H2); exists e.
  - split; [done|]. apply elem_of_ent_bits; auto.
  - split; [|done]. apply elem_of_ent_bits; auto.
Qed.
Lemma all_bits_NoDup b A : wf_from b A → NoDup (all_bits A).
Proof.
  revert b. induction A as [|e A IH]; intros b; [constructor|]. intros (Ho & ? & Hw).
  apply NoDup_app. split_and!; [by apply ent_bits_NoDup| |by eapply IH].
  intros i Hi Hi'. rewrite (elem_of_all_bits (e_lim e)) in Hi' by done.
  apply elem_of_ent_bits, in_ent_lim in Hi; [|done]. apply (in_set_lim (e_lim e)) in Hi'; [lia|done].
Qed.
Lemma length_all_bits b A : wf_from b A → Z.of_nat (length (all_bits A)) = total A.
Proof.
  revert b. induction A as [|e A IH]; intros b; [done|]. intros (Ho & ? & Hw).
  cbn [all_bits mbind list_bind total foldr]. unfold all_bits in IH. unfold total in IH.
  rewrite length_app, Nat2Z.inj_add, length_ent_bits by done. by rewrite (IH (e_lim e)).
Qed.
Definition bit_set_of A : gset Z := list_to_set (all_bits A).
Lemma elem_of_bit_set b A i : wf_from b A → i ∈ bit_set_of A ↔ in_set A i.
Proof. intros Hw. unfold bit_set_of. by rewrite elem_of_list_to_set, (elem_of_all_bits b). Qed.
Lemma size_bit_set b A : wf_from b A → Z.of_nat (size (bit_set_of A)) = total A.
Proof.
  intros Hw. unfold bit_set_of. rewrite size_list_to_set by (by eapply all_bits_NoDup).
  by eapply length_all_bits.
Qed.

(** ** Empty and full arrays *)
Lemma in_set_u64 b A i : wf_from b A → in_set A i → in_u64 i.
Proof.
  intros Hw%wf_0 Hi%(in_set_lim 0); [|done]. pose proof (lim_le 0 A Hw). unfold in_u64. lia.
Qed.
Lemma sb_u64 s P i : sb s P → P i → in_u64 i.
Proof.
  intros (A & _ & Hv%valid_wf & HP) Hi%HP. by eapply in_set_u64.
Qed.
Lemma ent_has_bit e : ok_ent e → e_mask e ≠ 0 → ∃ i, in_ent e i.
Proof.
  intros Ho Hm. pose proof Ho as (? & ? & ? & ? & Hmask). exists (e_idx e + Z.log2 (e_mask e)).
  assert (Z.testbit (e_mask e) (Z.log2 (e_mask e)) = true) as Hb by (apply Z.bit_log2; lia).
  pose proof (testbit_range _ _ Hmask Hb). split; [unfold covers, e_lim; lia|right].
  by replace (e_idx e + Z.log2 (e_mask e) - e_idx e) with (Z.log2 (e_mask e)) by lia.
Qed.
Lemma valid_nonempty e A : valid (e :: A) → ∃ i, in_set (e :: A) i.
Proof.
  intros (Ho & _ & Hm & _). destruct (ent_has_bit e Ho Hm) as [i Hi]. exists i. by left.
Qed.
Lemma valid_empty A : valid A → (∀ i, ¬ in_set A i) → A = [].
Proof. destruct A; [done|]. intros [i Hi]%valid_nonempty Hno. by destruct (Hno i). Qed.
Lemma total_full b A : wf_from b A → total A = 2 ^ 64 ↔ ∀ i, in_u64 i → in_set A i.
Proof.
  intros Hw. set (U := list_to_set (seqZ 0 (2 ^ 64)) : gset Z).
  assert (∀ i, i ∈ U ↔ in_u64 i) as HU.
  { intros i. unfold U. rewrite elem_of_list_to_set, elem_of_seqZ. unfold in_u64. lia. }
  assert (Z.of_nat (size U) = 2 ^ 64) as HsU.
  { unfold U. rewrite size_list_to_set by apply NoDup_seqZ. rewrite length_seqZ. lia. }
  clearbody U. rewrite <-(size_bit_set b A Hw). split.
  - intros Hs i Hi%HU. apply (elem_of_bit_set b A i Hw).
    assert (bit_set_of A ≡ U) as ->; [|done]. apply set_subseteq_size_equiv; [|lia].
    intros j Hj%(elem_of_bit_set b A j Hw). apply HU. by eapply in_set_u64.
  - intros Hall. rewrite <-HsU. do 2 f_equal. apply set_eq. intros i.
    rewrite (elem_of_bit_set b), HU by done. split; [|by apply Hall]. by apply (in_set_u64 b).
Qed.

(** When all bits are set there is one node, which describes everything. *)
Lemma full_single A :
  valid A → (∀ i, in_u64 i → in_set A i) →
  ∃ e, A = [e] ∧ e_idx e = 0 ∧ e_num e = 2 ^ 64 - 32 ∧ e_mask e = FULL.
Proof.
  intros Hv Hall. pose proof (valid_wf _ _ _ Hv) as Hw.
  assert (∀ e B, A = e :: B → ∀ i, e_idx e ≤ i < e_idx e + 32 →
    Z.testbit (e_mask e) (i - e_idx e) = true) as Hbits.
  { intros e B -> i Hi. pose proof Hw as (Ho & _). pose proof Ho as (? & ? & ? & Hl & ?).
    unfold e_lim in Hl.
    assert (in_set (e :: B) i) as Hin by (apply Hall; unfold in_u64; lia).
    rewrite (in_set_at (-1) [] B e) in Hin; [|done|unfold covers, e_lim; lia].
    destruct Hin as [_ [?|?]]; [lia|done]. }
  destruct A as [|e [|x B]].
  - exfalso. assert (in_set [] 0) as []%in_set_nil by (by apply Hall).
  - exists e. split; [done|]. pose proof Hw as (Ho & _). pose proof Ho as (? & ? & ? & Hl & Hm).
    assert (in_ent e 0) as [Hc0 _].
    { apply (in_set_at (-1) [] [] e); [done| |by apply Hall].
      specialize (Hall 0 ltac:(done)). apply Exists_cons in Hall as [[? _]|[]%Exists_nil]. done. }
    specialize (Hall (2 ^ 64 - 1) ltac:(done)). apply Exists_cons in Hall as [[Hc1 _]|[]%Exists_nil].
    unfold covers, e_lim in *. split_and!; [lia|lia|].
    apply mask_ext; [done|apply FULL_mask|]. intros i Hi. rewrite FULL_bits, bool_decide_true by done.
    replace i with (e_idx e + i - e_idx e) by lia. eapply Hbits; [done|]. lia.
  - exfalso. pose proof Hv as (Ho & _ & _ & _ & (Hox & Hix & Hmx & Hfx & HB)).
    pose proof (valid_wf _ _ _ HB) as HwB. pose proof Hox as (? & ? & ? & Hl & Hm).
    pose proof (top_le_lim e Ho) as Htop. pose proof (ok_lim e Ho). unfold e_lim in Hl.
    assert (∀ i, e_idx x ≤ i < e_idx x + 32 → Z.testbit (e_mask x) (i - e_idx x) = true) as Hx.
    { intros i Hi. assert (in_set ([e] ++ x :: B) i) as Hin by (apply Hall; unfold in_u64; lia).
      rewrite (in_set_at (-1) [e] B x) in Hin; [|done|unfold covers, e_lim; lia].
      destruct Hin as [_ [?|?]]; [lia|done]. }
    assert (e_mask x = FULL) as Hfull.
    { apply mask_ext; [done|apply FULL_mask|]. intros i Hi.
      rewrite FULL_bits, bool_decide_true by done.
      replace i with (e_idx x + i - e_idx x) by lia. apply Hx. lia. }
    assert (in_set (e :: x :: B) (e_idx x - 1)) as Hin.
    { apply Hall. unfold in_u64. destruct Ho as (? & _). lia. }
    rewrite !in_set_cons in Hin. destruct Hin as [[Hc Hb]|[Hin|Hin]].
    + apply (Hfx Hfull). unfold e_top, covers in *. destruct Ho as (? & ? & ? & ? & Hme).
      destruct (Z.eqb_spec (e_num e) 0); [|lia]. unfold e_lim in *.
      destruct Hb as [Hb|Hb]; [lia|].
      assert (e_idx x - 1 - e_idx e ≤ Z.log2 (e_mask e)); [|lia].
      destruct (decide (e_idx x - 1 - e_idx e ≤ Z.log2 (e_mask e))); [done|].
      rewrite Z.bits_above_log2 in Hb; [done|lia|lia].
    + apply in_ent_lim in Hin. lia.
    + apply (in_set_lim (e_lim x)) in Hin; [|done]. unfold e_lim in Hin. lia.
Qed.

(** ** Questions about the whole array *)
Lemma sb_count s P :
  sb s P → ∃ X : gset Z, (∀ i, i ∈ X ↔ P i) ∧ num_set s = u64 (Z.of_nat (size X)).
Proof.
  intros (A & [_ Hn] & Hv%valid_wf & HP). exists (bit_set_of A). split.
  - intros i. by rewrite (elem_of_bit_set (-1)).
  - by rewrite (size_bit_set (-1)).
Qed.
(** Whether an index is missing can be decided. *)
Lemma sb_missing s P : sb s P → (∀ i, in_u64 i → P i) ∨ ∃ i, in_u64 i ∧ ¬ P i.
Proof.
  intros (X & HX & _)%sb_count. assert (∃ U : gset Z, ∀ i, i ∈ U ↔ in_u64 i) as [U HU].
  { exists (list_to_set (seqZ 0 (2 ^ 64))). intros i.
    rewrite elem_of_list_to_set, elem_of_seqZ. unfold in_u64. lia. }
  destruct (set_choose_or_empty (U ∖ X)) as [[i Hi]|He].
  - right. exists i. rewrite <-HU, <-HX. set_solver.
  - left. intros i. rewrite <-HU, <-HX. destruct (decide (i ∈ X)); set_solver.
Qed.
Lemma wp_all_set P (Φ : bool → sparsebit → Prop) s :
  sb s P → (∀ r : bool, (r = true ↔ ∀ i, in_u64 i → P i) → Φ r s) → wp sparsebit_all_set Φ s.
Proof.
  intros (A & Hst & Hv & HP) HΦ. unfold sparsebit_all_set. wps. apply wp_get. wps. apply HΦ.
  pose proof (valid_wf _ _ _ Hv) as Hw. pose proof (total_range _ _ Hw) as Hr.
  assert ((∀ i, in_u64 i → P i) ↔ total A = 2 ^ 64) as ->.
  { rewrite (total_full (-1)) by done. by setoid_rewrite HP. }
  pose proof (st_root _ _ _ Hst) as Hroot. rewrite (proj2 Hst). destruct (root s).
  - rewrite Z.eqb_eq. split; [|by intros ->]. intros Hz.
    destruct (decide (total A = 2 ^ 64)) as [|Hne]; [done|].
    rewrite u64_small in Hz by (unfold in_u64; lia). exfalso.
    assert (A = []) as HA; [|by apply Hroot in HA]. destruct A as [|e A]; [done|]. exfalso.
    pose proof Hv as (Ho & _ & Hm & _ & HA). pose proof (total_range _ _ (valid_wf _ _ _ HA)).
    simpl in Hz. unfold cnt in Hz. pose proof (popcount_range (e_mask e)).
    destruct Ho as (_ & _ & ? & _ & Hmask). pose proof (popcount_0 (e_mask e) Hmask). intuition lia.
  - destruct Hroot as [Hroot _]. rewrite Hroot by done. split; [done|].
    unfold total. simpl. lia.
Qed.
Lemma wp_any_set P (Φ : bool → sparsebit → Prop) s :
  sb s P → (∀ r : bool, (r = true ↔ ∃ i, P i) → Φ r s) → wp sparsebit_any_set Φ s.
Proof.
  intros (A & Hst & Hv & HP) HΦ. unfold sparsebit_any_set. wps. apply wp_get.
  pose proof (st_root _ _ _ Hst) as Hroot. pose proof (valid_wf _ _ _ Hv) as Hw.
  pose proof Hst as [(t & Ht & HA) Hn].
  destruct (root s) as [p|] eqn:Er; cycle 1.
  { wps. apply HΦ. assert (A = []) as -> by (by apply Hroot). split; [done|].
    intros [i Hi%HP]. by apply in_set_nil in Hi. }
  rewrite (tr_root s t Ht) in Er. destruct t as [|l e r]; [done|]. injection Er as <-.
  simpl in HA. subst A. wps. eapply (wp_load_st (inorder l) e (inorder r)); [done|].
  intros par lc rc. wps. cbn [mk mask num_after].
  assert (e_mask e ≠ 0) as Hm by (eapply valid_elem; [done|set_solver]).
  apply owp_assert; [by apply negb_true_iff, Z.eqb_neq|]. wps. apply owp_assert.
  { rewrite Hn. pose proof (u64_range (total (inorder l ++ e :: inorder r))) as [? _].
    destruct (Z.ltb_spec 0 (u64 (total (inorder l ++ e :: inorder r)))); [done|].
    pose proof (total_range _ _ Hw) as Htr.
    destruct (decide (total (inorder l ++ e :: inorder r) = 2 ^ 64)) as [Hfull|Hne].
    - destruct (full_single _ Hv) as (x & Hx & Hi & Hk & Hx2).
      { by apply (total_full (-1)). }
      destruct (inorder l) as [|? [|]]; simplify_eq/=. rewrite Hk, Hx2. done.
    - exfalso. rewrite u64_small in * by (unfold in_u64; lia).
      pose proof Hw as [HL (Ho & _ & HR)]%wf_app.
      pose proof (total_range _ _ HL). pose proof (total_range _ _ HR). rewrite bits_total_app in *.
      simpl in *. unfold cnt in *. pose proof (popcount_range (e_mask e)).
      destruct Ho as (_ & _ & ? & _ & Hmask). pose proof (popcount_0 (e_mask e) Hmask).
      intuition lia. }
  wps. apply HΦ. split; [|done]. intros _.
  destruct (ent_has_bit e) as [i Hi]; [by apply wf_app in Hw as [_ (? & _)]|done|].
  exists i. apply HP, in_set_app. right. by left.
Qed.

Lemma put_all v P j : in_u64 j → put v (range 1 (2 ^ 64 - 1)) (put v (range 0 1) P) j ↔ v = true.
Proof. intros Hj. unfold put, range, in_u64 in *. destruct v; intuition (done || lia). Qed.
Lemma wp_set_all P (Φ : unit → sparsebit → Prop) s :
  sb s P → (∀ s', sb s' in_u64 → Φ tt s') → wp sparsebit_set_all Φ s.
Proof.
  intros Hsb HΦ. unfold sparsebit_set_all, sparsebit_set. rewrite set_num_put. wps.
  apply (wp_put_num true 0 1 P); [done..|]. intros s1 Hsb1. wps.
  apply (wp_put_num true 1 (2 ^ 64 - 1) _ _ s1 Hsb1); [done..|]. intros s2 Hsb2. wps.
  assert (sb s2 in_u64) as Hall.
  { eapply sb_ext; [|exact Hsb2]. intros i. split; [by eapply sb_u64|].
    intros Hi. by apply put_all. }
  apply (wp_all_set in_u64); [done|]. intros r Hr. wps. apply owp_assert; [by apply Hr|].
  by apply HΦ.
Qed.
Lemma wp_clear_all P (Φ : unit → sparsebit → Prop) s :
  sb s P → (∀ s', sb s' (λ _, False) → mem s' = ∅ → root s' = None → Φ tt s') →
  wp sparsebit_clear_all Φ s.
Proof.
  intros Hsb HΦ. unfold sparsebit_clear_all, sparsebit_clear. rewrite clear_num_put. wps.
  apply (wp_put_num false 0 1 P); [done..|]. intros s1 Hsb1. wps.
  apply (wp_put_num false 1 (2 ^ 64 - 1) _ _ s1 Hsb1); [done..|]. intros s2 Hsb2. wps.
  assert (sb s2 (λ _, False)) as Hno.
  { eapply sb_ext; [|exact Hsb2]. intros i. split; [|done]. intros Hi.
    pose proof (sb_u64 _ _ _ Hsb2 Hi) as Hi64. by apply put_all in Hi. }
  apply (wp_any_set (λ _, False)); [done|]. intros r Hr. wps. apply owp_assert.
  { destruct r; [|done]. by destruct (proj1 Hr eq_refl). }
  destruct Hno as (A & Hst & Hv & HP). assert (A = []) as -> by (by apply valid_empty; [|intros i ?%HP]).
  apply HΦ; [by exists []| |].
  - destruct Hst as [(t & Ht & Hi) _]. apply map_empty. intros p. apply eq_None_not_Some.
    rewrite (tr_dom s2 t Ht). unfold addrs. rewrite Hi. set_solver.
  - by apply (st_root _ _ _ Hst).
Qed.
