(* ===== verification/SparsebitCopy.v ===== *)
(** * selftests: copying a sparse bit array

    The copy is made of fresh nodes with the same data in the same order. *)

From S2P Require Import Prelude Sparsebit SparsebitOps SparsebitTree SparsebitSearch.
From S2P Require Import SparsebitBits SparsebitReduce SparsebitRange SparsebitCount.

Implicit Types (t l r : tree) (e x : ent) (A B : list ent) (s : sparsebit) (P : Z → Prop).

Definition data e : Z * Z * Z := (e_idx e, e_num e, e_mask e).
(** [t'] is a copy of [t] in the new part of the memory. *)
Record copied s t s' t' : Prop := {
  cp_data : data <$> inorder t' = data <$> inorder t;
  cp_shape : shape (mem s') None t';
  cp_nodup : NoDup (addrs t');
  cp_new : ∀ q, q ∈ addrs t' → (brk s ≤ q < brk s')%nat;
  cp_old : ∀ q, (q < brk s)%nat → mem s' !! q = mem s !! q;
  cp_dom : ∀ q, is_Some (mem s' !! q) → (q < brk s)%nat ∨ q ∈ addrs t';
  cp_root : root s' = root s;
  cp_num : num_set s' = num_set s;
  cp_oom : oom s' = [];
  cp_brk : (brk s ≤ brk s')%nat
}.
Definition below s : Prop := oom s = [] ∧ ∀ q, is_Some (mem s !! q) → (q < brk s)%nat.
Lemma copied_below s t s' t' : copied s t s' t' → below s'.
Proof.
  intros H. split; [apply H|]. intros q [Hq|Hq]%(cp_dom _ _ _ _ H).
  - pose proof (cp_brk _ _ _ _ H). lia.
  - by apply (cp_new _ _ _ _ H).
Qed.

(** One child: nothing, or a copy hung below the new node [r]. *)
Definition child_copied s t (r : nat) s' t' : Prop :=
  data <$> inorder t' = data <$> inorder t ∧ shape (mem s') (Some r) t' ∧ NoDup (addrs t') ∧
  (∀ q, q ∈ addrs t' → (brk s ≤ q < brk s')%nat) ∧
  (∀ q, (q < brk s)%nat → q ≠ r → mem s' !! q = mem s !! q) ∧
  (∀ q, is_Some (mem s' !! q) → (q < brk s)%nat ∨ q ∈ addrs t') ∧
  root s' = root s ∧ num_set s' = num_set s ∧ oom s' = [] ∧ (brk s ≤ brk s')%nat.
Lemma wp_copy_child (copy : nat → S_ nat) t (r : nat) n (set : option nat → node → node)
    (Φ : unit → sparsebit → Prop) s :
  below s → mem s !! r = Some n →
  (t ≠ Leaf → ∀ p (Ψ : nat → sparsebit → Prop), rt t = Some p →
    (∀ s' t' c, copied s t s' t' → rt t' = Some c → Ψ c s') → wp (copy p) Ψ s) →
  (∀ s' t', child_copied s t r s' t' →
    mem s' !! r = Some (if rt t' then set (rt t') n else n) → (rt t = None → rt t' = None) →
    (rt t ≠ None → rt t' ≠ None) → Φ tt s') →
  wp (match rt t with
      | Some q => c ← copy q; upd r (set (Some c));; upd c (set_parent (Some r))
      | None => mret tt
      end) Φ s.
Proof.
  intros Hb Hr Hcopy HΦ. destruct (rt t) as [p|] eqn:Ep.
  - wps. eapply Hcopy; [by intros ->|done|]. intros s1 t' c Hc Hrt. wps.
    assert (r < brk s)%nat as Hlt by (apply Hb; eauto).
    pose proof (rt_elem t' c Hrt) as Hin. pose proof (cp_new _ _ _ _ Hc c Hin).
    assert (mem s1 !! r = Some n) as Hr1 by (by rewrite (cp_old _ _ _ _ Hc)).
    assert (r ≠ c) by lia.
    assert (r ∉ addrs t') as Hrn by (intros Hx%(cp_new _ _ _ _ Hc); lia).
    assert (∃ nc, mem s1 !! c = Some nc) as [nc Hnc].
    { pose proof (cp_shape _ _ _ _ Hc) as Hs. destruct t'; [done|]. injection Hrt as <-.
      destruct Hs as (-> & _). eauto. }
    apply (wp_upd _ _ _ _ _ Hr1). eapply wp_upd; [simpl; by rewrite lookup_insert_ne|]. simpl.
    apply (HΦ _ t').
    + split; [apply Hc|]. split; [|split; [apply Hc|]].
      * simpl. eapply shape_reparent; [|done|apply Hc|by rewrite lookup_insert_ne].
        apply shape_insert_out; [done|apply Hc].
      * simpl. split_and!; try exact (cp_brk _ _ _ _ Hc); try apply Hc.
        -- intros q Hq Hne. rewrite !lookup_insert_ne by lia. by apply Hc.
        -- intros q. rewrite (dom_insert_same _ c nc), (dom_insert_same _ r n);
             [apply Hc|done|by rewrite lookup_insert_ne].
    + simpl. rewrite Hrt. rewrite lookup_insert_ne, fin_maps.lookup_insert, decide_True by done. done.
    + done.
    + by rewrite Hrt.
  - apply rt_None in Ep as ->. wps. apply (HΦ s Leaf); try done.
    split_and!; try done; [constructor|set_solver|..]; try apply Hb.
    intros q Hq. left. by apply Hb.
Qed.

Lemma wp_copy_subtree m t : ∀ f par p (Φ : nat → sparsebit → Prop) s,
  shape m par t → rt t = Some p → (length (inorder t) ≤ f)%nat → below s →
  (∀ s' t' c, copied s t s' t' → rt t' = Some c → Φ c s') →
  wp (copy_subtree f m p) Φ s.
Proof.
  induction t as [|l IHl e r IHr]; [done|].
  intros f par p Φ s (He & Hl & Hr) [= <-] Hf [Hoom Hbelow] HΦ.
  cbn [inorder] in Hf. rewrite length_app in Hf. cbn [length] in Hf.
  destruct f as [|f]; [lia|]. cbn [copy_subtree]. unfold calloc_node. wps.
  unfold wp at 1. rewrite Hoom. cbn [tail]. wps. rewrite He. eapply owp_access; [done|]. wps.
  eapply wp_upd; [simpl; by rewrite fin_maps.lookup_insert, decide_True|].
  unfold with_mem. cbn [root num_set mem brk oom mk left right]. rewrite insert_insert_eq.
  set (e' := Ent (brk s) (e_idx e) (e_num e) (e_mask e)).
  match goal with |- context [<[brk s := ?x]> (mem s)] => change x with (mk None None None e') end.
  match goal with |- wp _ _ ?x => set (s1 := x) end.
  assert (below s1) as Hb1.
  { split; [done|]. simpl. intros q. destruct (decide (q = brk s)) as [->|]; [lia|].
    rewrite lookup_insert_ne by done. intros Hq%Hbelow. lia. }
  wps. eapply (wp_copy_child (copy_subtree f m) l (brk s) (mk None None None e') set_left).
  { done. }
  { simpl. by rewrite fin_maps.lookup_insert, decide_True. }
  { intros _ q Ψ Hq HΨ. eapply IHl; [done..|lia|done|done]. }
  intros s2 l' (D2 & S2 & N2 & W2 & O2 & M2 & R2 & C2 & E2 & B2) Hr2 _ _. wps.
  assert (mem s2 !! brk s = Some (mk None (rt l') None e')) as Hn2.
  { rewrite Hr2. by destruct (rt l'). }
  assert (below s2) as Hb2.
  { split; [done|]. intros q [Hq|Hq]%M2; [lia|]. by apply W2. }
  eapply (wp_copy_child (copy_subtree f m) r (brk s) _ set_right); [done|exact Hn2| |].
  { intros _ q Ψ Hq HΨ. eapply IHr; [done..|lia|done|done]. }
  intros s3 r' (D3 & S3 & N3 & W3 & O3 & M3 & R3 & C3 & E3 & B3) Hr3 _ _. wps.
  subst s1. cbn [brk root num_set mem] in *.
  assert (mem s3 !! brk s = Some (mk None (rt l') (rt r') e')) as Hn3.
  { rewrite Hr3. by destruct (rt r'). }
  assert (addr e' = brk s) as Ha by done.
  apply (HΦ s3 (T l' e' r')); [|done]. split.
  - simpl. by rewrite !fmap_app, !fmap_cons, D2, D3.
  - split_and!; [done| |done]. eapply shape_ext; [|exact S2]. intros q Hq.
    apply O3; [apply W2 in Hq; lia|]. apply W2 in Hq. lia.
  - rewrite addrs_T. apply NoDup_app. split_and!; [done| |].
    + intros q Hq%W2. rewrite elem_of_cons. intros [->|Hq'%W3]; lia.
    + apply NoDup_cons. split; [|done]. intros Hq%W3. lia.
  - intros q. rewrite addrs_T, elem_of_app, elem_of_cons. intros [Hq%W2|[->|Hq%W3]]; simpl; lia.
  - intros q Hq. rewrite O3, O2, lookup_insert_ne by lia. done.
  - intros q. rewrite addrs_T, elem_of_app, elem_of_cons.
    intros Hs. destruct (M3 q Hs) as [Hq|Hq]; [|by right; right; right].
    destruct (decide (q = brk s)) as [->|]; [by right; right; left|].
    rewrite O3 in Hs by done. destruct (M2 q Hs) as [Hq2|Hq2]; [left; lia|by right; left].
  - congruence.
  - congruence.
  - done.
  - lia.
Qed.

(** ** Representations with the same data *)
Lemma same_data A B :
  data <$> A = data <$> B →
  (∀ i, in_set A i ↔ in_set B i) ∧ total A = total B ∧ ∀ b k, valid_from b k A → valid_from b k B.
Proof.
  revert B. induction A as [|x A IH]; intros [|y B]; try done.
  rewrite !fmap_cons. intros [= H1 H2 H3 Hrest]. destruct (IH B Hrest) as (Hset & Htot & Hval).
  assert (∀ i, in_ent x i ↔ in_ent y i) as Hin.
  { intros i. unfold in_ent, covers, e_lim. by rewrite H1, H2, H3. }
  split_and!.
  - intros i. by rewrite !in_set_cons, Hin, Hset.
  - simpl. unfold cnt. by rewrite H2, H3, Htot.
  - intros b k. cbn [valid_from]. unfold ok_ent, e_top, e_lim. rewrite H1, H2, H3. naive_solver.
Qed.

Lemma wp_copy src P Q (Φ : unit → sparsebit → Prop) s :
  sb src P → sb s Q → (∀ s', sb s' P → Φ tt s') → wp (sparsebit_copy src) Φ s.
Proof.
  intros (A & Hsrc & Hv & HP) Hsb HΦ. unfold sparsebit_copy. wps.
  apply (wp_clear_all Q); [done|]. intros s1 Hsb1 Hmem Hroot. wps.
  pose proof Hsrc as [(t & Ht & HA) Hn]. rewrite (tr_root src t Ht).
  destruct (rt t) as [p|] eqn:Ep.
  - wps. unfold node_copy_subtree. rewrite (srep_fuel src A) by apply Hsrc.
    assert (below s1) as Hb.
    { destruct Hsb1 as (A1 & [(t1 & Ht1 & _) _] & _). split; [apply Ht1|].
      intros q Hq%(tr_dom _ _ Ht1). by apply (tr_brk _ _ Ht1). }
    eapply (wp_copy_subtree (mem src) t); [apply Ht|done|by rewrite HA|done|].
    intros s2 t' c Hc Hrt. unfold set_root, set_num_set. wps.
    destruct (same_data (inorder t) (inorder t')) as (Hset & Htot & Hval).
    { symmetry. apply Hc. }
    apply HΦ. exists (inorder t'). split_and!.
    + split; [|simpl; by rewrite Hn, <-HA, Htot]. exists t'. split; [|done].
      split; simpl; [done|apply Hc|apply Hc| | |apply Hc].
      * intros q. split.
        -- intros Hs. destruct (cp_dom _ _ _ _ Hc q Hs) as [Hq|]; [|done].
           rewrite (cp_old _ _ _ _ Hc q Hq), Hmem, lookup_empty in Hs. by destruct Hs.
        -- intros Hin. pose proof (cp_shape _ _ _ _ Hc) as Hsh. apply list_elem_of_fmap in Hin as (e & -> & He).
           apply list_elem_of_split in He as (B1 & B2 & HB).
           destruct (split_tree t' B1 e B2 HB) as (c' & l & r & -> & _).
           apply shape_plug in Hsh as (_ & -> & _). eauto.
      * intros q Hq%(cp_new _ _ _ _ Hc). lia.
    + apply Hval. by rewrite HA.
    + intros i. rewrite <-Hset, HA. apply HP.
  - wps. apply HΦ. apply rt_None in Ep as ->. simpl in HA. subst A.
    eapply sb_ext; [|exact Hsb1]. intros i. rewrite <-HP, in_set_nil. done.
Qed.
