(* ===== verification/SparsebitQuery.v ===== *)
(** * selftests: finding bits and runs of bits

    The searches return the first set or cleared index after a given one, and
    the first run of a given length; 0 stands for none. *)

From S2P Require Import Prelude Sparsebit SparsebitOps SparsebitTree SparsebitSearch.
From S2P Require Import SparsebitBits SparsebitReduce SparsebitRange SparsebitCount.

Implicit Types (e x : ent) (A B : list ent) (s : sparsebit) (P : Z → Prop).

(** ** The lowest bit of a mask *)
Lemma ctz_spec m j :
  Z.testbit m j = true → 0 ≤ j < 32 →
  ∃ k, ctz m = Done k ∧ 0 ≤ k ≤ j ∧ Z.testbit m k = true ∧ ∀ i, 0 ≤ i < k → Z.testbit m i = false.
Proof.
  intros Hb Hj. unfold ctz, mask_bits.
  assert (∀ a n, 0 ≤ n → 0 ≤ a → a + n = 32 → a ≤ j → (∀ i, 0 ≤ i < a → Z.testbit m i = false) →
    ∃ k, access (head (filter (λ i, Z.testbit m i = true) (seqZ a n))) = Done k ∧ 0 ≤ k ≤ j ∧
      Z.testbit m k = true ∧ ∀ i, 0 ≤ i < k → Z.testbit m i = false) as H.
  { intros a n Hn. revert a. pattern n. apply natlike_ind; [lia| |done].
    clear n Hn. intros n Hn IH a Ha Hsum Haj Hlow. rewrite seqZ_cons by lia.
    destruct (Z.testbit m a) eqn:Ea.
    - rewrite filter_cons_True by done. exists a. split; [done|]. split_and!; [lia..|done|done].
    - rewrite filter_cons_False by congruence.
      assert (a ≠ j) by (by intros ->; congruence). rewrite Z.pred_succ. apply IH; [lia..|].
      intros i Hi. destruct (decide (i = a)) as [->|]; [done|]. apply Hlow. lia. }
  apply (H 0 32); try lia.
Qed.
Lemma leading_bits start i :
  0 ≤ start < 32 → Z.testbit (u32 (- bit1 start)) i = bool_decide (start ≤ i < 32).
Proof.
  intros Hs. unfold bit1. rewrite Z.shiftl_1_l.
  assert (0 < 2 ^ start ≤ 2 ^ 31) as Hp.
  { split; [apply Z.pow_pos_nonneg; lia|apply Z.pow_le_mono_r; lia]. }
  assert (u32 (- 2 ^ start) = FULL - (2 ^ start - 1)) as ->.
  { unfold u32, wrap. symmetry. apply (Z.mod_unique _ _ (-1)); unfold FULL; lia. }
  rewrite Z.sub_nocarry_ldiff.
  - rewrite Z.ldiff_spec, FULL_bits, low_bits by lia.
    repeat case_bool_decide; simpl; done || lia.
  - apply Z.bits_inj'. intros k Hk. rewrite Z.ldiff_spec, FULL_bits, low_bits by lia.
    rewrite Z.testbit_0_l. repeat case_bool_decide; simpl; done || lia.
Qed.
Lemma owp_first_set e start par lc rc j (Φ : Z → Prop) :
  ok_ent e → 0 ≤ start ≤ j → j < 32 → Z.testbit (e_mask e) j = true →
  (∀ k, start ≤ k < 32 → Z.testbit (e_mask e) k = true →
    (∀ i, start ≤ i < k → Z.testbit (e_mask e) i = false) → Φ (e_idx e + k)) →
  owp (node_first_set (mk par lc rc e) start) Φ.
Proof.
  intros (H1 & H2 & H3 & H4 & H5) Hs Hj Hb HΦ. unfold node_first_set, e_lim in *. cbn [mk mask idx].
  destruct (ctz_spec (Z.land (e_mask e) (u32 (- bit1 start))) j) as (k & -> & Hk & Hbk & Hlow).
  - rewrite Z.land_spec, leading_bits, Hb by lia. by rewrite bool_decide_true by lia.
  - lia.
  - cbn. rewrite Z.land_spec, leading_bits, andb_true_iff, bool_decide_eq_true in Hbk by lia.
    rewrite u64_small by (unfold in_u64; lia). apply HΦ; [lia|tauto|].
    intros i Hi. specialize (Hlow i ltac:(lia)).
    rewrite Z.land_spec, leading_bits, (bool_decide_true (start ≤ i < 32)), andb_true_r in Hlow by lia.
    done.
Qed.
Lemma owp_first_clear e start par lc rc j (Φ : Z → Prop) :
  ok_ent e → 0 ≤ start ≤ j → j < 32 → Z.testbit (e_mask e) j = false →
  (∀ k, start ≤ k < 32 → Z.testbit (e_mask e) k = false →
    (∀ i, start ≤ i < k → Z.testbit (e_mask e) i = true) → Φ (e_idx e + k)) →
  owp (node_first_clear (mk par lc rc e) start) Φ.
Proof.
  intros (H1 & H2 & H3 & H4 & H5) Hs Hj Hb HΦ. unfold node_first_clear, e_lim in *. cbn [mk mask idx].
  assert (∀ i, 0 ≤ i < 32 → Z.testbit (Z.lxor (e_mask e) FULL) i = negb (Z.testbit (e_mask e) i)) as Hx.
  { intros i Hi. rewrite Z.lxor_spec, FULL_bits, bool_decide_true by done. apply xorb_true_r. }
  destruct (ctz_spec (Z.land (Z.lxor (e_mask e) FULL) (u32 (- bit1 start))) j)
    as (k & -> & Hk & Hbk & Hlow).
  - rewrite Z.land_spec, leading_bits, Hx, Hb by lia. by rewrite bool_decide_true by lia.
  - lia.
  - cbn. rewrite Z.land_spec, leading_bits, Hx, andb_true_iff, bool_decide_eq_true in Hbk by lia.
    rewrite u64_small by (unfold in_u64; lia). apply HΦ; [lia|by apply negb_true_iff, Hbk|].
    intros i Hi. specialize (Hlow i ltac:(lia)).
    rewrite Z.land_spec, leading_bits, Hx, (bool_decide_true (start ≤ i < 32)), andb_true_r in Hlow by lia.
    by apply negb_false_iff.
Qed.
Lemma top_bit m : in_mask m → m ≠ 0 → Z.testbit m (Z.log2 m) = true ∧ 0 ≤ Z.log2 m < 32.
Proof.
  intros Hm Hne. assert (Z.testbit m (Z.log2 m) = true) as Hb
    by (apply Z.bit_log2; unfold in_mask in *; lia).
  split; [done|]. by eapply testbit_range.
Qed.
Lemma not_full m : in_mask m → m ≠ FULL → ∃ j, 0 ≤ j < 32 ∧ Z.testbit m j = false.
Proof.
  intros Hm Hne. destruct (decide (Forall (λ j, Z.testbit m j = true) (seqZ 0 32))) as [Hall|Hno].
  - destruct Hne. apply mask_ext; [done|apply FULL_mask|]. intros i Hi.
    rewrite FULL_bits, bool_decide_true by done. rewrite Forall_forall in Hall. apply Hall.
    apply elem_of_seqZ. lia.
  - apply not_Forall_Exists, Exists_exists in Hno as (j & Hj%elem_of_seqZ & Hb); [|apply _].
    exists j. split; [lia|]. by apply not_true_is_false.
Qed.

(** ** Where the bits of a valid sequence are *)
Lemma in_set_parts A e B i :
  valid (A ++ e :: B) → in_set (A ++ e :: B) i →
  (in_set A i ∧ i < e_idx e) ∨ (in_ent e i ∧ covers e i) ∨ (in_set B i ∧ e_lim e ≤ i).
Proof.
  intros Hv%valid_wf. pose proof Hv as [HA (Ho & Hi & HB)]%wf_app.
  rewrite in_set_app, in_set_cons. intros [H|[H|H]].
  - left. split; [done|]. apply (in_set_lim (-1)) in H; [lia|done].
  - right. left. split; [done|apply H].
  - right. right. split; [done|]. apply (in_set_lim (e_lim e)) in H; [lia|done].
Qed.
Lemma head_bits B i : valid B → in_set B i → ∃ x B', B = x :: B' ∧ e_idx x ≤ i.
Proof.
  intros Hv Hi. destruct B as [|x B']; [by apply in_set_nil in Hi|]. exists x, B'. split; [done|].
  destruct (in_set_parts [] x B' i Hv Hi) as [[[]%in_set_nil _]|[[_ Hc]|[_ ?]]].
  - apply Hc.
  - destruct Hv as (Ho & _). apply ok_lim in Ho. lia.
Qed.

(** ** The next bit

    The first index after [prev] in [Y], with those before it in [N]; 0 for
    none. *)
Definition next_spec (Y N : Z → Prop) (prev r : Z) : Prop :=
  (r = 0 ∧ ∀ i, prev < i → in_u64 i → N i) ∨
  (prev < r ∧ in_u64 r ∧ Y r ∧ ∀ i, prev < i < r → N i).
Definition next_set_spec P : Z → Z → Prop := next_spec P (λ i, ¬ P i).
Definition next_clear_spec P : Z → Z → Prop := next_spec (λ i, ¬ P i) P.
Lemma next_spec_ext (Y N Y' N' : Z → Prop) prev r :
  (∀ i, Y i ↔ Y' i) → (∀ i, N i ↔ N' i) → next_spec Y N prev r → next_spec Y' N' prev r.
Proof.
  intros HY HN [[-> Hno]|(? & ? & HP & Hno)]; [left|right; split_and!]; try done.
  - split; [done|]. intros i. rewrite <-HN. apply Hno.
  - by apply HY.
  - intros i. rewrite <-HN. apply Hno.
Qed.
(** The lowest bit of the node [x], when nothing is set between [prev] and it. *)
Lemma next_in_node A x B prev k :
  valid (A ++ x :: B) → prev < e_idx x + k → (∀ i, prev < i → ¬ in_set A i) → 0 ≤ k < 32 →
  Z.testbit (e_mask x) k = true →
  (∀ i, prev < e_idx x + i → 0 ≤ i < k → Z.testbit (e_mask x) i = false) →
  next_set_spec (in_set (A ++ x :: B)) prev (e_idx x + k).
Proof.
  intros Hv Hp HA Hk Hb Hlow. pose proof (valid_wf _ _ _ Hv) as Hw.
  pose proof Hw as [_ (Ho & _)]%wf_app. pose proof Ho as (? & ? & ? & ? & ?). unfold e_lim in *.
  right. split_and!; [done|unfold in_u64; lia| |].
  - apply (in_set_at (-1)); [done|unfold covers, e_lim; lia|]. split; [unfold covers, e_lim; lia|right].
    by replace (e_idx x + k - e_idx x) with k by lia.
  - intros i Hi [[Hin _]|[[[Hc Hbi] _]|[_ ?]]]%(in_set_parts _ _ _ _ Hv).
    + apply (HA i); [lia|done].
    + unfold covers in Hc. destruct Hbi as [|Hbi]; [lia|]. rewrite Hlow in Hbi; [done|lia..].
    + unfold e_lim in *. lia.
Qed.
(** The scan of a node after the index, with nothing set between. *)
Lemma next_first_set A x B prev par lc rc (Φ : Z → Prop) :
  valid (A ++ x :: B) → prev < e_idx x → (∀ i, prev < i → ¬ in_set A i) →
  (∀ r, next_set_spec (in_set (A ++ x :: B)) prev r → Φ r) → owp (node_first_set (mk par lc rc x) 0) Φ.
Proof.
  intros Hv Hx HA HΦ. pose proof (valid_wf _ _ _ Hv) as [_ (Ho & _)]%wf_app.
  assert (e_mask x ≠ 0) as Hm by (eapply valid_elem; [done|set_solver]).
  destruct (top_bit (e_mask x)) as [Hb Hr]; [apply Ho|done|].
  eapply (owp_first_set x 0 _ _ _ (Z.log2 (e_mask x))); [done|lia|lia|done|].
  intros k Hk Hbk Hlow. apply HΦ, next_in_node; try done; [lia|]. intros i _ Hi. by apply Hlow.
Qed.
(** Below an entry that covers [prev + 1] nothing above [prev] is set. *)
Lemma none_before A e B prev i : wf_from (-1) (A ++ e :: B) → e_idx e ≤ prev + 1 → prev < i → ¬ in_set A i.
Proof.
  intros Hw He Hi Hin. apply wf_app in Hw as [HwA (_ & HiA & _)].
  apply (in_set_lim (-1)) in Hin; [lia|done].
Qed.
(** A bit after the mask of the node, when no bit of the mask follows [prev]. *)
Lemma next_after_mask A e B prev j :
  valid (A ++ e :: B) → e_idx e ≤ prev + 1 →
  (∀ k, prev + 1 - e_idx e ≤ k < 32 → Z.testbit (e_mask e) k = false) →
  prev < j → e_idx e + 32 ≤ j < e_idx e + 32 + e_num e → (j = prev + 1 ∨ j = e_idx e + 32) →
  next_set_spec (in_set (A ++ e :: B)) prev j.
Proof.
  intros Hv He Hnone Hpj Hj Hor. pose proof (valid_wf _ _ _ Hv) as Hw.
  pose proof Hw as [_ (Ho & _)]%wf_app. pose proof Ho as (? & ? & ? & ? & ?). unfold e_lim in *.
  right. split_and!; [lia|unfold in_u64; lia| |].
  - apply (in_set_at (-1)); [done|unfold covers, e_lim; lia|].
    split; [unfold covers, e_lim; lia|left; lia].
  - intros i Hi [[Hin _]|[[[Hc Hb] _]|[_ ?]]]%(in_set_parts _ _ _ _ Hv).
    + eapply (none_before A e B prev i); [done|lia|lia|done].
    + destruct Hb as [?|Hb]; [lia|]. unfold covers, e_lim in Hc.
      apply testbit_range in Hb as Hr; [|done]. rewrite Hnone in Hb; [done|lia].
    + unfold e_lim in *. lia.
Qed.
(** The bits after [prev] are in the nodes behind [e]. *)
Lemma next_behind A e B prev i :
  valid (A ++ e :: B) → e_idx e ≤ prev + 1 → e_num e = 0 →
  (∀ k, prev + 1 - e_idx e ≤ k < 32 → Z.testbit (e_mask e) k = false) →
  prev < i → in_set (A ++ e :: B) i → in_set B i.
Proof.
  intros Hv He Hn Hnone Hi [[Hin _]|[[[Hc Hb] _]|[? _]]]%(in_set_parts _ _ _ _ Hv); [|exfalso|done].
  - eapply none_before in Hin as []; [by eapply valid_wf|done|done].
  - unfold covers, e_lim in Hc. destruct Hb as [?|Hb]; [lia|]. rewrite Hnone in Hb; [done|lia].
Qed.
(** The step to the next node. *)
Lemma wp_next_node A e B c prev (Φ : Z → sparsebit → Prop) s :
  st s (A ++ e :: B) c → valid (A ++ e :: B) → e_idx e ≤ prev + 1 ≤ e_lim e → e_num e = 0 →
  (∀ k, prev + 1 - e_idx e ≤ k < 32 → Z.testbit (e_mask e) k = false) →
  (∀ r, next_set_spec (in_set (A ++ e :: B)) prev r → Φ r s) →
  wp (candidate ← node_next (addr e);
      match candidate with
      | None => mret 0
      | Some candidate => n ← load candidate; lift (node_first_set n 0)
      end) Φ s.
Proof.
  intros Hst Hv He Hn Hnone HΦ. wps. eapply (wp_node_next A e B); [done|].
  pose proof (λ i, next_behind A e B prev i Hv (proj1 He) Hn Hnone) as Honly.
  destruct B as [|x B]; simpl.
  - wps. apply HΦ. left. split; [done|]. intros i Hi _ Hin. apply Honly in Hin; [|done].
    by apply in_set_nil in Hin.
  - assert (A ++ e :: x :: B = (A ++ [e]) ++ x :: B) as Heq by (by rewrite <-app_assoc).
    pose proof (valid_wf _ _ _ Hv) as [HwA (_ & HiA & _ & Hex & _)]%wf_app. rewrite Heq in Hst, Hv, HΦ. wps. eapply (wp_load_st (A ++ [e]) x B); [done|]. intros par1 lc1 rc1. wps.
    unfold e_lim in Hex, He. eapply (next_first_set (A ++ [e]) x B prev); [done|lia| |done]. intros i Hi Hin.
    destruct (head_bits (x :: B) i) as (? & ? & [= <- <-] & ?).
    { by eapply valid_suffix. } { apply Honly; [done|]. rewrite Heq, in_set_app. by left. }
    apply in_set_app in Hin as [Hin|Hin].
    + apply (in_set_lim (-1)) in Hin; [lia|done].
    + apply Exists_cons in Hin as [[Hc _]|[]%Exists_nil]. unfold covers, e_lim in Hc. lia.
Qed.
(** The node that covers the first index. *)
Lemma wp_next_inside A e B c prev (Φ : Z → sparsebit → Prop) s :
  st s (A ++ e :: B) c → valid (A ++ e :: B) → 0 ≤ prev → e_idx e ≤ prev + 1 < e_lim e →
  (∀ r, next_set_spec (in_set (A ++ e :: B)) prev r → Φ r s) →
  ∀ par lc rc,
  wp (let n := mk par lc rc e in
      let start := u64 (prev + 1 - idx n) in
      if (start <? MASK_BITS) && (bit1 start <=? mask n) then lift (node_first_set n start) else
      if negb (num_after n =? 0) then
        let first_num_after_idx := u64 (idx n + MASK_BITS) in
        mret (if prev + 1 <? first_num_after_idx then first_num_after_idx else prev + 1)
      else
      candidate ← node_next (addr e);
      match candidate with
      | None => mret 0
      | Some candidate => n ← load candidate; lift (node_first_set n 0)
      end) Φ s.
Proof.
  intros Hst Hv Hp [Hc1 Hc2] HΦ par lc rc. pose proof (valid_wf _ _ _ Hv) as Hw.
  pose proof Hw as [_ (Ho & _)]%wf_app. pose proof Ho as (H1 & H2 & H3 & H4 & H5).
  assert (e_mask e ≠ 0) as Hm by (eapply valid_elem; [done|set_solver]).
  cbv zeta. cbn [mk mask idx num_after]. unfold e_lim, MASK_BITS in *.
  rewrite (u64_small (prev + 1 - e_idx e)) by (unfold in_u64; lia). unfold bit1. rewrite Z.shiftl_1_l.
  destruct ((prev + 1 - e_idx e <? 32) && (2 ^ (prev + 1 - e_idx e) <=? e_mask e)) eqn:Ec.
  - apply andb_true_iff in Ec as [Es%Z.ltb_lt Em%Z.leb_le]. wps.
    destruct (top_bit (e_mask e)) as [Hb Hr]; [done|done|].
    eapply (owp_first_set e _ _ _ _ (Z.log2 (e_mask e))); [done| |lia|done|].
    { split; [lia|]. apply Z.log2_le_pow2; lia. }
    intros k Hk Hbk Hlow. apply HΦ, next_in_node; try done; [lia| |lia|].
    + intros i Hi. by apply (none_before A e B prev).
    + intros i Hi ?. apply Hlow. lia.
  - assert (∀ j, prev + 1 - e_idx e ≤ j < 32 → Z.testbit (e_mask e) j = false) as Hnone.
    { intros j Hj. apply andb_false_iff in Ec as [Es%Z.ltb_ge|Em%Z.leb_gt]; [lia|].
      apply (testbit_small _ (prev + 1 - e_idx e)); lia. }
    destruct (Z.eqb_spec (e_num e) 0) as [Hn|Hn]; cbn [negb].
    + eapply (wp_next_node A e B c prev); try done. unfold e_lim. lia.
    + wps. rewrite u64_small by (unfold in_u64; lia). apply HΦ.
      destruct (Z.ltb_spec (prev + 1) (e_idx e + 32)); apply next_after_mask; (done || lia).
Qed.
Lemma wp_next_set P prev (Φ : Z → sparsebit → Prop) s :
  sb s P → in_u64 prev → (∀ r, next_set_spec P prev r → Φ r s) → wp (sparsebit_next_set prev) Φ s.
Proof.
  intros (A & Hst & Hv & HP) Hp HΦ. unfold sparsebit_next_set.
  assert (∀ r, next_set_spec (in_set A) prev r → Φ r s) as Hres.
  { intros r Hr. apply HΦ. eapply next_spec_ext; [..|exact Hr]; intros i; cbn beta; by rewrite HP. }
  pose proof (valid_wf _ _ _ Hv) as Hw.
  unfold in_u64 in Hp. destruct (decide (prev + 1 = 2 ^ 64)) as [Hlast|Hlast].
  { rewrite Hlast. wps. apply Hres. left. split; [done|]. intros i ? Hi. unfold in_u64 in Hi. lia. }
  rewrite (u64_small (prev + 1)) by (unfold in_u64; lia).
  destruct (Z.eqb_spec (prev + 1) 0); [lia|]. wps. apply wp_get. wps.
  eapply wp_fuel_st; [done|]. wps. pose proof Hst as [(t & Ht & HA) _]. rewrite (tr_root s t Ht).
  assert (∀ e, e ∈ A → negb (e_mask e =? 0) = true) as Hm.
  { intros e He. apply negb_true_iff, Z.eqb_neq. by eapply valid_elem. }
  eapply (wp_candidate_loop (prev + 1)); [apply Ht|by rewrite HA|by rewrite HA|..]; rewrite HA.
  - intros A1 e B HAe Hc. clear dependent t. subst A. wps.
    eapply (wp_load_st A1 e B); [done|]. intros par lc rc. wps.
    apply owp_assert; [apply Hm; set_solver|]. cbn [negb].
    eapply (wp_next_inside A1 e B _ prev); [done|done|lia|done|done].
  - intros A1 e B HAe Hall Hi. wps. rewrite HAe in *.
    eapply (wp_load_st A1 e B); [done|]. intros par lc rc. wps. cbn [mk mask idx].
    apply owp_assert; [apply Hm; set_solver|]. cbn [negb]. wps.
    apply owp_assert; [by apply Z.ltb_lt|]. wps. eapply (next_first_set A1 e B prev); [done|lia| |done].
    intros i Hpi (x & Hx & Hin%in_ent_lim)%Exists_exists. specialize (Hall x Hx). lia.
  - intros Hall. wps. apply Hres. left. split; [done|].
    intros i Hpi _ (x & Hx & Hin%in_ent_lim)%Exists_exists. specialize (Hall x Hx). lia.
Qed.

(** *** Cleared bits *)
Lemma clear_bit_from_spec f m i :
  0 ≤ i → 32 - i ≤ Z.of_nat f →
  match clear_bit_from f m i with
  | Some j => i ≤ j < 32 ∧ Z.testbit m j = false ∧ ∀ k, i ≤ k < j → Z.testbit m k = true
  | None => ∀ k, i ≤ k < 32 → Z.testbit m k = true
  end.
Proof.
  revert i. induction f as [|f IH]; intros i Hi Hf; cbn [clear_bit_from]; [lia|].
  unfold MASK_BITS. destruct (Z.ltb_spec i 32); [|lia]. rewrite has_bit_spec by lia.
  destruct (Z.testbit m i) eqn:E; [|split_and!; [lia..|done|lia]].
  specialize (IH (i + 1) ltac:(lia) ltac:(lia)). destruct (clear_bit_from f m (i + 1)) as [j|].
  - destruct IH as (? & ? & Hk). split_and!; [lia..|done|]. intros k ?.
    destruct (decide (k = i)) as [->|]; [done|]. apply Hk. lia.
  - intros k ?. destruct (decide (k = i)) as [->|]; [done|]. apply IH. lia.
Qed.
Lemma not_in_gap A e B i :
  valid (A ++ e :: B) → e_lim e ≤ i → (∀ x, head B = Some x → i < e_idx x) →
  ¬ in_set (A ++ e :: B) i.
Proof.
  intros Hv Hi Hx [[_ ?]|[[_ Hc]|[Hin _]]]%(in_set_parts _ _ _ _ Hv).
  - apply valid_wf, wf_app in Hv as [_ (Ho%ok_lim & _)]. lia.
  - unfold covers in Hc. lia.
  - destruct (head_bits B i) as (x & B' & -> & ?).
    + rewrite cons_middle, app_assoc in Hv. by eapply valid_suffix.
    + done.
    + specialize (Hx x eq_refl). lia.
Qed.
(** All bits of [e] after [prev] are set: the next cleared one follows the node. *)
Definition rest_set e (prev : Z) : Prop :=
  e_idx e ≤ prev + 1 < e_lim e ∧ ∀ i, prev < i < e_lim e → in_ent e i.
Lemma rest_set_in A e B prev i :
  rest_set e prev → prev < i < e_lim e → in_set (A ++ e :: B) i.
Proof. intros [_ Hset] Hi. apply in_set_app. right. left. by apply Hset. Qed.
(** The index after the node. *)
Lemma clear_at_limit A e B prev :
  valid (A ++ e :: B) → rest_set e prev →
  e_lim e = 2 ^ 64 ∨ (∀ x, head B = Some x → e_lim e < e_idx x) →
  next_clear_spec (in_set (A ++ e :: B)) prev (u64 (e_lim e)).
Proof.
  intros Hv Hset Hcase. pose proof (valid_wf _ _ _ Hv) as [_ ((H1 & _ & H3 & H4 & _) & _)]%wf_app.
  destruct (decide (e_lim e = 2 ^ 64)) as [Heq|Hne].
  - rewrite Heq. left. split; [done|]. intros i Hi Hi64. eapply rest_set_in; [done|].
    unfold in_u64 in Hi64. lia.
  - destruct Hcase as [?|Hgap]; [done|]. rewrite u64_small by (unfold in_u64, e_lim in *; lia).
    right. split_and!; [destruct Hset; lia|unfold in_u64, e_lim in *; lia|by apply not_in_gap|].
    intros i Hi. by eapply rest_set_in.
Qed.
(** The mask of the next node, when it is adjacent. *)
Lemma owp_clear_adjacent A e x B prev par lc rc (Φ : Z → Prop) :
  valid (A ++ e :: x :: B) → rest_set e prev → e_lim e = e_idx x →
  (∀ r, next_clear_spec (in_set (A ++ e :: x :: B)) prev r → Φ r) →
  owp (node_first_clear (mk par lc rc x) 0) Φ.
Proof.
  intros Hv Hset Hadj Hres. pose proof (valid_wf _ _ _ Hv) as Hw.
  pose proof Hw as [_ (Ho & _ & (Hox & _))]%wf_app.
  pose proof Ho as (H1 & H2 & H3 & H4 & H5). pose proof Hox as (X1 & X2 & X3 & X4 & X5).
  unfold e_lim in X4. pose proof Hset as [Hc Hbits].
  assert (e_mask x ≠ FULL) as Hnf.
  { pose proof Hv as [_ (_ & _ & Hm & _ & (_ & _ & _ & Hf & _))]%valid_app. intros Hfull%Hf.
    apply Hfull. unfold e_top. destruct (Z.eqb_spec (e_num e) 0); [|lia].
    destruct (Hbits (e_lim e - 1)) as [_ [Hb|Hb]]; [lia|unfold e_lim in *; lia|].
    destruct (top_bit (e_mask e)) as [_ Hlog]; [done..|].
    destruct (decide (e_lim e - 1 - e_idx e ≤ Z.log2 (e_mask e))); [unfold e_lim in *; lia|].
    rewrite Z.bits_above_log2 in Hb; [done|lia|lia]. }
  destruct (not_full _ X5 Hnf) as (j & Hj & Hbj).
  assert (A ++ e :: x :: B = (A ++ [e]) ++ x :: B) as Heq by (by rewrite <-app_assoc).
  eapply (owp_first_clear x 0 _ _ _ j); [done|lia|lia|done|]. intros k Hk Hbk Hlow. apply Hres.
  right. split_and!; [lia|unfold in_u64; lia| |].
  - rewrite Heq. rewrite (in_set_at (-1)); [|by rewrite <-Heq|unfold covers, e_lim; lia].
    intros [_ [?|Hb]]; [lia|]. replace (e_idx x + k - e_idx x) with k in Hb by lia. congruence.
  - intros i Hi. destruct (decide (i < e_lim e)); [eapply rest_set_in; [done|lia]|].
    rewrite Heq. apply (in_set_at (-1)); [by rewrite <-Heq|unfold covers, e_lim; lia|].
    split; [unfold covers, e_lim; lia|right]. apply Hlow. lia.
Qed.
Lemma wp_clear_after A e B n prev (Φ : Z → sparsebit → Prop) s par lc rc (none : S_ Z) :
  st s (A ++ e :: B) n → valid (A ++ e :: B) → rest_set e prev →
  (∀ r, next_clear_spec (in_set (A ++ e :: B)) prev r → Φ r s) →
  (B = [] → wp none Φ s) →
  wp (nodep2 ← node_next (addr e);
      match nodep2 with
      | None => none
      | Some p2 =>
          n2 ← load p2;
          if negb (node_limit (mk par lc rc e) =? idx n2) then mret (node_limit (mk par lc rc e))
          else lift (node_first_clear n2 0)
      end) Φ s.
Proof.
  intros Hst Hv Hset Hres Hnone. pose proof (valid_wf _ _ _ Hv) as Hw.
  pose proof Hw as [_ (Ho & _ & HB)]%wf_app. pose proof Ho as (H1 & H2 & H3 & H4 & H5).
  rewrite (node_limit_ok e) by done. wps. eapply (wp_node_next A e B); [done|].
  destruct B as [|x B]; simpl; [by apply Hnone|].
  wps. eapply (wp_load_st (A ++ [e]) x B); [by rewrite <-app_assoc|]. intros par1 lc1 rc1.
  cbn [mk idx]. destruct HB as (Hox & Hex & HB). pose proof Hox as (X1 & X2 & X3 & X4 & X5).
  unfold e_lim in X4. destruct (Z.eqb_spec (u64 (e_lim e)) (e_idx x)) as [Hadj|Hadj]; cbn [negb]; wps.
  - rewrite u64_small in Hadj by (unfold in_u64, e_lim in *; lia). by eapply owp_clear_adjacent.
  - apply Hres, clear_at_limit; try done. right. intros y [= <-].
    rewrite u64_small in Hadj by (unfold in_u64, e_lim in *; lia). lia.
Qed.
Lemma wp_next_clear P prev (Φ : Z → sparsebit → Prop) s :
  sb s P → in_u64 prev → (∀ r, next_clear_spec P prev r → Φ r s) →
  wp (sparsebit_next_clear prev) Φ s.
Proof.
  intros (A & Hst & Hv & HP) Hp HΦ. unfold sparsebit_next_clear.
  assert (∀ r, next_clear_spec (in_set A) prev r → Φ r s) as Hres.
  { intros r Hr. apply HΦ. eapply next_spec_ext; [..|exact Hr]; intros i; cbn beta; by rewrite HP. }
  pose proof (valid_wf _ _ _ Hv) as Hw.
  unfold in_u64 in Hp. destruct (decide (prev + 1 = 2 ^ 64)) as [Hlast|Hlast].
  { rewrite Hlast. wps. apply Hres. left. split; [done|]. intros i ? Hi. unfold in_u64 in Hi. lia. }
  rewrite (u64_small (prev + 1)) by (unfold in_u64; lia).
  destruct (Z.eqb_spec (prev + 1) 0); [lia|]. wps. eapply wp_node_find; [done..| |].
  - intros A1 e B -> [Hc1 Hc2]. wps. eapply (wp_load_st A1 e B); [done|]. intros par lc rc.
    cbn [mk mask idx]. pose proof Hw as [_ (Ho & _)]%wf_app. pose proof Ho as (H1 & H2 & H3 & H4 & H5).
    rewrite (u64_small (prev + 1 - e_idx e)) by (unfold in_u64, e_lim in *; lia).
    pose proof (clear_bit_from_spec 32 (e_mask e) (prev + 1 - e_idx e) ltac:(lia) ltac:(lia)) as Hclear.
    destruct (clear_bit_from 32 (e_mask e) (prev + 1 - e_idx e)) as [j|].
    + destruct Hclear as (Hj & Hb & Hlow). wps. unfold e_lim in *.
      rewrite u64_small by (unfold in_u64; lia). apply Hres.
      right. split_and!; [lia|unfold in_u64; lia| |].
      * rewrite (in_set_at (-1)); [|done|unfold covers, e_lim; lia].
        intros [_ [?|Hb']]; [lia|]. replace (e_idx e + j - e_idx e) with j in Hb' by lia. congruence.
      * intros i Hi. apply (in_set_at (-1)); [done|unfold covers, e_lim; lia|].
        split; [unfold covers, e_lim; lia|right]. apply Hlow. lia.
    + assert (rest_set e prev) as Hrest.
      { split; [lia|]. intros i Hi. split; [split; lia|].
        destruct (decide (e_idx e + 32 ≤ i)); [by left|right]. apply Hclear. lia. }
      eapply (wp_clear_after A1 e B _ prev); [done..|]. intros ->. wps.
      rewrite (node_limit_ok e) by done. apply Hres, clear_at_limit; try done. by right.
  - intros Hno. wps. apply Hres. right. split_and!; [lia|unfold in_u64; lia| |lia].
    intros (x & Hx & Hin)%Exists_exists. by apply (Hno x Hx), Hin.
Qed.
