(* ===== verification/SparsebitRuns.v ===== *)
(** * selftests: first bits, runs of bits, validation *)

From S2P Require Import Prelude Sparsebit SparsebitOps SparsebitTree SparsebitSearch.
From S2P Require Import SparsebitBits SparsebitReduce SparsebitRange SparsebitCount SparsebitQuery.

Implicit Types (e x : ent) (A B : list ent) (s : sparsebit) (P : Z → Prop).

Lemma wp_sb_is_set P i (Φ : bool → sparsebit → Prop) s :
  sb s P → in_u64 i → (∀ r : bool, (r = true ↔ P i) → Φ r s) → wp (sparsebit_is_set i) Φ s.
Proof.
  intros (A & Hst & Hv & HP) Hi HΦ. eapply wp_is_set; [done|by eapply valid_wf|done|].
  intros r Hr. apply HΦ. by rewrite Hr, HP.
Qed.
Lemma wp_is_clear P i (Φ : bool → sparsebit → Prop) s :
  sb s P → in_u64 i → (∀ r : bool, (r = true ↔ ¬ P i) → Φ r s) → wp (sparsebit_is_clear i) Φ s.
Proof.
  intros Hsb Hi HΦ. unfold sparsebit_is_clear. wps. eapply wp_sb_is_set; [done..|].
  intros r Hr. wps. apply HΦ. rewrite negb_true_iff, <-Hr. by destruct r.
Qed.

(** ** Runs of a given length *)
Definition run P (i num : Z) : Prop := ∀ j, range i num j → P j.

(** The answer from the first exception after [i], in general. *)
Lemma run_from_next (Y N : Z → Prop) i num r :
  in_u64 i → 0 < num → i + num ≤ 2 ^ 64 → N i → next_spec Y N i r → (∀ j, Y j → N j → False) →
  (r =? 0) || (num <=? u64 (r - i)) = true ↔ run N i num.
Proof.
  intros [? ?] Hn Hl Hi Hr Hex. rewrite orb_true_iff, Z.eqb_eq, Z.leb_le. unfold run, range.
  destruct Hr as [[-> Hall]|(Hr & [? ?] & HY & Hall)].
  - split; [|by left]. intros _ j Hj. destruct (decide (j = i)) as [->|]; [done|].
    apply Hall; [lia|]. unfold in_u64. lia.
  - rewrite u64_small by (unfold in_u64; lia). split.
    + intros [?|Hle] j Hj; [lia|]. destruct (decide (j = i)) as [->|]; [done|]. apply Hall. lia.
    + intros Hrun. right. destruct (decide (num ≤ r - i)); [done|]. exfalso.
      apply (Hex r); [done|]. apply Hrun. lia.
Qed.
Lemma wp_is_set_num P i num (Φ : bool → sparsebit → Prop) s :
  sb s P → in_u64 i → 0 < num → i + num ≤ 2 ^ 64 →
  (∀ r : bool, (r = true ↔ run P i num) → Φ r s) → wp (sparsebit_is_set_num i num) Φ s.
Proof.
  intros Hsb Hi Hn Hl HΦ. unfold sparsebit_is_set_num. wps. apply owp_assert; [by apply Z.ltb_lt|].
  wps. unfold in_u64 in Hi. apply owp_assert; [rewrite u64_small by (unfold in_u64; lia); apply Z.leb_le; lia|].
  wps. eapply wp_sb_is_set; [done..|]. intros b Hb. destruct b; cbn [negb]; wps.
  - eapply wp_next_clear; [done..|]. intros r Hr. wps. apply HΦ.
    apply (run_from_next (λ j, ¬ P j) P); [done..|by apply Hb|exact Hr|]. intros j HY. by apply HY.
  - apply HΦ. split; [done|]. intros Hrun. apply Hb, Hrun. unfold range. lia.
Qed.
Lemma wp_is_clear_num P i num (Φ : bool → sparsebit → Prop) s :
  sb s P → in_u64 i → 0 < num → i + num ≤ 2 ^ 64 →
  (∀ r : bool, (r = true ↔ run (λ j, ¬ P j) i num) → Φ r s) →
  wp (sparsebit_is_clear_num i num) Φ s.
Proof.
  intros Hsb Hi Hn Hl HΦ. unfold sparsebit_is_clear_num. wps. apply owp_assert; [by apply Z.ltb_lt|].
  wps. unfold in_u64 in Hi. apply owp_assert; [rewrite u64_small by (unfold in_u64; lia); apply Z.leb_le; lia|].
  wps. eapply wp_is_clear; [done..|]. intros b Hb. destruct b; cbn [negb]; wps.
  - eapply wp_next_set; [done..|]. intros r Hr. wps. apply HΦ.
    apply (run_from_next P (λ j, ¬ P j)); [done..|by apply Hb|exact Hr|]. intros j HY HN. by apply HN.
  - apply HΦ. split; [done|]. intros Hrun. apply Hb, Hrun. unfold range. lia.
Qed.

(** The first run of [num] indices of [N] that starts after [start]. *)
Definition run_spec (N : Z → Prop) (start num r : Z) : Prop :=
  (r = 0 ∧ ∀ i, start < i → i + num ≤ 2 ^ 64 → ¬ run N i num) ∨
  (start < r ∧ r + num ≤ 2 ^ 64 ∧ run N r num ∧ ∀ i, start < i < r → ¬ run N i num).

(** The searches: [Y] is what the runs consist of, [N] the rest. [starts] are
    the places where a run may start; each pass of the loop passes one. *)
Definition ahead (starts : list Z) (i : Z) : nat := length (filter (λ j, i < j) starts).
Lemma ahead_mono starts i j : i ≤ j → (ahead starts j ≤ ahead starts i)%nat.
Proof.
  intros Hij. unfold ahead. induction starts as [|k l IH]; [done|]. rewrite !filter_cons.
  repeat case_decide; simpl; lia.
Qed.
Lemma ahead_step starts i j : j ∈ starts → i < j → (ahead starts j < ahead starts i)%nat.
Proof.
  intros Hj Hij. induction starts as [|k l IH]; [set_solver|].
  pose proof (ahead_mono l i j) as Hle. unfold ahead in *.
  apply elem_of_cons in Hj as [->|Hj].
  - rewrite filter_cons_False, filter_cons_True by lia. simpl. lia.
  - specialize (IH Hj). rewrite !filter_cons. repeat case_decide; simpl; lia.
Qed.
Lemma ahead_le starts i : (ahead starts i ≤ length starts)%nat.
Proof. apply length_filter. Qed.

Section run_loop.
Context (check : Z → S_ bool) (check_num : Z → Z → S_ bool) (next_other next_same : Z → S_ Z).
Fixpoint run_loop (f : nat) (i num : Z) : S_ Z :=
  if negb (i =? 0) && (i <=? u64 (i + num - 1)) then
    b ← check i;
    lift (assert_ b);;
    b ← check_num i num;
    if b : bool then mret i else
    i ← next_other i;
    if i =? 0 then mret 0 else
    i ← next_same i;
    match f with O => lift Undef | S f => run_loop f i num end
  else mret 0.

Context (s : sparsebit) (Y N : Z → Prop) (starts : list Z) (start num : Z).
Hypothesis check_ok : ∀ i (Φ : bool → sparsebit → Prop), in_u64 i →
  (∀ r : bool, (r = true ↔ Y i) → Φ r s) → wp (check i) Φ s.
Hypothesis check_num_ok : ∀ i (Φ : bool → sparsebit → Prop), in_u64 i → i + num ≤ 2 ^ 64 →
  (∀ r : bool, (r = true ↔ run Y i num) → Φ r s) → wp (check_num i num) Φ s.
Hypothesis next_other_ok : ∀ i (Φ : Z → sparsebit → Prop), in_u64 i →
  (∀ r, next_spec N Y i r → Φ r s) → wp (next_other i) Φ s.
Hypothesis next_same_ok : ∀ i (Φ : Z → sparsebit → Prop), in_u64 i →
  (∀ r, next_spec Y N i r → Φ r s) → wp (next_same i) Φ s.
Hypothesis exclusive : ∀ j, Y j → N j → False.
Hypothesis starts_ok : ∀ j, 0 < j → in_u64 j → Y j → N (j - 1) → j ∈ starts.
Hypothesis num_ok : 1 ≤ num < 2 ^ 64.

(** Where the loop stands: no run starts between [start] and [i]. *)
Definition run_at (i : Z) : Prop :=
  (i = 0 ∧ ∀ k, start < k → k + num ≤ 2 ^ 64 → ¬ run Y k num) ∨
  (start < i ∧ in_u64 i ∧ Y i ∧ ∀ k, start < k < i → ¬ run Y k num).
Lemma run_first k : run Y k num → Y k.
Proof. intros H. apply H. unfold range. lia. Qed.
(** A run that is too short is skipped as a whole. *)
Lemma run_skip i r1 r2 :
  0 ≤ start → run_at i → i ≠ 0 → ¬ run Y i num → next_spec N Y i r1 → r1 ≠ 0 →
  next_spec Y N r1 r2 →
  run_at r2 ∧ (r2 ≠ 0 → i < r2 ∧ r2 ∈ starts).
Proof.
  intros Hs Hat Hi Hno Hr1 Hne Hr2.
  destruct Hat as [[? _]|(Hsi & Hi64 & HY & Hbefore)]; [done|].
  destruct Hr1 as [[? _]|(Hir & Hr64 & HN & Hbetween)]; [done|].
  assert (r1 < i + num) as Hshort.
  { destruct (decide (r1 < i + num)); [done|]. destruct Hno. intros j Hj. unfold range in Hj.
    destruct (decide (j = i)) as [->|]; [done|]. apply Hbetween. lia. }
  assert (∀ k, start < k ≤ r1 → ¬ run Y k num) as Hskip.
  { intros k Hk Hrun. destruct (decide (k < i)); [by apply (Hbefore k); [lia|]|].
    apply (exclusive r1); [|done]. apply Hrun. unfold range. lia. }
  unfold in_u64 in *. destruct Hr2 as [[-> Hnone]|(Hr & Hr264 & HY2 & Hnone)].
  - split; [|done]. left. split; [done|]. intros k Hk Hle Hrun.
    destruct (decide (k ≤ r1)); [by apply (Hskip k)|].
    apply (exclusive k); [by apply run_first|]. apply Hnone; [lia|unfold in_u64; lia].
  - split.
    + right. split; [lia|]. split; [done|]. split; [done|]. intros k Hk Hrun.
      destruct (decide (k ≤ r1)); [apply (Hskip k); [lia|done]|].
      apply (exclusive k); [by apply run_first|]. apply Hnone. lia.
    + intros _. split; [lia|]. apply starts_ok; [lia|done|done|].
      destruct (decide (r2 - 1 = r1)) as [->|]; [done|]. apply Hnone. lia.
Qed.
Lemma wp_run_loop f i (Φ : Z → sparsebit → Prop) :
  0 ≤ start → run_at i → (i ≠ 0 → (ahead starts i < f)%nat) →
  (∀ r, run_spec Y start num r → Φ r s) → wp (run_loop f i num) Φ s.
Proof.
  intros Hs Hat Hf HΦ. revert i Hat Hf. induction f as [|f IH]; intros i Hat Hf; cbn [run_loop].
  all: destruct (Z.eqb_spec i 0) as [->|Hi]; cbn [negb andb];
    [wps; apply HΦ; destruct Hat as [[_ ?]|(? & _)]; [by left|lia]|].
  { exfalso. specialize (Hf Hi). lia. }
  pose proof Hat as [[? _]|(Hsi & [? ?] & HY & Hbefore)]; [done|].
  destruct (Z.leb_spec i (u64 (i + num - 1))) as [Hle|Hwrap]; cycle 1.
  { wps. apply HΦ. left. split; [done|]. intros k Hk Hkn Hrun.
    destruct (decide (i + num ≤ 2 ^ 64)).
    - rewrite u64_small in Hwrap by (unfold in_u64; lia). lia.
    - apply (Hbefore k); [lia|done]. }
  assert (i + num ≤ 2 ^ 64) as Hfit.
  { destruct (decide (i + num ≤ 2 ^ 64)); [done|]. exfalso.
    assert (u64 (i + num - 1) = i + num - 1 - 2 ^ 64) as Hu.
    { unfold u64, wrap. symmetry. apply (Z.mod_unique _ _ 1); lia. }
    lia. }
  wps. apply check_ok; [done|]. intros b Hb. wps. apply owp_assert; [by apply Hb|]. wps.
  apply check_num_ok; [done..|]. intros b' Hb'. destruct b'.
  { wps. apply HΦ. right. split_and!; try done. by apply Hb'. }
  assert (¬ run Y i num) as Hno by (intros H'; by apply Hb' in H').
  wps. apply next_other_ok; [done|]. intros r1 Hr1.
  destruct (Z.eqb_spec r1 0) as [->|Hr].
  { exfalso. apply Hno. intros j Hj. unfold range in Hj. destruct Hr1 as [[_ Hall]|(? & _)]; [|lia].
    destruct (decide (j = i)) as [->|]; [done|]. apply Hall; [lia|unfold in_u64; lia]. }
  assert (in_u64 r1) as Hr64 by (by destruct Hr1 as [[? _]|(_ & ? & _)]).
  wps. apply next_same_ok; [done|]. intros r2 Hr2.
  destruct (run_skip i r1 r2) as [Hat2 Hstart]; try done.
  apply IH; [done|]. intros Hr2ne. destruct (Hstart Hr2ne) as [? Hin].
  specialize (Hf Hi). pose proof (ahead_step starts i r2 Hin). lia.
Qed.
End run_loop.

Lemma next_set_num_run_loop :
  next_set_num_loop = run_loop sparsebit_is_set sparsebit_is_set_num sparsebit_next_clear
                        sparsebit_next_set.
Proof. reflexivity. Qed.
Lemma next_clear_num_run_loop :
  next_clear_num_loop = run_loop sparsebit_is_clear sparsebit_is_clear_num sparsebit_next_set
                          sparsebit_next_clear.
Proof. reflexivity. Qed.

(** The places where a run of set (cleared) bits may start. *)
Definition set_starts A : list Z := A ≫= λ e, seqZ (e_idx e) 33.
Definition clear_starts A : list Z := A ≫= λ e, e_lim e :: seqZ (e_idx e + 1) 32.
Lemma length_starts A (g : ent → list Z) k :
  (∀ e, length (g e) = k) → length (A ≫= g) = (k * length A)%nat.
Proof.
  intros Hg. induction A as [|e A IH]; [simpl; lia|]. rewrite bind_cons, length_app, Hg, IH. simpl. lia.
Qed.
Lemma set_start b A j : wf_from b A → in_set A j → ¬ in_set A (j - 1) → j ∈ set_starts A.
Proof.
  intros Hw (e & He & Hc & Hb)%Exists_exists Hno. apply list_elem_of_bind. exists e.
  split; [|done]. apply elem_of_seqZ. unfold covers in Hc. destruct (decide (j ≤ e_idx e + 32)); [lia|].
  exfalso. apply Hno, Exists_exists. exists e. split; [done|]. split; [unfold covers; lia|left; lia].
Qed.
Lemma clear_start b A j : wf_from b A → ¬ in_set A j → in_set A (j - 1) → j ∈ clear_starts A.
Proof.
  intros Hw Hno (e & He & Hc & Hb)%Exists_exists. apply list_elem_of_bind. exists e.
  split; [|done]. rewrite elem_of_cons, elem_of_seqZ. unfold covers in Hc.
  destruct (decide (j = e_lim e)); [by left|right].
  destruct (decide (j ≤ e_idx e + 32)); [lia|]. exfalso. apply Hno, Exists_exists. exists e.
  split; [done|]. split; [unfold covers; lia|left; lia].
Qed.
Lemma next_run_at (Y N : Z → Prop) start num i :
  (∀ j, Y j → N j → False) → 1 ≤ num → 0 ≤ start → next_spec Y N start i → run_at Y start num i.
Proof.
  intros Hex Hn Hs [[-> Hno]|(? & ? & ? & Hno)]; [left; split; [done|]|right; split_and!; try done].
  - intros k Hk Hle Hrun. apply (Hex k); [apply Hrun; unfold range; lia|]. apply Hno; [done|].
    unfold in_u64. lia.
  - intros k Hk Hrun. apply (Hex k); [apply Hrun; unfold range; lia|]. by apply Hno.
Qed.

Lemma wp_next_set_num P start num (Φ : Z → sparsebit → Prop) s :
  sb s P → in_u64 start → 1 ≤ num < 2 ^ 64 →
  (∀ r, run_spec P start num r → Φ r s) → wp (sparsebit_next_set_num start num) Φ s.
Proof.
  intros Hsb Hs Hn HΦ. pose proof Hsb as (A & Hst & Hv & HP). pose proof (valid_wf _ _ _ Hv) as Hw.
  unfold sparsebit_next_set_num. wps. apply owp_assert; [apply Z.leb_le; lia|]. wps.
  eapply wp_next_set; [done..|]. intros i Hi. wps. eapply wp_fuel_st; [done|].
  rewrite next_set_num_run_loop.
  eapply (wp_run_loop _ _ _ _ s P (λ j, ¬ P j) (set_starts A) start num); try done.
  - intros j Ψ Hj HΨ. by eapply wp_sb_is_set.
  - intros j Ψ Hj Hl HΨ. eapply wp_is_set_num; [done..|lia|done|done].
  - intros j Ψ Hj HΨ. by eapply wp_next_clear.
  - intros j Ψ Hj HΨ. by eapply wp_next_set.
  - intros j _ _ HY HN. apply (set_start (-1)); [done|by apply HP|by rewrite HP].
  - apply Hs.
  - eapply next_run_at; [|lia|apply Hs|exact Hi]. intros j HY HN. by apply HN.
  - intros _. pose proof (ahead_le (set_starts A) i) as Hle. unfold set_starts in Hle at 2.
    rewrite (length_starts A _ 33) in Hle by (intros; by rewrite length_seqZ). lia.
Qed.
Lemma wp_next_clear_num P start num (Φ : Z → sparsebit → Prop) s :
  sb s P → in_u64 start → 1 ≤ num < 2 ^ 64 →
  (∀ r, run_spec (λ j, ¬ P j) start num r → Φ r s) → wp (sparsebit_next_clear_num start num) Φ s.
Proof.
  intros Hsb Hs Hn HΦ. pose proof Hsb as (A & Hst & Hv & HP). pose proof (valid_wf _ _ _ Hv) as Hw.
  unfold sparsebit_next_clear_num. wps. apply owp_assert; [apply Z.leb_le; lia|]. wps.
  eapply wp_next_clear; [done..|]. intros i Hi. wps. eapply wp_fuel_st; [done|].
  rewrite next_clear_num_run_loop.
  eapply (wp_run_loop _ _ _ _ s (λ j, ¬ P j) P (clear_starts A) start num); try done.
  - intros j Ψ Hj HΨ. by eapply wp_is_clear.
  - intros j Ψ Hj Hl HΨ. eapply wp_is_clear_num; [done..|lia|done|done].
  - intros j Ψ Hj HΨ. by eapply wp_next_set.
  - intros j Ψ Hj HΨ. by eapply wp_next_clear.
  - intros j _ _ HY HN. apply (clear_start (-1)); [done|by rewrite HP|by apply HP].
  - apply Hs.
  - eapply next_run_at; [|lia|apply Hs|exact Hi]. intros j HY HN. by apply HY.
  - intros _. pose proof (ahead_le (clear_starts A) i) as Hle. unfold clear_starts in Hle at 2.
    rewrite (length_starts A _ 33) in Hle by (intros; cbn [length]; by rewrite length_seqZ). lia.
Qed.

(** ** First bits *)
Lemma wp_first_set P (Φ : Z → sparsebit → Prop) s :
  sb s P → (∃ i, P i) → (∀ r, P r → (∀ i, P i → r ≤ i) → Φ r s) → wp sparsebit_first_set Φ s.
Proof.
  intros Hsb Hex HΦ. unfold sparsebit_first_set. wps. eapply wp_any_set; [done|]. intros b Hb. wps.
  apply owp_assert; [by apply Hb|]. wps. destruct Hsb as (A & Hst & Hv & HP).
  eapply wp_node_first; [done|]. destruct A as [|e A]; simpl.
  { exfalso. destruct Hex as [i Hi%HP]. by apply in_set_nil in Hi. }
  wps. eapply (wp_load_st [] e A); [done|]. intros par lc rc. wps. pose proof Hv as (Ho & _ & Hm & _).
  destruct (top_bit (e_mask e)) as [Ht Hr]; [apply Ho|done|].
  eapply (owp_first_set e 0 _ _ _ (Z.log2 (e_mask e))); [done|lia|lia|done|].
  intros k Hk Hbk Hlow.
  assert (in_set (e :: A) (e_idx e + k)) as Hin.
  { left. pose proof Ho as (? & ? & ? & ? & ?). split; [unfold covers, e_lim; lia|right].
    by replace (e_idx e + k - e_idx e) with k by lia. }
  apply HΦ; [by apply HP|]. intros i [[[]%in_set_nil _]|[[[Hc Hb'] _]|[_ ?]]]%HP%(in_set_parts [] e A).
  - unfold covers in Hc. destruct (decide (e_idx e + k ≤ i)); [done|]. exfalso.
    destruct Hb' as [?|Hb']; [lia|]. rewrite Hlow in Hb'; [done|lia].
  - apply ok_lim in Ho. lia.
  - done.
Qed.
Lemma wp_first_clear P (Φ : Z → sparsebit → Prop) s :
  sb s P → (∃ i, in_u64 i ∧ ¬ P i) →
  (∀ r, in_u64 r → ¬ P r → (∀ i, 0 ≤ i < r → P i) → Φ r s) → wp sparsebit_first_clear Φ s.
Proof.
  intros Hsb (z & Hz & Hnz) HΦ. unfold sparsebit_first_clear, sparsebit_any_clear. wps.
  eapply wp_all_set; [done|]. intros b Hb. wps. apply owp_assert.
  { destruct b; [|done]. by destruct Hnz; apply (proj1 Hb eq_refl). }
  destruct Hsb as (A & Hst & Hv & HP). pose proof (valid_wf _ _ _ Hv) as Hw.
  wps. eapply wp_node_first; [done|]. destruct A as [|e A]; simpl.
  { wps. apply HΦ; [done| |lia]. by intros []%HP%in_set_nil. }
  wps. eapply (wp_load_st [] e A); [done|]. intros par lc rc. cbn [mk idx mask].
  pose proof Hw as (Ho & _ & HA). pose proof Ho as (H1 & H2 & H3 & H4 & H5).
  destruct (Z.ltb_spec 0 (e_idx e)) as [Hlt|Hge].
  { wps. apply HΦ; [done| |lia]. intros Hin%HP. apply (in_set_lim (e_idx e)) in Hin; [lia|].
    by split_and!. }
  assert (e_idx e = 0) as Hz0 by lia.
  destruct (Z.eqb_spec (e_mask e) FULL) as [Hfull|Hnf]; cbn [negb]; cycle 1.
  { wps. destruct (not_full _ H5 Hnf) as (j & Hj & Hbj).
    eapply (owp_first_clear e 0 _ _ _ j); [done|lia|lia|done|]. intros k Hk Hbk Hlow.
    unfold e_lim in H4. apply HΦ; [unfold in_u64; lia| |].
    - intros Hin%HP. apply (in_set_at (-1) [] A e) in Hin; [|done|unfold covers, e_lim; lia].
      destruct Hin as [_ [?|Hin]]; [lia|]. replace (e_idx e + k - e_idx e) with k in Hin by lia. congruence.
    - intros i Hi. apply HP. left. split; [unfold covers, e_lim; lia|right]. apply Hlow. lia. }
  (* the whole first node is set: as for the next cleared bit after index 0 *)
  assert (∀ r, next_clear_spec (in_set (e :: A)) 0 r → Φ r s ∨ r = 0) as Hres.
  { intros r [[-> _]|(Hr & Hr64 & HY & Hall)]; [by right|left]. apply HΦ; [done|by rewrite <-HP|].
    intros i Hi. destruct (decide (i = 0)) as [->|]; [|apply HP, Hall; lia].
    apply HP. left. split; [unfold covers, e_lim; lia|right]. rewrite Hfull, FULL_bits, bool_decide_true by lia.
    done. }
  assert (rest_set e 0) as Hrest.
  { pose proof (ok_lim e Ho). split; [lia|]. intros i Hi. split; [split; lia|].
    rewrite Hfull, FULL_bits, bool_decide_eq_true. lia. }
  assert (∀ r, next_clear_spec (in_set (e :: A)) 0 r → r ≠ 0) as Hnz0.
  { intros r [[-> Hall]|(? & _)]; [|lia]. exfalso. apply Hnz. destruct (decide (z = 0)) as [->|].
    - apply HP. left. split; [unfold covers, e_lim; lia|right]. rewrite Hfull, FULL_bits. apply bool_decide_eq_true. lia.
    - apply HP, Hall; [unfold in_u64 in Hz; lia|done]. }
  eapply (wp_clear_after [] e A _ 0); [done..| |].
  { intros r Hr. destruct (Hres r Hr); [done|]. by destruct (Hnz0 r Hr). }
  intros ->. rewrite (node_limit_ok e) by done. wps. apply owp_assert; [done|]. wps.
  assert (next_clear_spec (in_set [e]) 0 (u64 (e_lim e))) as Hlim.
  { apply (clear_at_limit [] e []); try done. by right. }
  apply owp_assert; [by apply negb_true_iff, Z.eqb_neq, Hnz0|]. wps.
  destruct (Hres _ Hlim); [done|]. by destruct (Hnz0 _ Hlim).
Qed.

(** ** Validation

    The checks of [sparsebit_validate_internal] hold for every valid sequence,
    but for the last one: a full mask must not follow the node before it, even
    when the bit in between is clear. *)
Definition conflict (o : option ent) e : bool :=
  match o with Some q => (e_mask e =? FULL) && (e_lim q =? e_idx e) | None => false end.
Fixpoint compact (o : option ent) A : bool :=
  match A with [] => true | e :: A' => negb (conflict o e) && compact (Some e) A' end.

Lemma wp_child_ok A e B n (c : option nat) (Φ : bool → sparsebit → Prop) s par lc rc :
  st s (A ++ e :: B) n → mem s !! addr e = Some (mk par lc rc e) → c = lc ∨ c = rc →
  Φ true s → wp (child_ok (addr e) c) Φ s.
Proof.
  intros [(t & Ht & Hi) _] Hm Hc HΦ.
  destruct (trep_at s t A e B Ht Hi) as (k & l & r & -> & _ & _ & He & Hl & Hr & _).
  rewrite He in Hm. injection Hm as <- <- <-.
  assert (∀ t', shape (mem s) (Some (addr e)) t' → wp (child_ok (addr e) (rt t')) Φ s) as Hok.
  { intros [|l' e' r'] Hs; unfold child_ok; simpl; wps; [done|]. destruct Hs as (He' & _).
    apply (wp_load_node _ _ _ _ He'). wps. by rewrite bool_decide_true. }
  destruct Hc as [->| ->]; by apply Hok.
Qed.
Lemma wp_node_error A e B n (Φ : bool → sparsebit → Prop) s par lc rc par' lc' rc' :
  st s (A ++ e :: B) n → valid (A ++ e :: B) → mem s !! addr e = Some (mk par lc rc e) →
  Φ (conflict (last A) e) s →
  wp (node_error (mk par' lc' rc' <$> last A) (addr e) (mk par lc rc e)) Φ s.
Proof.
  intros Hst Hv Hm HΦ. pose proof (valid_wf _ _ _ Hv) as Hw.
  pose proof Hv as [HA (Ho & Hlim & Hmask & _)]%valid_app.
  pose proof Ho as (H1 & H2 & H3 & H4 & H5). unfold e_lim in H4.
  unfold node_error. rewrite (node_end_ok e) by done. cbn [mk mask num_after idx left right parent].
  unfold MASK_BITS. pose proof (ok_lim e Ho).
  destruct (Z.eqb_spec (e_mask e) 0); [done|].
  destruct (Z.ltb_spec (2 ^ 64 - 1 - 32 + 1) (e_num e)); [lia|].
  rewrite H2. cbn [negb Z.eqb]. destruct (Z.ltb_spec (e_lim e - 1) (e_idx e)); [lia|].
  wps. eapply wp_child_ok; [done..|by left|]. cbn [negb]. wps.
  eapply wp_child_ok; [done..|by right|]. cbn [negb]. wps. apply wp_get.
  assert (bool_decide (par = None) && negb (bool_decide (root s = Some (addr e))) = false) as ->.
  { apply andb_false_iff. destruct par as [p|]; [by left; apply bool_decide_eq_false|right].
    apply negb_false_iff, bool_decide_eq_true. destruct Hst as [(t & Ht & Hi) _].
    destruct (trep_at s t A e B Ht Hi) as (k & l & r & -> & _ & _ & He & _).
    rewrite He in Hm. injection Hm as Hup _ _. rewrite (tr_root s _ Ht). by destruct k. }
  wps. destruct A as [|q A _] using rev_ind; [done|]. rewrite last_snoc in *. simpl in *.
  assert (ok_ent q) as Hoq by (by apply valid_app in HA as [_ (? & _)]).
  rewrite lim_snoc in Hlim. pose proof (ok_lim q Hoq).
  rewrite (node_end_ok q), (node_limit_ok q) by done. cbn [mk idx].
  destruct (Z.leb_spec (e_idx e) (e_idx q)); [lia|].
  destruct (Z.leb_spec (e_idx e) (e_lim q - 1)); [lia|]. cbn [orb].
  rewrite u64_small; [done|]. destruct Hoq as (? & _). unfold in_u64. lia.
Qed.
Lemma wp_validate_loop B : ∀ A n f tot (Φ : bool * Z → sparsebit → Prop) s par lc rc,
  st s (A ++ B) n → valid (A ++ B) → (length B ≤ f)%nat →
  (compact (last A) B = true → Φ (false, u64 (tot + total B)) s) →
  (compact (last A) B = false → ∀ t, Φ (true, t) s) →
  tot = u64 tot →
  wp (validate_loop f (mk par lc rc <$> last A) (addr <$> head B) tot) Φ s.
Proof.
  induction B as [|e B IH]; intros A n f tot Φ s par lc rc Hst Hv Hf Hok Herr Htot.
  { destruct f; simpl; wps; simpl in Hok; rewrite Z.add_0_r, <-Htot in Hok; by apply Hok. }
  simpl in Hf. destruct f as [|f]; [lia|]. cbn [head fmap option_fmap option_map validate_loop].
  wps. pose proof Hst as [(t & Ht & Hi) _].
  destruct (trep_at s t A e B Ht Hi) as (k & l & r & _ & _ & _ & He & _).
  apply (wp_load_node _ _ _ _ He). cbn [mk mask num_after]. wps.
  eapply (wp_node_error A e B); [done..|]. cbn [compact] in Hok, Herr.
  destruct (conflict (last A) e); cbn [negb andb] in *; [wps; by apply Herr|].
  wps. eapply (wp_node_next A e B); [done|]. cbn beta.
  replace (Some (mk (up k) (rt l) (rt r) e))
    with (mk (up k) (rt l) (rt r) <$> last (A ++ [e])) by (by rewrite last_snoc).
  eapply (IH (A ++ [e]) n); [by rewrite <-app_assoc..|lia| | |].
  - rewrite last_snoc. intros Hc%Hok. rewrite u64_add. simpl in Hc. unfold cnt in Hc.
    by replace (tot + popcount (e_mask e) + e_num e + total B)
      with (tot + (e_num e + popcount (e_mask e) + total B)) by lia.
  - rewrite last_snoc. exact Herr.
  - symmetry. apply u64_small. apply wrap_range. lia.
Qed.
(** Validation passes exactly on the compact sequences; otherwise it aborts. *)
Lemma validate_result s A :
  st s A (u64 (total A)) → valid A →
  sparsebit_validate_internal s = if compact None A then Done (tt, s) else Abort.
Proof.
  intros Hst Hv. unfold sparsebit_validate_internal.
  rewrite (C_bind_Done _ _ s (addr <$> head A) s)
    by (apply wp_exact; by eapply wp_node_first).
  rewrite (C_bind_Done _ _ s (length A) s) by (apply wp_exact; by eapply wp_fuel_st).
  assert (wp (validate_loop (length A) None (addr <$> head A) 0)
    (λ r s', s' = s ∧ if compact None A then r = (false, u64 (total A)) else r.1 = true) s) as Hloop.
  { eapply (wp_validate_loop A [] _ _ _ _ _ None None None); [done..| | |done]; simpl;
      [by intros ->|by intros ->]. }
  apply wp_inv in Hloop as ([err tot] & s' & Hrun & -> & Hres).
  rewrite (C_bind_Done _ _ s (err, tot) s Hrun). cbn beta iota.
  rewrite (C_bind_Done get _ s s s eq_refl).
  destruct (compact None A).
  - injection Hres as -> ->. rewrite (proj2 Hst), Z.eqb_refl. done.
  - simpl in Hres. by subst.
Qed.
