(* ===== verification/SparsebitSpec.v ===== *)
(** * selftests: the sparse bit array as a set

    The updates as operations on a set of indices, sequences of them, and the
    lemmas that say what each operation and each query does under [sb]. *)

From S2P Require Import Prelude Sparsebit SparsebitOps SparsebitTree SparsebitSearch SparsebitBits.
From S2P Require Import SparsebitReduce SparsebitRange SparsebitCount SparsebitCopy SparsebitQuery.
From S2P Require Import SparsebitRuns.

Implicit Types (s : sparsebit) (P : Z → Prop).

(** ** The abstract array: a set of 64-bit indices *)
Inductive op : Type :=
| SetNum (start num : Z)
| ClearNum (start num : Z)
| SetBit (i : Z)
| ClearBit (i : Z)
| SetAll
| ClearAll.
Definition exec (o : op) : S_ unit :=
  match o with
  | SetNum a n => sparsebit_set_num a n
  | ClearNum a n => sparsebit_clear_num a n
  | SetBit i => sparsebit_set i
  | ClearBit i => sparsebit_clear i
  | SetAll => sparsebit_set_all
  | ClearAll => sparsebit_clear_all
  end.
Definition effect P (o : op) : Z → Prop :=
  match o with
  | SetNum a n => λ j, P j ∨ a ≤ j < a + n
  | ClearNum a n => λ j, P j ∧ ¬ (a ≤ j < a + n)
  | SetBit i => λ j, P j ∨ j = i
  | ClearBit i => λ j, P j ∧ j ≠ i
  | SetAll => in_u64
  | ClearAll => λ _, False
  end.
(** The arguments are of type [uint64_t]. *)
Definition op_typed (o : op) : Prop :=
  match o with
  | SetNum a n | ClearNum a n => in_u64 a ∧ in_u64 n
  | SetBit i | ClearBit i => in_u64 i
  | SetAll | ClearAll => True
  end.
(** A range is not empty and ends below 2^64. *)
Definition op_fits (o : op) : bool :=
  match o with
  | SetNum a n | ClearNum a n => (0 <? n) && (a + n <=? 2 ^ 64)
  | _ => true
  end.
Fixpoint exec_all (l : list op) : S_ unit :=
  match l with [] => mret tt | o :: l => exec o;; exec_all l end.
Definition nothing : Z → Prop := λ _, False.
Definition effects (l : list op) : Z → Prop := foldl effect nothing l.
Definition empty_array : sparsebit := SB None 0 ∅ 0 [].

(** ** Shared lemmas *)
Lemma sb_empty : sb empty_array nothing.
Proof.
  exists []. split_and!; [|done|].
  - split; [|done]. exists Leaf. split; [|done]. split; try done; [constructor| |].
    + intros p. split; [by intros [n Hn]|by intros []%elem_of_nil].
    + by intros p []%elem_of_nil.
  - intros i. split; [intros []%in_set_nil|done].
Qed.
Lemma wraps_below a n : in_u64 a → in_u64 n → 2 ^ 64 < a + n → u64 (a + n - 1) < a.
Proof.
  intros [? ?] [? ?] ?. unfold u64, wrap. rewrite <-(Z_mod_plus_full _ (-1)), Z.mod_small; lia.
Qed.
Lemma put_num_wraps v a n s :
  in_u64 a → in_u64 n → (0 <? n) && (a + n <=? 2 ^ 64) = false → put_num v a n s = Abort.
Proof.
  intros Ha Hn Hf. unfold put_num, assert_. destruct (Z.ltb_spec 0 n); [|done].
  cbn [andb] in Hf. apply Z.leb_gt in Hf.
  by rewrite (proj2 (Z.leb_gt a (u64 (a + n - 1)))) by (by apply wraps_below).
Qed.
Lemma wp_op P o (Φ : unit → sparsebit → Prop) s :
  sb s P → op_typed o → op_fits o = true → (∀ s', sb s' (effect P o) → Φ tt s') → wp (exec o) Φ s.
Proof.
  intros Hsb Ht Hf HΦ. assert (∀ v a n, in_u64 a → in_u64 n → (0 <? n) && (a + n <=? 2 ^ 64) = true →
    (∀ s', sb s' (SparsebitRange.put v (range a n) P) → Φ tt s') → wp (put_num v a n) Φ s) as Hput.
  { intros v a n [? ?] [? ?] [??]%andb_true_iff HΦ'. apply (wp_put_num v a n P); try done; lia. }
  destruct o; cbn [exec op_typed op_fits effect] in *;
    unfold sparsebit_set, sparsebit_clear; rewrite ?set_num_put, ?clear_num_put.
  1,2: apply Hput; try tauto.
  1: apply (Hput true); [done..|unfold in_u64 in *; lia|].
  2: apply (Hput false); [done..|unfold in_u64 in *; lia|].
  3: by apply (wp_set_all P).
  3: apply (wp_clear_all P); [done|]; by intros s' ? _ _; apply HΦ.
  all: intros s' Hs'; apply HΦ; revert Hs'; apply sb_ext; intros j;
    unfold SparsebitRange.put, range; intuition lia.
Qed.
Lemma wp_exec_all l P s :
  sb s P → Forall (λ o, op_typed o ∧ op_fits o = true) l →
  wp (exec_all l) (λ _ s', sb s' (foldl effect P l)) s.
Proof.
  revert P s. induction l as [|o l IH]; intros P s Hsb Hl; cbn [exec_all foldl]; wps; [done|].
  inversion Hl as [|?? [Ht Hf] Hl']; subst. apply (wp_op P); [done..|]. intros s' Hs'. by apply IH.
Qed.
(** Freeing an array gives back every node. *)
Lemma free_result s P : sb s P → sparsebit_free (Some s) = Done (None, ∅).
Proof.
  intros Hsb. unfold sparsebit_free. assert (wp sparsebit_clear_all (λ _ s', mem s' = ∅) s) as Hc.
  { by eapply wp_clear_all. }
  apply wp_inv in Hc as ([] & s' & Hc & Hm). rewrite Hc. simpl. by rewrite Hm.
Qed.
(** A query answers and leaves the array alone. *)
Lemma query_result {X} (m : S_ X) (R : X → Prop) s :
  wp m (λ r s', R r ∧ s' = s) s → ∃ r, m s = Done (r, s) ∧ R r.
Proof. intros (r & s' & Hm & ? & ->)%wp_inv. eauto. Qed.
Ltac query lem := apply query_result; eapply lem; [eassumption..|by intros].

(** A concrete array, with the bits 10 to 12. *)
Definition demo : sparsebit := SB (Some O) 3 {[ O := Node None None None 0 0 7168 ]} 1 [].
Lemma sb_demo : sb demo (effect nothing (SetNum 10 3)).
Proof.
  assert (wp (exec (SetNum 10 3)) (λ _ s', sb s' (effect nothing (SetNum 10 3))) empty_array) as Hwp.
  { apply (wp_op nothing); [apply sb_empty|by vm_compute|done|done]. }
  apply wp_inv in Hwp as ([] & s' & Hrun & Hs').
  assert (exec (SetNum 10 3) empty_array = Done (tt, demo)) as E by (vm_compute; reflexivity).
  rewrite E in Hrun. by injection Hrun as <-.
Qed.
