(* ===== verification/SparsebitProps.v ===== *)
(** * selftests: the theorems on the sparse bit array

    [sb s P] says that the nodes of [s] form a search tree for the set [P]. The
    updates keep it and change [P] as their names say; the queries answer about
    [P] and leave the array as it is. *)

From S2P Require Import Prelude Sparsebit SparsebitOps SparsebitTree SparsebitSearch SparsebitBits.
From S2P Require Import SparsebitReduce SparsebitRange SparsebitCount SparsebitCopy SparsebitQuery.
From S2P Require Import SparsebitRuns SparsebitSpec.

Implicit Types (s : sparsebit) (P : Z → Prop).

(** ** Updates *)

(** C9. The updates refine the set: whatever the array holds, and as long as no
    [calloc] fails (the code ends the test then), [set_num], [clear_num], [set],
    [clear], [set_all] and [clear_all] return normally and leave an array of exactly the set their names promise; an empty range, or
    one that runs past the last 64-bit index, fails the assertions instead. *)
Theorem sparsebit_update_refines s P o :
  sb s P → op_typed o →
  if op_fits o then ∃ s', exec o s = Done (tt, s') ∧ sb s' (effect P o) else exec o s = Abort.
Proof.
  intros Hsb Ht. destruct (op_fits o) eqn:Hf.
  - assert (wp (exec o) (λ _ s', sb s' (effect P o)) s) as ([] & s' & ? & ?)%wp_inv; [|eauto].
    by apply (wp_op P).
  - destruct o; try done; cbn [exec]; rewrite ?set_num_put, ?clear_num_put;
      by apply put_num_wraps; destruct Ht.
Qed.
Lemma sparsebit_update_refines_witness :
  exec (SetNum (2 ^ 64 - 1) 2) demo = Abort ∧
  ∃ s', exec (ClearNum 11 9) demo = Done (tt, s') ∧
    sb s' (effect (effect nothing (SetNum 10 3)) (ClearNum 11 9)).
Proof.
  split.
  - apply (sparsebit_update_refines demo _ (SetNum (2 ^ 64 - 1) 2) sb_demo). by vm_compute.
  - apply (sparsebit_update_refines demo _ (ClearNum 11 9) sb_demo). by vm_compute.
Defined.

(** C10. Histories: after any sequence of updates on a new array, no [calloc]
    failing, every index reads as the sequence of set operations says, and freeing the array then
    gives back every node. *)
Theorem sparsebit_history l :
  Forall (λ o, op_typed o ∧ op_fits o = true) l →
  ∃ s0 s, sparsebit_alloc [] = Done s0 ∧ exec_all l s0 = Done (tt, s) ∧
    (∀ i, in_u64 i → ∃ b : bool, sparsebit_is_set i s = Done (b, s) ∧ (b = true ↔ effects l i)) ∧
    sparsebit_free (Some s) = Done (None, ∅).
Proof.
  intros Hl. exists empty_array.
  destruct (wp_inv _ _ _ (wp_exec_all l nothing empty_array sb_empty Hl)) as ([] & s & Hrun & Hsb).
  exists s. split_and!; [done..| |].
  - intros i Hi. query wp_sb_is_set.
  - by eapply free_result.
Qed.
Lemma sparsebit_history_witness :
  let l := [SetNum 0 75; SetNum 96 32; ClearBit 70; SetNum 0 64; SetAll; ClearNum 5 (2 ^ 40)] in
  ∃ s0 s, sparsebit_alloc [] = Done s0 ∧ exec_all l s0 = Done (tt, s) ∧
    (∀ i, in_u64 i → ∃ b : bool, sparsebit_is_set i s = Done (b, s) ∧ (b = true ↔ effects l i)) ∧
    sparsebit_free (Some s) = Done (None, ∅).
Proof.
  apply sparsebit_history. repeat constructor; vm_compute; done.
Defined.

(** The type invariant: after any sequence of updates the nodes form a tree
    whose parent and child links agree, each node reachable exactly once and
    none leaked; in order, nodes start at multiples of 32, do not overlap and end
    by 2^64, no mask is empty, a full mask does not follow a set bit, and
    [num_set] is the number of set bits modulo 2^64. *)
Theorem sparsebit_shape l :
  Forall (λ o, op_typed o ∧ op_fits o = true) l →
  ∃ s t, exec_all l empty_array = Done (tt, s) ∧ trep s t ∧ valid (inorder t) ∧
    num_set s = u64 (total (inorder t)) ∧ ∀ i, in_set (inorder t) i ↔ effects l i.
Proof.
  intros Hl.
  destruct (wp_inv _ _ _ (wp_exec_all l nothing empty_array sb_empty Hl))
    as ([] & s & Hrun & A & [(t & Ht & <-) Hn] & Hv & HP).
  by exists s, t.
Qed.
Lemma sparsebit_shape_witness :
  ∃ s t, exec_all [SetBit 64; SetBit 65; SetBit 32] empty_array = Done (tt, s) ∧ trep s t ∧
    valid (inorder t) ∧ num_set s = u64 (total (inorder t)) ∧
    ∀ i, in_set (inorder t) i ↔ effects [SetBit 64; SetBit 65; SetBit 32] i.
Proof. apply sparsebit_shape. repeat constructor; vm_compute; done. Defined.

(** C22. Merging ends: from every state the updates can leave for it, with [e]
    the node in focus, the loop of [node_reduce] stops within the passes it is
    given, without undefined behaviour; the sequence is in order again and the
    set and its size are what they were. *)
Theorem node_reduce_terminates s A e B :
  st s (A ++ e :: B) (u64 (total (A ++ e :: B))) → RI A e B →
  ∃ s' A', node_reduce (addr e) s = Done (tt, s') ∧ st s' A' (u64 (total A')) ∧ valid A' ∧
    (∀ i, in_set A' i ↔ in_set (A ++ e :: B) i) ∧ total A' = total (A ++ e :: B).
Proof.
  intros Hst HRI.
  assert (wp (node_reduce (addr e)) (λ _ s', ∃ A', st s' A' (u64 (total A')) ∧ valid A' ∧
    (∀ i, in_set A' i ↔ in_set (A ++ e :: B) i) ∧ total A' = total (A ++ e :: B)) s)
    as ([] & s' & Hrun & A' & HA')%wp_inv; [|by exists s', A'].
  eapply wp_node_reduce; [done|apply u64_range|done|]. intros s' A' ? ? ? Ht. exists A'. by rewrite Ht.
Qed.
(** A node right after another, with no bit of its own left. *)
Definition merging : sparsebit :=
  SB (Some 0%nat) 32 {[ 0%nat := Node None None (Some 1%nat) 0 0 FULL;
                        1%nat := Node (Some 0%nat) None None 32 0 0 ]} 2 [].
Lemma node_reduce_terminates_witness :
  ∃ s' A', node_reduce 1 merging = Done (tt, s') ∧ st s' A' (u64 (total A')) ∧ valid A' ∧
    (∀ i, in_set A' i ↔ in_set [Ent 0 0 0 FULL; Ent 1 32 0 0] i) ∧ total A' = 32.
Proof.
  apply (node_reduce_terminates merging [Ent 0 0 0 FULL] (Ent 1 32 0 0) []).
  - split; [|vm_compute; reflexivity].
    exists (T Leaf (Ent 0 0 0 FULL) (T Leaf (Ent 1 32 0 0) Leaf)). split; [|done]. split; try done.
    + by apply (bool_decide_unpack _).
    + intros p. unfold addrs. simpl. rewrite !elem_of_cons, elem_of_nil. unfold merging, mem.
      rewrite lookup_insert_is_Some, lookup_singleton_is_Some. naive_solver.
    + intros p. unfold addrs. simpl. rewrite !elem_of_cons, elem_of_nil. lia.
  - split_and!; [|by vm_compute|by left|by left]. split_and!; by vm_compute.
Defined.

(** ** Queries *)

(** Size queries: [num_set] is the size of the set modulo 2^64 (a full
    array reads 0), and in spite of that [any_set], [all_set], [all_clear] and
    [any_clear] answer exactly what they say, the full array included. *)
Theorem sparsebit_counts s P :
  sb s P →
  ∃ (X : gset Z) (any all : bool), (∀ i, i ∈ X ↔ P i) ∧
    sparsebit_num_set s = Done (u64 (Z.of_nat (size X)), s) ∧
    sparsebit_any_set s = Done (any, s) ∧ (any = true ↔ ∃ i, P i) ∧
    sparsebit_all_set s = Done (all, s) ∧ (all = true ↔ ∀ i, in_u64 i → P i) ∧
    sparsebit_all_clear s = Done (negb any, s) ∧ sparsebit_any_clear s = Done (negb all, s).
Proof.
  intros Hsb. destruct (sb_count s P Hsb) as (X & HX & Hn).
  assert (∃ any : bool, sparsebit_any_set s = Done (any, s) ∧ (any = true ↔ ∃ i, P i))
    as (any & Hany & ?) by (query wp_any_set).
  assert (∃ all : bool, sparsebit_all_set s = Done (all, s) ∧ (all = true ↔ ∀ i, in_u64 i → P i))
    as (all & Hall & ?) by (query wp_all_set).
  exists X, any, all. unfold sparsebit_all_clear, sparsebit_any_clear.
  rewrite (C_bind_Done _ _ _ _ _ Hany), (C_bind_Done _ _ _ _ _ Hall). split_and!; try done.
  unfold sparsebit_num_set. rewrite (C_bind_Done get _ s s s) by done. by rewrite Hn.
Qed.
Lemma sparsebit_counts_witness :
  ∃ (X : gset Z) (any all : bool), (∀ i, i ∈ X ↔ effect nothing (SetNum 10 3) i) ∧
    sparsebit_num_set demo = Done (u64 (Z.of_nat (size X)), demo) ∧
    sparsebit_any_set demo = Done (any, demo) ∧ any = true ∧
    sparsebit_all_set demo = Done (all, demo) ∧ all = false.
Proof.
  destruct (sparsebit_counts demo _ sb_demo) as (X & any & all & HX & Hn & Hany & Ha & Hall & Hl & _).
  exists X, any, all. split_and!; try done.
  - apply Ha. exists 10. right. lia.
  - apply not_true_is_false. intros [[]|?]%(λ H, proj1 Hl H 0 ltac:(vm_compute; done)). lia.
Defined.

(** C23. Searches: [next_set] and [next_clear] return the least set (cleared)
    index after the given one, and 0 exactly when there is none; [first_set]
    and [first_clear] the least of all, and fail their assertion exactly when
    there is none. *)
Theorem sparsebit_searches s P prev :
  sb s P → in_u64 prev →
  (∃ r, sparsebit_next_set prev s = Done (r, s) ∧ next_set_spec P prev r) ∧
  (∃ r, sparsebit_next_clear prev s = Done (r, s) ∧ next_clear_spec P prev r) ∧
  ((∃ r, sparsebit_first_set s = Done (r, s) ∧ P r ∧ ∀ i, P i → r ≤ i) ∨
   (sparsebit_first_set s = Abort ∧ ∀ i, ¬ P i)) ∧
  ((∃ r, sparsebit_first_clear s = Done (r, s) ∧ in_u64 r ∧ ¬ P r ∧ ∀ i, 0 ≤ i < r → P i) ∨
   (sparsebit_first_clear s = Abort ∧ ∀ i, in_u64 i → P i)).
Proof.
  intros Hsb Hp. split_and!; [query wp_next_set|query wp_next_clear|..].
  - assert (∃ any : bool, sparsebit_any_set s = Done (any, s) ∧ (any = true ↔ ∃ i, P i))
      as ([] & Hany & Hex) by (query wp_any_set).
    + left. apply query_result. eapply wp_first_set; [done|by apply Hex|by intros].
    + right. unfold sparsebit_first_set. rewrite (C_bind_Done _ _ _ _ _ Hany). split; [done|].
      intros i Hi. by assert (false = true) by (apply Hex; eauto).
  - assert (∃ all : bool, sparsebit_all_set s = Done (all, s) ∧ (all = true ↔ ∀ i, in_u64 i → P i))
      as (all & Hall & Hex) by (query wp_all_set).
    destruct (sb_missing s P Hsb) as [Hfull|Hmiss].
    + right. split; [|done]. unfold sparsebit_first_clear, sparsebit_any_clear.
      rewrite (C_bind_Done _ _ s false s); [done|].
      rewrite (C_bind_Done _ _ _ _ _ Hall). by rewrite (proj2 Hex Hfull).
    + left. apply query_result. eapply wp_first_clear; [done..|by intros].
Qed.
Lemma sparsebit_searches_witness :
  ∃ r, sparsebit_next_set 10 demo = Done (r, demo) ∧
    next_set_spec (effect nothing (SetNum 10 3)) 10 r.
Proof.
  apply (sparsebit_searches demo _ 10 sb_demo). by vm_compute.
Defined.

(** Runs: [is_set_num] and [is_clear_num] say whether a whole range is set
    or clear, and fail their assertions on an empty or wrapping range. *)
Theorem sparsebit_ranges s P i num :
  sb s P → in_u64 i → in_u64 num →
  if (0 <? num) && (i + num <=? 2 ^ 64) then
    (∃ r : bool, sparsebit_is_set_num i num s = Done (r, s) ∧ (r = true ↔ run P i num)) ∧
    (∃ r : bool, sparsebit_is_clear_num i num s = Done (r, s) ∧
      (r = true ↔ run (λ j, ¬ P j) i num))
  else sparsebit_is_set_num i num s = Abort ∧ sparsebit_is_clear_num i num s = Abort.
Proof.
  intros Hsb Hi Hn. destruct ((0 <? num) && (i + num <=? 2 ^ 64)) eqn:Hf.
  - apply andb_true_iff in Hf as [?%Z.ltb_lt ?%Z.leb_le].
    split; [query wp_is_set_num|query wp_is_clear_num].
  - unfold sparsebit_is_set_num, sparsebit_is_clear_num, assert_.
    destruct (Z.ltb_spec 0 num); [|done]. cbn [andb] in Hf. apply Z.leb_gt in Hf.
    by rewrite (proj2 (Z.leb_gt i (u64 (i + num - 1)))) by (by apply wraps_below).
Qed.
Lemma sparsebit_ranges_witness :
  (∃ r : bool, sparsebit_is_set_num 10 2 demo = Done (r, demo) ∧
    (r = true ↔ run (effect nothing (SetNum 10 3)) 10 2)) ∧
  sparsebit_is_set_num 10 (2 ^ 64 - 5) demo = Abort.
Proof.
  split.
  - apply (sparsebit_ranges demo _ 10 2 sb_demo); by vm_compute.
  - apply (sparsebit_ranges demo _ 10 (2 ^ 64 - 5) sb_demo); by vm_compute.
Defined.

(** Run searches end: the loops of [next_set_num] and [next_clear_num], which
    jump from run to run, stop, pass their inner assertion, and return the least
    index after [start] at which [num] set (cleared) bits begin, and 0 exactly
    when there is none. *)
Theorem sparsebit_run_searches s P start num :
  sb s P → in_u64 start → 1 ≤ num < 2 ^ 64 →
  (∃ r, sparsebit_next_set_num start num s = Done (r, s) ∧ run_spec P start num r) ∧
  (∃ r, sparsebit_next_clear_num start num s = Done (r, s) ∧
    run_spec (λ j, ¬ P j) start num r).
Proof. intros Hsb Hs Hn. split; [query wp_next_set_num|query wp_next_clear_num]. Qed.
Lemma sparsebit_run_searches_witness :
  (∃ r, sparsebit_next_set_num 3 2 demo = Done (r, demo) ∧
    run_spec (effect nothing (SetNum 10 3)) 3 2 r) ∧
  (∃ r, sparsebit_next_clear_num 3 9 demo = Done (r, demo) ∧
    run_spec (λ j, ¬ effect nothing (SetNum 10 3) j) 3 9 r).
Proof.
  split; [apply (sparsebit_run_searches demo _ 3 2 sb_demo)
         |apply (sparsebit_run_searches demo _ 3 9 sb_demo)]; by vm_compute.
Defined.

(** ** Copies and validation *)

(** A copy is faithful: whatever the destination held, it then has the
    source's count and answers the query of every index as the source does, and
    is an array in good order of its own. *)
Theorem sparsebit_copy_faithful src dst P Q :
  sb src P → sb dst Q →
  ∃ d, sparsebit_copy src dst = Done (tt, d) ∧ sb d P ∧
    sparsebit_num_set d = Done (num_set src, d) ∧
    ∀ i, in_u64 i → ∃ b, sparsebit_is_set i d = Done (b, d) ∧ sparsebit_is_set i src = Done (b, src).
Proof.
  intros Hs Hd. assert (wp (sparsebit_copy src) (λ _ d, sb d P) dst) as ([] & d & Hrun & Hsb)%wp_inv.
  { by eapply wp_copy. }
  exists d. split_and!; [done..| |].
  - destruct (sb_count src P Hs) as (X & HX & ->), (sb_count d P Hsb) as (Y & HY & Hn).
    assert (X = Y) as -> by (apply set_eq; intros i; by rewrite HX, HY).
    unfold sparsebit_num_set. rewrite (C_bind_Done get _ d d d) by done. by rewrite Hn.
  - intros i Hi.
    assert (∃ b : bool, sparsebit_is_set i d = Done (b, d) ∧ (b = true ↔ P i))
      as (b & Hb & Hbp) by (query wp_sb_is_set).
    assert (∃ b : bool, sparsebit_is_set i src = Done (b, src) ∧ (b = true ↔ P i))
      as (c & Hc & Hcp) by (query wp_sb_is_set).
    exists b. split; [done|]. rewrite Hc. do 2 f_equal. apply eq_bool_prop_intro.
    rewrite <-Hcp in Hbp. destruct b, c; naive_solver.
Qed.
Lemma sparsebit_copy_faithful_witness :
  ∃ d, sparsebit_copy demo empty_array = Done (tt, d) ∧ sb d (effect nothing (SetNum 10 3)) ∧
    sparsebit_num_set d = Done (num_set demo, d) ∧
    ∀ i, in_u64 i → ∃ b, sparsebit_is_set i d = Done (b, d) ∧ sparsebit_is_set i demo = Done (b, demo).
Proof. apply (sparsebit_copy_faithful _ _ _ nothing sb_demo sb_empty). Defined.

(** C24. Validation: on every array the updates can build, all checks of
    [sparsebit_validate_internal] pass (masks, alignment, links, order, overlap,
    count) but possibly one: it aborts exactly when a node with a full mask
    begins where its predecessor ends; and the updates do build such an array:
    setting 0 to 74, 96 to 127 and then 0 to 63 leaves the right set in nodes
    that the validation refuses. *)
Theorem sparsebit_validation :
  (∀ s P, sb s P → ∃ A, st s A (u64 (total A)) ∧ (∀ i, in_set A i ↔ P i) ∧
    sparsebit_validate_internal s = if compact None A then Done (tt, s) else Abort) ∧
  ∃ s, exec_all [SetNum 0 75; SetNum 96 32; SetNum 0 64] empty_array = Done (tt, s) ∧
    (∀ i, in_u64 i → ∃ b : bool, sparsebit_is_set i s = Done (b, s) ∧
      (b = true ↔ i < 75 ∨ 96 ≤ i < 128)) ∧
    sparsebit_validate_internal s = Abort.
Proof.
  split.
  - intros s P (A & Hst & Hv & HP). exists A. split_and!; try done. by apply validate_result.
  - set (l := [SetNum 0 75; SetNum 96 32; SetNum 0 64]).
    destruct (exec_all l empty_array) as [[[] s]| |] eqn:E; [|by vm_compute in E..].
    exists s. split_and!; [done| |].
    + intros i Hi. assert (sb s (foldl effect nothing l)) as Hsb.
      { eapply (wp_run _ (λ _ s, sb s (foldl effect nothing l))); [|exact E].
        apply wp_exec_all; [apply sb_empty|]. repeat constructor; by vm_compute. }
      apply (sb_ext _ _ (λ i, 0 ≤ i < 75 ∨ 96 ≤ i < 128)) in Hsb.
      * apply query_result. eapply wp_sb_is_set; [done..|]. intros r Hr.
        split; [|done]. rewrite Hr. unfold in_u64 in Hi. lia.
      * intros j. unfold l. cbn [foldl effect]. unfold nothing. lia.
    + vm_compute in E. injection E as <-. by vm_compute.
Qed.
