(* ===== verification/KvmUtil.v ===== *)
(** * selftests: memory of a KVM test VM ([kvm/lib/kvm_util.c])

    The regions of guest memory with the search trees and the hash table that
    index them, and the allocator of guest physical pages. A region lives in a
    store of regions; the two trees and the hash table hold its address, so a
    field changed through one of them is seen by all. The red-black tree and
    the hash function come from the kernel tree's [tools/] directory, which is
    not part of the sources: the rebalancing and the hash are parameters. A
    failed [TEST_ASSERT] ends the test and is modelled as [Abort]; the replies
    of the system calls are arguments. *)

From S2P Require Import Prelude Sparsebit SparsebitOps.

(** ** Guest modes ([vm_guest_mode], [vm_guest_mode_params]) *)
Inductive vm_guest_mode : Type :=
| VM_MODE_P52V48_4K
| VM_MODE_P52V48_64K
| VM_MODE_P48V48_4K
| VM_MODE_P48V48_16K
| VM_MODE_P48V48_64K
| VM_MODE_P40V48_4K
| VM_MODE_P40V48_16K
| VM_MODE_P40V48_64K
| VM_MODE_PXXV48_4K
| VM_MODE_P47V64_4K
| VM_MODE_P44V64_4K
| VM_MODE_P36V48_4K
| VM_MODE_P36V48_16K
| VM_MODE_P36V48_64K
| VM_MODE_P36V47_16K.
#[global] Instance vm_guest_mode_eq_dec : EqDecision vm_guest_mode.
Proof. solve_decision. Defined.

Record mode_params : Type := Params {
  p_pa_bits : Z;
  p_va_bits : Z;
  p_page_size : Z;
  p_page_shift : Z
}.
Definition vm_guest_mode_params (m : vm_guest_mode) : mode_params :=
  match m with
  | VM_MODE_P52V48_4K => Params 52 48 0x1000 12
  | VM_MODE_P52V48_64K => Params 52 48 0x10000 16
  | VM_MODE_P48V48_4K => Params 48 48 0x1000 12
  | VM_MODE_P48V48_16K => Params 48 48 0x4000 14
  | VM_MODE_P48V48_64K => Params 48 48 0x10000 16
  | VM_MODE_P40V48_4K => Params 40 48 0x1000 12
  | VM_MODE_P40V48_16K => Params 40 48 0x4000 14
  | VM_MODE_P40V48_64K => Params 40 48 0x10000 16
  | VM_MODE_PXXV48_4K => Params 0 0 0x1000 12
  | VM_MODE_P47V64_4K => Params 47 64 0x1000 12
  | VM_MODE_P44V64_4K => Params 44 64 0x1000 12
  | VM_MODE_P36V48_4K => Params 36 48 0x1000 12
  | VM_MODE_P36V48_16K => Params 36 48 0x4000 14
  | VM_MODE_P36V48_64K => Params 36 48 0x10000 16
  | VM_MODE_P36V47_16K => Params 36 47 0x4000 14
  end.

(** ** Sources of memory ([lib/test_util.c]) *)
Inductive vm_mem_backing_src_type : Type :=
| VM_MEM_SRC_ANONYMOUS
| VM_MEM_SRC_ANONYMOUS_THP
| VM_MEM_SRC_ANONYMOUS_HUGETLB
| VM_MEM_SRC_ANONYMOUS_HUGETLB_16KB
| VM_MEM_SRC_ANONYMOUS_HUGETLB_64KB
| VM_MEM_SRC_ANONYMOUS_HUGETLB_512KB
| VM_MEM_SRC_ANONYMOUS_HUGETLB_1MB
| VM_MEM_SRC_ANONYMOUS_HUGETLB_2MB
| VM_MEM_SRC_ANONYMOUS_HUGETLB_8MB
| VM_MEM_SRC_ANONYMOUS_HUGETLB_16MB
| VM_MEM_SRC_ANONYMOUS_HUGETLB_32MB
| VM_MEM_SRC_ANONYMOUS_HUGETLB_256MB
| VM_MEM_SRC_ANONYMOUS_HUGETLB_512MB
| VM_MEM_SRC_ANONYMOUS_HUGETLB_1GB
| VM_MEM_SRC_ANONYMOUS_HUGETLB_2GB
| VM_MEM_SRC_ANONYMOUS_HUGETLB_16GB
| VM_MEM_SRC_SHMEM
| VM_MEM_SRC_SHARED_HUGETLB.
#[global] Instance vm_mem_backing_src_type_eq_dec : EqDecision vm_mem_backing_src_type.
Proof. solve_decision. Defined.

(** The flags of [mmap] on Linux. *)
Definition MAP_SHARED : Z := 0x1.
Definition MAP_PRIVATE : Z := 0x2.
Definition MAP_ANONYMOUS : Z := 0x20.
Definition MAP_HUGETLB : Z := 0x40000.
Definition MAP_HUGE_SHIFT : Z := 26.
Definition MAP_HUGE_MASK : Z := 0x3f.
Definition MAP_HUGE (log : Z) : Z := Z.shiftl log MAP_HUGE_SHIFT.
Definition ANON_FLAGS : Z := Z.lor MAP_PRIVATE MAP_ANONYMOUS.
Definition ANON_HUGE_FLAGS : Z := Z.lor ANON_FLAGS MAP_HUGETLB.
(** The [flag] of the alias of a source. *)
Definition vm_mem_backing_src_alias (t : vm_mem_backing_src_type) : Z :=
  match t with
  | VM_MEM_SRC_ANONYMOUS | VM_MEM_SRC_ANONYMOUS_THP => ANON_FLAGS
  | VM_MEM_SRC_ANONYMOUS_HUGETLB => ANON_HUGE_FLAGS
  | VM_MEM_SRC_ANONYMOUS_HUGETLB_16KB => Z.lor ANON_HUGE_FLAGS (MAP_HUGE 14)
  | VM_MEM_SRC_ANONYMOUS_HUGETLB_64KB => Z.lor ANON_HUGE_FLAGS (MAP_HUGE 16)
  | VM_MEM_SRC_ANONYMOUS_HUGETLB_512KB => Z.lor ANON_HUGE_FLAGS (MAP_HUGE 19)
  | VM_MEM_SRC_ANONYMOUS_HUGETLB_1MB => Z.lor ANON_HUGE_FLAGS (MAP_HUGE 20)
  | VM_MEM_SRC_ANONYMOUS_HUGETLB_2MB => Z.lor ANON_HUGE_FLAGS (MAP_HUGE 21)
  | VM_MEM_SRC_ANONYMOUS_HUGETLB_8MB => Z.lor ANON_HUGE_FLAGS (MAP_HUGE 23)
  | VM_MEM_SRC_ANONYMOUS_HUGETLB_16MB => Z.lor ANON_HUGE_FLAGS (MAP_HUGE 24)
  | VM_MEM_SRC_ANONYMOUS_HUGETLB_32MB => Z.lor ANON_HUGE_FLAGS (MAP_HUGE 25)
  | VM_MEM_SRC_ANONYMOUS_HUGETLB_256MB => Z.lor ANON_HUGE_FLAGS (MAP_HUGE 28)
  | VM_MEM_SRC_ANONYMOUS_HUGETLB_512MB => Z.lor ANON_HUGE_FLAGS (MAP_HUGE 29)
  | VM_MEM_SRC_ANONYMOUS_HUGETLB_1GB => Z.lor ANON_HUGE_FLAGS (MAP_HUGE 30)
  | VM_MEM_SRC_ANONYMOUS_HUGETLB_2GB => Z.lor ANON_HUGE_FLAGS (MAP_HUGE 31)
  | VM_MEM_SRC_ANONYMOUS_HUGETLB_16GB => Z.lor ANON_HUGE_FLAGS (MAP_HUGE 34)
  | VM_MEM_SRC_SHMEM | VM_MEM_SRC_SHARED_HUGETLB => MAP_SHARED
  end.
Definition backing_src_is_shared (t : vm_mem_backing_src_type) : bool :=
  negb (Z.land (vm_mem_backing_src_alias t) MAP_SHARED =? 0).
Definition is_backing_src_hugetlb (t : vm_mem_backing_src_type) : bool :=
  negb (Z.land (vm_mem_backing_src_alias t) MAP_HUGETLB =? 0).
Definition MAP_HUGE_PAGE_SIZE (x : Z) : Z :=
  Z.shiftl 1 (Z.land (Z.shiftr x MAP_HUGE_SHIFT) MAP_HUGE_MASK).

(** What the library asks the host for. *)
Class Host : Type := {
  getpagesize : Z;
  get_trans_hugepagesz : Z;
  get_def_hugetlb_pagesz : Z;
  thp_configured : bool
}.
Definition get_backing_src_pagesz `{!Host} (t : vm_mem_backing_src_type) : Z :=
  match t with
  | VM_MEM_SRC_ANONYMOUS | VM_MEM_SRC_SHMEM => getpagesize
  | VM_MEM_SRC_ANONYMOUS_THP => get_trans_hugepagesz
  | VM_MEM_SRC_ANONYMOUS_HUGETLB | VM_MEM_SRC_SHARED_HUGETLB => get_def_hugetlb_pagesz
  | _ => MAP_HUGE_PAGE_SIZE (vm_mem_backing_src_alias t)
  end.
Definition align_up (x size : Z) : outcome Z :=
  let mask := u64 (size - 1) in
  assert_ (negb (size =? 0) && (Z.land size mask =? 0));;
  mret (Z.land (u64 (x + mask)) (u64 (Z.lnot mask))).
Definition align_ptr_up (x size : Z) : outcome Z := align_up x size.

(** ** Numbers of pages *)
(** [1 << k] in [int], for a count of type [unsigned int]. *)
Definition one_shl (k : Z) : outcome Z := if k <? 32 then Done (u32 (Z.shiftl 1 k)) else Undef.
Definition vm_calc_num_pages (num_pages page_shift new_page_shift : Z) (ceil : bool) : outcome Z :=
  n ← one_shl (u32 (new_page_shift - page_shift));
  if new_page_shift <=? page_shift then
    k ← one_shl (u32 (page_shift - new_page_shift));
    mret (u32 (num_pages * k))
  else
    mret (u32 (num_pages / n + if ceil && negb (num_pages mod n =? 0) then 1 else 0)).
Definition ffs (x : Z) : Z := match head (mask_bits x) with Some i => i + 1 | None => 0 end.
Definition getpageshift `{!Host} : Z := ffs getpagesize - 1.
Definition vm_num_host_pages `{!Host} (m : vm_guest_mode) (num_guest_pages : Z) : outcome Z :=
  vm_calc_num_pages num_guest_pages (p_page_shift (vm_guest_mode_params m)) getpageshift true.
Definition vm_num_guest_pages `{!Host} (m : vm_guest_mode) (num_host_pages : Z) : outcome Z :=
  vm_calc_num_pages num_host_pages getpageshift (p_page_shift (vm_guest_mode_params m)) false.
Definition vm_adjust_num_guest_pages `{!Host} (m : vm_guest_mode) (num_guest_pages : Z) :
    outcome Z :=
  n ← vm_num_host_pages m (u32 num_guest_pages);
  vm_num_guest_pages m n.
Definition vm_calc_num_guest_pages `{!Host} (m : vm_guest_mode) (size : Z) : outcome Z :=
  let page_size := p_page_size (vm_guest_mode_params m) in
  vm_adjust_num_guest_pages m (u32 (u64 (size + page_size - 1) / page_size)).

(** ** Regions and the VM *)
Record kvm_userspace_memory_region : Type := KvmRegion {
  slot : Z;
  flags : Z;
  guest_phys_addr : Z;
  memory_size : Z;
  userspace_addr : Z
}.
Record userspace_mem_region : Type := Region {
  region : kvm_userspace_memory_region;
  unused_phy_pages : sparsebit;
  rfd : Z;
  backing_src_type : vm_mem_backing_src_type;
  host_mem : Z;
  host_alias : option Z;
  mmap_start : Z;
  mmap_size : Z
}.
(** The nodes of a red-black tree, as the addresses of their regions. *)
Inductive rbtree : Type :=
| RbNull
| Rb (l : rbtree) (p : nat) (r : rbtree).
Fixpoint rb_inorder (t : rbtree) : list nat :=
  match t with RbNull => [] | Rb l p r => rb_inorder l ++ p :: rb_inorder r end.
(** [tools/lib/rbtree.c] and [tools/include/linux/hashtable.h]: rebalancing
    after a node was linked, removal, and the bucket of a key. *)
Class KernelTools : Type := {
  rb_insert_color : nat → rbtree → rbtree;
  rb_erase : nat → rbtree → rbtree;
  hash_bucket : Z → Z
}.
Class KernelToolsLaws `{!KernelTools} : Prop := {
  rb_insert_color_inorder p t : rb_inorder (rb_insert_color p t) = rb_inorder t;
  rb_erase_inorder p t :
    NoDup (rb_inorder t) → rb_inorder (rb_erase p t) = filter (λ q, q ≠ p) (rb_inorder t)
}.

Record kvm_vm : Type := Vm {
  mode : vm_guest_mode;
  page_size : Z;
  page_shift : Z;
  pa_bits : Z;
  va_bits : Z;
  max_gfn : Z;
  gpa_tree : rbtree;
  hva_tree : rbtree;
  slot_hash : gmap Z (list nat);
  regions : gmap nat userspace_mem_region;
  next_region : nat;
  vpages_valid : sparsebit;
  vpages_mapped : sparsebit;
  pgd_created : bool;
  pgd : Z;
  memslots : list Z;
  hmem : gmap Z Z
}.
(** [regions] is the store the trees point into, [next_region] its next
    address; [hmem] holds the 64-bit words of host memory that were written,
    the others being zero as [mmap] gives them. *)
Notation V_ := (C kvm_vm).

Definition with_regions (vm : kvm_vm) (rs : gmap nat userspace_mem_region) : kvm_vm :=
  Vm (mode vm) (page_size vm) (page_shift vm) (pa_bits vm) (va_bits vm) (max_gfn vm)
     (gpa_tree vm) (hva_tree vm) (slot_hash vm) rs (next_region vm) (vpages_valid vm)
     (vpages_mapped vm) (pgd_created vm) (pgd vm) (memslots vm) (hmem vm).
Definition with_index (vm : kvm_vm) (gt ht : rbtree) (sh : gmap Z (list nat)) : kvm_vm :=
  Vm (mode vm) (page_size vm) (page_shift vm) (pa_bits vm) (va_bits vm) (max_gfn vm)
     gt ht sh (regions vm) (next_region vm) (vpages_valid vm)
     (vpages_mapped vm) (pgd_created vm) (pgd vm) (memslots vm) (hmem vm).
Definition with_next (vm : kvm_vm) (n : nat) : kvm_vm :=
  Vm (mode vm) (page_size vm) (page_shift vm) (pa_bits vm) (va_bits vm) (max_gfn vm)
     (gpa_tree vm) (hva_tree vm) (slot_hash vm) (regions vm) n (vpages_valid vm)
     (vpages_mapped vm) (pgd_created vm) (pgd vm) (memslots vm) (hmem vm).
Definition with_vpages (vm : kvm_vm) (v m : sparsebit) : kvm_vm :=
  Vm (mode vm) (page_size vm) (page_shift vm) (pa_bits vm) (va_bits vm) (max_gfn vm)
     (gpa_tree vm) (hva_tree vm) (slot_hash vm) (regions vm) (next_region vm) v
     m (pgd_created vm) (pgd vm) (memslots vm) (hmem vm).
Definition with_pgd (vm : kvm_vm) (created : bool) (p : Z) : kvm_vm :=
  Vm (mode vm) (page_size vm) (page_shift vm) (pa_bits vm) (va_bits vm) (max_gfn vm)
     (gpa_tree vm) (hva_tree vm) (slot_hash vm) (regions vm) (next_region vm) (vpages_valid vm)
     (vpages_mapped vm) created p (memslots vm) (hmem vm).
Definition with_hmem (vm : kvm_vm) (m : gmap Z Z) : kvm_vm :=
  Vm (mode vm) (page_size vm) (page_shift vm) (pa_bits vm) (va_bits vm) (max_gfn vm)
     (gpa_tree vm) (hva_tree vm) (slot_hash vm) (regions vm) (next_region vm) (vpages_valid vm)
     (vpages_mapped vm) (pgd_created vm) (pgd vm) (memslots vm) m.
Definition with_params (vm : kvm_vm) (pa va size shift gfn : Z) : kvm_vm :=
  Vm (mode vm) size shift pa va gfn
     (gpa_tree vm) (hva_tree vm) (slot_hash vm) (regions vm) (next_region vm) (vpages_valid vm)
     (vpages_mapped vm) (pgd_created vm) (pgd vm) (memslots vm) (hmem vm).
Definition with_memslots (vm : kvm_vm) (l : list Z) : kvm_vm :=
  Vm (mode vm) (page_size vm) (page_shift vm) (pa_bits vm) (va_bits vm) (max_gfn vm)
     (gpa_tree vm) (hva_tree vm) (slot_hash vm) (regions vm) (next_region vm) (vpages_valid vm)
     (vpages_mapped vm) (pgd_created vm) (pgd vm) l (hmem vm).

(** A failed [TEST_ASSERT] or [TEST_FAIL]. *)
Definition TEST_ASSERT (b : bool) : V_ unit := lift (assert_ b).
Definition TEST_FAIL {A} : V_ A := lift Abort.
(** Operations on the bit arrays of the VM. *)
Definition on_valid {A} (m : S_ A) : V_ A := λ vm,
  match m (vpages_valid vm) with
  | Done (a, s) => Done (a, with_vpages vm s (vpages_mapped vm))
  | Abort => Abort
  | Undef => Undef
  end.
Definition on_mapped {A} (m : S_ A) : V_ A := λ vm,
  match m (vpages_mapped vm) with
  | Done (a, s) => Done (a, with_vpages vm (vpages_valid vm) s)
  | Abort => Abort
  | Undef => Undef
  end.
Definition load_region (p : nat) : V_ userspace_mem_region := λ vm,
  match regions vm !! p with Some r => Done (r, vm) | None => Undef end.
Definition store_region (p : nat) (r : userspace_mem_region) : V_ unit := λ vm,
  match regions vm !! p with
  | Some _ => Done (tt, with_regions vm (<[p := r]> (regions vm)))
  | None => Undef
  end.
Definition set_unused (s : sparsebit) (r : userspace_mem_region) : userspace_mem_region :=
  Region (region r) s (rfd r) (backing_src_type r) (host_mem r) (host_alias r) (mmap_start r)
         (mmap_size r).
Definition set_region (k : kvm_userspace_memory_region) (r : userspace_mem_region) :
    userspace_mem_region :=
  Region k (unused_phy_pages r) (rfd r) (backing_src_type r) (host_mem r) (host_alias r)
         (mmap_start r) (mmap_size r).
(** An operation on the bits of the unused pages of a region. *)
Definition on_unused {A} (p : nat) (m : S_ A) : V_ A :=
  r ← load_region p;
  '(a, s) ← lift (m (unused_phy_pages r));
  store_region p (set_unused s r);;
  mret a.

(** ** Looking a region up *)
Definition region_end (r : userspace_mem_region) : Z :=
  u64 (guest_phys_addr (region r) + memory_size (region r) - 1).
Fixpoint find_in (t : rbtree) (start end_ : Z) : V_ (option nat) :=
  match t with
  | RbNull => mret None
  | Rb l p r =>
      x ← load_region p;
      let existing_start := guest_phys_addr (region x) in
      let existing_end := region_end x in
      if (start <=? existing_end) && (existing_start <=? end_) then mret (Some p) else
      if start <? existing_start then find_in l start end_ else find_in r start end_
  end.
Definition userspace_mem_region_find (start end_ : Z) : V_ (option nat) :=
  vm ← get; find_in (gpa_tree vm) start end_.
Definition kvm_userspace_memory_region_find (start end_ : Z) :
    V_ (option kvm_userspace_memory_region) :=
  p ← userspace_mem_region_find start end_;
  match p with
  | None => mret None
  | Some p => x ← load_region p; mret (Some (region x))
  end.
(** The entries of the bucket of a slot, the last one added first. *)
Definition possible `{!KernelTools} (vm : kvm_vm) (s : Z) : list nat :=
  default [] (slot_hash vm !! hash_bucket s).
Fixpoint find_slot (ps : list nat) (s : Z) : V_ (option nat) :=
  match ps with
  | [] => mret None
  | p :: ps => x ← load_region p; if slot (region x) =? s then mret (Some p) else find_slot ps s
  end.
Definition memslot2region `{!KernelTools} (memslot : Z) : V_ nat :=
  vm ← get;
  p ← find_slot (possible vm memslot) memslot;
  match p with Some p => mret p | None => TEST_FAIL end.

(** ** Adding a region *)
(** A new node for [p] at the leaf its key leads to. *)
Fixpoint rb_link (key : userspace_mem_region → Z) (k : Z) (p : nat) (t : rbtree) : V_ rbtree :=
  match t with
  | RbNull => mret (Rb RbNull p RbNull)
  | Rb l q r =>
      x ← load_region q;
      if k <? key x then l ← rb_link key k p l; mret (Rb l q r)
      else TEST_ASSERT (negb (k =? key x));; r ← rb_link key k p r; mret (Rb l q r)
  end.
Definition gpa_of (r : userspace_mem_region) : Z := guest_phys_addr (region r).
Definition vm_userspace_mem_region_gpa_insert `{!KernelTools} (p : nat) : V_ unit :=
  x ← load_region p;
  vm ← get;
  t ← rb_link gpa_of (gpa_of x) p (gpa_tree vm);
  modify (λ vm, with_index vm (rb_insert_color p t) (hva_tree vm) (slot_hash vm)).
Definition vm_userspace_mem_region_hva_insert `{!KernelTools} (p : nat) : V_ unit :=
  x ← load_region p;
  vm ← get;
  t ← rb_link host_mem (host_mem x) p (hva_tree vm);
  modify (λ vm, with_index vm (gpa_tree vm) (rb_insert_color p t) (slot_hash vm)).
Definition hash_add `{!KernelTools} (p : nat) (s : Z) : V_ unit :=
  modify (λ vm, with_index vm (gpa_tree vm) (hva_tree vm)
    (<[hash_bucket s := p :: possible vm s]> (slot_hash vm))).

(** The replies of the host while a region is added: allocation of the record,
    the calls for a memory file, the two mappings, [madvise] and the ioctl. *)
Record add_replies : Type := AddReplies {
  a_calloc : bool;
  a_memfd : Z;
  a_ftruncate : Z;
  a_fallocate : Z;
  a_mmap : option Z;
  a_madvise : Z;
  a_sparsebit : list bool;
  a_ioctl : Z;
  a_alias : option Z
}.
Definition kvm_memfd_alloc (a : add_replies) : V_ Z :=
  TEST_ASSERT (negb (a_memfd a =? -1));;
  TEST_ASSERT (a_ftruncate a =? 0);;
  TEST_ASSERT (a_fallocate a =? 0);;
  mret (a_memfd a).
Definition some_addr (o : option Z) : V_ Z :=
  match o with Some a => mret a | None => TEST_FAIL end.
Definition vm_userspace_mem_region_add `{!Host, !KernelTools} (a : add_replies)
    (src_type : vm_mem_backing_src_type) (guest_paddr s npages fl : Z) : V_ unit :=
  vm ← get;
  let backing_src_pagesz := get_backing_src_pagesz src_type in
  n ← lift (vm_adjust_num_guest_pages (mode vm) npages);
  TEST_ASSERT (n =? npages);;
  TEST_ASSERT (guest_paddr mod page_size vm =? 0);;
  TEST_ASSERT (u64 (u64 (Z.shiftr guest_paddr (page_shift vm) + npages) - 1) <=? max_gfn vm);;
  old ← userspace_mem_region_find guest_paddr
    (u64 (u64 (guest_paddr + u64 (npages * page_size vm)) - 1));
  TEST_ASSERT (bool_decide (old = None));;
  old ← find_slot (possible vm s) s;
  TEST_ASSERT (bool_decide (old = None));;
  TEST_ASSERT (a_calloc a);;
  let size := u64 (npages * page_size vm) in
  let alignment := 1 in
  let alignment := if decide (src_type = VM_MEM_SRC_ANONYMOUS_THP)
                   then Z.max backing_src_pagesz alignment else alignment in
  up ← lift (align_up guest_paddr backing_src_pagesz);
  TEST_ASSERT (guest_paddr =? up);;
  let mmap_size := if 1 <? alignment then u64 (size + alignment) else size in
  fd ← (if backing_src_is_shared src_type then kvm_memfd_alloc a else mret (-1));
  start ← some_addr (a_mmap a);
  (if is_backing_src_hugetlb src_type
   then up ← lift (align_ptr_up start backing_src_pagesz); TEST_ASSERT (start =? up)
   else mret tt);;
  host ← lift (align_ptr_up start alignment);
  TEST_ASSERT (negb ((bool_decide (src_type = VM_MEM_SRC_ANONYMOUS) ||
                      bool_decide (src_type = VM_MEM_SRC_ANONYMOUS_THP)) && thp_configured) ||
               (a_madvise a =? 0));;
  unused ← lift (sparsebit_alloc (a_sparsebit a));
  '(_, unused) ← lift (sparsebit_set_num (Z.shiftr guest_paddr (page_shift vm)) npages unused);
  let p := next_region vm in
  let r := Region (KvmRegion s fl guest_paddr size host) unused fd src_type host None start
                  mmap_size in
  modify (λ vm, with_next (with_regions vm (<[p := r]> (regions vm))) (S p));;
  TEST_ASSERT (a_ioctl a =? 0);;
  vm_userspace_mem_region_gpa_insert p;;
  vm_userspace_mem_region_hva_insert p;;
  hash_add p s;;
  if 0 <=? fd then
    alias ← some_addr (a_alias a);
    alias ← lift (align_ptr_up alias alignment);
    x ← load_region p;
    store_region p (Region (region x) (unused_phy_pages x) (rfd x) (backing_src_type x)
      (host_mem x) (Some alias) (mmap_start x) (KvmUtil.mmap_size x))
  else mret tt.

(** ** Changing and deleting a region *)
Definition vm_mem_region_set_flags `{!KernelTools} (ret s fl : Z) : V_ unit :=
  p ← memslot2region s;
  x ← load_region p;
  let k := region x in
  store_region p (set_region (KvmRegion (slot k) fl (guest_phys_addr k) (memory_size k)
    (userspace_addr k)) x);;
  TEST_ASSERT (ret =? 0).
Definition vm_mem_region_move `{!KernelTools} (ret s new_gpa : Z) : V_ unit :=
  p ← memslot2region s;
  x ← load_region p;
  let k := region x in
  store_region p (set_region (KvmRegion (slot k) (flags k) new_gpa (memory_size k)
    (userspace_addr k)) x);;
  TEST_ASSERT (ret =? 0).
(** [ret] and [unmap]: the replies of the ioctl and of each [munmap]. *)
Definition __vm_mem_region_delete `{!KernelTools} (ret : Z) (unmap : Z * Z) (p : nat)
    (unlink : bool) : V_ unit :=
  x ← load_region p;
  (if unlink then
     modify (λ vm, with_index vm (rb_erase p (gpa_tree vm)) (rb_erase p (hva_tree vm))
       (filter (λ q, q ≠ p) <$> slot_hash vm))
   else mret tt);;
  TEST_ASSERT (ret =? 0);;
  _ ← lift (sparsebit_free (Some (unused_phy_pages x)));
  TEST_ASSERT (unmap.1 =? 0);;
  TEST_ASSERT (negb (0 <=? rfd x) || (unmap.2 =? 0));;
  modify (λ vm, with_regions vm (delete p (regions vm))).
Definition vm_mem_region_delete `{!KernelTools} (ret : Z) (unmap : Z * Z) (s : Z) : V_ unit :=
  p ← memslot2region s;
  __vm_mem_region_delete ret unmap p true.

(** ** Addresses *)
Definition addr_gpa2hva (gpa : Z) : V_ Z :=
  p ← userspace_mem_region_find gpa gpa;
  match p with
  | None => TEST_FAIL
  | Some p =>
      x ← load_region p;
      mret (u64 (host_mem x + u64 (gpa - guest_phys_addr (region x))))
  end.
Fixpoint hva_in (t : rbtree) (hva : Z) : V_ Z :=
  match t with
  | RbNull => TEST_FAIL
  | Rb l p r =>
      x ← load_region p;
      if host_mem x <=? hva then
        if hva <=? u64 (host_mem x + memory_size (region x) - 1)
        then mret (u64 (guest_phys_addr (region x) + (hva - host_mem x)))
        else hva_in r hva
      else hva_in l hva
  end.
Definition addr_hva2gpa (hva : Z) : V_ Z := vm ← get; hva_in (hva_tree vm) hva.
Definition addr_gpa2alias (gpa : Z) : V_ (option Z) :=
  p ← userspace_mem_region_find gpa gpa;
  match p with
  | None => mret None
  | Some p =>
      x ← load_region p;
      match host_alias x with
      | None => mret None
      | Some alias => mret (Some (u64 (alias + u64 (gpa - guest_phys_addr (region x)))))
      end
  end.

(** ** Physical pages

    The search restarts at the next unused page whenever it meets a used one.
    [scan] is the inner loop: the new [base] and [pg] when it ends. *)
Fixpoint scan (f : nat) (p : nat) (base num pg : Z) : V_ (Z * Z) :=
  if pg <? u64 (base + num) then
    set ← on_unused p (sparsebit_is_set pg);
    if negb set then
      pg ← on_unused p (sparsebit_next_set pg);
      mret (pg, pg)
    else match f with O => lift Undef | S f => scan f p base num (u64 (pg + 1)) end
  else mret (base, pg).
Fixpoint search_pages (f : nat) (p : nat) (base num pg : Z) : V_ (Z * Z) :=
  '(base, pg) ← scan (Z.to_nat num) p base num pg;
  if negb (pg =? 0) && negb (pg =? u64 (base + num)) then
    match f with O => lift Undef | S f => search_pages f p base num pg end
  else mret (base, pg).
Fixpoint take_pages (f : nat) (p : nat) (limit pg : Z) : V_ unit :=
  if pg <? limit then
    on_unused p (sparsebit_clear pg);;
    match f with O => lift Undef | S f => take_pages f p limit (u64 (pg + 1)) end
  else mret tt.
Definition vm_phy_pages_alloc `{!KernelTools} (num paddr_min memslot : Z) : V_ Z :=
  TEST_ASSERT (0 <? num);;
  vm ← get;
  TEST_ASSERT (paddr_min mod page_size vm =? 0);;
  p ← memslot2region memslot;
  x ← load_region p;
  let base := Z.shiftr paddr_min (page_shift vm) in
  '(base, pg) ← search_pages (33 * base.size (mem (unused_phy_pages x)) + 2) p base num base;
  if pg =? 0 then lift Abort else
  take_pages (Z.to_nat num) p (u64 (base + num)) base;;
  mret (u64 (base * page_size vm)).
Definition vm_phy_page_alloc `{!KernelTools} (paddr_min memslot : Z) : V_ Z :=
  vm_phy_pages_alloc 1 paddr_min memslot.
Definition MEM_REGION_CODE : nat := 0.
Definition MEM_REGION_DATA : nat := 1.
Definition MEM_REGION_PT : nat := 2.
Definition MEM_REGION_TEST_DATA : nat := 3.
Definition KVM_GUEST_PAGE_TABLE_MIN_PADDR : Z := 0x180000.
Definition memslot_of (type : nat) : V_ Z := vm ← get; lift (access (memslots vm !! type)).
Definition vm_alloc_page_table `{!KernelTools} : V_ Z :=
  s ← memslot_of MEM_REGION_PT;
  vm_phy_page_alloc KVM_GUEST_PAGE_TABLE_MIN_PADDR s.
Definition vm_compute_max_gfn (vm : kvm_vm) : Z :=
  u64 (Z.shiftr (u64 (Z.shiftl 1 (pa_bits vm))) (page_shift vm) - 1).
