(* ===== verification/KvmPageTable.v ===== *)
(** * selftests: x86-64 page tables of a test VM ([kvm/lib/x86_64/processor.c])

    Four levels of tables of 512 entries, kept in guest memory and reached
    through the host's mapping of it: a pointer to an entry is the root pointer
    [vm->pgd] or the host address of a word. *)

From S2P Require Import Prelude Sparsebit SparsebitOps KvmUtil.

(** ** Constants ([include/x86_64/processor.h]) *)
Definition PTE_PRESENT_MASK : Z := Z.shiftl 1 0.
Definition PTE_WRITABLE_MASK : Z := Z.shiftl 1 1.
Definition PTE_LARGE_MASK : Z := Z.shiftl 1 7.
(** [GENMASK_ULL(51, 12)] *)
Definition PHYSICAL_PAGE_MASK : Z := 2 ^ 52 - 2 ^ 12.
Definition PG_LEVEL_NONE : Z := 0.
Definition PG_LEVEL_4K : Z := 1.
Definition PG_LEVEL_2M : Z := 2.
Definition PG_LEVEL_1G : Z := 3.
Definition PG_LEVEL_512G : Z := 4.
Definition PG_LEVEL_NUM : Z := 5.
Definition PG_LEVEL_SHIFT (level : Z) : Z := (level - 1) * 9 + 12.
Definition PG_LEVEL_SIZE (level : Z) : Z := u64 (Z.shiftl 1 (PG_LEVEL_SHIFT level)).
Definition PAGE_SHIFT : Z := 12.
Definition HUGEPAGE_SHIFT (x : Z) : Z := PAGE_SHIFT + (x - 1) * 9.
Definition HUGEPAGE_SIZE (x : Z) : Z := u64 (Z.shiftl 1 (HUGEPAGE_SHIFT x)).
Definition HUGEPAGE_MASK (x : Z) : Z :=
  Z.land (u64 (Z.lnot (u64 (HUGEPAGE_SIZE x - 1)))) PHYSICAL_PAGE_MASK.
Definition PTE_GET_PA (pte : Z) : Z := Z.land pte PHYSICAL_PAGE_MASK.
Definition has_mask (pte m : Z) : bool := negb (Z.land pte m =? 0).

(** ** Entries in memory *)
Inductive pte_ptr : Type :=
| Pgd
| Word (hva : Z).
(** A word of the mapping of a region. *)
Definition in_region (hva : Z) (r : userspace_mem_region) : bool :=
  (host_mem r <=? hva) && (hva + 8 <=? host_mem r + memory_size (region r)).
Definition is_mapped (vm : kvm_vm) (hva : Z) : bool :=
  existsb (λ kr, in_region hva kr.2) (map_to_list (regions vm)).
Definition word_at (vm : kvm_vm) (hva : Z) : Z := default 0 (hmem vm !! hva).
Definition read_pte (q : pte_ptr) : V_ Z := λ vm,
  match q with
  | Pgd => Done (pgd vm, vm)
  | Word hva => if is_mapped vm hva then Done (word_at vm hva, vm) else Undef
  end.
Definition write_pte (q : pte_ptr) (v : Z) : V_ unit := λ vm,
  match q with
  | Pgd => Done (tt, with_pgd vm (pgd_created vm) v)
  | Word hva =>
      if is_mapped vm hva then Done (tt, with_hmem vm (<[hva := v]> (hmem vm))) else Undef
  end.
Definition is_pgd (q : pte_ptr) : bool := match q with Pgd => true | Word _ => false end.

(** ** Building the tables *)
Definition mode_ok (vm : kvm_vm) : bool := bool_decide (mode vm = VM_MODE_PXXV48_4K).
Definition virt_arch_pgd_alloc `{!KernelTools} : V_ unit :=
  vm ← get;
  TEST_ASSERT (mode_ok vm);;
  if pgd_created vm then mret tt else
  t ← vm_alloc_page_table;
  modify (λ vm, with_pgd vm true t).
Definition pte_index (vaddr level : Z) : Z :=
  Z.land (Z.shiftr vaddr (PG_LEVEL_SHIFT level)) 0x1ff.
Definition virt_get_pte (parent_pte : pte_ptr) (vaddr level : Z) : V_ pte_ptr :=
  v ← read_pte parent_pte;
  let pt_gpa := PTE_GET_PA v in
  page_table ← addr_gpa2hva pt_gpa;
  let index := pte_index vaddr level in
  v ← read_pte parent_pte;
  TEST_ASSERT (has_mask v PTE_PRESENT_MASK || is_pgd parent_pte);;
  mret (Word (u64 (page_table + 8 * index))).
Definition virt_create_upper_pte `{!KernelTools} (parent_pte : pte_ptr)
    (vaddr paddr current_level target_level : Z) : V_ pte_ptr :=
  pte ← virt_get_pte parent_pte vaddr current_level;
  v ← read_pte pte;
  (if negb (has_mask v PTE_PRESENT_MASK) then
     write_pte pte (Z.lor PTE_PRESENT_MASK PTE_WRITABLE_MASK);;
     x ← (if current_level =? target_level
          then mret (Z.lor PTE_LARGE_MASK (Z.land paddr PHYSICAL_PAGE_MASK))
          else t ← vm_alloc_page_table; mret (Z.land t PHYSICAL_PAGE_MASK));
     v ← read_pte pte;
     write_pte pte (Z.lor v x)
   else
     TEST_ASSERT (negb (current_level =? target_level));;
     TEST_ASSERT (negb (has_mask v PTE_LARGE_MASK)));;
  mret pte.
Definition __virt_pg_map `{!KernelTools} (vaddr paddr level : Z) : V_ unit :=
  let pg_size := PG_LEVEL_SIZE level in
  vm ← get;
  TEST_ASSERT (mode_ok vm);;
  TEST_ASSERT (vaddr mod pg_size =? 0);;
  valid ← on_valid (sparsebit_is_set (Z.shiftr vaddr (page_shift vm)));
  TEST_ASSERT valid;;
  TEST_ASSERT (paddr mod pg_size =? 0);;
  TEST_ASSERT (Z.shiftr paddr (page_shift vm) <=? max_gfn vm);;
  pml4e ← virt_create_upper_pte Pgd vaddr paddr PG_LEVEL_512G level;
  v ← read_pte pml4e;
  if has_mask v PTE_LARGE_MASK then mret tt else
  pdpe ← virt_create_upper_pte pml4e vaddr paddr PG_LEVEL_1G level;
  v ← read_pte pdpe;
  if has_mask v PTE_LARGE_MASK then mret tt else
  pde ← virt_create_upper_pte pdpe vaddr paddr PG_LEVEL_2M level;
  v ← read_pte pde;
  if has_mask v PTE_LARGE_MASK then mret tt else
  pte ← virt_get_pte pde vaddr PG_LEVEL_4K;
  v ← read_pte pte;
  TEST_ASSERT (negb (has_mask v PTE_PRESENT_MASK));;
  write_pte pte (Z.lor (Z.lor PTE_PRESENT_MASK PTE_WRITABLE_MASK)
                       (Z.land paddr PHYSICAL_PAGE_MASK)).
Definition virt_arch_pg_map `{!KernelTools} (vaddr paddr : Z) : V_ unit :=
  __virt_pg_map vaddr paddr PG_LEVEL_4K.
Fixpoint map_level_loop `{!KernelTools} (n : nat) (vaddr paddr pg_size level : Z) : V_ unit :=
  match n with
  | O => mret tt
  | S n =>
      __virt_pg_map vaddr paddr level;;
      map_level_loop n (u64 (vaddr + pg_size)) (u64 (paddr + pg_size)) pg_size level
  end.
Definition virt_map_level `{!KernelTools} (vaddr paddr nr_bytes level : Z) : V_ unit :=
  let pg_size := PG_LEVEL_SIZE level in
  let nr_pages := nr_bytes / pg_size in
  TEST_ASSERT (nr_bytes mod pg_size =? 0);;
  map_level_loop (Z.to_nat nr_pages) vaddr paddr pg_size level.

(** ** Walking the tables *)
(** The new value of [*level], and whether the entry is the wanted one. *)
Definition vm_is_target_pte (pte : pte_ptr) (level current_level : Z) : V_ (bool * Z) :=
  v ← read_pte pte;
  level ← (if has_mask v PTE_LARGE_MASK then
             TEST_ASSERT ((level =? PG_LEVEL_NONE) || (level =? current_level));;
             mret current_level
           else mret level);
  mret (level =? current_level, level).
(** [(int64_t)vaddr << 16 >> 16] *)
Definition sign_extend_48 (vaddr : Z) : Z :=
  u64 (Z.shiftr (s64 (Z.shiftl (s64 vaddr) 16)) 16).
Definition __vm_get_page_table_entry (vaddr level : Z) : V_ (pte_ptr * Z) :=
  TEST_ASSERT ((PG_LEVEL_NONE <=? level) && (level <? PG_LEVEL_NUM));;
  vm ← get;
  TEST_ASSERT (mode_ok vm);;
  valid ← on_valid (sparsebit_is_set (Z.shiftr vaddr (page_shift vm)));
  TEST_ASSERT valid;;
  TEST_ASSERT (vaddr =? sign_extend_48 vaddr);;
  pml4e ← virt_get_pte Pgd vaddr PG_LEVEL_512G;
  '(target, level) ← vm_is_target_pte pml4e level PG_LEVEL_512G;
  if target : bool then mret (pml4e, level) else
  pdpe ← virt_get_pte pml4e vaddr PG_LEVEL_1G;
  '(target, level) ← vm_is_target_pte pdpe level PG_LEVEL_1G;
  if target : bool then mret (pdpe, level) else
  pde ← virt_get_pte pdpe vaddr PG_LEVEL_2M;
  '(target, level) ← vm_is_target_pte pde level PG_LEVEL_2M;
  if target : bool then mret (pde, level) else
  pte ← virt_get_pte pde vaddr PG_LEVEL_4K;
  mret (pte, level).
Definition vm_get_page_table_entry (vaddr : Z) : V_ pte_ptr :=
  '(pte, _) ← __vm_get_page_table_entry vaddr PG_LEVEL_4K;
  mret pte.
Definition addr_arch_gva2gpa (gva : Z) : V_ Z :=
  '(pte, level) ← __vm_get_page_table_entry gva PG_LEVEL_NONE;
  v ← read_pte pte;
  TEST_ASSERT (has_mask v PTE_PRESENT_MASK);;
  v ← read_pte pte;
  mret (Z.lor (PTE_GET_PA v) (Z.land gva (u64 (Z.lnot (HUGEPAGE_MASK level))))).
Definition addr_gva2hva (gva : Z) : V_ Z := gpa ← addr_arch_gva2gpa gva; addr_gpa2hva gpa.
