(* ===== verification/KvmVirt.v ===== *)
(** * selftests: virtual address space of a KVM test VM ([kvm/lib/kvm_util.c])

    The allocator of guest virtual addresses, on top of the bit arrays of valid
    and mapped pages, the physical page allocator and the x86-64 page tables;
    and the creation of a VM. *)

From S2P Require Import Prelude Sparsebit SparsebitOps KvmUtil KvmPageTable.

(** ** Gaps of unused addresses *)
Fixpoint gap_loop (f : nat) (pgidx_start pages : Z) : V_ (option Z) :=
  clear ← on_mapped (sparsebit_is_clear_num pgidx_start pages);
  if clear : bool then mret (Some pgidx_start) else
  pgidx_start ← on_mapped (sparsebit_next_clear_num pgidx_start pages);
  if pgidx_start =? 0 then mret None else
  ok ← on_valid (sparsebit_is_set_num pgidx_start pages);
  pgidx_start ← (if negb ok then on_valid (sparsebit_next_set_num pgidx_start pages)
                 else mret pgidx_start);
  if pgidx_start =? 0 then mret None else
  match f with O => lift Undef | S f => gap_loop f pgidx_start pages end.
Definition vm_vaddr_unused_gap (sz vaddr_min : Z) : V_ Z :=
  vm ← get;
  let pages := Z.shiftr (u64 (u64 (sz + page_size vm) - 1)) (page_shift vm) in
  let pgidx_start := Z.shiftr (u64 (u64 (vaddr_min + page_size vm) - 1)) (page_shift vm) in
  if u64 (pgidx_start * page_size vm) <? vaddr_min then TEST_FAIL else
  ok ← on_valid (sparsebit_is_set_num pgidx_start pages);
  pgidx_start ← (if negb ok then on_valid (sparsebit_next_set_num pgidx_start pages)
                 else mret pgidx_start);
  found ← gap_loop (33 * base.size (mem (vpages_mapped vm)) + 1) pgidx_start pages;
  match found with
  | None => TEST_FAIL
  | Some pgidx_start =>
      ok ← on_valid (sparsebit_is_set_num pgidx_start pages);
      TEST_ASSERT ok;;
      ok ← on_mapped (sparsebit_is_clear_num pgidx_start pages);
      TEST_ASSERT ok;;
      mret (u64 (pgidx_start * page_size vm))
  end.

(** ** Allocating and mapping *)
Definition KVM_UTIL_MIN_PFN : Z := 2.
Definition KVM_UTIL_MIN_VADDR : Z := 0x2000.
Definition map_page `{!KernelTools} (vaddr paddr : Z) : V_ unit :=
  virt_arch_pg_map vaddr paddr;;
  vm ← get;
  on_mapped (sparsebit_set (Z.shiftr vaddr (page_shift vm))).
Fixpoint map_pages `{!KernelTools} (n : nat) (vaddr paddr : Z) : V_ unit :=
  match n with
  | O => mret tt
  | S n =>
      map_page vaddr paddr;;
      vm ← get;
      map_pages n (u64 (vaddr + page_size vm)) (u64 (paddr + page_size vm))
  end.
Definition __vm_vaddr_alloc `{!KernelTools} (sz vaddr_min : Z) (type : nat) : V_ Z :=
  vm ← get;
  let pages := u64 (Z.shiftr sz (page_shift vm) +
                    if negb (sz mod page_size vm =? 0) then 1 else 0) in
  virt_arch_pgd_alloc;;
  s ← memslot_of type;
  paddr ← vm_phy_pages_alloc pages (u64 (KVM_UTIL_MIN_PFN * page_size vm)) s;
  vaddr_start ← vm_vaddr_unused_gap sz vaddr_min;
  map_pages (Z.to_nat pages) vaddr_start paddr;;
  mret vaddr_start.
Definition vm_vaddr_alloc `{!KernelTools} (sz vaddr_min : Z) : V_ Z :=
  __vm_vaddr_alloc sz vaddr_min MEM_REGION_TEST_DATA.
(** [nr_pages * getpagesize()] is computed in [int] and converted to [size_t]. *)
Definition vm_vaddr_alloc_pages `{!Host, !KernelTools} (nr_pages : Z) : V_ Z :=
  vm_vaddr_alloc (u64 (s32 (nr_pages * getpagesize))) KVM_UTIL_MIN_VADDR.
Definition __vm_vaddr_alloc_page `{!Host, !KernelTools} (type : nat) : V_ Z :=
  __vm_vaddr_alloc (u64 getpagesize) KVM_UTIL_MIN_VADDR type.
Definition vm_vaddr_alloc_page `{!Host, !KernelTools} : V_ Z := vm_vaddr_alloc_pages 1.
Definition virt_map `{!KernelTools} (vaddr paddr npages : Z) : V_ unit :=
  vm ← get;
  let size := u64 (npages * page_size vm) in
  TEST_ASSERT (vaddr <? u64 (vaddr + size));;
  TEST_ASSERT (paddr <? u64 (paddr + size));;
  map_pages (Z.to_nat npages) vaddr paddr.

(** ** Creating a VM *)
Definition vm_vaddr_populate_bitmap : V_ unit :=
  vm ← get;
  let half := u64 (Z.shiftl 1 (va_bits vm - 1)) in
  on_valid (sparsebit_set_num 0 (Z.shiftr half (page_shift vm)));;
  on_valid (sparsebit_set_num (Z.shiftr (u64 (Z.lnot (u64 (half - 1)))) (page_shift vm))
                              (Z.shiftr half (page_shift vm))).
(** The properties of the processor the library reads. *)
Class Cpu : Type := {
  host_cpu_is_amd : bool;
  this_cpu_family : Z;
  cpu_has_pae : bool;
  max_phy_addr : option Z;
  max_virt_addr : Z;
  phys_addr_reduction : option Z
}.
(** The pair of [pa_bits] and [va_bits]. *)
Definition kvm_get_cpu_address_width `{!Cpu} : Z * Z :=
  match max_phy_addr with
  | None => (if cpu_has_pae then 36 else 32, 32)
  | Some pa => (pa, max_virt_addr)
  end.
Definition x86_vm_compute_max_gfn `{!Cpu} (vm : kvm_vm) : Z :=
  let num_ht_pages := Z.shiftl 12 (30 - page_shift vm) in
  let max_gfn := u64 (u64 (Z.shiftl 1 (pa_bits vm - page_shift vm)) - 1) in
  if negb host_cpu_is_amd then max_gfn else
  if pa_bits vm <? 40 then max_gfn else
  let ht_gfn := u64 (Z.shiftl 1 28 - num_ht_pages) in
  let ht_gfn :=
    if this_cpu_family <? 0x17 then ht_gfn else
    match max_phy_addr with
    | None => ht_gfn
    | Some maxphyaddr =>
        let max_pfn := u64 (u64 (Z.shiftl 1 (maxphyaddr - page_shift vm)) - 1) in
        let max_pfn := match phys_addr_reduction with
                       | Some k => Z.shiftr max_pfn k
                       | None => max_pfn
                       end in
        u64 (max_pfn - num_ht_pages)
    end in
  Z.min max_gfn (u64 (ht_gfn - 1)).
(** The replies while a VM is created: allocation of the record, whether the
    device opened with the capability it needs, the descriptor of the VM, and the
    allocations of the two arrays. *)
Record create_replies : Type := CreateReplies {
  c_calloc : bool;
  c_open : bool;
  c_vm_fd : Z;
  c_valid : list bool;
  c_mapped : list bool
}.
(** From [vm_open] on: the arrays of virtual pages and the last frame. *)
Definition vm_setup `{!Cpu} (c : create_replies) (m : vm_guest_mode) (ps : mode_params)
    (pa va : Z) : outcome kvm_vm :=
  valid ← sparsebit_alloc (c_valid c);
  let vm := Vm m (p_page_size ps) (p_page_shift ps) pa va 0 RbNull RbNull ∅ ∅ 0 valid
               (SB None 0 ∅ 0 []) false 0 [0; 0; 0; 0] ∅ in
  '(_, vm) ← vm_vaddr_populate_bitmap vm;
  let vm := with_params vm pa va (page_size vm) (page_shift vm) (x86_vm_compute_max_gfn vm) in
  mapped ← sparsebit_alloc (c_mapped c);
  mret (with_vpages vm (vpages_valid vm) mapped).
Definition ____vm_create `{!Cpu} (c : create_replies) (m : vm_guest_mode) : outcome kvm_vm :=
  assert_ (c_calloc c);;
  let ps := vm_guest_mode_params m in
  '(pa, va) ← (if decide (m = VM_MODE_PXXV48_4K) then
                 let '(pa, va) := kvm_get_cpu_address_width in
                 assert_ ((va =? 48) || (va =? 57));;
                 mret (pa, 48)
               else mret (p_pa_bits ps, p_va_bits ps));
  assert_ (c_open c);;
  assert_ (0 <=? c_vm_fd c);;
  vm_setup c m ps pa va.
(** The number of pages of slot 0. [struct ucall] has a command, seven
    arguments, a buffer of 1024 bytes and a pointer; the header has one for each
    of 512 vCPUs and a bitmap of them. *)
Definition KVM_MAX_VCPUS : Z := 512.
Definition sizeof_ucall : Z := 8 + 7 * 8 + 1024 + 8.
Definition sizeof_ucall_header : Z := KVM_MAX_VCPUS / 8 + KVM_MAX_VCPUS * sizeof_ucall.
Definition ucall_nr_pages_required (page_size : Z) : outcome Z :=
  n ← align_up sizeof_ucall_header page_size;
  mret (n / page_size).
Definition DEFAULT_STACK_PGS : Z := 5.
Definition PTES_PER_MIN_PAGE : Z := 4096 / 8.
Definition vm_nr_pages_required `{!Host} (max_vcpus : Z) (m : vm_guest_mode)
    (nr_runnable_vcpus extra_mem_pages : Z) : outcome Z :=
  let page_size := p_page_size (vm_guest_mode_params m) in
  assert_ (negb (nr_runnable_vcpus =? 0));;
  assert_ (nr_runnable_vcpus <=? max_vcpus);;
  let nr_pages := 512 in
  let nr_pages := u64 (nr_pages + u32 (nr_runnable_vcpus * DEFAULT_STACK_PGS)) in
  let nr_pages := u64 (nr_pages + u64 (u64 (nr_pages + extra_mem_pages) / PTES_PER_MIN_PAGE * 2)) in
  n ← ucall_nr_pages_required page_size;
  vm_adjust_num_guest_pages m (u64 (nr_pages + n)).
(** The regions of a VM are added to slot 0, which all allocators use. *)
Definition vm_add_slot0 `{!Host, !KernelTools} (a : add_replies) (nr_pages : Z) : V_ unit :=
  vm_userspace_mem_region_add a VM_MEM_SRC_ANONYMOUS 0 0 nr_pages 0;;
  modify (λ vm, with_memslots vm [0; 0; 0; 0]).
