(* ===== verification/KvmRegions.v ===== *)
(** * selftests: the regions of a VM are indexed consistently

    The invariant of the two search trees and of the hash table over the store
    of regions, and what looking a region up returns under it. *)

From stdpp Require Import sorting.
From S2P Require Import Prelude Sparsebit SparsebitOps KvmUtil.

Implicit Types (vm : kvm_vm) (x y : userspace_mem_region) (rs : gmap nat userspace_mem_region).

Definition r_start x : Z := guest_phys_addr (region x).
Definition r_size x : Z := memory_size (region x).
Definition r_slot x : Z := slot (region x).
Definition region_wf x : Prop :=
  0 ≤ r_start x ∧ 0 < r_size x ∧ r_start x + r_size x ≤ 2 ^ 64 ∧
  0 ≤ host_mem x ∧ host_mem x + r_size x ≤ 2 ^ 64.
(** The guest physical address [g] is in the region; a range meets it. *)
Definition contains x (g : Z) : Prop := r_start x ≤ g < r_start x + r_size x.
Definition meets x (a b : Z) : Prop := a < r_start x + r_size x ∧ r_start x ≤ b.

(** What an index depends on. *)
Definition layout x : kvm_userspace_memory_region * Z := (region x, host_mem x).

(** [p] is before [q] in the address space that [key] gives. *)
Definition before (key : userspace_mem_region → Z) rs (p q : nat) : Prop :=
  ∀ x y, rs !! p = Some x → rs !! q = Some y → key x + r_size x ≤ key y.

Record index_ok `{!KernelTools} vm : Prop := {
  ix_gpa_dom p : is_Some (regions vm !! p) ↔ p ∈ rb_inorder (gpa_tree vm);
  ix_hva_dom p : is_Some (regions vm !! p) ↔ p ∈ rb_inorder (hva_tree vm);
  ix_gpa : StronglySorted (before r_start (regions vm)) (rb_inorder (gpa_tree vm));
  ix_hva : StronglySorted (before host_mem (regions vm)) (rb_inorder (hva_tree vm));
  ix_wf p x : regions vm !! p = Some x → region_wf x;
  ix_slot p x : regions vm !! p = Some x → p ∈ possible vm (r_slot x);
  ix_bucket s p : p ∈ possible vm s → is_Some (regions vm !! p);
  ix_slot_inj p q x y :
    regions vm !! p = Some x → regions vm !! q = Some y → r_slot x = r_slot y → p = q;
  ix_next p : is_Some (regions vm !! p) → (p < next_region vm)%nat
}.

(** ** Primitives *)
Ltac wp_hook ::=
  lazymatch goal with
  | |- wp get _ _ => apply wp_get
  | |- wp (TEST_ASSERT _) _ _ => apply wp_lift
  end.
Lemma wp_load_region p x (Φ : userspace_mem_region → kvm_vm → Prop) vm :
  regions vm !! p = Some x → Φ x vm → wp (load_region p) Φ vm.
Proof. intros H HΦ. unfold wp, load_region. by rewrite H. Qed.
Lemma wp_store_region p x x' (Φ : unit → kvm_vm → Prop) vm :
  regions vm !! p = Some x → Φ tt (with_regions vm (<[p := x']> (regions vm))) →
  wp (store_region p x') Φ vm.
Proof. intros H HΦ. unfold wp, store_region. by rewrite H. Qed.

(** ** The search trees *)
Lemma sorted_app {A} (R : A → A → Prop) l a r :
  StronglySorted R (l ++ a :: r) →
  StronglySorted R l ∧ StronglySorted R r ∧ (∀ b, b ∈ l → R b a) ∧ (∀ c, c ∈ r → R a c) ∧
  (∀ b c, b ∈ l → c ∈ r → R b c).
Proof.
  intros H. apply StronglySorted_app in H as (Hc & Hl & (Hr & Ha)%StronglySorted_inv).
  rewrite Forall_forall in Ha. split_and!; try done.
  - intros b Hb. apply Hc; [done|by left].
  - intros b c Hb Hc'. apply Hc; [done|by right].
Qed.

Lemma region_end_ok x : region_wf x → region_end x = r_start x + r_size x - 1.
Proof.
  intros (? & ? & ? & _). unfold region_end. apply u64_small. unfold in_u64, r_start, r_size in *. lia.
Qed.

Lemma wp_find_in vm t a b (Φ : option nat → kvm_vm → Prop) :
  StronglySorted (before r_start (regions vm)) (rb_inorder t) →
  (∀ p, p ∈ rb_inorder t → is_Some (regions vm !! p)) →
  (∀ p x, regions vm !! p = Some x → region_wf x) → a ≤ b →
  (∀ p x, p ∈ rb_inorder t → regions vm !! p = Some x → meets x a b → Φ (Some p) vm) →
  ((∀ p x, p ∈ rb_inorder t → regions vm !! p = Some x → ¬ meets x a b) → Φ None vm) →
  wp (find_in t a b) Φ vm.
Proof.
  intros Hs Hin Hwf Hab. revert Hs Hin Φ. induction t as [|l IHl p r IHr];
    intros Hs Hin Φ Hsome Hnone; cbn [find_in rb_inorder] in *.
  { wps. apply Hnone. by intros p x []%elem_of_nil. }
  apply sorted_app in Hs as (Hsl & Hsr & Hl & Hr & _).
  destruct (Hin p) as [x Hx]; [set_solver|]. wps. eapply wp_load_region; [done|]. cbn beta.
  pose proof (Hwf p x Hx) as Hw. rewrite region_end_ok by done. fold (r_start x).
  pose proof Hw as (? & ? & ? & _).
  destruct (Z.leb_spec a (r_start x + r_size x - 1)); cbn [andb].
  - destruct (Z.leb_spec (r_start x) b).
    { wps. eapply Hsome; [set_solver|done|]. unfold meets. lia. }
    destruct (Z.ltb_spec a (r_start x)); [|lia]. apply IHl; [done|set_solver| |].
    + intros q y Hq. apply Hsome. set_solver.
    + intros Hno. apply Hnone. intros q y [Hq|[->|Hq]%elem_of_cons]%elem_of_app Hy.
      * eauto.
      * replace y with x by congruence. unfold meets. lia.
      * specialize (Hr q Hq x y Hx Hy). unfold meets. lia.
  - destruct (Z.ltb_spec a (r_start x)); [lia|]. apply IHr; [done|set_solver| |].
    + intros q y Hq. apply Hsome. set_solver.
    + intros Hno. apply Hnone. intros q y [Hq|[->|Hq]%elem_of_cons]%elem_of_app Hy.
      * specialize (Hl q Hq y x Hy Hx). unfold meets. lia.
      * replace y with x by congruence. unfold meets. lia.
      * eauto.
Qed.

Section index.
Context `{!KernelTools}.

Lemma wp_region_find vm a b (Φ : option nat → kvm_vm → Prop) :
  index_ok vm → a ≤ b →
  (∀ p x, regions vm !! p = Some x → meets x a b → Φ (Some p) vm) →
  ((∀ p x, regions vm !! p = Some x → ¬ meets x a b) → Φ None vm) →
  wp (userspace_mem_region_find a b) Φ vm.
Proof.
  intros Hi Hab Hsome Hnone. unfold userspace_mem_region_find. wps.
  apply wp_find_in; [apply Hi| | |done| |].
  - intros p. apply Hi.
  - apply Hi.
  - eauto.
  - intros Hno. apply Hnone. intros p x Hx. eapply Hno; [|done]. apply Hi. eauto.
Qed.

(** Two regions do not share an address, of the guest or of the host. *)
Lemma sorted_pair {A} (R : A → A → Prop) l a b :
  StronglySorted R l → a ∈ l → b ∈ l → a = b ∨ R a b ∨ R b a.
Proof.
  induction 1 as [|c l Hs IH Hc]; [by intros []%elem_of_nil|]. rewrite Forall_forall in Hc.
  rewrite !elem_of_cons. intros [->|Ha] [->|Hb]; eauto.
Qed.
Lemma gpa_unique vm p q x y g :
  index_ok vm → regions vm !! p = Some x → regions vm !! q = Some y →
  contains x g → contains y g → p = q.
Proof.
  intros Hi Hx Hy Hgx Hgy. unfold contains in *.
  destruct (sorted_pair _ _ p q (ix_gpa vm Hi)) as [|[Hlt|Hlt]]; try (apply Hi; eauto); [done|..].
  - specialize (Hlt x y Hx Hy). lia.
  - specialize (Hlt y x Hy Hx). lia.
Qed.
Lemma hva_unique vm p q x y h :
  index_ok vm → regions vm !! p = Some x → regions vm !! q = Some y →
  host_mem x ≤ h < host_mem x + r_size x → host_mem y ≤ h < host_mem y + r_size y → p = q.
Proof.
  intros Hi Hx Hy Hgx Hgy.
  destruct (sorted_pair _ _ p q (ix_hva vm Hi)) as [|[Hlt|Hlt]]; try (apply Hi; eauto); [done|..].
  - specialize (Hlt x y Hx Hy). lia.
  - specialize (Hlt y x Hy Hx). lia.
Qed.

(** ** Slots *)
Lemma wp_find_slot vm ps s (Φ : option nat → kvm_vm → Prop) :
  (∀ p, p ∈ ps → is_Some (regions vm !! p)) →
  (∀ p x, p ∈ ps → regions vm !! p = Some x → r_slot x = s → Φ (Some p) vm) →
  ((∀ p x, p ∈ ps → regions vm !! p = Some x → r_slot x ≠ s) → Φ None vm) →
  wp (find_slot ps s) Φ vm.
Proof.
  induction ps as [|p ps IH]; intros Hin Hsome Hnone; cbn [find_slot].
  { wps. apply Hnone. by intros p x []%elem_of_nil. }
  destruct (Hin p) as [x Hx]; [by left|]. wps. eapply wp_load_region; [done|].
  fold (r_slot x). destruct (Z.eqb_spec (r_slot x) s) as [Hs|Hs].
  - wps. eapply Hsome; [by left|done..].
  - apply IH.
    + intros q Hq. apply Hin. by right.
    + intros q y Hq. apply Hsome. by right.
    + intros Hno. apply Hnone. intros q y [->|Hq]%elem_of_cons Hy; [congruence|eauto].
Qed.
Lemma wp_memslot2region vm p x s (Φ : nat → kvm_vm → Prop) :
  index_ok vm → regions vm !! p = Some x → r_slot x = s → Φ p vm → wp (memslot2region s) Φ vm.
Proof.
  intros Hi Hx Hs HΦ. unfold memslot2region. wps. apply wp_find_slot.
  - apply Hi.
  - intros q y _ Hy Hys. wps.
    by replace q with p by (eapply (ix_slot_inj vm Hi); [exact Hx|exact Hy|congruence]).
  - intros Hno. destruct (Hno p x); [|done..]. rewrite <-Hs. by apply (ix_slot vm Hi).
Qed.

(** ** Addresses *)
(** The host address of a guest physical address. *)
Definition located vm (g h : Z) : Prop :=
  ∃ p x, regions vm !! p = Some x ∧ contains x g ∧ h = host_mem x + (g - r_start x).
Lemma located_fun vm g h h' : index_ok vm → located vm g h → located vm g h' → h = h'.
Proof.
  intros Hi (p & x & Hx & Hg & ->) (q & y & Hy & Hg' & ->).
  assert (p = q) as -> by (by eapply gpa_unique). by simplify_eq.
Qed.
Lemma located_inj vm g g' h : index_ok vm → located vm g h → located vm g' h → g = g'.
Proof.
  intros Hi (p & x & Hx & Hg & ->) (q & y & Hy & Hg' & Hh). unfold contains in *.
  assert (p = q) as -> by (apply (hva_unique vm p q x y (host_mem x + (g - r_start x))); try done; lia). simplify_eq. lia.
Qed.
Lemma wp_gpa2hva vm g h (Φ : Z → kvm_vm → Prop) :
  index_ok vm → located vm g h → Φ h vm → wp (addr_gpa2hva g) Φ vm.
Proof.
  intros Hi Hl HΦ. unfold addr_gpa2hva. wps. apply wp_region_find; [done|lia|..].
  - intros p x Hx Hm. wps. eapply wp_load_region; [done|]. wps. fold (r_start x).
    pose proof (ix_wf vm Hi p x Hx) as (? & ? & ? & ? & ?). unfold meets in Hm.
    assert (located vm g (host_mem x + (g - r_start x))) as Hl'.
    { exists p, x. unfold contains. split_and!; try done; lia. }
    rewrite (u64_small (g - _)) by (unfold in_u64; lia). rewrite u64_small by (unfold in_u64; lia).
    by rewrite (located_fun vm g _ h Hi Hl' Hl).
  - intros Hno. destruct Hl as (p & x & Hx & Hg & _). destruct (Hno p x Hx).
    unfold meets, contains in *. lia.
Qed.
Lemma wp_hva_in vm t h (Φ : Z → kvm_vm → Prop) p x :
  StronglySorted (before host_mem (regions vm)) (rb_inorder t) →
  (∀ p, p ∈ rb_inorder t → is_Some (regions vm !! p)) →
  (∀ p x, regions vm !! p = Some x → region_wf x) →
  p ∈ rb_inorder t → regions vm !! p = Some x → host_mem x ≤ h < host_mem x + r_size x →
  Φ (r_start x + (h - host_mem x)) vm → wp (hva_in t h) Φ vm.
Proof.
  intros Hs Hin Hwf Hp Hx Hh HΦ. induction t as [|l IHl q r IHr]; cbn [hva_in rb_inorder] in *.
  { by apply elem_of_nil in Hp. }
  apply sorted_app in Hs as (Hsl & Hsr & Hl & Hr & _).
  destruct (Hin q) as [y Hy]; [set_solver|]. wps. eapply wp_load_region; [done|].
  pose proof (Hwf q y Hy) as (? & ? & ? & ? & ?). fold (r_size y). fold (r_start y).
  rewrite u64_small by (unfold in_u64; lia).
  apply elem_of_app in Hp as [Hp|[->|Hp]%elem_of_cons].
  - specialize (Hl p Hp x y Hx Hy). destruct (Z.leb_spec (host_mem y) h); [lia|].
    apply IHl; [done|set_solver|done].
  - assert (y = x) as -> by congruence. destruct (Z.leb_spec (host_mem x) h); [|lia].
    destruct (Z.leb_spec h (host_mem x + r_size x - 1)); [|lia]. wps.
    rewrite u64_small by (unfold in_u64; lia). done.
  - specialize (Hr p Hp y x Hy Hx). destruct (Z.leb_spec (host_mem y) h); [|lia].
    destruct (Z.leb_spec h (host_mem y + r_size y - 1)); [lia|]. apply IHr; [done|set_solver|done].
Qed.
Lemma wp_hva2gpa vm g h (Φ : Z → kvm_vm → Prop) :
  index_ok vm → located vm g h → Φ g vm → wp (addr_hva2gpa h) Φ vm.
Proof.
  intros Hi (p & x & Hx & Hg & ->) HΦ. unfold addr_hva2gpa. wps.
  unfold contains in Hg. apply (wp_hva_in vm _ _ _ p x); try done; try apply Hi; eauto.
  - lia.
  - by replace (r_start x + (host_mem x + (g - r_start x) - host_mem x)) with g by lia.
Qed.
End index.
