(* ===== verification/KvmRegionAdd.v ===== *)
(** * selftests: adding and deleting regions keeps the index

    Under the documented behaviour of [mmap] (a new mapping lies beside the old
    ones) a region that is added is found by guest address, host address and
    slot, and meets no other. *)

From stdpp Require Import sorting.
From S2P Require Import Prelude Sparsebit SparsebitOps SparsebitTree SparsebitRange SparsebitSpec.
From S2P Require Import KvmUtil KvmPageTable KvmRegions.

Implicit Types (vm : kvm_vm) (x y : userspace_mem_region) (rs : gmap nat userspace_mem_region).

(** ** Aligning *)
Lemma land_not a m : in_u64 a → in_u64 m → Z.land a (u64 (Z.lnot m)) = a - Z.land a m.
Proof.
  intros [? ?] [? ?].
  assert (Z.land a (u64 (Z.lnot m)) = Z.ldiff a m) as ->.
  { apply Z.bits_inj'. intros i Hi. rewrite Z.land_spec, Z.ldiff_spec. unfold u64, wrap.
    destruct (decide (i < 64)).
    - rewrite Z.mod_pow2_bits_low, Z.lnot_spec by lia. done.
    - rewrite Z.mod_pow2_bits_high by lia. rewrite (Z.bits_above_log2 a i); [done|lia|].
      destruct (decide (a = 0)) as [->|]; [simpl; lia|]. apply Z.log2_lt_pow2; [lia|].
      assert (2 ^ 64 ≤ 2 ^ i) by (apply Z.pow_le_mono_r; lia). lia. }
  assert (Z.ldiff a m = Z.ldiff a (Z.land a m)) as ->.
  { apply Z.bits_inj'. intros i Hi. rewrite !Z.ldiff_spec, Z.land_spec.
    by destruct (Z.testbit a i), (Z.testbit m i). }
  symmetry. apply Z.sub_nocarry_ldiff. apply Z.bits_inj'. intros i Hi.
  rewrite Z.ldiff_spec, Z.land_spec, Z.bits_0. by destruct (Z.testbit a i), (Z.testbit m i).
Qed.
Lemma land_le a m : 0 ≤ a → 0 ≤ m → 0 ≤ Z.land a m ≤ m.
Proof.
  intros. split; [apply Z.land_nonneg; lia|].
  assert (m - Z.land a m = Z.ldiff m (Z.land a m)) as Hm.
  { apply Z.sub_nocarry_ldiff. apply Z.bits_inj'. intros i Hi.
    rewrite Z.ldiff_spec, Z.land_spec, Z.bits_0. by destruct (Z.testbit a i), (Z.testbit m i). }
  assert (0 ≤ Z.ldiff m (Z.land a m)) by (apply Z.ldiff_nonneg; lia). lia.
Qed.
Lemma align_up_range (a size r : Z) :
  0 ≤ a → 0 ≤ size → a + size ≤ 2 ^ 64 → align_up a size = Done r →
  a ≤ r ∧ r < a + size.
Proof.
  intros Ha Hs Hl. unfold align_up, assert_.
  destruct (Z.eqb_spec size 0) as [->|Hne]; [done|]. cbn [negb andb].
  rewrite (u64_small (size - 1)) by (unfold in_u64; lia).
  destruct (Z.land size (size - 1) =? 0); [|done]. cbn. intros [= <-].
  rewrite (u64_small (a + (size - 1))) by (unfold in_u64; lia).
  rewrite land_not by (unfold in_u64; lia).
  pose proof (land_le (a + (size - 1)) (size - 1)). lia.
Qed.

(** ** Linking a new node *)
Lemma wp_rb_link vm key t p x (Φ : rbtree → kvm_vm → Prop) :
  regions vm !! p = Some x → 0 < r_size x →
  StronglySorted (before key (regions vm)) (rb_inorder t) →
  (∀ q, q ∈ rb_inorder t → ∃ y, regions vm !! q = Some y ∧ 0 < r_size y ∧
    (key y + r_size y ≤ key x ∨ key x + r_size x ≤ key y)) →
  (∀ t', StronglySorted (before key (regions vm)) (rb_inorder t') →
    (∀ q, q ∈ rb_inorder t' ↔ q = p ∨ q ∈ rb_inorder t) → Φ t' vm) →
  wp (rb_link key (key x) p t) Φ vm.
Proof.
  intros Hx Hpos. revert Φ. induction t as [|l IHl q r IHr]; intros Φ Hs Hd HΦ;
    cbn [rb_link rb_inorder] in *.
  { wps. apply HΦ; [repeat constructor|]. simpl. set_solver. }
  apply sorted_app in Hs as (Hsl & Hsr & Hl & Hr & Hlr).
  destruct (Hd q) as (y & Hy & ? & Hq); [set_solver|]. wps. eapply wp_load_region; [done|].
  destruct (Z.ltb_spec (key x) (key y)).
  - wps. apply IHl; [done|set_solver|]. intros l' Hs' Hin. wps. cbn [rb_inorder] in HΦ.
    apply (HΦ (Rb l' q r)); [|intros z; simpl; rewrite !elem_of_app, !elem_of_cons, Hin; tauto].
    simpl. apply StronglySorted_app. split_and!; [|done|].
    + intros a b [->|Ha]%Hin [->|Hb]%elem_of_cons; auto.
      * intros x' y' ? ?. simplify_eq. lia.
      * intros x' z Hx' Hz. simplify_eq. specialize (Hr b Hb y z Hy Hz).
        destruct (Hd b) as (z' & Hz' & ? & ?); [set_solver|]. simplify_eq. lia.
    + constructor; [done|]. by apply Forall_forall.
  - apply wp_bind. unfold TEST_ASSERT. wps. apply owp_assert; [apply negb_true_iff, Z.eqb_neq; lia|].
    wps. apply IHr; [done|set_solver|]. intros r' Hs' Hin. wps. cbn [rb_inorder] in HΦ.
    apply (HΦ (Rb l q r')); [|intros z; simpl; rewrite !elem_of_app, !elem_of_cons, Hin; tauto].
    simpl. apply StronglySorted_app. split_and!; [|done|].
    + intros a b Ha [->|[->|Hb]%Hin]%elem_of_cons; auto.
      intros z x' Hz Hx'. simplify_eq. specialize (Hl a Ha z y Hz Hy).
      destruct (Hd a) as (z' & Hz' & ? & ?); [set_solver|]. simplify_eq. lia.
    + constructor; [done|]. apply Forall_forall. intros b [->|Hb]%Hin; [|auto].
      intros y' x' ? ?. simplify_eq. lia.
Qed.

(** ** The index under changes of the store *)
Lemma sorted_store key rs rs' l :
  (∀ p, p ∈ l → rs' !! p = rs !! p) → StronglySorted (before key rs) l →
  StronglySorted (before key rs') l.
Proof.
  intros Heq. induction 1 as [|p l Hs IH Hp]; constructor.
  - apply IH. set_solver.
  - rewrite Forall_forall in *. intros q Hq x y. rewrite !Heq by set_solver. by apply Hp.
Qed.

Section add.
Context `{!KernelTools}.

(** Where a region lies, and its slot. *)
Definition place x : Z * Z * Z * Z := (r_start x, r_size x, r_slot x, host_mem x).
Lemma index_place vm rs' :
  (∀ p, place <$> rs' !! p = place <$> regions vm !! p) → index_ok vm →
  index_ok (with_regions vm rs').
Proof.
  intros Hlay Hi.
  assert (∀ p, is_Some (rs' !! p) ↔ is_Some (regions vm !! p)) as Hdom.
  { intros p. specialize (Hlay p). destruct (rs' !! p), (regions vm !! p); naive_solver. }
  assert (∀ p x, rs' !! p = Some x → ∃ y, regions vm !! p = Some y ∧ place y = place x) as Hold.
  { intros p x Hx. specialize (Hlay p). rewrite Hx in Hlay. destruct (regions vm !! p) as [y|];
      [|done]. injection Hlay as E1 E2 E3 E4. exists y. unfold place. by rewrite E1, E2, E3, E4. }
  assert (∀ key l, (∀ x y, place x = place y → key x = key y) →
    StronglySorted (before key (regions vm)) l → StronglySorted (before key rs') l) as Hsort.
  { intros key l Hkey. induction 1 as [|p l Hs IH Hp]; constructor; [done|].
    rewrite Forall_forall in *. intros q Hq x y Hx Hy.
    destruct (Hold p x Hx) as (x' & Hx' & Hpx), (Hold q y Hy) as (y' & Hy' & Hpy).
    specialize (Hp q Hq x' y' Hx' Hy'). rewrite (Hkey x' x), (Hkey y' y) in Hp by done.
    injection Hpx as _ <- _ _. done. }
  split; cbn [with_regions regions gpa_tree hva_tree next_region].
  - intros p. rewrite Hdom. apply Hi.
  - intros p. rewrite Hdom. apply Hi.
  - apply Hsort; [by intros x y [=]|apply Hi].
  - apply Hsort; [by intros x y [=]|apply Hi].
  - intros p x Hx. destruct (Hold p x Hx) as (y & Hy & [= E1 E2 E3 E4]).
    apply (ix_wf vm Hi) in Hy. unfold region_wf in *. by rewrite <-E1, <-E2, <-E4.
  - intros p x Hx. destruct (Hold p x Hx) as (y & Hy & [= _ _ <- _]). by apply (ix_slot vm Hi) in Hy.
  - intros s p Hp. apply Hdom. by apply (ix_bucket vm Hi s).
  - intros p q x y Hx Hy Hs. destruct (Hold p x Hx) as (x' & Hx' & [= _ _ E _]).
    destruct (Hold q y Hy) as (y' & Hy' & [= _ _ E' _]).
    eapply (ix_slot_inj vm Hi); [done..|]. congruence.
  - intros p Hp. apply Hi. by apply Hdom.
Qed.
Lemma layout_place x y : layout x = layout y → place x = place y.
Proof. intros [= Hr Hh]. unfold place, r_start, r_size, r_slot. by rewrite Hr, Hh. Qed.
Lemma index_layout vm rs' :
  (∀ p, layout <$> rs' !! p = layout <$> regions vm !! p) → index_ok vm →
  index_ok (with_regions vm rs').
Proof.
  intros Hlay. apply index_place. intros p. specialize (Hlay p).
  destruct (rs' !! p), (regions vm !! p); simpl in *; try done. f_equal. apply layout_place.
  by injection Hlay as E1 E2; unfold layout; rewrite E1, E2.
Qed.
Lemma located_layout vm rs' g h :
  (∀ p, layout <$> rs' !! p = layout <$> regions vm !! p) →
  located vm g h → located (with_regions vm rs') g h.
Proof.
  intros Hlay (p & x & Hx & Hg & ->). specialize (Hlay p). rewrite Hx in Hlay.
  destruct (rs' !! p) as [y|] eqn:Hy; [|done]. injection Hlay as Hr Hh. exists p, y.
  unfold contains, r_start, r_size in *. rewrite Hr, Hh. done.
Qed.
Lemma layout_insert rs p x x' q :
  rs !! p = Some x → layout x' = layout x → layout <$> (<[p := x']> rs) !! q = layout <$> rs !! q.
Proof.
  intros Hx Hl. destruct (decide (q = p)) as [->|].
  - rewrite fin_maps.lookup_insert, decide_True, Hx by done. simpl. by rewrite Hl.
  - by rewrite lookup_insert_ne.
Qed.

(** The new region in all three indices. *)
Definition indexed vm p x (gt ht : rbtree) : kvm_vm :=
  with_index (with_next (with_regions vm (<[p := x]> (regions vm))) (S p)) gt ht
    (<[hash_bucket (r_slot x) := p :: possible vm (r_slot x)]> (slot_hash vm)).
Lemma index_add vm x gt ht :
  let p := next_region vm in let rs := <[p := x]> (regions vm) in
  index_ok vm → region_wf x → (∀ q y, regions vm !! q = Some y → r_slot y ≠ r_slot x) →
  StronglySorted (before r_start rs) (rb_inorder gt) →
  (∀ q, q ∈ rb_inorder gt ↔ q = p ∨ q ∈ rb_inorder (gpa_tree vm)) →
  StronglySorted (before host_mem rs) (rb_inorder ht) →
  (∀ q, q ∈ rb_inorder ht ↔ q = p ∨ q ∈ rb_inorder (hva_tree vm)) →
  index_ok (indexed vm p x gt ht).
Proof.
  intros p rs Hi Hw Hslot Hg Hgin Hh Hhin.
  assert (∀ q, is_Some (rs !! q) ↔ q = p ∨ is_Some (regions vm !! q)) as Hdom.
  { intros q. unfold rs. rewrite lookup_insert_is_Some. destruct (decide (q = p)); naive_solver. }
  assert (∀ q y, rs !! q = Some y → (q = p ∧ y = x) ∨ (regions vm !! q = Some y)) as Hrs.
  { intros q y. unfold rs. rewrite lookup_insert_Some. naive_solver. }
  split; cbn [indexed with_index with_next with_regions regions gpa_tree hva_tree next_region];
    fold p rs.
  - intros q. rewrite Hdom, Hgin. by rewrite (ix_gpa_dom vm Hi).
  - intros q. rewrite Hdom, Hhin. by rewrite (ix_hva_dom vm Hi).
  - done.
  - done.
  - intros q y [[-> ->]|Hy]%Hrs; [done|by apply (ix_wf vm Hi q)].
  - intros q y Hy. unfold possible. cbn [indexed with_index slot_hash].
    destruct (decide (hash_bucket (r_slot y) = hash_bucket (r_slot x))) as [He|Hne].
    + rewrite He, fin_maps.lookup_insert, decide_True by done. simpl.
      apply Hrs in Hy as [[-> ->]|Hy]; [by left|right]. apply (ix_slot vm Hi) in Hy.
      unfold possible in *. by rewrite <-He.
    + rewrite lookup_insert_ne by done. apply Hrs in Hy as [[-> ->]|Hy]; [done|].
      by apply (ix_slot vm Hi) in Hy.
  - intros s q. unfold possible at 1. cbn [indexed with_index slot_hash]. rewrite Hdom.
    destruct (decide (hash_bucket s = hash_bucket (r_slot x))) as [He|Hne].
    + rewrite He, fin_maps.lookup_insert, decide_True by done. simpl.
      intros [->|Hq]%elem_of_cons; [by left|right]. by eapply (ix_bucket vm Hi).
    + rewrite lookup_insert_ne by done. intros Hq. right. by eapply (ix_bucket vm Hi).
  - intros q1 q2 y1 y2 [[-> ->]|Hy1]%Hrs [[-> ->]|Hy2]%Hrs Hs; try done.
    + by apply Hslot in Hy2.
    + by apply Hslot in Hy1.
    + by eapply (ix_slot_inj vm Hi).
  - intros q [->|Hq]%Hdom; [lia|]. apply (ix_next vm Hi) in Hq. unfold p. lia.
Qed.

(** ** The whole operation *)
Record params_ok vm : Prop := {
  po_shift : 12 ≤ page_shift vm ≤ 16;
  po_size : page_size vm = 2 ^ page_shift vm;
  po_gfn : 0 ≤ max_gfn vm;
  po_limit : (max_gfn vm + 1) * page_size vm ≤ 2 ^ 52
}.
Context `{!KernelToolsLaws, !Host}.
(** Pages of the sources are at most 16 GB. *)
Hypothesis pagesz_bound : ∀ t, 0 ≤ get_backing_src_pagesz t ≤ 2 ^ 34.

Lemma calc_same k n : 0 ≤ k → vm_calc_num_pages n k k true = Done (u32 n) ∧
  vm_calc_num_pages n k k false = Done (u32 n).
Proof.
  intros Hk. unfold vm_calc_num_pages. rewrite Z.sub_diag, Z.leb_refl.
  change (one_shl (u32 0)) with (Done 1). cbn [mbind outcome_bind mret outcome_ret].
  by rewrite Z.mul_1_r.
Qed.
Lemma adjust_same m n :
  0 ≤ getpageshift → getpageshift = p_page_shift (vm_guest_mode_params m) →
  vm_adjust_num_guest_pages m n = Done (u32 n).
Proof.
  intros Hk Hs. unfold vm_adjust_num_guest_pages, vm_num_host_pages, vm_num_guest_pages.
  rewrite <-Hs. rewrite (proj1 (calc_same _ _ Hk)). cbn [mbind outcome_bind].
  rewrite (proj2 (calc_same _ _ Hk)).
  by rewrite !(u32_small (u32 _)) by (apply wrap_range; lia).
Qed.
Lemma wp_find_any vm t a b (Φ : option nat → kvm_vm → Prop) :
  (∀ p, p ∈ rb_inorder t → is_Some (regions vm !! p)) → (∀ r, Φ r vm) →
  wp (find_in t a b) Φ vm.
Proof.
  intros Hin HΦ. induction t as [|l IHl p r IHr]; cbn [find_in rb_inorder] in *; [wps; apply HΦ|].
  destruct (Hin p) as [x Hx]; [set_solver|]. wps. eapply wp_load_region; [done|].
  destruct (_ && _); [wps; apply HΦ|]. destruct (_ <? _); [apply IHl|apply IHr]; set_solver.
Qed.
(** The search also returns when the range is empty. *)
Definition find_spec vm (a b : Z) (r : option nat) : Prop :=
  match r with
  | None => ∀ p x, regions vm !! p = Some x → ¬ meets x a b
  | Some p => ∃ x, regions vm !! p = Some x ∧ meets x a b
  end.
Lemma wp_find_range vm a b (Φ : option nat → kvm_vm → Prop) :
  index_ok vm → (∀ r, (a ≤ b → find_spec vm a b r) → Φ r vm) →
  wp (userspace_mem_region_find a b) Φ vm.
Proof.
  intros Hi HΦ. destruct (decide (a ≤ b)).
  - apply wp_region_find; [done..| |]; intros; apply HΦ; simpl; eauto.
  - unfold userspace_mem_region_find. wps. apply wp_find_any; [|intros r; by apply HΦ].
    intros p. apply (ix_gpa_dom vm Hi).
Qed.

Lemma wp_gpa_insert vm p x (Φ : unit → kvm_vm → Prop) :
  regions vm !! p = Some x → 0 < r_size x →
  StronglySorted (before r_start (regions vm)) (rb_inorder (gpa_tree vm)) →
  (∀ q, q ∈ rb_inorder (gpa_tree vm) → ∃ y, regions vm !! q = Some y ∧ 0 < r_size y ∧
    (r_start y + r_size y ≤ r_start x ∨ r_start x + r_size x ≤ r_start y)) →
  (∀ t, StronglySorted (before r_start (regions vm)) (rb_inorder t) →
    (∀ q, q ∈ rb_inorder t ↔ q = p ∨ q ∈ rb_inorder (gpa_tree vm)) →
    Φ tt (with_index vm t (hva_tree vm) (slot_hash vm))) →
  wp (vm_userspace_mem_region_gpa_insert p) Φ vm.
Proof.
  intros Hx Hp Hs Hd HΦ. unfold vm_userspace_mem_region_gpa_insert. wps.
  eapply wp_load_region; [done|]. wps. apply (wp_rb_link vm r_start); [done..|].
  intros t' Hs' Hin. wps. apply HΦ; by rewrite rb_insert_color_inorder.
Qed.
Lemma wp_hva_insert vm p x (Φ : unit → kvm_vm → Prop) :
  regions vm !! p = Some x → 0 < r_size x →
  StronglySorted (before host_mem (regions vm)) (rb_inorder (hva_tree vm)) →
  (∀ q, q ∈ rb_inorder (hva_tree vm) → ∃ y, regions vm !! q = Some y ∧ 0 < r_size y ∧
    (host_mem y + r_size y ≤ host_mem x ∨ host_mem x + r_size x ≤ host_mem y)) →
  (∀ t, StronglySorted (before host_mem (regions vm)) (rb_inorder t) →
    (∀ q, q ∈ rb_inorder t ↔ q = p ∨ q ∈ rb_inorder (hva_tree vm)) →
    Φ tt (with_index vm (gpa_tree vm) t (slot_hash vm))) →
  wp (vm_userspace_mem_region_hva_insert p) Φ vm.
Proof.
  intros Hx Hp Hs Hd HΦ. unfold vm_userspace_mem_region_hva_insert. wps.
  eapply wp_load_region; [done|]. wps. apply (wp_rb_link vm host_mem); [done..|].
  intros t' Hs' Hin. wps. apply HΦ; by rewrite rb_insert_color_inorder.
Qed.

(** [x] lies beside every region, in the guest and on the host. *)
Definition beside vm x : Prop := ∀ q y, regions vm !! q = Some y →
  r_slot y ≠ r_slot x ∧
  (r_start y + r_size y ≤ r_start x ∨ r_start x + r_size x ≤ r_start y) ∧
  (host_mem y + r_size y ≤ host_mem x ∨ host_mem x + r_size x ≤ host_mem y).
(** The end of [vm_userspace_mem_region_add]. *)
Definition link_region (a : add_replies) (p : nat) x (alignment : Z) : V_ unit :=
  modify (λ vm, with_next (with_regions vm (<[p := x]> (regions vm))) (S p));;
  TEST_ASSERT (a_ioctl a =? 0);;
  vm_userspace_mem_region_gpa_insert p;;
  vm_userspace_mem_region_hva_insert p;;
  hash_add p (r_slot x);;
  if 0 <=? rfd x then
    alias ← some_addr (a_alias a);
    alias ← lift (align_ptr_up alias alignment);
    x ← load_region p;
    store_region p (Region (region x) (unused_phy_pages x) (rfd x) (backing_src_type x)
      (host_mem x) (Some alias) (mmap_start x) (mmap_size x))
  else mret tt.
Lemma align_not_undef (k size : Z) : align_up k size ≠ Undef.
Proof. unfold align_up, assert_. by destruct (_ && _). Qed.
Lemma cwp_link_region b a vm x alignment (Φ : unit → kvm_vm → Prop) :
  let p := next_region vm in
  index_ok vm → region_wf x → beside vm x →
  (b → a_ioctl a = 0 ∧ (0 ≤ rfd x → ∃ al, a_alias a = Some al ∧ align_up al alignment ≠ Abort)) →
  (∀ x' gt ht, layout x' = layout x → unused_phy_pages x' = unused_phy_pages x →
    index_ok (indexed vm p x' gt ht) → Φ tt (indexed vm p x' gt ht)) →
  cwp b (link_region a p x alignment) Φ vm.
Proof.
  intros p Hi Hw Hb Hyes HΦ. unfold link_region. cwps. apply cwp_assert; [intros ?%Z.eqb_neq [? _]%Hyes; done|]. intros _. cwps.
  set (rs := <[p := x]> (regions vm)).
  assert (regions vm !! p = None) as Hfresh.
  { apply eq_None_not_Some. intros ?%(ix_next vm Hi). unfold p in *. lia. }
  assert (∀ q, is_Some (regions vm !! q) → rs !! q = regions vm !! q) as Hold.
  { intros q [y Hy]. unfold rs. rewrite lookup_insert_ne; [done|]. intros <-. congruence. }
  assert (rs !! p = Some x) as Hp by (unfold rs; by rewrite fin_maps.lookup_insert, decide_True).
  assert (∀ q, is_Some (regions vm !! q) → ∃ y, rs !! q = Some y ∧ region_wf y ∧
    regions vm !! q = Some y) as Hy.
  { intros q Hq. pose proof Hq as [y Hy]. exists y. rewrite Hold by done. split_and!; try done.
    by apply (ix_wf vm Hi q). }
  pose proof Hw as (_ & ? & _).
  apply cwp_wp, (wp_gpa_insert _ p x); [done..| | |].
  { eapply sorted_store; [|apply (ix_gpa vm Hi)]. intros q Hq%(ix_gpa_dom vm Hi). by apply Hold. }
  { intros q Hq%(ix_gpa_dom vm Hi). destruct (Hy q Hq) as (y & Hy1 & (? & ? & _) & Hy2).
    exists y. split_and!; [done..|]. apply (Hb q y Hy2). }
  intros gt Hg Hgin. cwps. apply cwp_wp, (wp_hva_insert _ p x); [done..| | |].
  { eapply sorted_store; [|apply (ix_hva vm Hi)]. intros q Hq%(ix_hva_dom vm Hi). by apply Hold. }
  { intros q Hq%(ix_hva_dom vm Hi). destruct (Hy q Hq) as (y & Hy1 & (? & ? & _) & Hy2).
    exists y. split_and!; [done..|]. apply (Hb q y Hy2). }
  intros ht Hh Hhin. unfold hash_add. cwps.
  assert (index_ok (indexed vm p x gt ht)) as Hix.
  { apply index_add; try done. intros q y Hq. by apply (Hb q y). }
  destruct (Z.leb_spec 0 (rfd x)) as [Hfd|]; [|cwps; by apply HΦ].
  cwps. destruct (a_alias a) as [al|]; cycle 1.
  { intros [_ Hal]%Hyes. by destruct (Hal Hfd) as (? & ? & _). }
  simpl. cwps. apply cwp_lift; [apply align_not_undef| |].
  { intros Ha [_ Hal]%Hyes. by destruct (Hal Hfd) as (? & [= <-] & ?). }
  intros al' _. cwps.
  apply cwp_wp. eapply wp_load_region; [done|]. apply cwp_wp. eapply wp_store_region; [done|].
  set (x' := Region _ _ _ _ _ _ _ _).
  assert (with_regions (indexed vm p x gt ht) (<[p := x']> rs) = indexed vm p x' gt ht) as Heq.
  { unfold indexed, with_regions, with_index, with_next. simpl. f_equal. unfold rs.
    by rewrite insert_insert_eq. }
  assert (index_ok (indexed vm p x' gt ht)) as Hix'.
  { rewrite <-Heq. apply index_layout; [|done]. intros q. by apply (layout_insert rs p x). }
  pose proof (HΦ x' gt ht eq_refl eq_refl Hix') as HH. by rewrite <-Heq in HH.
Qed.

Definition region_alignment (src : vm_mem_backing_src_type) : Z :=
  if decide (src = VM_MEM_SRC_ANONYMOUS_THP) then Z.max (get_backing_src_pagesz src) 1 else 1.
Definition mmap_bytes (src : vm_mem_backing_src_type) (size : Z) : Z :=
  if 1 <? region_alignment src then size + region_alignment src else size.
(** What [mmap] promises: the mapping lies beside those of the regions and
    its memory is zero. *)
Definition mmap_fresh vm (start len : Z) : Prop :=
  0 ≤ start ∧ start + len ≤ 2 ^ 64 ∧
  (∀ q y, regions vm !! q = Some y → host_mem y + r_size y ≤ start ∨ start + len ≤ host_mem y) ∧
  ∀ h, start ≤ h < start + len → word_at vm h = 0.
(** What holds of a region that was added. *)
Record added vm x (gpa s npages : Z) : Prop := {
  ad_beside : beside vm x;
  ad_slot : r_slot x = s;
  ad_start : r_start x = gpa;
  ad_size : r_size x = npages * page_size vm;
  ad_pages : 0 < npages;
  ad_aligned : gpa mod page_size vm = 0;
  ad_limit : gpa + npages * page_size vm ≤ (max_gfn vm + 1) * page_size vm;
  ad_unused : sb (unused_phy_pages x) (range (gpa / page_size vm) npages);
  ad_wf : region_wf x;
  ad_zero h : host_mem x ≤ h < host_mem x + r_size x → word_at vm h = 0
}.
Lemma added_layout vm x x' gpa s npages :
  layout x' = layout x → unused_phy_pages x' = unused_phy_pages x →
  added vm x gpa s npages → added vm x' gpa s npages.
Proof.
  intros Hl Hu [Hb ?????? Hw ?]. injection Hl as Hr Hh.
  unfold region_wf, beside, r_slot, r_start, r_size in *.
  split; unfold region_wf, beside, r_slot, r_start, r_size; rewrite ?Hr, ?Hh, ?Hu; done.
Qed.

Lemma page_size_range vm : params_ok vm → 4096 ≤ page_size vm ≤ 65536.
Proof.
  intros [Hs -> _ _]. change 65536 with (2 ^ 16). change 4096 with (2 ^ 12).
  split; apply Z.pow_le_mono_r; lia.
Qed.
(** The first checks bound the range. *)
Lemma gfn_bound vm gpa npages :
  params_ok vm → in_u64 gpa → 0 ≤ npages < 2 ^ 32 → 0 < npages → gpa mod page_size vm = 0 →
  u64 (u64 (Z.shiftr gpa (page_shift vm) + npages) - 1) ≤ max_gfn vm →
  Z.shiftr gpa (page_shift vm) = gpa / page_size vm ∧
  gpa + npages * page_size vm ≤ (max_gfn vm + 1) * page_size vm ∧
  u64 (npages * page_size vm) = npages * page_size vm ∧
  0 ≤ gpa / page_size vm ∧ gpa / page_size vm + npages < 2 ^ 64.
Proof.
  intros Hpo [Hg1 Hg2] Hn Hpos Hmod Hle. pose proof (page_size_range vm Hpo) as Hps.
  destruct Hpo as [[Hs1 Hs2] Hsz Hg Hlim].
  rewrite Z.shiftr_div_pow2, <-Hsz in * by lia.
  assert (0 ≤ gpa / page_size vm) by (apply Z.div_pos; lia).
  assert (gpa = page_size vm * (gpa / page_size vm)) as Hdiv by (pose proof (Z.div_mod gpa (page_size vm)); lia).
  assert (0 ≤ npages * page_size vm < 2 ^ 64) by nia.
  split_and!; [done| |apply u64_small; unfold in_u64; lia|done|nia].
  rewrite u64_sub in Hle. rewrite u64_small in Hle by (unfold in_u64; nia). nia.
Qed.
Lemma alignment_bound src : 1 ≤ region_alignment src ≤ 2 ^ 34.
Proof. unfold region_alignment. pose proof (pagesz_bound src). destruct (decide _); lia. Qed.
(** The aligned part of the mapping is beside the others too. *)
Lemma host_inside vm src start size h :
  0 < size → mmap_fresh vm start (mmap_bytes src size) →
  align_up start (region_alignment src) = Done h → mmap_fresh vm h size.
Proof.
  intros Hs (Hf1 & Hf2 & Hf3 & Hf4) Hal. pose proof (alignment_bound src). unfold mmap_bytes in *.
  destruct (Z.ltb_spec 1 (region_alignment src)).
  - apply align_up_range in Hal as [? ?]; [|lia..]. split_and!; [lia..| |].
    + intros q y Hy. destruct (Hf3 q y Hy); lia.
    + intros a Ha. apply Hf4. lia.
  - apply align_up_range in Hal as [? ?]; [|lia..]. assert (h = start) as -> by lia. done.
Qed.

(** What the caller and the host must provide for the region to be added. *)
Record add_ok (a : add_replies) vm src (gpa s npages : Z) : Prop := {
  ao_npages : 0 < npages < 2 ^ 32;
  ao_aligned : gpa mod page_size vm = 0;
  ao_limit : gpa / page_size vm + npages - 1 ≤ max_gfn vm;
  ao_apart q y : regions vm !! q = Some y → ¬ meets y gpa (gpa + npages * page_size vm - 1);
  ao_slot q y : regions vm !! q = Some y → r_slot y ≠ s;
  ao_backing : align_up gpa (get_backing_src_pagesz src) = Done gpa;
  ao_memfd : backing_src_is_shared src = true →
    a_memfd a ≠ -1 ∧ a_ftruncate a = 0 ∧ a_fallocate a = 0 ∧
    (0 ≤ a_memfd a → ∃ al, a_alias a = Some al ∧ align_up al (region_alignment src) ≠ Abort);
  ao_mmap : ∃ start, a_mmap a = Some start ∧ align_up start (region_alignment src) ≠ Abort ∧
    (is_backing_src_hugetlb src = true → align_up start (get_backing_src_pagesz src) = Done start);
  ao_host : a_calloc a = true ∧ a_madvise a = 0 ∧ a_ioctl a = 0
}.
Lemma cwp_memfd b a vm src gpa s npages (Φ : Z → kvm_vm → Prop) :
  (b → add_ok a vm src gpa s npages) →
  (∀ fd, (0 ≤ fd → backing_src_is_shared src = true ∧ fd = a_memfd a) → Φ fd vm) →
  cwp b (if backing_src_is_shared src then kvm_memfd_alloc a else mret (-1)) Φ vm.
Proof.
  intros Hb HΦ. destruct (backing_src_is_shared src) eqn:Hsh; cwps; [|apply HΦ; lia].
  assert (b → a_memfd a ≠ -1 ∧ a_ftruncate a = 0 ∧ a_fallocate a = 0) as Hb'.
  { intros Hm%Hb. destruct (ao_memfd _ _ _ _ _ _ Hm Hsh) as (? & ? & ? & _). done. }
  unfold kvm_memfd_alloc, TEST_ASSERT. cwps.
  apply cwp_assert; [intros ?%negb_false_iff%Z.eqb_eq [? _]%Hb'; done|]. intros _. cwps.
  apply cwp_assert; [intros ?%Z.eqb_neq (_ & ? & _)%Hb'; done|]. intros _. cwps.
  apply cwp_assert; [intros ?%Z.eqb_neq (_ & _ & ?)%Hb'; done|]. intros _. cwps. auto.
Qed.
Lemma cwp_hugetlb_start b a vm src gpa s npages start (Φ : unit → kvm_vm → Prop) :
  (b → add_ok a vm src gpa s npages) → a_mmap a = Some start → Φ tt vm →
  cwp b (if is_backing_src_hugetlb src
         then up ← lift (align_ptr_up start (get_backing_src_pagesz src)); TEST_ASSERT (start =? up)
         else mret tt) Φ vm.
Proof.
  intros Hb Hs HΦ. destruct (is_backing_src_hugetlb src) eqn:Hh; [|done]. unfold TEST_ASSERT. cwps.
  assert (b → align_ptr_up start (get_backing_src_pagesz src) = Done start) as Hb'.
  { intros Hm%Hb. destruct (ao_mmap _ _ _ _ _ _ Hm) as (? & E & _ & Hm'). rewrite Hs in E.
    injection E as <-. auto. }
  apply cwp_lift; [apply align_not_undef| |].
  { intros Ha Hm%Hb'. congruence. }
  intros up Hup. apply cwp_assert; [|done]. intros ?%Z.eqb_neq Hm%Hb'. congruence.
Qed.
Lemma range_set vm gpa npages :
  params_ok vm → in_u64 gpa → 0 < npages → in_u64 npages → gpa / page_size vm + npages < 2 ^ 64 →
  0 ≤ gpa / page_size vm →
  ∃ unused, sparsebit_set_num (gpa / page_size vm) npages (SB None 0 ∅ 0 []) = Done (tt, unused) ∧
    sb unused (range (gpa / page_size vm) npages).
Proof.
  intros Hpo Hg Hpos Hn Hlim H0'.
  assert (wp (exec (SetNum (gpa / page_size vm) npages))
    (λ _ u, sb u (range (gpa / page_size vm) npages)) empty_array) as Hset.
  { apply (wp_op nothing); [apply sb_empty| | |].
    - split; [|done]. unfold in_u64. lia.
    - simpl. apply andb_true_iff. split; [by apply Z.ltb_lt|apply Z.leb_le; lia].
    - intros u. apply sb_ext. intros i. unfold effect, nothing, range. tauto. }
  apply wp_inv in Hset as ([] & unused & Hrun & Hsb). by exists unused.
Qed.

(** The region made from a fresh mapping, when nothing is in its way. *)
Lemma new_region_added vm src gpa s npages fl start h unused fd len :
  let size := npages * page_size vm in
  let x := Region (KvmRegion s fl gpa size h) unused fd src h None start len in
  index_ok vm → params_ok vm → in_u64 gpa → 0 < npages → gpa mod page_size vm = 0 →
  gpa + size ≤ (max_gfn vm + 1) * page_size vm →
  mmap_fresh vm start (mmap_bytes src size) → align_up start (region_alignment src) = Done h →
  sb unused (range (gpa / page_size vm) npages) →
  (∀ q y, regions vm !! q = Some y → ¬ meets y gpa (gpa + size - 1)) →
  (∀ q y, q ∈ possible vm s → regions vm !! q = Some y → r_slot y ≠ s) →
  added vm x gpa s npages.
Proof.
  intros size x Hi Hpo Hg Hpos Hmod Hlim Hmap Hh Hsb Hold Hnoslot.
  pose proof (page_size_range vm Hpo) as Hps. pose proof (po_limit vm Hpo).
  assert (0 < size) as Hspos by (unfold size; nia).
  pose proof (host_inside vm src start _ h Hspos Hmap Hh) as (Hh1 & Hh2 & Hh3 & Hh4).
  assert (region_wf x) as Hwf by (destruct Hg; unfold region_wf, r_start, r_size; simpl; lia).
  split; try done. intros q y Hy. split_and!.
  - intros Hs. apply (Hnoslot q y); [|done..]. change s with (r_slot x). rewrite <-Hs.
    by apply (ix_slot vm Hi).
  - specialize (Hold q y Hy). unfold meets, r_start, r_size in *. simpl. lia.
  - by apply Hh3 in Hy.
Qed.
(** The last byte of the range the checks let through. *)
Lemma range_end vm gpa npages :
  params_ok vm → in_u64 gpa → 0 < npages < 2 ^ 32 → gpa mod page_size vm = 0 →
  u64 (u64 (Z.shiftr gpa (page_shift vm) + npages) - 1) ≤ max_gfn vm →
  u64 (u64 (gpa + u64 (npages * page_size vm)) - 1) = gpa + npages * page_size vm - 1 ∧
  gpa ≤ gpa + npages * page_size vm - 1.
Proof.
  intros Hpo Hg Hn Hmod Hgfn. pose proof (page_size_range vm Hpo) as Hps. pose proof (po_limit vm Hpo).
  destruct (gfn_bound vm gpa npages Hpo Hg ltac:(lia) (proj1 Hn) Hmod Hgfn) as (_ & Hlim & -> & _).
  destruct Hg. assert (1 ≤ npages * page_size vm) by nia.
  rewrite (u64_small (gpa + _)), u64_small by (unfold in_u64; lia). lia.
Qed.

(** The last part: the set of its unused pages, and linking the region. *)
Lemma cwp_new_region b a vm src gpa s npages fl start h fd len (Φ : unit → kvm_vm → Prop) :
  let p := next_region vm in
  index_ok vm → params_ok vm → in_u64 gpa → in_u64 npages → 0 ≤ npages < 2 ^ 32 → gpa mod page_size vm = 0 →
  u64 (u64 (Z.shiftr gpa (page_shift vm) + npages) - 1) ≤ max_gfn vm →
  0 ≤ gpa / page_size vm < 2 ^ 52 →
  (gpa ≤ u64 (u64 (gpa + u64 (npages * page_size vm)) - 1) →
    ∀ p x, regions vm !! p = Some x → ¬ meets x gpa (u64 (u64 (gpa + u64 (npages * page_size vm)) - 1))) →
  (∀ q y, q ∈ possible vm s → regions vm !! q = Some y → r_slot y ≠ s) →
  mmap_fresh vm start (mmap_bytes src (npages * page_size vm)) → align_up start (region_alignment src) = Done h →
  (0 ≤ fd → backing_src_is_shared src = true ∧ fd = a_memfd a) →
  (b → add_ok a vm src gpa s npages) →
  (∀ x gt ht, added vm x gpa s npages → index_ok (indexed vm p x gt ht) → Φ tt (indexed vm p x gt ht)) →
  cwp b ('(_, unused) ← lift (sparsebit_set_num (Z.shiftr gpa (page_shift vm)) npages (SB None 0 ∅ 0 []));
         link_region a p (Region (KvmRegion s fl gpa (u64 (npages * page_size vm)) h) unused fd src h None start len)
           (region_alignment src)) Φ vm.
Proof.
  intros p Hi Hpo Hg Hn Hnr Hmod Hgfn Hdiv Hold Hnoslot Hmap Hh Hfd Hb HΦ. pose proof Hpo as [Hsh Hsz _ Hgl]. cwps.
  destruct (decide (0 < npages)) as [Hpos|Hz]; cycle 1.
  { rewrite set_num_put, put_num_wraps; [|unfold in_u64| |].
    - intros Hnb%Hb%ao_npages. lia.
    - rewrite Z.shiftr_div_pow2, <-Hsz by lia. lia.
    - done.
    - by rewrite (proj2 (Z.ltb_ge 0 npages)) by lia. }
  destruct (gfn_bound vm gpa npages Hpo Hg Hnr Hpos Hmod Hgfn) as (Hpg & Hlim & Hsize & Hg1 & Hg2).
  rewrite Hpg. rewrite Hsize in *.
  destruct (range_set vm gpa npages) as (unused & Hrun & Hsb); try done.
  rewrite Hrun. apply cwp_lift; [done..|]. intros ? [= <-]. cbn beta iota zeta.
  destruct (range_end vm gpa npages) as [Heq Hle]; [done..|lia|done|done|]. rewrite Hsize in Heq.
  rewrite Heq in Hold. specialize (Hold Hle).
  pose proof (new_region_added vm src gpa s npages fl start h unused fd) as Hadd. cbv zeta in Hadd.
  set (x := Region _ _ _ _ _ _ _ _).
  assert (added vm x gpa s npages) as Hx by (by apply Hadd).
  apply (cwp_link_region b a vm x (region_alignment src)); try done.
  - apply Hx.
  - apply Hx.
  - intros Hb'. split; [by destruct (ao_host _ _ _ _ _ _ (Hb Hb')) as (_ & _ & ?)|]. intros Hfd0.
    destruct (Hfd Hfd0) as [Hsrc Hfd']. simpl in Hfd0. rewrite Hfd' in Hfd0.
    destruct (ao_memfd _ _ _ _ _ _ (Hb Hb') Hsrc) as (_ & _ & _ & Hal). auto.
  - intros x' gt ht Hlay Hun. apply HΦ. by eapply added_layout.
Qed.
Lemma cwp_region_add b a vm src gpa s npages fl (Φ : unit → kvm_vm → Prop) :
  let p := next_region vm in
  index_ok vm → params_ok vm → 0 ≤ getpageshift →
  getpageshift = p_page_shift (vm_guest_mode_params (mode vm)) →
  in_u64 gpa → in_u64 npages → a_sparsebit a = [] →
  (∀ start, a_mmap a = Some start →
    mmap_fresh vm start (mmap_bytes src (npages * page_size vm))) →
  (b → add_ok a vm src gpa s npages) →
  (∀ x gt ht, added vm x gpa s npages → index_ok (indexed vm p x gt ht) →
    Φ tt (indexed vm p x gt ht)) →
  cwp b (vm_userspace_mem_region_add a src gpa s npages fl) Φ vm.
Proof.
  intros p Hi Hpo Hk Hshift Hg Hn Hoom Hmap Hb HΦ. unfold vm_userspace_mem_region_add, TEST_ASSERT.
  pose proof (page_size_range vm Hpo) as Hps. pose proof Hpo as [Hsh Hsz _ Hgl].
  assert (b → 0 < npages < 2 ^ 32 ∧ gpa / page_size vm + npages - 1 ≤ max_gfn vm ∧
    gpa mod page_size vm = 0) as Hb1 by (by intros []%Hb).
  assert (0 ≤ gpa / page_size vm < 2 ^ 52) as Hdiv.
  { destruct Hg. split; [apply Z.div_pos; lia|apply Z.div_lt_upper_bound; nia]. }
  cwps. rewrite (adjust_same _ _ Hk Hshift). apply cwp_lift; [done..|]. intros ? [= <-]. cwps.
  apply cwp_assert; [intros ?%Z.eqb_neq [? _]%Hb1; by rewrite u32_small in * by (unfold in_u32; lia)|].
  intros Hn32%Z.eqb_eq. cwps. assert (0 ≤ npages < 2 ^ 32) as Hnr by (rewrite <-Hn32; apply wrap_range; lia).
  apply cwp_assert; [intros ?%Z.eqb_neq (_ & _ & ?)%Hb1; done|]. intros Hmod%Z.eqb_eq. cwps.
  apply cwp_assert.
  { intros Hlt%Z.leb_gt (Hnb & Hl & _)%Hb1. revert Hlt. rewrite Z.shiftr_div_pow2, <-Hsz by lia.
    rewrite u64_sub, u64_small by (unfold in_u64; lia). lia. }
  intros Hgfn%Z.leb_le. cwps. apply cwp_wp, wp_find_range; [done|]. intros old Hold. cwps.
  apply cwp_assert.
  { intros Hne%bool_decide_eq_false Hb'. destruct (Hb1 Hb') as (Hnb & _ & _).
    destruct (range_end vm gpa npages Hpo Hg Hnb Hmod Hgfn) as [Heq Hle].
    rewrite Heq in Hold. specialize (Hold Hle). destruct old as [q|]; [|done]. destruct Hold as (y & Hy & Hm).
    by apply (ao_apart _ _ _ _ _ _ (Hb Hb') q y). }
  intros Hold'%bool_decide_eq_true. rewrite Hold' in Hold. cbn [find_spec] in Hold. cwps.
  apply cwp_wp, wp_find_slot; [by apply (ix_bucket vm Hi)| |].
  { intros q y _ Hy Hys. cwps. apply cwp_assert; [|done]. intros _ Hb'.
    by apply (ao_slot _ _ _ _ _ _ (Hb Hb') q y). }
  intros Hnoslot. cwps. apply cwp_assert; [done|]. intros _. cwps.
  apply cwp_assert; [intros E (Hc & _)%Hb%ao_host; congruence|]. intros _. cwps.
  apply cwp_lift; [apply align_not_undef|intros E Hc%Hb%ao_backing; congruence|]. intros up Hup. cwps.
  apply cwp_assert; [intros ?%Z.eqb_neq Hc%Hb%ao_backing; congruence|]. intros _. cwps.
  apply (cwp_memfd b a vm src gpa s npages); [done|]. intros fd Hfd. cwps.
  destruct (a_mmap a) as [start|] eqn:Hstart; cycle 1.
  { intros (? & ? & _)%Hb%ao_mmap. congruence. }
  specialize (Hmap start eq_refl). unfold some_addr. cwps.
  apply (cwp_hugetlb_start b a vm src gpa s npages start); [done..|]. cwps.
  fold (region_alignment src).
  apply cwp_lift; [apply align_not_undef| |].
  { intros E (st' & E' & Hne & _)%Hb%ao_mmap. rewrite Hstart in E'. by injection E' as <-. }
  intros h Hh. cwps. apply cwp_assert.
  { intros [_ ?%Z.eqb_neq]%orb_false_iff (_ & ? & _)%Hb%ao_host. done. }
  intros _. cwps. rewrite Hoom. apply cwp_lift; [done..|]. intros ? [= <-]. cbn beta.
  eapply (cwp_new_region b a vm src gpa s npages fl start h fd); done.
Qed.
End add.
