(* ===== verification/KvmRegionEdit.v ===== *)
(** * selftests: deleting a region and changing its flags

    Both keep the indices; the pages and addresses of the other regions stay. *)

From stdpp Require Import sorting.
From S2P Require Import Prelude Sparsebit SparsebitOps SparsebitTree SparsebitRange SparsebitSpec.
From S2P Require Import KvmUtil KvmPageTable KvmRegions KvmRegionAdd.

Implicit Types (vm : kvm_vm) (x y : userspace_mem_region).

Lemma sorted_filter {A} (R : A → A → Prop) (P : A → Prop) `{!∀ a, Decision (P a)} l :
  StronglySorted R l → StronglySorted R (filter P l).
Proof.
  induction 1 as [|a l Hs IH Ha]; [constructor|]. rewrite filter_cons. case_decide; [|done].
  constructor; [done|]. rewrite Forall_forall in *. intros b [_ Hb]%list_elem_of_filter. auto.
Qed.
Lemma sorted_NoDup key rs l :
  (∀ p, p ∈ l → ∃ x, rs !! p = Some x ∧ 0 < r_size x) → StronglySorted (before key rs) l → NoDup l.
Proof.
  intros Hin. induction 1 as [|p l Hs IH Hp]; [constructor|].
  constructor; [|apply IH; intros q Hq; apply Hin; by right].
  intros Hpl. rewrite Forall_forall in Hp. destruct (Hin p) as (x & Hx & Hpos); [by left|].
  specialize (Hp p Hpl x x Hx Hx). lia.
Qed.

Section edit.
Context `{!KernelTools, !KernelToolsLaws}.

(** [p] is out of the store and of the three indices. *)
Definition unlinked vm p : kvm_vm :=
  with_regions
    (with_index vm (rb_erase p (gpa_tree vm)) (rb_erase p (hva_tree vm))
       (filter (λ q, q ≠ p) <$> slot_hash vm))
    (delete p (regions vm)).
Lemma index_delete vm p : index_ok vm → index_ok (unlinked vm p).
Proof.
  intros Hi.
  assert (∀ t, (∀ q, is_Some (regions vm !! q) ↔ q ∈ rb_inorder t) →
    ∀ q, q ∈ rb_inorder t → ∃ x, regions vm !! q = Some x ∧ 0 < r_size x) as Hpos.
  { intros t Hdom q [x Hx]%Hdom. exists x. split; [done|]. by apply (ix_wf vm Hi) in Hx as (_ & ? & _). }
  assert (∀ key t, (∀ q, is_Some (regions vm !! q) ↔ q ∈ rb_inorder t) →
    StronglySorted (before key (regions vm)) (rb_inorder t) →
    rb_inorder (rb_erase p t) = filter (λ q, q ≠ p) (rb_inorder t)) as Herase.
  { intros key t Hdom Hs. apply rb_erase_inorder. eapply sorted_NoDup; [by apply Hpos|done]. }
  pose proof (Herase _ _ (ix_gpa_dom vm Hi) (ix_gpa vm Hi)) as Hg.
  pose proof (Herase _ _ (ix_hva_dom vm Hi) (ix_hva vm Hi)) as Hh.
  assert (∀ q, is_Some (delete p (regions vm) !! q) ↔ q ≠ p ∧ is_Some (regions vm !! q)) as Hdel.
  { intros q. rewrite lookup_delete_is_Some. naive_solver. }
  assert (∀ key l, StronglySorted (before key (regions vm)) l →
    StronglySorted (before key (delete p (regions vm))) (filter (λ q, q ≠ p) l)) as Hsort.
  { intros key l Hs. eapply (sorted_store _ (regions vm)); [|by apply sorted_filter].
    intros q [Hq _]%list_elem_of_filter. by apply lookup_delete_ne. }
  assert (∀ s q, q ∈ possible (unlinked vm p) s ↔ q ≠ p ∧ q ∈ possible vm s) as Hposs.
  { intros s q. unfold possible, unlinked. cbn [with_regions with_index slot_hash].
    rewrite lookup_fmap. destruct (slot_hash vm !! hash_bucket s) as [l|]; simpl; [|set_solver].
    by rewrite list_elem_of_filter. }
  split; cbn [unlinked with_regions with_index regions gpa_tree hva_tree next_region].
  - intros q. rewrite Hg, list_elem_of_filter, Hdel. by rewrite (ix_gpa_dom vm Hi).
  - intros q. rewrite Hh, list_elem_of_filter, Hdel. by rewrite (ix_hva_dom vm Hi).
  - rewrite Hg. apply Hsort, Hi.
  - rewrite Hh. apply Hsort, Hi.
  - intros q x [_ Hx]%lookup_delete_Some. by apply (ix_wf vm Hi q).
  - intros q x [Hne Hx]%lookup_delete_Some. apply Hposs. split; [done|]. by apply (ix_slot vm Hi).
  - intros s q [Hne Hq]%Hposs. apply Hdel. split; [done|]. by eapply (ix_bucket vm Hi).
  - intros q1 q2 x y [_ Hx]%lookup_delete_Some [_ Hy]%lookup_delete_Some.
    by apply (ix_slot_inj vm Hi q1 q2).
  - intros q [_ Hq]%Hdel. by apply (ix_next vm Hi).
Qed.
(** The replies that let a deletion go through. *)
Definition delete_ok x (ret : Z) (unmap : Z * Z) : Prop :=
  ret = 0 ∧ unmap.1 = 0 ∧ (0 ≤ rfd x → unmap.2 = 0).
Lemma cwp_region_delete b vm s p x P ret unmap (Φ : unit → kvm_vm → Prop) :
  index_ok vm → regions vm !! p = Some x → r_slot x = s → sb (unused_phy_pages x) P →
  (b → delete_ok x ret unmap) → (delete_ok x ret unmap → Φ tt (unlinked vm p)) →
  cwp b (vm_mem_region_delete ret unmap s) Φ vm.
Proof.
  intros Hi Hx Hs Hsb Hb HΦ. unfold vm_mem_region_delete, __vm_mem_region_delete, TEST_ASSERT. cwps.
  apply cwp_wp. eapply wp_memslot2region; [done..|]. cwps. apply cwp_wp.
  eapply wp_load_region; [done|]. cwps.
  apply cwp_assert; [intros ?%Z.eqb_neq (? & _)%Hb; done|]. intros Hr%Z.eqb_eq. cwps.
  rewrite (free_result _ P Hsb). apply cwp_lift; [done..|]. intros _ _. cwps.
  apply cwp_assert; [intros ?%Z.eqb_neq (_ & ? & _)%Hb; done|]. intros Hu%Z.eqb_eq. cwps.
  apply cwp_assert.
  { intros [Hfd%negb_false_iff%Z.leb_le ?%Z.eqb_neq]%orb_false_iff (_ & _ & Hf)%Hb. auto. }
  intros Hf%orb_true_iff. cwps. apply HΦ. split_and!; try done. intros Hfd.
  destruct Hf as [?%negb_true_iff%Z.leb_gt|?%Z.eqb_eq]; [lia|done].
Qed.
Definition reflagged (fl : Z) x : userspace_mem_region :=
  set_region (KvmRegion (slot (region x)) fl (guest_phys_addr (region x)) (memory_size (region x))
    (userspace_addr (region x))) x.
Lemma awp_set_flags vm s p x ret fl (Φ : unit → kvm_vm → Prop) :
  index_ok vm → regions vm !! p = Some x → r_slot x = s →
  (ret = 0 → index_ok (with_regions vm (<[p := reflagged fl x]> (regions vm))) →
    Φ tt (with_regions vm (<[p := reflagged fl x]> (regions vm)))) →
  awp (vm_mem_region_set_flags ret s fl) Φ vm.
Proof.
  intros Hi Hx Hs HΦ. unfold vm_mem_region_set_flags, TEST_ASSERT. awps.
  apply awp_wp. eapply wp_memslot2region; [done..|]. awps. apply awp_wp. eapply wp_load_region; [done|].
  awps. apply awp_wp. eapply wp_store_region; [done|]. apply awp_assert. intros Hr%Z.eqb_eq.
  apply HΦ; [done|]. apply index_place; [|done]. intros q. destruct (decide (q = p)) as [->|].
  - rewrite fin_maps.lookup_insert, decide_True, Hx by done. done.
  - by rewrite lookup_insert_ne.
Qed.
(** The addresses of the other regions. *)
Lemma located_delete vm p x g h :
  index_ok vm → regions vm !! p = Some x → ¬ contains x g →
  located (unlinked vm p) g h ↔ located vm g h.
Proof.
  intros Hi Hx Hg. unfold located. cbn [unlinked with_regions regions]. split.
  - intros (q & y & [_ Hy]%lookup_delete_Some & Hc). by exists q, y.
  - intros (q & y & Hy & Hc & Hh). exists q, y. split; [|done]. apply lookup_delete_Some.
    split; [|done]. intros <-. by simplify_eq.
Qed.
End edit.
