(* ===== verification/KvmPages.v ===== *)
(** * selftests: the allocator of guest physical pages

    [vm_phy_pages_alloc] returns the lowest run of unused pages at or above the
    minimum and takes exactly these pages; it aborts exactly when there is none. *)

From S2P Require Import Prelude Sparsebit SparsebitOps SparsebitTree SparsebitSearch SparsebitBits.
From S2P Require Import SparsebitRange SparsebitCount SparsebitQuery SparsebitRuns SparsebitSpec.
From S2P Require Import KvmUtil KvmRegions KvmRegionAdd.

Implicit Types (vm : kvm_vm) (x y : userspace_mem_region) (P : Z → Prop).

(** ** Operations on the unused pages *)
Lemma with_regions_id vm : with_regions vm (regions vm) = vm.
Proof. by destruct vm. Qed.
Lemma set_unused_id x : set_unused (unused_phy_pages x) x = x.
Proof. by destruct x. Qed.
Lemma wp_on_unused {A} p x (m : S_ A) (Φ : A → kvm_vm → Prop) vm :
  regions vm !! p = Some x →
  wp m (λ a s, Φ a (with_regions vm (<[p := set_unused s x]> (regions vm)))) (unused_phy_pages x) →
  wp (on_unused p m) Φ vm.
Proof.
  intros Hx (a & s & Hm & HΦ)%wp_inv. unfold on_unused. wps. eapply wp_load_region; [done|].
  wps. rewrite Hm. simpl. wps. eapply wp_store_region; [done|]. by wps.
Qed.
Lemma wp_query_unused {A} p x (m : S_ A) (R : A → Prop) (Φ : A → kvm_vm → Prop) vm :
  regions vm !! p = Some x →
  wp m (λ a s, R a ∧ s = unused_phy_pages x) (unused_phy_pages x) → (∀ a, R a → Φ a vm) →
  wp (on_unused p m) Φ vm.
Proof.
  intros Hx Hm HΦ. apply (wp_on_unused p x); [done|]. eapply wp_mono; [done|].
  intros a s [Ha ->]. cbn beta. rewrite set_unused_id, insert_id, with_regions_id by done. auto.
Qed.

(** ** The search *)
Section search.
Context (vm : kvm_vm) (p : nat) (x : userspace_mem_region) (P : Z → Prop) (num : Z).
Context (Hx : regions vm !! p = Some x) (Hsb : sb (unused_phy_pages x) P) (Hnum : 0 < num).

Lemma wp_scan f base pg (Φ : Z * Z → kvm_vm → Prop) :
  0 ≤ base → base ≤ pg → pg ≤ base + num → base + num < 2 ^ 64 → base + num - pg ≤ Z.of_nat f →
  (∀ i, base ≤ i < pg → P i) → (run P base num → Φ (base, base + num) vm) →
  (∀ u r, base ≤ u < base + num → ¬ P u → next_set_spec P u r → Φ (r, r) vm) →
  wp (scan f p base num pg) Φ vm.
Proof.
  intros Hb. revert pg. induction f as [|f IH]; intros pg Hle Hge Hlim Hf Hset Hyes Hno;
    cbn [scan]; rewrite u64_small by (unfold in_u64; lia);
    (destruct (Z.ltb_spec pg (base + num)); [|wps; replace pg with (base + num) by lia; apply Hyes;
      intros i [? ?]; apply Hset; lia]); [lia|].
  assert (in_u64 pg) by (unfold in_u64; lia).
  wps. eapply (wp_query_unused p x _ (λ b : bool, b = true ↔ P pg)); [done| |].
  { eapply wp_sb_is_set; [done..|]. auto. }
  intros [] Hbit; cbn [negb].
  - rewrite u64_small by (unfold in_u64; lia). apply IH; try done; try lia. intros i Hi.
    destruct (decide (i = pg)) as [->|]; [by apply Hbit|apply Hset; lia].
  - wps. eapply (wp_query_unused p x _ (next_set_spec P pg)); [done| |].
    { eapply wp_next_set; [done..|]. auto. }
    intros r Hr. wps. apply (Hno pg r); [lia| |done]. intros HP%Hbit. done.
Qed.

(** The lowest run at or after [lo], and 0 for the page reached when there is
    none. *)
Definition found (lo : Z) (r : Z * Z) : Prop :=
  (r.2 = 0 ∧ ∀ k, lo ≤ k → ¬ run P k num) ∨
  (r.2 = r.1 + num ∧ lo ≤ r.1 ∧ run P r.1 num ∧ ∀ k, lo ≤ k < r.1 → ¬ run P k num).
Lemma run_avoids k u : run P k num → k ≤ u < k + num → P u.
Proof. intros Hr Hu. by apply Hr. Qed.
Lemma wp_search_pages A f lo base (Φ : Z * Z → kvm_vm → Prop) :
  st (unused_phy_pages x) A (u64 (total A)) → valid A → (∀ i, in_set A i ↔ P i) →
  (∀ i, P i → i + num < 2 ^ 64) → 0 ≤ lo ≤ base → base + num < 2 ^ 64 →
  (∀ k, lo ≤ k < base → ¬ run P k num) → (ahead (set_starts A) base < f)%nat →
  (∀ r, found lo r → Φ r vm) → wp (search_pages f p base num base) Φ vm.
Proof.
  intros Hst Hv HP Hmax. revert base. induction f as [|f IH]; intros base Hlo Hlim Hbelow Hf HΦ;
    [lia|]. cbn [search_pages]. wps. apply wp_scan; try done; try lia.
  - intros Hrun. rewrite u64_small by (unfold in_u64; lia). rewrite Z.eqb_refl, andb_false_r. wps.
    apply HΦ. right. simpl. split_and!; try done; lia.
  - intros u r Hu Hnu Hr. destruct Hr as [[-> Hnone]|(Hur & [? ?] & HPr & Hgap)].
    + rewrite Z.eqb_refl. cbn [negb andb]. wps. apply HΦ. left. split; [done|]. intros k Hk Hrun.
      destruct (decide (k < base)); [by apply (Hbelow k); [lia|]|]. destruct (decide (k ≤ u)).
      * apply Hnu. apply (run_avoids k); [done|lia].
      * assert (P k) as HPk by (apply Hrun; unfold range; lia).
        apply (Hnone k); [lia| |done]. by eapply sb_u64.
    + specialize (Hmax r HPr). rewrite (proj2 (Z.eqb_neq r 0)) by lia.
      rewrite u64_small by (unfold in_u64; lia). rewrite (proj2 (Z.eqb_neq r (r + num))) by lia.
      cbn [negb andb]. apply IH; try done; try lia.
      * intros k Hk Hrun. destruct (decide (k < base)); [by apply (Hbelow k); [lia|]|].
        destruct (decide (k ≤ u)); [apply Hnu, (run_avoids k); [done|lia]|].
        apply (Hgap k); [lia|]. apply Hrun. unfold range. lia.
      * assert (r ∈ set_starts A) as Hin.
        { apply (set_start (-1)); [by eapply valid_wf|by apply HP|]. rewrite HP.
          destruct (decide (r - 1 = u)) as [->|]; [done|]. apply Hgap. lia. }
        pose proof (ahead_step _ base r Hin). lia.
Qed.
End search.

(** ** Taking the pages *)
Definition taken P (b num : Z) : Z → Prop := λ i, P i ∧ ¬ range b num i.
Lemma taken_step P b k i : 0 ≤ k → effect (taken P b k) (ClearBit (b + k)) i ↔ taken P b (k + 1) i.
Proof. intros. unfold effect, taken, range. intuition lia. Qed.
Definition with_unused vm p x s : kvm_vm :=
  with_regions vm (<[p := set_unused s x]> (regions vm)).
Lemma with_unused_lookup vm p x s : regions (with_unused vm p x s) !! p = Some (set_unused s x).
Proof. simpl. by rewrite fin_maps.lookup_insert, decide_True. Qed.
Lemma with_unused_id vm p x :
  regions vm !! p = Some x → with_unused vm p x (unused_phy_pages x) = vm.
Proof. intros Hx. unfold with_unused. by rewrite set_unused_id, insert_id, with_regions_id. Qed.
Lemma with_unused_twice vm p x s s' :
  with_unused (with_unused vm p x s) p (set_unused s x) s' = with_unused vm p x s'.
Proof. unfold with_unused, with_regions. simpl. f_equal. by rewrite insert_insert_eq. Qed.
Lemma wp_take_pages vm p x P b num (Φ : unit → kvm_vm → Prop) : ∀ f k s,
  sb s (taken P b k) → 0 ≤ b → 0 ≤ k ≤ num → b + num < 2 ^ 64 → num - k ≤ Z.of_nat f →
  (∀ s', sb s' (taken P b num) → Φ tt (with_unused vm p x s')) →
  wp (take_pages f p (b + num) (b + k)) Φ (with_unused vm p x s).
Proof.
  induction f as [|f IH]; intros k s Hs Hb Hk Hlim Hf HΦ; cbn [take_pages];
    (destruct (Z.ltb_spec (b + k) (b + num)); [|wps; replace k with num in Hs by lia; by apply HΦ]);
    [lia|].
  wps. eapply wp_on_unused; [apply with_unused_lookup|].
  apply (wp_op (taken P b k) (ClearBit (b + k))); [done|unfold op_typed, in_u64; lia|done|].
  intros s' Hs'. fold (with_unused (with_unused vm p x s) p (set_unused s x) s').
  rewrite with_unused_twice, u64_small by (unfold in_u64; lia).
  replace (b + k + 1) with (b + (k + 1)) by lia. apply IH; try done; try lia.
  eapply sb_ext; [|exact Hs']. intros i. apply taken_step. lia.
Qed.

(** ** The allocator *)
(** The lowest run of [num] pages of [P] at or above [lo]. *)
Definition lowest_run P (lo num b : Z) : Prop :=
  lo ≤ b ∧ run P b num ∧ ∀ k, lo ≤ k < b → ¬ run P k num.
Lemma phy_pages_alloc_result `{!KernelTools} vm p x P num paddr_min memslot :
  index_ok vm → params_ok vm → regions vm !! p = Some x → r_slot x = memslot →
  sb (unused_phy_pages x) P → (∀ i, P i → i + num < 2 ^ 64) → 0 < num → 0 ≤ paddr_min →
  paddr_min mod page_size vm = 0 → paddr_min / page_size vm + num < 2 ^ 64 →
  (∃ b s, lowest_run P (paddr_min / page_size vm) num b ∧ sb s (taken P b num) ∧
    vm_phy_pages_alloc num paddr_min memslot vm =
      Done (u64 (b * page_size vm), with_unused vm p x s)) ∨
  (vm_phy_pages_alloc num paddr_min memslot vm = Abort ∧
   ∀ k, paddr_min / page_size vm ≤ k → ¬ run P k num).
Proof.
  intros Hi Hpo Hx Hs Hsb Hmax Hn Hmin Hmod Hlim. unfold vm_phy_pages_alloc, TEST_ASSERT.
  rewrite (proj2 (Z.ltb_lt 0 num)) by done. rewrite (C_bind_Done _ _ vm tt vm) by done.
  rewrite (C_bind_Done get _ vm vm vm) by done. rewrite Hmod. rewrite (C_bind_Done _ _ vm tt vm) by done.
  rewrite (C_bind_Done _ _ vm p vm) by (apply wp_exact; by eapply wp_memslot2region).
  rewrite (C_bind_Done _ _ vm x vm) by (apply wp_exact; by eapply wp_load_region).
  destruct Hpo as [Hshift Hsize _ _].
  rewrite Z.shiftr_div_pow2, <-Hsize by lia. set (lo := paddr_min / page_size vm) in *.
  assert (0 ≤ lo) as Hlo.
  { apply Z.div_pos; [lia|]. rewrite Hsize. apply Z.pow_pos_nonneg; lia. }
  pose proof Hsb as (A & Hst & Hv & HP).
  assert (wp (search_pages (33 * base.size (mem (unused_phy_pages x)) + 2) p lo num lo)
    (λ r w, found P num lo r ∧ w = vm) vm) as Hsearch.
  { eapply wp_search_pages; try done; try lia.
    pose proof (ahead_le (set_starts A) lo) as Hle. unfold set_starts in Hle at 2.
    rewrite (length_starts A _ 33) in Hle by (intros; by rewrite length_seqZ).
    rewrite (srep_fuel _ _ (proj1 Hst)). lia. }
  apply wp_inv in Hsearch as ([b pg] & w & Hrun & Hfound & ->).
  rewrite (C_bind_Done _ _ vm (b, pg) vm Hrun). cbn beta iota.
  destruct Hfound as [[Hpg Hno]|(Hpg & Hb & Hyes & Hlow)]; cbn [fst snd] in *.
  - right. rewrite Hpg. by split.
  - left. assert (P b) as HPb by (apply Hyes; unfold range; lia).
    specialize (Hmax b HPb). rewrite (proj2 (Z.eqb_neq pg 0)), (u64_small (b + num)) by (unfold in_u64; lia).
    assert (wp (take_pages (Z.to_nat num) p (b + num) b)
      (λ _ w, ∃ s, sb s (taken P b num) ∧ w = with_unused vm p x s) vm) as Htake.
    { rewrite <-(with_unused_id vm p x Hx) at 1. rewrite <-(Z.add_0_r b) at 2.
      apply (wp_take_pages vm p x P b num); [|lia..|].
      - eapply sb_ext; [|done]. intros i. unfold taken, range. intuition lia.
      - intros s' Hs'. by exists s'. }
    apply wp_inv in Htake as ([] & w & Hw & s & Hs' & ->). exists b, s.
    split_and!; [done..|]. by rewrite (C_bind_Done _ _ vm tt _ Hw).
Qed.
