(* ===== verification/KvmState.v ===== *)
(** * selftests: the state of a 4-level, 4K-page VM

    The invariant that the page tables and the virtual allocator share: which
    physical pages are unused, and how an allocation changes that. *)

From S2P Require Import Prelude Sparsebit SparsebitOps SparsebitTree SparsebitSearch SparsebitBits.
From S2P Require Import SparsebitRange SparsebitCount SparsebitQuery SparsebitRuns SparsebitSpec.
From S2P Require Import KvmUtil KvmPageTable KvmRegions KvmRegionAdd KvmPages.

Implicit Types (vm : kvm_vm) (x y : userspace_mem_region) (F : Z → Prop) (n i : Z).

(** The page [n] lies in the region. *)
Definition page_in x n : Prop := r_start x ≤ n * 4096 ∧ (n + 1) * 4096 ≤ r_start x + r_size x.
(** [F] are the unused pages of all regions. *)
Definition pages_ok vm F : Prop :=
  ∀ p x, regions vm !! p = Some x → sb (unused_phy_pages x) (λ n, F n ∧ page_in x n).
(** The page is in some region; in the region of slot [s]. *)
Definition in_some vm n : Prop := ∃ p x, regions vm !! p = Some x ∧ page_in x n.
Definition in_slot vm (s n : Z) : Prop :=
  ∃ p x, regions vm !! p = Some x ∧ r_slot x = s ∧ page_in x n.

Record vm_ok `{!KernelTools} vm F : Prop := {
  vo_index : index_ok vm;
  vo_mode : mode vm = VM_MODE_PXXV48_4K;
  vo_page_size : page_size vm = 4096;
  vo_page_shift : page_shift vm = 12;
  vo_gfn : 0 ≤ max_gfn vm < 2 ^ 40;
  vo_small p x : regions vm !! p = Some x → r_start x + r_size x ≤ (max_gfn vm + 1) * 4096;
  vo_pages : pages_ok vm F;
  vo_slots t s : memslots vm !! t = Some s →
    ∃ p x, regions vm !! p = Some x ∧ r_slot x = s;
  vo_memslots : length (memslots vm) = 4%nat
}.

Section state.
Context `{!KernelTools}.

Lemma vm_ok_params vm F : vm_ok vm F → params_ok vm.
Proof.
  intros H'. destruct H' as [_ _ Hs Hsh Hg _ _ _ _]. split; rewrite ?Hs, ?Hsh; lia.
Qed.
Lemma page_unique vm F p q x y n :
  vm_ok vm F → regions vm !! p = Some x → regions vm !! q = Some y → page_in x n → page_in y n →
  p = q.
Proof.
  intros Hok Hx Hy Hn Hn'. unfold page_in in *.
  eapply (gpa_unique vm p q x y (n * 4096)); [apply Hok|done..| |]; unfold contains; lia.
Qed.
Lemma page_gfn vm F n : vm_ok vm F → in_some vm n → 0 ≤ n ≤ max_gfn vm.
Proof.
  intros Hok (p & x & Hx & Hn). pose proof (vo_small vm F Hok p x Hx).
  pose proof (ix_wf vm (vo_index vm F Hok) p x Hx) as (? & _). unfold page_in in Hn. lia.
Qed.
Lemma page_range vm F n : vm_ok vm F → in_some vm n → 0 ≤ n < 2 ^ 40.
Proof. intros Hok Hn. pose proof (page_gfn vm F n Hok Hn). pose proof (vo_gfn vm F Hok). lia. Qed.

(** ** A region loses unused pages *)
Lemma with_unused_layout vm p x s q :
  regions vm !! p = Some x →
  layout <$> regions (with_unused vm p x s) !! q = layout <$> regions vm !! q.
Proof. intros Hx. by apply (layout_insert _ p x). Qed.
Lemma with_unused_regions vm p x s q y :
  regions vm !! p = Some x → regions (with_unused vm p x s) !! q = Some y →
  ∃ y', regions vm !! q = Some y' ∧ layout y = layout y' ∧
    ((q = p ∧ y = set_unused s x) ∨ (q ≠ p ∧ y = y')).
Proof.
  intros Hx. simpl. rewrite lookup_insert_Some. intros [[<- <-]|[Hne Hy]].
  - exists x. split_and!; auto.
  - exists y. split_and!; auto.
Qed.
Lemma layout_facts x y : layout x = layout y →
  r_start x = r_start y ∧ r_size x = r_size y ∧ r_slot x = r_slot y ∧ host_mem x = host_mem y.
Proof. intros [= Hr Hh]. unfold r_start, r_size, r_slot. by rewrite Hr. Qed.
Lemma layout_page_in x y n : layout x = layout y → page_in x n ↔ page_in y n.
Proof. intros (Hs & Hz & _)%layout_facts. unfold page_in. by rewrite Hs, Hz. Qed.

Lemma vm_ok_taken vm F p x b num s :
  vm_ok vm F → regions vm !! p = Some x → (∀ i, range b num i → page_in x i) →
  sb s (taken (λ n, F n ∧ page_in x n) b num) →
  vm_ok (with_unused vm p x s) (taken F b num).
Proof.
  intros Hok Hx Hrun Hs.
  split; try (by apply Hok).
  - apply index_layout; [|apply Hok]. intros q. by apply (with_unused_layout vm p x s).
  - intros q y Hy. destruct (with_unused_regions vm p x s q y Hx Hy) as (y' & Hy' & Hl & _).
    apply layout_facts in Hl as (-> & -> & _). by apply (vo_small vm F Hok q).
  - intros q y Hy. destruct (with_unused_regions vm p x s q y Hx Hy)
      as (y' & Hy' & Hl & [[-> ->]|[Hne ->]]).
    + eapply sb_ext; [|exact Hs]. intros i. unfold taken.
      assert (page_in (set_unused s x) i ↔ page_in x i) as -> by (by apply layout_page_in).
      tauto.
    + eapply sb_ext; [|by apply (vo_pages vm F Hok q)]. intros i. unfold taken. split; [|tauto].
      intros [HF Hin]. split_and!; [done| |done]. intros Hr%Hrun. apply Hne.
      by eapply (page_unique vm F q p).
  - intros t s' Ht. destruct (vo_slots vm F Hok t s' Ht) as (q & y & Hy & Hsl).
    pose proof (with_unused_layout vm p x s q Hx) as Hlay. rewrite Hy in Hlay.
    destruct (regions (with_unused vm p x s) !! q) as [z|] eqn:Hz; [|done].
    injection Hlay as Hr Hh. exists q, z. split; [done|]. unfold r_slot in *. by rewrite Hr.
Qed.
Lemma with_unused_in_slot vm p x s t n :
  regions vm !! p = Some x → in_slot (with_unused vm p x s) t n ↔ in_slot vm t n.
Proof.
  intros Hx. split.
  - intros (q & y & Hy & Hs & Hn).
    destruct (with_unused_regions vm p x s q y Hx Hy) as (y' & Hy' & Hl & _).
    exists q, y'. rewrite (layout_page_in y y') in Hn by done.
    apply layout_facts in Hl as (_ & _ & Hsl & _). by rewrite <-Hsl.
  - intros (q & y & Hy & Hs & Hn). pose proof (with_unused_layout vm p x s q Hx) as Hlay.
    rewrite Hy in Hlay. destruct (regions (with_unused vm p x s) !! q) as [z|] eqn:Hz; [|done].
    injection Hlay as Hr Hh. assert (layout z = layout y) as Hl by (unfold layout; by rewrite Hr, Hh).
    exists q, z. rewrite (layout_page_in z y) by done. apply layout_facts in Hl as (_ & _ & -> & _).
    done.
Qed.

(** ** Allocating pages under the invariant *)
Lemma phy_alloc_vm vm F num paddr_min t s :
  vm_ok vm F → memslots vm !! t = Some s → 0 < num < 2 ^ 63 → 0 ≤ paddr_min < 2 ^ 64 →
  paddr_min mod 4096 = 0 →
  let P n := F n ∧ in_slot vm s n in
  (∃ b p x u, lowest_run P (paddr_min / 4096) num b ∧ regions vm !! p = Some x ∧ r_slot x = s ∧
    (∀ i, range b num i → page_in x i) ∧ vm_ok (with_unused vm p x u) (taken F b num) ∧
    vm_phy_pages_alloc num paddr_min s vm = Done (b * 4096, with_unused vm p x u)) ∨
  (vm_phy_pages_alloc num paddr_min s vm = Abort ∧ ∀ k, paddr_min / 4096 ≤ k → ¬ run P k num).
Proof.
  intros Hok Ht Hn Hmin Hmod P. destruct (vo_slots vm F Hok t s Ht) as (p & x & Hx & Hs).
  set (Px n := F n ∧ page_in x n).
  assert (∀ i, P i ↔ Px i) as HP.
  { intros i. unfold P, Px. split.
    - intros [HF (q & y & Hy & Hsy & Hi)]. split; [done|].
      assert (q = p) as -> by (eapply (ix_slot_inj vm (vo_index vm F Hok)); [done..|congruence]).
      by simplify_eq.
    - intros [HF Hi]. split; [done|]. by exists p, x. }
  assert (∀ k, run P k num ↔ run Px k num) as Hrun.
  { intros k. unfold run. by setoid_rewrite HP. }
  assert (∀ i, Px i → 0 ≤ i < 2 ^ 40) as HPr.
  { intros i [_ Hi]. apply (page_range vm F); [done|]. by exists p, x. }
  pose proof (vo_page_size vm F Hok) as Hps.
  destruct (phy_pages_alloc_result vm p x Px num paddr_min s) as [(b & u & Hlow & Hu & Hrun')|[Hab Hno]];
    try done; try apply Hok; rewrite ?Hps; try done.
  - by eapply vm_ok_params.
  - by apply (vo_pages vm F Hok p).
  - intros i Hi%HPr. lia.
  - lia.
  - lia.
  - assert (paddr_min / 4096 < 2 ^ 52) by (apply Z.div_lt_upper_bound; lia). lia.
  - left. destruct Hlow as (Hlo & Hyes & Hlow). rewrite Hps in *. exists b, p, x, u.
    assert (Px b) as HPb by (apply Hyes; unfold range; lia). pose proof (HPr b HPb).
    assert (∀ i, range b num i → page_in x i) as Hin by (intros i Hi; by apply Hyes).
    split_and!; try done.
    + split_and!; [done|by apply Hrun|]. intros k Hk. rewrite Hrun. by apply Hlow.
    + by apply vm_ok_taken.
    + rewrite Hrun'. rewrite u64_small by (unfold in_u64; lia). done.
  - right. split; [done|]. intros k Hk. rewrite Hrun. apply Hno. by rewrite Hps.
Qed.

(** [F'] are the pages of [F] less at most [k] of them. *)
Definition lost F F' (k : Z) : Prop :=
  (∀ m, F' m → F m) ∧ ∃ l, Z.of_nat (length l) ≤ k ∧ ∀ m, F m → F' m ∨ m ∈ l.
Lemma lost_refl F k : 0 ≤ k → lost F F k.
Proof. intros. split; [done|]. exists []. auto. Qed.
Lemma lost_trans F1 F2 F3 k k' : lost F1 F2 k → lost F2 F3 k' → lost F1 F3 (k + k').
Proof.
  intros [H1 (l & Hl & H2)] [H3 (l' & Hl' & H4)]. split; [auto|]. exists (l ++ l').
  rewrite length_app. split; [lia|]. intros m Hm. rewrite elem_of_app.
  destruct (H2 m Hm) as [Hm'|]; [|auto]. destruct (H4 m Hm'); auto.
Qed.
Lemma lost_weaken F F' k k' : k ≤ k' → lost F F' k → lost F F' k'.
Proof. intros Hk [H1 (l & Hl & H2)]. split; [done|]. exists l. split; [lia|done]. Qed.
Lemma lost_taken F b num : 0 ≤ num → lost F (taken F b num) num.
Proof.
  intros Hn. split; [by intros m [? _]|]. exists (seqZ b num). rewrite length_seqZ. split; [lia|].
  intros m Hm. rewrite elem_of_seqZ. unfold taken, range. destruct (decide (b ≤ m < b + num)); [by right|].
  by left.
Qed.

(** At least [m] pages are left for page tables. *)
Definition avail vm F (m : nat) : Prop :=
  ∃ s l, memslots vm !! MEM_REGION_PT = Some s ∧ NoDup l ∧ length l = m ∧
    ∀ i, i ∈ l → F i ∧ in_slot vm s i ∧ 384 ≤ i.
Lemma avail_taken vm F p x u n m :
  regions vm !! p = Some x → avail vm F (S m) → avail (with_unused vm p x u) (taken F n 1) m.
Proof.
  intros Hx (s & l & Hs & Hnd & Hlen & Hl).
  assert (∃ l', NoDup l' ∧ length l' = m ∧ (∀ i, i ∈ l' → i ∈ l ∧ i ≠ n)) as (l' & Hnd' & Hlen' & Hl').
  { destruct (decide (n ∈ l)) as [[l' Hl']%elem_of_Permutation|Hn].
    - rewrite Hl' in Hnd, Hlen. apply NoDup_cons in Hnd as [Hn Hnd]. simpl in Hlen.
      exists l'. split_and!; [done|lia|]. intros i Hi. rewrite Hl'. set_solver.
    - destruct l as [|a l]; [done|]. exists l. apply NoDup_cons in Hnd as [Ha Hnd].
      simpl in Hlen. split_and!; [done|lia|set_solver]. }
  exists s, l'. split_and!; try done. intros i [Hi Hne]%Hl'. destruct (Hl i Hi) as (HF & Hin & ?).
  rewrite with_unused_in_slot by done. split_and!; try done. split; [done|]. unfold range. lia.
Qed.
Lemma cwp_alloc_table b vm F m (Φ : Z → kvm_vm → Prop) :
  vm_ok vm F → (b → avail vm F (S m)) →
  (∀ n p x u, F n → regions vm !! p = Some x → page_in x n →
    vm_ok (with_unused vm p x u) (taken F n 1) →
    (b → avail (with_unused vm p x u) (taken F n 1) m) → Φ (n * 4096) (with_unused vm p x u)) →
  cwp b vm_alloc_page_table Φ vm.
Proof.
  intros Hok Hav HΦ. unfold vm_alloc_page_table, memslot_of. cwps.
  pose proof (vo_memslots vm F Hok) as Hlen.
  destruct (memslots vm !! MEM_REGION_PT) as [s|] eqn:Hs;
    [|apply lookup_ge_None in Hs; rewrite Hlen in Hs; unfold MEM_REGION_PT in Hs; lia].
  apply cwp_lift; [done..|]. intros ? [= <-]. unfold vm_phy_page_alloc.
  destruct (phy_alloc_vm vm F 1 KVM_GUEST_PAGE_TABLE_MIN_PADDR MEM_REGION_PT s)
    as [(n & p & x & u & Hlow & Hx & Hsl & Hin & Hok' & Hrun)|[Hab Hno]]; try done.
  - unfold cwp. rewrite Hrun. destruct Hlow as (_ & Hyes & _). apply HΦ; try done.
    + apply (Hyes n). unfold range. lia.
    + apply Hin. unfold range. lia.
    + intros Hb. by apply avail_taken, Hav.
  - unfold cwp. rewrite Hab. intros (s' & [|i l] & Hs' & _ & Hl & Hi)%Hav; [done|].
    rewrite Hs in Hs'. injection Hs' as <-. destruct (Hi i) as (HF & Hin & ?); [by left|].
    apply (Hno i); [by change (KVM_GUEST_PAGE_TABLE_MIN_PADDR / 4096) with 384|]. intros j Hj. unfold range in Hj.
    by replace j with i by lia.
Qed.
End state.
