(* ===== verification/KvmTables.v ===== *)
(** * selftests: what the page tables in memory represent

    The tables of a VM are a finite map [T] from (level, prefix of the address)
    to the number of the page that holds the table, and its mappings a map [L]
    from (level, prefix) to a physical address. [entry T L] is the word each
    entry must then hold; [tables] says that memory holds exactly these words
    and that unused pages are zero. *)

From S2P Require Import Prelude Sparsebit SparsebitOps SparsebitTree SparsebitRange SparsebitQuery.
From S2P Require Import SparsebitRuns SparsebitSpec.
From S2P Require Import KvmUtil KvmPageTable KvmRegions KvmRegionAdd KvmPages KvmState.

Implicit Types (vm : kvm_vm) (x y : userspace_mem_region) (F : Z → Prop).
Implicit Types (T L : gmap (Z * Z) Z) (n i j k h q c : Z).

(** ** Words with a page number and low bits *)
Lemma page_bit q c i :
  0 ≤ c < 4096 → 0 ≤ i →
  Z.testbit (q * 4096 + c) i = if decide (i < 12) then Z.testbit c i else Z.testbit q (i - 12).
Proof.
  intros Hc Hi. change 4096 with (2 ^ 12) in *. case_decide.
  - rewrite <-(Z.mod_pow2_bits_low (q * 2 ^ 12 + c) 12 i) by lia.
    rewrite Z.add_comm, Z_mod_plus_full, Z.mod_small by lia. done.
  - replace i with (i - 12 + 12) at 1 by lia. rewrite <-Z.div_pow2_bits by lia.
    rewrite Z.div_add_l, (Z.div_small c), Z.add_0_r by lia. done.
Qed.
Lemma page_low_bits c i : 0 ≤ c < 4096 → 12 ≤ i → Z.testbit c i = false.
Proof.
  intros Hc Hi. destruct (decide (c = 0)) as [->|]; [by rewrite Z.bits_0|].
  apply Z.bits_above_log2; [lia|]. assert (Z.log2 c < 12); [|lia]. apply Z.log2_lt_pow2; lia.
Qed.
Lemma land_low q c m : 0 ≤ c < 4096 → 0 ≤ m < 4096 → Z.land (q * 4096 + c) m = Z.land c m.
Proof.
  intros Hc Hm. apply Z.bits_inj'. intros i Hi. rewrite !Z.land_spec, page_bit by done.
  case_decide; [done|]. rewrite (page_low_bits m i) by lia. by rewrite !andb_false_r.
Qed.
Lemma bool_decide_ext_ltb (a b : Z) (Q : Prop) `{!Decision Q} : (Q ↔ a < b) → bool_decide Q = (a <? b).
Proof. intros HQ. destruct (Z.ltb_spec a b); [apply bool_decide_eq_true|apply bool_decide_eq_false]; rewrite HQ; lia. Qed.
Lemma mask_bit i : 0 ≤ i → Z.testbit PHYSICAL_PAGE_MASK i = bool_decide (12 ≤ i < 52).
Proof.
  intros Hi. change PHYSICAL_PAGE_MASK with ((2 ^ 40 - 1) * 4096 + 0). rewrite page_bit by lia.
  case_decide; [by rewrite Z.bits_0, bool_decide_eq_false_2 by lia|].
  change (2 ^ 40 - 1) with (Z.ones 40). rewrite Z.testbit_ones_nonneg by lia.
  symmetry. apply bool_decide_ext_ltb. lia.
Qed.
Lemma pa_of q c : 0 ≤ c < 4096 → 0 ≤ q < 2 ^ 40 → PTE_GET_PA (q * 4096 + c) = q * 4096.
Proof.
  intros Hc Hq. apply Z.bits_inj'. intros i Hi. unfold PTE_GET_PA.
  rewrite Z.land_spec, mask_bit, page_bit by done. rewrite <-(Z.add_0_r (q * 4096)), page_bit by lia.
  case_decide; [by rewrite Z.bits_0, bool_decide_eq_false_2, andb_false_r by lia|].
  case_bool_decide; [by rewrite andb_true_r|]. rewrite andb_false_r. symmetry.
  destruct (decide (q = 0)) as [->|]; [by rewrite Z.bits_0|].
  apply Z.bits_above_log2; [lia|]. assert (Z.log2 q < 40); [|lia]. apply Z.log2_lt_pow2; lia.
Qed.
Lemma lor_low q c : 0 ≤ c < 4096 → Z.lor c (q * 4096) = q * 4096 + c.
Proof.
  intros Hc. apply Z.bits_inj'. intros i Hi. rewrite Z.lor_spec, page_bit by done.
  rewrite <-(Z.add_0_r (q * 4096)), page_bit by lia. case_decide.
  - by rewrite Z.bits_0, orb_false_r.
  - by rewrite page_low_bits by lia.
Qed.
Lemma has_low q c m : 0 ≤ c < 4096 → 0 ≤ m < 4096 → has_mask (q * 4096 + c) m = negb (Z.land c m =? 0).
Proof. intros. unfold has_mask. by rewrite land_low. Qed.

Lemma has_present q c :
  0 ≤ c < 4096 → has_mask (q * 4096 + c) PTE_PRESENT_MASK = negb (Z.land c 1 =? 0).
Proof. intros. by apply has_low. Qed.
Lemma has_large q c :
  0 ≤ c < 4096 → has_mask (q * 4096 + c) PTE_LARGE_MASK = negb (Z.land c 128 =? 0).
Proof. intros. by apply has_low. Qed.

(** ** Levels and indices *)
Definition lsize k : Z := 2 ^ (12 + 9 * (k - 1)).
Definition idx k (v : Z) : Z := v / lsize k.
Lemma lsize_pos k : 1 ≤ k → 0 < lsize k.
Proof. intros. apply Z.pow_pos_nonneg; lia. Qed.
Lemma lsize_succ k : 1 ≤ k → lsize (k + 1) = lsize k * 512.
Proof.
  intros. unfold lsize. change 512 with (2 ^ 9). rewrite <-Z.pow_add_r by lia. f_equal. lia.
Qed.
Lemma level_size k : 1 ≤ k ≤ 4 → PG_LEVEL_SIZE k = lsize k.
Proof.
  intros Hk. assert (k = 1 ∨ k = 2 ∨ k = 3 ∨ k = 4) as [-> |[-> |[-> | ->]]] by lia; reflexivity.
Qed.
Lemma idx_succ k v : 1 ≤ k → idx (k + 1) v = idx k v / 512.
Proof. intros. unfold idx. rewrite lsize_succ, Z.div_div; [done|..]; pose proof (lsize_pos k); lia. Qed.
Lemma idx_5 v : 0 ≤ v < 2 ^ 48 → idx 5 v = 0.
Proof. intros. unfold idx. by apply Z.div_small. Qed.
Lemma idx_nonneg k v : 1 ≤ k → 0 ≤ v → 0 ≤ idx k v.
Proof. intros. apply Z.div_pos; [done|]. by apply lsize_pos. Qed.
(** The part of an address that is translated. *)
Definition low48 (vaddr : Z) : Z := vaddr mod 2 ^ 48.
Lemma pte_index_idx vaddr k : 0 ≤ vaddr → 1 ≤ k ≤ 4 → pte_index vaddr k = idx k (low48 vaddr) mod 512.
Proof.
  intros Hv Hk. unfold pte_index, idx, lsize, low48, PG_LEVEL_SHIFT.
  change 0x1ff with (Z.ones 9). change 512 with (2 ^ 9). rewrite Z.land_ones, Z.shiftr_div_pow2 by lia.
  replace ((k - 1) * 9 + 12) with (12 + 9 * (k - 1)) by lia.
  apply Z.bits_inj'. intros i Hi. destruct (decide (i < 9)).
  - rewrite !Z.mod_pow2_bits_low, !Z.div_pow2_bits by lia. by rewrite Z.mod_pow2_bits_low by lia.
  - by rewrite !Z.mod_pow2_bits_high by lia.
Qed.

(** ** Words of pages in host memory *)
(** [h] is the host address of word [i] of page [n]. *)
Definition word_loc vm n i h : Prop :=
  ∃ p x, regions vm !! p = Some x ∧ page_in x n ∧ h = host_mem x + (n * 4096 - r_start x) + 8 * i.
Section words.
Context `{!KernelTools}.

Lemma word_located vm n i h :
  0 ≤ i < 512 → word_loc vm n i h → located vm (n * 4096 + 8 * i) h.
Proof.
  intros Hi (p & x & Hx & Hn & ->). exists p, x. unfold contains, page_in in *. split_and!; [done|lia..].
Qed.
Lemma word_fun vm n i h h' :
  index_ok vm → 0 ≤ i < 512 → word_loc vm n i h → word_loc vm n i h' → h = h'.
Proof. intros Hi ? H1%word_located H2%word_located; [|done..]. by eapply located_fun. Qed.
Lemma word_inj vm n i n' i' h :
  index_ok vm → 0 ≤ i < 512 → 0 ≤ i' < 512 → word_loc vm n i h → word_loc vm n' i' h →
  n = n' ∧ i = i'.
Proof.
  intros Hi ? ? H1%word_located H2%word_located; [|done..].
  assert (n * 4096 + 8 * i = n' * 4096 + 8 * i') by (by eapply located_inj). lia.
Qed.
Lemma word_mapped vm n i h :
  index_ok vm → 0 ≤ i < 512 → word_loc vm n i h → is_mapped vm h = true ∧ in_u64 h.
Proof.
  intros Hi ? (p & x & Hx & Hn & ->). pose proof (ix_wf vm Hi p x Hx) as (? & ? & ? & ? & ?).
  unfold page_in in Hn. split; [|unfold in_u64; lia]. unfold is_mapped. apply existsb_exists.
  exists (p, x). split; [apply list_elem_of_In; by apply elem_of_map_to_list|].
  unfold in_region. simpl. fold (r_size x). rewrite andb_true_iff, !Z.leb_le. lia.
Qed.
Lemma word_exists vm n i : in_some vm n → ∃ h, word_loc vm n i h.
Proof. intros (p & x & Hx & Hn). eexists. by exists p, x. Qed.
Lemma word_page vm n i h : word_loc vm n i h → in_some vm n.
Proof. intros (p & x & Hx & Hn & _). by exists p, x. Qed.
Lemma with_unused_word vm p x s n i h :
  regions vm !! p = Some x → word_loc (with_unused vm p x s) n i h ↔ word_loc vm n i h.
Proof.
  intros Hx. split.
  - intros (q & y & Hy & Hn & ->).
    destruct (with_unused_regions vm p x s q y Hx Hy) as (y' & Hy' & Hl & _). exists q, y'.
    rewrite (layout_page_in y y') in Hn by done. apply layout_facts in Hl as (-> & _ & _ & ->). done.
  - intros (q & y & Hy & Hn & ->). pose proof (with_unused_layout vm p x s q Hx) as Hlay.
    rewrite Hy in Hlay. destruct (regions (with_unused vm p x s) !! q) as [z|] eqn:Hz; [|done].
    injection Hlay as Hr Hh. assert (layout z = layout y) as Hl by (unfold layout; by rewrite Hr, Hh).
    exists q, z. rewrite (layout_page_in z y) by done. apply layout_facts in Hl as (-> & _ & _ & ->). done.
Qed.
Lemma wp_read_word vm n i h (Φ : Z → kvm_vm → Prop) :
  index_ok vm → 0 ≤ i < 512 → word_loc vm n i h → Φ (word_at vm h) vm → wp (read_pte (Word h)) Φ vm.
Proof. intros Hi ? Hw HΦ. unfold wp, read_pte. by rewrite (proj1 (word_mapped vm n i h Hi H0 Hw)). Qed.
Lemma wp_write_word vm n i h v (Φ : unit → kvm_vm → Prop) :
  index_ok vm → 0 ≤ i < 512 → word_loc vm n i h → Φ tt (with_hmem vm (<[h := v]> (hmem vm))) →
  wp (write_pte (Word h) v) Φ vm.
Proof. intros Hi ? Hw HΦ. unfold wp, write_pte. by rewrite (proj1 (word_mapped vm n i h Hi H0 Hw)). Qed.
End words.

(** ** Shape *)
Record shape_ok T L : Prop := {
  sh_tab k j n : T !! (k, j) = Some n →
    1 ≤ k ≤ 4 ∧ 0 ≤ j ∧ 0 ≤ n < 2 ^ 40 ∧ (k < 4 → is_Some (T !! (k + 1, j / 512)));
  sh_inj a b n : T !! a = Some n → T !! b = Some n → a = b;
  sh_leaf k j pa : L !! (k, j) = Some pa →
    1 ≤ k ≤ 4 ∧ 0 ≤ j ∧ pa mod lsize k = 0 ∧ 0 ≤ pa < 2 ^ 52 ∧ is_Some (T !! (k, j / 512)) ∧
    T !! (k - 1, j) = None
}.
(** The word of the entry of a table of level [k] for the prefix [j]. *)
Definition leaf_bits k : Z := if k =? 1 then 3 else 131.
Definition entry T L k j : Z :=
  match T !! (k - 1, j) with
  | Some n => n * 4096 + 3
  | None => match L !! (k, j) with Some pa => pa + leaf_bits k | None => 0 end
  end.
Lemma shape_add_table T L k j n m :
  shape_ok T L → T !! (k, j / 512) = Some m → 2 ≤ k ≤ 4 → 0 ≤ j → T !! (k - 1, j) = None →
  L !! (k, j) = None → 0 ≤ n < 2 ^ 40 → (∀ a, T !! a ≠ Some n) →
  shape_ok (<[(k - 1, j) := n]> T) L.
Proof.
  intros Hs Hp Hk Hj HT HL Hn Hfresh. split.
  - intros k' j' n' [[[= <- <-] <-]|[Hne Hn']]%lookup_insert_Some.
    + split_and!; try lia. intros _. rewrite lookup_insert_is_Some. destruct (decide ((k - 1, j) = (k - 1 + 1, j / 512))); [by left|].
      right. split; [done|]. replace (k - 1 + 1) with k by lia. eauto.
    + destruct (sh_tab T L Hs k' j' n' Hn') as (? & ? & ? & Hpar). split_and!; try lia.
      intros ?. apply lookup_insert_is_Some'. right. auto.
  - intros a b n' [[<- <-]|[_ Ha]]%lookup_insert_Some [[<- Hb]|[_ Hb]]%lookup_insert_Some; try done.
    + by apply Hfresh in Hb.
    + subst. by apply Hfresh in Ha.
    + by eapply sh_inj.
  - intros k' j' pa Hpa. destruct (sh_leaf T L Hs k' j' pa Hpa) as (? & ? & ? & ? & Hpar & Hno).
    split_and!; try lia.
    + apply lookup_insert_is_Some'. by right.
    + rewrite lookup_insert_ne; [done|]. intros [= Hk' <-]. assert (k' = k) as -> by lia. congruence.
Qed.
Lemma shape_add_leaf T L k j pa m :
  shape_ok T L → T !! (k, j / 512) = Some m → 0 ≤ j → T !! (k - 1, j) = None →
  pa mod lsize k = 0 → 0 ≤ pa < 2 ^ 52 → shape_ok T (<[(k, j) := pa]> L).
Proof.
  intros Hs Hp Hj HT Hmod Hpa. split; [by apply (sh_tab T L)|by apply (sh_inj T L)|].
  intros k' j' pa' [[[= <- <-] <-]|[Hne Hn']]%lookup_insert_Some; [|by apply (sh_leaf T L)].
  destruct (sh_tab T L Hs _ _ _ Hp) as (? & _). split_and!; eauto; lia.
Qed.
Lemma entry_below T L k j :
  shape_ok T L → k ≤ 4 → T !! (k, j / 512) = None → entry T L k j = 0.
Proof.
  intros Hs Hk HT. unfold entry. destruct (T !! (k - 1, j)) as [n|] eqn:Hn.
  - destruct (sh_tab T L Hs _ _ _ Hn) as (? & ? & ? & Hpar). replace (k - 1 + 1) with k in Hpar by lia.
    destruct (decide (k - 1 < 4)) as [Hlt|]; [|lia]. destruct (Hpar Hlt) as [? ?]. congruence.
  - destruct (L !! (k, j)) as [pa|] eqn:Hpa; [|done].
    destruct (sh_leaf T L Hs _ _ _ Hpa) as (_ & _ & _ & _ & [? ?] & _). congruence.
Qed.

(** ** Memory *)
Record mem_ok vm T L F : Prop := {
  me_entry k j n i : T !! (k, j) = Some n → 0 ≤ i < 512 →
    ∃ h, word_loc vm n i h ∧ word_at vm h = entry T L k (j * 512 + i);
  me_zero n i h : F n → 0 ≤ i < 512 → word_loc vm n i h → word_at vm h = 0;
  me_used a n : T !! a = Some n → ¬ F n
}.
Record tables `{!KernelTools} vm T L F : Prop := {
  ta_vm : vm_ok vm F;
  ta_shape : shape_ok T L;
  ta_mem : mem_ok vm T L F;
  ta_created : pgd_created vm = true;
  ta_root : ∃ n, T !! (4, 0) = Some n ∧ pgd vm = n * 4096
}.
