(* ===== verification/KvmWalk.v ===== *)
(** * selftests: building and walking the page tables

    Each step of [__virt_pg_map] keeps the representation of [KvmTables] and
    adds the table or the mapping it should; walking the tables finds what the
    map of mappings says. *)

From S2P Require Import Prelude Sparsebit SparsebitOps SparsebitTree SparsebitRange SparsebitQuery.
From S2P Require Import SparsebitRuns SparsebitSpec.
From S2P Require Import KvmUtil KvmPageTable KvmRegions KvmRegionAdd KvmPages KvmState KvmTables.

Implicit Types (vm : kvm_vm) (x y : userspace_mem_region) (F : Z → Prop).
Implicit Types (T L : gmap (Z * Z) Z) (n i j k h c v : Z) (q : pte_ptr).

Section walk.
Context `{!KernelTools}.

(** ** Frames *)
Lemma index_same vm vm' :
  gpa_tree vm' = gpa_tree vm → hva_tree vm' = hva_tree vm → slot_hash vm' = slot_hash vm →
  regions vm' = regions vm → next_region vm' = next_region vm → index_ok vm → index_ok vm'.
Proof.
  intros Hg Hh Hs Hr Hn Hi. split; unfold possible; rewrite ?Hg, ?Hh, ?Hs, ?Hr, ?Hn; apply Hi.
Qed.
(** [vm'] differs from [vm] only in memory, the root and the virtual pages. *)
Record same_memory_map vm vm' : Prop := {
  sm_mode : mode vm' = mode vm;
  sm_size : page_size vm' = page_size vm;
  sm_shift : page_shift vm' = page_shift vm;
  sm_gfn : max_gfn vm' = max_gfn vm;
  sm_gpa : gpa_tree vm' = gpa_tree vm;
  sm_hva : hva_tree vm' = hva_tree vm;
  sm_slot : slot_hash vm' = slot_hash vm;
  sm_regions : regions vm' = regions vm;
  sm_next : next_region vm' = next_region vm;
  sm_memslots : memslots vm' = memslots vm
}.
Lemma same_hmem vm m : same_memory_map vm (with_hmem vm m).
Proof. by split. Qed.
Lemma same_pgd vm b p : same_memory_map vm (with_pgd vm b p).
Proof. by split. Qed.
Lemma same_vpages vm s s' : same_memory_map vm (with_vpages vm s s').
Proof. by split. Qed.
Lemma vm_ok_same vm vm' F : same_memory_map vm vm' → vm_ok vm F → vm_ok vm' F.
Proof.
  intros [Hm Hz Hsh Hg H1 H2 H3 Hr Hn Hms] Hok.
  split; rewrite ?Hm, ?Hz, ?Hsh, ?Hg, ?Hr, ?Hms; try apply Hok.
  - eapply index_same; [done..|]. apply Hok.
  - intros p x. rewrite Hr. by apply (vo_pages vm F Hok).
Qed.
Lemma word_same vm vm' n i h :
  regions vm' = regions vm → word_loc vm' n i h ↔ word_loc vm n i h.
Proof. intros Hr. unfold word_loc. by rewrite Hr. Qed.
Lemma avail_same vm vm' F m : same_memory_map vm vm' → avail vm F m → avail vm' F m.
Proof.
  intros [_ _ _ _ _ _ _ Hr _ Hms]. unfold avail, in_slot. rewrite Hr, Hms. done.
Qed.
Lemma word_at_write vm h h' v :
  word_at (with_hmem vm (<[h := v]> (hmem vm))) h' = if decide (h' = h) then v else word_at vm h'.
Proof.
  unfold word_at. simpl. case_decide; subst.
  - by rewrite fin_maps.lookup_insert, decide_True.
  - by rewrite lookup_insert_ne.
Qed.

(** ** Writing an entry *)
Lemma key_split j : j = j / 512 * 512 + j mod 512 ∧ 0 ≤ j mod 512 < 512.
Proof. pose proof (Z.div_mod j 512). pose proof (Z.mod_pos_bound j 512). lia. Qed.
Lemma key_join j i : 0 ≤ i < 512 → (j * 512 + i) / 512 = j ∧ (j * 512 + i) mod 512 = i.
Proof.
  intros Hi. split; [rewrite Z.div_add_l, Z.div_small; lia|].
  by rewrite Z.add_comm, Z_mod_plus_full, Z.mod_small by lia.
Qed.

(** The entry for [(k, j)] was written at [h], in the memory of [vm1] whose
    layout is that of [vm]; [T'] may have a new table in a page of [F]. *)
Lemma mem_write vm vm1 T L F T' L' F' k j n h v :
  index_ok vm → shape_ok T L → mem_ok vm T L F →
  (∀ n i h, word_loc vm1 n i h ↔ word_loc vm n i h) →
  (∀ h', word_at vm1 h' = if decide (h' = h) then v else word_at vm h') →
  T !! (k, j / 512) = Some n → word_loc vm n (j mod 512) h → entry T' L' k j = v →
  (∀ a n', T' !! a = Some n' → T !! a = Some n' ∨
    (F n' ∧ ∀ i, 0 ≤ i < 512 → entry T' L' a.1 (a.2 * 512 + i) = 0)) →
  (∀ k' j', T !! (k', j' / 512) ≠ None → (k', j') ≠ (k, j) → entry T' L' k' j' = entry T L k' j') →
  (∀ n', F' n' → F n') → (∀ a n', T' !! a = Some n' → ¬ F' n') →
  (∀ a n', T' !! a = Some n' → F n' → in_some vm n') →
  mem_ok vm1 T' L' F'.
Proof.
  intros Hi Hs Hm Hloc Hat Hn Hw Hv HT' Hsame HF Hused Hsome.
  destruct (key_split j) as [Hj Hjm].
  assert (∀ n' i' h', F n' → 0 ≤ i' < 512 → word_loc vm n' i' h' → h' ≠ h) as Hfree.
  { intros n' i' h' HFn Hi' Hw' ->. destruct (word_inj vm n' i' n (j mod 512) h) as [-> _]; try done.
    by apply (me_used _ _ _ _ Hm _ _ Hn). }
  split.
  - intros k' j' n' i' HTn' Hi'. destruct (HT' _ _ HTn') as [Hold|[HFn Hzero]].
    + destruct (me_entry _ _ _ _ Hm _ _ _ _ Hold Hi') as (h' & Hw' & He). exists h'.
      split; [by apply Hloc|]. rewrite Hat. destruct (key_join j' i' Hi') as [Hd Hmod]. case_decide as Heq.
      * subst h'. destruct (word_inj vm n' i' n (j mod 512) h) as [-> ->]; try done.
        assert ((k', j') = (k, j / 512)) as [= -> ->] by (by eapply sh_inj). by rewrite <-Hj.
      * rewrite He. symmetry. apply Hsame; [rewrite Hd; congruence|]. intros [= -> Hjj].
        apply Heq. rewrite <-Hjj, Hd, Hmod in *. simplify_eq. by eapply word_fun.
    + destruct (word_exists vm n' i') as [h' Hw']; [by apply (Hsome _ _ HTn')|]. exists h'.
      split; [by apply Hloc|]. rewrite Hat, decide_False by (by eapply Hfree).
      rewrite (me_zero _ _ _ _ Hm n' i') by done. symmetry. by apply Hzero.
  - intros n' i' h' HFn Hi' Hw'%Hloc. apply HF in HFn. rewrite Hat, decide_False by (by eapply Hfree).
    by eapply me_zero.
  - done.
Qed.

Lemma tables_leaf vm T L F k j n h pa :
  tables vm T L F → T !! (k, j / 512) = Some n → 0 ≤ j → T !! (k - 1, j) = None →
  word_loc vm n (j mod 512) h → pa mod lsize k = 0 → 0 ≤ pa < 2 ^ 52 →
  tables (with_hmem vm (<[h := pa + leaf_bits k]> (hmem vm))) T (<[(k, j) := pa]> L) F.
Proof.
  intros [Hok Hs Hm Hc Hroot] Hn Hj Hnone Hw Hmod Hpa. split; try done.
  - eapply vm_ok_same; [apply same_hmem|done].
  - by eapply shape_add_leaf.
  - eapply (mem_write vm _ T L F T _ F k j n h (pa + leaf_bits k)); try done; try apply Hok.
    + intros h'. apply word_at_write.
    + unfold entry. by rewrite Hnone, fin_maps.lookup_insert, decide_True.
    + intros a n' Ha. by left.
    + intros k' j' _ Hne. unfold entry. rewrite (lookup_insert_ne L); [done|congruence].
    + by apply (me_used _ _ _ _ Hm).
    + intros a n' Ha HF. by destruct (me_used _ _ _ _ Hm _ _ Ha).
Qed.
Lemma taken_one F n m : taken F n 1 m ↔ F m ∧ m ≠ n.
Proof. unfold taken, range. intuition lia. Qed.
Lemma tables_table vm T L F k j n h p x u n' :
  tables vm T L F → 2 ≤ k ≤ 4 → T !! (k, j / 512) = Some n → 0 ≤ j → T !! (k - 1, j) = None →
  L !! (k, j) = None → word_loc vm n (j mod 512) h →
  F n' → regions vm !! p = Some x → page_in x n' → vm_ok (with_unused vm p x u) (taken F n' 1) →
  tables (with_hmem (with_unused vm p x u) (<[h := n' * 4096 + 3]> (hmem vm)))
    (<[(k - 1, j) := n']> T) L (taken F n' 1).
Proof.
  intros [Hok Hs Hm Hc (n0 & Hn0 & Hpgd)] Hk Hn Hj HT HL Hw HF Hx Hp Hok'.
  assert (in_some vm n') as Hin by (by exists p, x).
  assert (∀ a, T !! a ≠ Some n') as Hfresh.
  { intros a Ha. by apply (me_used _ _ _ _ Hm _ _ Ha). }
  assert (shape_ok (<[(k - 1, j) := n']> T) L) as Hs'.
  { eapply shape_add_table; try done. by apply (page_range vm F). }
  assert (∀ k' j', (k', j') ≠ (k, j) → entry (<[(k - 1, j) := n']> T) L k' j' = entry T L k' j')
    as Hsame.
  { intros k' j' Hne. unfold entry. rewrite lookup_insert_ne; [done|]. intros [= Hk' ->].
    apply Hne. f_equal. lia. }
  split; try done.
  - eapply vm_ok_same; [apply same_hmem|done].
  - eapply (mem_write vm _ T L F _ L (taken F n' 1) k j n h (n' * 4096 + 3)); try done; try apply Hok.
    + intros n1 i1 h1. rewrite word_same by done. by apply with_unused_word.
    + intros h'. unfold word_at. simpl. case_decide; subst.
      * by rewrite fin_maps.lookup_insert, decide_True.
      * by rewrite lookup_insert_ne.
    + unfold entry. by rewrite fin_maps.lookup_insert, decide_True.
    + intros [k' j'] n1 [[[= <- <-] <-]|[_ Ha]]%lookup_insert_Some; [right|by left].
      split; [done|]. intros i Hi. simpl. destruct (key_join j i Hi) as [Hd _].
      rewrite Hsame by (intros [= ? ?]; lia). apply entry_below; [done|lia|]. by rewrite Hd.
    + auto.
    + by intros n1 [? _]%taken_one.
    + intros a n1 [[_ <-]|[_ Ha]]%lookup_insert_Some [HF1 Hne]%taken_one; [done|].
      by apply (me_used _ _ _ _ Hm _ _ Ha).
    + intros a n1 [[_ <-]|[_ Ha]]%lookup_insert_Some HF1; [done|].
      by destruct (me_used _ _ _ _ Hm _ _ Ha).
  - exists n0. split; [|done]. rewrite lookup_insert_ne; [done|]. intros [= ? ?]. lia.
Qed.

(** ** One level down *)
(** The entry [q] points to leads to the table in page [n]. *)
Definition leads vm (q : pte_ptr) n : Prop :=
  match q with
  | Pgd => pgd vm = n * 4096
  | Word h => ∃ m i, 0 ≤ i < 512 ∧ word_loc vm m i h ∧ word_at vm h = n * 4096 + 3
  end.
Lemma wp_read_leads vm q n (Φ : Z → kvm_vm → Prop) :
  index_ok vm → leads vm q n →
  (∀ c, 0 ≤ c < 4096 → has_mask (n * 4096 + c) PTE_PRESENT_MASK || is_pgd q = true →
    has_mask (n * 4096 + c) PTE_LARGE_MASK = false → Φ (n * 4096 + c) vm) → wp (read_pte q) Φ vm.
Proof.
  intros Hi Hq HΦ. destruct q as [|h]; simpl in Hq.
  - unfold wp, read_pte. rewrite Hq. rewrite <-(Z.add_0_r (n * 4096)).
    apply HΦ; [lia|by rewrite orb_true_r|by rewrite has_large].
  - destruct Hq as (m & i & ? & Hw & Hv). eapply wp_read_word; [done..|]. rewrite Hv.
    apply HΦ; [lia|by rewrite has_present|by rewrite has_large].
Qed.
Lemma wp_get_pte vm T L F q vaddr k n (Φ : pte_ptr → kvm_vm → Prop) :
  let j := idx k (low48 vaddr) in
  tables vm T L F → leads vm q n → T !! (k, j / 512) = Some n → 1 ≤ k ≤ 4 → 0 ≤ vaddr →
  (∀ h, word_loc vm n (j mod 512) h → word_at vm h = entry T L k j → Φ (Word h) vm) →
  wp (virt_get_pte q vaddr k) Φ vm.
Proof.
  intros j [Hok Hs Hm _ _] Hq Hn Hk Hv HΦ. unfold virt_get_pte. wps.
  pose proof (vo_index _ _ Hok) as Hi. destruct (key_split j) as [Hj Hjm].
  destruct (sh_tab _ _ Hs _ _ _ Hn) as (_ & _ & Hnr & _).
  destruct (me_entry _ _ _ _ Hm _ _ _ _ Hn Hjm) as (h & Hw & He). rewrite <-Hj in He.
  pose proof Hw as (p & x & Hx & Hp & Hh).
  apply (wp_read_leads vm q n); [done..|]. intros c Hc Hpres _. wps. rewrite pa_of by done.
  eapply (wp_gpa2hva vm _ (host_mem x + (n * 4096 - r_start x))); [done| |].
  { exists p, x. split_and!; try done. unfold page_in, contains in *. lia. }
  wps. apply (wp_read_leads vm q n); [done..|]. intros c' Hc' Hpres' _. wps.
  apply owp_assert; [done|]. wps. rewrite pte_index_idx by done. fold j.
  rewrite <-Hh, u64_small by (by eapply word_mapped). by apply HΦ.
Qed.

(** What the mapping of a page leaves alone. *)
Record stable vm vm' : Prop := {
  st_valid : vpages_valid vm' = vpages_valid vm;
  st_mapped : vpages_mapped vm' = vpages_mapped vm;
  st_gfn : max_gfn vm' = max_gfn vm;
  st_memslots : memslots vm' = memslots vm;
  st_layout p : layout <$> regions vm' !! p = layout <$> regions vm !! p
}.
Lemma stable_refl vm : stable vm vm.
Proof. by split. Qed.
Lemma stable_trans vm1 vm2 vm3 : stable vm1 vm2 → stable vm2 vm3 → stable vm1 vm3.
Proof.
  intros [H1 H2 H3 H4 H5] [H1' H2' H3' H4' H5']. split; congruence.
Qed.
Lemma stable_hmem vm m : stable vm (with_hmem vm m).
Proof. by split. Qed.
Lemma stable_unused vm p x s : regions vm !! p = Some x → stable vm (with_unused vm p x s).
Proof. intros Hx. split; try done. intros q. by apply with_unused_layout. Qed.

(** A table below the entry for [(k, j)] of [T]; the tables grow to [T']. *)
Record grown vm T F k j vm' T' F' n : Prop := {
  gr_sub a m : T !! a = Some m → T' !! a = Some m;
  gr_tab : T' !! (k - 1, j) = Some n;
  gr_other a : a ≠ (k - 1, j) → T' !! a = T !! a;
  gr_lost : lost F F' 1;
  gr_stable : stable vm vm';
  gr_created : pgd vm' = pgd vm
}.
Lemma avail_mono vm F m : avail vm F (S m) → avail vm F m.
Proof.
  intros (s & [|a l] & Hs & Hnd & Hl & Hin); [done|]. apply NoDup_cons in Hnd as [_ Hnd].
  exists s, l. split_and!; [done..|by injection Hl|]. intros i Hi. apply Hin. by right.
Qed.
Lemma page_multiple pa k : 1 ≤ k → pa mod lsize k = 0 → pa = pa / 4096 * 4096.
Proof.
  intros Hk Hmod. apply Z.mod_divide in Hmod as [z ->]; [|pose proof (lsize_pos k); lia].
  unfold lsize. rewrite Z.pow_add_r by lia. change (2 ^ 12) with 4096.
  rewrite (Z.mul_comm 4096), Z.mul_assoc, Z.div_mul by lia. done.
Qed.
Lemma leaf_word pa k : 1 ≤ k → pa mod lsize k = 0 → 0 ≤ pa < 2 ^ 52 →
  Z.land pa PHYSICAL_PAGE_MASK = pa ∧ (∀ c, 0 ≤ c < 4096 → Z.lor c pa = pa + c).
Proof.
  intros Hk Hmod Hpa. pose proof (page_multiple pa k Hk Hmod) as Heq.
  assert (0 ≤ pa / 4096 < 2 ^ 40).
  { split; [apply Z.div_pos; lia|apply Z.div_lt_upper_bound; lia]. }
  rewrite Heq. split.
  - rewrite <-(Z.add_0_r (pa / 4096 * 4096)) at 1. by apply pa_of.
  - intros c Hc. by apply lor_low.
Qed.

Lemma wp_read_entry vm T L F k j n h (Φ : Z → kvm_vm → Prop) :
  tables vm T L F → word_loc vm n (j mod 512) h → word_at vm h = entry T L k j →
  Φ (entry T L k j) vm → wp (read_pte (Word h)) Φ vm.
Proof.
  intros Ht Hw He HΦ. rewrite <-He in HΦ. eapply wp_read_word; [apply Ht|apply key_split|done..].
Qed.
Lemma word_write_hit vm h v : word_at (with_hmem vm (<[h := v]> (hmem vm))) h = v.
Proof. by rewrite word_at_write, decide_True. Qed.
Lemma hmem_twice vm h v v' :
  with_hmem (with_hmem vm (<[h := v]> (hmem vm))) (<[h := v']> (<[h := v]> (hmem vm))) =
  with_hmem vm (<[h := v']> (hmem vm)).
Proof. unfold with_hmem. simpl. by rewrite insert_insert_eq. Qed.

(** The entry [h] of the table [n] is free. *)
Definition free_entry vm T L F k j n h : Prop :=
  tables vm T L F ∧ word_loc vm n (j mod 512) h ∧ T !! (k, j / 512) = Some n ∧ 2 ≤ k ≤ 4 ∧ 0 ≤ j ∧
  T !! (k - 1, j) = None ∧ L !! (k, j) = None.
(** A free entry becomes a large page. *)
Lemma cwp_put_leaf b vm T L F k j n h paddr (Φ : unit → kvm_vm → Prop) :
  free_entry vm T L F k j n h → paddr mod lsize k = 0 → 0 ≤ paddr < 2 ^ 52 →
  (∀ vm', tables vm' T (<[(k, j) := paddr]> L) F → stable vm vm' →
    wp (read_pte (Word h)) (λ v w, has_mask v PTE_LARGE_MASK = true ∧ w = vm') vm' → Φ tt vm') →
  cwp b (x ← mret (Z.lor PTE_LARGE_MASK (Z.land paddr PHYSICAL_PAGE_MASK));
         v ← read_pte (Word h); write_pte (Word h) (Z.lor v x)) Φ
    (with_hmem vm (<[h := 3]> (hmem vm))).
Proof.
  intros (Ht & Hw & Hn & Hk & Hj & HT & HL) Hpa Hpr HΦ.
  pose proof (vo_index _ _ (ta_vm _ _ _ _ Ht)) as Hi. destruct (key_split j) as [_ Hjm].
  set (vm1 := with_hmem vm (<[h := 3]> (hmem vm))). cwps.
  apply cwp_wp. eapply (wp_read_word vm1 n (j mod 512)); [by eapply (index_same vm)|done..|].
  unfold vm1 at 1. rewrite word_write_hit. cwps. apply cwp_wp.
  eapply (wp_write_word vm1 n (j mod 512)); [by eapply (index_same vm)|done..|]. cwps.
  destruct (leaf_word paddr k) as [Hland Hlor]; [lia|done|done|].
  rewrite Hland, Z.lor_assoc. change (Z.lor 3 PTE_LARGE_MASK) with 131. rewrite Hlor by lia.
  unfold vm1. cbn [with_hmem hmem]. rewrite hmem_twice.
  assert (tables (with_hmem vm (<[h := paddr + leaf_bits k]> (hmem vm))) T (<[(k, j) := paddr]> L) F) as Ht'
    by (by eapply tables_leaf).
  unfold leaf_bits in Ht'. rewrite (proj2 (Z.eqb_neq k 1)) in Ht' by lia.
  apply HΦ; try done.
  eapply (wp_read_word _ n (j mod 512)); [by eapply (index_same vm)|done..|].
  rewrite word_write_hit. split; [|done]. rewrite (page_multiple paddr k) by (lia || auto).
  by rewrite has_large by lia.
Qed.
(** A free entry gets a new table. *)
Lemma cwp_put_table b vm T L F m k j n h (Φ : unit → kvm_vm → Prop) :
  free_entry vm T L F k j n h → (b → avail vm F (S m)) →
  (∀ n' vm' T' F', tables vm' T' L F' → grown vm T F k j vm' T' F' n' →
    leads vm' (Word h) n' → (b → avail vm' F' m) → Φ tt vm') →
  cwp b (x ← (t ← vm_alloc_page_table; mret (Z.land t PHYSICAL_PAGE_MASK));
         v ← read_pte (Word h); write_pte (Word h) (Z.lor v x)) Φ
    (with_hmem vm (<[h := 3]> (hmem vm))).
Proof.
  intros (Ht & Hw & Hn & Hk & Hj & HT & HL) Hav HΦ.
  pose proof (ta_vm _ _ _ _ Ht) as Hok. destruct (key_split j) as [_ Hjm].
  set (vm1 := with_hmem vm (<[h := 3]> (hmem vm))). cwps. apply (cwp_alloc_table b vm1 F m).
  { eapply vm_ok_same; [apply same_hmem|done]. }
  { intros Hb. eapply avail_same; [apply same_hmem|auto]. }
  intros n' p x u HF Hx Hp Hok' Hav'. cwps. set (vm2 := with_unused vm1 p x u) in *.
  assert (word_loc vm2 n (j mod 512) h) as Hw2 by (by apply with_unused_word).
  destruct (leaf_word (n' * 4096) 1) as [Hland Hlor]; [lia|by apply Z.mod_mul| |].
  { assert (in_some vm n') as Hin by (by exists p, x). pose proof (page_range vm F n' Hok Hin). lia. }
  rewrite Hland. apply cwp_wp. eapply (wp_read_word vm2 n (j mod 512)); [apply Hok'|done..|].
  change (word_at vm2 h) with (word_at vm1 h). unfold vm1 at 1. rewrite word_write_hit. cwps.
  apply cwp_wp. eapply (wp_write_word vm2 n (j mod 512)); [apply Hok'|done..|]. cwps.
  rewrite Hlor by lia.
  assert (with_hmem vm2 (<[h := n' * 4096 + 3]> (hmem vm2)) =
          with_hmem (with_unused vm p x u) (<[h := n' * 4096 + 3]> (hmem vm))) as ->.
  { unfold vm2, vm1, with_unused, with_regions, with_hmem. simpl. by rewrite insert_insert_eq. }
  assert (vm_ok (with_unused vm p x u) (taken F n' 1)) as Hok2.
  { eapply (vm_ok_same vm2); [|done]. by split. }
  eapply (HΦ n' _ (<[(k - 1, j) := n']> T) (taken F n' 1)); [by eapply tables_table|split; try done|..].
  - intros a m' Ha. rewrite lookup_insert_ne; [done|]. intros <-. congruence.
  - by rewrite fin_maps.lookup_insert, decide_True.
  - intros a Ha. by rewrite lookup_insert_ne.
  - by apply lost_taken.
  - eapply stable_trans; [by apply (stable_unused vm p x u)|apply stable_hmem].
  - exists n, (j mod 512). split; [done|split; [by apply with_unused_word|]].
    unfold word_at. simpl. by rewrite fin_maps.lookup_insert, decide_True.
  - intros Hb. eapply (avail_same vm2); [by split|auto].
Qed.

(** The three ways [virt_create_upper_pte] returns. *)
Lemma cwp_create_upper b vm T L F m q vaddr paddr k target n (Φ : pte_ptr → kvm_vm → Prop) :
  let j := idx k (low48 vaddr) in
  tables vm T L F → leads vm q n → T !! (k, j / 512) = Some n → 2 ≤ k ≤ 4 → 0 ≤ vaddr →
  (k = target → paddr mod lsize k = 0) → 0 ≤ paddr < 2 ^ 52 →
  (b → k ≠ target → avail vm F (S m)) →
  (b → L !! (k, j) = None ∧ (k = target → T !! (k - 1, j) = None)) →
  (∀ h n' vm' T' F', k ≠ target → tables vm' T' L F' → grown vm T F k j vm' T' F' n' →
    leads vm' (Word h) n' → (b → avail vm' F' m) → Φ (Word h) vm') →
  (∀ h vm', k = target → T !! (k - 1, j) = None → L !! (k, j) = None →
    tables vm' T (<[(k, j) := paddr]> L) F → stable vm vm' →
    wp (read_pte (Word h)) (λ v w, has_mask v PTE_LARGE_MASK = true ∧ w = vm') vm' →
    Φ (Word h) vm') →
  cwp b (virt_create_upper_pte q vaddr paddr k target) Φ vm.
Proof.
  intros j Ht Hq Hn Hk Hv Hpa Hpr Hav Hfree Htab Hleaf. unfold virt_create_upper_pte, TEST_ASSERT. cwps.
  apply cwp_wp. eapply (wp_get_pte vm T L F q vaddr k n); [done..|lia|done|]. fold j.
  intros h Hw He. cwps. apply cwp_wp. eapply wp_read_entry; [done..|]. cbn beta.
  pose proof (ta_vm _ _ _ _ Ht) as Hok. pose proof (vo_index _ _ Hok) as Hi.
  destruct (key_split j) as [_ Hjm]. assert (0 ≤ j) as Hj.
  { apply idx_nonneg; [lia|]. apply Z.mod_pos_bound. lia. }
  unfold entry. destruct (T !! (k - 1, j)) as [n'|] eqn:HT.
  { (* a table is there *)
    rewrite has_present by lia. change (Z.land 3 1 =? 0) with false. cbn [negb]. cwps.
    apply cwp_assert; [intros Heq%negb_false_iff%Z.eqb_eq [_ Hc]%Hfree; by specialize (Hc Heq)|].
    intros Hne%negb_true_iff%Z.eqb_neq. cwps.
    apply cwp_assert; [by rewrite has_large by lia|]. intros _. cwps.
    apply (Htab h n' vm T F Hne Ht).
    - split; auto using stable_refl. by apply lost_refl.
    - exists n, (j mod 512). split; [done|split; [done|]]. unfold entry in He. by rewrite HT in He.
    - intros Hb. apply avail_mono. auto. }
  destruct (L !! (k, j)) as [pa|] eqn:HL.
  { (* a large page is there *)
    destruct (sh_leaf _ _ (ta_shape _ _ _ _ Ht) _ _ _ HL) as (_ & _ & Hmod & Hpar & _).
    unfold leaf_bits. rewrite (proj2 (Z.eqb_neq k 1)) by lia. rewrite (page_multiple pa k) by (lia || done).
    rewrite has_present by lia. change (Z.land 131 1 =? 0) with false. cbn [negb]. cwps.
    apply cwp_assert; [intros _ [[=] _]%Hfree|]. intros _. cwps.
    apply cwp_assert; [intros _ [[=] _]%Hfree|]. rewrite has_large by lia. done. }
  (* nothing is there *)
  change (has_mask 0 PTE_PRESENT_MASK) with false. cbn [negb]. cwps.
  apply cwp_wp. eapply wp_write_word; [done..|]. change (Z.lor PTE_PRESENT_MASK PTE_WRITABLE_MASK) with 3.
  assert (free_entry vm T L F k j n h) as Hfe by (by split_and!; try lia).
  destruct (Z.eqb_spec k target) as [Heq|Hne].
  - apply (cwp_put_leaf b vm T L F k j n h); [done|by apply Hpa|done|]. intros vm' Ht' Hst' Hrd. cwps. by apply Hleaf.
  - apply (cwp_put_table b vm T L F m k j n h); [done|auto|]. intros n' vm' T' F' Ht' Hg Hl Hav'. cwps. eauto.
Qed.

(** ** Mapping a page *)
(** No mapping of [level] or above covers the address, and no table is in the
    way of one. *)
Definition unmapped T L v level : Prop :=
  (∀ k, level ≤ k ≤ 4 → L !! (k, idx k v) = None) ∧ T !! (level - 1, idx level v) = None.
(** What [__virt_pg_map] checks before it starts. *)
Record mappable vm (V : Z → Prop) (vaddr paddr level : Z) : Prop := {
  ma_vaddr : vaddr mod lsize level = 0;
  ma_valid : V (vaddr / 4096);
  ma_paddr : paddr mod lsize level = 0;
  ma_gfn : paddr / 4096 ≤ max_gfn vm
}.
(** The result: one more mapping. *)
Record mapped_to vm T L F vm' T' F' v paddr level : Prop := {
  mt_tables : tables vm' T' (<[(level, idx level v) := paddr]> L) F';
  mt_unmapped : unmapped T L v level;
  mt_sub a m : T !! a = Some m → T' !! a = Some m;
  mt_lost : lost F F' 3;
  mt_stable : stable vm vm'
}.
(** The state on the way down: the table of level [k] for the address is there,
    and the levels above [k] have no mapping of it. *)
Record descended vm T L F vm' T' F' v k n : Prop := {
  de_tables : tables vm' T' L F';
  de_tab : T' !! (k, idx (k + 1) v) = Some n;
  de_above k' : k < k' ≤ 4 → L !! (k', idx k' v) = None;
  de_low k' j : k' < k → T' !! (k', j) = T !! (k', j);
  de_sub a m : T !! a = Some m → T' !! a = Some m;
  de_lost : lost F F' (4 - k);
  de_stable : stable vm vm'
}.
Lemma descend_step vm T L F vm1 T1 F1 v k n vm2 T2 F2 n' :
  1 ≤ k - 1 → descended vm T L F vm1 T1 F1 v k n → tables vm2 T2 L F2 →
  grown vm1 T1 F1 k (idx k v) vm2 T2 F2 n' →
  descended vm T L F vm2 T2 F2 v (k - 1) n'.
Proof.
  intros Hk [Ht Htab Habove Hlow Hsub Hfree Hst] Ht2 [Gsub Gtab Goth Gfree Gst _].
  split; try done; auto.
  - by replace (k - 1 + 1) with k by lia.
  - intros k' Hk'. destruct (decide (k' = k)) as [->|]; [|apply Habove; lia].
    destruct (L !! (k, idx k v)) as [pa|] eqn:HL; [|done].
    destruct (sh_leaf _ _ (ta_shape _ _ _ _ Ht2) _ _ _ HL) as (_ & _ & _ & _ & _ & Hno). congruence.
  - intros k' j Hk'. rewrite Goth, Hlow; [done|lia|]. intros [= ? ?]. lia.
  - replace (4 - (k - 1)) with (4 - k + 1) by lia. by eapply lost_trans.
  - by eapply stable_trans.
Qed.
Lemma cwp_descend b vm T L F vm1 T1 F1 m q vaddr paddr k level n (Φ : unit → kvm_vm → Prop)
    (next : pte_ptr → V_ unit) :
  let v := low48 vaddr in
  descended vm T L F vm1 T1 F1 v k n → leads vm1 q n → 2 ≤ k ≤ 4 → level ≤ k → 0 ≤ vaddr →
  paddr mod lsize level = 0 → 0 ≤ paddr < 2 ^ 52 → (b → avail vm1 F1 (S m)) →
  (b → unmapped T L v level) →
  (∀ vm' T' F', mapped_to vm T L F vm' T' F' v paddr level → Φ tt vm') →
  (∀ h n' vm2 T2 F2, level ≤ k - 1 → descended vm T L F vm2 T2 F2 v (k - 1) n' →
    leads vm2 (Word h) n' → (b → avail vm2 F2 m) → cwp b (next (Word h)) Φ vm2) →
  cwp b (virt_create_upper_pte q vaddr paddr k level)
    (λ e, cwp b (x ← read_pte e; if has_mask x PTE_LARGE_MASK then mret tt else next e) Φ) vm1.
Proof.
  intros v Hd Hq Hk Hl Hv Hmod Hpr Hav Hun Hdone Hnext.
  pose proof Hd as [Ht Htab Habove Hlow Hsub Hfree Hst]. pose proof (idx_succ k v) as Hidx.
  rewrite Hidx in Htab by lia.
  apply (cwp_create_upper b vm1 T1 L F1 m q vaddr paddr k level n); try done.
  - by intros ->.
  - auto.
  - fold v. intros Hb. destruct (Hun Hb) as [Hu1 Hu2]. split; [apply Hu1; lia|].
    intros ->. rewrite Hlow by lia. done.
  - fold v. intros h n' vm2 T2 F2 Hne Ht2 Hg Hlead Hav2. cwps. apply cwp_wp.
    eapply wp_read_leads; [apply Ht2|done|]. intros c _ _ ->. apply (Hnext h n' vm2 T2 F2); try done.
    + lia.
    + eapply descend_step; try done. lia.
  - fold v. intros h vm' -> HT HL Ht' Hst' Hread. cwps. apply cwp_wp. eapply wp_mono; [exact Hread|].
    intros x w [-> ->]. cwps. apply (Hdone vm' T1 F1). split; try done.
    + split.
      * intros k' Hk'. destruct (decide (k' = level)) as [->|]; [done|apply Habove; lia].
      * rewrite <-Hlow by lia. done.
    + eapply lost_weaken; [|done]. lia.
    + by eapply stable_trans.
Qed.

Lemma pages_shift vm F a : vm_ok vm F → Z.shiftr a (page_shift vm) = a / 4096.
Proof. intros Hok. by rewrite (vo_page_shift vm F Hok), Z.shiftr_div_pow2. Qed.
Lemma wp_query_valid {A} (m : S_ A) (R : A → Prop) (Φ : A → kvm_vm → Prop) vm :
  wp m (λ a s, R a ∧ s = vpages_valid vm) (vpages_valid vm) → (∀ a, R a → Φ a vm) →
  wp (on_valid m) Φ vm.
Proof.
  intros (a & s & Hm & HR & ->)%wp_inv HΦ. unfold wp, on_valid. rewrite Hm.
  replace (with_vpages vm (vpages_valid vm) (vpages_mapped vm)) with vm by (by destruct vm). auto.
Qed.
Lemma wp_page_valid V i (Φ : bool → kvm_vm → Prop) vm :
  sb (vpages_valid vm) V → in_u64 i → (∀ r : bool, (r = true ↔ V i) → Φ r vm) →
  wp (on_valid (sparsebit_is_set i)) Φ vm.
Proof.
  intros Hsb Hi HΦ. eapply (wp_query_valid _ (λ r : bool, r = true ↔ V i)); [|auto].
  eapply wp_sb_is_set; [done..|]. auto.
Qed.
Lemma page_u64 a : in_u64 a → in_u64 (a / 4096).
Proof. intros [? ?]. split; [apply Z.div_pos; lia|apply Z.div_lt_upper_bound; lia]. Qed.

(** The last level of [__virt_pg_map]. *)
Lemma cwp_map_4k b vm T L F vm1 T1 F1 h vaddr paddr n (Φ : unit → kvm_vm → Prop) :
  let v := low48 vaddr in
  descended vm T L F vm1 T1 F1 v 1 n → leads vm1 (Word h) n → 0 ≤ vaddr →
  paddr mod lsize 1 = 0 → 0 ≤ paddr < 2 ^ 52 → (b → unmapped T L v 1) →
  (∀ vm' T' F', mapped_to vm T L F vm' T' F' v paddr 1 → Φ tt vm') →
  cwp b (pte ← virt_get_pte (Word h) vaddr PG_LEVEL_4K; x ← read_pte pte;
         TEST_ASSERT (negb (has_mask x PTE_PRESENT_MASK));;
         write_pte pte (Z.lor (Z.lor PTE_PRESENT_MASK PTE_WRITABLE_MASK)
                              (Z.land paddr PHYSICAL_PAGE_MASK))) Φ vm1.
Proof.
  intros v Hd Hq Hv Hmod Hpr Hun Hdone. unfold TEST_ASSERT. cwps.
  pose proof Hd as [Ht Htab Habove Hlow Hsub Hfree Hst]. rewrite idx_succ in Htab by lia.
  apply cwp_wp. eapply (wp_get_pte vm1 T1 L F1); [done..|unfold PG_LEVEL_4K; lia|done|]. fold v.
  change PG_LEVEL_4K with 1. set (j := idx 1 v) in *.
  intros h' Hw He. cwps. apply cwp_wp. eapply wp_read_entry; [done..|]. cwps.
  assert (T1 !! (0, j) = None) as HT0.
  { destruct (T1 !! (0, j)) as [m|] eqn:E; [|done].
    destruct (sh_tab _ _ (ta_shape _ _ _ _ Ht) _ _ _ E) as (? & _). lia. }
  unfold entry. change (1 - 1) with 0. rewrite HT0. destruct (L !! (1, j)) as [pa|] eqn:HL.
  { destruct (sh_leaf _ _ (ta_shape _ _ _ _ Ht) _ _ _ HL) as (_ & _ & Hm & _).
    apply cwp_assert.
    - intros _ Hb. destruct (Hun Hb) as [Hu _]. specialize (Hu 1). fold j in Hu.
      rewrite Hu in HL by lia. done.
    - rewrite (page_multiple pa 1) by (lia || done). unfold leaf_bits. simpl. by rewrite has_present. }
  apply cwp_assert; [done|]. intros _. cwps. change (Z.lor PTE_PRESENT_MASK PTE_WRITABLE_MASK) with 3.
  destruct (leaf_word paddr 1) as [-> Hlor]; [lia|done..|]. rewrite Hlor by lia.
  apply cwp_wp. eapply wp_write_word; [apply Ht|apply key_split|done|].
  apply (Hdone _ T1 F1). split; try done.
  - fold j. change 3 with (leaf_bits 1). eapply tables_leaf; try done.
    apply idx_nonneg; [lia|]. apply Z.mod_pos_bound. lia.
  - split; [|by rewrite <-Hlow by lia]. intros k' Hk'.
    destruct (decide (k' = 1)) as [->|]; [done|apply Habove; lia].
  - eapply stable_trans; [done|apply stable_hmem].
Qed.
Lemma cwp_pg_map b vm T L F V vaddr paddr level (Φ : unit → kvm_vm → Prop) :
  let v := low48 vaddr in
  tables vm T L F → sb (vpages_valid vm) V → in_u64 vaddr → in_u64 paddr → 1 ≤ level ≤ 4 →
  (b → mappable vm V vaddr paddr level ∧ unmapped T L v level ∧ avail vm F 3) →
  (∀ vm' T' F', mappable vm V vaddr paddr level → mapped_to vm T L F vm' T' F' v paddr level →
    Φ tt vm') →
  cwp b (__virt_pg_map vaddr paddr level) Φ vm.
Proof.
  intros v Ht HV Hv Hp Hl Hb HΦ. pose proof (ta_vm _ _ _ _ Ht) as Hok.
  pose proof Hv as [Hv0 _]. unfold __virt_pg_map, TEST_ASSERT. rewrite level_size by done. cwps.
  rewrite !(pages_shift vm F) by done.
  apply cwp_assert; [unfold mode_ok; by rewrite bool_decide_eq_true_2 by apply Hok|]. intros _. cwps.
  apply cwp_assert; [intros ?%Z.eqb_neq [[? _ _ _] _]%Hb; done|]. intros Hvm%Z.eqb_eq. cwps.
  apply cwp_wp, (wp_page_valid V); [done|by apply page_u64|]. intros r Hr. cwps.
  apply cwp_assert; [intros -> [[_ Hvv _ _] _]%Hb; by apply Hr in Hvv|]. intros ->. cwps.
  apply cwp_assert; [intros ?%Z.eqb_neq [[_ _ ? _] _]%Hb; done|]. intros Hpm%Z.eqb_eq. cwps.
  apply cwp_assert; [intros ?%Z.leb_gt [[_ _ _ ?] _]%Hb; lia|]. intros Hg%Z.leb_le. cwps.
  assert (mappable vm V vaddr paddr level) as Hma by (split; try done; by apply Hr).
  assert (0 ≤ paddr < 2 ^ 52) as Hpr.
  { destruct Hp. pose proof (vo_gfn vm F Hok). pose proof (Z.div_mod paddr 4096).
    pose proof (Z.mod_pos_bound paddr 4096). lia. }
  assert (b → unmapped T L v level) as Hun by (by intros (_ & ? & _)%Hb).
  destruct (ta_root _ _ _ _ Ht) as (n0 & Hn0 & Hpgd).
  assert (0 ≤ v < 2 ^ 48) as Hv48 by (by apply Z.mod_pos_bound).
  assert (descended vm T L F vm T F v 4 n0) as Hd.
  { split; auto using stable_refl; [|lia|by apply lost_refl]. change (4 + 1) with 5. by rewrite (idx_5 v) by done. }
  apply (cwp_descend b vm T L F vm T F 2 Pgd vaddr paddr 4 level n0); try done; try lia.
  { by intros (_ & _ & ?)%Hb. }
  { intros vm' T' F'. by apply HΦ. }
  intros h4 n4 vm4 T4 F4 Hl4 Hd4 Hlead4 Hav4. change (4 - 1) with 3 in *. cwps.
  apply (cwp_descend b vm T L F vm4 T4 F4 1 _ vaddr paddr 3 level n4); try done; try lia.
  { intros vm' T' F'. by apply HΦ. }
  intros h3 n3 vm3 T3 F3 Hl3 Hd3 Hlead3 Hav3. change (3 - 1) with 2 in *. cwps.
  apply (cwp_descend b vm T L F vm3 T3 F3 0 _ vaddr paddr 2 level n3); try done; try lia.
  { intros vm' T' F'. by apply HΦ. }
  intros h2 n2 vm2 T2 F2 Hl2 Hd2 Hlead2 Hav2. change (2 - 1) with 1 in *.
  assert (level = 1) as -> by lia.
  apply (cwp_map_4k b vm T L F vm2 T2 F2 h2 vaddr paddr n2); try done.
  intros vm' T' F'. by apply HΦ.
Qed.
End walk.
