(* ===== verification/KvmTranslate.v ===== *)
(** * selftests: translating an address through the page tables

    [addr_arch_gva2gpa] finds the mapping of an address when there is one, at
    whatever level it is, and aborts when there is none. *)

From S2P Require Import Prelude Sparsebit SparsebitOps SparsebitTree SparsebitRange SparsebitQuery.
From S2P Require Import SparsebitRuns SparsebitSpec.
From S2P Require Import KvmUtil KvmPageTable KvmRegions KvmRegionAdd KvmPages KvmState KvmTables KvmWalk.

Implicit Types (vm : kvm_vm) (F V : Z → Prop).
Implicit Types (T L : gmap (Z * Z) Z) (n i j k h c v : Z) (q : pte_ptr).

(** ** Offsets in a page *)
Lemma lor_disjoint s c m : 0 ≤ s → 0 ≤ c < 2 ^ s → Z.lor c (m * 2 ^ s) = c + m * 2 ^ s.
Proof.
  intros Hs Hc. rewrite <-Z.add_lor_land. replace (Z.land c (m * 2 ^ s)) with 0; [lia|].
  apply Z.bits_inj'. intros i Hi. rewrite Z.bits_0, Z.land_spec. destruct (decide (i < s)).
  - by rewrite Z.mul_pow2_bits_low, andb_false_r by lia.
  - rewrite <-(Z.mod_small c (2 ^ s)), Z.mod_pow2_bits_high by lia. done.
Qed.
Lemma land_high a : in_u64 a → Z.land a (4095 * 2 ^ 52) = a / 2 ^ 52 * 2 ^ 52.
Proof.
  intros Ha. rewrite <-!Z.shiftl_mul_pow2, <-Z.shiftr_div_pow2 by lia. apply Z.bits_inj'.
  intros i Hi. rewrite Z.land_spec, !Z.shiftl_spec by lia. destruct (decide (i < 52)).
  - by rewrite !(Z.testbit_neg_r _ (i - 52)), andb_false_r by lia.
  - rewrite Z.shiftr_spec by lia. replace (i - 52 + 52) with i by lia.
    change 4095 with (Z.ones 12). rewrite Z.testbit_ones_nonneg by lia.
    destruct (Z.ltb_spec (i - 52) 12); [by rewrite andb_true_r|]. rewrite andb_false_r.
    rewrite <-(Z.mod_small a (2 ^ 64)), Z.mod_pow2_bits_high by (unfold in_u64 in Ha; lia). done.
Qed.
Lemma land_offset a s : in_u64 a → 0 ≤ s ≤ 52 →
  Z.land a (Z.lor (Z.ones s) (4095 * 2 ^ 52)) = a mod 2 ^ s + a / 2 ^ 52 * 2 ^ 52.
Proof.
  intros Ha Hs. rewrite Z.land_lor_distr_r, Z.land_ones, land_high by (done || lia).
  apply (lor_disjoint 52); [lia|].
  assert (0 < 2 ^ s ≤ 2 ^ 52) by (split; [apply Z.pow_pos_nonneg|apply Z.pow_le_mono_r]; lia).
  pose proof (Z.mod_pos_bound a (2 ^ s)). lia.
Qed.
(** The level [__vm_get_page_table_entry] reports for a mapping of level [k]. *)
Definition reported k : Z := if k =? 1 then PG_LEVEL_NONE else k.
Lemma offset_mask k :
  1 ≤ k ≤ 4 → u64 (Z.lnot (HUGEPAGE_MASK (reported k))) = Z.lor (Z.ones (12 + 9 * (k - 1))) (4095 * 2 ^ 52).
Proof.
  intros Hk. assert (k = 1 ∨ k = 2 ∨ k = 3 ∨ k = 4) as [-> |[-> |[-> | ->]]] by lia; vm_compute; done.
Qed.
(** What [addr_arch_gva2gpa] computes for a mapping of level [k] to [pa]. *)
Definition translated gva k (pa : Z) : Z := pa + gva mod lsize k + gva / 2 ^ 52 * 2 ^ 52.
Lemma translated_word gva k pa :
  in_u64 gva → 1 ≤ k ≤ 4 → pa mod lsize k = 0 → 0 ≤ pa < 2 ^ 52 →
  Z.lor pa (Z.land gva (u64 (Z.lnot (HUGEPAGE_MASK (reported k))))) = translated gva k pa.
Proof.
  intros Hg Hk Hmod Hpa. rewrite offset_mask, land_offset by (done || lia). unfold translated, lsize in *.
  set (s := 12 + 9 * (k - 1)) in *. assert (0 < 2 ^ s ≤ 2 ^ 52 ∧ (2 ^ s | 2 ^ 52)) as [Hs [z Hz]].
  { split; [split; [apply Z.pow_pos_nonneg|apply Z.pow_le_mono_r]; lia|].
    exists (2 ^ (52 - s)). rewrite <-Z.pow_add_r by lia. f_equal. lia. }
  pose proof (Z.mod_pos_bound gva (2 ^ s)) as Ho. apply Z.mod_divide in Hmod as [y ->]; [|lia].
  rewrite <-(lor_disjoint 52 (gva mod 2 ^ s)), Z.lor_assoc, (Z.lor_comm (y * _)) by lia.
  assert (y < z) by nia. assert ((y + 1) * 2 ^ s ≤ z * 2 ^ s) by (apply Z.mul_le_mono_nonneg_r; lia).
  rewrite (lor_disjoint s), (lor_disjoint 52) by lia. lia.
Qed.
Lemma translated_low gva k pa : 0 ≤ gva < 2 ^ 47 → translated gva k pa = pa + gva mod lsize k.
Proof. intros Hg. unfold translated. rewrite (Z.div_small gva (2 ^ 52)) by lia. lia. Qed.

(** ** Canonical addresses *)
Definition canonical (a : Z) : Prop := 0 ≤ a < 2 ^ 47 ∨ 2 ^ 64 - 2 ^ 47 ≤ a < 2 ^ 64.
Lemma sign_extend_canonical a : in_u64 a → a = sign_extend_48 a ↔ canonical a.
Proof.
  intros Ha. unfold sign_extend_48, canonical, in_u64, u64, s64, wrap, swrap in *.
  rewrite Z.shiftl_mul_pow2, Z.shiftr_div_pow2 by lia. change (64 - 1) with 63.
  change (2 ^ 64) with 18446744073709551616 in *. change (2 ^ 63) with 9223372036854775808.
  change (2 ^ 47) with 140737488355328. change (2 ^ 16) with 65536. Z.to_euclidean_division_equations. lia.
Qed.

(** ** Chains of tables *)
Lemma tables_above T L v k k' :
  shape_ok T L → 1 ≤ k → k ≤ k' ≤ 4 → is_Some (T !! (k, idx (k + 1) v)) →
  is_Some (T !! (k', idx (k' + 1) v)).
Proof.
  intros Hs Hk [Hle Hle'] Htab. revert k' Hle Hle'.
  apply (Zlt_lower_bound_ind (λ k', k' ≤ 4 → is_Some (T !! (k', idx (k' + 1) v)))).
  intros k' IH Hle Hle'. destruct (decide (k' = k)) as [->|]; [done|].
  destruct (IH (k' - 1)) as [m Hn]; [lia..|]. replace (k' - 1 + 1) with k' in Hn by lia.
  destruct (sh_tab T L Hs _ _ _ Hn) as (_ & _ & _ & Hpar). rewrite idx_succ by lia.
  replace (k' - 1 + 1) with k' in Hpar by lia. apply Hpar. lia.
Qed.
(** A mapping of an address excludes a mapping of another level. *)
Lemma leaf_level T L v k k' n :
  shape_ok T L → T !! (k, idx (k + 1) v) = Some n → T !! (k - 1, idx k v) = None →
  is_Some (L !! (k', idx k' v)) → k' = k.
Proof.
  intros Hs Hn Hno [pa Hpa]. destruct (sh_tab T L Hs _ _ _ Hn) as (Hk & _).
  destruct (sh_leaf T L Hs _ _ _ Hpa) as (Hk' & _ & _ & _ & Htab & Hbelow).
  rewrite <-idx_succ in Htab by lia. destruct (Z.lt_trichotomy k' k) as [Hlt|[->|Hlt]]; [|done|].
  - destruct (tables_above T L v k' (k - 1)) as [m Hm]; [done|lia|lia|done|].
    replace (k - 1 + 1) with k in Hm by lia. congruence.
  - destruct (tables_above T L v k (k' - 1)) as [m Hm]; [done|lia|lia|by rewrite Hn|].
    replace (k' - 1 + 1) with k' in Hm by lia. congruence.
Qed.

Section translate.
Context `{!KernelTools}.

(** [b] says that the address has a mapping. *)
Definition has_mapping L v : Prop := ∃ k, is_Some (L !! (k, idx k v)).
Lemma awp_gpa2hva vm g (Φ : Z → kvm_vm → Prop) :
  index_ok vm → (∀ h, Φ h vm) → awp (addr_gpa2hva g) Φ vm.
Proof.
  intros Hi HΦ. unfold addr_gpa2hva. awps. apply awp_wp, wp_region_find; [done|lia|..].
  - intros p x Hx _. awps. apply awp_wp. eapply wp_load_region; [done|]. awps. apply HΦ.
  - intros _. done.
Qed.
(** An entry that is not present leads nowhere. *)
Lemma cwp_get_absent b vm n i h vaddr k (Φ : pte_ptr → kvm_vm → Prop) :
  index_ok vm → 0 ≤ i < 512 → word_loc vm n i h → word_at vm h = 0 → ¬ b →
  cwp b (virt_get_pte (Word h) vaddr k) Φ vm.
Proof.
  intros Hi ? Hw Hz Hb. unfold virt_get_pte, TEST_ASSERT. cwps. apply cwp_wp.
  eapply wp_read_word; [done..|]. cwps. apply cwp_awp; [done|]. apply awp_gpa2hva; [done|].
  intros h'. cwps. apply cwp_wp. eapply wp_read_word; [done..|]. cwps. rewrite Hz.
  by apply cwp_assert.
Qed.
(** One level of the walk: a mapping, a table or nothing. *)
Lemma cwp_walk b vm T L F q vaddr k n (Φ : pte_ptr * Z → kvm_vm → Prop)
    (next : pte_ptr → Z → V_ (pte_ptr * Z)) :
  let v := low48 vaddr in
  tables vm T L F → leads vm q n → T !! (k, idx (k + 1) v) = Some n → 2 ≤ k ≤ 4 → 0 ≤ vaddr →
  (b → has_mapping L v) →
  (∀ h pa, L !! (k, idx k v) = Some pa → word_loc vm n (idx k v mod 512) h →
    word_at vm h = pa + leaf_bits k → Φ (Word h, k) vm) →
  (∀ h n', leads vm (Word h) n' → T !! (k - 1, idx k v) = Some n' →
    cwp b (next (Word h) PG_LEVEL_NONE) Φ vm) →
  (∀ h, ¬ b → word_loc vm n (idx k v mod 512) h → word_at vm h = 0 →
    cwp b (next (Word h) PG_LEVEL_NONE) Φ vm) →
  cwp b (virt_get_pte q vaddr k)
    (λ e, cwp b ('(target, level) ← vm_is_target_pte e PG_LEVEL_NONE k;
                 if target : bool then mret (e, level) else next e level) Φ) vm.
Proof.
  intros v Ht Hq Hn Hk Hv Hb Hleaf Htab Hnone. pose proof (ta_shape _ _ _ _ Ht) as Hs.
  apply cwp_wp. rewrite idx_succ in Hn by lia.
  eapply (wp_get_pte vm T L F q vaddr k n); [done..|lia|done|]. fold v. set (j := idx k v) in *.
  intros h Hw He. unfold vm_is_target_pte, TEST_ASSERT. cwps. apply cwp_wp.
  eapply wp_read_entry; [done..|]. cbn beta.
  assert ((PG_LEVEL_NONE =? k) = false) as Hk0 by (apply Z.eqb_neq; unfold PG_LEVEL_NONE; lia).
  unfold entry in *. destruct (T !! (k - 1, j)) as [n'|] eqn:HT.
  { rewrite has_large by lia. change (Z.land 3 128 =? 0) with true. cbn [negb]. cwps. rewrite Hk0.
    apply (Htab h n'); [|done]. exists n, (j mod 512). split; [apply key_split|done]. }
  destruct (L !! (k, j)) as [pa|] eqn:HL.
  { destruct (sh_leaf _ _ Hs _ _ _ HL) as (_ & _ & Hmod & _).
    assert (has_mask (pa + leaf_bits k) PTE_LARGE_MASK = true) as ->.
    { unfold leaf_bits. rewrite (proj2 (Z.eqb_neq k 1)) by lia.
      by rewrite (page_multiple pa k), has_large by (lia || done). }
    cwps. apply cwp_assert; [done|]. intros _. cwps. rewrite Z.eqb_refl. cwps. by apply (Hleaf h pa). }
  change (has_mask 0 PTE_LARGE_MASK) with false. cwps. rewrite Hk0. apply Hnone; try done.
  intros (k' & Hk')%Hb. assert (k' = k) as ->.
  { eapply (leaf_level T L v k k' n); try done. by rewrite idx_succ by lia. }
  fold j in Hk'. rewrite HL in Hk'. by destruct Hk'.
Qed.
(** The whole walk. *)
Lemma cwp_get_entry b vm T L F V gva (Φ : pte_ptr * Z → kvm_vm → Prop) :
  let v := low48 gva in
  tables vm T L F → sb (vpages_valid vm) V → in_u64 gva →
  (b → V (gva / 4096) ∧ canonical gva ∧ has_mapping L v) →
  (∀ h n i k pa, V (gva / 4096) → canonical gva → L !! (k, idx k v) = Some pa → 0 ≤ i < 512 →
    word_loc vm n i h → word_at vm h = pa + leaf_bits k → Φ (Word h, reported k) vm) →
  (∀ h n i, ¬ b → 0 ≤ i < 512 → word_loc vm n i h → word_at vm h = 0 →
    Φ (Word h, PG_LEVEL_NONE) vm) →
  cwp b (__vm_get_page_table_entry gva PG_LEVEL_NONE) Φ vm.
Proof.
  intros v Ht HV Hg Hb Hleaf Hdead. pose proof (ta_vm _ _ _ _ Ht) as Hok.
  pose proof (vo_index _ _ Hok) as Hi. pose proof Hg as [Hg0 _].
  unfold __vm_get_page_table_entry, TEST_ASSERT. cwps.
  apply cwp_assert; [done|]. intros _. cwps.
  apply cwp_assert; [unfold mode_ok; by rewrite bool_decide_eq_true_2 by apply Hok|]. intros _. cwps.
  rewrite (pages_shift vm F) by done.
  apply cwp_wp, (wp_page_valid V); [done|by apply page_u64|]. intros r Hr. cwps.
  apply cwp_assert; [intros -> [Hv _]%Hb; by apply Hr in Hv|]. intros ->. cwps.
  assert (V (gva / 4096)) as HVg by (by apply Hr).
  apply cwp_assert; [intros Hne%Z.eqb_neq (_ & Hc & _)%Hb; by apply sign_extend_canonical in Hc|].
  intros Hcan%Z.eqb_eq%sign_extend_canonical; [|done]. cwps.
  assert (b → has_mapping L v) as Hmap by (by intros (_ & _ & ?)%Hb).
  destruct (ta_root _ _ _ _ Ht) as (n4 & Hn4 & Hpgd). pose proof (key_split) as Hkey.
  assert (idx 5 v = 0) as H5 by (by apply idx_5, Z.mod_pos_bound).
  assert (∀ h n k (Ψ : pte_ptr → kvm_vm → Prop), ¬ b → word_loc vm n (idx (k + 1) v mod 512) h →
    word_at vm h = 0 → cwp b (virt_get_pte (Word h) gva k) Ψ vm) as Habs.
  { intros h n k Ψ Hnb Hw Hz. eapply cwp_get_absent; try done. apply Hkey. }
  apply (cwp_walk b vm T L F Pgd gva 4 n4); fold v; try done.
  { change (4 + 1) with 5. by rewrite H5. }
  { intros h pa HL Hw Hv. eapply (Hleaf h n4 _ 4); try done. apply Hkey. }
  2: { intros h Hnb Hw Hz. cwps. by apply (Habs h n4). }
  intros h4 n3 Hl3 Hn3. cwps. apply (cwp_walk b vm T L F _ gva 3 n3); try done; fold v.
  { intros h pa HL Hw Hv. eapply (Hleaf h n3 _ 3); try done. apply Hkey. }
  2: { intros h Hnb Hw Hz. cwps. by apply (Habs h n3). }
  intros h3 n2 Hl2 Hn2. cwps. apply (cwp_walk b vm T L F _ gva 2 n2); try done; fold v.
  { intros h pa HL Hw Hv. eapply (Hleaf h n2 _ 2); try done. apply Hkey. }
  2: { intros h Hnb Hw Hz. cwps. by apply (Habs h n2). }
  intros h2 n1 Hl1 Hn1. cwps. change (2 - 1) with 1 in Hn1. pose proof Hn1 as Hn1'.
  change 2 with (1 + 1) in Hn1. rewrite idx_succ in Hn1 by lia. apply cwp_wp.
  eapply (wp_get_pte vm T L F _ gva 1 n1); try done. fold v. intros h Hw He. cwps.
  assert (T !! (0, idx 1 v) = None) as HT0.
  { destruct (T !! (0, idx 1 v)) as [m|] eqn:E; [|done].
    destruct (sh_tab _ _ (ta_shape _ _ _ _ Ht) _ _ _ E) as (? & _). lia. }
  unfold entry in He. change (1 - 1) with 0 in He. rewrite HT0 in He.
  destruct (L !! (1, idx 1 v)) as [pa|] eqn:HL.
  { eapply (Hleaf h n1 _ 1); try done. apply Hkey. }
  eapply Hdead; [|apply Hkey|done..]. intros (k' & Hk')%Hmap.
  assert (k' = 1) as -> by (by eapply (leaf_level T L v 1 k' n1); [apply Ht|..]).
  rewrite HL in Hk'. by destruct Hk'.
Qed.

(** [addr_arch_gva2gpa] finds the mapping of the address, at its level. *)
Lemma cwp_gva2gpa b vm T L F V gva (Φ : Z → kvm_vm → Prop) :
  tables vm T L F → sb (vpages_valid vm) V → in_u64 gva →
  (b → V (gva / 4096) ∧ canonical gva ∧ has_mapping L (low48 gva)) →
  (∀ k pa, V (gva / 4096) → canonical gva → L !! (k, idx k (low48 gva)) = Some pa →
    Φ (translated gva k pa) vm) →
  cwp b (addr_arch_gva2gpa gva) Φ vm.
Proof.
  intros Ht HV Hg Hb HΦ. pose proof (vo_index _ _ (ta_vm _ _ _ _ Ht)) as Hi.
  unfold addr_arch_gva2gpa, TEST_ASSERT. cwps. apply (cwp_get_entry b vm T L F V); try done.
  - intros h n i k pa HVg Hc HL Hir Hw Hv. cwps.
    destruct (sh_leaf _ _ (ta_shape _ _ _ _ Ht) _ _ _ HL) as (Hk & _ & Hmod & Hpa & _).
    assert (0 ≤ leaf_bits k < 4096 ∧ Z.land (leaf_bits k) 1 = 1) as [Hlb Hl1].
    { unfold leaf_bits. destruct (k =? 1); done. }
    assert (0 ≤ pa / 4096 < 2 ^ 40).
    { split; [apply Z.div_pos; lia|apply Z.div_lt_upper_bound; lia]. }
    apply cwp_wp. eapply wp_read_word; [done..|]. cwps. rewrite Hv.
    rewrite (page_multiple pa k) by (lia || done). rewrite has_present, Hl1 by done.
    apply cwp_assert; [done|]. intros _. cwps. apply cwp_wp. eapply wp_read_word; [done..|]. cwps.
    rewrite Hv. rewrite (page_multiple pa k) at 1 by (lia || done). rewrite pa_of by done.
    rewrite <-(page_multiple pa k), translated_word by (lia || done). by apply HΦ.
  - intros h n i Hnb Hir Hw Hz. cwps. apply cwp_wp. eapply wp_read_word; [done..|]. rewrite Hz.
    cwps. by apply cwp_assert.
Qed.
End translate.
