(* ===== verification/KvmGap.v ===== *)
(** * selftests: the search for unused virtual addresses

    [vm_vaddr_unused_gap] looks for the lowest run of pages that are valid and
    not mapped, alternating between the two bit arrays of the VM. *)

From S2P Require Import Prelude Sparsebit SparsebitOps SparsebitTree SparsebitSearch SparsebitBits.
From S2P Require Import SparsebitRange SparsebitCount SparsebitQuery SparsebitRuns SparsebitSpec.
From S2P Require Import KvmUtil KvmPageTable KvmVirt KvmRegions KvmRegionAdd KvmPages KvmState KvmTables KvmWalk.

Implicit Types (vm : kvm_vm) (F V M : Z → Prop).

Lemma wp_query_mapped {A} (m : S_ A) (R : A → Prop) (Φ : A → kvm_vm → Prop) vm :
  wp m (λ a s, R a ∧ s = vpages_mapped vm) (vpages_mapped vm) → (∀ a, R a → Φ a vm) →
  wp (on_mapped m) Φ vm.
Proof.
  intros (a & s & Hm & HR & ->)%wp_inv HΦ. unfold wp, on_mapped. rewrite Hm.
  replace (with_vpages vm (vpages_valid vm) (vpages_mapped vm)) with vm by (by destruct vm). auto.
Qed.

#[global] Instance in_set_dec (A : list ent) i : Decision (in_set A i).
Proof. unfold in_set, in_ent, covers. apply _. Defined.

Section gap.
Context (vm : kvm_vm) (V M : Z → Prop) (pages : Z).
Context (HV : sb (vpages_valid vm) V) (HM : sb (vpages_mapped vm) M) (Hpages : 0 < pages < 2 ^ 53).

(** The pages an allocation may use. *)
Definition gap (i : Z) : Prop := V i ∧ ¬ M i.
Lemma gap_run k : run gap k pages ↔ run V k pages ∧ run (λ i, ¬ M i) k pages.
Proof. clear Hpages HV HM. unfold run, gap. naive_solver. Qed.
Lemma valid_run_u64 k : run V k pages → 0 ≤ k ∧ k + pages ≤ 2 ^ 64.
Proof.
  intros Hrun. assert (in_u64 k ∧ in_u64 (k + pages - 1)) as [[? _] [_ ?]]; [|lia].
  split; (eapply sb_u64; [exact HV|]); apply Hrun; unfold range; lia.
Qed.

Lemma wp_valid_run i (Φ : bool → kvm_vm → Prop) :
  in_u64 i → i + pages ≤ 2 ^ 64 → (∀ r : bool, (r = true ↔ run V i pages) → Φ r vm) →
  wp (on_valid (sparsebit_is_set_num i pages)) Φ vm.
Proof.
  intros Hi Hl HΦ. apply (wp_query_valid _ (λ r : bool, r = true ↔ run V i pages)); [|done].
  eapply wp_is_set_num; [done..|lia|done|]. auto.
Qed.
Lemma wp_clear_run i (Φ : bool → kvm_vm → Prop) :
  in_u64 i → i + pages ≤ 2 ^ 64 → (∀ r : bool, (r = true ↔ run (λ j, ¬ M j) i pages) → Φ r vm) →
  wp (on_mapped (sparsebit_is_clear_num i pages)) Φ vm.
Proof.
  intros Hi Hl HΦ. apply (wp_query_mapped _ (λ r : bool, r = true ↔ run (λ j, ¬ M j) i pages)); [|done].
  eapply wp_is_clear_num; [done..|lia|done|]. auto.
Qed.
(** The first run of valid pages at or after [i]; 0 when there is none. *)
Lemma wp_first_valid i (Φ : Z → kvm_vm → Prop) :
  in_u64 i → i + pages ≤ 2 ^ 64 → (∀ r, lowest_run V i pages r → Φ r vm) →
  ((∀ k, i ≤ k → ¬ run V k pages) → Φ 0 vm) →
  wp (on_valid (sparsebit_is_set_num i pages))
    (λ ok : bool, wp (if negb ok then on_valid (sparsebit_next_set_num i pages) else mret i) Φ) vm.
Proof.
  intros Hi Hl Hyes Hno. apply wp_valid_run; [done..|]. intros [] Hr; wps.
  { apply Hyes. split_and!; [done|by apply Hr|]. intros k Hk. lia. }
  apply (wp_query_valid _ (run_spec V i pages)).
  { eapply wp_next_set_num; [done..|lia|]. auto. }
  assert (¬ run V i pages) as Hni by (by intros ?%Hr).
  intros r [[-> Hnone]|(Hir & _ & Hrun & Hlow)].
  - apply Hno. intros k Hk Hrun. destruct (decide (k = i)) as [->|]; [done|].
    apply (Hnone k); [lia| |done]. by apply valid_run_u64.
  - apply Hyes. split_and!; [lia|done|]. intros k Hk. destruct (decide (k = i)) as [->|]; [done|].
    apply Hlow. lia.
Qed.

Lemma wp_gap_loop A lo (ok : Prop) f i (Φ : option Z → kvm_vm → Prop) :
  st (vpages_mapped vm) A (u64 (total A)) → valid A → (∀ i, in_set A i ↔ M i) →
  0 ≤ lo ≤ i → i + pages ≤ 2 ^ 64 → (∀ k, lo ≤ k < i → ¬ run gap k pages) →
  (ok → run V i pages) → (ahead (clear_starts A) i < f)%nat →
  (∀ r, lo ≤ r → r + pages ≤ 2 ^ 64 → (ok → run V r pages) → run (λ i, ¬ M i) r pages →
    (∀ k, lo ≤ k < r → ¬ run gap k pages) → Φ (Some r) vm) →
  ((∀ k, lo ≤ k → ¬ run gap k pages) → Φ None vm) →
  wp (gap_loop f i pages) Φ vm.
Proof.
  intros Hst Hv HMA. revert i. induction f as [|f IH]; intros i Hlo Hl Hbelow Hok Hf Hsome Hnone; [lia|].
  cbn [gap_loop]. wps. assert (in_u64 i) as Hi by (unfold in_u64; lia).
  apply wp_clear_run; [done..|]. intros [] Hclear.
  { wps. apply Hsome; try done; [lia|by apply Hclear]. }
  assert (¬ run (λ j, ¬ M j) i pages) as Hni by (by intros ?%Hclear). wps.
  apply (wp_query_mapped _ (run_spec (λ j, ¬ M j) i pages)).
  { eapply wp_next_clear_num; [done..|lia|]. auto. }
  intros c Hc. destruct (Z.eqb_spec c 0) as [->|Hc0].
  { wps. apply Hnone. intros k Hk [Hkv Hkm]%gap_run. destruct (decide (k < i)).
    { apply (Hbelow k); [lia|]. by apply gap_run. }
    destruct (decide (k = i)) as [->|]; [done|]. destruct Hc as [[_ Hno]|(? & _)]; [|lia].
    apply (Hno k); [lia| |done]. by apply valid_run_u64. }
  destruct Hc as [[? _]|(Hic & Hcl & Hcrun & Hclow)]; [done|].
  assert (∀ k, lo ≤ k < c → ¬ run gap k pages) as Hbelow'.
  { intros k Hk Hrun. destruct (decide (k < i)); [by apply (Hbelow k); [lia|]|].
    apply gap_run in Hrun as [_ Hrun]. destruct (decide (k = i)) as [->|]; [done|].
    by apply (Hclow k); [lia|]. }
  assert (c ∈ clear_starts A) as Hstart.
  { apply (clear_start (-1)); [by eapply valid_wf| |].
    - rewrite HMA. apply (Hcrun c). unfold range. lia.
    - rewrite HMA. destruct (decide (in_set A (c - 1))) as [Hm|Hnm]; [by apply HMA|]. exfalso. rewrite HMA in Hnm.
      assert (run (λ j, ¬ M j) (c - 1) pages) as Hrun.
      { intros j Hj. destruct (decide (j = c - 1)) as [->|]; [done|]. apply Hcrun.
        unfold range in *. lia. }
      destruct (decide (c - 1 = i)) as [Heq|]; [by rewrite Heq in Hrun|].
      by apply (Hclow (c - 1)); [lia|]. }
  pose proof (ahead_step _ i c Hstart Hic) as Hfuel. wps.
  eapply wp_mono; [|intros okc w Hw; apply wp_bind; exact Hw].
  apply wp_first_valid; [unfold in_u64; lia|done|..].
  - intros r (Hcr & Hrun & Hlow). pose proof (valid_run_u64 r Hrun).
    rewrite (proj2 (Z.eqb_neq r 0)) by lia. apply IH; try done; try lia.
    + intros k Hk Hg. destruct (decide (k < c)); [by apply (Hbelow' k); [lia|]|].
      apply gap_run in Hg as [Hg _]. by apply (Hlow k); [lia|].
    + pose proof (ahead_mono (clear_starts A) c r Hcr). lia.
  - intros Hno. wps. apply Hnone. intros k Hk Hg. destruct (decide (k < c)).
    { by apply (Hbelow' k); [lia|]. }
    apply gap_run in Hg as [Hg _]. apply (Hno k); [lia|done].
Qed.
End gap.

(** The number of pages that [sz] bytes take. *)
Definition pages_of (sz : Z) : Z := (sz + 4095) / 4096.
Section unused_gap.
Context `{!KernelTools}.
Lemma round_up vm F a :
  vm_ok vm F → 0 ≤ a → a + 4096 < 2 ^ 64 →
  Z.shiftr (u64 (u64 (a + page_size vm) - 1)) (page_shift vm) = pages_of a.
Proof.
  intros Hok ? ?. rewrite (pages_shift vm F), (vo_page_size vm F) by done.
  rewrite !u64_small by (rewrite ?u64_small; unfold in_u64; lia). unfold pages_of. f_equal. lia.
Qed.
(** The loop and the two checks after it. [ok] says that the loop starts at
    a run of valid pages. *)
Definition gap_rest (i pages : Z) (f : nat) : V_ Z :=
  found ← gap_loop f i pages;
  match found with
  | None => lift Abort
  | Some i =>
      ok ← on_valid (sparsebit_is_set_num i pages);
      lift (assert_ ok);;
      ok ← on_mapped (sparsebit_is_clear_num i pages);
      lift (assert_ ok);;
      mret (u64 (i * 4096))
  end.
Lemma cwp_gap_rest b vm V M pages lo (ok : bool) i (Φ : Z → kvm_vm → Prop) :
  sb (vpages_valid vm) V → sb (vpages_mapped vm) M → (∀ i, V i → i < 2 ^ 52) → 0 < pages < 2 ^ 53 →
  0 ≤ lo ≤ i → i + pages ≤ 2 ^ 64 → (∀ k, lo ≤ k < i → ¬ run (gap V M) k pages) →
  (ok → run V i pages) → (b → ok ∧ ∃ k, lo ≤ k ∧ run (gap V M) k pages) →
  (∀ r, run (gap V M) r pages → (ok → lowest_run (gap V M) lo pages r) → Φ (r * 4096) vm) →
  cwp b (gap_rest i pages (33 * base.size (mem (vpages_mapped vm)) + 1)) Φ vm.
Proof.
  intros HV HM Hsmall Hp Hlo Hl Hbelow Hok Hb HΦ. pose proof HM as (A & Hst & Hv & HMA).
  unfold gap_rest. cwps. apply cwp_wp, (wp_gap_loop vm V M pages HV HM Hp A lo ok); try done.
  - pose proof (ahead_le (clear_starts A) i) as Hle. unfold clear_starts in Hle at 2.
    rewrite (length_starts A _ 33) in Hle by (intros; cbn [length]; by rewrite length_seqZ).
    rewrite (srep_fuel _ _ (proj1 Hst)). lia.
  - intros r Hr Hrl Hrok Hclear Hlow. cwps. assert (in_u64 r) by (unfold in_u64; lia).
    apply cwp_wp, (wp_valid_run vm V pages HV Hp); [done..|]. intros v Hv'. cwps.
    apply cwp_assert; [intros -> [Hk _]%Hb; by apply Hrok, Hv' in Hk|].
    intros ->. cwps. apply cwp_wp, (wp_clear_run vm M pages HM Hp); [done..|]. intros c Hc. cwps.
    apply cwp_assert; [intros -> _; by apply Hc in Hclear|]. intros _. cwps.
    assert (run (gap V M) r pages) as Hrun by (apply gap_run; split; [by apply Hv'|done]).
    assert (r < 2 ^ 52) by (apply Hsmall, Hrun; unfold range; lia).
    rewrite u64_small by (unfold in_u64; lia). by apply HΦ.
  - intros Hno (_ & k & Hk & Hrun)%Hb. by apply (Hno k).
Qed.
Lemma cwp_unused_gap b vm F V M sz vaddr_min (Φ : Z → kvm_vm → Prop) :
  let pages := pages_of sz in let start := pages_of vaddr_min in
  vm_ok vm F → sb (vpages_valid vm) V → sb (vpages_mapped vm) M → (∀ i, V i → i < 2 ^ 52) →
  0 < sz → sz + 4096 < 2 ^ 64 → 0 ≤ vaddr_min → vaddr_min + 4096 < 2 ^ 64 →
  (b → ∃ k, start ≤ k ∧ run (gap V M) k pages) →
  (∀ r, run (gap V M) r pages →
    ((∃ k, start ≤ k ∧ run V k pages) → lowest_run (gap V M) start pages r) →
    Φ (r * 4096) vm) →
  cwp b (vm_vaddr_unused_gap sz vaddr_min) Φ vm.
Proof.
  intros pages start Hok HV HM Hsmall Hsz Hsz' Hmin Hmin' Hb HΦ.
  unfold vm_vaddr_unused_gap, TEST_FAIL, TEST_ASSERT. cwps. rewrite !(round_up vm F) by (done || lia).
  fold pages start. rewrite (vo_page_size vm F Hok).
  assert (0 < pages < 2 ^ 53 ∧ 0 ≤ start ≤ 2 ^ 52 ∧ vaddr_min ≤ start * 4096 < 2 ^ 64)
    as (Hp & Hs & Hsm) by (unfold pages, start, pages_of; Z.to_euclidean_division_equations; lia).
  rewrite u64_small, (proj2 (Z.ltb_ge _ _)) by (unfold in_u64; lia). cwps. apply cwp_wp.
  eapply wp_mono; [|intros okc w Hw; apply cwp_bind, cwp_wp; exact Hw].
  apply (wp_first_valid vm V pages HV Hp); [unfold in_u64; lia|lia|..].
  - intros r (Hr & Hrun & Hlow). pose proof (valid_run_u64 vm V pages HV Hp r Hrun).
    apply (cwp_gap_rest b vm V M pages start true r); try done; try lia.
    + intros k Hk [Hg _]%gap_run. by apply (Hlow k).
    + intros Hb'. split; [done|auto].
    + intros r' Hg Hlowest. apply HΦ; auto.
  - intros Hno. apply (cwp_gap_rest b vm V M pages 0 false 0); try done; try lia.
    + intros Hb'. destruct (Hb Hb') as (k & Hk & [Hg _]%gap_run). by destruct (Hno k).
    + intros r' Hg _. apply HΦ; [done|]. intros (k & Hk & Hg'). by destruct (Hno k).
Qed.
End unused_gap.
