(* ===== verification/KvmSpace.v ===== *)
(** * selftests: allocating virtual memory of a VM

    [space]: the tables, the bit arrays of valid and mapped pages and the link
    between them. Mapping pages and [__vm_vaddr_alloc] keep it, map exactly the
    pages they should, and leave the other translations alone. *)

From S2P Require Import Prelude Sparsebit SparsebitOps SparsebitTree SparsebitRange SparsebitQuery.
From S2P Require Import SparsebitRuns SparsebitSpec.
From S2P Require Import KvmUtil KvmPageTable KvmVirt KvmRegions KvmRegionAdd KvmPages KvmState.
From S2P Require Import KvmTables KvmWalk KvmTranslate KvmGap.

Implicit Types (vm : kvm_vm) (F M : Z → Prop) (T L : gmap (Z * Z) Z) (n i j k : Z).

(** ** Virtual pages *)
Definition valid_page i : Prop := 0 ≤ i < 2 ^ 35 ∨ 2 ^ 52 - 2 ^ 35 ≤ i < 2 ^ 52.
(** The key of a 4K mapping of the page. *)
Definition page_key i : Z * Z := (1, i mod 2 ^ 36).
Lemma idx_page i k a : 0 ≤ i → 1 ≤ k → 0 ≤ a < 4096 → idx k (low48 (i * 4096 + a)) = idx k (low48 (i * 4096)).
Proof.
  intros Hi Hk Ha. unfold idx, low48. change (2 ^ 48) with (2 ^ 36 * 4096).
  assert (∀ b, 0 ≤ b < 4096 → (i * 4096 + b) mod (2 ^ 36 * 4096) = i mod 2 ^ 36 * 4096 + b) as Hmod.
  { intros b Hb. Z.to_euclidean_division_equations. lia. }
  rewrite (Hmod a) by lia. rewrite <-(Z.add_0_r (i * 4096)), (Hmod 0) by lia.
  unfold lsize. rewrite Z.pow_add_r by lia. change (2 ^ 12) with 4096.
  assert (0 < 2 ^ (9 * (k - 1))) by (apply Z.pow_pos_nonneg; lia).
  rewrite <-!Z.div_div, !Z.div_add_l by lia. by rewrite !(Z.div_small _ 4096) by lia.
Qed.
Lemma idx_page_key i : 0 ≤ i → (1, idx 1 (low48 (i * 4096))) = page_key i.
Proof.
  intros Hi. unfold page_key, idx, low48, lsize. f_equal. change (2 ^ (12 + 9 * (1 - 1))) with 4096.
  change (2 ^ 48) with (2 ^ 36 * 4096). Z.to_euclidean_division_equations. lia.
Qed.
Lemma page_key_inj i j : valid_page i → valid_page j → page_key i = page_key j → i = j.
Proof.
  unfold valid_page, page_key. intros Hi Hj [= Heq]. revert Heq. Z.to_euclidean_division_equations. lia.
Qed.
Lemma valid_page_range i : valid_page i → 0 ≤ i < 2 ^ 52.
Proof. unfold valid_page. lia. Qed.
Lemma valid_canonical i a : valid_page i → 0 ≤ a < 4096 → canonical (i * 4096 + a).
Proof. unfold valid_page, canonical. lia. Qed.

(** ** The invariant *)
Record space `{!KernelTools} vm T L F M : Prop := {
  sp_tables : tables vm T L F;
  sp_valid : sb (vpages_valid vm) valid_page;
  sp_mapped : sb (vpages_mapped vm) M;
  sp_record i k : valid_page i → is_Some (L !! (k, idx k (low48 (i * 4096)))) → M i
}.
(** What allocations leave alone. *)
Record kept vm vm' : Prop := {
  ke_gfn : max_gfn vm' = max_gfn vm;
  ke_memslots : memslots vm' = memslots vm;
  ke_layout p : layout <$> regions vm' !! p = layout <$> regions vm !! p
}.
Lemma kept_refl vm : kept vm vm.
Proof. by split. Qed.
Lemma kept_trans vm1 vm2 vm3 : kept vm1 vm2 → kept vm2 vm3 → kept vm1 vm3.
Proof. intros [H1 H2 H3] [H4 H5 H6]. split; congruence. Qed.
Lemma kept_stable vm vm' : stable vm vm' → kept vm vm'.
Proof. intros [_ _ ? ? ?]. by split. Qed.

Section space.
Context `{!KernelTools}.

Lemma kept_in_slot vm vm' s n : kept vm vm' → in_slot vm s n → in_slot vm' s n.
Proof.
  intros [_ _ Hl] (p & x & Hx & Hs & Hn). specialize (Hl p). rewrite Hx in Hl.
  destruct (regions vm' !! p) as [y|] eqn:Hy; [|done]. injection Hl as Hr Hh.
  assert (layout y = layout x) as Hlay by (unfold layout; by rewrite Hr, Hh). exists p, y.
  rewrite (layout_page_in y x) by done. apply layout_facts in Hlay as (_ & _ & -> & _). done.
Qed.
(** What is left for page tables after at most [k] pages were taken. *)
Lemma avail_lost vm vm' F F' k m m' :
  kept vm vm' → lost F F' k → Z.of_nat m' + k ≤ Z.of_nat m → avail vm F m → avail vm' F' m'.
Proof.
  intros Hk [_ (lk & Hlk & Hlost)] Hm (s & l & Hs & Hnd & Hlen & Hl).
  set (l' := filter (λ i, i ∉ lk) l).
  assert (length l ≤ length l' + length lk)%nat as Hlen'.
  { rewrite <-length_app. apply submseteq_length, NoDup_submseteq; [done|]. intros i Hi.
    rewrite elem_of_app. unfold l'. rewrite list_elem_of_filter. destruct (decide (i ∈ lk)); auto. }
  exists s, (take m' l'). rewrite (ke_memslots _ _ Hk). split_and!; [done| | |].
  - apply (sublist_NoDup _ l'); [by apply NoDup_filter|apply sublist_take].
  - rewrite length_take. lia.
  - intros i Hi. apply (subseteq_take m' l') in Hi. unfold l' in Hi.
    apply list_elem_of_filter in Hi as [Hni Hi]. destruct (Hl i Hi) as (HF & Hin & ?).
    split_and!; [by destruct (Hlost i HF)|by eapply kept_in_slot|done].
Qed.

(** ** Frames of the tables *)
Lemma tables_same vm vm' T L F :
  same_memory_map vm vm' → hmem vm' = hmem vm → pgd vm' = pgd vm → pgd_created vm' = pgd_created vm →
  tables vm T L F → tables vm' T L F.
Proof.
  intros Hs Hm Hp Hc [Hok Hsh [He Hz Hu] Hcr Hr]. split; [by eapply vm_ok_same|done| |congruence|by rewrite Hp].
  assert (∀ h, word_at vm' h = word_at vm h) as Hat by (intros h; unfold word_at; by rewrite Hm).
  assert (∀ n i h, word_loc vm' n i h ↔ word_loc vm n i h) as Hloc.
  { intros n i h. apply word_same. apply Hs. }
  split; [|intros n i h ?? ?%Hloc; rewrite Hat; by eapply Hz|done].
  intros k j n i Hn Hi. destruct (He k j n i Hn Hi) as (h & Hw & Hv). exists h. by rewrite Hloc, Hat.
Qed.
Lemma tables_taken vm T L F p x u b num :
  regions vm !! p = Some x → vm_ok (with_unused vm p x u) (taken F b num) → tables vm T L F →
  tables (with_unused vm p x u) T L (taken F b num).
Proof.
  intros Hx Hok [_ Hsh [He Hz Hu] Hcr Hr]. split; try done. split.
  - intros k j n i Hn Hi. destruct (He k j n i Hn Hi) as (h & Hw & Hv). exists h.
    by rewrite with_unused_word.
  - intros n i h [HF _] Hi Hw. rewrite with_unused_word in Hw by done. by eapply Hz.
  - intros a n Ha [HF _]. by eapply Hu.
Qed.
Lemma wp_on_mapped {A} (m : S_ A) (Φ : A → kvm_vm → Prop) vm :
  wp m (λ a s, Φ a (with_vpages vm (vpages_valid vm) s)) (vpages_mapped vm) → wp (on_mapped m) Φ vm.
Proof. unfold wp, on_mapped. by destruct (m (vpages_mapped vm)) as [[a s]| |]. Qed.

(** ** Mapping pages *)
Definition add_page M i : Z → Prop := λ j, M j ∨ j = i.
Lemma space_unmapped vm T L F M i :
  space vm T L F M → valid_page i → ¬ M i → unmapped T L (low48 (i * 4096)) 1.
Proof.
  intros Hs Hv Hm. split.
  - intros k Hk. destruct (L !! (k, _)) eqn:E; [|done]. destruct Hm.
    apply (sp_record _ _ _ _ _ Hs i k); [done|]. by rewrite E.
  - destruct (T !! _) as [n|] eqn:E; [|done].
    destruct (sh_tab _ _ (ta_shape _ _ _ _ (sp_tables _ _ _ _ _ Hs)) _ _ _ E) as (? & _). lia.
Qed.
Lemma cwp_map_page b vm T L F M i n (Φ : unit → kvm_vm → Prop) :
  space vm T L F M → valid_page i → 0 ≤ n < 2 ^ 52 →
  (b → ¬ M i ∧ n ≤ max_gfn vm ∧ avail vm F 3) →
  (∀ vm' T' F', space vm' T' (<[page_key i := n * 4096]> L) F' (add_page M i) →
    lost F F' 3 → kept vm vm' → Φ tt vm') →
  cwp b (map_page (i * 4096) (n * 4096)) Φ vm.
Proof.
  intros Hs Hv Hn Hb HΦ. pose proof Hs as [Ht HV HM Hrec]. pose proof (valid_page_range i Hv) as Hi.
  unfold map_page, virt_arch_pg_map, PG_LEVEL_4K. cwps.
  apply (cwp_pg_map b vm T L F valid_page); try done; [unfold in_u64; lia..| |].
  - intros (Hm & Hg & Hav)%Hb. split_and!; [|by eapply space_unmapped|done].
    split; rewrite ?Z.div_mul by lia; try done; by apply Z.mod_mul.
  - intros vm1 T1 F1 _ [Ht1 _ _ Hlost Hst]. cwps.
    rewrite (pages_shift vm1 F1), Z.div_mul by (lia || apply Ht1). apply cwp_wp, wp_on_mapped.
    apply (wp_op M (SetBit i)); [by rewrite (st_mapped _ _ Hst)|unfold op_typed, in_u64; lia|done|].
    intros s Hsb. rewrite idx_page_key in Ht1 by lia. apply (HΦ _ T1 F1); [|done|].
    + split; [by apply (tables_same vm1); [apply same_vpages|..]|by simpl; rewrite (st_valid _ _ Hst)|done|].
      intros j k Hj [pa Hpa]. apply lookup_insert_Some in Hpa as [[Heq _]|[_ Hpa]].
      * right. injection Heq as <- Heq. apply page_key_inj; [done..|].
        unfold page_key at 2. rewrite Heq. symmetry. apply idx_page_key.
        pose proof (valid_page_range j Hj). lia.
      * left. by eapply Hrec.
    + by destruct (kept_stable _ _ Hst) as [? ? ?].
Qed.

(** The mappings after [m] pages from [i] were mapped to those from [n], and
    the pages that are then mapped. *)
Fixpoint map_range L i n (m : nat) : gmap (Z * Z) Z :=
  match m with O => L | S m => map_range (<[page_key i := n * 4096]> L) (i + 1) (n + 1) m end.
Definition add_range M i (m : Z) : Z → Prop := λ j, M j ∨ range i m j.
Lemma space_ext vm T L F M M' : (∀ i, M i ↔ M' i) → space vm T L F M → space vm T L F M'.
Proof.
  intros HM [Ht HV Hm Hr]. split; try done; [by eapply sb_ext|]. intros i k Hi Hk. by apply HM, (Hr i k).
Qed.
Lemma cwp_map_pages b vm T L F M i n m (Φ : unit → kvm_vm → Prop) :
  space vm T L F M → (∀ j, range i (Z.of_nat m) j → valid_page j) → 0 ≤ n → n + Z.of_nat m ≤ 2 ^ 52 →
  (b → (∀ j, range i (Z.of_nat m) j → ¬ M j) ∧ n + Z.of_nat m - 1 ≤ max_gfn vm ∧
       avail vm F (3 * m)) →
  (∀ vm' T' F', space vm' T' (map_range L i n m) F' (add_range M i (Z.of_nat m)) →
    lost F F' (3 * Z.of_nat m) → kept vm vm' → Φ tt vm') →
  cwp b (map_pages m (u64 (i * 4096)) (u64 (n * 4096))) Φ vm.
Proof.
  revert vm T L F M i n Φ.
  induction m as [|m IH]; intros vm T L F M i n Φ Hs Hval Hn Hn' Hb HΦ; cbn [map_pages].
  { cwps. apply (HΦ vm T F); [|by apply lost_refl|apply kept_refl]. cbn [map_range].
    eapply space_ext; [|done]. intros j. unfold add_range, range. simpl. intuition lia. }
  assert (valid_page i) as Hi by (apply Hval; unfold range; lia). pose proof (valid_page_range i Hi).
  rewrite !u64_small by (unfold in_u64; lia). cwps.
  apply (cwp_map_page b vm T L F M i n); [done..|lia| |].
  { intros (Hm & Hg & Hav)%Hb. split_and!; [apply Hm; unfold range; lia|lia|].
    eapply avail_lost; [apply kept_refl|by apply (lost_refl F 0)| |exact Hav]. lia. }
  intros vm1 T1 F1 Hs1 Hl1 Hk1. cwps.
  rewrite (vo_page_size vm1 F1) by (apply Hs1).
  replace (i * 4096 + 4096) with ((i + 1) * 4096) by lia.
  replace (n * 4096 + 4096) with ((n + 1) * 4096) by lia.
  apply (IH vm1 T1 _ F1 _ (i + 1) (n + 1) _ Hs1); [intros j Hj; apply Hval; unfold range in *; lia|lia|lia|..].
  - intros (Hm & Hg & Hav)%Hb. rewrite (ke_gfn _ _ Hk1). split_and!; [|lia|].
    + intros j Hj [HMj| ->]; [|unfold range in Hj; lia]. eapply (Hm j); [|done]. unfold range in *. lia.
    + eapply avail_lost; [done|done| |exact Hav]. lia.
  - intros vm2 T2 F2 Hs2 Hl2 Hk2. apply (HΦ vm2 T2 F2); [|..|by eapply kept_trans].
    + eapply space_ext; [|done]. intros j. unfold add_range, add_page, range. intuition lia.
    + replace (3 * Z.of_nat (S m)) with (3 + 3 * Z.of_nat m) by lia. by eapply lost_trans.
Qed.

Lemma map_range_out L i n m a :
  (∀ j, range i (Z.of_nat m) j → page_key j ≠ a) → map_range L i n m !! a = L !! a.
Proof.
  revert L i n. induction m as [|m IH]; intros L i n Ha; cbn [map_range]; [done|].
  rewrite IH by (intros j Hj; apply Ha; unfold range in *; lia).
  apply lookup_insert_ne. apply Ha. unfold range. lia.
Qed.
Lemma map_range_in L i n m j :
  (∀ j, range i (Z.of_nat m) j → valid_page j) → range i (Z.of_nat m) j →
  map_range L i n m !! page_key j = Some ((n + (j - i)) * 4096).
Proof.
  revert L i n. induction m as [|m IH]; intros L i n Hval Hj; cbn [map_range];
    [unfold range in Hj; lia|].
  destruct (decide (j = i)) as [->|].
  - rewrite map_range_out, fin_maps.lookup_insert, decide_True; [f_equal; lia|done|].
    intros j Hj' ->%page_key_inj; [unfold range in Hj'; lia|..]; apply Hval; unfold range in *; lia.
  - rewrite IH; [f_equal; lia|..]; [|unfold range in *; lia].
    intros j' Hj'. apply Hval. unfold range in *. lia.
Qed.

(** ** [__vm_vaddr_alloc] *)
Lemma pages_sum vm F sz :
  vm_ok vm F → 0 ≤ sz < 2 ^ 64 →
  u64 (Z.shiftr sz (page_shift vm) + if negb (sz mod page_size vm =? 0) then 1 else 0) = pages_of sz.
Proof.
  intros Hok Hsz. rewrite (pages_shift vm F), (vo_page_size vm F) by done. unfold pages_of.
  destruct (Z.eqb_spec (sz mod 4096) 0); cbn [negb];
    rewrite u64_small by (unfold in_u64; Z.to_euclidean_division_equations; lia);
    Z.to_euclidean_division_equations; lia.
Qed.
(** The result: the pages from [r] are mapped to the pages from [d]. *)
Record allocated vm L F M s (pages start r d : Z) vm' T' F' : Prop := {
  al_space : space vm' T' (map_range L r d (Z.to_nat pages)) F' (add_range M r pages);
  al_gap : run (gap valid_page M) r pages;
  al_lowest : (∃ k, start ≤ k ∧ run valid_page k pages) →
    lowest_run (gap valid_page M) start pages r;
  al_data : lowest_run (λ n, F n ∧ in_slot vm s n) KVM_UTIL_MIN_PFN pages d;
  al_used j : range d pages j → ¬ F' j;
  al_free j : F' j → F j;
  al_kept : kept vm vm'
}.
Lemma cwp_vaddr_alloc b vm T L F M sz vaddr_min type s (Φ : Z → kvm_vm → Prop) :
  let pages := pages_of sz in let start := pages_of vaddr_min in
  space vm T L F M → memslots vm !! type = Some s →
  0 < sz → sz + 4096 < 2 ^ 64 → 0 ≤ vaddr_min → vaddr_min + 4096 < 2 ^ 64 →
  (b → (∃ k, KVM_UTIL_MIN_PFN ≤ k ∧ run (λ n, F n ∧ in_slot vm s n) k pages) ∧
       (∃ k, start ≤ k ∧ run (gap valid_page M) k pages) ∧ avail vm F (4 * Z.to_nat pages)) →
  (∀ r d vm' T' F', allocated vm L F M s pages start r d vm' T' F' → Φ (r * 4096) vm') →
  cwp b (__vm_vaddr_alloc sz vaddr_min type) Φ vm.
Proof.
  intros pages start Hs Hslot Hsz Hsz' Hmin Hmin' Hb HΦ. pose proof Hs as [Ht HV HM Hrec].
  pose proof (ta_vm _ _ _ _ Ht) as Hok.
  assert (0 < pages < 2 ^ 53) as Hp by (unfold pages, pages_of; Z.to_euclidean_division_equations; lia).
  unfold __vm_vaddr_alloc, virt_arch_pgd_alloc, TEST_ASSERT, memslot_of. cwps.
  apply cwp_assert; [unfold mode_ok; by rewrite bool_decide_eq_true_2 by apply Hok|]. intros _. cwps.
  rewrite (ta_created _ _ _ _ Ht), (pages_sum vm F) by (done || lia). fold pages. cwps.
  rewrite Hslot. apply cwp_lift; [done..|]. intros ? [= <-]. cwps.
  rewrite (vo_page_size vm F Hok). change (u64 (KVM_UTIL_MIN_PFN * 4096)) with 8192.
  destruct (phy_alloc_vm vm F pages 8192 type s)
    as [(d & p & x & u & Hlow & Hx & Hsl & Hin & Hok' & Hrun)|[Hab Hno]]; try done; try lia;
    unfold cwp at 1; rewrite ?Hrun, ?Hab; cycle 1.
  { intros [(k & Hk & Hr) _]%Hb. by apply (Hno k). }
  change (8192 / 4096) with KVM_UTIL_MIN_PFN in Hlow. set (vm1 := with_unused vm p x u) in *. cwps.
  assert (space vm1 T L (taken F d pages) M) as Hs1 by (split; try done; by apply tables_taken).
  assert (kept vm vm1) as Hk1 by (apply kept_stable; by apply stable_unused).
  apply (cwp_unused_gap b vm1 (taken F d pages) valid_page M); try done.
  { intros i Hi. apply valid_page_range in Hi. lia. }
  { by intros (_ & ? & _)%Hb. }
  fold pages start. intros r Hgap Hlowest. cwps.
  assert (∀ j, range d pages j → in_some vm j) as Hsome by (intros j Hj; exists p, x; by auto).
  assert (0 ≤ d ∧ d + pages - 1 ≤ max_gfn vm ∧ max_gfn vm < 2 ^ 40) as (Hd1 & Hd2 & Hd3).
  { pose proof (page_gfn vm F d Hok (Hsome d ltac:(unfold range; lia))).
    pose proof (page_gfn vm F (d + pages - 1) Hok (Hsome (d + pages - 1) ltac:(unfold range; lia))).
    pose proof (vo_gfn vm F Hok). lia. }
  assert (∀ j, range r pages j → valid_page j) as Hval by (intros j Hj; by apply Hgap).
  pose proof (valid_page_range r (Hval r ltac:(unfold range; lia))).
  rewrite <-(u64_small (r * 4096)), <-(u64_small (d * 4096)) by (unfold in_u64; lia).
  rewrite <-(Z2Nat.id pages) in Hval by lia.
  apply (cwp_map_pages b vm1 T L (taken F d pages) M r d); [done..|lia|lia| |].
  - rewrite Z2Nat.id by lia. intros (_ & _ & Hav)%Hb. split_and!; [intros j Hj; by apply Hgap|done|].
    eapply avail_lost; [done|apply lost_taken; lia| |exact Hav]. lia.
  - rewrite Z2Nat.id by lia. intros vm2 T2 F2 Hs2 Hl2 Hk2. cwps.
    rewrite u64_small by (unfold in_u64; lia).
    apply (HΦ r d vm2 T2 F2). split; try done.
    + intros j Hj HF2. destruct Hl2 as [Hl2 _]. by apply Hl2 in HF2 as [_ ?].
    + intros j HF2. destruct Hl2 as [Hl2 _]. by apply Hl2 in HF2 as [? _].
    + by eapply kept_trans.
Qed.

(** ** Translations in an address space *)
Lemma page_split a : a = a / 4096 * 4096 + a mod 4096 ∧ 0 ≤ a mod 4096 < 4096.
Proof. pose proof (Z.div_mod a 4096). pose proof (Z.mod_pos_bound a 4096). lia. Qed.
Lemma gva2gpa_mapped vm T L F M a k pa :
  space vm T L F M → in_u64 a → valid_page (a / 4096) → L !! (k, idx k (low48 a)) = Some pa →
  addr_arch_gva2gpa a vm = Done (translated a k pa, vm).
Proof.
  intros [Ht HV _ _] Ha Hv HL. destruct (page_split a) as [Heq Hoff].
  assert (canonical a) as Hc by (rewrite Heq; by apply valid_canonical).
  assert (cwp True (addr_arch_gva2gpa a) (λ r w, r = translated a k pa ∧ w = vm) vm) as Hrun.
  { apply (cwp_gva2gpa True vm T L F valid_page); try done.
    - intros _. split_and!; try done. exists k. by rewrite HL.
    - intros k' pa' _ _ HL'. split; [|done]. assert (k' = k) as ->; [|by simplify_eq].
      pose proof (ta_shape _ _ _ _ Ht) as Hs.
      destruct (sh_leaf _ _ Hs _ _ _ HL) as (? & _ & _ & _ & [n Hn] & Hno).
      rewrite <-idx_succ in Hn by lia. eapply (leaf_level T L (low48 a) k k'); try done. }
  apply cwp_total in Hrun as (r & w & Hrun & -> & ->). done.
Qed.
Lemma gva2gpa_inv vm T L F M a g vm' :
  space vm T L F M → in_u64 a → addr_arch_gva2gpa a vm = Done (g, vm') →
  vm' = vm ∧ valid_page (a / 4096) ∧
  ∃ k pa, L !! (k, idx k (low48 a)) = Some pa ∧ g = translated a k pa.
Proof.
  intros [Ht HV _ _] Ha Hrun.
  assert (cwp False (addr_arch_gva2gpa a) (λ r w, w = vm ∧ valid_page (a / 4096) ∧
    ∃ k pa, L !! (k, idx k (low48 a)) = Some pa ∧ r = translated a k pa) vm) as Hwp.
  { apply (cwp_gva2gpa False vm T L F valid_page); try done.
    intros k pa Hv _ HL. split_and!; try done. by exists k, pa. }
  unfold cwp in Hwp. by rewrite Hrun in Hwp.
Qed.
Lemma gva2gpa_unmapped vm T L F M a :
  space vm T L F M → in_u64 a → ¬ (valid_page (a / 4096) ∧ has_mapping L (low48 a)) →
  addr_arch_gva2gpa a vm = Abort.
Proof.
  intros Hs Ha Hno. pose proof Hs as [Ht HV _ _].
  assert (cwp False (addr_arch_gva2gpa a) (λ _ _, False) vm) as Hwp.
  { apply (cwp_gva2gpa False vm T L F valid_page); try done.
    intros k pa Hv _ HL. apply Hno. split; [done|]. exists k. by rewrite HL. }
  unfold cwp in Hwp. by destruct (addr_arch_gva2gpa a vm) as [[]| |].
Qed.
Lemma key_of_page a k : in_u64 a → 1 ≤ k → idx k (low48 a) = idx k (low48 (a / 4096 * 4096)).
Proof.
  intros [Ha _] Hk. destruct (page_split a) as [Heq Hoff]. rewrite Heq at 1.
  apply idx_page; [apply Z.div_pos; lia|done..].
Qed.
(** New mappings of unmapped pages keep every translation there was. *)
Lemma translations_kept vm T L F M vm' T' F' M' r d pages a g :
  space vm T L F M → space vm' T' (map_range L r d (Z.to_nat pages)) F' M' → 0 ≤ pages →
  run (gap valid_page M) r pages → in_u64 a →
  addr_arch_gva2gpa a vm = Done (g, vm) → addr_arch_gva2gpa a vm' = Done (g, vm').
Proof.
  intros Hs Hs' Hp Hgap Ha Hrun.
  destruct (gva2gpa_inv _ _ _ _ _ _ _ _ Hs Ha Hrun) as (_ & Hv & k & pa & HL & ->).
  pose proof (ta_shape _ _ _ _ (sp_tables _ _ _ _ _ Hs)) as Hsh.
  destruct (sh_leaf _ _ Hsh _ _ _ HL) as (Hk & _).
  eapply gva2gpa_mapped; [done..|]. rewrite map_range_out; [done|].
  rewrite Z2Nat.id by lia. intros j Hj Heq. destruct (Hgap j Hj) as [Hvj HMj]. apply HMj.
  rewrite (key_of_page a k) in * by (done || lia).
  assert (j = a / 4096) as ->.
  { apply page_key_inj; try done. rewrite Heq. injection Heq as <- _. apply idx_page_key.
    apply valid_page_range in Hv. lia. }
  apply (sp_record _ _ _ _ _ Hs _ k); [done|]. by rewrite HL.
Qed.
Lemma gva2gpa_range vm' T' L F' M' r d pages a :
  space vm' T' (map_range L r d (Z.to_nat pages)) F' M' → 0 ≤ pages →
  run valid_page r pages → r * 4096 ≤ a < (r + pages) * 4096 → a < 2 ^ 47 →
  addr_arch_gva2gpa a vm' = Done (d * 4096 + (a - r * 4096), vm').
Proof.
  intros Hs Hp Hval Hr Ha. destruct (page_split a) as [Heq Hoff].
  assert (range r pages (a / 4096)) as Hin by (unfold range; lia).
  pose proof (Hval _ Hin) as Hv. pose proof (valid_page_range _ Hv).
  rewrite (gva2gpa_mapped _ _ _ _ _ a 1 ((d + (a / 4096 - r)) * 4096) Hs); [|unfold in_u64; lia|done|].
  - rewrite translated_low by lia. change (lsize 1) with 4096. do 2 f_equal. lia.
  - rewrite key_of_page, idx_page_key by (unfold in_u64; lia).
    apply map_range_in; rewrite Z2Nat.id by lia; [|done]. intros j Hj. by apply Hval.
Qed.
End space.
