(* ===== verification/KvmCreate.v ===== *)
(** * selftests: a VM from its creation to its first page table

    [____vm_create] gives an empty VM whose valid pages are the canonical ones;
    regions may be added at any time and keep the tables and the address space;
    the first allocation creates the root table. *)

From S2P Require Import Prelude Sparsebit SparsebitOps SparsebitTree SparsebitRange SparsebitQuery.
From S2P Require Import SparsebitRuns SparsebitSpec.
From S2P Require Import KvmUtil KvmPageTable KvmVirt KvmRegions KvmRegionAdd KvmPages KvmState.
From S2P Require Import KvmTables KvmWalk KvmTranslate KvmGap KvmSpace.

Implicit Types (vm : kvm_vm) (x y : userspace_mem_region) (F M : Z → Prop).
Implicit Types (T L : gmap (Z * Z) Z) (n i j k : Z).

(** ** Adding a region to a VM in use *)
Section region.
Context `{!KernelTools}.

Definition more F (b num : Z) : Z → Prop := λ n, F n ∨ range b num n.
(** What adding a region changes of the VM. *)
Record region_added vm vm' x (gpa s npages : Z) : Prop := {
  ra_new : added vm x gpa s npages;
  ra_index : index_ok vm';
  ra_regions p y : regions vm' !! p = Some y → y = x ∨ regions vm !! p = Some y;
  ra_old p y : regions vm !! p = Some y → regions vm' !! p = Some y;
  ra_same : page_size vm' = page_size vm ∧ page_shift vm' = page_shift vm ∧ mode vm' = mode vm ∧
    max_gfn vm' = max_gfn vm ∧ hmem vm' = hmem vm ∧ pgd vm' = pgd vm ∧
    pgd_created vm' = pgd_created vm ∧ vpages_valid vm' = vpages_valid vm ∧
    vpages_mapped vm' = vpages_mapped vm;
  ra_found : ∃ p, regions vm' !! p = Some x
}.
Lemma indexed_added vm x gt ht gpa s npages :
  index_ok vm → added vm x gpa s npages → index_ok (indexed vm (next_region vm) x gt ht) →
  region_added vm (indexed vm (next_region vm) x gt ht) x gpa s npages.
Proof.
  intros Hi Ha Hi'. assert (regions vm !! next_region vm = None) as Hfresh.
  { apply eq_None_not_Some. intros ?%(ix_next vm Hi). lia. }
  split; try done; cbn [indexed with_index with_next with_regions regions].
  - intros p y [[_ <-]|[_ Hy]]%lookup_insert_Some; auto.
  - intros p y Hy. rewrite lookup_insert_ne; [done|]. intros <-. congruence.
  - exists (next_region vm). by rewrite fin_maps.lookup_insert, decide_True.
Qed.

Section added.
Context (vm vm' : kvm_vm) (x : userspace_mem_region) (gpa s npages : Z) (F : Z → Prop).
Context (Hadd : region_added vm vm' x gpa s npages) (Hsize : page_size vm = 4096).
Context (Hpages : pages_ok vm F).

Lemma new_page n : page_in x n ↔ range (gpa / 4096) npages n.
Proof.
  destruct (ra_new _ _ _ _ _ _ Hadd) as [_ _ Hs Hz _ Hm _ _ _ _]. rewrite Hsize in *. unfold page_in, range.
  rewrite Hs, Hz. pose proof (Z.div_mod gpa 4096). lia.
Qed.
Lemma new_page_apart p y n : regions vm !! p = Some y → page_in y n → ¬ page_in x n.
Proof.
  intros Hy Hn Hn'. destruct (ad_beside _ _ _ _ _ (ra_new _ _ _ _ _ _ Hadd) p y Hy) as (_ & Hd & _).
  unfold page_in in *. lia.
Qed.
Lemma pages_added : pages_ok vm' (more F (gpa / 4096) npages).
Proof.
  intros p y [->|Hy]%(ra_regions _ _ _ _ _ _ Hadd).
  - eapply sb_ext; [|apply (ad_unused _ _ _ _ _ (ra_new _ _ _ _ _ _ Hadd))]. intros i.
    rewrite Hsize, <-new_page. unfold more. rewrite <-new_page. tauto.
  - eapply sb_ext; [|by apply (Hpages p)]. intros i. unfold more. rewrite <-new_page.
    pose proof (new_page_apart p y i Hy). tauto.
Qed.
Lemma small_added :
  (∀ p y, regions vm !! p = Some y → r_start y + r_size y ≤ (max_gfn vm + 1) * 4096) →
  ∀ p y, regions vm' !! p = Some y → r_start y + r_size y ≤ (max_gfn vm' + 1) * 4096.
Proof.
  intros Hold p y. destruct (ra_same _ _ _ _ _ _ Hadd) as (_ & _ & _ & -> & _).
  intros [->|Hy]%(ra_regions _ _ _ _ _ _ Hadd); [|by apply (Hold p)].
  destruct (ra_new _ _ _ _ _ _ Hadd) as [_ _ -> -> _ _ Hl _ _ _]. by rewrite Hsize in *.
Qed.
Lemma word_added n i h : word_loc vm n i h → word_loc vm' n i h.
Proof.
  intros (p & y & Hy & Hn & ->). exists p, y. split; [|done]. by apply (ra_old _ _ _ _ _ _ Hadd).
Qed.
Lemma mem_added T L : mem_ok vm T L F → mem_ok vm' T L (more F (gpa / 4096) npages).
Proof.
  intros [He Hz Hu]. destruct (ra_same _ _ _ _ _ _ Hadd) as (_ & _ & _ & _ & Hm & _).
  assert (∀ h, word_at vm' h = word_at vm h) as Hat by (intros h; unfold word_at; by rewrite Hm).
  split.
  - intros k j n i Hn Hi. destruct (He k j n i Hn Hi) as (h & Hw & Hv). exists h.
    rewrite Hat. split; [by apply word_added|done].
  - intros n i h Hn Hi (p & y & Hy & Hpn & ->). rewrite Hat. unfold more in Hn. rewrite <-new_page in Hn.
    apply (ra_regions _ _ _ _ _ _ Hadd) in Hy as [->|Hy].
    + apply (ad_zero _ _ _ _ _ (ra_new _ _ _ _ _ _ Hadd)). unfold page_in in Hpn. lia.
    + eapply Hz; [|done|by exists p, y]. destruct Hn as [|Hn]; [done|].
      by destruct (new_page_apart p y n Hy Hpn).
  - intros a n Ha [HF|Hr]; [by eapply Hu|]. destruct a as [k j].
    destruct (He k j n 0 Ha) as (h & (p & y & Hy & Hpn & _) & _); [lia|].
    apply (new_page_apart p y n Hy Hpn). by apply new_page.
Qed.
End added.

(** A region added to a VM in use adds unused pages and keeps the rest. *)
Lemma space_added vm vm' x gpa s npages T L F M :
  region_added vm vm' x gpa s npages → memslots vm' = memslots vm → space vm T L F M →
  space vm' T L (more F (gpa / 4096) npages) M.
Proof.
  intros Ha Hms [[Hok Hsh Hm Hc Hr] HV HM Hrec].
  destruct (ra_same _ _ _ _ _ _ Ha) as (H1 & H2 & H3 & H4 & H5 & H6 & H7 & H8 & H9).
  pose proof (vo_page_size vm F Hok) as Hsize. pose proof (vo_pages vm F Hok) as Hp.
  split; rewrite ?H8, ?H9; try done. split; rewrite ?H6, ?H7; try done.
  - split; rewrite ?H1, ?H2, ?H3, ?H4, ?Hms; try apply Hok; [apply Ha| | |].
    + rewrite <-H4. eapply (small_added vm vm' x gpa s npages); [done..|]. apply Hok.
    + by eapply pages_added.
    + intros t s' Hs. destruct (vo_slots vm F Hok t s' Hs) as (p & y & Hy & Hsl). exists p, y.
      split; [|done]. by apply (ra_old _ _ _ _ _ _ Ha).
  - by eapply mem_added.
Qed.
End region.

(** ** A new VM *)
Record fresh vm : Prop := {
  fr_mode : mode vm = VM_MODE_PXXV48_4K;
  fr_size : page_size vm = 4096;
  fr_shift : page_shift vm = 12;
  fr_gfn : 0 ≤ max_gfn vm < 2 ^ 40;
  fr_gpa : gpa_tree vm = RbNull;
  fr_hva : hva_tree vm = RbNull;
  fr_hash : slot_hash vm = ∅;
  fr_regions : regions vm = ∅;
  fr_valid : sb (vpages_valid vm) valid_page;
  fr_mapped : sb (vpages_mapped vm) nothing;
  fr_created : pgd_created vm = false;
  fr_memslots : memslots vm = [0; 0; 0; 0];
  fr_hmem : hmem vm = ∅
}.
Lemma fresh_index `{!KernelTools} vm : fresh vm → index_ok vm.
Proof.
  intros [_ _ _ _ Hg Hh Hs Hr _ _ _ _ _]. split; unfold possible; rewrite ?Hg, ?Hh, ?Hs, ?Hr; cbn.
  all: intros; rewrite ?lookup_empty, ?elem_of_nil in *; try constructor; try done.
  all: try (by intros [? ?]). all: set_solver.
Qed.

Section create.
Context `{!Cpu}.
(** The width of physical addresses that CPUID reports. *)
Hypothesis phy_addr_bound : ∀ pa, max_phy_addr = Some pa → 12 ≤ pa ≤ 52.

Lemma max_gfn_range vm : page_shift vm = 12 → 12 ≤ pa_bits vm ≤ 52 →
  0 ≤ x86_vm_compute_max_gfn vm < 2 ^ 40.
Proof.
  intros Hs Hp. unfold x86_vm_compute_max_gfn. rewrite Hs.
  assert (0 < 2 ^ (pa_bits vm - 12) ≤ 2 ^ 40).
  { split; [apply Z.pow_pos_nonneg; lia|apply Z.pow_le_mono_r; lia]. }
  rewrite Z.shiftl_mul_pow2, Z.mul_1_l by lia. rewrite (u64_small (2 ^ _)) by (unfold in_u64; lia).
  rewrite (u64_small (2 ^ _ - 1)) by (unfold in_u64; lia).
  destruct (negb host_cpu_is_amd); [lia|]. destruct (_ <? 40); [lia|].
  match goal with |- context [Z.min _ ?u] => assert (0 ≤ u) by (apply wrap_range; lia) end. lia.
Qed.
Lemma wp_populate vm (Φ : unit → kvm_vm → Prop) :
  va_bits vm = 48 → page_shift vm = 12 → sb (vpages_valid vm) nothing →
  (∀ s, sb s valid_page → Φ tt (with_vpages vm s (vpages_mapped vm))) →
  wp vm_vaddr_populate_bitmap Φ vm.
Proof.
  intros Hv Hs Hsb HΦ. unfold vm_vaddr_populate_bitmap. wps. rewrite Hv, Hs.
  change (u64 (Z.shiftl 1 (48 - 1))) with (2 ^ 47). change (Z.shiftr (2 ^ 47) 12) with (2 ^ 35).
  change (Z.shiftr (u64 (Z.lnot (u64 (2 ^ 47 - 1)))) 12) with (2 ^ 52 - 2 ^ 35).
  assert (∀ m (Ψ : unit → kvm_vm → Prop) vm,
    wp m (λ a s, Ψ a (with_vpages vm s (vpages_mapped vm))) (vpages_valid vm) → wp (on_valid m) Ψ vm)
    as Hon.
  { intros m Ψ w. unfold wp, on_valid. by destruct (m (vpages_valid w)) as [[a s]| |]. }
  apply Hon. apply (wp_op nothing (SetNum 0 (2 ^ 35))); [done|by vm_compute|done|].
  intros s1 Hs1. apply Hon. apply (wp_op _ (SetNum (2 ^ 52 - 2 ^ 35) (2 ^ 35)) _ _ Hs1); [by vm_compute|done|].
  intros s2 Hs2. apply HΦ. eapply sb_ext; [|done]. intros i. unfold effect, nothing, valid_page. lia.
Qed.
Lemma bind_Done {A B} (m : outcome A) (k : A → outcome B) a : m = Done a → m ≫= k = k a.
Proof. by intros ->. Qed.
Lemma setup_result c pa :
  c_valid c = [] → c_mapped c = [] → 12 ≤ pa ≤ 52 →
  ∃ vm, vm_setup c VM_MODE_PXXV48_4K (vm_guest_mode_params VM_MODE_PXXV48_4K) pa 48 = Done vm ∧
    fresh vm.
Proof.
  intros Hcv Hcm Hpa. unfold vm_setup. rewrite Hcv, Hcm.
  rewrite (bind_Done (sparsebit_alloc []) _ empty_array) by done. cbv zeta.
  set (vm := Vm _ _ _ _ _ _ _ _ _ _ _ _ _ _ _ _ _).
  assert (wp vm_vaddr_populate_bitmap
    (λ _ w, ∃ s, sb s valid_page ∧ w = with_vpages vm s (vpages_mapped vm)) vm) as Hpop.
  { apply wp_populate; [done..|apply sb_empty|]. intros s Hs. by exists s. }
  apply wp_inv in Hpop as ([] & w & Hrun & s & Hs & ->). rewrite (bind_Done _ _ _ Hrun).
  rewrite (bind_Done (sparsebit_alloc []) _ empty_array) by done.
  eexists. split; [reflexivity|].
  assert (0 ≤ x86_vm_compute_max_gfn (with_vpages vm s (vpages_mapped vm)) < 2 ^ 40)
    as Hgfn by (by apply max_gfn_range).
  split; [reflexivity|reflexivity|reflexivity|exact Hgfn|reflexivity|reflexivity|reflexivity
         |reflexivity|exact Hs|exact sb_empty|reflexivity..].
Qed.
#[local] Opaque vm_setup.
(** [____vm_create] gives an empty VM, or ends the test when the host refuses. *)
Lemma create_result c :
  c_valid c = [] → c_mapped c = [] →
  match ____vm_create c VM_MODE_PXXV48_4K with
  | Done vm => fresh vm
  | Abort => c_calloc c = false ∨ c_open c = false ∨ c_vm_fd c < 0 ∨
      kvm_get_cpu_address_width.2 ≠ 48 ∧ kvm_get_cpu_address_width.2 ≠ 57
  | Undef => False
  end.
Proof.
  intros Hcv Hcm. unfold ____vm_create, assert_. destruct (c_calloc c); [|by left].
  rewrite decide_True by done. destruct kvm_get_cpu_address_width as [pa va] eqn:Hw. cbn [snd].
  destruct ((va =? 48) || (va =? 57)) eqn:Hva; cycle 1.
  { cbn. right; right; right. apply orb_false_iff in Hva. lia. }
  destruct (c_open c); [|by right; left].
  destruct (Z.leb_spec 0 (c_vm_fd c)); [|by right; right; left].
  cbn [mbind outcome_bind mret outcome_ret].
  destruct (setup_result c pa) as (vm & -> & Hvm); [done..| |done].
  unfold kvm_get_cpu_address_width in Hw. destruct max_phy_addr as [pa'|] eqn:E.
  - injection Hw as <- _. by apply phy_addr_bound.
  - injection Hw as _ <-. by apply orb_true_iff in Hva as [?|?].
Qed.
End create.

(** ** Memory, but no page tables *)
Record blank `{!KernelTools} vm F : Prop := {
  bl_vm : vm_ok vm F;
  bl_zero n i h : F n → 0 ≤ i < 512 → word_loc vm n i h → word_at vm h = 0;
  bl_valid : sb (vpages_valid vm) valid_page;
  bl_mapped : sb (vpages_mapped vm) nothing;
  bl_created : pgd_created vm = false
}.
Section slot0.
Context `{!KernelTools, !KernelToolsLaws, !Host}.
Hypothesis pagesz_bound : ∀ t, 0 ≤ get_backing_src_pagesz t ≤ 2 ^ 34.

Lemma fresh_params vm : fresh vm → params_ok vm.
Proof. intros [_ Hs Hsh Hg _ _ _ _ _ _ _ _ _]. split; rewrite ?Hs, ?Hsh; lia. Qed.
Lemma fresh_blank vm vm' x gpa nr :
  fresh vm → region_added vm vm' x gpa 0 nr →
  blank (with_memslots vm' [0; 0; 0; 0]) (range (gpa / 4096) nr).
Proof.
  intros Hf Ha. destruct (ra_same _ _ _ _ _ _ Ha) as (E1 & E2 & E3 & E4 & E5 & _ & E6 & E7 & E8).
  assert (∀ p y, regions vm !! p = Some y → False) as Hno.
  { intros p y. by rewrite (fr_regions vm Hf), lookup_empty. }
  split; cbn [with_memslots vpages_valid vpages_mapped pgd_created]; rewrite ?E6, ?E7, ?E8; try apply Hf.
  - split; cbn [with_memslots mode page_size page_shift max_gfn regions memslots];
      rewrite ?E1, ?E2, ?E3, ?E4; try apply Hf; try done.
    + destruct (ra_index _ _ _ _ _ _ Ha). by split.
    + rewrite <-E4. apply (small_added vm vm' x gpa 0 nr Ha); [apply Hf|].
      intros p y Hy. by destruct (Hno p y).
    + assert (pages_ok vm nothing) as Hp by (intros p y Hy; by destruct (Hno p y)).
      intros p y Hy. eapply sb_ext; [|by apply (pages_added vm vm' x gpa 0 nr nothing Ha (fr_size vm Hf) Hp p)].
      intros i. unfold more, nothing. tauto.
    + intros t s Hs. destruct (ra_found _ _ _ _ _ _ Ha) as [p Hp]. exists p, x. split; [done|].
      rewrite (ad_slot _ _ _ _ _ (ra_new _ _ _ _ _ _ Ha)).
      do 4 (destruct t as [|t]; [by injection Hs|]). done.
  - intros n i h _ _ _. unfold word_at. cbn [with_memslots hmem]. by rewrite E5, (fr_hmem vm Hf), lookup_empty.
Qed.
Lemma cwp_add_slot0 b a vm nr (Φ : unit → kvm_vm → Prop) :
  fresh vm → getpageshift = 12 → in_u64 nr → a_sparsebit a = [] →
  (∀ start, a_mmap a = Some start → mmap_fresh vm start (nr * 4096)) →
  (b → add_ok a vm VM_MEM_SRC_ANONYMOUS 0 0 nr) →
  (∀ vm', blank vm' (range 0 nr) → memslots vm' = [0; 0; 0; 0] →
    (∀ n, range 0 nr n → in_slot vm' 0 n) → Φ tt vm') →
  cwp b (vm_add_slot0 a nr) Φ vm.
Proof.
  intros Hf Hps Hnr Hoom Hmap Hb HΦ. pose proof (fresh_index vm Hf) as Hi. unfold vm_add_slot0. cwps.
  apply cwp_region_add; try done; [by apply fresh_params|lia|by rewrite (fr_mode vm Hf)| |].
  - intros start Hs. rewrite (fr_size vm Hf). unfold mmap_bytes, region_alignment.
    rewrite decide_False by done. by apply Hmap.
  - intros x gt ht Hadd Hix. pose proof (indexed_added _ _ _ _ _ _ _ Hi Hadd Hix) as Hra. cwps.
    apply HΦ; [by eapply (fresh_blank vm _ x 0 nr)|done|]. intros n Hn.
    destruct (ra_found _ _ _ _ _ _ Hra) as [p Hp]. exists p, x.
    split_and!; [done|apply Hadd|]. by apply (new_page _ _ _ _ _ _ Hra (fr_size vm Hf)).
Qed.
Lemma slot0_avail vm nr F m :
  memslots vm = [0; 0; 0; 0] → (∀ n, range 0 nr n → in_slot vm 0 n) → (∀ n, range 0 nr n → F n) →
  384 + Z.of_nat m ≤ nr → avail vm F m.
Proof.
  intros Hms Hin HF Hnr. exists 0, (seqZ 384 (Z.of_nat m)). rewrite Hms.
  split_and!; [done|apply NoDup_seqZ|rewrite length_seqZ; lia|]. intros i Hi%elem_of_seqZ.
  split_and!; [apply HF|apply Hin|]; unfold range; lia.
Qed.
(** A region added to a VM in use. *)
Lemma cwp_region_add_space b a vm src gpa s npages fl T L F M (Φ : unit → kvm_vm → Prop) :
  space vm T L F M → getpageshift = 12 → in_u64 gpa → in_u64 npages → a_sparsebit a = [] →
  (∀ start, a_mmap a = Some start → mmap_fresh vm start (mmap_bytes src (npages * 4096))) →
  (b → add_ok a vm src gpa s npages) →
  (∀ vm' x, region_added vm vm' x gpa s npages → space vm' T L (more F (gpa / 4096) npages) M →
    Φ tt vm') →
  cwp b (vm_userspace_mem_region_add a src gpa s npages fl) Φ vm.
Proof.
  intros Hs Hps Hg Hn Hoom Hmap Hb HΦ. pose proof (ta_vm _ _ _ _ (sp_tables _ _ _ _ _ Hs)) as Hok.
  apply cwp_region_add; try done; [apply Hok|by eapply vm_ok_params|lia|by rewrite (vo_mode vm F Hok)| |].
  - intros start Hst. rewrite (vo_page_size vm F Hok). by apply Hmap.
  - intros x gt ht Hadd Hix. assert (region_added vm (indexed vm (next_region vm) x gt ht) x gpa s npages)
      as Hra by (apply indexed_added; [apply Hok|done..]).
    apply (HΦ _ x); [done|]. by eapply space_added.
Qed.
(** The size [__vm_create] gives slot 0 leaves room for the tables. *)
Lemma nr_pages_enough max_vcpus vcpus extra :
  getpageshift = 12 → 0 < vcpus ≤ max_vcpus → max_vcpus ≤ 2 ^ 16 → 0 ≤ extra < 2 ^ 32 →
  ∃ nr, vm_nr_pages_required max_vcpus VM_MODE_PXXV48_4K vcpus extra = Done nr ∧
    512 + 5 * vcpus ≤ nr < 2 ^ 32.
Proof.
  intros Hps Hv Hm He. unfold vm_nr_pages_required, assert_.
  rewrite (proj2 (Z.eqb_neq vcpus 0)), (proj2 (Z.leb_le vcpus max_vcpus)) by lia.
  change (ucall_nr_pages_required _) with (Done 138). unfold DEFAULT_STACK_PGS.
  change PTES_PER_MIN_PAGE with 512. cbn [negb mbind outcome_bind].
  rewrite adjust_same by (rewrite ?Hps; done || lia). rewrite (u32_small (vcpus * 5)) by (unfold in_u32; lia).
  rewrite (u64_small (512 + vcpus * 5)) by (unfold in_u64; lia).
  rewrite (u64_small (512 + vcpus * 5 + extra)) by (unfold in_u64; lia).
  set (q := (512 + vcpus * 5 + extra) / 512). assert (0 ≤ q < 2 ^ 24).
  { unfold q. Z.to_euclidean_division_equations. lia. }
  rewrite (u64_small (q * 2)) by (unfold in_u64; lia).
  rewrite !u64_small by (rewrite ?u64_small; unfold in_u64; lia).
  rewrite u32_small by (unfold in_u32; lia). eexists. split; [done|]. lia.
Qed.
End slot0.

(** ** The root table *)
Section root.
Context `{!KernelTools}.

Lemma root_space vm F n p x u :
  blank vm F → F n → regions vm !! p = Some x → page_in x n →
  vm_ok (with_unused vm p x u) (taken F n 1) →
  space (with_pgd (with_unused vm p x u) true (n * 4096)) {[ (4, 0) := n ]} ∅ (taken F n 1) nothing.
Proof.
  intros [Hok Hz HV HM Hc] HF Hx Hn Hok'. assert (in_some vm n) as Hin by (by exists p, x).
  split; try done; [|intros i k _ [? Hl]; by rewrite lookup_empty in Hl]. split; try done.
  - eapply vm_ok_same; [apply same_pgd|done].
  - split.
    + intros k j m [[= <- <-] <-]%lookup_singleton_Some.
      split_and!; try lia; by apply (page_range vm F).
    + intros a b m [<- <-]%lookup_singleton_Some [<- _]%lookup_singleton_Some. done.
    + intros k j pa Hl. by rewrite lookup_empty in Hl.
  - assert (∀ m i h, word_loc (with_pgd (with_unused vm p x u) true (n * 4096)) m i h ↔ word_loc vm m i h)
      as Hloc by (intros m i h; rewrite word_same by done; by apply with_unused_word).
    split.
    + intros k j m i [[= <- <-] <-]%lookup_singleton_Some Hi.
      destruct (word_exists vm n i Hin) as [h Hw]. exists h. rewrite Hloc. split; [done|].
      change (word_at _ h) with (word_at vm h). rewrite (Hz n i h) by done. unfold entry.
      rewrite lookup_singleton_ne, lookup_empty; [done|]. by intros [= ? ?].
    + intros m i h [HFm _] Hi Hw%Hloc. change (word_at _ h) with (word_at vm h). by apply (Hz m i).
    + intros a m [<- <-]%lookup_singleton_Some [_ Hne]%taken_one. done.
  - exists n. split; [by rewrite lookup_singleton, decide_True|done].
Qed.
Lemma cwp_pgd_alloc b vm F m (Φ : unit → kvm_vm → Prop) :
  blank vm F → (b → avail vm F (S m)) →
  (∀ vm' n, space vm' {[ (4, 0) := n ]} ∅ (taken F n 1) nothing → F n → kept vm vm' →
    (b → avail vm' (taken F n 1) m) → Φ tt vm') →
  cwp b virt_arch_pgd_alloc Φ vm.
Proof.
  intros Hbl Hb HΦ. pose proof (bl_vm vm F Hbl) as Hok. unfold virt_arch_pgd_alloc, TEST_ASSERT. cwps.
  apply cwp_assert; [unfold mode_ok; by rewrite bool_decide_eq_true_2 by apply Hok|]. intros _. cwps.
  rewrite (bl_created vm F Hbl). cwps. apply (cwp_alloc_table b vm F m); [done..|].
  intros n p x u HF Hx Hn Hok' Hav. cwps.
  apply (HΦ _ n); [by eapply root_space|done| |].
  - by destruct (kept_stable _ _ (stable_unused vm p x u Hx)).
  - intros Hb'. eapply avail_same; [apply same_pgd|auto].
Qed.
(** The first allocation creates the tables and then goes on as any other. *)
Lemma alloc_after_root sz vaddr_min type vm vm' :
  virt_arch_pgd_alloc vm = Done (tt, vm') → mode vm' = mode vm → pgd_created vm' = true →
  page_size vm' = page_size vm → page_shift vm' = page_shift vm →
  __vm_vaddr_alloc sz vaddr_min type vm = __vm_vaddr_alloc sz vaddr_min type vm'.
Proof.
  intros Hrun Hm Hc Hsz Hsh. unfold __vm_vaddr_alloc.
  rewrite (C_bind_Done get _ vm vm vm), (C_bind_Done get _ vm' vm' vm') by done. cbv zeta.
  rewrite (C_bind_Done _ _ vm tt vm' Hrun), Hsz, Hsh.
  rewrite (C_bind_Done virt_arch_pgd_alloc _ vm' tt vm'); [done|].
  unfold virt_arch_pgd_alloc. rewrite (C_bind_Done get _ vm' vm' vm') by done.
  assert (mode_ok vm' = true) as Hok.
  { unfold mode_ok. rewrite Hm. unfold virt_arch_pgd_alloc, TEST_ASSERT in Hrun.
    rewrite (C_bind_Done get _ vm vm vm) in Hrun by done. fold (mode_ok vm).
    destruct (mode_ok vm); [done|]. done. }
  by rewrite Hok, Hc.
Qed.
End root.
