(* ===== verification/KvmDemo.v ===== *)
(** * selftests: a concrete KVM test VM

    A host, a processor and kernel tools that meet the assumptions of the
    component, and the VM they give: 1024 pages in slot 0, the root table in
    page 384 and nothing mapped yet. *)

From S2P Require Import Prelude Sparsebit SparsebitOps SparsebitTree SparsebitRange SparsebitQuery.
From S2P Require Import SparsebitRuns SparsebitSpec.
From S2P Require Import KvmUtil KvmPageTable KvmVirt KvmRegions KvmRegionAdd KvmPages KvmState.
From S2P Require Import KvmTables KvmWalk KvmTranslate KvmGap KvmSpace KvmCreate.

#[export] Instance demo_host : Host := {|
  getpagesize := 4096; get_trans_hugepagesz := 2097152; get_def_hugetlb_pagesz := 2097152;
  thp_configured := false
|}.
#[export] Instance demo_cpu : Cpu := {|
  host_cpu_is_amd := true; this_cpu_family := 0x17; cpu_has_pae := true; max_phy_addr := Some 46;
  max_virt_addr := 48; phys_addr_reduction := Some 1
|}.
(** A tree that is a chain, which has the in-order sequence it should. *)
Fixpoint chain (l : list nat) : rbtree :=
  match l with [] => RbNull | p :: l => Rb RbNull p (chain l) end.
#[export] Instance demo_tools : KernelTools := {|
  rb_insert_color := λ _ t, t;
  rb_erase := λ p t, chain (filter (λ q, q ≠ p) (rb_inorder t));
  hash_bucket := λ s, s mod 512
|}.
Lemma chain_inorder l : rb_inorder (chain l) = l.
Proof. induction l as [|p l IH]; simpl; congruence. Qed.
#[export] Instance demo_laws : KernelToolsLaws.
Proof. split; [done|]. intros p t _. simpl. by rewrite chain_inorder. Qed.

Lemma demo_pagesz t : 0 ≤ get_backing_src_pagesz t ≤ 2 ^ 34.
Proof. destruct t; by vm_compute. Qed.
Lemma demo_phy_addr pa : max_phy_addr = Some pa → 12 ≤ pa ≤ 52.
Proof. intros [= <-]. lia. Qed.

(** The states, by evaluation. *)
Definition no_vm : kvm_vm :=
  Vm VM_MODE_P52V48_4K 0 0 0 0 0 RbNull RbNull ∅ ∅ 0 empty_array empty_array false 0 [] ∅.
Definition demo_create : create_replies := CreateReplies true true 3 [] [].
Definition demo_add (start : Z) : add_replies := AddReplies true 5 0 0 (Some start) 0 [] 0 (Some 0x7e0000000000).
Definition new_vm : kvm_vm :=
  Eval vm_compute in
  match ____vm_create demo_create VM_MODE_PXXV48_4K with Done vm => vm | _ => no_vm end.
Definition slot0_vm : kvm_vm :=
  Eval vm_compute in
  match vm_add_slot0 (demo_add 0x7f0000000000) 1024 new_vm with Done (_, vm) => vm | _ => no_vm end.
Definition demo_vm : kvm_vm :=
  Eval vm_compute in
  match virt_arch_pgd_alloc slot0_vm with Done (_, vm) => vm | _ => no_vm end.

Lemma new_vm_run : ____vm_create demo_create VM_MODE_PXXV48_4K = Done new_vm.
Proof. vm_compute. reflexivity. Qed.
Lemma slot0_vm_run : vm_add_slot0 (demo_add 0x7f0000000000) 1024 new_vm = Done (tt, slot0_vm).
Proof. vm_compute. reflexivity. Qed.
Lemma demo_vm_run : virt_arch_pgd_alloc slot0_vm = Done (tt, demo_vm).
Proof. vm_compute. reflexivity. Qed.

Lemma new_vm_fresh : fresh new_vm.
Proof.
  pose proof (create_result demo_phy_addr demo_create eq_refl eq_refl) as H. by rewrite new_vm_run in H.
Qed.
Lemma slot0_vm_blank : blank slot0_vm (range 0 1024).
Proof.
  assert (cwp False (vm_add_slot0 (demo_add 0x7f0000000000) 1024)
    (λ _ vm, blank vm (range 0 1024)) new_vm) as H.
  { apply (cwp_add_slot0 demo_pagesz); try done; [apply new_vm_fresh|]. intros start [= <-].
    split_and!; [done..|]. intros h _. by vm_compute. }
  unfold cwp in H. by rewrite slot0_vm_run in H.
Qed.
Lemma demo_space :
  space demo_vm {[ (4, 0) := 384 ]} ∅ (taken (range 0 1024) 384 1) nothing.
Proof.
  assert (cwp False virt_arch_pgd_alloc
    (λ _ vm, ∃ n, space vm {[ (4, 0) := n ]} ∅ (taken (range 0 1024) n 1) nothing) slot0_vm) as H.
  { apply (cwp_pgd_alloc False _ (range 0 1024) 0); [apply slot0_vm_blank|done|].
    intros vm n Hs _ _ _. by exists n. }
  unfold cwp in H. rewrite demo_vm_run in H. destruct H as [n Hs].
  destruct (ta_root _ _ _ _ (sp_tables _ _ _ _ _ Hs)) as (m & Hm & Hp).
  apply lookup_singleton_Some in Hm as [_ <-]. change (pgd demo_vm) with (384 * 4096) in Hp.
  by replace n with 384 in Hs by lia.
Qed.
Definition demo_region : userspace_mem_region :=
  Eval vm_compute in
  default (Region (KvmRegion 0 0 0 0 0) empty_array 0 VM_MEM_SRC_ANONYMOUS 0 None 0 0)
    (regions demo_vm !! 0%nat).
Lemma demo_region_at p x : regions demo_vm !! p = Some x → p = 0%nat ∧ x = demo_region.
Proof.
  intros Hx. assert (regions demo_vm = {[ 0%nat := demo_region ]}) as E by (vm_compute; reflexivity).
  rewrite E in Hx. by apply lookup_singleton_Some in Hx as [<- <-].
Qed.
Lemma demo_in_slot n : 0 ≤ n < 1024 → in_slot demo_vm 0 n.
Proof.
  intros Hn. eexists 0%nat, _. split; [reflexivity|]. split; [reflexivity|].
  unfold page_in, r_start, r_size. cbn [region guest_phys_addr memory_size]. lia.
Qed.
Lemma demo_avail m : (m ≤ 600)%nat → avail demo_vm (taken (range 0 1024) 384 1) m.
Proof.
  intros Hm. exists 0, (seqZ 385 (Z.of_nat m)). split_and!; [done|apply NoDup_seqZ|..].
  - rewrite length_seqZ. lia.
  - intros i Hi%elem_of_seqZ. split_and!; [|apply demo_in_slot; lia|lia]. unfold taken, range. lia.
Qed.

(** The same VM with page 5 mapped to frame 600. *)
Definition mapped_vm : kvm_vm :=
  Eval vm_compute in
  match map_page (5 * 4096) (600 * 4096) demo_vm with Done (_, vm) => vm | _ => no_vm end.
Lemma mapped_vm_run : map_page (5 * 4096) (600 * 4096) demo_vm = Done (tt, mapped_vm).
Proof. vm_compute. reflexivity. Qed.
Lemma mapped_space : ∃ T F M, space mapped_vm T {[ (1, 5) := 600 * 4096 ]} F M.
Proof.
  assert (cwp False (map_page (5 * 4096) (600 * 4096))
    (λ _ vm, ∃ T F M, space vm T {[ (1, 5) := 600 * 4096 ]} F M) demo_vm) as H.
  { eapply cwp_map_page; [exact demo_space|by left|lia|done|].
    intros vm T F Hs _ _. exists T, F, (add_page nothing 5). exact Hs. }
  unfold cwp in H. by rewrite mapped_vm_run in H.
Qed.
