(* ===== verification/KvmProps.v ===== *)
(** * selftests: properties of the memory of KVM test VMs *)

From S2P Require Import Prelude Sparsebit SparsebitOps SparsebitTree SparsebitRange SparsebitQuery.
From S2P Require Import SparsebitRuns SparsebitSpec.
From S2P Require Import KvmUtil KvmPageTable KvmVirt KvmRegions KvmRegionAdd KvmRegionEdit KvmPages.
From S2P Require Import KvmState KvmTables KvmWalk KvmTranslate KvmGap KvmSpace KvmCreate KvmDemo.

Implicit Types (vm : kvm_vm) (F M V : Z → Prop) (T L : gmap (Z * Z) Z).

(** C3. Allocating virtual memory: when the slot has enough unused physical pages
    (with those the tables may need) and the lower half of the address space, below
    2^47, has a gap of enough unused virtual pages at or above the minimum,
    [__vm_vaddr_alloc] returns the page-aligned address of the lowest such gap; the
    pages there were valid and unmapped, they are now backed by physical pages that
    were unused, every byte of the allocation translates to the byte it should,
    every address that had a translation keeps it, and the invariant of the
    address space holds again. (In the upper half pages are mapped too, but
    [addr_arch_gva2gpa] returns a wrong address: [high_half_translation].) *)
Theorem vaddr_alloc_maps `{!KernelTools} vm T L F M sz vaddr_min type s :
  let pages := pages_of sz in
  space vm T L F M → memslots vm !! type = Some s →
  0 < sz < 2 ^ 64 - 4096 → 0 ≤ vaddr_min < 2 ^ 64 - 4096 →
  (∃ k, KVM_UTIL_MIN_PFN ≤ k ∧ run (λ n, F n ∧ in_slot vm s n) k pages) →
  (∃ k, pages_of vaddr_min ≤ k ∧ k + pages ≤ 2 ^ 35 ∧ run (gap valid_page M) k pages) →
  avail vm F (4 * Z.to_nat pages) →
  ∃ r d vm' T' L' F', __vm_vaddr_alloc sz vaddr_min type vm = Done (r * 4096, vm') ∧
    vaddr_min ≤ r * 4096 ∧ lowest_run (gap valid_page M) (pages_of vaddr_min) pages r ∧
    run (λ n, F n ∧ ¬ F' n ∧ in_slot vm s n) d pages ∧
    space vm' T' L' F' (add_range M r pages) ∧
    (∀ a, r * 4096 ≤ a < r * 4096 + sz →
      addr_arch_gva2gpa a vm' = Done (d * 4096 + (a - r * 4096), vm')) ∧
    (∀ a g, in_u64 a → addr_arch_gva2gpa a vm = Done (g, vm) →
      addr_arch_gva2gpa a vm' = Done (g, vm')).
Proof.
  intros pages Hs Hslot Hsz Hmin Hdata (k & Hk & Hhalf & Hgap) Hav.
  assert (∃ k, pages_of vaddr_min ≤ k ∧ run (gap valid_page M) k pages) as Hgap' by (by exists k).
  assert (0 < pages ∧ sz ≤ pages * 4096) as [Hp Hsz'] by (unfold pages, pages_of; Z.to_euclidean_division_equations; lia).
  destruct (cwp_total _ _ _ (cwp_vaddr_alloc True vm T L F M sz vaddr_min type s
    (λ a w, ∃ r d T' F', a = r * 4096 ∧
      allocated vm L F M s pages (pages_of vaddr_min) r d w T' F') Hs Hslot ltac:(lia) ltac:(lia)
      ltac:(lia) ltac:(lia) (λ _, conj Hdata (conj Hgap' Hav)) ltac:(naive_solver)))
    as (a & vm' & Hrun & r & d & T' & F' & -> & Hal).
  exists r, d, vm', T', (map_range L r d (Z.to_nat pages)), F'. destruct Hal as [Hs' Hg Hlow Hd Hu Hf _].
  specialize (Hlow ltac:(apply gap_run in Hgap as [? _]; by exists k)). pose proof Hlow as (Hr & _ & Hleast).
  assert (r ≤ k) as Hrk by (destruct (decide (r ≤ k)); [done|]; by destruct (Hleast k ltac:(lia))).
  split_and!; try done.
  - revert Hr. unfold pages_of. Z.to_euclidean_division_equations. lia.
  - destruct Hd as (_ & Hd & _). intros n Hn. destruct (Hd n Hn). split_and!; [done|by apply Hu|done].
  - intros a Ha. apply (gva2gpa_range vm' T' L F' _ r d pages a Hs'); try lia.
    intros j Hj. by apply Hg.
  - intros a g Ha. eapply (translations_kept vm T L F M); try done. lia.
Qed.
Lemma vaddr_alloc_maps_witness :
  ∃ r d vm' T' L' F', __vm_vaddr_alloc 10000 0x2000 3 demo_vm = Done (r * 4096, vm') ∧
    0x2000 ≤ r * 4096 ∧ lowest_run (gap valid_page nothing) 2 3 r ∧
    run (λ n, taken (range 0 1024) 384 1 n ∧ ¬ F' n ∧ in_slot demo_vm 0 n) d 3 ∧
    space vm' T' L' F' (add_range nothing r 3) ∧
    (∀ a, r * 4096 ≤ a < r * 4096 + 10000 →
      addr_arch_gva2gpa a vm' = Done (d * 4096 + (a - r * 4096), vm')) ∧
    (∀ a g, in_u64 a → addr_arch_gva2gpa a demo_vm = Done (g, demo_vm) →
      addr_arch_gva2gpa a vm' = Done (g, vm')).
Proof.
  apply (vaddr_alloc_maps demo_vm {[ (4, 0) := 384 ]} ∅ (taken (range 0 1024) 384 1) nothing 10000 0x2000 3 0);
    [exact demo_space|reflexivity|lia|lia| | |apply demo_avail; vm_compute; lia].
  - exists 2. split; [done|]. change (pages_of 10000) with 3. intros n Hn. unfold range in Hn.
    split; [unfold taken, range; lia|apply demo_in_slot; lia].
  - exists 2. split; [done|]. split; [by vm_compute|]. change (pages_of 10000) with 3. intros n Hn. unfold range in Hn.
    split; [left; lia|by intros []].
Defined.

(** C4. Mapping a page refines adding one mapping to the abstract table: when the
    addresses are aligned, valid and in range, nothing maps the address or lies
    below the entry, and three pages are left for tables, [__virt_pg_map]
    returns, and memory holds the old tables with exactly this mapping added and
    at most three pages taken; an argument it must refuse, and an address that
    is mapped already, make it fail its assertions. *)
Theorem pg_map_refines `{!KernelTools} vm T L F V vaddr paddr level :
  tables vm T L F → sb (vpages_valid vm) V → in_u64 vaddr → in_u64 paddr → 1 ≤ level ≤ 4 →
  (mappable vm V vaddr paddr level → unmapped T L (low48 vaddr) level → avail vm F 3 →
    ∃ vm' T' F', __virt_pg_map vaddr paddr level vm = Done (tt, vm') ∧
      mapped_to vm T L F vm' T' F' (low48 vaddr) paddr level) ∧
  (¬ (mappable vm V vaddr paddr level ∧ unmapped T L (low48 vaddr) level) →
    __virt_pg_map vaddr paddr level vm = Abort).
Proof.
  intros Ht HV Hv Hp Hl. split.
  - intros Hm Hu Ha.
    assert (cwp True (__virt_pg_map vaddr paddr level)
      (λ _ vm', ∃ T' F', mapped_to vm T L F vm' T' F' (low48 vaddr) paddr level) vm) as Hwp.
    { apply (cwp_pg_map True vm T L F V); try done. intros vm' T' F' _ Hmap. by exists T', F'. }
    apply cwp_total in Hwp as ([] & vm' & Hrun & T' & F' & Hmap). by exists vm', T', F'.
  - intros Hno.
    assert (cwp False (__virt_pg_map vaddr paddr level) (λ _ _, False) vm) as Hwp.
    { apply (cwp_pg_map False vm T L F V); try done. intros vm' T' F' Hm Hmap. apply Hno.
      split; [done|apply Hmap]. }
    unfold cwp in Hwp. by destruct (__virt_pg_map vaddr paddr level vm) as [[]| |].
Qed.
(** A 2M page and a refused address. *)
Lemma pg_map_refines_witness :
  (∃ vm' T' F', __virt_pg_map 0x40000000 0x200000 2 demo_vm = Done (tt, vm') ∧
    mapped_to demo_vm {[ (4, 0) := 384 ]} ∅ (taken (range 0 1024) 384 1) vm' T' F'
      (low48 0x40000000) 0x200000 2) ∧
  __virt_pg_map 0x40000001 0x200000 2 demo_vm = Abort.
Proof.
  destruct demo_space as [Ht HV _ _]. split.
  - apply (pg_map_refines demo_vm {[ (4, 0) := 384 ]} ∅ (taken (range 0 1024) 384 1) valid_page);
      try done; [|apply demo_avail; lia]. split; [done|left; by vm_compute|done|by vm_compute].
  - apply (pg_map_refines demo_vm {[ (4, 0) := 384 ]} ∅ (taken (range 0 1024) 384 1) valid_page);
      try done. intros [[Hm _ _ _] _]. by vm_compute in Hm.
Defined.

(** C16. Translation: for an address of the lower half, [addr_arch_gva2gpa]
    returns the physical address of the mapping plus the offset into its page,
    whatever the level of the mapping; for an address that is not canonical or
    not mapped it ends the test; memory stays as it is. *)
Theorem gva2gpa_translates `{!KernelTools} vm T L F M a :
  space vm T L F M → in_u64 a →
  (∀ k pa, a < 2 ^ 47 → L !! (k, idx k (low48 a)) = Some pa →
    addr_arch_gva2gpa a vm = Done (pa + a mod lsize k, vm)) ∧
  (¬ (valid_page (a / 4096) ∧ has_mapping L (low48 a)) → addr_arch_gva2gpa a vm = Abort).
Proof.
  intros Hs Ha. split; [|by eapply gva2gpa_unmapped].
  intros k pa Hlow HL. destruct Ha as [Ha _]. rewrite <-translated_low by done.
  eapply gva2gpa_mapped; [done|unfold in_u64; lia| |done].
  left. split; [apply Z.div_pos; lia|apply Z.div_lt_upper_bound; lia].
Qed.
Lemma gva2gpa_translates_witness :
  addr_arch_gva2gpa 0x5678 mapped_vm = Done (0x258678, mapped_vm) ∧
  addr_arch_gva2gpa 0x2345 mapped_vm = Abort.
Proof.
  destruct mapped_space as (T & F & M & Hs). split.
  - by apply (proj1 (gva2gpa_translates _ _ _ _ _ 0x5678 Hs ltac:(by vm_compute)) 1 (600 * 4096)).
  - apply (gva2gpa_translates _ _ _ _ _ 0x2345 Hs); [by vm_compute|].
    intros [_ (k & [pa [Hk _]%lookup_singleton_Some])]. injection Hk as <- Hk. by vm_compute in Hk.
Defined.

(** C17. The search for unused addresses: when enough valid pages follow each
    other somewhere at or above the minimum, [vm_vaddr_unused_gap] comes to an
    end; it returns the page-aligned address of the lowest run of valid and
    unmapped pages at or above the minimum that is long enough, or ends the test
    when there is none, and changes nothing. (Without such valid pages the code
    does not keep to its minimum: [gap_below_minimum].) *)
Theorem unused_gap_lowest `{!KernelTools} vm T L F M sz vaddr_min :
  let pages := pages_of sz in let start := pages_of vaddr_min in
  space vm T L F M → 0 < sz < 2 ^ 64 - 4096 → 0 ≤ vaddr_min < 2 ^ 64 - 4096 →
  (∃ k, start ≤ k ∧ run valid_page k pages) →
  (∃ r, vm_vaddr_unused_gap sz vaddr_min vm = Done (r * 4096, vm) ∧ vaddr_min ≤ r * 4096 ∧
    lowest_run (gap valid_page M) start pages r) ∨
  (vm_vaddr_unused_gap sz vaddr_min vm = Abort ∧ ∀ k, start ≤ k → ¬ run (gap valid_page M) k pages).
Proof.
  intros pages start [Ht HV HM _] Hsz Hmin Hval. pose proof (ta_vm _ _ _ _ Ht) as Hok.
  set (found := ∃ k, start ≤ k ∧ run (gap valid_page M) k pages).
  assert (cwp found (vm_vaddr_unused_gap sz vaddr_min) (λ a w, w = vm ∧ ∃ r, a = r * 4096 ∧
      lowest_run (gap valid_page M) start pages r) vm) as Hwp.
  { apply (cwp_unused_gap found vm F valid_page M); try done; try lia.
    - intros i Hi. apply valid_page_range in Hi. lia.
    - intros r _ Hlow. split; [done|]. exists r. auto. }
  apply cwp_inv in Hwp as [[Hrun Hno]|(a & w & Hrun & -> & r & -> & Hlow)]; [right|left].
  - split; [done|]. intros k Hk Hg. apply Hno. by exists k.
  - exists r. split_and!; [done| |done]. destruct Hlow as (Hr & _). revert Hr.
    unfold start, pages_of. Z.to_euclidean_division_equations. lia.
Qed.
Lemma unused_gap_lowest_witness :
  (∃ r, vm_vaddr_unused_gap 10000 0x2001 demo_vm = Done (r * 4096, demo_vm) ∧ 0x2001 ≤ r * 4096 ∧
    lowest_run (gap valid_page nothing) 3 3 r) ∨
  (vm_vaddr_unused_gap 10000 0x2001 demo_vm = Abort ∧ ∀ k, 3 ≤ k → ¬ run (gap valid_page nothing) k 3).
Proof.
  apply (unused_gap_lowest demo_vm {[ (4, 0) := 384 ]} ∅ (taken (range 0 1024) 384 1) nothing
    10000 0x2001 demo_space ltac:(lia) ltac:(lia)).
  exists 3. split; [done|]. intros n Hn. unfold range in Hn. change (pages_of 10000) with 3 in Hn. left. lia.
Defined.
(** Without valid pages above the minimum the result may lie below it. *)
Example gap_below_minimum :
  vm_vaddr_unused_gap 8192 (2 ^ 64 - 4096) demo_vm = Done (0, demo_vm).
Proof. vm_compute. reflexivity. Qed.
(** The translation of an address of the upper half keeps its high bits. *)
Definition high_vm : kvm_vm :=
  Eval vm_compute in
  match map_page (2 ^ 64 - 4096) 0x258000 demo_vm with Done (_, vm) => vm | _ => no_vm end.
Example high_half_translation :
  map_page (2 ^ 64 - 4096) 0x258000 demo_vm = Done (tt, high_vm) ∧
  addr_arch_gva2gpa (2 ^ 64 - 4096) high_vm = Done (0xfff0000000258000, high_vm).
Proof. split; vm_compute; reflexivity. Qed.

(** C18. Physical pages: [vm_phy_pages_alloc] takes the lowest run of unused pages
    of the slot at or above the minimum and exactly it, and the invariant of the
    VM holds with these pages used; without such a run it ends the test. *)
Theorem phy_pages_lowest `{!KernelTools} vm F num paddr_min t s :
  vm_ok vm F → memslots vm !! t = Some s → 0 < num < 2 ^ 63 → 0 ≤ paddr_min < 2 ^ 64 →
  paddr_min mod 4096 = 0 →
  let P n := F n ∧ in_slot vm s n in
  (∃ b vm', vm_phy_pages_alloc num paddr_min s vm = Done (b * 4096, vm') ∧
    lowest_run P (paddr_min / 4096) num b ∧ vm_ok vm' (taken F b num) ∧
    ∀ g h, located vm g h → located vm' g h) ∨
  (vm_phy_pages_alloc num paddr_min s vm = Abort ∧ ∀ k, paddr_min / 4096 ≤ k → ¬ run P k num).
Proof.
  intros Hok Ht Hn Hp Hm. destruct (phy_alloc_vm vm F num paddr_min t s Hok Ht Hn Hp Hm)
    as [(b & p & x & u & Hlow & Hx & _ & _ & Hok' & Hrun)|Hno]; [left|by right].
  exists b, (with_unused vm p x u). split_and!; try done. intros g h.
  apply located_layout. intros q. by apply (with_unused_layout vm p x u).
Qed.
Lemma phy_pages_lowest_witness :
  let P n := taken (range 0 1024) 384 1 n ∧ in_slot demo_vm 0 n in
  (∃ b vm', vm_phy_pages_alloc 3 0x17f000 0 demo_vm = Done (b * 4096, vm') ∧
    lowest_run P 383 3 b ∧ vm_ok vm' (taken (taken (range 0 1024) 384 1) b 3) ∧
    ∀ g h, located demo_vm g h → located vm' g h) ∨
  (vm_phy_pages_alloc 3 0x17f000 0 demo_vm = Abort ∧ ∀ k, 383 ≤ k → ¬ run P k 3).
Proof.
  apply (phy_pages_lowest demo_vm (taken (range 0 1024) 384 1) 3 0x17f000 3 0);
    [apply demo_space|done..].
Defined.

(** C20. Guest physical and host addresses: under the invariant of the indices the
    host address of a guest physical address is its place in the mapping of its
    region, and translating it back gives the guest physical address again; an
    address outside every region ends the test. *)
Theorem gpa_hva_round_trip `{!KernelTools} vm g :
  index_ok vm → in_u64 g →
  (∀ p x, regions vm !! p = Some x → contains x g →
    addr_gpa2hva g vm = Done (host_mem x + (g - r_start x), vm) ∧
    addr_hva2gpa (host_mem x + (g - r_start x)) vm = Done (g, vm)) ∧
  ((∀ p x, regions vm !! p = Some x → ¬ contains x g) → addr_gpa2hva g vm = Abort).
Proof.
  intros Hi Hg. split.
  - intros p x Hx Hc. assert (located vm g (host_mem x + (g - r_start x))) as Hl by (by exists p, x).
    split; apply wp_exact; [by eapply wp_gpa2hva|by eapply wp_hva2gpa].
  - intros Hno. assert (cwp False (addr_gpa2hva g) (λ _ _, False) vm) as Hwp.
    { unfold addr_gpa2hva. cwps. apply cwp_wp, wp_region_find; [done|lia|..].
      - intros p x Hx Hm. destruct (Hno p x Hx). unfold meets, contains in *. lia.
      - intros _ []. }
    unfold cwp in Hwp. by destruct (addr_gpa2hva g vm) as [[]| |].
Qed.
Lemma gpa_hva_round_trip_witness :
  addr_gpa2hva 0x1234 demo_vm = Done (0x7f0000001234, demo_vm) ∧
  addr_hva2gpa 0x7f0000001234 demo_vm = Done (0x1234, demo_vm).
Proof.
  pose proof (vo_index _ _ (ta_vm _ _ _ _ (sp_tables _ _ _ _ _ demo_space))) as Hi.
  apply (proj1 (gpa_hva_round_trip demo_vm 0x1234 Hi ltac:(by vm_compute)) 0%nat demo_region).
  - reflexivity.
  - by vm_compute.
Defined.

(** C19. Adding a region to a VM in use: when the caller and the host provide what
    the checks ask for, [vm_userspace_mem_region_add] returns, the new region
    lies beside the others in the guest and on the host and is in all three
    indices, exactly its pages become unused ones, and every mapping and every
    translation stays; in no other way can it return. *)
Theorem region_add_keeps_space `{!KernelTools, !KernelToolsLaws, !Host} a vm src gpa s npages fl T L F M :
  (∀ t, 0 ≤ get_backing_src_pagesz t ≤ 2 ^ 34) → getpageshift = 12 →
  space vm T L F M → in_u64 gpa → in_u64 npages → a_sparsebit a = [] →
  (∀ start, a_mmap a = Some start → mmap_fresh vm start (mmap_bytes src (npages * 4096))) →
  let keeps vm' := ∃ x, region_added vm vm' x gpa s npages ∧
    space vm' T L (more F (gpa / 4096) npages) M ∧
    (∀ v g, in_u64 v → addr_arch_gva2gpa v vm = Done (g, vm) → addr_arch_gva2gpa v vm' = Done (g, vm')) in
  (add_ok a vm src gpa s npages →
    ∃ vm', vm_userspace_mem_region_add a src gpa s npages fl vm = Done (tt, vm') ∧ keeps vm') ∧
  (∀ vm', vm_userspace_mem_region_add a src gpa s npages fl vm = Done (tt, vm') → keeps vm').
Proof.
  intros Hpg Hps Hs Hg Hn Hoom Hmap keeps.
  assert (∀ b : Prop, (b → add_ok a vm src gpa s npages) →
    cwp b (vm_userspace_mem_region_add a src gpa s npages fl) (λ _ vm', keeps vm') vm) as Hwp.
  { intros b Hb. eapply cwp_region_add_space; [done..|]. intros vm' x Hra Hs'. exists x.
    split_and!; [done..|]. intros v g Hv Hrun.
    destruct (gva2gpa_inv _ _ _ _ _ _ _ _ Hs Hv Hrun) as (_ & Hval & k & pa & HL & ->).
    by eapply gva2gpa_mapped. }
  split.
  - intros Hok. destruct (cwp_total _ _ _ (Hwp True (λ _, Hok))) as ([] & vm' & ? & ?). by exists vm'.
  - intros vm' Hrun. specialize (Hwp False ltac:(done)). unfold cwp in Hwp. by rewrite Hrun in Hwp.
Qed.
Definition second : add_replies := demo_add 0x7d0000000000.
Lemma region_add_keeps_space_witness :
  ∃ vm', vm_userspace_mem_region_add second VM_MEM_SRC_SHMEM 0x10000000 1 16 0 demo_vm = Done (tt, vm') ∧
    ∃ x, region_added demo_vm vm' x 0x10000000 1 16 ∧
      space vm' {[ (4, 0) := 384 ]} ∅ (more (taken (range 0 1024) 384 1) 0x10000 16) nothing ∧
      (∀ v g, in_u64 v → addr_arch_gva2gpa v demo_vm = Done (g, demo_vm) →
        addr_arch_gva2gpa v vm' = Done (g, vm')).
Proof.
  apply (region_add_keeps_space second demo_vm VM_MEM_SRC_SHMEM 0x10000000 1 16 0 {[ (4, 0) := 384 ]}
    ∅ (taken (range 0 1024) 384 1) nothing demo_pagesz eq_refl demo_space); [by vm_compute..|done| |].
  - intros start [= <-]. split_and!; [done|done| |by intros h _; vm_compute].
    intros q y [_ ->]%demo_region_at. right. by vm_compute.
  - split; try done.
    + intros q y [_ ->]%demo_region_at [Hm _]. by vm_compute in Hm.
    + intros q y [_ ->]%demo_region_at. by vm_compute.
    + intros _. split_and!; try done. intros _. exists 0x7e0000000000. split; [done|by vm_compute].
    + exists 0x7d0000000000. split_and!; [done|by vm_compute|done].
Defined.

(** Deleting a region: for a slot in use, [vm_mem_region_delete] takes the
    region out of the store, both trees and the hash table, the indices stay
    consistent, and the addresses of the other regions are where they were; a
    failing ioctl or [munmap] ends the test, and nothing else does. *)
Theorem region_delete_keeps_index `{!KernelTools, !KernelToolsLaws} vm F p x ret unmap :
  vm_ok vm F → regions vm !! p = Some x →
  if (ret =? 0) && (unmap.1 =? 0) && ((rfd x <? 0) || (unmap.2 =? 0)) then
    ∃ vm', vm_mem_region_delete ret unmap (r_slot x) vm = Done (tt, vm') ∧ index_ok vm' ∧
      regions vm' = delete p (regions vm) ∧
      ∀ g h, ¬ contains x g → located vm' g h ↔ located vm g h
  else vm_mem_region_delete ret unmap (r_slot x) vm = Abort.
Proof.
  intros Hok Hx. pose proof (vo_index vm F Hok) as Hi. pose proof (vo_pages vm F Hok p x Hx) as Hsb.
  set (c := _ && _ && _).
  assert (Is_true c ↔ delete_ok x ret unmap) as Hc.
  { unfold c, delete_ok. rewrite Is_true_true, !andb_true_iff, orb_true_iff, !Z.eqb_eq, Z.ltb_lt. lia. }
  assert (cwp c (vm_mem_region_delete ret unmap (r_slot x)) (λ _ w, c ∧ w = unlinked vm p) vm) as Hwp.
  { apply (cwp_region_delete c vm _ p x (λ n, F n ∧ page_in x n)); try done; [by apply Hc|].
    intros ?%Hc. done. }
  destruct (cwp_inv _ _ _ _ Hwp) as [[Hrun Hn]|([] & w & Hrun & Hy & ->)]; destruct c; try done.
  exists (unlinked vm p). split_and!; [done|by apply index_delete|done|].
  intros g h Hg. by eapply located_delete.
Qed.
Lemma region_delete_keeps_index_witness :
  (∃ vm', vm_mem_region_delete 0 (0, 0) 0 demo_vm = Done (tt, vm') ∧ index_ok vm' ∧
    regions vm' = delete 0%nat (regions demo_vm) ∧
    ∀ g h, ¬ contains demo_region g → located vm' g h ↔ located demo_vm g h) ∧
  vm_mem_region_delete (-1) (0, 0) 0 demo_vm = Abort.
Proof.
  pose proof (ta_vm _ _ _ _ (sp_tables _ _ _ _ _ demo_space)) as Hok. split.
  - apply (region_delete_keeps_index demo_vm _ 0 demo_region 0 (0, 0) Hok). reflexivity.
  - apply (region_delete_keeps_index demo_vm _ 0 demo_region (-1) (0, 0) Hok). reflexivity.
Defined.

(** C21. From creation to the first table: when the host answers and the processor
    has 48-bit or 57-bit virtual addresses, [____vm_create] returns a VM without
    memory whose valid virtual pages are the canonical ones; slot 0 can then be
    added, and the root table created in it, after which the invariant of the
    address space holds with nothing mapped. *)
Theorem vm_create_usable `{!KernelTools, !KernelToolsLaws, !Host, !Cpu} c :
  (∀ t, 0 ≤ get_backing_src_pagesz t ≤ 2 ^ 34) → getpageshift = 12 →
  (∀ pa, max_phy_addr = Some pa → 12 ≤ pa ≤ 52) →
  c_valid c = [] → c_mapped c = [] → c_calloc c = true → c_open c = true → 0 ≤ c_vm_fd c →
  kvm_get_cpu_address_width.2 = 48 ∨ kvm_get_cpu_address_width.2 = 57 →
  ∃ vm, ____vm_create c VM_MODE_PXXV48_4K = Done vm ∧ fresh vm ∧
    ∀ a nr, 385 ≤ nr → a_sparsebit a = [] → add_ok a vm VM_MEM_SRC_ANONYMOUS 0 0 nr →
      (∀ start, a_mmap a = Some start → mmap_fresh vm start (nr * 4096)) →
      ∃ vm1 vm2 n, vm_add_slot0 a nr vm = Done (tt, vm1) ∧
        virt_arch_pgd_alloc vm1 = Done (tt, vm2) ∧
        space vm2 {[ (4, 0) := n ]} ∅ (taken (range 0 nr) n 1) nothing.
Proof.
  intros Hpg Hps Hpa Hcv Hcm Hca Hco Hfd Hva. pose proof (create_result Hpa c Hcv Hcm) as Hc.
  destruct (____vm_create c VM_MODE_PXXV48_4K) as [vm| |]; [| |done]; cycle 1.
  { destruct Hc as [?|[?|[?|[? ?]]]]; [congruence..|lia|by destruct Hva]. }
  exists vm. split_and!; [done..|]. intros a nr Hnr Hoom Hok Hmap.
  assert (in_u64 nr) as Hnr' by (destruct (ao_npages _ _ _ _ _ _ Hok); unfold in_u64; lia).
  assert (cwp True (vm_add_slot0 a nr) (λ _ vm1, blank vm1 (range 0 nr) ∧ avail vm1 (range 0 nr) 1) vm)
    as Hadd.
  { apply (cwp_add_slot0 Hpg); try done. intros vm1 Hbl Hms Hin. split; [done|].
    eapply slot0_avail; [done..|lia]. }
  apply cwp_total in Hadd as ([] & vm1 & Hadd & Hbl & Hav).
  assert (cwp True virt_arch_pgd_alloc (λ _ vm2, ∃ n,
    space vm2 {[ (4, 0) := n ]} ∅ (taken (range 0 nr) n 1) nothing) vm1) as Hroot.
  { eapply (cwp_pgd_alloc True _ _ 0); [done..|]. intros vm2 n Hs _ _ _. by exists n. }
  apply cwp_total in Hroot as ([] & vm2 & Hroot & n & Hs). by exists vm1, vm2, n.
Qed.
Lemma vm_create_usable_witness :
  ∃ vm, ____vm_create demo_create VM_MODE_PXXV48_4K = Done vm ∧ fresh vm ∧
    ∀ a nr, 385 ≤ nr → a_sparsebit a = [] → add_ok a vm VM_MEM_SRC_ANONYMOUS 0 0 nr →
      (∀ start, a_mmap a = Some start → mmap_fresh vm start (nr * 4096)) →
      ∃ vm1 vm2 n, vm_add_slot0 a nr vm = Done (tt, vm1) ∧
        virt_arch_pgd_alloc vm1 = Done (tt, vm2) ∧
        space vm2 {[ (4, 0) := n ]} ∅ (taken (range 0 nr) n 1) nothing.
Proof.
  apply (vm_create_usable demo_create demo_pagesz eq_refl demo_phy_addr); try done. by left.
Defined.

(** Moving a region leaves the trees as they were: a region that was not moved is
    no longer found. *)
Definition two_vm : kvm_vm :=
  Eval vm_compute in
  match vm_userspace_mem_region_add second VM_MEM_SRC_ANONYMOUS 0x10000000 1 16 0 demo_vm with
  | Done (_, vm) => vm | _ => no_vm
  end.
Definition moved_vm : kvm_vm :=
  Eval vm_compute in
  match vm_mem_region_move 0 0 0x20000000 two_vm with Done (_, vm) => vm | _ => no_vm end.
Example move_loses_region :
  addr_gpa2hva 0x10000000 two_vm = Done (0x7d0000000000, two_vm) ∧
  vm_mem_region_move 0 0 0x20000000 two_vm = Done (tt, moved_vm) ∧
  addr_gpa2hva 0x10000000 moved_vm = Abort.
Proof. split_and!; vm_compute; reflexivity. Qed.
