(* ===== verification/KutList.v ===== *)
(** * kvm-unit-tests: the circular list ([lib/list.h])

    A list item is two pointers in memory. The items of the free lists of the
    page allocator are in the first bytes of the free pages themselves, and the
    heads in the descriptors of the areas. A word that was never written holds
    nothing that may be read. A list is a ring of items, as for igt's list; the
    lemmas show insertion and removal on the sequence of its elements, and that
    nothing outside the ring is touched. *)

From S2P Require Import Prelude.

(** The head of the free list of an order in an area, or an address. *)
Inductive loc : Type :=
| Head (area order : Z)
| At (a : Z).
#[global] Instance loc_eq_dec : EqDecision loc.
Proof. solve_decision. Defined.
#[global] Instance loc_countable : Countable loc.
Proof.
  refine (inj_countable'
    (λ l, match l with Head n o => inl (n, o) | At a => inr a end)
    (λ x, match x with inl (n, o) => Head n o | inr a => At a end) _).
  by intros [].
Defined.
(** NULL is [None]. *)
Notation pointer := (option loc).
Record links : Type := Links { prevs : gmap loc pointer; nexts : gmap loc pointer }.

Definition load_prev (p : loc) : C links pointer := λ h, lift (access (prevs h !! p)) h.
Definition load_next (p : loc) : C links pointer := λ h, lift (access (nexts h !! p)) h.
Definition store_prev (p : loc) (v : pointer) : C links unit := modify (λ h, Links (<[p := v]> (prevs h)) (nexts h)).
Definition store_next (p : loc) (v : pointer) : C links unit := modify (λ h, Links (prevs h) (<[p := v]> (nexts h))).
(** Following a pointer that may be NULL. *)
Definition deref (p : pointer) : C links loc := lift (access p).

(** ** The operations *)
Definition is_list_empty (p : loc) : C links bool :=
  n ← load_next p;
  if bool_decide (n = None) then mret true else
  v ← load_prev p;
  mret (bool_decide (v = None) || bool_decide (n = Some p) || bool_decide (v = Some p)).
Definition list_remove (l : loc) : C links unit :=
  e ← is_list_empty l;
  if e : bool then mret tt else
  v ← load_prev l; v ← deref v; n ← load_next l;
  store_next v n;;
  n ← load_next l; n ← deref n; v ← load_prev l;
  store_prev n v;;
  store_next l None;;
  store_prev l None.
Definition list_add (head li : loc) : C links unit :=
  lift (assert_ (bool_decide (li ≠ At 0)));;
  lift (assert_ (bool_decide (head ≠ At 0)));;
  store_prev li (Some head);;
  n ← load_next head;
  store_next li n;;
  n ← load_next head; n ← deref n;
  store_prev n (Some li);;
  store_next head (Some li).
Definition list_add_tail (head li : loc) : C links unit :=
  v ← load_prev head; v ← deref v;
  list_add v li.

(** ** Rings *)
(** From [a] through the items [l] to [b]. *)
Fixpoint path (h : links) (a : loc) (l : list loc) (b : loc) : Prop :=
  match l with
  | [] => nexts h !! a = Some (Some b) ∧ prevs h !! b = Some (Some a)
  | x :: l' => (nexts h !! a = Some (Some x) ∧ prevs h !! x = Some (Some a)) ∧ path h x l' b
  end.
Record ring (h : links) (a : loc) (l : list loc) : Prop := {
  rg_path : path h a l a;
  rg_nodup : NoDup (a :: l)
}.
(** [h'] is [h] outside [l]. *)
Definition frame (h h' : links) (l : list loc) : Prop :=
  ∀ x, x ∉ l → prevs h' !! x = prevs h !! x ∧ nexts h' !! x = nexts h !! x.

Lemma kpath_app h a l1 x l2 b : path h a (l1 ++ x :: l2) b ↔ path h a l1 x ∧ path h x l2 b.
Proof. revert a. induction l1 as [|y l1 IH]; intros a; simpl; [done|]. rewrite IH. tauto. Qed.
Lemma kpath_ext h h' a l b : path h a l b →
  (∀ x, x ∈ a :: l → nexts h' !! x = nexts h !! x) →
  (∀ x, x ∈ l ++ [b] → prevs h' !! x = prevs h !! x) → path h' a l b.
Proof.
  revert a. induction l as [|y l IH]; intros a Hp Hn Hv; simpl in *.
  - rewrite Hn, Hv by set_solver. done.
  - destruct Hp as [? Hp]. split; [rewrite Hn, Hv by set_solver; done|].
    apply IH; [done|..]; intros x Hx; [apply Hn|apply Hv]; set_solver.
Qed.
(** A ring can be read from any of its items. *)
Lemma kring_rotate h a l1 x l2 : ring h a (l1 ++ x :: l2) → ring h x (l2 ++ a :: l1).
Proof.
  intros [Hp Hn]. apply kpath_app in Hp as [H1 H2]. split.
  - apply kpath_app. done.
  - assert (x :: l2 ++ a :: l1 ≡ₚ a :: l1 ++ x :: l2) as -> by solve_Permutation. done.
Qed.
Lemma kring_frame h h' a l m : ring h a l → frame h h' m → (∀ x, x ∈ a :: l → x ∉ m) → ring h' a l.
Proof.
  intros [Hp Hn] Hf Hd. split; [|done]. eapply kpath_ext; [done|..]; intros x Hx;
    apply Hf, Hd; set_solver.
Qed.
(** The neighbours of the head. *)
Lemma kring_first h a l : ring h a l →
  nexts h !! a = Some (Some (default a (head l))) ∧ prevs h !! default a (head l) = Some (Some a).
Proof. intros [Hp _]. destruct l; simpl in *; tauto. Qed.
Lemma kring_last h a l : ring h a l →
  prevs h !! a = Some (Some (default a (last l))) ∧ nexts h !! default a (last l) = Some (Some a).
Proof.
  intros [Hp _]. destruct l as [|z l _] using rev_ind; [by destruct Hp|].
  rewrite last_snoc. simpl. apply kpath_app in Hp as [_ Hp]. by destruct Hp.
Qed.

(** ** What the operations do to a ring *)
Lemma wp_read_next h p v (Φ : pointer → links → Prop) :
  nexts h !! p = Some v → Φ v h → wp (load_next p) Φ h.
Proof. intros H. unfold wp, load_next. by rewrite H. Qed.
Lemma wp_read_prev h p v (Φ : pointer → links → Prop) :
  prevs h !! p = Some v → Φ v h → wp (load_prev p) Φ h.
Proof. intros H. unfold wp, load_prev. by rewrite H. Qed.
Lemma wp_write_next h p v (Φ : unit → links → Prop) :
  Φ tt (Links (prevs h) (<[p := v]> (nexts h))) → wp (store_next p v) Φ h.
Proof. done. Qed.
Lemma wp_write_prev h p v (Φ : unit → links → Prop) :
  Φ tt (Links (<[p := v]> (prevs h)) (nexts h)) → wp (store_prev p v) Φ h.
Proof. done. Qed.
Lemma wp_deref h p (Φ : loc → links → Prop) : Φ p h → wp (deref (Some p)) Φ h.
Proof. done. Qed.
Ltac link_step :=
  lazymatch goal with
  | |- wp (store_next _ _) _ _ => apply wp_write_next
  | |- wp (store_prev _ _) _ _ => apply wp_write_prev
  | |- wp (deref (Some _)) _ _ => apply wp_deref
  end; cbn [prevs nexts].
Ltac links := repeat (wps; try link_step).
Lemma wp_is_empty h a l (Φ : bool → links → Prop) :
  ring h a l → Φ (bool_decide (l = [])) h → wp (is_list_empty a) Φ h.
Proof.
  intros Hr HΦ. destruct (kring_first _ _ _ Hr) as [Hn _], (kring_last _ _ _ Hr) as [Hv _].
  unfold is_list_empty. wps. eapply wp_read_next; [done|]. cbn beta.
  rewrite (bool_decide_eq_false_2 (Some _ = None)) by done. wps. eapply wp_read_prev; [done|]. wps.
  rewrite (bool_decide_eq_false_2 (Some _ = None)) by done. cbn [orb].
  destruct (decide (l = [])) as [->|Hne].
  - simpl. by rewrite bool_decide_eq_true_2.
  - rewrite (bool_decide_eq_false_2 (l = [])) in HΦ by done. pose proof (rg_nodup _ _ _ Hr) as [Ha _]%NoDup_cons.
    assert (∀ o, (∃ x, o = Some x ∧ x ∈ l) → bool_decide (Some (default a o) = Some a) = false) as Hno.
    { intros o (x & -> & Hx). apply bool_decide_eq_false. simpl. by intros [= ->]. }
    rewrite !Hno; [done| |].
    + destruct (last l) as [x|] eqn:E; [|by apply last_None in E]. exists x. split; [done|].
      apply last_Some in E as [l' ->]. set_solver.
    + destruct l as [|x l]; [done|]. exists x. set_solver.
Qed.

(** The item after [p] is taken out. *)
Lemma wp_remove_next h p e l (Φ : unit → links → Prop) :
  ring h p (e :: l) →
  (∀ h', ring h' p l → frame h h' (e :: p :: l) → Φ tt h') → wp (list_remove e) Φ h.
Proof.
  intros Hr HΦ. pose proof (kring_rotate h p [] e l Hr) as Hre. destruct (kring_first _ _ _ Hr) as [Hnp Hve].
  simpl in Hnp, Hve. destruct Hr as [[_ Hp] Hnd]. apply NoDup_cons in Hnd as [Hpn [Hen Hnd]%NoDup_cons].
  set (s := default p (head l)).
  assert (nexts h !! e = Some (Some s) ∧ prevs h !! s = Some (Some e)) as [Hns Hvs]
    by (unfold s; destruct l; simpl in *; tauto).
  assert (s ∈ p :: l) as Hsin by (unfold s; destruct l; simpl; set_solver).
  assert (p ≠ e) as Hpe by set_solver. assert (s ≠ e) as Hse by set_solver.
  unfold list_remove. wps. eapply wp_is_empty; [exact Hre|]. rewrite bool_decide_eq_false_2 by (by intros []%app_nil).
  wps. eapply wp_read_prev; [done|]. links. eapply wp_read_next; [done|]. links.
  eapply (wp_read_next _ _ (Some s)); [simpl; by rewrite lookup_insert_ne|]. links.
  eapply wp_read_prev; [done|]. links. apply HΦ.
  - split; [|by apply NoDup_cons; set_solver]. unfold s in *. destruct l as [|y l]; simpl in *.
    + rewrite !(lookup_insert_ne _ e) by done. by rewrite !fin_maps.lookup_insert, !decide_True.
    + rewrite !(lookup_insert_ne _ e) by done. rewrite !fin_maps.lookup_insert, !decide_True by done.
      split; [done|]. destruct Hp as [_ Hp]. apply NoDup_cons in Hnd as [Hny Hnd].
      eapply kpath_ext; [done|..]; simpl; intros x Hx; rewrite !lookup_insert_ne by set_solver; done.
  - intros x Hx. simpl. rewrite !lookup_insert_ne by set_solver. done.
Qed.
Lemma wp_list_remove h a l1 e l2 (Φ : unit → links → Prop) :
  ring h a (l1 ++ e :: l2) →
  (∀ h', ring h' a (l1 ++ l2) → frame h h' (a :: l1 ++ e :: l2) → Φ tt h') → wp (list_remove e) Φ h.
Proof.
  intros Hr HΦ. destruct l1 as [|p l1 _] using rev_ind.
  - eapply wp_remove_next; [exact Hr|]. intros h' Hr' Hf. apply HΦ; [done|]. intros x Hx. apply Hf. set_solver.
  - rewrite <-app_assoc in Hr. simpl in Hr. apply kring_rotate in Hr as Hp.
    eapply wp_remove_next; [exact Hp|]. intros h' Hr' Hf. apply HΦ.
    + apply kring_rotate in Hr'. by rewrite <-app_assoc.
    + intros x Hx. apply Hf. set_solver.
Qed.
(** A new item after the head, and before it. *)
Lemma wp_list_add h a l e (Φ : unit → links → Prop) :
  ring h a l → e ∉ a :: l → e ≠ At 0 → a ≠ At 0 →
  (∀ h', ring h' a (e :: l) → frame h h' (e :: a :: l) → Φ tt h') → wp (list_add a e) Φ h.
Proof.
  intros Hr He He0 Ha0 HΦ. destruct (kring_first _ _ _ Hr) as [Hn Hv].
  set (s := default a (head l)) in *.
  assert (s ∈ a :: l) as Hsin by (unfold s; destruct l; simpl; set_solver).
  assert (a ≠ e) as Hae by set_solver. assert (s ≠ e) as Hse by set_solver.
  unfold list_add. wps. rewrite bool_decide_eq_true_2 by done. simpl. wps.
  rewrite bool_decide_eq_true_2 by done. simpl. links. eapply wp_read_next; [exact Hn|]. links.
  eapply (wp_read_next _ _ (Some s)); [simpl; by rewrite lookup_insert_ne|]. links. apply HΦ.
  - destruct Hr as [Hp Hnd]. split; [|apply NoDup_cons in Hnd as [? ?]; apply NoDup_cons; split; [set_solver|apply NoDup_cons; split; set_solver]].
    simpl. assert (∀ x, x ≠ a → x ≠ e → <[a := Some e]> (<[e := Some s]> (nexts h)) !! x = nexts h !! x) as Hnx
      by (intros; by rewrite !lookup_insert_ne).
    assert (∀ x, x ≠ s → x ≠ e → <[s := Some e]> (<[e := Some a]> (prevs h)) !! x = prevs h !! x) as Hpx
      by (intros; by rewrite !lookup_insert_ne).
    rewrite (lookup_insert_ne _ s e), !fin_maps.lookup_insert, !decide_True by done. split; [done|].
    unfold s in *. destruct l as [|y l]; simpl in *.
    + rewrite lookup_insert_ne, !fin_maps.lookup_insert, !decide_True by done. done.
    + rewrite lookup_insert_ne, !fin_maps.lookup_insert, !decide_True by done. split; [done|].
      destruct Hp as [_ Hp]. apply NoDup_cons in Hnd as [Hna [Hny Hnd]%NoDup_cons].
      eapply kpath_ext; [done|..]; simpl; intros x Hx; [apply Hnx|apply Hpx]; set_solver.
  - intros x Hx. simpl. rewrite !lookup_insert_ne by set_solver. done.
Qed.
Lemma wp_list_add_tail h a l e (Φ : unit → links → Prop) :
  ring h a l → e ∉ a :: l → e ≠ At 0 → (∀ x, x ∈ a :: l → x ≠ At 0) →
  (∀ h', ring h' a (l ++ [e]) → frame h h' (e :: a :: l) → Φ tt h') → wp (list_add_tail a e) Φ h.
Proof.
  intros Hr He He0 H0 HΦ. unfold list_add_tail. destruct (kring_last _ _ _ Hr) as [Hv _].
  wps. eapply wp_read_prev; [exact Hv|]. links. destruct l as [|z l _] using rev_ind.
  - simpl. eapply wp_list_add; [done..|apply H0; set_solver|]. intros h' Hr' Hf. by apply HΦ.
  - rewrite last_snoc. simpl. apply kring_rotate in Hr as Hz. simpl in Hz.
    eapply wp_list_add; [exact Hz|set_solver|done|apply H0; set_solver|]. intros h' Hr' Hf. apply HΦ.
    + rewrite <-app_assoc. apply (kring_rotate h' z [e] a l Hr').
    + intros x Hx. apply Hf. set_solver.
Qed.
