(* ===== verification/KutAlloc.v ===== *)
(** * kvm-unit-tests: the page allocator ([lib/alloc_page.c])

    A buddy allocator over up to four areas of physical memory. Each area has a
    table with one byte per page: the order of the block the page is in and
    whether the block is fresh (never used), free, allocated or special. The
    free blocks of an order are in a circular list whose items are in the first
    bytes of the blocks.

    Addresses are physical ones (the mapping of x86 is the identity), NULL is 0.
    The table of an area holds a byte for each page of it; other bytes of its
    pages are not accessed. The lock is a bit: taking it twice hangs, which is
    [Undef] as well. Of the contents of pages only the list items are modelled,
    which clearing a page sets to NULL. *)

From S2P Require Import Prelude KutList.

(** ** Constants and bits ([lib/bitops.h]) *)
Definition PAGE_SHIFT : Z := 12.
Definition PAGE_SIZE : Z := 4096.
Definition NLISTS : Z := 64 - PAGE_SHIFT.
Definition ORDER_MASK : Z := 63.
Definition STATUS_MASK : Z := 192.
Definition STATUS_FRESH : Z := 0.
Definition STATUS_FREE : Z := 64.
Definition STATUS_ALLOCATED : Z := 128.
Definition STATUS_SPECIAL : Z := 192.
Definition IS_FRESH (x : Z) : bool := Z.land x STATUS_MASK =? STATUS_FRESH.
Definition IS_FREE (x : Z) : bool := Z.land x STATUS_MASK =? STATUS_FREE.
Definition IS_ALLOCATED (x : Z) : bool := Z.land x STATUS_MASK =? STATUS_ALLOCATED.
Definition IS_USABLE (x : Z) : bool := IS_FREE x || IS_FRESH x.

(** [1UL << n], undefined from 64 on. *)
Definition BIT (n : Z) : outcome Z := if (0 <=? n) && (n <? 64) then Done (2 ^ n) else Undef.
Definition IS_ALIGNED (x a : Z) : bool := Z.land x (a - 1) =? 0.
Definition IS_ALIGNED_ORDER (x order : Z) : outcome bool := b ← BIT order; mret (IS_ALIGNED x b).
(** [GENMASK_ULL(63, l)] *)
Definition GENMASK_63 (l : Z) : outcome Z :=
  if (0 <=? l) && (l <? 64) then Done (u64 (Z.shiftl (2 ^ 64 - 1) l)) else Undef.
Definition PAGE_ALIGN (x : Z) : Z := Z.land (u64 (x + (PAGE_SIZE - 1))) (2 ^ 64 - PAGE_SIZE).
Definition is_power_of_2 (n : Z) : bool := negb (n =? 0) && (Z.land n (n - 1) =? 0).
(** [!(word & (~0ul << (64 - k)))]: the top [k] bits are 0. *)
Definition top_clear (word k : Z) : bool := Z.land word (u64 (Z.shiftl (2 ^ 64 - 1) (64 - k))) =? 0.
(** Both versions of [fls] in [lib/bitops.h]: without [HAVE_BUILTIN_FLS], and
    with it, as on x86, where [__builtin_clzl] counts the leading zeros of a word
    that is not 0. They agree ([fls_builtin_agrees]); the model calls the first. *)
Definition fls_step (k : Z) (x : Z * Z) : Z * Z :=
  let '(num, word) := x in
  if top_clear word k then (num - k, u64 (Z.shiftl word k)) else (num, word).
Definition fls (word : Z) : Z :=
  let '(num, word) := fls_step 2 (fls_step 4 (fls_step 8 (fls_step 16 (fls_step 32 (63, word))))) in
  if top_clear word 1 then num - 1 else num.
Fixpoint clz (k : nat) (word : Z) : Z :=
  match k with O => 0 | S k => if Z.testbit word (Z.of_nat k) then 0 else 1 + clz k word end.
Definition fls_builtin (word : Z) : Z := 64 - clz 64 word - 1.
Definition get_order (size : Z) : Z :=
  if size =? 0 then 0 else fls size + (if is_power_of_2 size then 0 else 1).

(** ** State *)
Record mem_area : Type := Area {
  base : Z;
  top : Z;
  table : Z;
  page_states : gmap Z Z;
  max_order : Z
}.
Record pool : Type := Pool {
  areas : gmap Z mem_area;
  areas_mask : Z;
  heap : links;
  locked : bool;
  ops_enabled : bool
}.
Notation M := (C pool).
Definition MAX_AREAS : Z := 4.

Definition with_area (n : Z) (a : mem_area) (w : pool) : pool :=
  Pool (<[n := a]> (areas w)) (areas_mask w) (heap w) (locked w) (ops_enabled w).
Definition with_heap (h : links) (w : pool) : pool :=
  Pool (areas w) (areas_mask w) h (locked w) (ops_enabled w).
Definition with_lock (b : bool) (w : pool) : pool :=
  Pool (areas w) (areas_mask w) (heap w) b (ops_enabled w).
Definition with_states (a : mem_area) (s : gmap Z Z) : mem_area :=
  Area (base a) (top a) (table a) s (max_order a).
Definition with_max (a : mem_area) (o : Z) : mem_area :=
  Area (base a) (top a) (table a) (page_states a) o.

Definition area (n : Z) : M mem_area := w ← get; lift (access (areas w !! n)).
Definition on_list {A} (m : C links A) : M A := λ w,
  match m (heap w) with Done (r, h) => Done (r, with_heap h w) | Abort => Abort | Undef => Undef end.
Definition assert (b : bool) : M unit := lift (assert_ b).
Definition spin_lock : M unit := w ← get; if locked w then lift Undef else modify (with_lock true).
Definition spin_unlock : M unit := modify (with_lock false).

(** [a->page_states[i]] *)
Definition in_table (a : mem_area) (i : Z) : bool := (0 <=? i) && (i <? top a - base a).
Definition state_at (n i : Z) : M Z :=
  a ← area n; if in_table a i then lift (access (page_states a !! i)) else lift Undef.
Definition set_state (n i v : Z) : M unit :=
  a ← area n;
  if in_table a i then modify (with_area n (with_states a (<[i := v]> (page_states a))))
  else lift Undef.
(** [memset(a->page_states + i, v, k)] *)
Fixpoint set_states (k : nat) (n i v : Z) : M unit :=
  match k with O => mret tt | S k => set_state n i v;; set_states k n (i + 1) v end.
(** [for (...) { assert(a->page_states[i] == old); a->page_states[i] = v; }] *)
Fixpoint update_states (k : nat) (n i old v : Z) : M unit :=
  match k with
  | O => mret tt
  | S k =>
      s ← state_at n i;
      assert (s =? old);;
      set_state n i v;;
      update_states k n (i + 1) old v
  end.

Definition pfn_to_virt (pfn : Z) : loc := At (u64 (Z.shiftl pfn PAGE_SHIFT)).
Definition virt_to_pfn (p : loc) : outcome Z :=
  match p with At a => Done (Z.shiftr a PAGE_SHIFT) | Head _ _ => Undef end.

Definition page_alloc_initialized : M bool := w ← get; mret (negb (areas_mask w =? 0)).
Definition area_contains_pfn (a : mem_area) (pfn : Z) : bool := (table a <=? pfn) && (pfn <? top a).
Definition usable_area_contains_pfn (a : mem_area) (pfn : Z) : bool := (base a <=? pfn) && (pfn <? top a).

(** ** Splitting a block *)
Definition split (n : Z) (addr : loc) : M unit :=
  pfn ← lift (virt_to_pfn addr);
  a ← area n;
  assert (usable_area_contains_pfn a pfn);;
  let idx := u64 (pfn - base a) in
  metadata ← state_at n idx;
  let order := Z.land metadata ORDER_MASK in
  assert (IS_USABLE metadata && negb (order =? 0) && (order <? NLISTS));;
  al ← lift (IS_ALIGNED_ORDER pfn order);
  assert al;;
  b ← lift (BIT order);
  assert (usable_area_contains_pfn a (u64 (pfn + b - 1)));;
  on_list (list_remove addr);;
  update_states (Z.to_nat b) n idx metadata (u8 (metadata - 1));;
  a ← area n;
  (if order =? max_order a then
     e ← on_list (is_list_empty (Head n order));
     if e : bool then modify (with_area n (with_max a (u8 (max_order a - 1)))) else mret tt
   else mret tt);;
  let order := order - 1 in
  b ← lift (BIT order);
  if IS_FRESH metadata then
    on_list (list_add_tail (Head n order) addr);;
    on_list (list_add_tail (Head n order) (pfn_to_virt (u64 (pfn + b))))
  else
    on_list (list_add (Head n order) addr);;
    on_list (list_add (Head n order) (pfn_to_virt (u64 (pfn + b)))).

(** ** Allocating *)
(** The search of the free lists: the order and the block, or [None] when the
    orders are exhausted. *)
Fixpoint find_block (f : nat) (n order : Z) (fresh : bool) : M (option (Z * loc)) :=
  a ← area n;
  if max_order a <? order then mret None else
  match f with
  | O => lift Undef
  | S f =>
      p ← on_list ((if fresh then load_prev else load_next) (Head n order) ≫= deref);
      e ← on_list (is_list_empty p);
      if e : bool then find_block f n (u8 (order + 1)) fresh else
      if negb fresh then mret (Some (order, p)) else
      pfn ← lift (virt_to_pfn p);
      s ← state_at n (u64 (pfn - base a));
      if IS_FRESH s then mret (Some (order, p)) else find_block f n (u8 (order + 1)) fresh
  end.
(** [for (; order > sz; order--) split(a, p);] *)
Fixpoint split_down (k : nat) (n : Z) (p : loc) : M unit :=
  match k with O => mret tt | S k => split n p;; split_down k n p end.
(** The returned pointer: [None] for NULL. *)
Definition nonnull (p : loc) : option loc := if bool_decide (p = At 0) then None else Some p.
Definition page_memalign_order (n al sz : Z) (fresh : bool) : M (option loc) :=
  assert ((al <? NLISTS) && (sz <? NLISTS));;
  let order := u8 ((if al <? sz then sz else al) + (if fresh then 1 else 0)) in
  r ← find_block 256 n order fresh;
  match r with
  | None => mret None
  | Some (order, p) =>
      a ← area n;
      pfn ← lift (virt_to_pfn p);
      let idx := u64 (pfn - base a) in
      split_down (Z.to_nat (order - sz)) n p;;
      let order := Z.min order sz in
      on_list (list_remove p);;
      if fresh then
        let order := u8 (order - 1) in
        b ← lift (BIT order);
        set_states (Z.to_nat b) n idx (u8 (Z.lor STATUS_FRESH order));;
        on_list (list_add_tail (Head n order) p);;
        let idx := u64 (idx + b) in
        set_states (Z.to_nat b) n idx (u8 (Z.lor STATUS_ALLOCATED order));;
        mret (nonnull (pfn_to_virt (u64 (base a + idx))))
      else
        b ← lift (BIT order);
        set_states (Z.to_nat b) n idx (u8 (Z.lor STATUS_ALLOCATED order));;
        mret (nonnull p)
  end.

(** ** Freeing *)
Definition has_area (mask i : Z) : bool := negb (Z.land mask (Z.shiftl 1 i) =? 0).
(** [for (i = i; i < MAX_AREAS; i++)], [k] areas left. *)
Fixpoint get_area_from (k : nat) (i pfn : Z) : M (option Z) :=
  match k with
  | O => mret None
  | S k =>
      w ← get;
      if has_area (areas_mask w) i then
        a ← area i;
        if usable_area_contains_pfn a pfn then mret (Some i) else get_area_from k (i + 1) pfn
      else get_area_from k (i + 1) pfn
  end.
Definition get_area (pfn : Z) : M (option Z) := get_area_from 4 0 pfn.

Definition coalesce (n order pfn pfn2 : Z) : M bool :=
  al ← lift (IS_ALIGNED_ORDER pfn order);
  al2 ← lift (IS_ALIGNED_ORDER pfn2 order);
  assert (al && al2);;
  b ← lift (BIT order);
  assert (pfn2 =? u64 (pfn + b));;
  a ← area n;
  if negb (usable_area_contains_pfn a pfn) || negb (usable_area_contains_pfn a (u64 (pfn2 + b - 1)))
  then mret false else
  let first := u64 (pfn - base a) in
  let second := u64 (pfn2 - base a) in
  s ← state_at n first;
  if negb (s =? order) then mret false else
  s2 ← state_at n second;
  if negb (s2 =? order) then mret false else
  on_list (list_remove (pfn_to_virt pfn2));;
  on_list (list_remove (pfn_to_virt pfn));;
  b2 ← lift (BIT (order + 1));
  update_states (Z.to_nat b2) n first order (u8 (order + 1));;
  (if order + 1 <? NLISTS then mret tt else lift Undef);;
  on_list (list_add (Head n (order + 1)) (pfn_to_virt pfn));;
  a ← area n;
  (if max_order a <? order + 1 then modify (with_area n (with_max a (u8 (order + 1)))) else mret tt);;
  mret true.

(** The do-while loop of [_free_pages]: [p] stays, [pfn] moves to the start of
    the pair. *)
Fixpoint coalesce_up (f : nat) (n p pfn : Z) : M unit :=
  match f with
  | O => lift Undef
  | S f =>
      s ← state_at n p;
      let order := Z.land s ORDER_MASK in
      al ← lift (IS_ALIGNED_ORDER pfn (order + 1));
      b ← lift (BIT order);
      let pfn := if al : bool then pfn else u64 (pfn - b) in
      let pfn2 := u64 (pfn + b) in
      r ← coalesce n order pfn pfn2;
      if r : bool then coalesce_up f n p pfn else mret tt
  end.
Definition _free_pages (mem : Z) : M unit :=
  let pfn := Z.shiftr mem PAGE_SHIFT in
  if mem =? 0 then mret tt else
  assert (IS_ALIGNED mem PAGE_SIZE);;
  r ← get_area pfn;
  match r with
  | None => lift Abort
  | Some n =>
      a ← area n;
      let p := u64 (pfn - base a) in
      s ← state_at n p;
      let order := Z.land s ORDER_MASK in
      assert (IS_ALLOCATED s);;
      assert (order <? NLISTS);;
      al ← lift (IS_ALIGNED_ORDER pfn order);
      assert al;;
      b ← lift (BIT order);
      assert (usable_area_contains_pfn a (u64 (pfn + b - 1)));;
      update_states (Z.to_nat b) n p (Z.lor STATUS_ALLOCATED order) (Z.lor STATUS_FREE order);;
      on_list (list_add (Head n order) (At mem));;
      coalesce_up 64 n p pfn
  end.
Definition free_pages (mem : Z) : M unit := spin_lock;; _free_pages mem;; spin_unlock.

(** ** Reserving *)
(** [while (a->page_states[i])]; the byte decreases with each split. *)
Fixpoint split_to_page (f : nat) (n i pfn : Z) : M unit :=
  s ← state_at n i;
  if s =? 0 then mret tt else
  match f with
  | O => lift Undef
  | S f =>
      mask ← lift (GENMASK_63 s);
      split n (pfn_to_virt (Z.land pfn mask));;
      split_to_page f n i pfn
  end.
Definition _reserve_one_page (pfn : Z) : M Z :=
  r ← get_area pfn;
  match r with
  | None => mret (-1)
  | Some n =>
      a ← area n;
      let i := u64 (pfn - base a) in
      s ← state_at n i;
      if negb (IS_USABLE s) then mret (-1) else
      split_to_page 256 n i pfn;;
      set_state n i STATUS_SPECIAL;;
      mret 0
  end.
Definition _unreserve_one_page (pfn : Z) : M unit :=
  r ← get_area pfn;
  match r with
  | None => lift Abort
  | Some n =>
      a ← area n;
      let i := u64 (pfn - base a) in
      s ← state_at n i;
      assert (s =? STATUS_SPECIAL);;
      set_state n i STATUS_ALLOCATED;;
      _free_pages (u64 (Z.shiftl pfn PAGE_SHIFT))
  end.
(** How many of the [k] pages from [pfn] could be reserved, one after the other. *)
Fixpoint reserve_run (k : nat) (pfn : Z) : M nat :=
  match k with
  | O => mret O
  | S k =>
      r ← _reserve_one_page pfn;
      if r =? 0 then i ← reserve_run k (u64 (pfn + 1)); mret (S i) else mret O
  end.
Fixpoint unreserve_run (k : nat) (pfn : Z) : M unit :=
  match k with
  | O => mret tt
  | S k => _unreserve_one_page pfn;; unreserve_run k (u64 (pfn + 1))
  end.
Definition reserve_pages (addr n : Z) : M Z :=
  assert (IS_ALIGNED addr PAGE_SIZE);;
  let pfn := Z.shiftr addr PAGE_SHIFT in
  spin_lock;;
  i ← reserve_run (Z.to_nat n) pfn;
  n ← (if Z.of_nat i <? n then unreserve_run i pfn;; mret 0 else mret n);
  spin_unlock;;
  mret (if n =? 0 then -1 else 0).
Definition unreserve_pages (addr n : Z) : M unit :=
  assert (IS_ALIGNED addr PAGE_SIZE);;
  let pfn := Z.shiftr addr PAGE_SHIFT in
  spin_lock;;
  unreserve_run (Z.to_nat n) pfn;;
  spin_unlock.

(** ** Allocating from any area *)
Definition AREA_MASK : Z := 65535.
Definition FLAG_DONTZERO : Z := 65536.
Definition FLAG_FRESH : Z := 131072.
Definition AREA_ANY : Z := 0.
Definition has_flag (flags f : Z) : bool := negb (Z.land flags f =? 0).
Fixpoint try_areas (k : nat) (i mask al ord : Z) (fresh : bool) : M (option loc) :=
  match k with
  | O => mret None
  | S k =>
      if has_area mask i then
        r ← page_memalign_order i al ord fresh;
        match r with Some p => mret (Some p) | None => try_areas k (i + 1) mask al ord fresh end
      else try_areas k (i + 1) mask al ord fresh
  end.
(** [memset(addr, 0, k * PAGE_SIZE)], on the list items. *)
Fixpoint clear_pages (k : nat) (addr : Z) : C links unit :=
  match k with
  | O => mret tt
  | S k => store_prev (At addr) None;; store_next (At addr) None;; clear_pages k (u64 (addr + PAGE_SIZE))
  end.
Definition zero_block (p : loc) (pages : Z) : M unit :=
  match p with At addr => on_list (clear_pages (Z.to_nat pages) addr) | Head _ _ => lift Undef end.
Definition page_memalign_order_flags (al ord flags : Z) : M (option loc) :=
  let fresh := has_flag flags FLAG_FRESH in
  spin_lock;;
  w ← get;
  let mask := if has_flag flags AREA_MASK then Z.land flags (areas_mask w) else areas_mask w in
  res ← try_areas 4 0 mask al ord fresh;
  spin_unlock;;
  match res with
  | None => mret None
  | Some p =>
      (if has_flag flags FLAG_DONTZERO then mret tt else b ← lift (BIT ord); zero_block p b);;
      mret (Some p)
  end.
Definition alloc_pages_flags (order flags : Z) : M (option loc) :=
  page_memalign_order_flags (u8 order) (u8 order) flags.
Definition alloc_pages (order : Z) : M (option loc) := alloc_pages_flags order AREA_ANY.
Definition alloc_page : M (option loc) := alloc_pages 0.
Definition memalign_pages_flags (alignment size flags : Z) : M (option loc) :=
  assert (is_power_of_2 alignment);;
  let alignment := get_order (Z.shiftr (PAGE_ALIGN alignment) PAGE_SHIFT) in
  let size := get_order (Z.shiftr (PAGE_ALIGN size) PAGE_SHIFT) in
  assert (alignment <? NLISTS);;
  assert (size <? NLISTS);;
  page_memalign_order_flags (u8 alignment) (u8 size) flags.
Definition memalign_pages (alignment size : Z) : M (option loc) := memalign_pages_flags alignment size AREA_ANY.

(** ** Initialisation *)
Definition enable_ops (w : pool) : pool := Pool (areas w) (areas_mask w) (heap w) (locked w) true.
Definition with_mask (m : Z) (w : pool) : pool := Pool (areas w) m (heap w) (locked w) (ops_enabled w).
Definition page_alloc_ops_enable : M unit :=
  spin_lock;;
  b ← page_alloc_initialized;
  assert b;;
  modify enable_ops;;
  spin_unlock.
(** The area [a] to add does not overlap with those present. *)
Fixpoint check_overlap (k : nat) (i : Z) (a : mem_area) : M unit :=
  match k with
  | O => mret tt
  | S k =>
      w ← get;
      (if has_area (areas_mask w) i then
         b ← area i;
         assert (negb (area_contains_pfn b (table a)));;
         assert (negb (area_contains_pfn b (top a - 1)));;
         assert (negb (area_contains_pfn a (table b)));;
         assert (negb (area_contains_pfn a (u64 (top b - 1))))
       else mret tt);;
      check_overlap k (i + 1) a
  end.
Fixpoint init_freelists (k : nat) (n i : Z) : C links unit :=
  match k with
  | O => mret tt
  | S k =>
      store_next (Head n i) (Some (Head n i));;
      store_prev (Head n i) (Some (Head n i));;
      init_freelists k n (i + 1)
  end.
(** [while (i + BIT(order) > a->top) { assert(order); order--; }] *)
Fixpoint order_down (f : nat) (i top order : Z) : outcome Z :=
  b ← BIT order;
  if u64 (i + b) <=? top then mret order else
  assert_ (negb (order =? 0));;
  match f with O => Undef | S f => order_down f i top (order - 1) end.
(** [while (IS_ALIGNED_ORDER(i, order + 1) && (i + BIT(order + 1) <= a->top)) order++;] *)
Fixpoint order_up (f : nat) (i top order : Z) : outcome Z :=
  al ← IS_ALIGNED_ORDER i (order + 1);
  if negb al then mret order else
  b ← BIT (order + 1);
  if negb (u64 (i + b) <=? top) then mret order else
  match f with O => Undef | S f => order_up f i top (u8 (order + 1)) end.
Fixpoint init_blocks (f : nat) (n i order : Z) : M unit :=
  a ← area n;
  if negb (i <? top a) then mret tt else
  match f with
  | O => lift Undef
  | S f =>
      order ← lift (order_down 256 i (top a) order);
      order ← lift (order_up 256 i (top a) order);
      assert (order <? NLISTS);;
      b ← lift (BIT order);
      set_states (Z.to_nat b) n (u64 (i - base a)) (u8 (Z.lor STATUS_FRESH order));;
      on_list (list_add (Head n order) (pfn_to_virt i));;
      a ← area n;
      (if max_order a <? order then modify (with_area n (with_max a order)) else mret tt);;
      init_blocks f n (u64 (i + b)) order
  end.
Definition _page_alloc_init_area (n start_pfn top_pfn : Z) : M unit :=
  assert (n <? MAX_AREAS);;
  w ← get;
  assert (negb (has_area (areas_mask w) n));;
  assert (start_pfn <? top_pfn);;
  assert (4 <? u64 (top_pfn - start_pfn));;
  limit ← lift (BIT (64 - PAGE_SHIFT));
  assert (top_pfn <? limit);;
  let table_size := u64 (top_pfn - start_pfn + PAGE_SIZE) / (PAGE_SIZE + 1) in
  let a := Area (u64 (start_pfn + table_size)) top_pfn start_pfn ∅ 0 in
  modify (with_area n a);;
  let npages := u64 (top_pfn - base a) in
  assert (npages <=? u64 (u64 (base a - start_pfn) * PAGE_SIZE));;
  check_overlap 4 0 a;;
  on_list (init_freelists (Z.to_nat NLISTS) n 0);;
  init_blocks (Z.to_nat npages) n (base a) 0;;
  modify (λ w, with_mask (Z.lor (areas_mask w) (Z.shiftl 1 n)) w).
(** The new value of [*top_pfn]. *)
Definition __page_alloc_init_area (n cutoff base_pfn top_pfn : Z) : M Z :=
  if cutoff <? top_pfn then
    spin_lock;;
    top_pfn ← (if cutoff <=? base_pfn then
                 _page_alloc_init_area n base_pfn top_pfn;; mret 0
               else
                 _page_alloc_init_area n cutoff top_pfn;; mret cutoff);
    spin_unlock;;
    mret top_pfn
  else mret top_pfn.
(** x86: areas from 64GiB, 4GiB, 16MiB and 0 up ([asm/memory_areas.h]). *)
Definition AREA_ANY_NUMBER : Z := 255.
Definition AREA_NORMAL_PFN : Z := 2 ^ 24.
Definition AREA_NORMAL_NUMBER : Z := 0.
Definition AREA_HIGH_PFN : Z := 2 ^ 20.
Definition AREA_HIGH_NUMBER : Z := 1.
Definition AREA_LOW_PFN : Z := 2 ^ 12.
Definition AREA_LOW_NUMBER : Z := 2.
Definition AREA_LOWEST_PFN : Z := 0.
Definition AREA_LOWEST_NUMBER : Z := 3.
Definition page_alloc_init_area (n base_pfn top_pfn : Z) : M unit :=
  if negb (n =? AREA_ANY_NUMBER) then __page_alloc_init_area n 0 base_pfn top_pfn;; mret tt else
  top_pfn ← __page_alloc_init_area AREA_HIGH_NUMBER AREA_HIGH_PFN base_pfn top_pfn;
  top_pfn ← __page_alloc_init_area AREA_NORMAL_NUMBER AREA_NORMAL_PFN base_pfn top_pfn;
  top_pfn ← __page_alloc_init_area AREA_LOW_NUMBER AREA_LOW_PFN base_pfn top_pfn;
  __page_alloc_init_area AREA_LOWEST_NUMBER AREA_LOWEST_PFN base_pfn top_pfn;;
  mret tt.
