(* ===== verification/KutBlocks.v ===== *)
(** * kvm-unit-tests: state bytes, blocks and orders

    A block of order [o] is an aligned range of [2^o] pages. The table of an
    area is coherent when the byte of every page names a block that contains the
    page, lies in the area and has this byte at all its pages, so that the
    table describes a partition of the area into blocks. Giving an aligned
    range that is made of whole blocks a new byte keeps the table coherent.

    [fls] halves the range in which the highest bit can be, six times; it is the
    logarithm. [get_order] is the logarithm rounded up, and a size in bytes is
    covered by [2 ^ get_order] of its pages. *)

From S2P Require Import Prelude KutList KutAlloc.

(** ** State bytes *)
Definition ord (s : Z) : Z := s mod 64.

Lemma byte_all (P : Z → bool) : forallb P (seqZ 0 256) = true → ∀ s, 0 ≤ s < 256 → P s = true.
Proof. rewrite forallb_forall. intros HP s Hs. apply HP, list_elem_of_In, elem_of_seqZ. lia. Qed.
Lemma land_order s : Z.land s ORDER_MASK = ord s.
Proof. apply (Z.land_ones s 6). lia. Qed.
Lemma usable_byte s : 0 ≤ s < 256 → IS_USABLE s = (s <? 128).
Proof. intros Hs. apply eqb_prop. by apply (byte_all (λ s, eqb (IS_USABLE s) (s <? 128))). Qed.
Lemma fresh_byte s : 0 ≤ s < 256 → IS_FRESH s = (s <? 64).
Proof. intros Hs. apply eqb_prop. by apply (byte_all (λ s, eqb (IS_FRESH s) (s <? 64))). Qed.
Lemma allocated_byte s : 0 ≤ s < 256 → IS_ALLOCATED s = (128 <=? s) && (s <? 192).
Proof.
  intros Hs. apply eqb_prop.
  by apply (byte_all (λ s, eqb (IS_ALLOCATED s) ((128 <=? s) && (s <? 192)))).
Qed.
Lemma lor_status o : 0 ≤ o < 64 →
  Z.lor STATUS_FRESH o = o ∧ Z.lor STATUS_FREE o = 64 + o ∧ Z.lor STATUS_ALLOCATED o = 128 + o.
Proof.
  intros Ho. assert (((Z.lor STATUS_FRESH o =? o) && (Z.lor STATUS_FREE o =? 64 + o) &&
    (Z.lor STATUS_ALLOCATED o =? 128 + o)) || (64 <=? o) = true) as HP
    by (apply (byte_all (λ o, ((Z.lor STATUS_FRESH o =? o) && (Z.lor STATUS_FREE o =? 64 + o) &&
      (Z.lor STATUS_ALLOCATED o =? 128 + o)) || (64 <=? o))); [by vm_compute|lia]).
  destruct (Z.leb_spec 64 o); [lia|]. rewrite orb_false_r in HP. lia.
Qed.
Lemma u8_small x : 0 ≤ x < 256 → u8 x = x.
Proof. intros. by apply Z.mod_small. Qed.
Lemma ord_range s : 0 ≤ ord s < 64.
Proof. by apply Z.mod_pos_bound. Qed.
(** One order less. *)
Lemma ord_pred s : 0 ≤ s < 256 → 1 ≤ ord s →
  u8 (s - 1) = s - 1 ∧ ord (s - 1) = ord s - 1 ∧ (s - 1 <? 128) = (s <? 128) ∧ (s - 1 <? 64) = (s <? 64) ∧ 0 ≤ s - 1.
Proof.
  unfold ord. intros Hs Ho. assert (s ≠ 0) by (intros ->; by vm_compute in Ho). rewrite u8_small by lia.
  repeat split; [Z.div_mod_to_equations; lia| | |lia]; apply eq_true_iff_eq; rewrite !Z.ltb_lt;
    Z.div_mod_to_equations; lia.
Qed.

(** ** Powers of two *)
Lemma pow2_pos k : 0 ≤ k → 0 < 2 ^ k.
Proof. intros. by apply Z.pow_pos_nonneg. Qed.
Lemma pow2_half k : 1 ≤ k → 2 ^ k = 2 * 2 ^ (k - 1).
Proof. intros. rewrite <-Z.pow_succ_r by lia. f_equal. lia. Qed.
Lemma pow2_le k : 0 ≤ k < 52 → 1 ≤ 2 ^ k ≤ 2 ^ 51.
Proof. intros. split; [pose proof (pow2_pos k); lia|apply Z.pow_le_mono_r; lia]. Qed.
Lemma pow2_divides o k : 0 ≤ o ≤ k → (2 ^ o | 2 ^ k).
Proof. intros. exists (2 ^ (k - o)). rewrite <-Z.pow_add_r by lia. f_equal. lia. Qed.
Lemma BIT_in n : 0 ≤ n < 64 → BIT n = Done (2 ^ n).
Proof. intros. unfold BIT. rewrite (proj2 (Z.leb_le _ _)), (proj2 (Z.ltb_lt _ _)) by lia. done. Qed.
Lemma aligned_order x o : 0 ≤ o < 64 → IS_ALIGNED_ORDER x o = Done (x mod 2 ^ o =? 0).
Proof.
  intros. unfold IS_ALIGNED_ORDER. rewrite BIT_in by done. cbn [mbind outcome_bind mret outcome_ret].
  unfold IS_ALIGNED. do 2 f_equal. rewrite <-Z.land_ones, Z.ones_equiv by lia. done.
Qed.

(** ** Blocks *)
Lemma same_block p q k : 0 ≤ k → p mod 2 ^ k = 0 → q / 2 ^ k = p / 2 ^ k ↔ p ≤ q < p + 2 ^ k.
Proof.
  intros Hk Hp. pose proof (pow2_pos k Hk). split.
  - intros He. Z.div_mod_to_equations. nia.
  - intros Hq. symmetry. apply Z.div_unique with (q - p); [lia|]. Z.div_mod_to_equations. nia.
Qed.
(** A smaller block lies in a bigger one. *)
Lemma block_inside o k q x : 0 ≤ o ≤ k → q / 2 ^ o = x / 2 ^ o → q / 2 ^ k = x / 2 ^ k.
Proof.
  intros Ho He. replace (2 ^ k) with (2 ^ o * 2 ^ (k - o)) by (rewrite <-Z.pow_add_r by lia; f_equal; lia).
  rewrite <-!Z.div_div by (pose proof (pow2_pos o); pose proof (pow2_pos (k - o)); lia). by rewrite He.
Qed.
Lemma aligned_below o k p : 0 ≤ o ≤ k → p mod 2 ^ k = 0 → p mod 2 ^ o = 0.
Proof.
  intros Ho Hp. pose proof (pow2_pos o). pose proof (pow2_pos k).
  apply Z.mod_divide; [lia|]. etransitivity; [apply (pow2_divides o k); lia|]. apply Z.mod_divide; lia.
Qed.
Lemma aligned_second k p : 1 ≤ k → p mod 2 ^ k = 0 → (p + 2 ^ (k - 1)) mod 2 ^ (k - 1) = 0.
Proof.
  intros Hk Hp. pose proof (pow2_pos (k - 1)). rewrite <-(Z.mul_1_l (2 ^ (k - 1))) at 1.
  rewrite Z.mod_add by lia. apply (aligned_below (k - 1) k); [lia|done].
Qed.
Lemma block_start p k : 0 ≤ k → (p - p mod 2 ^ k) mod 2 ^ k = 0 ∧ p - p mod 2 ^ k ≤ p < p - p mod 2 ^ k + 2 ^ k.
Proof.
  intros Hk. pose proof (pow2_pos k Hk). pose proof (Z.mod_pos_bound p (2 ^ k)). split; [|lia].
  rewrite Zminus_mod_idemp_r, Z.sub_diag. by apply Z.mod_0_l; lia.
Qed.
(** The half blocks. *)
Lemma half_starts k p q : 1 ≤ k → p mod 2 ^ k = 0 → p ≤ q < p + 2 ^ k → q mod 2 ^ (k - 1) = 0 →
  q = p ∨ q = p + 2 ^ (k - 1).
Proof.
  intros Hk Hp Hq Ha. pose proof (pow2_pos (k - 1)). rewrite (pow2_half k) in Hq by done.
  assert (p mod 2 ^ (k - 1) = 0) as Hp' by (apply (aligned_below (k - 1) k); [lia|done]).
  apply Z.mod_divide in Ha as [x Hx]; [|lia]. apply Z.mod_divide in Hp' as [y Hy]; [|lia].
  assert (y ≤ x < y + 2) by nia. assert (x = y ∨ x = y + 1) as [-> | ->] by lia; [left|right]; lia.
Qed.

(** ** Coherent tables *)
Section coherent.
Context (lo hi : Z).
Implicit Types f : Z → option Z.
Definition coherent f : Prop := ∀ p, lo ≤ p < hi → ∃ s,
  f p = Some s ∧ 0 ≤ s < 256 ∧ ord s < 52 ∧
  ∀ q, q / 2 ^ ord s = p / 2 ^ ord s → lo ≤ q < hi ∧ f q = Some s.
(** The table [f'] is [f] but for the bytes [s] of the pages of a range. *)
Definition relabel f p len s f' : Prop :=
  ∀ q, f' q = if bool_decide (p ≤ q < p + len) then Some s else f q.

Lemma relabel_in f p len s f' q : relabel f p len s f' → p ≤ q < p + len → f' q = Some s.
Proof. intros Hr Hq. by rewrite Hr, bool_decide_eq_true_2. Qed.
Lemma relabel_out f p len s f' q : relabel f p len s f' → ¬ (p ≤ q < p + len) → f' q = f q.
Proof. intros Hr Hq. by rewrite Hr, bool_decide_eq_false_2. Qed.

Lemma coherent_relabel f f' k p s : coherent f → 0 ≤ k < 52 → p mod 2 ^ k = 0 → lo ≤ p → p + 2 ^ k ≤ hi →
  (∀ q, p ≤ q < p + 2 ^ k → ∃ t, f q = Some t ∧ ord t ≤ k) →
  0 ≤ s < 256 → ord s ≤ k → relabel f p (2 ^ k) s f' → coherent f'.
Proof.
  intros Hc Hk Hp Hlo Hhi Hin Hs Ho Hr q Hq. pose proof (ord_range s) as Hos.
  destruct (decide (p ≤ q < p + 2 ^ k)) as [Hi|Hi].
  - exists s. split; [by eapply relabel_in|]. split; [done|]. split; [lia|]. intros x Hx.
    assert (p ≤ x < p + 2 ^ k) as Hxi.
    { apply same_block; [lia|done|]. apply same_block in Hi; [|lia|done]. rewrite <-Hi.
      by apply (block_inside (ord s)); [lia|]. }
    split; [lia|]. by eapply relabel_in.
  - destruct (Hc q Hq) as (t & Ht & Htr & Hto & Hb). exists t. rewrite (relabel_out _ _ _ _ _ _ Hr Hi).
    do 3 (split; [done|]). intros x Hx. destruct (Hb x Hx) as [Hxr Hxf]. split; [done|].
    rewrite (relabel_out _ _ _ _ _ _ Hr); [done|]. intros Hxi. apply Hi.
    destruct (Hin x Hxi) as (t' & Ht' & Hto'). rewrite Hxf in Ht'. injection Ht' as <-.
    apply same_block; [lia|done|]. apply same_block in Hxi; [|lia|done]. rewrite <-Hxi. symmetry.
    pose proof (ord_range t). by apply (block_inside (ord t)); [lia|].
Qed.
(** The block a byte names. *)
Lemma coherent_block f p s k : coherent f → lo ≤ p < hi → f p = Some s → ord s = k → p mod 2 ^ k = 0 →
  lo ≤ p ∧ p + 2 ^ k ≤ hi ∧ ∀ q, p ≤ q < p + 2 ^ k → f q = Some s.
Proof.
  intros Hc Hp Hf Hk Ha. destruct (Hc p Hp) as (t & Ht & _ & _ & Hb). rewrite Hf in Ht. injection Ht as <-.
  pose proof (ord_range s) as Hos. rewrite Hk in *. pose proof (pow2_pos k).
  assert (∀ q, p ≤ q < p + 2 ^ k → lo ≤ q < hi ∧ f q = Some s) as Hq
    by (intros q Hq; apply Hb, same_block; [lia|done..]).
  destruct (Hq (p + 2 ^ k - 1)) as [? _]; [lia|]. split; [lia|]. split; [lia|]. intros q Hq'. by apply Hq.
Qed.
End coherent.

(** ** The highest bit *)
Lemma top_clear_lt word k : 0 ≤ word < 2 ^ 64 → 0 < k ≤ 64 → top_clear word k = (word <? 2 ^ (64 - k)).
Proof.
  intros Hw Hk. unfold top_clear, u64, wrap.
  assert (Z.shiftl (2 ^ 64 - 1) (64 - k) mod 2 ^ 64 = Z.shiftl (Z.ones k) (64 - k)) as ->.
  { change (2 ^ 64 - 1) with (Z.ones 64). rewrite <-Z.land_ones by lia. apply Z.bits_inj'. intros i Hi.
    rewrite Z.land_spec, !Z.shiftl_spec, !Z.testbit_ones by lia.
    apply eq_true_iff_eq. rewrite !andb_true_iff, !Z.leb_le, !Z.ltb_lt. lia. }
  replace (Z.land word (Z.shiftl (Z.ones k) (64 - k))) with (Z.shiftl (Z.shiftr word (64 - k)) (64 - k)).
  - rewrite Z.shiftl_mul_pow2, Z.shiftr_div_pow2 by lia. pose proof (pow2_pos (64 - k)).
    apply eq_true_iff_eq. rewrite Z.eqb_eq, Z.ltb_lt. split; intros E.
    + assert (word / 2 ^ (64 - k) = 0) as E0 by nia. apply Z.div_small_iff in E0; lia.
    + rewrite Z.div_small by lia. done.
  - apply Z.bits_inj'. intros i Hi. rewrite Z.land_spec, !Z.shiftl_spec by lia.
    destruct (decide (i < 64 - k)) as [Hlt|Hge]; [rewrite !(Z.testbit_neg_r _ (i - (64 - k))), andb_false_r by lia; done|].
    rewrite Z.shiftr_spec, Z.testbit_ones by lia. replace (i - (64 - k) + (64 - k)) with i by lia.
    destruct (decide (i < 64)); [|rewrite (Z.bits_above_log2 word i); [done|lia|]].
    + rewrite (proj2 (Z.leb_le _ _)), (proj2 (Z.ltb_lt _ _)) by lia. by rewrite andb_true_r.
    + destruct (decide (word = 0)) as [->|]; [simpl; lia|]. apply Z.log2_lt_pow2; [lia|].
      eapply Z.lt_le_trans; [apply Hw|]. apply Z.pow_le_mono_r; lia.
Qed.
(** One step: the sum stays, and the highest bit moves up. *)
Lemma fls_step_spec k num word m : 0 < k ≤ 32 → 0 < word < 2 ^ 64 → m ≤ Z.log2 word →
  ∃ num' word', fls_step k (num, word) = (num', word') ∧ 0 < word' < 2 ^ 64 ∧
    num' + Z.log2 word' = num + Z.log2 word ∧ Z.min (64 - k) (m + k) ≤ Z.log2 word'.
Proof.
  intros Hk Hw Hm. unfold fls_step. rewrite top_clear_lt by lia. destruct (Z.ltb_spec word (2 ^ (64 - k))) as [Hc|Hc].
  - assert (word * 2 ^ k < 2 ^ 64).
    { replace 64 with (64 - k + k) by lia. rewrite Z.pow_add_r by lia. pose proof (pow2_pos k). nia. }
    pose proof (pow2_pos k). assert (0 < word * 2 ^ k) by nia.
    rewrite Z.shiftl_mul_pow2, u64_small by (unfold in_u64; lia).
    eexists _, _. split; [done|]. rewrite Z.log2_mul_pow2 by lia. split; [lia|]. split; [lia|]. lia.
  - eexists _, _. split; [done|]. split; [done|]. split; [done|]. assert (64 - k ≤ Z.log2 word); [|lia].
    apply Z.log2_le_pow2; lia.
Qed.
Lemma fls_log2 word : 0 < word < 2 ^ 64 → fls word = Z.log2 word.
Proof.
  intros Hw. unfold fls. pose proof (Z.log2_nonneg word).
  destruct (fls_step_spec 32 63 word 0) as (n1 & w1 & -> & H1 & E1 & L1); [lia..|].
  destruct (fls_step_spec 16 n1 w1 32) as (n2 & w2 & -> & H2 & E2 & L2); [lia..|].
  destruct (fls_step_spec 8 n2 w2 48) as (n3 & w3 & -> & H3 & E3 & L3); [lia..|].
  destruct (fls_step_spec 4 n3 w3 56) as (n4 & w4 & -> & H4 & E4 & L4); [lia..|].
  destruct (fls_step_spec 2 n4 w4 60) as (n5 & w5 & -> & H5 & E5 & L5); [lia..|].
  rewrite top_clear_lt by lia. assert (Z.log2 w5 < 64) by (apply Z.log2_lt_pow2; lia).
  destruct (Z.ltb_spec w5 (2 ^ (64 - 1))) as [Hc|Hc].
  - assert (Z.log2 w5 < 63) by (apply Z.log2_lt_pow2; lia). lia.
  - assert (63 ≤ Z.log2 w5) by (apply Z.log2_le_pow2; lia). lia.
Qed.
Lemma clz_log2 k word : 0 < word < 2 ^ Z.of_nat k → clz k word = Z.of_nat k - 1 - Z.log2 word.
Proof.
  induction k as [|k IH]; intros Hw; [simpl in Hw; lia|]. cbn [clz].
  rewrite Nat2Z.inj_succ, Z.pow_succ_r in Hw by lia. destruct (decide (word < 2 ^ Z.of_nat k)) as [Hlt|Hge].
  - rewrite Z.bits_above_log2, IH by (lia || by apply Z.log2_lt_pow2; lia). lia.
  - assert (Z.log2 word = Z.of_nat k) as E by (apply Z.log2_unique; [lia|rewrite Z.pow_succ_r by lia; lia]).
    assert (Z.testbit word (Z.of_nat k) = true) as -> by (rewrite <-E; apply Z.bit_log2; lia). lia.
Qed.
Lemma fls_builtin_agrees word : 0 < word < 2 ^ 64 → fls_builtin word = fls word.
Proof. intros Hw. unfold fls_builtin. rewrite fls_log2, (clz_log2 64) by done. lia. Qed.

(** ** Orders *)
Lemma power_of_2 n : 0 < n → is_power_of_2 n = (n =? 2 ^ Z.log2 n).
Proof.
  intros Hn. unfold is_power_of_2. rewrite (proj2 (Z.eqb_neq n 0)) by lia. cbn [negb andb].
  pose proof (Z.log2_spec n Hn) as Hl. pose proof (Z.log2_nonneg n) as Hl0. set (k := Z.log2 n) in *.
  destruct (Z.eqb_spec n (2 ^ k)) as [E|Hne]; apply eq_true_iff_eq; rewrite Z.eqb_eq.
  - clearbody k. subst n. replace (2 ^ k - 1) with (Z.ones k) by (rewrite Z.ones_equiv; lia).
    rewrite Z.land_ones by done. split; [done|]. intros _. apply Z.mod_same. lia.
  - split; [|done]. intros E. apply (f_equal (λ z, Z.testbit z k)) in E.
    rewrite Z.land_spec, Z.testbit_0_l in E. assert (Z.log2 (n - 1) = k) as E2.
    { apply Z.log2_unique; lia. }
    assert (Z.testbit n k = true) as B1 by (apply Z.bit_log2; lia).
    assert (Z.testbit (n - 1) k = true) as B2 by (rewrite <-E2; apply Z.bit_log2; lia).
    by rewrite B1, B2 in E.
Qed.
Lemma get_order_up size : 0 < size < 2 ^ 64 → get_order size = Z.log2_up size.
Proof.
  intros Hs. unfold get_order. rewrite (proj2 (Z.eqb_neq size 0)), fls_log2, power_of_2 by lia.
  pose proof (Z.log2_spec size) as Hl. pose proof (Z.log2_nonneg size).
  destruct (Z.eqb_spec size (2 ^ Z.log2 size)) as [E|Hne].
  - rewrite Z.add_0_r. rewrite E at 2. by rewrite Z.log2_up_pow2.
  - symmetry. apply Z.log2_up_unique; [lia|]. rewrite Z.add_1_r, Z.pred_succ. lia.
Qed.
Lemma page_align_up x : 0 ≤ x ≤ 2 ^ 64 - PAGE_SIZE → Z.shiftr (PAGE_ALIGN x) PAGE_SHIFT = (x + (PAGE_SIZE - 1)) / PAGE_SIZE.
Proof.
  intros Hx. unfold PAGE_ALIGN. rewrite u64_small by (unfold in_u64, PAGE_SIZE in *; lia).
  change PAGE_SIZE with (2 ^ 12). set (y := x + (2 ^ 12 - 1)). assert (0 ≤ y < 2 ^ 64) as Hy by (unfold PAGE_SIZE in Hx; lia).
  rewrite <-Z.shiftr_div_pow2 by lia. unfold PAGE_SHIFT. apply Z.bits_inj'. intros i Hi.
  rewrite !Z.shiftr_spec, Z.land_spec by done. change (2 ^ 64 - 2 ^ 12) with (Z.shiftl (Z.ones 52) 12).
  rewrite Z.shiftl_spec, Z.testbit_ones by lia. replace (i + 12 - 12) with i by lia.
  rewrite (proj2 (Z.leb_le 0 i)) by done. destruct (Z.ltb_spec i 52); [apply andb_true_r|].
  rewrite andb_false_r. symmetry. destruct (decide (y = 0)) as [->|]; [apply Z.testbit_0_l|].
  apply Z.bits_above_log2; [lia|]. apply Z.log2_lt_pow2; [lia|]. eapply Z.lt_le_trans; [apply Hy|].
  apply Z.pow_le_mono_r; lia.
Qed.
(** The order of a size in bytes. *)
Definition size_order (size : Z) : Z := get_order (Z.shiftr (PAGE_ALIGN size) PAGE_SHIFT).
Lemma size_order_up size : 0 < size ≤ 2 ^ 63 →
  0 ≤ size_order size < 52 ∧ size ≤ 2 ^ size_order size * PAGE_SIZE.
Proof.
  intros Hs. unfold size_order. rewrite page_align_up by (unfold PAGE_SIZE; lia). unfold PAGE_SIZE.
  set (k := (size + (4096 - 1)) / 4096).
  assert (1 ≤ k ≤ 2 ^ 51 ∧ size ≤ k * 4096) as [Hk Hsk] by (unfold k; Z.div_mod_to_equations; lia).
  rewrite get_order_up by lia. pose proof (Z.log2_up_nonneg k). assert (Z.log2_up k ≤ 51) by (by apply Z.log2_up_le_pow2; lia).
  split; [lia|]. assert (k ≤ 2 ^ Z.log2_up k); [|lia]. destruct (decide (k = 1)) as [->|]; [by vm_compute|].
  apply Z.log2_up_spec. lia.
Qed.
(** An alignment is a power of two of at most [2 ^ order] pages. *)
Lemma align_order k : 0 ≤ k < 64 → size_order (2 ^ k) = Z.max 0 (k - 12).
Proof.
  intros Hk. unfold size_order. assert (1 ≤ 2 ^ k ≤ 2 ^ 63) as Hp
    by (split; [pose proof (pow2_pos k); lia|apply Z.pow_le_mono_r; lia]).
  rewrite page_align_up by (unfold PAGE_SIZE; lia). destruct (decide (k < 12)) as [Hlt|Hge].
  - assert (2 ^ k ≤ 4096) by (change 4096 with (2 ^ 12); apply Z.pow_le_mono_r; lia).
    replace ((2 ^ k + (PAGE_SIZE - 1)) / PAGE_SIZE) with 1 by (unfold PAGE_SIZE; Z.div_mod_to_equations; lia).
    rewrite Z.max_l by lia. by vm_compute.
  - assert (2 ^ k = 2 ^ (k - 12) * 4096) as E by (change 4096 with (2 ^ 12); rewrite <-Z.pow_add_r by lia; f_equal; lia).
    replace ((2 ^ k + (PAGE_SIZE - 1)) / PAGE_SIZE) with (2 ^ (k - 12)) by (rewrite E; unfold PAGE_SIZE; Z.div_mod_to_equations; lia).
    rewrite get_order_up, Z.log2_up_pow2 by lia. lia.
Qed.
