(* ===== verification/KutFree.v ===== *)
(** * kvm-unit-tests: the free lists of an area

    [rings h n F]: the lists of area [n] hold, for each order [o], the pages [p]
    with [F o p]. Taking a block out and putting one in change this relation at
    the block only, and leave the memory of other areas alone. *)

From S2P Require Import Prelude KutList KutAlloc KutBlocks.

(** The list item at the start of a page. *)
Definition page (p : Z) : loc := At (p * PAGE_SIZE).
#[global] Instance page_inj : Inj (=) (=) page.
Proof. intros p q [= He]. unfold PAGE_SIZE in He. lia. Qed.
Lemma pfn_to_virt_page p : 0 ≤ p < 2 ^ 52 → pfn_to_virt p = page p.
Proof.
  intros Hp. unfold pfn_to_virt, page. f_equal. rewrite Z.shiftl_mul_pow2 by done.
  apply u64_small. unfold in_u64, PAGE_SIZE. change (2 ^ PAGE_SHIFT) with 4096. lia.
Qed.
Lemma virt_to_pfn_page p : virt_to_pfn (page p) = Done p.
Proof.
  unfold virt_to_pfn, page. rewrite Z.shiftr_div_pow2 by done. f_equal. by apply Z.div_mul.
Qed.

Section free_lists.
Context (n lo hi : Z).
Implicit Types F : Z → Z → Prop.

Record within F : Prop := {
  wi_dom o p : F o p → 0 ≤ o < 52 ∧ lo ≤ p < hi;
  wi_one o o' p : F o p → F o' p → o = o'
}.
Definition rings (h : links) F : Prop := ∃ L : Z → list Z, ∀ o, 0 ≤ o < 52 →
  ring h (Head n o) (page <$> L o) ∧ ∀ p, p ∈ L o ↔ F o p.
(** The memory of an area: its heads and the items of its pages. *)
Definition near (x : loc) : Prop :=
  match x with Head m _ => m = n | At a => ∃ q, lo ≤ q < hi ∧ a = q * PAGE_SIZE end.
Definition local (h h' : links) : Prop :=
  ∀ x, ¬ near x → prevs h' !! x = prevs h !! x ∧ nexts h' !! x = nexts h !! x.

Lemma near_page p : lo ≤ p < hi → near (page p).
Proof. intros Hp. by exists p. Qed.
Lemma local_refl h : local h h.
Proof. by intros x. Qed.
Lemma local_trans h1 h2 h3 : local h1 h2 → local h2 h3 → local h1 h3.
Proof. intros H12 H23 x Hx. by destruct (H12 x Hx) as [<- <-], (H23 x Hx) as [<- <-]. Qed.
Lemma local_frame h h' l : frame h h' l → (∀ x, x ∈ l → near x) → local h h'.
Proof. intros Hf Hl x Hx. apply Hf. intros Hin. by apply Hx, Hl. Qed.
Lemma rings_ext h F F' : rings h F → (∀ o p, 0 ≤ o < 52 → F o p ↔ F' o p) → rings h F'.
Proof.
  intros (L & HL) He. exists L. intros o Ho. destruct (HL o Ho) as [Hr Hm]. split; [done|].
  intros p. by rewrite Hm, He.
Qed.
Lemma items_near F (L : list Z) o : within F → 0 ≤ o < 52 → (∀ p, p ∈ L ↔ F o p) →
  ∀ x, x ∈ Head n o :: (page <$> L) → near x.
Proof.
  intros Hw Ho HL x [->|(q & -> & Hq)%list_elem_of_fmap]%elem_of_cons; [done|].
  apply HL in Hq. apply near_page, (wi_dom _ Hw _ _ Hq).
Qed.
(** One list changes, the others stay. *)
Lemma rings_change h h' F F' L o l' m : within F →
  (∀ o, 0 ≤ o < 52 → ring h (Head n o) (page <$> L o) ∧ ∀ p, p ∈ L o ↔ F o p) → 0 ≤ o < 52 →
  ring h' (Head n o) (page <$> l') → (∀ p, p ∈ l' ↔ F' o p) →
  frame h h' m → (∀ x, x ∈ m → x ∈ Head n o :: (page <$> L o) ∨ ∃ q, x = page q ∧ ∀ o', ¬ F o' q) →
  (∀ o' p, 0 ≤ o' < 52 → o' ≠ o → F o' p ↔ F' o' p) → rings h' F'.
Proof.
  intros Hw HL Ho Hr Hm Hf Hin He. exists (λ o', if decide (o' = o) then l' else L o').
  intros o' Ho'. destruct (decide (o' = o)) as [->|Hne]; [done|]. destruct (HL o' Ho') as [Hr' Hm'].
  split; [|intros p; rewrite Hm'; by apply He]. eapply kring_frame; [done..|]. intros x Hx Hxm.
  destruct (Hin x Hxm) as [Hx2|(q & -> & Hq)].
  - apply elem_of_cons in Hx as [->|(p & -> & Hp)%list_elem_of_fmap];
      apply elem_of_cons in Hx2 as [Hx2|(p2 & Hx2 & Hp2)%list_elem_of_fmap]; try done.
    + by injection Hx2.
    + apply (inj page) in Hx2 as ->. apply Hm' in Hp. apply (HL o Ho) in Hp2. by apply Hne, (wi_one _ Hw _ _ p2).
  - apply elem_of_cons in Hx as [|(p & Hx & Hp)%list_elem_of_fmap]; [done|].
    apply (inj page) in Hx as ->. by apply (Hq o'), Hm'.
Qed.

Lemma wp_take_block h F o p : within F → rings h F → F o p →
  wp (list_remove (page p)) (λ _ h', rings h' (λ o' q, F o' q ∧ q ≠ p) ∧ local h h') h.
Proof.
  intros Hw (L & HL) HF. destruct (wi_dom _ Hw _ _ HF) as [Ho Hp]. destruct (HL o Ho) as [Hr Hm].
  apply Hm in HF as HFL. apply list_elem_of_split in HFL as (l1 & l2 & Hl). rewrite Hl in Hr.
  pose proof (rg_nodup _ _ _ Hr) as [_ Hnd]%NoDup_cons. apply NoDup_fmap_1 in Hnd.
  rewrite fmap_app, fmap_cons in Hr. eapply wp_list_remove; [exact Hr|]. intros h' Hr' Hf.
  rewrite <-fmap_cons, <-!fmap_app, <-Hl in Hf. rewrite <-fmap_app in Hr'. split.
  - eapply (rings_change h h' F _ L o (l1 ++ l2)); [done..| |done|naive_solver|].
    + intros q. rewrite <-Hm, Hl. apply NoDup_app in Hnd as (? & ? & [? ?]%NoDup_cons). set_solver.
    + intros o' q ? Hne. split; [|tauto]. intros Hq. split; [done|]. intros ->. by apply Hne, (wi_one _ Hw _ _ p).
  - eapply local_frame; [done|]. by apply (items_near F).
Qed.
Lemma rings_put h h' F L o p l' : within F →
  (∀ o, 0 ≤ o < 52 → ring h (Head n o) (page <$> L o) ∧ ∀ p, p ∈ L o ↔ F o p) → 0 ≤ o < 52 → lo ≤ p < hi →
  (∀ o, ¬ F o p) → ring h' (Head n o) (page <$> l') → l' ≡ₚ p :: L o →
  frame h h' (page p :: Head n o :: (page <$> L o)) →
  rings h' (λ o' q, F o' q ∨ (o' = o ∧ q = p)) ∧ local h h'.
Proof.
  intros Hw HL Ho Hp Hn Hr Hl Hf. split.
  - eapply (rings_change h h' F _ L o l'); [done..| |done| |naive_solver].
    + intros q. rewrite Hl, elem_of_cons, (proj2 (HL o Ho) q). naive_solver.
    + intros x [->|?]%elem_of_cons; [right; eauto|by left].
  - eapply local_frame; [done|]. intros x [->|Hx]%elem_of_cons; [by apply near_page|].
    eapply items_near; [done..| |done]. apply HL, Ho.
Qed.
Lemma head_new F (L : list Z) o p : (∀ p, p ∈ L ↔ F o p) → (∀ o, ¬ F o p) → page p ∉ Head n o :: (page <$> L).
Proof.
  intros Hm Hn [|(q & Hx & Hq)%list_elem_of_fmap]%elem_of_cons; [done|].
  apply (inj page) in Hx as ->. by apply (Hn o), Hm.
Qed.
Lemma page_not_null p : 0 < p → page p ≠ At 0.
Proof. intros Hp [= He]. unfold PAGE_SIZE in He. lia. Qed.
Lemma wp_put_block h F o p : 0 < lo → within F → rings h F → 0 ≤ o < 52 → lo ≤ p < hi → (∀ o, ¬ F o p) →
  wp (list_add (Head n o) (page p))
    (λ _ h', rings h' (λ o' q, F o' q ∨ (o' = o ∧ q = p)) ∧ local h h') h.
Proof.
  intros Hlo Hw (L & HL) Ho Hp Hn. destruct (HL o Ho) as [Hr Hm].
  eapply wp_list_add; [exact Hr|by eapply head_new|apply page_not_null; lia|done|].
  intros h' Hr' Hf. eapply (rings_put h h' F L o p (p :: L o)); done.
Qed.
Lemma wp_put_tail h F o p : 0 < lo → within F → rings h F → 0 ≤ o < 52 → lo ≤ p < hi → (∀ o, ¬ F o p) →
  wp (list_add_tail (Head n o) (page p))
    (λ _ h', rings h' (λ o' q, F o' q ∨ (o' = o ∧ q = p)) ∧ local h h') h.
Proof.
  intros Hlo Hw (L & HL) Ho Hp Hn. destruct (HL o Ho) as [Hr Hm].
  eapply wp_list_add_tail; [exact Hr|by eapply head_new|apply page_not_null; lia| |].
  - intros x [->|(q & -> & Hq)%list_elem_of_fmap]%elem_of_cons; [done|]. apply page_not_null.
    apply Hm, (wi_dom _ Hw) in Hq. lia.
  - intros h' Hr' Hf. eapply (rings_put h h' F L o p (L o ++ [p])); try done.
    + by rewrite fmap_app.
    + by rewrite Permutation_app_comm.
Qed.
(** The end of a list that the search looks at: the head itself, or a block. *)
Lemma wp_peek (fresh : bool) h F o (Φ : loc → links → Prop) : rings h F → 0 ≤ o < 52 →
  ((∀ p, ¬ F o p) → Φ (Head n o) h) → (∀ p, F o p → Φ (page p) h) →
  wp ((if fresh then load_prev else load_next) (Head n o) ≫= deref) Φ h.
Proof.
  intros (L & HL) Ho H0 H1. destruct (HL o Ho) as [Hr Hm].
  destruct (kring_first _ _ _ Hr) as [Hn _], (kring_last _ _ _ Hr) as [Hv _].
  assert (∀ x, (x = None ∧ L o = [] ∨ ∃ p, x = Some (page p) ∧ p ∈ L o) → Φ (default (Head n o) x) h) as HΦ.
  { intros x [[-> HL0]|(p & -> & Hp)]; simpl; [apply H0|by apply H1, Hm].
    intros p Hp%Hm. rewrite HL0 in Hp. by apply not_elem_of_nil in Hp. }
  destruct fresh; wps.
  - eapply wp_read_prev; [exact Hv|]. links. apply HΦ. rewrite fmap_last.
    destruct (last (L o)) as [q|] eqn:E; simpl; [right|left; by apply last_None in E].
    exists q. split; [done|]. apply last_Some in E as [l ->]. set_solver.
  - eapply wp_read_next; [exact Hn|]. links. apply HΦ.
    destruct (L o) as [|q l]; simpl; [by left|right]. exists q. set_solver.
Qed.
(** The list of a block is not empty, seen from the block. *)
Lemma wp_item_listed h F o p (Φ : bool → links → Prop) : within F → rings h F → F o p → Φ false h →
  wp (is_list_empty (page p)) Φ h.
Proof.
  intros Hw (L & HL) HF HΦ. destruct (wi_dom _ Hw _ _ HF) as [Ho _]. destruct (HL o Ho) as [Hr Hm].
  apply Hm, list_elem_of_split in HF as (l1 & l2 & Hl). rewrite Hl, fmap_app, fmap_cons in Hr.
  apply kring_rotate in Hr. eapply wp_is_empty; [exact Hr|]. rewrite bool_decide_eq_false_2; [done|].
  by intros [_ ?]%app_nil.
Qed.
Lemma wp_head_empty h F o (Φ : bool → links → Prop) : rings h F → 0 ≤ o < 52 →
  (∀ b : bool, (b = true ↔ ∀ p, ¬ F o p) → Φ b h) → wp (is_list_empty (Head n o)) Φ h.
Proof.
  intros (L & HL) Ho HΦ. destruct (HL o Ho) as [Hr Hm]. eapply wp_is_empty; [exact Hr|]. apply HΦ.
  rewrite bool_decide_eq_true. destruct (L o) as [|q l]; simpl; [split; [|done]|split; [done|]].
  - intros _ p Hp%Hm. by apply not_elem_of_nil in Hp.
  - intros Hno. exfalso. apply (Hno q), Hm. set_solver.
Qed.
(** What happens elsewhere does not matter. *)
Lemma rings_local h h' F : within F → rings h F → (∀ x, near x → prevs h' !! x = prevs h !! x ∧ nexts h' !! x = nexts h !! x) →
  rings h' F.
Proof.
  intros Hw (L & HL) Hs. exists L. intros o Ho. destruct (HL o Ho) as [[Hp Hnd] Hm]. split; [|done]. split; [|done].
  pose proof (items_near F (L o) o Hw Ho Hm) as Hn.
  eapply kpath_ext; [done|..]; intros x Hx; apply Hs, Hn; set_solver.
Qed.
End free_lists.
