(* ===== verification/KutArea.v ===== *)
(** * kvm-unit-tests: the invariant of an area and the steps on it

    An area is sound when its table is coherent and its free lists hold exactly
    the free blocks the table describes. The lemmas run the accesses to the
    table and the lists from a sound area. *)

From S2P Require Import Prelude KutList KutAlloc KutBlocks KutFree.

(** The state byte of a page. *)
Definition st (a : mem_area) (p : Z) : option Z := page_states a !! (p - base a).
(** A free block of order [o] starts at [p]. *)
Definition free_at (a : mem_area) (o p : Z) : Prop :=
  base a ≤ p < top a ∧ p mod 2 ^ o = 0 ∧ ∃ s, st a p = Some s ∧ 0 ≤ s < 128 ∧ ord s = o.
Record area_ok (h : links) (n : Z) (a : mem_area) : Prop := {
  ao_base : 0 < base a;
  ao_range : base a < top a;
  ao_top : top a < 2 ^ 52;
  ao_table : coherent (base a) (top a) (st a);
  ao_max : 0 ≤ max_order a < 52;
  ao_lists : rings n h (free_at a)
}.
(** No free block is above the highest order searched. Allocating keeps this,
    freeing may not. *)
Definition bounded (a : mem_area) : Prop := ∀ o p, free_at a o p → o ≤ max_order a.
(** The same area, with other states of its pages. *)
Record same_area (a a' : mem_area) : Prop := {
  sa_base : base a' = base a;
  sa_top : top a' = top a;
  sa_pages : table a' = table a
}.
(** [w'] is [w] but for area [n] and the lists in it. *)
Record moved (n : Z) (w : pool) (a : mem_area) (w' : pool) (a' : mem_area) : Prop := {
  mv_world : ∃ h', w' = with_heap h' (with_area n a' w) ∧ local n (base a) (top a) (heap w) h';
  mv_same : same_area a a'
}.

Lemma same_refl a : same_area a a.
Proof. done. Qed.
Lemma same_trans a b c : same_area a b → same_area b c → same_area a c.
Proof. intros [] []. split; congruence. Qed.
Lemma moved_lookup n w a w' a' : moved n w a w' a' → areas w' !! n = Some a'.
Proof. intros [(h' & -> & _) _]. apply lookup_insert_eq. Qed.
Lemma moved_refl n w a : areas w !! n = Some a → moved n w a w a.
Proof.
  intros Ha. split; [|done]. exists (heap w). split; [|apply local_refl].
  unfold with_heap, with_area. simpl. rewrite insert_id by done. by destruct w.
Qed.
Lemma moved_trans n w a w1 a1 w2 a2 : moved n w a w1 a1 → moved n w1 a1 w2 a2 → moved n w a w2 a2.
Proof.
  intros [(h1 & -> & Hl1) Hs1] [(h2 & -> & Hl2) Hs2]. split; [|by eapply same_trans]. exists h2. split.
  - unfold with_heap, with_area. simpl. by rewrite insert_insert_eq.
  - simpl in Hl2. destruct Hs1 as [Hb Ht _]. rewrite Hb, Ht in Hl2. by eapply local_trans.
Qed.
Lemma with_area_lookup n a w : areas (with_area n a w) !! n = Some a.
Proof. apply lookup_insert_eq. Qed.
Lemma with_area_heap n a h w : with_area n a (with_heap h w) = with_heap h (with_area n a w).
Proof. done. Qed.
Lemma with_area_twice n a b w : with_area n a (with_area n b w) = with_area n a w.
Proof. unfold with_area. simpl. by rewrite insert_insert_eq. Qed.
Lemma with_heap_twice g h w : with_heap g (with_heap h w) = with_heap g w.
Proof. done. Qed.
Lemma free_within h n a : area_ok h n a → within (base a) (top a) (free_at a).
Proof.
  intros Hok. split.
  - intros o p (Hp & _ & s & Hs & Hs' & <-). destruct (ao_table _ _ _ Hok p Hp) as (t & Ht & _ & Hot & _).
    rewrite Hs in Ht. injection Ht as <-. pose proof (ord_range s). lia.
  - intros o o' p (_ & _ & s & Hs & _ & <-) (_ & _ & s' & Hs' & _ & <-). congruence.
Qed.

(** ** Reading and writing *)
Lemma wp_area n a w (Φ : mem_area → pool → Prop) : areas w !! n = Some a → Φ a w → wp (area n) Φ w.
Proof. intros Ha HΦ. unfold area. wps. apply wp_get. wps. by eapply owp_access. Qed.
Lemma wp_on_list {A} (m : C links A) w (Φ : A → pool → Prop) :
  wp m (λ r h, Φ r (with_heap h w)) (heap w) → wp (on_list m) Φ w.
Proof. unfold wp, on_list. by destruct (m (heap w)) as [[r h]| |]. Qed.
Lemma wp_check (b : bool) w (Φ : unit → pool → Prop) : b = true → Φ tt w → wp (assert b) Φ w.
Proof. by intros ->. Qed.
Lemma in_table_true a p : base a ≤ p < top a → in_table a (p - base a) = true.
Proof. intros. unfold in_table. apply andb_true_iff. lia. Qed.
Lemma wp_state_at n a w p s (Φ : Z → pool → Prop) :
  areas w !! n = Some a → base a ≤ p < top a → st a p = Some s → Φ s w → wp (state_at n (p - base a)) Φ w.
Proof.
  intros Ha Hp Hs HΦ. unfold state_at. wps. eapply wp_area; [done|]. rewrite in_table_true by done.
  wps. by eapply owp_access.
Qed.
(** The area after the bytes of [len] pages were set. *)
Record filled (a : mem_area) (p len v : Z) (a' : mem_area) : Prop := {
  fi_same : same_area a a';
  fi_max : max_order a' = max_order a;
  fi_states : relabel (st a) p len v (st a')
}.
Lemma filled_next a b c p len v : 0 ≤ len →
  filled a p 1 v b → filled b (p + 1) len v c → filled a p (len + 1) v c.
Proof.
  intros Hl [Hs1 Hm1 Hr1] [Hs2 Hm2 Hr2]. split; [by eapply same_trans|congruence|]. intros q.
  rewrite Hr2, Hr1. repeat case_bool_decide; try lia; done.
Qed.
Lemma filled_one a p v : base a ≤ p → filled a p 1 v (with_states a (<[p - base a := v]> (page_states a))).
Proof.
  intros Hp. split; [done..|]. intros q. unfold st, with_states. simpl. case_bool_decide.
  - assert (q = p) as -> by lia. apply lookup_insert_eq.
  - apply lookup_insert_ne. lia.
Qed.
Lemma wp_set_state n a w p v (Φ : unit → pool → Prop) :
  areas w !! n = Some a → base a ≤ p < top a →
  (∀ a', filled a p 1 v a' → Φ tt (with_area n a' w)) → wp (set_state n (p - base a) v) Φ w.
Proof.
  intros Ha Hp HΦ. unfold set_state. wps. eapply wp_area; [done|]. rewrite in_table_true by done. wps.
  apply HΦ, filled_one. lia.
Qed.
Lemma filled_none a p v : filled a p 0 v a.
Proof. split; [done..|]. intros q. by rewrite bool_decide_eq_false_2 by lia. Qed.
Lemma with_area_same n a w : areas w !! n = Some a → with_area n a w = w.
Proof. intros Ha. unfold with_area. rewrite insert_id by done. by destruct w. Qed.
Lemma wp_set_states k n v : ∀ a w p (Φ : unit → pool → Prop),
  areas w !! n = Some a → base a ≤ p → p + Z.of_nat k ≤ top a →
  (∀ a', filled a p (Z.of_nat k) v a' → Φ tt (with_area n a' w)) → wp (set_states k n (p - base a) v) Φ w.
Proof.
  induction k as [|k IH]; intros a w p Φ Ha Hp Ht HΦ; cbn [set_states]; wps.
  - rewrite <-(with_area_same n a w Ha). apply HΦ, filled_none.
  - eapply wp_set_state; [done|lia|]. intros b Hb. destruct (fi_same _ _ _ _ _ Hb) as [Eb Et _].
    replace (p - base a + 1) with (p + 1 - base b) by lia.
    eapply IH; [apply with_area_lookup|lia..|]. intros c Hc. rewrite with_area_twice. apply HΦ.
    rewrite Nat2Z.inj_succ. apply (filled_next a b); [lia|done..].
Qed.
Lemma wp_update_states k n old v : ∀ a w p (Φ : unit → pool → Prop),
  areas w !! n = Some a → base a ≤ p → p + Z.of_nat k ≤ top a →
  (∀ q, p ≤ q < p + Z.of_nat k → st a q = Some old) →
  (∀ a', filled a p (Z.of_nat k) v a' → Φ tt (with_area n a' w)) →
  wp (update_states k n (p - base a) old v) Φ w.
Proof.
  induction k as [|k IH]; intros a w p Φ Ha Hp Ht Hold HΦ; cbn [update_states]; wps.
  - rewrite <-(with_area_same n a w Ha). apply HΦ, filled_none.
  - eapply wp_state_at; [done|lia|apply Hold; lia|]. wps. apply wp_check; [apply Z.eqb_refl|]. wps.
    eapply wp_set_state; [done|lia|]. intros b Hb. destruct (fi_same _ _ _ _ _ Hb) as [Eb Et _].
    replace (p - base a + 1) with (p + 1 - base b) by lia.
    eapply IH; [apply with_area_lookup|lia..| |].
    + intros q Hq. rewrite (relabel_out _ _ _ _ _ _ (fi_states _ _ _ _ _ Hb)) by lia. apply Hold. lia.
    + intros c Hc. rewrite with_area_twice. apply HΦ. rewrite Nat2Z.inj_succ.
      apply (filled_next a b); [lia|done..].
Qed.

(** ** Free blocks after a change of bytes *)
(** No other free block starts in a block. *)
Lemma free_in_block h n a p s q o : area_ok h n a → base a ≤ p < top a → st a p = Some s →
  p mod 2 ^ ord s = 0 → p ≤ q < p + 2 ^ ord s → free_at a o q → o = ord s ∧ q = p.
Proof.
  intros Hok Hp Hs Hal Hq (_ & Hq0 & t & Ht & _ & Ho). pose proof (ord_range s).
  destruct (coherent_block _ _ _ p s _ (ao_table _ _ _ Hok) Hp Hs eq_refl Hal) as (_ & _ & Hb).
  rewrite (Hb q Hq) in Ht. injection Ht as <-. subst o. split; [done|].
  pose proof (proj2 (same_block p q (ord s) ltac:(lia) Hal) Hq) as E. pose proof (pow2_pos (ord s)).
  Z.div_mod_to_equations. lia.
Qed.
Lemma free_relabel a a' p len v o q : same_area a a' → relabel (st a) p len v (st a') → 0 ≤ v < 256 →
  free_at a' o q ↔ (free_at a o q ∧ ¬ (p ≤ q < p + len)) ∨
    (p ≤ q < p + len ∧ base a ≤ q < top a ∧ q mod 2 ^ o = 0 ∧ v < 128 ∧ ord v = o).
Proof.
  intros [Hb Ht _] Hr Hv. unfold free_at. rewrite Hb, Ht. destruct (decide (p ≤ q < p + len)) as [Hi|Hi].
  - rewrite (relabel_in _ _ _ _ _ _ Hr Hi). split.
    + intros (? & ? & s & [= <-] & ? & ?). right. lia.
    + intros [[_ []]|(_ & ? & ? & ? & ?)]; [done|]. do 2 (split; [done|]). exists v. split; [done|lia].
  - rewrite (relabel_out _ _ _ _ _ _ Hr Hi). tauto.
Qed.
(** A free block as the operations see it. *)
Lemma free_info h n a o p : area_ok h n a → free_at a o p → ∃ s,
  st a p = Some s ∧ 0 ≤ s < 128 ∧ ord s = o ∧ 0 ≤ o < 52 ∧ base a ≤ p ∧ p + 2 ^ o ≤ top a ∧
  p mod 2 ^ o = 0 ∧ ∀ q, p ≤ q < p + 2 ^ o → st a q = Some s.
Proof.
  intros Hok HF. pose proof (wi_dom _ _ _ (free_within _ _ _ Hok) _ _ HF) as [Ho _].
  destruct HF as (Hp & Hal & s & Hs & Hs' & <-). exists s.
  destruct (coherent_block _ _ _ p s _ (ao_table _ _ _ Hok) Hp Hs eq_refl Hal) as (? & ? & ?).
  repeat split; try done; lia.
Qed.
Lemma contains_true a p : base a ≤ p < top a → usable_area_contains_pfn a p = true.
Proof. intros. unfold usable_area_contains_pfn. apply andb_true_iff. lia. Qed.
Lemma within_ext lo hi F F' : within lo hi F → (∀ o p, F' o p → F o p) → within lo hi F'.
Proof. intros [Hd Ho] He. split; naive_solver. Qed.
Lemma within_put lo hi F o p : within lo hi F → 0 ≤ o < 52 → lo ≤ p < hi → (∀ o, ¬ F o p) →
  within lo hi (λ o' q, F o' q ∨ (o' = o ∧ q = p)).
Proof. intros [Hd H1] Ho Hp Hn. split; naive_solver. Qed.
