(* ===== verification/KutSplit.v ===== *)
(** * kvm-unit-tests: splitting, searching and allocating blocks of an area

    [split] replaces a free block by its two halves; [find_block] returns the
    smallest order with a block that fits, or shows that there is none.
    [page_memalign_order] returns an aligned block whose pages were all free,
    marks exactly these pages as allocated and keeps the area sound; it returns
    NULL only when no list it searches has a block. *)

From S2P Require Import Prelude KutList KutAlloc KutBlocks KutFree KutArea.

Lemma owp_BIT o (Φ : Z → Prop) : 0 ≤ o < 64 → Φ (2 ^ o) → owp (BIT o) Φ.
Proof. intros Ho HΦ. by rewrite BIT_in. Qed.
Lemma owp_aligned x o (Φ : bool → Prop) : 0 ≤ o < 64 → Φ (x mod 2 ^ o =? 0) → owp (IS_ALIGNED_ORDER x o) Φ.
Proof. intros Ho HΦ. by rewrite aligned_order. Qed.
Lemma owp_pfn p (Φ : Z → Prop) : Φ p → owp (virt_to_pfn (page p)) Φ.
Proof. intros HΦ. by rewrite virt_to_pfn_page. Qed.
Lemma idx_small h n a p : area_ok h n a → base a ≤ p < top a → u64 (p - base a) = p - base a.
Proof.
  intros Hok Hp. pose proof (ao_base _ _ _ Hok). pose proof (ao_top _ _ _ Hok). apply u64_small.
  unfold in_u64. lia.
Qed.
Lemma pfn_small h n a p : area_ok h n a → base a ≤ p ≤ top a → u64 p = p ∧ 0 ≤ p < 2 ^ 52.
Proof.
  intros Hok Hp. pose proof (ao_base _ _ _ Hok). pose proof (ao_top _ _ _ Hok). split; [|lia].
  apply u64_small. unfold in_u64. lia.
Qed.

(** ** The halves go into the list one order down *)
(** Both ways of adding a block. *)
Definition add_to (fresh : bool) : loc → loc → C links unit := if fresh then list_add_tail else list_add.
Lemma wp_add_to (fresh : bool) n lo hi h F o p : 0 < lo → within lo hi F → rings n h F → 0 ≤ o < 52 →
  lo ≤ p < hi → (∀ o, ¬ F o p) →
  wp (add_to fresh (Head n o) (page p))
    (λ _ h', rings n h' (λ o' q, F o' q ∨ (o' = o ∧ q = p)) ∧ local n lo hi h h') h.
Proof. intros. destruct fresh; [by apply wp_put_tail|by apply wp_put_block]. Qed.
Lemma wp_add_halves (fresh : bool) n lo hi w F o p q (Φ : unit → pool → Prop) :
  0 < lo → within lo hi F → rings n (heap w) F → 0 ≤ o < 52 → lo ≤ p < hi → lo ≤ q < hi → p ≠ q →
  (∀ o, ¬ F o p) → (∀ o, ¬ F o q) →
  (∀ h', rings n h' (λ o' x, F o' x ∨ (o' = o ∧ (x = p ∨ x = q))) → local n lo hi (heap w) h' →
    Φ tt (with_heap h' w)) →
  wp (on_list (add_to fresh (Head n o) (page p));; on_list (add_to fresh (Head n o) (page q))) Φ w.
Proof.
  intros Hlo Hw Hr Ho Hp Hq Hpq Hnp Hnq HΦ. wps. apply wp_on_list.
  eapply wp_mono; [by apply (wp_add_to fresh n lo hi)|]. intros [] h1 [Hr1 Hl1].
  apply wp_on_list. simpl. eapply wp_mono; [apply (wp_add_to fresh n lo hi); [done| |exact Hr1|done..|naive_solver]|].
  - by apply within_put.
  - intros [] h2 [Hr2 Hl2]. rewrite with_heap_twice. apply HΦ; [|by eapply local_trans].
    eapply rings_ext; [exact Hr2|]. naive_solver.
Qed.

(** ** The invariant after a block was split *)
Section halves.
Context (n : Z) (w : pool) (a : mem_area) (o p s : Z).
Hypothesis Hok : area_ok (heap w) n a.
Hypothesis Ho : 1 ≤ o.
Hypothesis Hs : st a p = Some s.
Hypothesis HF : free_at a o p.

Lemma split_free a' o' q : same_area a a' → relabel (st a) p (2 ^ o) (s - 1) (st a') →
  free_at a' o' q ↔ (free_at a o' q ∧ q ≠ p) ∨ (o' = o - 1 ∧ (q = p ∨ q = p + 2 ^ (o - 1))).
Proof.
  intros Hsa Hr. destruct (free_info _ _ _ _ _ Hok HF) as (s' & Hs' & Hsr & Hos & Hor & Hb & Ht & Hal & _).
  rewrite Hs in Hs'. injection Hs' as <-. destruct (ord_pred s) as (_ & Hop & _ & _ & Hge); [lia..|].
  pose proof (pow2_pos (o - 1)) as Hpos. pose proof (pow2_half o Ho) as Hhalf.
  rewrite (free_relabel _ _ _ _ _ _ _ Hsa Hr) by lia. split.
  - intros [[Hf Hi]|(Hi & _ & Hq & _ & Ho')].
    + left. split; [done|]. intros ->. lia.
    + right. split; [lia|]. subst o'. rewrite Hop, Hos in Hq. by apply half_starts.
  - intros [[Hf Hne]|[-> Hq]].
    + left. split; [done|]. intros Hi. apply Hne. rewrite <-Hos in Hi, Hal.
      apply (free_in_block _ _ _ p s q o' Hok); [lia|done..].
    + right. assert (q mod 2 ^ (o - 1) = 0) as Hqa.
      { destruct Hq as [->| ->]; [by apply (aligned_below (o - 1) o); [lia|]|by apply aligned_second]. }
      repeat split; try done; lia.
Qed.
Definition split_max (a' : mem_area) : Prop :=
  max_order a' = max_order a ∨
  max_order a' = max_order a - 1 ∧ max_order a = o ∧ ∀ q, ¬ (free_at a o q ∧ q ≠ p).
Lemma split_bounded a' : same_area a a' → relabel (st a) p (2 ^ o) (s - 1) (st a') → split_max a' →
  bounded a → bounded a'.
Proof.
  intros Hsa Hr Hm Hbd o' q [[Hf Hne]|[-> _]]%split_free; [| |done|done].
  - pose proof (Hbd _ _ Hf). destruct Hm as [->|(-> & Hmo & Hno)]; [done|].
    destruct (decide (o' = o)) as [->|]; [by destruct (Hno q)|lia].
  - pose proof (Hbd _ _ HF). destruct Hm as [->|(-> & _)]; lia.
Qed.
Lemma split_ok a' h' : same_area a a' → relabel (st a) p (2 ^ o) (s - 1) (st a') → split_max a' →
  rings n h' (λ o' x, (free_at a o' x ∧ x ≠ p) ∨ (o' = o - 1 ∧ (x = p ∨ x = p + 2 ^ (o - 1)))) →
  area_ok h' n a'.
Proof.
  intros Hsa Hr Hm Hrg. destruct (free_info _ _ _ _ _ Hok HF) as (s' & Hs' & Hsr & Hos & Hor & Hb & Ht & Hal & Hall).
  rewrite Hs in Hs'. injection Hs' as <-. destruct (ord_pred s) as (_ & Hop & _ & _ & Hge); [lia..|].
  pose proof (ao_max _ _ _ Hok) as Hmax.
  destruct Hsa as [Eb Et Ep] eqn:Esa. clear Esa. split; rewrite ?Eb, ?Et; try apply Hok.
  - eapply (coherent_relabel _ _ (st a) _ o p (s - 1)); [apply Hok|lia|done..| |lia|lia|done].
    intros q Hq. exists s. split; [by apply Hall|lia].
  - destruct Hm as [-> | (-> & ? & _)]; lia.
  - eapply rings_ext; [exact Hrg|]. intros o' q _. by rewrite split_free.
Qed.

(** The block is out of its list and its bytes are set. *)
Context (h1 : links).
Hypothesis Hr1 : rings n h1 (λ o' q, free_at a o' q ∧ q ≠ p).
Hypothesis Hl1 : local n (base a) (top a) (heap w) h1.
Lemma wp_split_max a1 : filled a p (2 ^ o) (s - 1) a1 →
  wp (if o =? max_order a1 then
        e ← on_list (is_list_empty (Head n o));
        if e : bool then modify (with_area n (with_max a1 (u8 (max_order a1 - 1)))) else mret tt
      else mret tt)
    (λ _ w', ∃ a2, w' = with_area n a2 (with_heap h1 w) ∧ same_area a a2 ∧
      relabel (st a) p (2 ^ o) (s - 1) (st a2) ∧ split_max a2)
    (with_area n a1 (with_heap h1 w)).
Proof using Hok Ho HF Hr1.
  intros [Hsa Hm Hst]. pose proof (wi_dom _ _ _ (free_within _ _ _ Hok) _ _ HF) as [Hor _].
  assert (split_max a1) by (by left).
  destruct (Z.eqb_spec o (max_order a1)) as [Emax|Emax]; wps; [|by exists a1].
  apply wp_on_list. simpl. eapply wp_head_empty; [exact Hr1|lia|]. intros b Hb.
  rewrite <-with_area_heap. destruct b; wps; [|by exists a1].
  exists (with_max a1 (u8 (max_order a1 - 1))). rewrite with_area_twice. split; [done|].
  split; [by destruct Hsa; split|]. split; [done|]. right. simpl. pose proof (ao_max _ _ _ Hok). rewrite Hm in *. rewrite u8_small by lia.
  split; [done|]. split; [done|]. by apply Hb.
Qed.
Lemma wp_split_add a2 : same_area a a2 → relabel (st a) p (2 ^ o) (s - 1) (st a2) → split_max a2 →
  wp (b ← lift (BIT (o - 1));
      if IS_FRESH s then
        on_list (list_add_tail (Head n (o - 1)) (page p));;
        on_list (list_add_tail (Head n (o - 1)) (pfn_to_virt (u64 (p + b))))
      else
        on_list (list_add (Head n (o - 1)) (page p));;
        on_list (list_add (Head n (o - 1)) (pfn_to_virt (u64 (p + b)))))
    (λ _ w', ∃ a', moved n w a w' a' ∧ area_ok (heap w') n a' ∧
      relabel (st a) p (2 ^ o) (s - 1) (st a') ∧ (bounded a → bounded a'))
    (with_area n a2 (with_heap h1 w)).
Proof using Hok Ho Hs HF Hr1 Hl1.
  intros Hsa2 Hst2 Hm2. destruct (free_info _ _ _ _ _ Hok HF) as (s' & Hs' & Hsr & Hos & Hor & Hb & Ht & Hal & _).
  rewrite Hs in Hs'. injection Hs' as <-. pose proof (pow2_pos (o - 1)). pose proof (pow2_half o Ho).
  wps. apply owp_BIT; [lia|]. rewrite fresh_byte by lia.
  destruct (pfn_small _ _ _ (p + 2 ^ (o - 1)) Hok) as [-> Hp2]; [lia|]. rewrite pfn_to_virt_page by done.
  match goal with |- wp ?m _ _ => replace m with
    (on_list (add_to (s <? 64) (Head n (o - 1)) (page p));;
     on_list (add_to (s <? 64) (Head n (o - 1)) (page (p + 2 ^ (o - 1))))) by (by destruct (s <? 64)) end.
  eapply (wp_add_halves _ _ (base a) (top a) _ (λ o' q, free_at a o' q ∧ q ≠ p));
    [apply Hok|eapply within_ext; [by eapply free_within|naive_solver]|exact Hr1|lia..|naive_solver| |].
  - intros o' [Hf _]. rewrite <-Hos in Hal.
    apply (free_in_block _ _ _ p s _ o' Hok) in Hf; [lia|lia|done..|rewrite Hos; lia].
  - intros h2 Hr2 Hl2. exists a2. split; [|split; [|split; [done|by apply split_bounded]]].
    + split; [|done]. exists h2. split; [done|]. by eapply local_trans.
    + simpl. by eapply split_ok.
Qed.
End halves.

Lemma wp_split n w a o p s : areas w !! n = Some a → area_ok (heap w) n a → 1 ≤ o → free_at a o p →
  st a p = Some s →
  wp (split n (page p)) (λ _ w', ∃ a', moved n w a w' a' ∧ area_ok (heap w') n a' ∧
    relabel (st a) p (2 ^ o) (s - 1) (st a') ∧ (bounded a → bounded a')) w.
Proof.
  intros Ha Hok Ho HF Hs.
  destruct (free_info _ _ _ _ _ Hok HF) as (s' & Hs' & Hsr & Hos & Hor & Hb & Ht & Hal & Hall).
  rewrite Hs in Hs'. injection Hs' as <-. destruct (ord_pred s) as (Hu8 & _ & _ & _ & _); [lia..|].
  pose proof (pow2_pos (o - 1)) as Hpos. pose proof (pow2_half o Ho) as Hhalf.
  assert (Hpr : base a ≤ p < top a) by lia. pose proof (free_within _ _ _ Hok) as Hw.
  pose proof (ao_lists _ _ _ Hok) as Hr0.
  unfold split. wps. apply owp_pfn. wps. eapply wp_area; [done|]. wps.
  apply wp_check; [by apply contains_true|]. wps. rewrite (idx_small _ _ _ _ Hok Hpr).
  eapply wp_state_at; [done..|]. wps. rewrite land_order, Hos.
  apply wp_check. { rewrite usable_byte by lia. unfold NLISTS, PAGE_SHIFT. rewrite !andb_true_iff, negb_true_iff. lia. }
  wps. apply owp_aligned; [lia|]. wps. apply wp_check; [lia|]. wps. apply owp_BIT; [lia|]. wps.
  destruct (pfn_small _ _ _ (p + 2 ^ o - 1) Hok) as [-> _]; [lia|].
  apply wp_check; [apply contains_true; lia|]. wps. apply wp_on_list.
  eapply wp_mono; [by apply (wp_take_block n (base a) (top a) _ (free_at a) o)|]. intros [] h1 [Hr1 Hl1].
  rewrite Hu8. wps. eapply wp_update_states; [done|lia| |rewrite Z2Nat.id by lia; exact Hall|]; [lia|].
  rewrite Z2Nat.id by lia. intros a1 Ha1. wps. eapply wp_area; [apply with_area_lookup|]. wps.
  eapply wp_mono; [by apply (wp_split_max n w a o p s)|]. intros [] w2 (a2 & -> & Hsa2 & Hst2 & Hm2).
  by apply wp_split_add.
Qed.

(** What a page is used for is the same: allocated and reserved pages keep their
    byte, free pages stay free, in whatever block. *)
Definition same_use (f g : option Z) : Prop :=
  match f with
  | None => g = None
  | Some s => if s <? 128 then ∃ t, g = Some t ∧ 0 ≤ t < 128 else g = Some s
  end.
#[global] Instance same_use_trans : Transitive same_use.
Proof.
  intros f g h Hf Hg. destruct f as [s|]; simpl in *; [|by subst g].
  destruct (Z.ltb_spec s 128); [|subst g; simpl in Hg; by destruct (Z.ltb_spec s 128); [lia|]].
  destruct Hf as (t & -> & Ht). simpl in Hg. by destruct (Z.ltb_spec t 128); [|lia].
Qed.
Lemma same_use_relabel a a' p o s q : relabel (st a) p (2 ^ o) (s - 1) (st a') → 0 ≤ s - 1 → s < 128 →
  (∀ q, p ≤ q < p + 2 ^ o → st a q = Some s) → (∀ t, st a q = Some t → 0 ≤ t) → same_use (st a q) (st a' q).
Proof.
  intros Hr H1 Hs Hall Hpos. destruct (decide (p ≤ q < p + 2 ^ o)) as [Hi|Hi].
  - rewrite (relabel_in _ _ _ _ _ _ Hr Hi), (Hall q Hi). simpl. destruct (Z.ltb_spec s 128); [|lia].
    exists (s - 1). split; [done|lia].
  - rewrite (relabel_out _ _ _ _ _ _ Hr Hi). destruct (st a q) as [t|]; simpl; [|done].
    destruct (Z.ltb_spec t 128); [|done]. exists t. split; [done|]. specialize (Hpos t eq_refl). lia.
Qed.
Lemma in_area h n a q : area_ok h n a → base a ≤ q < top a → ∃ s, st a q = Some s ∧ 0 ≤ s < 256.
Proof. intros Hok Hq. destruct (ao_table _ _ _ Hok q Hq) as (s & ? & ? & _). eauto. Qed.

(** ** Splitting down to an order *)
Lemma wp_split_down n p k : ∀ w a o s, areas w !! n = Some a → area_ok (heap w) n a → free_at a o p →
  st a p = Some s → Z.of_nat k ≤ o →
  wp (split_down k n (page p)) (λ _ w', ∃ a', moved n w a w' a' ∧ area_ok (heap w') n a' ∧
    free_at a' (o - Z.of_nat k) p ∧ st a' p = Some (s - Z.of_nat k) ∧ (bounded a → bounded a') ∧
    ∀ q, base a ≤ q < top a → same_use (st a q) (st a' q)) w.
Proof.
  induction k as [|k IH]; intros w a o s Ha Hok HF Hs Hk; cbn [split_down]; wps.
  - exists a. rewrite !Z.sub_0_r. split; [by apply moved_refl|]. do 4 (split; [done|]). intros q Hq.
    destruct (in_area _ _ _ _ Hok Hq) as (t & -> & Ht). simpl. destruct (Z.ltb_spec t 128); [|done].
    exists t. split; [done|lia].
  - destruct (free_info _ _ _ _ _ Hok HF) as (s' & Hs' & Hsr & Hos & Hor & Hb & Ht & Hal & Hall).
    rewrite Hs in Hs'. injection Hs' as <-. destruct (ord_pred s) as (_ & Hop & _ & _ & Hge); [lia..|].
    eapply wp_mono; [by apply (wp_split n w a o p s); [..|lia|done|done]|]. intros [] w1 (a1 & Hm1 & Hok1 & Hr1 & Hb1).
    assert (p ≤ p < p + 2 ^ o) as Hin by (pose proof (pow2_pos o); lia).
    eapply wp_mono; [eapply (IH w1 a1 (o - 1) (s - 1))|].
    + by eapply moved_lookup.
    + done.
    + apply (split_free n w a o p s); auto; [lia|apply Hm1].
    + by eapply relabel_in.
    + lia.
    + intros [] w2 (a2 & Hm2 & Hok2 & HF2 & Hs2 & Hb2 & Hu2). exists a2.
      replace (o - Z.of_nat (S k)) with (o - 1 - Z.of_nat k) by lia.
      replace (s - Z.of_nat (S k)) with (s - 1 - Z.of_nat k) by lia.
      split; [by eapply moved_trans|]. do 3 (split; [done|]). split; [auto|]. intros q Hq.
      destruct (mv_same _ _ _ _ _ Hm1) as [Eb Et _]. transitivity (st a1 q); [|apply Hu2; lia].
      eapply same_use_relabel; [done..|lia|done|]. intros t E. destruct (in_area _ _ _ _ Hok Hq) as (t' & ? & ?).
      naive_solver lia.
Qed.

(** ** Searching *)
(** What the search returns, from order [o] on. *)
Definition found (a : mem_area) (o : Z) (fresh : bool) (r : option (Z * loc)) : Prop :=
  match r with
  | None => fresh = false → ∀ o' p, o ≤ o' ≤ max_order a → ¬ free_at a o' p
  | Some (o', l) => ∃ p s, l = page p ∧ o ≤ o' ∧ free_at a o' p ∧ st a p = Some s ∧ (fresh = true → s < 64)
  end.
Lemma found_next a o fresh r : (fresh = false → ∀ p, ¬ free_at a o p) → found a (o + 1) fresh r → found a o fresh r.
Proof.
  intros Hno. destruct r as [[o' l]|]; simpl.
  - intros (p & s & ? & ? & ?). exists p, s. split; [done|]. split; [lia|done].
  - intros Hr Hf o' p Ho'. destruct (decide (o' = o)) as [->|]; [by apply Hno|]. apply Hr; [done|lia].
Qed.
Lemma wp_find_block n w a fresh f : ∀ o, areas w !! n = Some a → area_ok (heap w) n a → 0 ≤ o → 52 ≤ o + Z.of_nat f →
  wp (find_block f n o fresh) (λ r w', w' = w ∧ found a o fresh r) w.
Proof.
  induction f as [|f IH]; intros o Ha Hok Ho Hf; cbn [find_block]; wps; eapply wp_area; try done;
    pose proof (ao_max _ _ _ Hok) as Hmax; destruct (Z.ltb_spec (max_order a) o) as [Hlt|Hle]; wps;
    try (split; [done|]; intros ? ? ? ?; lia); try lia.
  assert (∀ fresh', fresh' = fresh → (fresh = false → ∀ p, ¬ free_at a o p) →
    wp (find_block f n (u8 (o + 1)) fresh') (λ r w', w' = w ∧ found a o fresh r) w) as Hnext.
  { intros ? -> Hno. rewrite u8_small by lia. eapply wp_mono; [apply IH; [done..|lia|lia]|].
    intros r w' [-> Hr]. split; [done|]. by apply found_next. }
  assert (with_heap (heap w) w = w) as Hw by (by destruct w).
  apply wp_on_list. eapply wp_peek; [apply Hok|lia|..].
  - intros Hno. rewrite Hw. wps. apply wp_on_list. eapply wp_head_empty; [apply Hok|lia|]. intros b Hb.
    rewrite Hw. destruct b; [by apply Hnext|]. exfalso. destruct Hb as [_ Hb]. by specialize (Hb Hno).
  - intros p HF. rewrite Hw. wps. apply wp_on_list. eapply wp_item_listed; [by eapply free_within|apply Hok|done|].
    rewrite Hw. destruct (free_info _ _ _ _ _ Hok HF) as (s & Hs & Hsr & Hos & Hor & Hb & Ht & Hal & Hall).
    destruct fresh; cbn [negb]; wps.
    + apply owp_pfn. wps. assert (base a ≤ p < top a) as Hp by (pose proof (pow2_pos o); lia).
      rewrite (idx_small _ _ _ _ Hok Hp). eapply wp_state_at; [done..|]. rewrite fresh_byte by lia.
      destruct (Z.ltb_spec s 64); wps; [|by apply Hnext].
      split; [done|]. exists p, s. by split_and!; [|lia|..].
    + split; [done|]. exists p, s. by split_and!; [|lia|..].
Qed.

(** ** A block changes its status *)
Lemma status_ok h h' n a a' p s v : area_ok h n a → base a ≤ p < top a → st a p = Some s → p mod 2 ^ ord s = 0 →
  same_area a a' → max_order a' = max_order a → relabel (st a) p (2 ^ ord s) v (st a') →
  0 ≤ v < 256 → ord v = ord s →
  rings n h' (λ o q, (free_at a o q ∧ q ≠ p) ∨ (v < 128 ∧ o = ord s ∧ q = p)) → area_ok h' n a'.
Proof.
  intros Hok Hp Hs Hal Hsa Hm Hr Hv Hvo Hrg. pose proof (ord_range s).
  destruct (coherent_block _ _ _ p s _ (ao_table _ _ _ Hok) Hp Hs eq_refl Hal) as (Hb1 & Hb2 & Hall).
  destruct (ao_table _ _ _ Hok p Hp) as (t & Ht & _ & Hto & _). rewrite Hs in Ht. injection Ht as <-.
  destruct Hsa as [Eb Et Ep] eqn:Esa. clear Esa. split; rewrite ?Eb, ?Et, ?Hm; try apply Hok.
  - eapply (coherent_relabel _ _ (st a) _ (ord s) p v); [apply Hok|lia|done..| |lia|lia|done].
    intros q Hq. exists s. split; [by apply Hall|lia].
  - eapply rings_ext; [exact Hrg|]. intros o q _. rewrite (free_relabel a a' p (2 ^ ord s) v) by done.
    pose proof (pow2_pos (ord s)). split.
    + intros [[Hf Hne]|(? & -> & ->)]; [left|right].
      * split; [done|]. intros Hi. by apply Hne, (free_in_block _ _ _ p s q o Hok).
      * rewrite <-Hvo in *. repeat split; done || lia.
    + intros [[Hf Hi]|(Hi & _ & Hq & Hv' & Ho)]; [left; split; [done|]; intros ->; lia|right].
      rewrite <-Ho, Hvo in *. split; [done|]. split; [done|]. 
      pose proof (proj2 (same_block p q (ord s) ltac:(lia) Hal) Hi). Z.div_mod_to_equations. lia.
Qed.

(** ** Allocating *)
(** The block [p] of order [o] was free and is now allocated, all else is used
    as before. *)
Record taken (a : mem_area) (p o : Z) (a' : mem_area) : Prop := {
  tk_base : base a ≤ p;
  tk_top : p + 2 ^ o ≤ top a;
  tk_aligned : p mod 2 ^ o = 0;
  tk_before q : p ≤ q < p + 2 ^ o → ∃ s, st a q = Some s ∧ 0 ≤ s < 128;
  tk_after q : p ≤ q < p + 2 ^ o → st a' q = Some (128 + o);
  tk_rest q : base a ≤ q < top a → ¬ (p ≤ q < p + 2 ^ o) → same_use (st a q) (st a' q)
}.
Lemma same_use_free f g s : same_use f g → g = Some s → s < 128 → ∃ t, f = Some t ∧ t < 128.
Proof.
  intros Hu -> Hs. destruct f as [t|]; simpl in Hu; [|done].
  destruct (Z.ltb_spec t 128); [by exists t|]. injection Hu as <-. lia.
Qed.
Lemma wp_page_memalign_order n w a al sz : areas w !! n = Some a → area_ok (heap w) n a →
  0 ≤ al < 52 → 0 ≤ sz < 52 →
  wp (page_memalign_order n al sz false) (λ r w', ∃ a', moved n w a w' a' ∧ area_ok (heap w') n a' ∧
    (bounded a → bounded a') ∧
    match r with
    | None => w' = w ∧ a' = a ∧ ∀ o p, Z.max al sz ≤ o ≤ max_order a → ¬ free_at a o p
    | Some l => ∃ p, l = page p ∧ p mod 2 ^ al = 0 ∧ taken a p sz a'
    end) w.
Proof.
  intros Ha Hok Hal Hsz. unfold page_memalign_order, NLISTS, PAGE_SHIFT. wps. apply wp_check; [lia|]. wps.
  rewrite Z.add_0_r, u8_small by (destruct (Z.ltb_spec al sz); lia).
  replace (if al <? sz then sz else al) with (Z.max al sz) by (destruct (Z.ltb_spec al sz); lia).
  eapply wp_mono; [apply (wp_find_block n w a); [done..|lia|lia]|]. intros [[o l]|] w' [-> Hr]; wps.
  2: { exists a. split; [by apply moved_refl|]. do 2 (split; [done|]). do 2 (split; [done|]). by apply Hr. }
  destruct Hr as (p & s & -> & Hoo & HF & Hs & _). eapply wp_area; [done|]. wps. apply owp_pfn. wps.
  eapply wp_mono; [apply (wp_split_down n p _ w a o s); [done..|lia]|].
  rewrite Z2Nat.id by lia. intros [] w1 (a1 & Hm1 & Hok1 & HF1 & Hs1 & Hb1 & Hu1). wps.
  replace (o - (o - sz)) with sz in HF1 by lia. rewrite Z.min_r by lia.
  destruct (free_info _ _ _ _ _ Hok1 HF1) as (t & Ht & Htr & Hot & _ & Hb & Htop & Halg & Hall).
  destruct (free_info _ _ _ _ _ Hok HF) as (_ & _ & _ & _ & Hor & _ & _ & Halo & _).
  destruct (mv_same _ _ _ _ _ Hm1) as [Eb Et _]. pose proof (pow2_pos sz). assert (base a1 ≤ p < top a1) as Hp by lia.
  apply wp_on_list. eapply wp_mono;
    [apply (wp_take_block n (base a1) (top a1) _ (free_at a1) sz); [by eapply free_within|apply Hok1|done]|].
  intros [] h2 [Hr2 Hl2]. wps. apply owp_BIT; [lia|]. wps.
  rewrite <-Eb, (idx_small _ _ _ _ Hok1 Hp). destruct (lor_status sz) as (_ & _ & ->); [lia|].
  rewrite u8_small by lia. eapply wp_set_states; [exact (moved_lookup _ _ _ _ _ Hm1)|lia|lia|].
  rewrite Z2Nat.id by lia. intros a2 [Hsa2 Hmx2 Hst2]. wps. exists a2.
  assert (moved n w1 a1 (with_area n a2 (with_heap h2 w1)) a2) as Hm2 by (split; [by exists h2|done]).
  assert (ord (128 + sz) = sz) as Hos by (unfold ord; rewrite <-(Z.mod_small sz 64) at 2 by lia;
    change 128 with (2 * 64); rewrite Z.add_comm; apply Z.mod_add; lia).
  split; [by eapply moved_trans|]. split.
  { rewrite <-Hot in Hst2, Halg, Hos. eapply (status_ok _ _ _ a1 a2 p t); [done..|lia|by rewrite Hot in *|].
    eapply rings_ext; [exact Hr2|]. intros o' q _. split; [auto|]. intros [?|[? _]]; [done|lia]. }
  split.
  { intros Hbd%Hb1 o' q. rewrite (free_relabel a1 a2 p (2 ^ sz) (128 + sz)), Hmx2 by (done || lia).
    intros [[Hf _]|(_ & _ & _ & ? & _)]; [by eapply Hbd|lia]. }
  unfold nonnull. rewrite bool_decide_eq_false_2 by (apply page_not_null; pose proof (ao_base _ _ _ Hok1); lia).
  exists p. split; [done|]. split; [by apply (aligned_below al o); [lia|]|]. split; try done; try lia.
  - intros q Hq. destruct (in_area _ _ _ q Hok) as (x & Hx & Hxr); [lia|]. specialize (Hu1 q ltac:(lia)).
    destruct (same_use_free _ _ t Hu1 (Hall q Hq)) as (y & ? & ?); [lia|]. exists y. split; [done|]. naive_solver lia.
  - intros q Hq. by eapply relabel_in.
  - intros q Hq Hi. rewrite (relabel_out _ _ _ _ _ _ Hst2 Hi). by apply Hu1.
Qed.
