(* ===== verification/KutPool.v ===== *)
(** * kvm-unit-tests: the pool of areas

    The pool is sound when the areas present are sound and apart. What the
    allocator promises is said of pages: [state w q s], [free_page w q] and
    [used w q s]; a block is allocated when its first page has the byte that
    says so. Allocated blocks never overlap. *)

From S2P Require Import Prelude KutList KutAlloc KutBlocks KutFree KutArea KutSplit.

(** Area [n] is present, with descriptor [a]. *)
Record owner (w : pool) (n : Z) (a : mem_area) : Prop := {
  ow_number : 0 ≤ n < 4;
  ow_present : has_area (areas_mask w) n = true;
  ow_area : areas w !! n = Some a
}.
Record pool_ok (w : pool) : Prop := {
  po_present n : 0 ≤ n < 4 → has_area (areas_mask w) n = true → ∃ a, areas w !! n = Some a;
  po_area n a : owner w n a → area_ok (heap w) n a ∧ 0 ≤ table a ≤ base a;
  po_apart n m a b : owner w n a → owner w m b → n ≠ m → top a ≤ table b ∨ top b ≤ table a
}.
(** The state byte of page [q]. *)
Definition state (w : pool) (q s : Z) : Prop := ∃ n a, owner w n a ∧ base a ≤ q < top a ∧ st a q = Some s.
Definition free_page (w : pool) (q : Z) : Prop := ∃ s, state w q s ∧ s < 128.
(** Allocated or reserved, with the byte [s]. *)
Definition used (w : pool) (q s : Z) : Prop := state w q s ∧ 128 ≤ s.
(** A block of order [o] is allocated at [p]. *)
Definition allocated (w : pool) (p o : Z) : Prop := 0 ≤ o < 52 ∧ p mod 2 ^ o = 0 ∧ state w p (128 + o).

Lemma owner_in w n a m b q : pool_ok w → owner w n a → owner w m b →
  base a ≤ q < top a → base b ≤ q < top b → n = m ∧ a = b.
Proof.
  intros Hw Ha Hb Hqa Hqb. destruct (decide (n = m)) as [->|Hne].
  - split; [done|]. pose proof (ow_area _ _ _ Ha). pose proof (ow_area _ _ _ Hb). congruence.
  - pose proof (po_area _ Hw _ _ Ha). pose proof (po_area _ Hw _ _ Hb).
    destruct (po_apart _ Hw _ _ _ _ Ha Hb Hne); lia.
Qed.
Lemma state_in w n a q s : pool_ok w → owner w n a → base a ≤ q < top a → state w q s ↔ st a q = Some s.
Proof.
  intros Hw Ha Hq. split.
  - intros (m & b & Hb & Hqb & Hs). by destruct (owner_in w n a m b q Hw Ha Hb Hq Hqb) as [_ ->].
  - intros Hs. by exists n, a.
Qed.
Lemma state_byte w q s : pool_ok w → state w q s → 0 ≤ s < 256.
Proof.
  intros Hw (n & a & Ha & Hq & Hs). destruct (po_area _ Hw _ _ Ha) as [Hok _].
  destruct (in_area _ _ _ _ Hok Hq) as (t & ? & ?). naive_solver lia.
Qed.

(** ** A step on one area *)
Section step.
Context (w : pool) (n : Z) (a : mem_area) (w' : pool) (a' : mem_area).
Hypothesis Hw : pool_ok w.
Hypothesis Ha : owner w n a.
Hypothesis Hm : moved n w a w' a'.

Lemma moved_mask : areas_mask w' = areas_mask w ∧ locked w' = locked w.
Proof. by destruct (mv_world _ _ _ _ _ Hm) as (h' & -> & _). Qed.
Lemma moved_owner m b : owner w' m b ↔ (m = n ∧ b = a') ∨ (m ≠ n ∧ owner w m b).
Proof.
  destruct (mv_world _ _ _ _ _ Hm) as (h' & -> & _). split.
  - intros [Hn Hp Hb]. simpl in *. destruct (decide (m = n)) as [->|Hne].
    + left. split; [done|]. rewrite lookup_insert_eq in Hb. congruence.
    + right. split; [done|]. split; [done..|]. by rewrite lookup_insert_ne in Hb.
  - intros [[-> ->]|[Hne [Hn Hp Hb]]]; split; simpl; try apply Ha; try done.
    + apply lookup_insert_eq.
    + by rewrite lookup_insert_ne.
Qed.
Lemma near_apart m b x : owner w m b → m ≠ n → near m (base b) (top b) x → ¬ near n (base a) (top a) x.
Proof.
  intros Hb Hne. destruct x as [k o|z]; simpl; [congruence|]. intros (q & Hq & ->) (q' & Hq' & He).
  unfold PAGE_SIZE in He. pose proof (po_area _ Hw _ _ Ha). pose proof (po_area _ Hw _ _ Hb).
  destruct (po_apart _ Hw _ _ _ _ Ha Hb); [done|lia..].
Qed.
Lemma pool_moved : area_ok (heap w') n a' → pool_ok w'.
Proof.
  intros Hok'. destruct moved_mask as [Hmask _]. destruct (mv_same _ _ _ _ _ Hm) as [Eb Et Ep].
  destruct (po_area _ Hw _ _ Ha) as [_ Htab]. split.
  - intros m Hmr Hp. rewrite Hmask in Hp. destruct (decide (m = n)) as [->|Hne].
    + exists a'. by eapply moved_lookup.
    + destruct (po_present _ Hw m Hmr Hp) as [b Hb].
      exists b. apply (moved_owner m b). right. split; [done|]. by split.
  - intros m b [[-> ->]|[Hne Hb]]%moved_owner; [by rewrite Ep, Eb|].
    destruct (po_area _ Hw _ _ Hb) as [Hokb ?]. split; [|done].
    destruct (mv_world _ _ _ _ _ Hm) as (h' & -> & Hl). destruct Hokb. split; try done. simpl.
    eapply rings_local; [|done|].
    + eapply free_within, (po_area _ Hw _ _ Hb).
    + intros x Hx. apply Hl. by apply (near_apart m b).
  - intros m1 m2 b1 b2 H1 H2 Hne. apply moved_owner in H1 as [[-> ->]|[Hne1 H1]];
      apply moved_owner in H2 as [[-> ->]|[Hne2 H2]]; rewrite ?Ep, ?Et; [done|..].
    + by apply (po_apart _ Hw n m2).
    + by apply (po_apart _ Hw m1 n).
    + by apply (po_apart _ Hw m1 m2).
Qed.
(** The states of the pages, before and after. *)
Lemma moved_state q s : area_ok (heap w') n a' →
  state w' q s ↔ (base a ≤ q < top a ∧ st a' q = Some s) ∨ (¬ (base a ≤ q < top a) ∧ state w q s).
Proof.
  intros Hok'. pose proof (pool_moved Hok') as Hw'. destruct (mv_same _ _ _ _ _ Hm) as [Eb Et Ep].
  assert (owner w' n a') as Ha' by (apply moved_owner; by left).
  destruct (decide (base a ≤ q < top a)) as [Hq|Hq].
  - rewrite (state_in w' n a') by (done || lia). tauto.
  - split.
    + intros (m & b & Hb & Hqb & Hs). right. split; [done|]. apply moved_owner in Hb as [[-> ->]|[_ Hb]]; [lia|].
      by exists m, b.
    + intros [[? _]|[_ (m & b & Hb & Hqb & Hs)]]; [done|]. exists m, b. split; [|done]. apply moved_owner. right.
      split; [|done]. intros ->. destruct Hb as [_ _ Hb]. rewrite (ow_area _ _ _ Ha) in Hb. by injection Hb as <-.
Qed.
End step.

(** ** Blocks *)
Section blocks.
Context (w : pool) (Hw : pool_ok w).

(** All pages of an allocated block say so. *)
Lemma allocated_block p o : allocated w p o → ∃ n a, owner w n a ∧ area_ok (heap w) n a ∧
  base a ≤ p ∧ p + 2 ^ o ≤ top a ∧ ∀ q, p ≤ q < p + 2 ^ o → st a q = Some (128 + o).
Proof.
  intros (Ho & Hal & n & a & Ha & Hp & Hs). destruct (po_area _ Hw _ _ Ha) as [Hok _]. exists n, a.
  assert (ord (128 + o) = o) as Hoo by (unfold ord; Z.div_mod_to_equations; lia).
  destruct (coherent_block _ _ _ p _ o (ao_table _ _ _ Hok) Hp Hs Hoo Hal) as (? & ? & ?). done.
Qed.
Lemma allocated_pages p o q : allocated w p o → p ≤ q < p + 2 ^ o → state w q (128 + o).
Proof.
  intros (n & a & Ha & Hok & Hb & Ht & Hall)%allocated_block Hq. exists n, a.
  split; [done|]. split; [lia|]. by apply Hall.
Qed.
Lemma state_unique q s t : state w q s → state w q t → s = t.
Proof. intros (n & a & Ha & Hq & Hs) Ht. rewrite (state_in w n a) in Ht by done. congruence. Qed.
(** Two allocated blocks that share a page are the same. *)
Lemma allocated_apart p o p' o' q : allocated w p o → allocated w p' o' →
  p ≤ q < p + 2 ^ o → p' ≤ q < p' + 2 ^ o' → p = p' ∧ o = o'.
Proof.
  intros H1 H2 Hq Hq'. pose proof (allocated_pages _ _ _ H1 Hq) as S1.
  pose proof (allocated_pages _ _ _ H2 Hq') as S2. pose proof (state_unique _ _ _ S1 S2).
  assert (o = o') as <- by lia. split; [|done]. destruct H1 as (Ho & Hal & _), H2 as (_ & Hal' & _).
  apply same_block in Hq; [|lia|done]. apply same_block in Hq'; [|lia|done].
  pose proof (pow2_pos o). Z.div_mod_to_equations. nia.
Qed.
End blocks.

(** ** The area of a page *)
Lemma wp_get_area_from w q : pool_ok w → ∀ k i, i + Z.of_nat k = 4 → 0 ≤ i →
  (∀ n a, owner w n a → n < i → ¬ (base a ≤ q < top a)) →
  wp (get_area_from k i q) (λ r w', w' = w ∧
    match r with
    | Some n => ∃ a, owner w n a ∧ base a ≤ q < top a
    | None => ∀ n a, owner w n a → ¬ (base a ≤ q < top a)
    end) w.
Proof.
  intros Hw. induction k as [|k IH]; intros i Hk Hi Hno; cbn [get_area_from]; wps.
  - split; [done|]. intros n a Ha. apply (Hno n a Ha). pose proof (ow_number _ _ _ Ha). lia.
  - apply wp_get. wps. destruct (has_area (areas_mask w) i) eqn:Hp; wps.
    + destruct (po_present _ Hw i) as [a Ha]; [lia|done|]. assert (owner w i a) as Hoa by (split; [lia|done..]).
      eapply wp_area; [done|]. destruct (usable_area_contains_pfn a q) eqn:Hc; wps.
      * split; [done|]. exists a. split; [done|]. unfold usable_area_contains_pfn in Hc.
        apply andb_true_iff in Hc. lia.
      * apply IH; [lia..|]. intros n b Hb Hn. destruct (decide (n = i)) as [->|]; [|apply (Hno n b Hb); lia].
        destruct Hb as [_ _ Hb]. rewrite Ha in Hb. injection Hb as <-. intros Hq.
        by rewrite contains_true in Hc.
    + apply IH; [lia..|]. intros n b Hb Hn. destruct (decide (n = i)) as [->|]; [|apply (Hno n b Hb); lia].
      destruct Hb as [_ Hb _]. congruence.
Qed.
Lemma wp_get_area w q (Φ : option Z → pool → Prop) : pool_ok w →
  (∀ n a, owner w n a → base a ≤ q < top a → Φ (Some n) w) →
  ((∀ n a, owner w n a → ¬ (base a ≤ q < top a)) → Φ None w) → wp (get_area q) Φ w.
Proof.
  intros Hw Hs Hn. eapply wp_mono; [apply (wp_get_area_from w q Hw); [lia..|]|].
  - intros n a Ha. pose proof (ow_number _ _ _ Ha). lia.
  - intros [n|] w' [-> Hr]; [|by apply Hn]. destruct Hr as (a & Ha & Hq). by eapply Hs.
Qed.
