(* ===== verification/KutPages.v ===== *)
(** * kvm-unit-tests: allocating and freeing pages

    What freeing a block does to the pages of a sound pool, and allocating from
    the areas that the flags select: they are tried in turn, the lock is taken
    and released, and the block is cleared unless the caller asked not to. *)

From S2P Require Import Prelude KutList KutAlloc KutBlocks KutFree KutArea KutSplit KutPool.

Lemma ord_free o : 0 ≤ o < 64 → ord (64 + o) = o.
Proof. intros Ho. unfold ord. Z.div_mod_to_equations. lia. Qed.
Lemma ord_allocated o : 0 ≤ o < 64 → ord (128 + o) = o.
Proof. intros Ho. unfold ord. Z.div_mod_to_equations. lia. Qed.

(** ** Freed blocks are not merged *)
(** A block that was just freed has a state byte that [coalesce] does not
    accept, as first or as second block of a pair. *)
Lemma wp_coalesce_freed n w a o p x : areas w !! n = Some a → area_ok (heap w) n a → 0 ≤ o < 52 →
  base a ≤ p < top a → st a p = Some (64 + o) → 0 ≤ x → x mod 2 ^ o = 0 → p = x ∨ p = x + 2 ^ o →
  wp (coalesce n o x (x + 2 ^ o)) (λ r w', r = false ∧ w' = w) w.
Proof.
  intros Ha Hok Ho Hp Hs Hx Hal Hpx. pose proof (ao_top _ _ _ Hok) as Htop. pose proof (pow2_le o Ho) as Hpow.
  assert (u64 (x + 2 ^ o) = x + 2 ^ o) as Hu by (apply u64_small; unfold in_u64; lia).
  unfold coalesce. wps. apply owp_aligned; [lia|]. wps. apply owp_aligned; [lia|]. wps.
  apply wp_check.
  { rewrite Hal. rewrite <-(Z.mul_1_l (2 ^ o)) at 1. rewrite Z.mod_add, Hal by lia. done. }
  wps. apply owp_BIT; [lia|]. wps. apply wp_check; [lia|]. wps. eapply wp_area; [done|].
  match goal with |- wp (if ?c then _ else _) _ _ => destruct c eqn:Hc end; wps; [done|].
  apply orb_false_iff in Hc as [Hc1 Hc2]. apply negb_false_iff, andb_true_iff in Hc1 as [Hc1 Hc1'].
  apply negb_false_iff, andb_true_iff in Hc2 as [Hc2 Hc2']. rewrite u64_small in Hc2, Hc2' by (unfold in_u64; lia).
  assert (base a ≤ x < top a) as Hxr by lia. assert (base a ≤ x + 2 ^ o < top a) as Hyr by lia.
  rewrite (idx_small _ _ _ _ Hok Hxr), (idx_small _ _ _ _ Hok Hyr).
  destruct (in_area _ _ _ _ Hok Hxr) as (s1 & Hs1 & _), (in_area _ _ _ _ Hok Hyr) as (s2 & Hs2 & _).
  eapply wp_state_at; [done..|]. destruct (Z.eqb_spec s1 o) as [->|]; cbn [negb]; wps; [|done].
  eapply wp_state_at; [done..|]. destruct (Z.eqb_spec s2 o) as [->|]; cbn [negb]; wps; [|done].
  exfalso. destruct Hpx as [->| ->]; [rewrite Hs in Hs1; injection Hs1|rewrite Hs in Hs2; injection Hs2]; lia.
Qed.
Lemma wp_coalesce_up f n w a o p : areas w !! n = Some a → area_ok (heap w) n a → 0 ≤ o < 52 →
  base a ≤ p < top a → st a p = Some (64 + o) → p mod 2 ^ o = 0 →
  wp (coalesce_up (S f) n (p - base a) p) (λ _ w', w' = w) w.
Proof.
  intros Ha Hok Ho Hp Hs Hal. cbn [coalesce_up]. wps. eapply wp_state_at; [done..|]. wps.
  rewrite land_order, ord_free by lia. apply owp_aligned; [lia|]. wps. apply owp_BIT; [lia|]. wps.
  pose proof (ao_top _ _ _ Hok). pose proof (ao_base _ _ _ Hok). pose proof (pow2_le o Ho).
  assert (p mod 2 ^ (o + 1) =? 0 = false → 2 ^ o ≤ p ∧ (p - 2 ^ o) mod 2 ^ o = 0) as Hodd.
  { intros Hne. apply Z.eqb_neq in Hne. split.
    - destruct (Z.le_gt_cases (2 ^ o) p) as [|Hlt]; [done|]. rewrite Z.mod_small in Hal by lia. lia.
    - rewrite <-(Z.mul_1_l (2 ^ o)) at 1. rewrite <-Zminus_mod_idemp_r, Z.mod_mul, Z.sub_0_r by lia. done. }
  set (x := if p mod 2 ^ (o + 1) =? 0 then p else u64 (p - 2 ^ o)).
  assert (0 ≤ x ∧ x mod 2 ^ o = 0 ∧ (p = x ∨ p = x + 2 ^ o) ∧ x ≤ p) as (Hx0 & Hxa & Hpx & Hxp).
  { unfold x. destruct (p mod 2 ^ (o + 1) =? 0); [lia|]. destruct (Hodd eq_refl).
    rewrite u64_small by (unfold in_u64; lia). lia. }
  rewrite u64_small by (unfold in_u64; lia).
  eapply wp_mono; [apply (wp_coalesce_freed n w a o p x); done|]. by intros ? ? [-> ->].
Qed.

(** ** Freeing *)
(** The block is free again, everything else is as it was. *)
Record given_back (w : pool) (p o : Z) (w' : pool) : Prop := {
  gb_state q s : state w' q s ↔ (p ≤ q < p + 2 ^ o ∧ s = 64 + o) ∨ (¬ (p ≤ q < p + 2 ^ o) ∧ state w q s)
}.
Lemma mem_page p : 0 < p < 2 ^ 52 → Z.shiftr (p * PAGE_SIZE) PAGE_SHIFT = p ∧ (p * PAGE_SIZE =? 0) = false ∧
  IS_ALIGNED (p * PAGE_SIZE) PAGE_SIZE = true.
Proof.
  intros Hp. split; [rewrite Z.shiftr_div_pow2 by done; by apply Z.div_mul|].
  split; [unfold PAGE_SIZE; lia|]. unfold IS_ALIGNED. apply Z.eqb_eq. change (PAGE_SIZE - 1) with (Z.ones 12).
  rewrite Z.land_ones by lia. by apply Z.mod_mul.
Qed.
Lemma wp_free_block w p o : pool_ok w → allocated w p o →
  wp (_free_pages (p * PAGE_SIZE)) (λ _ w', pool_ok w' ∧ locked w' = locked w ∧ given_back w p o w') w.
Proof.
  intros Hw Hall. pose proof Hall as (Ho & Hal & _). destruct (allocated_block w Hw p o Hall) as (n & a & Ha & Hok & Hb & Ht & Hst).
  pose proof (pow2_pos o) as Hpos. assert (base a ≤ p < top a) as Hp by lia.
  destruct (pfn_small _ _ _ p Hok) as [_ Hp52]; [lia|]. pose proof (ao_base _ _ _ Hok).
  destruct (mem_page p) as (Hsh & Hnz & Hpa); [lia|]. unfold _free_pages. rewrite Hsh, Hnz. wps.
  apply wp_check; [done|]. wps. eapply wp_get_area; [done| |intros Hno; exfalso; by eapply Hno].
  intros m b Hb' Hq. destruct (owner_in w n a m b p Hw Ha Hb' Hp Hq) as [<- <-]. clear Hb' Hq.
  pose proof (ow_area _ _ _ Ha) as Haw. wps. eapply wp_area; [done|]. wps. rewrite (idx_small _ _ _ _ Hok Hp).
  assert (st a p = Some (128 + o)) as Hsp by (apply Hst; lia).
  eapply wp_state_at; [done..|]. wps. rewrite land_order, ord_allocated by lia.
  apply wp_check; [rewrite allocated_byte by lia; lia|]. wps. unfold NLISTS, PAGE_SHIFT at 1.
  apply wp_check; [lia|]. wps. apply owp_aligned; [lia|]. wps. apply wp_check; [lia|]. wps.
  apply owp_BIT; [lia|]. wps. destruct (pfn_small _ _ _ (p + 2 ^ o - 1) Hok) as [-> _]; [lia|].
  apply wp_check; [apply contains_true; lia|]. wps. destruct (lor_status o) as (_ & -> & ->); [lia|].
  eapply wp_update_states; [done|lia|lia|rewrite Z2Nat.id by lia; exact Hst|].
  rewrite Z2Nat.id by lia. intros a1 [Hsa1 Hm1 Hst1]. wps. apply wp_on_list. cbn [heap with_area].
  assert (∀ o', ¬ free_at a o' p) as Hnf by (intros o' (_ & _ & s & Hs & ? & _); rewrite Hsp in Hs; injection Hs; lia).
  eapply wp_mono; [apply (wp_put_block n (base a) (top a) _ (free_at a) o p);
    [done|by eapply free_within|apply Hok|lia|done..]|]. intros [] h1 [Hr1 Hl1]. destruct Hsa1 as [Eb Et Ep] eqn:E. clear E.
  assert (ord (128 + o) = o) as Hos by (apply ord_allocated; lia).
  assert (area_ok h1 n a1) as Hok1.
  { eapply (status_ok _ _ _ a a1 p (128 + o) (64 + o)); rewrite ?Hos; [done..|lia|apply ord_free; lia|].
    eapply rings_ext; [exact Hr1|]. intros o' q _. split.
    - intros [Hf|[-> ->]]; [left|right; lia]. split; [done|]. intros ->. by apply (Hnf o').
    - intros [[Hf _]|(_ & -> & ->)]; auto. }
  rewrite <-Eb. eapply wp_mono; [apply (wp_coalesce_up 63 n _ a1 o); [apply lookup_insert_eq|done|done|lia|eapply relabel_in; [exact Hst1|lia]|done]|].
  intros [] w' ->. assert (moved n w a (with_heap h1 (with_area n a1 w)) a1) as Hm by (split; [by exists h1|done]).
  split; [by eapply pool_moved|]. split; [done|]. split. intros q s.
  rewrite (moved_state w n a _ a1 Hw Ha Hm) by done. destruct (decide (p ≤ q < p + 2 ^ o)) as [Hi|Hi].
  - rewrite (relabel_in _ _ _ _ _ _ Hst1 Hi). naive_solver lia.
  - rewrite (relabel_out _ _ _ _ _ _ Hst1 Hi). destruct (decide (base a ≤ q < top a)) as [Hq|Hq].
    + rewrite (state_in w n a) by done. naive_solver.
    + naive_solver.
Qed.

(** The block [p] of order [o] was free and is now allocated; other pages are
    used as before, and the free ones remain free. *)
Record handed_out (w : pool) (p o : Z) (w' : pool) : Prop := {
  ho_aligned : p mod 2 ^ o = 0;
  ho_free q : p ≤ q < p + 2 ^ o → free_page w q;
  ho_used q s : used w' q s ↔ (p ≤ q < p + 2 ^ o ∧ s = 128 + o) ∨ (¬ (p ≤ q < p + 2 ^ o) ∧ used w q s);
  ho_rest q : free_page w' q ↔ free_page w q ∧ ¬ (p ≤ q < p + 2 ^ o)
}.

(** ** Changes that do not concern the areas *)
Section same.
Context (w w' : pool) (Ea : areas w' = areas w) (Em : areas_mask w' = areas_mask w).
Lemma same_owner n a : owner w' n a ↔ owner w n a.
Proof using Ea Em. split; intros [? H1 H2]; split; congruence. Qed.
Lemma same_state q s : state w' q s ↔ state w q s.
Proof using Ea Em. unfold state. by setoid_rewrite same_owner. Qed.
Lemma same_pool : pool_ok w → (∀ n a, owner w n a → rings n (heap w') (free_at a)) → pool_ok w'.
Proof using Ea Em.
  intros [Hp Ho Hd] Hr. split.
  - rewrite Ea, Em. apply Hp.
  - intros n a Ha%same_owner. destruct (Ho n a Ha) as [[] ?]. split; [|done]. split; try done. by apply Hr.
  - intros n m a b Ha%same_owner Hb%same_owner. by apply Hd.
Qed.
End same.
Lemma lock_pool b w : pool_ok w → pool_ok (with_lock b w).
Proof. intros Hw. apply (same_pool w); [done..|]. intros n a Ha. apply (po_area _ Hw _ _ Ha). Qed.
Lemma lock_state b w q s : state (with_lock b w) q s ↔ state w q s.
Proof. by apply same_state. Qed.
Lemma handed_out_ext w1 w2 w1' w2' p o : (∀ q s, state w2 q s ↔ state w1 q s) →
  (∀ q s, state w2' q s ↔ state w1' q s) → handed_out w1 p o w1' → handed_out w2 p o w2'.
Proof.
  intros E E' [Ha Hf Hu Hr]. split; [done|..]; unfold free_page, used in *;
    setoid_rewrite E; try setoid_rewrite E'; done.
Qed.

(** ** One area, seen from the pool *)
Lemma in_block_area a p o a' q : taken a p o a' → p ≤ q < p + 2 ^ o → base a ≤ q < top a.
Proof. intros Ht Hq. pose proof (tk_base _ _ _ _ Ht). pose proof (tk_top _ _ _ _ Ht). lia. Qed.
Lemma same_use_iff f g : same_use f g → (∀ t, f = Some t → 0 ≤ t) →
  (∀ s, 128 ≤ s → g = Some s ↔ f = Some s) ∧ ((∃ s, g = Some s ∧ s < 128) ↔ ∃ s, f = Some s ∧ s < 128).
Proof.
  unfold same_use. intros Hu Hf. destruct f as [t|]; [|subst; naive_solver].
  destruct (Z.ltb_spec t 128) as [Hlt|Hge].
  - destruct Hu as (u & -> & Hur). split; [intros s Hs; split; intros [= ->]; lia|]. split; eauto with lia.
  - subst g. split; [done|]. done.
Qed.
Lemma taken_handed w n a w' a' p o : pool_ok w → owner w n a → moved n w a w' a' → area_ok (heap w') n a' →
  0 ≤ o < 52 → taken a p o a' → handed_out w p o w'.
Proof.
  intros Hw Ha Hm Hok' Ho Ht. pose proof (fun q s => moved_state w n a w' a' Hw Ha Hm q s Hok') as Hst.
  destruct (po_area _ Hw _ _ Ha) as [Hok _].
  assert (∀ q s, base a ≤ q < top a → state w q s ↔ st a q = Some s) as Hin by (intros; by apply (state_in w n a)).
  split.
  - apply Ht.
  - intros q Hq. destruct (tk_before _ _ _ _ Ht q Hq) as (s & Hs & ?). exists s. split; [|lia].
    apply Hin; [|done]. by eapply in_block_area.
  - intros q s. unfold used. rewrite Hst. destruct (decide (p ≤ q < p + 2 ^ o)) as [Hi|Hi].
    + pose proof (in_block_area _ _ _ _ _ Ht Hi). rewrite (tk_after _ _ _ _ Ht q Hi). naive_solver lia.
    + destruct (decide (base a ≤ q < top a)) as [Hq|Hq]; [|naive_solver]. rewrite Hin by done.
      destruct (same_use_iff _ _ (tk_rest _ _ _ _ Ht q Hq Hi)) as [Hu _]; [|naive_solver].
      intros t Et. destruct (in_area _ _ _ q Hok Hq) as (? & ? & ?). naive_solver lia.
  - intros q. unfold free_page. setoid_rewrite Hst. destruct (decide (p ≤ q < p + 2 ^ o)) as [Hi|Hi].
    + pose proof (in_block_area _ _ _ _ _ Ht Hi). rewrite (tk_after _ _ _ _ Ht q Hi).
      split; [|tauto]. intros (s & [[_ [= <-]]|[? _]] & Hs); [lia|done].
    + destruct (decide (base a ≤ q < top a)) as [Hq|Hq].
      * setoid_rewrite Hin; [|done..]. destruct (same_use_iff _ _ (tk_rest _ _ _ _ Ht q Hq Hi)) as [_ Hf].
        { intros t Et. destruct (in_area _ _ _ q Hok Hq) as (? & ? & ?). naive_solver lia. }
        naive_solver.
      * naive_solver.
Qed.

(** ** The areas in turn *)
(** No area that [mask] selects has a block of order at least [o] in a list that
    is searched. *)
Definition exhausted (w : pool) (mask o : Z) : Prop :=
  ∀ n a, owner w n a → has_area mask n = true → ∀ o' p, o ≤ o' ≤ max_order a → ¬ free_at a o' p.
Lemma wp_try_areas w mask al sz : pool_ok w → 0 ≤ al < 52 → 0 ≤ sz < 52 →
  (∀ n, has_area mask n = true → has_area (areas_mask w) n = true) →
  ∀ k i, i + Z.of_nat k = 4 → 0 ≤ i →
  (∀ n a, owner w n a → has_area mask n = true → n < i → ∀ o' p, Z.max al sz ≤ o' ≤ max_order a → ¬ free_at a o' p) →
  wp (try_areas k i mask al sz false) (λ r w',
    match r with
    | None => w' = w ∧ exhausted w mask (Z.max al sz)
    | Some l => ∃ p n a, l = page p ∧ owner w n a ∧ has_area mask n = true ∧ p mod 2 ^ al = 0 ∧
        0 < p < 2 ^ 52 ∧ pool_ok w' ∧ locked w' = locked w ∧ handed_out w p sz w'
    end) w.
Proof.
  intros Hw Hal Hsz Hmask. induction k as [|k IH]; intros i Hk Hi Hno; cbn [try_areas]; wps.
  - split; [done|]. intros n a Ha Hn. apply (Hno n a Ha Hn). pose proof (ow_number _ _ _ Ha). lia.
  - destruct (has_area mask i) eqn:Hp; wps.
    + destruct (po_present _ Hw i) as [a Ha]; [lia|by apply Hmask|].
      assert (owner w i a) as Hoa by (split; [lia|by apply Hmask|done]). destruct (po_area _ Hw _ _ Hoa) as [Hok _].
      eapply wp_mono; [by apply (wp_page_memalign_order i w a)|].
      intros [l|] w' (a' & Hm & Hok' & _ & Hr); wps.
      * destruct Hr as (p & -> & Hpa & Ht). exists p, i, a. split; [done|]. split; [done|]. split; [done|].
        split; [done|]. pose proof (pow2_pos sz). pose proof (ao_base _ _ _ Hok). pose proof (ao_top _ _ _ Hok).
        destruct (in_block_area a p sz a' p Ht); [lia|]. split; [lia|]. split; [by eapply pool_moved|].
        split; [by eapply moved_mask|]. by eapply taken_handed.
      * destruct Hr as (-> & _ & Hr). apply IH; [lia..|]. intros n b Hb Hn Hni.
        destruct (decide (n = i)) as [->|]; [|apply (Hno n b Hb Hn); lia].
        destruct Hb as [_ _ Hb]. rewrite Ha in Hb. by injection Hb as <-.
    + apply IH; [lia..|]. intros n b Hb Hn Hni. destruct (decide (n = i)) as [->|]; [congruence|].
      apply (Hno n b Hb Hn). lia.
Qed.

(** ** Clearing *)
Lemma wp_clear_pages k : ∀ h p, 0 ≤ p → p + Z.of_nat k < 2 ^ 52 →
  wp (clear_pages k (p * PAGE_SIZE)) (λ _ h', frame h h' (page <$> seqZ p (Z.of_nat k))) h.
Proof.
  induction k as [|k IH]; intros h p Hp Hk; cbn [clear_pages]; links; [by intros x Hx|].
  replace (u64 (p * PAGE_SIZE + PAGE_SIZE)) with ((p + 1) * PAGE_SIZE)
    by (rewrite u64_small by (unfold in_u64, PAGE_SIZE; lia); lia).
  eapply wp_mono; [apply IH; lia|]. intros [] h' Hf x Hx.
  rewrite seqZ_cons in Hx by lia. rewrite fmap_cons, not_elem_of_cons in Hx. destruct Hx as [Hne Hx].
  replace (Z.succ p) with (p + 1) in Hx by lia. replace (Z.pred (Z.of_nat (S k))) with (Z.of_nat k) in Hx by lia.
  destruct (Hf x Hx) as [-> ->]. simpl. by rewrite !lookup_insert_ne by done.
Qed.
Lemma rings_avoid n h h' F l : rings n h F → frame h h' l → (∀ x, x ∈ l → ∃ q, x = page q ∧ ∀ o, ¬ F o q) →
  rings n h' F.
Proof.
  intros (L & HL) Hf Hl. exists L. intros o Ho. destruct (HL o Ho) as [Hr Hm]. split; [|done].
  eapply kring_frame; [done..|]. intros x Hx Hxl. destruct (Hl x Hxl) as (q & -> & Hq).
  apply elem_of_cons in Hx as [|(q' & E & Hq')%list_elem_of_fmap]; [done|].
  apply (inj page) in E as ->. by apply (Hq o), Hm.
Qed.
Lemma wp_zero_block w p o : pool_ok w → 0 ≤ o < 52 → p mod 2 ^ o = 0 → state w p (128 + o) →
  wp (zero_block (page p) (2 ^ o)) (λ _ w', pool_ok w' ∧ ∃ h', w' = with_heap h' w) w.
Proof.
  intros Hw Ho Hal Hs. assert (allocated w p o) as Hall by done.
  destruct (allocated_block w Hw p o Hall) as (n & a & Ha & Hok & Hb & Ht & Hst).
  pose proof (ao_base _ _ _ Hok). pose proof (ao_top _ _ _ Hok). pose proof (pow2_pos o).
  unfold zero_block, page. apply wp_on_list. eapply wp_mono; [apply wp_clear_pages; lia|].
  rewrite Z2Nat.id by lia. intros [] h' Hf. split; [|by exists h'].
  apply (same_pool w); [done..|]. intros m b Hb'. destruct (po_area _ Hw _ _ Hb') as [Hokb _].
  eapply rings_avoid; [apply Hokb|exact Hf|]. intros x (q & -> & Hq)%list_elem_of_fmap. exists q. split; [done|].
  apply elem_of_seqZ in Hq. intros o' (Hqb & _ & s & Hs' & Hs'' & _).
  assert (state w q s) as S1 by (by exists m, b). pose proof (allocated_pages w Hw _ _ _ Hall Hq) as S2.
  pose proof (state_unique w Hw _ _ _ S1 S2). lia.
Qed.

(** ** The interface *)
(** The areas the caller allows. *)
Definition allowed (flags : Z) (w : pool) : Z :=
  if has_flag flags AREA_MASK then Z.land flags (areas_mask w) else areas_mask w.
Lemma has_area_bit m i : 0 ≤ i → has_area m i = Z.testbit m i.
Proof. intros Hi. unfold has_area. rewrite <-(Z2Nat.id i) by done. apply land_shl1_eqb. Qed.
Lemma allowed_present flags w n : has_area (allowed flags w) n = true → has_area (areas_mask w) n = true.
Proof.
  unfold allowed. destruct (has_flag _ _); [|done]. unfold has_area.
  rewrite !negb_true_iff, !Z.eqb_neq. intros Hn E. apply Hn. by rewrite <-Z.land_assoc, E, Z.land_0_r.
Qed.
Lemma wp_lock w (Φ : unit → pool → Prop) : locked w = false → Φ tt (with_lock true w) → wp spin_lock Φ w.
Proof. intros Hl HΦ. unfold spin_lock. wps. apply wp_get. by rewrite Hl. Qed.
Lemma wp_memalign_flags w al sz flags : pool_ok w → locked w = false → 0 ≤ al < 52 → 0 ≤ sz < 52 →
  has_flag flags FLAG_FRESH = false →
  wp (page_memalign_order_flags al sz flags) (λ r w', pool_ok w' ∧ locked w' = false ∧
    match r with
    | None => w' = w ∧ exhausted w (allowed flags w) (Z.max al sz)
    | Some l => ∃ p n a, l = page p ∧ owner w n a ∧ has_area (allowed flags w) n = true ∧ p mod 2 ^ al = 0 ∧
        0 < p < 2 ^ 52 ∧ handed_out w p sz w'
    end) w.
Proof.
  intros Hw Hl Hal Hsz Hfr. unfold page_memalign_order_flags, spin_unlock. rewrite Hfr. wps. apply wp_lock; [done|]. wps.
  apply wp_get. wps. change (if has_flag flags AREA_MASK then _ else _) with (allowed flags w).
  eapply wp_mono; [apply (wp_try_areas (with_lock true w)); [by apply lock_pool|done..| |lia|lia|]|].
  - intros n. exact (allowed_present flags w n).
  - intros n a Ha. pose proof (ow_number _ _ _ Ha). lia.
  - assert (with_lock false (with_lock true w) = w) as Hlw by (destruct w; simpl in *; by subst).
    intros [l|] w1 Hr; wps.
    2: { destruct Hr as [-> Hr]. rewrite Hlw. do 3 (split; [done|]). intros n a Ha. apply Hr.
         by apply (same_owner w (with_lock true w)). }
    destruct Hr as (p & n & a & -> & Ha & Hn & Hpa & Hpr & Hw1 & Hl1 & Hh).
    assert (handed_out w p sz w1) as Hh1 by (eapply handed_out_ext; [..|exact Hh]; intros; by rewrite ?lock_state).
    assert (owner w n a) as Hoa by (by apply (same_owner w (with_lock true w)) in Ha).
    assert (state w1 p (128 + sz)) as Hsp.
    { apply (ho_used _ _ _ _ Hh1 p (128 + sz)). left. split; [pose proof (pow2_pos sz); lia|done]. }
    destruct (has_flag flags FLAG_DONTZERO); wps.
    + split; [by apply lock_pool|]. split; [done|]. exists p, n, a. do 5 (split; [done|]).
      eapply handed_out_ext; [..|exact Hh1]; [done|]. intros. by rewrite lock_state.
    + apply owp_BIT; [lia|]. eapply wp_mono; [apply wp_zero_block; [by apply lock_pool|done|apply Hh|by apply lock_state]|].
      intros [] w2 [Hw2 (h2 & ->)]. wps. split; [done|]. split; [done|]. exists p, n, a. do 5 (split; [done|]).
      eapply handed_out_ext; [..|exact Hh1]; [done|]. intros. by apply same_state.
Qed.
