(* ===== verification/KutInit.v ===== *)
(** * kvm-unit-tests: adding areas to the pool

    The loop of [_page_alloc_init_area] covers an area from its first usable
    page to its end with the biggest aligned blocks that fit; it terminates, and
    the new area is sound and wholly free. An area is added when the range is
    big enough and apart from the areas present. *)

From S2P Require Import Prelude KutList KutAlloc KutBlocks KutFree KutArea KutSplit KutPool KutPages.

(** ** The order of the next block *)
Lemma owp_order_down f : ∀ i top o, 0 ≤ i < top → top < 2 ^ 52 → 0 ≤ o < 52 → o ≤ Z.of_nat f →
  owp (order_down f i top o) (λ o', 0 ≤ o' ≤ o ∧ i + 2 ^ o' ≤ top).
Proof.
  induction f as [|f IH]; intros i top o Hi Ht Ho Hf; cbn [order_down]; wps; (apply owp_BIT; [lia|]);
    pose proof (pow2_le o Ho); rewrite u64_small by (unfold in_u64; lia);
    destruct (Z.leb_spec (i + 2 ^ o) top); wps; try lia; apply owp_assert; wps.
  - assert (o = 0) as -> by lia. simpl in *. lia.
  - assert (o = 0) as -> by lia. simpl in *. lia.
  - destruct (Z.eqb_spec o 0) as [->|]; [simpl in *; lia|done].
  - assert (o ≠ 0) by (intros ->; simpl in *; lia).
    eapply owp_mono; [apply IH; lia|]. intros o' [? ?]. lia.
Qed.
Lemma owp_order_up f : ∀ i top o, 0 ≤ i → top < 2 ^ 52 → 0 ≤ o → 52 ≤ o + Z.of_nat f → i mod 2 ^ o = 0 → i + 2 ^ o ≤ top →
  owp (order_up f i top o) (λ o', o ≤ o' < 52 ∧ i mod 2 ^ o' = 0 ∧ i + 2 ^ o' ≤ top).
Proof.
  induction f as [|f IH]; intros i top o Hi Ht Ho Hf Hal Hfit;
    (assert (o < 52) as Ho' by (destruct (Z.lt_ge_cases o 52) as [|Hge]; [done|];
      pose proof (Z.pow_le_mono_r 2 52 o); lia)); [lia|]; cbn [order_up]; wps.
  apply owp_aligned; [lia|]. wps. destruct (Z.eqb_spec (i mod 2 ^ (o + 1)) 0) as [Ha|]; cbn [negb]; wps; [|done].
  apply owp_BIT; [lia|]. wps.
  assert (0 < 2 ^ (o + 1) ≤ 2 ^ 52) by (split; [apply pow2_pos; lia|apply Z.pow_le_mono_r; lia]).
  rewrite u64_small by (unfold in_u64; lia).
  destruct (Z.leb_spec (i + 2 ^ (o + 1)) top); cbn [negb]; wps; [|done].
  rewrite u8_small by lia. eapply owp_mono; [apply IH; try done; lia|]. intros o' [? ?]. split; [lia|done].
Qed.

(** ** The area while it is being covered, up to page [i] *)
Record partial (h : links) (n : Z) (a : mem_area) (i : Z) : Prop := {
  pt_base : 0 < base a;
  pt_range : base a ≤ i ≤ top a;
  pt_top : top a < 2 ^ 52;
  pt_table : coherent (base a) i (st a);
  pt_beyond q : ¬ (base a ≤ q < i) → st a q = None;
  pt_fresh q s : st a q = Some s → 0 ≤ s < 64;
  pt_max : 0 ≤ max_order a < 52;
  pt_bounded : bounded a;
  pt_lists : rings n h (free_at a)
}.
Lemma partial_done h n a : partial h n a (top a) → base a < top a → area_ok h n a.
Proof. intros [] Hne. split; try done. Qed.
Lemma partial_within h n a i : partial h n a i → within (base a) (top a) (free_at a).
Proof.
  intros Hpt. split.
  - intros o p (Hp & _ & s & Hs & Hs' & <-). destruct (decide (base a ≤ p < i)) as [Hi|Hi].
    + destruct (pt_table _ _ _ _ Hpt p Hi) as (t & Ht & _ & Hot & _). rewrite Hs in Ht. injection Ht as <-.
      pose proof (ord_range s). lia.
    + by rewrite (pt_beyond _ _ _ _ Hpt p Hi) in Hs.
  - intros o o' p (_ & _ & s & Hs & _ & <-) (_ & _ & s' & Hs' & _ & <-). congruence.
Qed.
Lemma coherent_extend lo i f f' k : coherent lo i f → lo ≤ i → 0 ≤ k < 52 → i mod 2 ^ k = 0 →
  relabel f i (2 ^ k) k f' → coherent lo (i + 2 ^ k) f'.
Proof.
  intros Hc Hi Hk Hal Hr q Hq. pose proof (pow2_pos k). destruct (decide (i ≤ q < i + 2 ^ k)) as [Hb|Hb].
  - exists k. assert (ord k = k) as -> by (unfold ord; apply Z.mod_small; lia).
    split; [by eapply relabel_in|]. split; [lia|]. split; [lia|]. intros x Hx.
    assert (i ≤ x < i + 2 ^ k) as Hxb.
    { apply same_block; [lia|done|]. rewrite Hx. by apply same_block; [lia|..]. }
    split; [lia|]. by eapply relabel_in.
  - destruct (Hc q) as (s & Hs & ? & ? & Hbl); [lia|]. exists s. rewrite (relabel_out _ _ _ _ _ _ Hr Hb).
    do 3 (split; [done|]). intros x Hx. destruct (Hbl x Hx) as [? ?]. split; [lia|].
    rewrite (relabel_out _ _ _ _ _ _ Hr) by lia. done.
Qed.
(** The next block. *)
Lemma partial_step h h' n a a' i k : partial h n a i → 0 ≤ k < 52 → i mod 2 ^ k = 0 → i + 2 ^ k ≤ top a →
  same_area a a' → max_order a' = Z.max (max_order a) k → relabel (st a) i (2 ^ k) k (st a') →
  rings n h' (λ o q, free_at a o q ∨ (o = k ∧ q = i)) → partial h' n a' (i + 2 ^ k).
Proof.
  intros Hpt Hk Hal Hfit Hsa Hm Hr Hrg. pose proof (pow2_pos k). pose proof (pt_range _ _ _ _ Hpt).
  pose proof (pt_max _ _ _ _ Hpt).
  assert (∀ o q, free_at a' o q ↔ free_at a o q ∨ (o = k ∧ q = i)) as HF.
  { intros o q. rewrite (free_relabel a a' i (2 ^ k) k) by (done || lia).
    assert (ord k = k) as Hok by (unfold ord; apply Z.mod_small; lia). split.
    - intros [[? _]|(Hi & _ & Hq & _ & <-)]; [by left|right]. split; [done|]. rewrite Hok in Hq.
      pose proof (proj2 (same_block i q k ltac:(lia) Hal) Hi). Z.div_mod_to_equations. lia.
    - intros [Hf|[-> ->]]; [left|right; repeat split; done || lia]. split; [done|].
      destruct Hf as (_ & _ & s & Hs & _). intros Hi. rewrite (pt_beyond _ _ _ _ Hpt q) in Hs by lia. done. }
  destruct Hsa as [Eb Et _]. destruct Hpt. split; rewrite ?Eb, ?Et, ?Hm; try done; try lia.
  - by eapply coherent_extend; [|lia|..].
  - intros q Hq. rewrite (relabel_out _ _ _ _ _ _ Hr) by lia. apply pt_beyond0. lia.
  - intros q s. destruct (decide (i ≤ q < i + 2 ^ k)) as [Hi|Hi].
    + rewrite (relabel_in _ _ _ _ _ _ Hr Hi). intros [= <-]. lia.
    + rewrite (relabel_out _ _ _ _ _ _ Hr Hi). apply pt_fresh0.
  - intros o q [Hf|[-> ->]]%HF; rewrite Hm; [apply pt_bounded0 in Hf|]; lia.
  - eapply rings_ext; [exact Hrg|]. intros o q _. by rewrite HF.
Qed.

(** ** The loop *)
Lemma wp_init_blocks n f : ∀ w a i o, areas w !! n = Some a → partial (heap w) n a i → 0 ≤ o < 52 →
  i mod 2 ^ o = 0 → top a - i ≤ Z.of_nat f →
  wp (init_blocks f n i o) (λ _ w', ∃ a', moved n w a w' a' ∧ partial (heap w') n a' (top a)) w.
Proof.
  induction f as [|f IH]; intros w a i o Ha Hpt Ho Hal Hf; cbn [init_blocks]; wps; (eapply wp_area; [done|]);
    pose proof (pt_range _ _ _ _ Hpt) as Hir; pose proof (pt_top _ _ _ _ Hpt) as Htop;
    pose proof (pt_base _ _ _ _ Hpt) as Hbase; destruct (Z.ltb_spec i (top a)) as [Hlt|Hge]; cbn [negb]; wps;
    try lia; try (exists a; split; [by apply moved_refl|]; by replace (top a) with i by lia).
  eapply owp_mono; [apply owp_order_down; lia|]. intros o1 [Ho1 Hfit1]. wps.
  assert (i mod 2 ^ o1 = 0) by (apply (aligned_below o1 o); [lia|done]).
  eapply owp_mono; [apply owp_order_up; [lia..|done|done]|].
  intros k (Hk1 & Halk & Hfit). wps. unfold NLISTS, PAGE_SHIFT. apply wp_check; [lia|]. wps.
  apply owp_BIT; [lia|]. wps. pose proof (pow2_le k) as Hpow.
  rewrite (u64_small (i - base a)) by (unfold in_u64; lia). destruct (lor_status k) as (-> & _); [lia|].
  rewrite u8_small by lia. eapply wp_set_states; [done|lia|lia|]. rewrite Z2Nat.id by lia.
  intros a1 [Hsa1 Hm1 Hst1]. wps. apply wp_on_list. cbn [heap with_area]. rewrite pfn_to_virt_page by lia.
  eapply wp_mono; [apply (wp_put_block n (base a) (top a) _ (free_at a) k i); try lia|].
  - by eapply partial_within.
  - apply Hpt.
  - intros o' (_ & _ & s & Hs & _). by rewrite (pt_beyond _ _ _ _ Hpt i) in Hs by lia.
  - intros [] h1 [Hr1 Hl1]. wps. eapply wp_area; [apply lookup_insert_eq|]. wps.
    rewrite (u64_small (i + 2 ^ k)) by (unfold in_u64; lia).
    assert (∀ a2, same_area a a2 → max_order a2 = Z.max (max_order a) k → relabel (st a) i (2 ^ k) k (st a2) →
      wp (init_blocks f n (i + 2 ^ k) k) (λ _ w', ∃ a', moved n w a w' a' ∧ partial (heap w') n a' (top a))
        (with_heap h1 (with_area n a2 w))) as Hrest.
    { intros a2 Hsa2 Hm2 Hst2. pose proof (sa_top _ _ Hsa2) as Et2.
      assert (moved n w a (with_heap h1 (with_area n a2 w)) a2) as Hmv by (split; [by exists h1|done]).
      eapply wp_mono; [apply (IH _ a2); [apply lookup_insert_eq| |lia| |lia]|].
      - cbn [heap with_heap]. by eapply (partial_step (heap w) h1 n a a2 i k); [..|lia|done|lia| | | |].
      - rewrite <-(Z.mul_1_l (2 ^ k)) at 1. rewrite Z.mod_add by lia. done.
      - intros [] w' (a' & Hm' & Hp'). rewrite Et2 in Hp'. exists a'. split; [by eapply moved_trans|done]. }
    destruct (Z.ltb_spec (max_order a1) k) as [Hmx|Hmx]; wps.
    + rewrite with_area_heap, with_area_twice. apply Hrest; [by destruct Hsa1; split|simpl; lia|done].
    + apply Hrest; [done|lia|done].
Qed.

(** ** Empty lists *)
Lemma wp_init_freelists n k : ∀ i h, wp (init_freelists k n i) (λ _ h',
  (∀ j, i ≤ j < i + Z.of_nat k → nexts h' !! Head n j = Some (Some (Head n j)) ∧
    prevs h' !! Head n j = Some (Some (Head n j))) ∧
  frame h h' (Head n <$> seqZ i (Z.of_nat k))) h.
Proof.
  induction k as [|k IH]; intros i h; cbn [init_freelists]; links.
  - split; [intros j Hj; lia|]. by intros x Hx.
  - eapply wp_mono; [apply IH|]. intros [] h' [Hh Hf]. split.
    + intros j Hj. destruct (decide (j = i)) as [->|]; [|apply Hh; lia].
      destruct (Hf (Head n i)) as [Hp Hn].
      { intros (x & E & Hx)%list_elem_of_fmap. injection E as ->. apply elem_of_seqZ in Hx. lia. }
      simpl in *. rewrite lookup_insert_eq in Hp, Hn. done.
    + intros x Hx. rewrite seqZ_cons in Hx by lia. rewrite fmap_cons, not_elem_of_cons in Hx. destruct Hx as [Hne Hx].
      replace (Z.succ i) with (i + 1) in Hx by lia. replace (Z.pred (Z.of_nat (S k))) with (Z.of_nat k) in Hx by lia.
      destruct (Hf x Hx) as [-> ->]. simpl. by rewrite !lookup_insert_ne.
Qed.
Lemma wp_empty_lists n lo hi h : wp (init_freelists (Z.to_nat NLISTS) n 0)
  (λ _ h', rings n h' (λ _ _, False) ∧ local n lo hi h h') h.
Proof.
  eapply wp_mono; [apply wp_init_freelists|]. intros [] h' [Hh Hf]. split.
  - exists (λ _, []). intros o Ho. destruct (Hh o) as [Hn Hp]; [unfold NLISTS, PAGE_SHIFT; lia|]. split.
    + split; [done|]. apply NoDup_singleton.
    + intros p. by rewrite elem_of_nil.
  - eapply local_frame; [exact Hf|]. by intros x (j & -> & _)%list_elem_of_fmap.
Qed.

(** ** Overlapping areas *)
Definition apart (a b : mem_area) : Prop := top a ≤ table b ∨ top b ≤ table a.
Lemma contains_spec a q : area_contains_pfn a q = true ↔ table a ≤ q < top a.
Proof. unfold area_contains_pfn. rewrite andb_true_iff, Z.leb_le, Z.ltb_lt. done. Qed.
(** The four comparisons with a present area pass exactly when it is apart. *)
Lemma overlap_checks a b : table a < top a → 0 ≤ table b < top b → top b < 2 ^ 52 →
  negb (area_contains_pfn b (table a)) && negb (area_contains_pfn b (top a - 1)) &&
  negb (area_contains_pfn a (table b)) && negb (area_contains_pfn a (u64 (top b - 1))) = true ↔ apart a b.
Proof.
  intros Ha Hb Hb'. rewrite u64_small by (unfold in_u64; lia).
  rewrite !andb_true_iff, !negb_true_iff, <-!not_true_iff_false, !contains_spec. unfold apart. lia.
Qed.
Lemma wp_check_overlap w a : pool_ok w → table a < top a → (∀ m b, owner w m b → apart a b) →
  ∀ k i, i + Z.of_nat k = 4 → 0 ≤ i →
  ∀ w', areas_mask w' = areas_mask w → (∀ m b, owner w' m b ↔ owner w m b) →
  wp (check_overlap k i a) (λ _ w'', w'' = w') w'.
Proof.
  intros Hw Ha Hap. induction k as [|k IH]; intros i Hk Hi w' Em Ew; cbn [check_overlap]; wps; [done|].
  apply wp_get. wps. rewrite Em. destruct (has_area (areas_mask w) i) eqn:Hp; wps; [|apply IH; auto; lia].
  destruct (po_present _ Hw i) as [b Hb]; [lia|done|]. assert (owner w i b) as Hob by (by split; [lia|..]).
  destruct (po_area _ Hw _ _ Hob) as [Hok Htb]. pose proof (ao_range _ _ _ Hok). pose proof (ao_top _ _ _ Hok).
  pose proof (proj2 (overlap_checks a b Ha ltac:(lia) ltac:(lia)) (Hap _ _ Hob)) as Hc.
  rewrite !andb_true_iff in Hc. destruct Hc as [[[C1 C2] C3] C4].
  eapply wp_area; [by apply (ow_area w' i b), Ew|]. wps. apply wp_check; [done|]. wps. apply wp_check; [done|]. wps.
  apply wp_check; [done|]. wps. apply wp_check; [done|]. apply IH; auto; lia.
Qed.

(** ** Adding an area *)
(** The pages of the table of the states, before the usable ones. *)
Definition table_pages (start top : Z) : Z := (top - start + PAGE_SIZE) / (PAGE_SIZE + 1).
Lemma table_pages_range start top : 4 < top - start →
  1 ≤ table_pages start top < top - start ∧ top - start - table_pages start top ≤ table_pages start top * PAGE_SIZE.
Proof. intros H4. unfold table_pages, PAGE_SIZE. Z.div_mod_to_equations. lia. Qed.
(** The area [n] from [start] to [top] was added, and all its usable pages are free. *)
Record added (w : pool) (n start tp : Z) (w' : pool) : Prop := {
  ad_area : ∃ a, owner w' n a ∧ table a = start ∧ base a = start + table_pages start tp ∧ top a = tp ∧ bounded a;
  ad_mask : areas_mask w' = Z.lor (areas_mask w) (Z.shiftl 1 n);
  ad_used q s : used w' q s ↔ used w q s;
  ad_free q : free_page w' q ↔ free_page w q ∨ start + table_pages start tp ≤ q < tp
}.
Lemma has_area_lor m n i : 0 ≤ n → 0 ≤ i → has_area (Z.lor m (Z.shiftl 1 n)) i = has_area m i || (i =? n).
Proof.
  intros Hn Hi. rewrite !has_area_bit, Z.lor_spec by done. f_equal. rewrite Z.shiftl_1_l.
  destruct (Z.eqb_spec i n) as [->|]; [by apply Z.pow2_bits_true|by apply Z.pow2_bits_false].
Qed.
Section add.
Context (w : pool) (n : Z) (a : mem_area) (h : links).
Hypothesis Hw : pool_ok w.
Hypothesis Hn : 0 ≤ n < 4.
Hypothesis Hnew : has_area (areas_mask w) n = false.
Hypothesis Hok : area_ok h n a.
Hypothesis Hl : local n (base a) (top a) (heap w) h.
Hypothesis Htab : 0 ≤ table a ≤ base a.
Hypothesis Hap : ∀ m b, owner w m b → apart a b.
Let w' : pool := with_mask (Z.lor (areas_mask w) (Z.shiftl 1 n)) (with_heap h (with_area n a w)).

Lemma added_owner m b : owner w' m b ↔ (m = n ∧ b = a) ∨ owner w m b.
Proof using Hn Hnew.
  split.
  - intros [Hm Hp Hb]. simpl in *. destruct (decide (m = n)) as [->|Hne].
    + left. split; [done|]. rewrite lookup_insert_eq in Hb. congruence.
    + right. rewrite lookup_insert_ne in Hb by done. rewrite has_area_lor in Hp by lia.
      apply orb_true_iff in Hp as [Hp|Hp]; [by split|lia].
  - intros [[-> ->]|[Hm Hp Hb]].
    + split; [done| |apply lookup_insert_eq]. simpl. rewrite has_area_lor, Z.eqb_refl by lia. apply orb_true_r.
    + assert (m ≠ n) by (intros ->; congruence). split; [done|..]; simpl.
      * rewrite has_area_lor by lia. by rewrite Hp.
      * by rewrite lookup_insert_ne.
Qed.
Lemma added_ok : pool_ok w'.
Proof using Hw Hn Hnew Hok Hl Htab Hap.
  split.
  - intros m Hm Hp. simpl in *. destruct (decide (m = n)) as [->|Hne]; [exists a; apply lookup_insert_eq|].
    rewrite lookup_insert_ne by done. rewrite has_area_lor in Hp by lia.
    apply orb_true_iff in Hp as [Hp|Hp]; [by apply Hw|lia].
  - intros m b [[-> ->]|Hb]%added_owner; [done|]. destruct (po_area _ Hw _ _ Hb) as [Hokb ?]. split; [|done].
    assert (m ≠ n) as Hne by (intros ->; destruct Hb; congruence). pose proof (ao_range _ _ _ Hokb).
    pose proof (free_within _ _ _ Hokb) as Hwi. destruct Hokb. split; try done.
    eapply rings_local; [done..|]. intros x Hx. apply Hl. destruct x as [k o|z]; simpl in *; [congruence|].
    destruct Hx as (q & Hq & ->). intros (q' & Hq' & E). unfold PAGE_SIZE in E. destruct (Hap _ _ Hb); lia.
  - intros m1 m2 b1 b2 [[-> ->]|H1]%added_owner [[-> ->]|H2]%added_owner Hne; [done|..].
    + by apply (Hap m2).
    + destruct (Hap m1 b1 H1); [by right|by left].
    + by apply (po_apart _ Hw m1 m2).
Qed.
Lemma added_state q s : state w' q s ↔ (base a ≤ q < top a ∧ st a q = Some s) ∨ state w q s.
Proof using Hn Hnew.
  unfold state. setoid_rewrite added_owner. split.
  - intros (m & b & [[-> ->]|Hb] & Hq & Hs); [by left|right]. by exists m, b.
  - intros [[Hq Hs]|(m & b & Hb & Hq & Hs)]; [exists n, a|exists m, b]; auto.
Qed.
Lemma added_spec start tp : (∀ q s, st a q = Some s → 0 ≤ s < 64) → bounded a → table a = start →
  base a = start + table_pages start tp → top a = tp → added w n start tp w'.
Proof using Hn Hnew Hok Htab.
  intros Hfr Hbd Et Eb Etp. split.
  - exists a. split; [by apply added_owner; left|done].
  - done.
  - intros q s. unfold used. rewrite added_state. split; [intros [[[_ Hs]|?] ?]|naive_solver]; [|done].
    apply Hfr in Hs. lia.
  - intros q. unfold free_page. setoid_rewrite added_state. rewrite <-Eb, <-Etp. split.
    + intros (s & [[Hq _]|Hs] & ?); [by right|left; eauto].
    + intros [(s & Hs & ?)|Hq]; [eauto|]. destruct (in_area _ _ _ q Hok Hq) as (s & Hs & _). exists s.
      split; [by left|]. apply Hfr in Hs. lia.
Qed.
End add.

Lemma wp_init_area w n start tp : pool_ok w → 0 ≤ n < 4 → has_area (areas_mask w) n = false →
  0 ≤ start → 4 < tp - start → tp < 2 ^ 52 →
  (∀ m b, owner w m b → tp ≤ table b ∨ top b ≤ start) →
  wp (_page_alloc_init_area n start tp) (λ _ w', pool_ok w' ∧ locked w' = locked w ∧ added w n start tp w') w.
Proof.
  intros Hw Hn Hnew Hs H4 Htop Hap. destruct (table_pages_range start tp H4) as [Hts Hcap].
  unfold _page_alloc_init_area, MAX_AREAS. wps. apply wp_check; [lia|]. wps. apply wp_get. wps.
  apply wp_check; [by rewrite Hnew|]. wps. apply wp_check; [lia|]. wps. rewrite (u64_small (tp - start)), (u64_small (tp - start + PAGE_SIZE)) by (unfold in_u64, PAGE_SIZE; lia).
  apply wp_check; [lia|]. wps. apply owp_BIT; [unfold PAGE_SHIFT; lia|]. wps. apply wp_check; [unfold PAGE_SHIFT; lia|].
  fold (table_pages start tp). wps. cbn [base]. rewrite (u64_small (start + _)) by (unfold in_u64; lia).
  rewrite (u64_small (tp - _)), (u64_small (_ - start)) by (unfold in_u64; lia).
  apply wp_check; [rewrite u64_small by (unfold in_u64, PAGE_SIZE in *; lia); lia|]. wps.
  set (a0 := Area (start + table_pages start tp) tp start ∅ 0).
  eapply wp_mono; [apply (wp_check_overlap w a0 Hw); try done; [unfold a0; simpl; lia|..]|].
  { intros m b. split; intros [Hm Hp Hb]; (split; [done..|]); simpl in *;
      (assert (m ≠ n) by (intros ->; congruence)); [by rewrite lookup_insert_ne in Hb|by rewrite lookup_insert_ne]. }
  intros [] w1 ->. wps. apply wp_on_list. eapply wp_mono; [apply (wp_empty_lists n (base a0) (top a0))|].
  intros [] h1 [Hr1 Hl1]. wps.
  eapply wp_mono; [apply (wp_init_blocks n _ _ a0); [apply lookup_insert_eq| |lia|apply Z.mod_1_r|simpl; lia]|].
  - assert (∀ q, st a0 q = None) as Hnone by (intros q; apply lookup_empty).
    assert (∀ o q, ¬ free_at a0 o q) as Hnf by (intros o q (_ & _ & s & E & _); by rewrite Hnone in E).
    split; try done; try (unfold a0; simpl; lia).
    + intros q Hq. unfold a0 in Hq. simpl in Hq. lia.
    + intros o q Hf. by apply Hnf in Hf.
    + eapply rings_ext; [exact Hr1|]. intros o q _. split; [done|]. apply Hnf.
  - intros [] w2 (a & Hmv & Hpt). wps. destruct (mv_world _ _ _ _ _ Hmv) as (h2 & -> & Hl2).
    destruct (mv_same _ _ _ _ _ Hmv) as [Eb Et Ep]. rewrite <-Et in Hpt.
    assert (area_ok h2 n a) as Hok by (apply partial_done; [done|rewrite Eb, Et; simpl; lia]).
    rewrite !with_area_heap, with_heap_twice, with_area_twice.
    assert (local n (base a) (top a) (heap w) h2) as Hl by (rewrite Eb, Et; by eapply local_trans).
    assert (∀ m b, owner w m b → apart a b) as Hapa by (intros m b Hb; unfold apart; rewrite Et, Ep; by apply (Hap m)).
    split; [|split; [done|]].
    + apply (added_ok w n a h2); try done. rewrite Ep, Eb. simpl. lia.
    + apply (added_spec w n a h2); try done; try (by rewrite ?Eb, ?Et, ?Ep); try apply Hpt.
      rewrite Ep, Eb. simpl. lia.
Qed.
