(* ===== verification/KutClient.v ===== *)
(** * kvm-unit-tests: clients of the page allocator

    Calls that are refused, and histories of calls: a step relation whose
    invariant says that the blocks the client holds are exactly the allocated
    ones. *)

From S2P Require Import Prelude KutList KutAlloc KutBlocks KutFree KutArea KutSplit KutPool KutPages KutInit.

(** ** Calls that end the program *)
Lemma awp_fails {W A} (m : C W A) w : awp m (λ _ _, False) w → m w = Abort.
Proof. unfold awp. by destruct (m w) as [[]| |]. Qed.
Lemma awp_check (b : bool) w (Φ : unit → pool → Prop) : (b = true → Φ tt w) → awp (assert b) Φ w.
Proof. apply awp_assert. Qed.
Lemma awp_lift_done {A} (o : outcome A) a w (Φ : A → pool → Prop) : o = Done a → Φ a w → awp (lift o) Φ w.
Proof. by intros ->. Qed.

(** A pointer that is not the start of an allocated block. *)
Lemma free_unallocated w mem : pool_ok w → locked w = false → mem ≠ 0 →
  (∀ p o, mem = p * PAGE_SIZE → ¬ allocated w p o) → awp (free_pages mem) (λ _ _, False) w.
Proof.
  intros Hw Hl Hm Hno. unfold free_pages. awps. apply awp_wp, wp_lock; [done|]. awps.
  unfold _free_pages. rewrite (proj2 (Z.eqb_neq mem 0)) by done. awps. apply awp_check. intros Hal. awps.
  set (p := Z.shiftr mem PAGE_SHIFT).
  assert (mem = p * PAGE_SIZE) as Hmem.
  { unfold IS_ALIGNED in Hal. apply Z.eqb_eq in Hal. change (PAGE_SIZE - 1) with (Z.ones 12) in Hal.
    rewrite Z.land_ones in Hal by lia. unfold p. rewrite Z.shiftr_div_pow2 by done.
    unfold PAGE_SIZE, PAGE_SHIFT. change (2 ^ 12) with 4096 in *. Z.div_mod_to_equations. lia. }
  set (v := with_lock true w). assert (pool_ok v) as Hv by (by apply lock_pool).
  apply awp_wp. eapply wp_get_area; [done| |]; [|done]. intros n a Ha Hp. apply awp_bind.
  destruct (po_area _ Hv _ _ Ha) as [Hok _]. apply awp_wp. eapply wp_area; [apply Ha|]. awps.
  rewrite (idx_small _ _ _ _ Hok Hp). destruct (ao_table _ _ _ Hok p Hp) as (s & Hs & Hsr & Hso & _).
  apply awp_wp. eapply wp_state_at; [apply Ha|done..|]. awps. rewrite land_order. apply awp_check.
  rewrite allocated_byte by done. intros Hst. awps. apply awp_check. intros _. awps.
  pose proof (ord_range s). eapply awp_lift_done; [apply aligned_order; lia|]. awps. apply awp_check. intros Hpa.
  exfalso. apply (Hno p (ord s) Hmem). split; [lia|]. split; [lia|]. apply (lock_state true).
  exists n, a. split; [done|]. split; [done|]. rewrite Hs. f_equal. unfold ord. Z.div_mod_to_equations. lia.
Qed.
(** When an area can be added. *)
Definition addable (w : pool) (n start tp : Z) : Prop :=
  n < 4 ∧ has_area (areas_mask w) n = false ∧ 4 < tp - start ∧ tp < 2 ^ 52 ∧
  ∀ m b, owner w m b → tp ≤ table b ∨ top b ≤ start.
Lemma awp_check_overlap w a : pool_ok w → table a < top a →
  ∀ k i, i + Z.of_nat k = 4 → 0 ≤ i →
  ∀ w', areas_mask w' = areas_mask w → (∀ m b, owner w' m b ↔ owner w m b) →
  awp (check_overlap k i a) (λ _ _, ∀ m b, owner w m b → i ≤ m → apart a b) w'.
Proof.
  intros Hw Ha. induction k as [|k IH]; intros i Hk Hi w' Em Ew; cbn [check_overlap]; awps.
  { intros m b Hb Hm. pose proof (ow_number _ _ _ Hb). lia. }
  rewrite Em. destruct (has_area (areas_mask w) i) eqn:Hp; awps.
  - destruct (po_present _ Hw i) as [b Hb]; [lia|done|]. assert (owner w i b) as Hob by (by split; [lia|..]).
    destruct (po_area _ Hw _ _ Hob) as [Hok Htb]. pose proof (ao_range _ _ _ Hok). pose proof (ao_top _ _ _ Hok).
    apply awp_wp. eapply wp_area; [by apply (ow_area w' i b), Ew|]. awps. apply awp_check. intros C1. awps.
    apply awp_check. intros C2. awps. apply awp_check. intros C3. awps. apply awp_check. intros C4.
    assert (apart a b) by (apply overlap_checks; try lia; by rewrite C1, C2, C3, C4).
    eapply awp_mono; [apply IH; auto; lia|]. intros [] w1 Hr m b' Hb' Hm.
    destruct (decide (m = i)) as [E|]; [subst m|apply (Hr m b' Hb'); lia].
    destruct Hb' as [_ _ Hb']. rewrite Hb in Hb'. by injection Hb' as <-.
  - eapply awp_mono; [apply IH; auto; lia|]. intros [] w1 Hr m b' Hb' Hm.
    destruct (decide (m = i)) as [E|]; [subst m; destruct Hb'; congruence|apply (Hr m b' Hb'); lia].
Qed.
Lemma init_area_refused w n start tp : pool_ok w → 0 ≤ n → 0 ≤ start → 0 ≤ tp < 2 ^ 64 → ¬ addable w n start tp →
  awp (_page_alloc_init_area n start tp) (λ _ _, False) w.
Proof.
  intros Hw Hn Hs Htp Hno. unfold _page_alloc_init_area, MAX_AREAS. awps. apply awp_check. intros H1. awps.
  apply awp_check. intros H2. awps. apply negb_true_iff in H2. apply awp_check. intros H3. awps.
  rewrite (u64_small (tp - start)) by (unfold in_u64; lia). apply awp_check. intros H4. awps.
  eapply awp_lift_done; [apply BIT_in; unfold PAGE_SHIFT; lia|]. awps. apply awp_check. intros H5. unfold PAGE_SHIFT in H5.
  change (64 - 12) with 52 in H5. rewrite (u64_small (tp - start + PAGE_SIZE)) by (unfold in_u64, PAGE_SIZE; lia).
  fold (table_pages start tp). awps. apply awp_check. intros _. awps.
  match goal with |- awp (check_overlap _ _ ?a) _ _ => set (a0 := a) end.
  eapply awp_mono; [apply (awp_check_overlap w a0 Hw); [simpl; lia|lia|lia|done|]|].
  { intros m b. split; intros [Hm Hp Hb]; (split; [done..|]); simpl in *;
      (assert (m ≠ n) by (intros ->; congruence)); [by rewrite lookup_insert_ne in Hb|by rewrite lookup_insert_ne]. }
  intros [] w1 Hr. exfalso. apply Hno. split; [lia|]. split; [done|]. split; [lia|]. split; [lia|].
  intros m b Hb. apply (Hr m b Hb). by apply Hb.
Qed.

(** The interface, for a numbered area. *)
Section numbered.
Context (w : pool) (n start tp : Z).
Hypothesis Hw : pool_ok w.
Hypothesis Hl : locked w = false.
Hypothesis Hn : 0 ≤ n < 255.
Hypothesis Hs : 0 ≤ start.
Hypothesis Ht : 0 < tp < 2 ^ 64.
Lemma init_numbered : page_alloc_init_area n start tp =
  ((spin_lock;; (_page_alloc_init_area n start tp;; mret 0) ≫= λ x, spin_unlock;; mret x);; mret tt).
Proof using Hn Hs Ht.
  unfold page_alloc_init_area, __page_alloc_init_area.
  rewrite (proj2 (Z.eqb_neq n AREA_ANY_NUMBER)) by (unfold AREA_ANY_NUMBER; lia). cbn [negb].
  by rewrite (proj2 (Z.ltb_lt 0 tp)), (proj2 (Z.leb_le 0 start)) by lia.
Qed.
Lemma added_unlock w1 : added (with_lock true w) n start tp w1 → added w n start tp (with_lock false w1).
Proof using Type.
  intros [(a & Ha & Hr) Hmk Hu Hf].
  assert (∀ q s, state (with_lock false w1) q s ↔ state w1 q s) as E1 by (intros; apply lock_state).
  assert (∀ q s, state (with_lock true w) q s ↔ state w q s) as E2 by (intros; apply lock_state).
  split; [exists a; split; [by apply (same_owner w1)|done]|done|..]; unfold used, free_page in *;
    setoid_rewrite E1; setoid_rewrite E2 in Hu; setoid_rewrite E2 in Hf; done.
Qed.
Lemma wp_init_numbered : addable w n start tp →
  wp (page_alloc_init_area n start tp) (λ _ w', pool_ok w' ∧ locked w' = false ∧ added w n start tp w') w.
Proof using All.
  intros (H4 & Hno & Hlen & Hlim & Hap). rewrite init_numbered. unfold spin_unlock. wps. apply wp_lock; [done|]. wps.
  eapply wp_mono; [apply (wp_init_area _ n start tp (lock_pool true w Hw)); try done; try lia|].
  - intros m b Hb. by apply (Hap m), (same_owner w (with_lock true w)).
  - intros [] w1 (Hw1 & _ & Had). wps. split; [by apply lock_pool|]. split; [done|]. by apply added_unlock.
Qed.
Lemma init_numbered_refused : ¬ addable w n start tp → awp (page_alloc_init_area n start tp) (λ _ _, False) w.
Proof using All.
  intros Hno. rewrite init_numbered. awps. apply awp_wp, wp_lock; [done|]. awps.
  eapply awp_mono; [apply (init_area_refused _ n start tp (lock_pool true w Hw)); try lia|done].
  intros (? & ? & ? & ? & Hap). apply Hno. split_and!; try done. intros m b Hb.
  by apply (Hap m), (same_owner w (with_lock true w)).
Qed.
End numbered.

(** ** Histories *)
(** The client holds the blocks [live], as start and order. *)
Definition holds (w : pool) (live : list (Z * Z)) : Prop := ∀ p o, allocated w p o ↔ (p, o) ∈ live.
(** What the client gets: nothing for NULL, else a block of the order. *)
Definition receives (r : option loc) (o : Z) (live live' : list (Z * Z)) : Prop :=
  match r with None => live' = live | Some l => ∃ p, l = page p ∧ live' = (p, o) :: live end.
(** The calls of a client: allocations by order, and by alignment and size,
    none of them fresh; frees of a block it holds and of NULL; new areas. *)
Inductive client_step : pool * list (Z * Z) → pool * list (Z * Z) → Prop :=
| step_alloc w live order flags r w' live' :
    0 ≤ order < 52 → has_flag flags FLAG_FRESH = false →
    alloc_pages_flags order flags w = Done (r, w') → receives r order live live' →
    client_step (w, live) (w', live')
| step_memalign w live k size flags r w' live' :
    0 ≤ k < 64 → 0 < size ≤ 2 ^ 63 → has_flag flags FLAG_FRESH = false →
    memalign_pages_flags (2 ^ k) size flags w = Done (r, w') → receives r (size_order size) live live' →
    client_step (w, live) (w', live')
| step_free w live1 p o live2 w' :
    free_pages (p * PAGE_SIZE) w = Done (tt, w') →
    client_step (w, live1 ++ (p, o) :: live2) (w', live1 ++ live2)
| step_free_null w live w' : free_pages 0 w = Done (tt, w') → client_step (w, live) (w', live)
| step_area w live n start tp w' :
    0 ≤ n < 255 → 0 ≤ start → 0 < tp < 2 ^ 64 → addable w n start tp →
    page_alloc_init_area n start tp w = Done (tt, w') → client_step (w, live) (w', live).
Definition history : pool * list (Z * Z) → pool * list (Z * Z) → Prop := rtc client_step.

Lemma u8_order order : 0 ≤ order < 52 → u8 order = order.
Proof. intros. apply u8_small. lia. Qed.
Lemma wp_alloc_pages w order flags : pool_ok w → locked w = false → 0 ≤ order < 52 →
  has_flag flags FLAG_FRESH = false →
  wp (alloc_pages_flags order flags) (λ r w', pool_ok w' ∧ locked w' = false ∧
    match r with
    | None => w' = w ∧ exhausted w (allowed flags w) order
    | Some l => ∃ p n a, l = page p ∧ owner w n a ∧ has_area (allowed flags w) n = true ∧
        0 < p < 2 ^ 52 ∧ handed_out w p order w'
    end) w.
Proof.
  intros Hw Hl Ho Hf. unfold alloc_pages_flags. rewrite u8_order by done.
  eapply wp_mono; [by apply wp_memalign_flags|]. intros [l|] w' (Hw' & Hl' & Hr); (split; [done|split; [done|]]).
  - destruct Hr as (p & n & a & -> & Ha & Hn & _ & Hp & Hh). by exists p, n, a.
  - rewrite Z.max_id in Hr. exact Hr.
Qed.
Lemma wp_memalign_pages w k size flags :
  pool_ok w → locked w = false → 0 ≤ k < 64 → 0 < size ≤ 2 ^ 63 → has_flag flags FLAG_FRESH = false →
  wp (memalign_pages_flags (2 ^ k) size flags) (λ r w', pool_ok w' ∧ locked w' = false ∧
    match r with
    | None => w' = w ∧ exhausted w (allowed flags w) (Z.max (size_order (2 ^ k)) (size_order size))
    | Some l => ∃ p, l = page p ∧ (2 ^ k | p * PAGE_SIZE) ∧ handed_out w p (size_order size) w' ∧
        size ≤ 2 ^ size_order size * PAGE_SIZE
    end) w.
Proof.
  intros Hw Hl Hk Hs Hf. destruct (size_order_up size Hs) as [Hso Hsz]. pose proof (align_order k Hk) as Hao.
  unfold memalign_pages_flags. change NLISTS with 52. fold (size_order (2 ^ k)) (size_order size).
  pose proof (pow2_pos k) as Hpos. wps. apply wp_check; [rewrite power_of_2, Z.log2_pow2 by lia; apply Z.eqb_refl|]. wps.
  apply wp_check; [lia|]. wps. apply wp_check; [lia|]. rewrite !u8_order by lia.
  eapply wp_mono; [apply wp_memalign_flags; [done..|lia|lia|done]|].
  intros [l|] w' (Hw' & Hl' & Hr); (split; [done|split; [done|]]); [|done].
  destruct Hr as (p & n & a & -> & _ & _ & Hal & _ & Hh). exists p. split; [done|]. split; [|done].
  apply Z.mod_divide in Hal as [x ->]; [|pose proof (pow2_pos (size_order (2 ^ k))); lia]. rewrite Hao.
  change PAGE_SIZE with (2 ^ 12). rewrite <-Z.mul_assoc, <-Z.pow_add_r by lia.
  apply Z.divide_mul_r, pow2_divides. lia.
Qed.
(** The allocated blocks after an allocation and after a free. *)
Lemma handed_out_allocated w p o w' : pool_ok w → 0 ≤ o < 52 → handed_out w p o w' →
  ∀ q o', allocated w' q o' ↔ (q = p ∧ o' = o) ∨ allocated w q o'.
Proof.
  intros Hw Ho Hh q o'. assert (p ≤ p < p + 2 ^ o) as Hpp by (pose proof (pow2_pos o); lia).
  assert (∀ x s, 128 ≤ s → state w' x s ↔ (p ≤ x < p + 2 ^ o ∧ s = 128 + o) ∨ (¬ (p ≤ x < p + 2 ^ o) ∧ state w x s)) as Hu.
  { intros x s Hs. pose proof (ho_used _ _ _ _ Hh x s) as Hx. unfold used in Hx. tauto. }
  unfold allocated. split.
  - intros (Ho' & Hal & Hs). apply Hu in Hs as [[Hi Hs]|[_ Hs]]; [left|by right|lia].
    assert (o' = o) as -> by lia. split; [|done]. pose proof (ho_aligned _ _ _ _ Hh) as Hpa.
    pose proof (proj2 (same_block p q o ltac:(lia) Hpa) Hi). Z.div_mod_to_equations. lia.
  - intros [[-> ->]|(Ho' & Hal & Hs)].
    + split; [done|]. split; [apply Hh|]. apply Hu; [lia|]. by left.
    + split; [done|]. split; [done|]. apply Hu; [lia|]. right. split; [|done]. intros Hi.
      destruct (ho_free _ _ _ _ Hh q Hi) as (s & Hs' & ?). pose proof (state_unique w Hw _ _ _ Hs Hs'). lia.
Qed.
Lemma given_back_allocated w p o w' : pool_ok w → allocated w p o → given_back w p o w' →
  ∀ q o', allocated w' q o' ↔ allocated w q o' ∧ q ≠ p.
Proof.
  intros Hw Hall Hg q o'. pose proof Hall as (Ho & Hpa & _). pose proof (pow2_pos o). split.
  - intros (Ho' & Hal & [[_ Hs]|[Hi Hs]]%(gb_state _ _ _ _ Hg)); [lia|]. split; [done|]. intros ->. lia.
  - intros [Hq Hne]. pose proof Hq as (Ho' & Hal & Hs). split; [done|]. split; [done|].
    apply (gb_state _ _ _ _ Hg). right. split; [|done]. intros Hi. apply Hne.
    pose proof (pow2_pos o'). by destruct (allocated_apart w Hw q o' p o q Hq Hall); [lia|done|].
Qed.
Lemma wp_free_pages w p o : pool_ok w → locked w = false → allocated w p o →
  wp (free_pages (p * PAGE_SIZE)) (λ _ w', pool_ok w' ∧ locked w' = false ∧ given_back w p o w') w.
Proof.
  intros Hw Hl Hall. unfold free_pages, spin_unlock. wps. apply wp_lock; [done|]. wps.
  eapply wp_mono; [apply (wp_free_block _ p o); [by apply lock_pool|]|].
  - destruct Hall as (? & ? & ?). split; [done|]. split; [done|]. by apply lock_state.
  - intros [] w1 (Hw1 & _ & Hg). wps. split; [by apply lock_pool|]. split; [done|]. split.
    intros q s. rewrite lock_state, (gb_state _ _ _ _ Hg), lock_state. done.
Qed.
(** The invariant of histories. *)
Definition client_ok (x : pool * list (Z * Z)) : Prop :=
  pool_ok x.1 ∧ locked x.1 = false ∧ NoDup x.2.*1 ∧ holds x.1 x.2.
Lemma receive_block w live p o w' : client_ok (w, live) → 0 ≤ o < 52 → handed_out w p o w' →
  pool_ok w' → locked w' = false → client_ok (w', (p, o) :: live).
Proof.
  intros (Hw & Hl & Hnd & Hh) Ho Hg Hw' Hl'. cbn [fst snd] in *.
  pose proof (handed_out_allocated w p o w' Hw Ho Hg) as Hal. split; [done|]. split; [done|]. split.
  - simpl. apply NoDup_cons. split; [|done]. intros ([q o'] & -> & Hq)%list_elem_of_fmap. simpl in *.
    apply Hh in Hq as (? & _ & Hs). destruct (ho_free _ _ _ _ Hg q) as (s & Hs' & ?);
      [pose proof (pow2_pos o); lia|]. pose proof (state_unique w Hw _ _ _ Hs Hs'). lia.
  - intros q o'. simpl. rewrite Hal, elem_of_cons, (Hh q o'). naive_solver.
Qed.
Lemma return_block w live1 p o live2 w' : client_ok (w, live1 ++ (p, o) :: live2) → given_back w p o w' →
  pool_ok w' → locked w' = false → client_ok (w', live1 ++ live2).
Proof.
  intros (Hw & Hl & Hnd & Hh) Hg Hw' Hl'. cbn [fst snd] in *.
  assert (allocated w p o) as Hall by (apply Hh; set_solver).
  pose proof (given_back_allocated w p o w' Hw Hall Hg) as Hal.
  rewrite fmap_app, fmap_cons in Hnd. simpl in Hnd. apply NoDup_app in Hnd as (N1 & N2 & [N3 N4]%NoDup_cons).
  split; [done|]. split; [done|]. cbn [fst snd]. split.
  - rewrite fmap_app. apply NoDup_app. split; [done|]. split; [set_solver|done].
  - intros q o'. rewrite Hal, (Hh q o'), !elem_of_app, elem_of_cons.
    assert (∀ l, (q, o') ∈ l → q ∈ l.*1) as Hin by (intros l Hx; by apply (list_elem_of_fmap_2 fst) in Hx).
    split; [naive_solver|]. intros [Hx|Hx]; split; try tauto; intros ->; apply Hin in Hx; set_solver.
Qed.
Lemma added_allocated w n start tp w' : added w n start tp w' → ∀ p o, allocated w' p o ↔ allocated w p o.
Proof.
  intros Had p o. unfold allocated. pose proof (ad_used _ _ _ _ _ Had p (128 + o)) as Hu. unfold used in Hu.
  split; intros (Ho & Hal & Hs); (split; [done|split; [done|apply Hu; split; [done|lia]]]).
Qed.
Lemma wp_free_null w : locked w = false → wp (free_pages 0) (λ _ w', w' = w) w.
Proof.
  intros Hl. unfold free_pages, spin_unlock, _free_pages. wps. apply wp_lock; [done|]. wps.
  destruct w. simpl in *. by subst.
Qed.
Lemma client_step_ok x y : client_step x y → client_ok x → client_ok y.
Proof.
  destruct 1 as [w live order flags r w' live' Ho Hf Hrun Hr|w live k size flags r w' live' Hk Hs Hf Hrun Hr|
    w live1 p o live2 w' Hrun|w live w' Hrun|w live n start tp w' Hn Hst Htp Had Hrun]; intros Hx;
    pose proof Hx as (Hw & Hl & Hnd & Hh); cbn [fst snd] in *.
  - pose proof (wp_run _ _ _ _ _ (wp_alloc_pages w order flags Hw Hl Ho Hf) Hrun) as (Hw1 & Hl1 & Hp).
    destruct r as [l|]; simpl in Hr; [|by destruct Hp as [-> _]; subst].
    destruct Hr as (p & -> & ->), Hp as (p' & _ & _ & E & _ & _ & _ & Hg). apply (inj page) in E as <-.
    by eapply receive_block.
  - pose proof (wp_run _ _ _ _ _ (wp_memalign_pages w k size flags Hw Hl Hk Hs Hf) Hrun) as (Hw1 & Hl1 & Hp).
    destruct r as [l|]; simpl in Hr; [|by destruct Hp as [-> _]; subst].
    destruct Hr as (p & -> & ->), Hp as (p' & E & _ & Hg & _). apply (inj page) in E as <-.
    eapply receive_block; try done. by apply size_order_up.
  - assert (allocated w p o) as Hall by (apply Hh; set_solver).
    pose proof (wp_run _ _ _ _ _ (wp_free_pages w p o Hw Hl Hall) Hrun) as (Hw1 & Hl1 & Hg).
    by eapply return_block.
  - by rewrite (wp_run _ _ _ _ _ (wp_free_null w Hl) Hrun).
  - pose proof (wp_run _ _ _ _ _ (wp_init_numbered w n start tp Hw Hl Hn Hst Htp Had) Hrun) as (Hw1 & Hl1 & Hadd).
    split; [done|]. split; [done|]. split; [done|]. intros p o. cbn [fst]. rewrite (added_allocated _ _ _ _ _ Hadd). apply Hh.
Qed.
Lemma history_invariant x y : history x y → client_ok x → client_ok y.
Proof. induction 1; [done|]. eauto using client_step_ok. Qed.
