(* ===== verification/KutProps.v ===== *)
(** * kvm-unit-tests: the theorems on the page allocator

    The contracts of initialisation, allocation and freeing, what histories of
    calls keep, and concrete runs, some of which show where the code departs
    from its documentation. *)

From S2P Require Import Prelude KutList KutAlloc KutBlocks KutFree KutArea KutSplit KutPool KutPages KutInit KutClient.

(** ** A machine to try things on *)
Definition no_memory : pool := Pool ∅ 0 (Links ∅ ∅) false false.
Definition world {A} (r : outcome (A * pool)) : pool := match r with Done (_, w) => w | _ => no_memory end.
Definition value {A} (r : outcome (A * pool)) : option A := match r with Done (x, _) => Some x | _ => None end.
Lemma no_memory_ok : pool_ok no_memory.
Proof. split; [intros n _ Hp|intros n a [_ _ Hb]|intros n m a b [_ _ Hb]]; done. Qed.
Lemma wp_world {A} (m : M A) Φ w : wp m Φ w → ∃ r, m w = Done (r, world (m w)) ∧ value (m w) = Some r ∧ Φ r (world (m w)).
Proof. intros (r & w' & E & HΦ)%wp_inv. exists r. by rewrite E. Qed.
(** Area 0 with its table in page 3 and the usable pages 4 to 11. *)
Definition machine : pool := world (page_alloc_init_area 0 3 12 no_memory).
Lemma machine_spec : pool_ok machine ∧ locked machine = false ∧ added no_memory 0 3 12 machine.
Proof.
  unfold machine. destruct (wp_world _ _ _ (wp_init_numbered no_memory 0 3 12 no_memory_ok eq_refl ltac:(lia) ltac:(lia)
    ltac:(lia) ltac:(split_and!; [lia|done|lia|lia|intros m b [_ _ Hb]; done]))) as (r & _ & _ & Hr). exact Hr.
Qed.
Lemma machine_ok : pool_ok machine.
Proof. apply machine_spec. Qed.
Lemma machine_unlocked : locked machine = false.
Proof. apply machine_spec. Qed.
Lemma machine_unused p o : ¬ allocated machine p o.
Proof.
  intros (Ho & _ & Hs). destruct machine_spec as (_ & _ & Had).
  destruct (proj1 (ad_used _ _ _ _ _ Had p (128 + o))) as [(n & a & [_ _ Hb] & _) _]; [split; [exact Hs|lia]|done].
Qed.
(** The same after a block of two pages was allocated. *)
Definition machine_busy : pool := world (alloc_pages_flags 1 FLAG_DONTZERO machine).
Lemma busy_spec : alloc_pages_flags 1 FLAG_DONTZERO machine = Done (Some (page 8), machine_busy) ∧
  pool_ok machine_busy ∧ locked machine_busy = false ∧ handed_out machine 8 1 machine_busy.
Proof.
  destruct (wp_world _ _ _ (wp_alloc_pages machine 1 FLAG_DONTZERO machine_ok machine_unlocked ltac:(lia) eq_refl))
    as (r & Hrun & Hv & H1 & H2 & Hr).
  assert (value (alloc_pages_flags 1 FLAG_DONTZERO machine) = Some (Some (page 8))) as E by (vm_compute; reflexivity).
  rewrite E in Hv. injection Hv as <-. destruct Hr as (p & n & a & Ep & _ & _ & _ & Hh).
  apply (inj page) in Ep as <-. exact (conj Hrun (conj H1 (conj H2 Hh))).
Qed.
Lemma busy_holds : holds machine_busy [(8, 1)].
Proof.
  destruct busy_spec as (_ & _ & _ & Hh). intros p o. rewrite (handed_out_allocated machine 8 1 machine_busy machine_ok ltac:(lia) Hh).
  rewrite list_elem_of_singleton. pose proof (machine_unused p o). naive_solver.
Qed.
Lemma busy_ok : pool_ok machine_busy.
Proof. apply busy_spec. Qed.
Lemma busy_unlocked : locked machine_busy = false.
Proof. apply busy_spec. Qed.

(** ** Allocating *)

(** C6. Allocating pages. On a sound pool with the lock free,
    [alloc_pages_flags] for an order below 52, without [FLAG_FRESH], returns,
    releases the lock and leaves the pool sound. It returns NULL only when no
    free list of an allowed area that is searched has a block of the order or
    above, and then changes nothing. Otherwise it returns the address of a naturally
    aligned block in an allowed area; all pages of the block were free,
    exactly they are now allocated, and every other page is used as before.
    (Fresh allocations are excluded because of the defect that
    [fresh_block_is_half] shows.) *)
Theorem alloc_pages_contract w order flags :
  pool_ok w → locked w = false → 0 ≤ order < 52 → has_flag flags FLAG_FRESH = false →
  ∃ r w', alloc_pages_flags order flags w = Done (r, w') ∧ pool_ok w' ∧ locked w' = false ∧
    match r with
    | None => w' = w ∧ exhausted w (allowed flags w) order
    | Some l => ∃ p n a, l = page p ∧ owner w n a ∧ has_area (allowed flags w) n = true ∧
        0 < p < 2 ^ 52 ∧ handed_out w p order w'
    end.
Proof. intros Hw Hl Ho Hf. by apply wp_inv, wp_alloc_pages. Qed.
Lemma alloc_pages_contract_witness : ∃ r w', alloc_pages_flags 1 FLAG_DONTZERO machine = Done (r, w') ∧ pool_ok w'.
Proof.
  destruct (alloc_pages_contract machine 1 FLAG_DONTZERO machine_ok machine_unlocked ltac:(lia) eq_refl)
    as (r & w' & H1 & H2 & _). exists r, w'. split; [exact H1|exact H2].
Defined.

(** C11. Allocating bytes. On a sound pool with the lock free,
    [memalign_pages_flags] for a power of two as alignment, 1 to [2^63] bytes
    and flags without [FLAG_FRESH] returns NULL, changing nothing, when no free
    list that is searched has a large enough block, or an address that is a multiple of
    the alignment, at the start of a block of enough pages for the size that
    was free and is now allocated; the lock is free again and the pool sound.
    ([fresh_block_is_half] and [huge_size_gets_a_page] show what happens
    otherwise.) *)
Theorem memalign_pages_contract w k size flags :
  pool_ok w → locked w = false → 0 ≤ k < 64 → 0 < size ≤ 2 ^ 63 → has_flag flags FLAG_FRESH = false →
  ∃ r w', memalign_pages_flags (2 ^ k) size flags w = Done (r, w') ∧ pool_ok w' ∧ locked w' = false ∧
    match r with
    | None => w' = w ∧ exhausted w (allowed flags w) (Z.max (size_order (2 ^ k)) (size_order size))
    | Some l => ∃ p, l = page p ∧ (2 ^ k | p * PAGE_SIZE) ∧ handed_out w p (size_order size) w' ∧
        size ≤ 2 ^ size_order size * PAGE_SIZE
    end.
Proof. intros Hw Hl Hk Hs Hf. by apply wp_inv, wp_memalign_pages. Qed.
Lemma memalign_pages_contract_witness :
  ∃ r w', memalign_pages_flags (2 ^ 13) 5000 FLAG_DONTZERO machine = Done (r, w') ∧ pool_ok w'.
Proof.
  destruct (memalign_pages_contract machine 13 5000 FLAG_DONTZERO machine_ok machine_unlocked ltac:(lia) ltac:(lia) eq_refl)
    as (r & w' & H1 & H2 & _). exists r, w'. split; [exact H1|exact H2].
Defined.

(** C40. Orders. For every size from 1 to [2^64 - 1], [get_order] is the
    logarithm rounded up, computed by [fls], whose six bit tests give the position of
    the highest bit; the version of [fls] that counts leading zeros, which x86
    uses, gives the same. *)
Theorem get_order_log2_up size : 0 < size < 2 ^ 64 →
  fls size = Z.log2 size ∧ get_order size = Z.log2_up size ∧ fls_builtin size = fls size.
Proof. intros Hs. split; [by apply fls_log2|]. split; [by apply get_order_up|by apply fls_builtin_agrees]. Qed.
Lemma get_order_log2_up_witness : fls 4097 = 12 ∧ get_order 4097 = 13 ∧ fls_builtin 4097 = fls 4097.
Proof. exact (get_order_log2_up 4097 ltac:(lia)). Defined.

(** ** Freeing *)

(** C12. Freeing pages. Freeing the start of an allocated block returns
    with the lock free and the pool sound; the pages of the block are free, the
    state of every other page is untouched, and of the allocated blocks exactly
    this one is gone. *)
Theorem free_pages_contract w p o :
  pool_ok w → locked w = false → allocated w p o →
  ∃ w', free_pages (p * PAGE_SIZE) w = Done (tt, w') ∧ pool_ok w' ∧ locked w' = false ∧ given_back w p o w' ∧
    ∀ q o', allocated w' q o' ↔ allocated w q o' ∧ q ≠ p.
Proof.
  intros Hw Hl Ha. destruct (wp_inv _ _ _ (wp_free_pages w p o Hw Hl Ha)) as ([] & w' & Hr & Hw' & Hl' & Hg).
  exists w'. do 4 (split; [done|]). exact (given_back_allocated w p o w' Hw Ha Hg).
Qed.
Lemma free_pages_contract_witness : ∃ w', free_pages (8 * PAGE_SIZE) machine_busy = Done (tt, w') ∧ pool_ok w'.
Proof.
  destruct (free_pages_contract machine_busy 8 1 busy_ok busy_unlocked (proj2 (busy_holds 8 1) ltac:(constructor)))
    as (w' & H1 & H2 & _). exists w'. split; [exact H1|exact H2].
Defined.

(** C13. Wrong frees. Freeing anything but NULL or the start of an allocated
    block (a free page, a reserved page, the middle of a block, an address that is not
    page aligned or outside all areas) fails an assertion, without touching
    memory it must not touch. *)
Theorem free_pages_refuses w mem :
  pool_ok w → locked w = false → mem ≠ 0 → (∀ p o, mem = p * PAGE_SIZE → ¬ allocated w p o) →
  free_pages mem w = Abort.
Proof. intros Hw Hl Hm Hno. by apply awp_fails, free_unallocated. Qed.
Lemma free_pages_refuses_witness : free_pages (9 * PAGE_SIZE) machine_busy = Abort.
Proof.
  apply (free_pages_refuses machine_busy (9 * PAGE_SIZE) busy_ok busy_unlocked); [done|].
  intros p o E Ha. apply busy_holds, list_elem_of_singleton in Ha. injection Ha as -> ->. discriminate E.
Defined.

(** ** Histories *)

(** C5. Histories. From a sound pool in which the client holds exactly the
    allocated blocks, after any sequence of calls - [alloc_pages_flags] for orders
    below 52, [memalign_pages_flags] for a power of two and 1 to 2^63 bytes, both
    without [FLAG_FRESH], [free_pages] of blocks it holds or of NULL, and
    [page_alloc_init_area] for an area that can be added - the pool is sound, the
    lock is free, the client again holds exactly the allocated blocks, and no
    two of them share a page. (Fresh allocations and reservations are left out:
    they break it, as [fresh_block_is_half] and [reserved_page_handed_out] show.) *)
Theorem page_allocator_history w live w' live' :
  history (w, live) (w', live') → pool_ok w → locked w = false → NoDup live.*1 → holds w live →
  pool_ok w' ∧ locked w' = false ∧ holds w' live' ∧
  ∀ p o p' o' q, (p, o) ∈ live' → (p', o') ∈ live' →
    p ≤ q < p + 2 ^ o → p' ≤ q < p' + 2 ^ o' → (p, o) = (p', o').
Proof.
  intros Hh Hw Hl Hnd Hold.
  destruct (history_invariant _ _ Hh (conj Hw (conj Hl (conj Hnd Hold)))) as (Hw' & Hl' & _ & Hold').
  do 3 (split; [done|]). intros p o p' o' q Hp%Hold' Hp'%Hold' Hq Hq'.
  by destruct (allocated_apart w' Hw' p o p' o' q) as [-> ->].
Qed.
Lemma page_allocator_history_witness :
  ∃ w', history (machine, []) (w', [(8, 1)]) ∧ pool_ok w' ∧ holds w' [(8, 1)].
Proof.
  assert (history (machine, []) (machine_busy, [(8, 1)])) as Hh.
  { eapply rtc_once, (step_alloc machine [] 1 FLAG_DONTZERO _ _ _ ltac:(lia) eq_refl (proj1 busy_spec)).
    exists 8. split; reflexivity. }
  destruct (page_allocator_history machine [] machine_busy [(8, 1)] Hh machine_ok machine_unlocked) as (H1 & _ & H2 & _).
  - constructor.
  - intros p o. split; [intros Ha; destruct (machine_unused p o Ha)|intros Hn; inversion Hn].
  - exists machine_busy. split; [exact Hh|]. split; [exact H1|exact H2].
Defined.

(** ** Initialisation *)

(** C14. Adding an area. With the lock free, [page_alloc_init_area] for
    the numbered area [n] and a positive end (with 0 it does nothing) accepts exactly the ranges of at least five pages below
    the end of addressable memory that are apart from the areas present, for a number that is
    not in use. It then returns, the pool is sound, and the pages after the table of
    states are free, while all pages of other areas are as they were; any other
    request fails an assertion. *)
Theorem init_area_contract w n start tp :
  pool_ok w → locked w = false → 0 ≤ n < 255 → 0 ≤ start → 0 < tp < 2 ^ 64 →
  (addable w n start tp → ∃ w', page_alloc_init_area n start tp w = Done (tt, w') ∧
    pool_ok w' ∧ locked w' = false ∧ added w n start tp w') ∧
  (¬ addable w n start tp → page_alloc_init_area n start tp w = Abort).
Proof.
  intros Hw Hl Hn Hs Ht. split.
  - intros Had. destruct (wp_inv _ _ _ (wp_init_numbered w n start tp Hw Hl Hn Hs ltac:(lia) Had)) as ([] & w' & ? & ?).
    by exists w'.
  - intros Hno. by apply awp_fails, init_numbered_refused.
Qed.
Lemma init_area_contract_witness :
  (∃ w', page_alloc_init_area 1 16 64 machine = Done (tt, w') ∧ pool_ok w') ∧
  page_alloc_init_area 1 10 64 machine = Abort.
Proof.
  assert (∀ m b, owner machine m b → table b = 3 ∧ top b = 12) as Hown.
  { intros m b [_ _ Hb]. destruct (decide (m = 0)) as [->|Hne].
    - vm_compute in Hb. injection Hb as <-. split; reflexivity.
    - assert (areas machine = {[ 0 := default (Area 0 0 0 ∅ 0) (areas machine !! 0) ]}) as E by (vm_compute; reflexivity).
      rewrite E, lookup_singleton_ne in Hb by done. discriminate Hb. }
  split.
  - destruct (proj1 (init_area_contract machine 1 16 64 machine_ok machine_unlocked ltac:(lia) ltac:(lia) ltac:(lia)))
      as (w' & H1 & H2 & _).
    + split_and!; [lia|reflexivity|lia|lia|]. intros m b Hb. destruct (Hown m b Hb). lia.
    + exists w'. split; [exact H1|exact H2].
  - apply (proj2 (init_area_contract machine 1 10 64 machine_ok machine_unlocked ltac:(lia) ltac:(lia) ltac:(lia))).
    intros (_ & _ & _ & _ & Hap). assert (∃ b, owner machine 0 b) as [b Hb].
    { destruct (areas machine !! 0) as [b|] eqn:E; [|vm_compute in E; discriminate E]. exists b. split; [lia|reflexivity|exact E]. }
    destruct (Hown 0 b Hb), (Hap 0 b Hb); lia.
Defined.

(** ** The areas of x86 *)

(** Memory given without a number goes to the high area first, which takes
    everything from 4GiB up; what is left ends at 4GiB, so that the normal area,
    which begins at 64GiB, is never filled. *)
Lemma normal_area_never_filled base_pfn top_pfn w :
  page_alloc_init_area AREA_ANY_NUMBER base_pfn top_pfn w =
  (top_pfn ← __page_alloc_init_area AREA_HIGH_NUMBER AREA_HIGH_PFN base_pfn top_pfn;
   top_pfn ← __page_alloc_init_area AREA_LOW_NUMBER AREA_LOW_PFN base_pfn top_pfn;
   __page_alloc_init_area AREA_LOWEST_NUMBER AREA_LOWEST_PFN base_pfn top_pfn;;
   mret tt) w.
Proof.
  unfold page_alloc_init_area. rewrite Z.eqb_refl. cbn [negb]. unfold mbind, C_bind.
  destruct (__page_alloc_init_area AREA_HIGH_NUMBER AREA_HIGH_PFN base_pfn top_pfn w) as [[t w1]| |] eqn:E; try done.
  assert (t ≤ AREA_HIGH_PFN) as Ht.
  { unfold __page_alloc_init_area in E. destruct (Z.ltb_spec AREA_HIGH_PFN top_pfn) as [Hlt|Hge].
    - apply C_bind_inv in E as (? & ? & _ & E). apply C_bind_inv in E as (t' & ? & E & E2).
      apply C_bind_inv in E2 as (? & ? & _ & E2). injection E2 as -> _.
      destruct (AREA_HIGH_PFN <=? base_pfn); apply C_bind_inv in E as (? & ? & _ & E); injection E as <- _;
        unfold AREA_HIGH_PFN; lia.
    - injection E as <- _. done. }
  unfold __page_alloc_init_area at 1. unfold AREA_NORMAL_PFN, AREA_HIGH_PFN in *.
  by rewrite (proj2 (Z.ltb_ge (2 ^ 24) t)) by lia.
Qed.

(** ** Runs *)
Definition pages (r : option (option loc)) : option (option Z) :=
  option_map (option_map (λ l, match l with At a => Z.shiftr a PAGE_SHIFT | Head _ _ => -1 end)) r.
Definition result {A} (m : M A) : option A := value (m machine).
(** [reserve_pages] marks the page but leaves it in its free list: the next
    allocation returns it. *)
Example reserved_page_handed_out :
  result (reserve_pages (4 * PAGE_SIZE) 1) = Some 0 ∧
  pages (result (reserve_pages (4 * PAGE_SIZE) 1;; alloc_page)) = Some (Some 4).
Proof. split; vm_compute; reflexivity. Qed.
(** A freed page cannot be reserved: its state byte is taken for an order. *)
Example freed_page_not_reservable :
  pages (result alloc_page) = Some (Some 8) ∧
  (alloc_page;; free_pages (8 * PAGE_SIZE);; reserve_pages (8 * PAGE_SIZE) 1) machine = Undef.
Proof. split; vm_compute; reflexivity. Qed.
(** Freed halves are not merged: after all eight pages were freed one by one, a
    block of two pages cannot be allocated. *)
Fixpoint times (k : nat) (m : Z → M unit) (i : Z) : M unit :=
  match k with O => mret tt | S k => m i;; times k m (i + 1) end.
Example freed_pages_not_merged :
  pages (result (alloc_pages 1)) = Some (Some 8) ∧
  pages (result (times 8 (λ _, alloc_page;; mret tt) 0;; times 8 (λ i, free_pages (i * PAGE_SIZE)) 4;; alloc_pages 1)) = Some None ∧
  pages (result (times 8 (λ _, alloc_page;; mret tt) 0;; times 8 (λ i, free_pages (i * PAGE_SIZE)) 4;; alloc_page)) = Some (Some 11).
Proof. split_and!; vm_compute; reflexivity. Qed.
(** A block that is freed after the highest order was lowered is not found
    again, although it is in its list. *)
Example freed_block_out_of_reach :
  pages (result (alloc_pages 2)) = Some (Some 8) ∧
  pages (result (alloc_pages 2;; alloc_pages 1;; free_pages (8 * PAGE_SIZE);; alloc_pages 2)) = Some None.
Proof. split; vm_compute; reflexivity. Qed.
(** A fresh block of order 1 is page 5, not aligned to the order, and page 6 is
    still free: it has half the size asked for, and clearing it reaches over its
    end; for a single page the order wraps and the shift is undefined. *)
Example fresh_block_is_half :
  value ((alloc_pages_flags 1 (Z.lor FLAG_FRESH FLAG_DONTZERO);; s ← state_at 0 1; t ← state_at 0 2; mret (s, t)) machine)
    = Some (STATUS_ALLOCATED, 1) ∧
  pages (result (alloc_pages_flags 1 (Z.lor FLAG_FRESH FLAG_DONTZERO))) = Some (Some 5) ∧
  alloc_pages_flags 0 FLAG_FRESH machine = Undef.
Proof. split_and!; vm_compute; reflexivity. Qed.
(** A size close to [2^64] wraps to nothing, and one page is allocated for it. *)
Example huge_size_gets_a_page :
  pages (result (memalign_pages 1 (2 ^ 64 - 1))) = Some (Some 8) ∧ memalign_pages 1 (2 ^ 63 + 1) machine = Abort.
Proof. split; vm_compute; reflexivity. Qed.
(** Reserving no pages is reported as a failure. *)
Example reserving_nothing_fails : result (reserve_pages (4 * PAGE_SIZE) 0) = Some (-1).
Proof. vm_compute. reflexivity. Qed.
