(* ===== verification/KutPhys.v ===== *)
(** * kvm-unit-tests: early allocation and [malloc] ([lib/alloc_phys.c], [lib/alloc.c])

    The early allocator cuts blocks from the front of one range of physical
    memory and logs the first 256 of them; nothing can be freed. [memalign],
    [malloc], [calloc] and [free] go through the table of operations that
    [alloc_ops] points to: that of the early allocator, or of the page
    allocator once it was enabled. Addresses are numbers, NULL is 0. *)

From S2P Require Import Prelude KutList KutAlloc.

(** ** State *)
Definition PHYS_ALLOC_NR_REGIONS : Z := 256.
Definition INVALID_PHYS_ADDR : Z := 2 ^ 64 - 1.
Record phys : Type := Phys {
  regions : gmap Z (Z * Z);
  nr_regions : Z;
  phys_base : Z;
  phys_top : Z;
  align_min : Z;
  warned : bool;
  phys_locked : bool
}.
Definition phys_with_lock (b : bool) (s : phys) : phys :=
  Phys (regions s) (nr_regions s) (phys_base s) (phys_top s) (align_min s) (warned s) b.
Definition phys_lock : C phys unit := s ← get; if phys_locked s then lift Undef else modify (phys_with_lock true).
Definition phys_unlock : C phys unit := modify (phys_with_lock false).
Definition with_base (b : Z) (s : phys) : phys :=
  Phys (regions s) (nr_regions s) b (phys_top s) (align_min s) (warned s) (phys_locked s).
(** [regions[nr_regions] = { b, size }; ++nr_regions;] in an array of 256. *)
Definition log_region (b size : Z) : C phys unit :=
  s ← get;
  if (0 <=? nr_regions s) && (nr_regions s <? PHYS_ALLOC_NR_REGIONS) then
    put (Phys (<[nr_regions s := (b, size)]> (regions s)) (nr_regions s + 1) (phys_base s) (phys_top s)
      (align_min s) (warned s) (phys_locked s))
  else lift Undef.

(** ** The early allocator *)
Definition phys_alloc_init (base_addr size : Z) : C phys unit :=
  phys_lock;;
  modify (λ s, Phys (regions s) 0 base_addr (u64 (base_addr + size)) (align_min s) (warned s) (phys_locked s));;
  phys_unlock.
Definition pow2_mask (align : Z) : bool := negb (align =? 0) && (Z.land align (align - 1) =? 0).
Definition phys_alloc_set_minimum_alignment (align : Z) : C phys unit :=
  lift (assert_ (pow2_mask align));;
  phys_lock;;
  modify (λ s, Phys (regions s) (nr_regions s) (phys_base s) (phys_top s) align (warned s) (phys_locked s));;
  phys_unlock.
Definition ALIGN (x a : Z) : Z := Z.land (u64 (x + (a - 1))) (u64 (Z.lnot (a - 1))).
(** On 64-bit machines [safe] does not limit the top. *)
Definition phys_alloc_aligned_safe (size align : Z) (safe : bool) : C phys Z :=
  phys_lock;;
  s ← get;
  let top_safe := phys_top s in
  let base := phys_base s in
  lift (assert_ (base <? top_safe));;
  let align := if align <? align_min s then align_min s else align in
  let addr := ALIGN base align in
  let size_orig := size in
  let size := u64 (size + u64 (addr - base)) in
  if u64 (top_safe - base) <? size then phys_unlock;; mret INVALID_PHYS_ADDR else
  modify (with_base (u64 (base + size)));;
  (if nr_regions s <? PHYS_ALLOC_NR_REGIONS then log_region addr size_orig
   else modify (λ s, Phys (regions s) (nr_regions s) (phys_base s) (phys_top s) (align_min s) true (phys_locked s)));;
  phys_unlock;;
  mret addr.
(** The unused memory; the log entry is written without a look at the space left. *)
Definition phys_alloc_get_unused : C phys (Z * Z) :=
  s ← get;
  let r := (phys_base s, phys_top s) in
  if phys_base s =? phys_top s then mret r else
  phys_lock;;
  log_region (phys_base s) (u64 (phys_top s - phys_base s));;
  modify (with_base (phys_top s));;
  phys_unlock;;
  mret r.
Definition early_memalign (alignment size : Z) : C phys Z :=
  lift (assert_ (pow2_mask alignment));;
  addr ← phys_alloc_aligned_safe size alignment true;
  mret (if addr =? INVALID_PHYS_ADDR then 0 else addr).

(** ** The table of operations *)
Record alloc_ops (W : Type) : Type := Ops {
  op_memalign : Z → Z → C W Z;
  op_free : option (Z → C W unit)
}.
Arguments op_memalign {W} _.
Arguments op_free {W} _.
Definition early_alloc_ops : alloc_ops phys := Ops phys early_memalign None.
(** The address a pointer stands for. *)
Definition address (p : option loc) : outcome Z :=
  match p with None => Done 0 | Some (At a) => Done a | Some (Head _ _) => Undef end.
Definition page_alloc_ops : alloc_ops pool :=
  Ops pool (λ alignment size, p ← memalign_pages alignment size; lift (address p)) (Some free_pages).

Section alloc.
Context {W : Type} (ops : alloc_ops W) (clear : Z → Z → C W unit).
Definition memalign (alignment size : Z) : C W Z :=
  if size =? 0 then mret 0 else
  lift (assert_ (is_power_of_2 alignment));;
  p ← op_memalign ops alignment size;
  lift (assert_ (negb (p =? 0)));;
  mret p.
Definition SIZEOF_LONG : Z := 8.
Definition malloc (size : Z) : C W Z := memalign SIZEOF_LONG size.
(** [clear p n] is [memset(p, 0, n)]. *)
Definition calloc (nmemb size : Z) : C W Z :=
  lift (assert_ (nmemb * size <? 2 ^ 64));;
  ptr ← malloc (nmemb * size);
  (if ptr =? 0 then mret tt else clear ptr (nmemb * size));;
  mret ptr.
Definition free (ptr : Z) : C W unit :=
  match op_free ops with Some f => f ptr | None => mret tt end.
End alloc.
