(* ===== verification/KutMalloc.v ===== *)
(** * kvm-unit-tests: [malloc] over any allocator

    [Allocator] is what [alloc.c] relies on: the [memalign] of the table hands
    out aligned memory that was not in use. The early allocator and the page
    allocator both keep this promise, and [malloc], [calloc] and [memalign] are
    proved against it. *)

From S2P Require Import Prelude KutList KutAlloc KutBlocks KutFree KutArea KutSplit KutPool KutPages KutClient KutPhys.

(** ** The interface *)
(** [size] bytes at [p], a multiple of [a], were unused and are now in use, and
    what was in use still is. *)
Record fresh_memory (busy busy' : Z → Prop) (a p size : Z) : Prop := {
  fm_not_null : 0 < p;
  fm_aligned : (a | p);
  fm_before b : p ≤ b < p + size → ¬ busy b;
  fm_after b : p ≤ b < p + size → busy' b;
  fm_kept b : busy b → busy' b
}.
Class Allocator {W : Type} (ops : alloc_ops W) (clear : Z → Z → C W unit) : Type := {
  sound : W → Prop;
  busy : W → Z → Prop;
  memalign_law w k size : sound w → 0 ≤ k < 62 → 0 < size ≤ 2 ^ 63 →
    awp (op_memalign ops (2 ^ k) size) (λ p w', sound w' ∧
      (p = 0 ∨ fresh_memory (busy w) (busy w') (2 ^ k) p size)) w;
  clear_law w p n : sound w → 0 < p → 0 < n → (∀ b, p ≤ b < p + n → busy w b) →
    wp (clear p n) (λ _ w', sound w' ∧ ∀ b, busy w' b ↔ busy w b) w
}.

Section client.
Context {W : Type} {ops : alloc_ops W} {clear : Z → Z → C W unit} `{!Allocator ops clear}.
Lemma awp_memalign w k size : sound w → 0 ≤ k < 62 → 0 < size ≤ 2 ^ 63 →
  awp (memalign ops (2 ^ k) size) (λ p w', sound w' ∧ fresh_memory (busy w) (busy w') (2 ^ k) p size) w.
Proof.
  intros Hw Hk Hs. unfold memalign. rewrite (proj2 (Z.eqb_neq size 0)) by lia. awps. apply awp_assert. intros _. awps.
  eapply awp_mono; [by apply memalign_law|]. intros p w' [Hw' Hr]. awps. apply awp_assert. intros Hp. awps.
  split; [done|]. destruct Hr as [->|Hr]; [done|exact Hr].
Qed.
Lemma awp_malloc w size : sound w → 0 < size ≤ 2 ^ 63 →
  awp (malloc ops size) (λ p w', sound w' ∧ fresh_memory (busy w) (busy w') 8 p size) w.
Proof. intros Hw Hs. by apply (awp_memalign w 3). Qed.
Lemma awp_calloc w nmemb size : sound w → 0 < nmemb * size ≤ 2 ^ 63 →
  awp (calloc ops clear nmemb size) (λ p w', sound w' ∧ fresh_memory (busy w) (busy w') 8 p (nmemb * size)) w.
Proof.
  intros Hw Hs. unfold calloc. awps. apply awp_assert. intros _. awps.
  eapply awp_mono; [by apply awp_malloc|]. intros p w1 [Hw1 Hr]. pose proof (fm_not_null _ _ _ _ _ Hr).
  awps. rewrite (proj2 (Z.eqb_neq p 0)) by lia. apply awp_wp. eapply wp_mono; [apply clear_law; [done..|lia|apply Hr]|].
  intros [] w2 [Hw2 Hb]. awps. split; [done|]. destruct Hr. split; try done; intros b Hb'; apply Hb; auto.
Qed.
End client.

(** ** The early allocator *)
Record phys_ok (s : phys) : Prop := {
  ph_range : 0 ≤ phys_base s ≤ phys_top s;
  ph_top : phys_top s ≤ 2 ^ 62;
  ph_align : align_min s = 0 ∨ ∃ j, 0 ≤ j < 62 ∧ align_min s = 2 ^ j;
  ph_log : 0 ≤ nr_regions s ≤ PHYS_ALLOC_NR_REGIONS;
  ph_lock : phys_locked s = false
}.
(** Everything below the rest of the range is in use. *)
Definition phys_busy (s : phys) (b : Z) : Prop := b < phys_base s.
Lemma ALIGN_up x k : 0 ≤ x → 0 ≤ k < 64 → x + 2 ^ k ≤ 2 ^ 64 →
  x ≤ ALIGN x (2 ^ k) < x + 2 ^ k ∧ (2 ^ k | ALIGN x (2 ^ k)).
Proof.
  intros Hx Hk Hf. pose proof (pow2_pos k). unfold ALIGN. rewrite u64_small by (unfold in_u64; lia).
  set (y := x + (2 ^ k - 1)). replace (2 ^ k - 1) with (Z.ones k) by (rewrite Z.ones_equiv; lia).
  assert (Z.land y (u64 (Z.lnot (Z.ones k))) = Z.shiftl (Z.shiftr y k) k) as ->.
  { unfold u64, wrap. rewrite <-Z.land_ones, (Z.land_comm _ (Z.ones 64)), Z.land_assoc, Z.land_ones by lia.
    rewrite Z.mod_small by lia. rewrite <-Z.ldiff_ones_r by lia. apply Z.bits_inj'. intros i Hi.
    by rewrite Z.land_spec, Z.ldiff_spec, Z.lnot_spec by lia. }
  rewrite Z.shiftl_mul_pow2, Z.shiftr_div_pow2 by lia. split; [|by exists (y / 2 ^ k)].
  unfold y. Z.div_mod_to_equations. nia.
Qed.
Lemma wp_phys_lock s (Φ : unit → phys → Prop) : phys_locked s = false → Φ tt (phys_with_lock true s) → wp phys_lock Φ s.
Proof. intros Hl HΦ. unfold phys_lock. wps. apply wp_get. by rewrite Hl. Qed.
(** The alignment that is used. *)
Lemma effective_align s k : phys_ok s → 0 ≤ k < 62 → ∃ j, 0 ≤ j < 62 ∧ k ≤ j ∧
  (if 2 ^ k <? align_min s then align_min s else 2 ^ k) = 2 ^ j.
Proof.
  intros Hs Hk. destruct (Z.ltb_spec (2 ^ k) (align_min s)) as [Hlt|_]; [|by exists k].
  destruct (ph_align _ Hs) as [E|(j & Hj & E)]; rewrite E in Hlt; [pose proof (pow2_pos k); lia|].
  exists j. split; [done|]. split; [|done]. apply (Z.pow_lt_mono_r_iff 2) in Hlt; lia.
Qed.
Lemma awp_early_memalign s k size : phys_ok s → 0 ≤ k < 62 → 0 < size ≤ 2 ^ 63 →
  awp (early_memalign (2 ^ k) size) (λ p s', phys_ok s' ∧
    (p = 0 ∨ fresh_memory (phys_busy s) (phys_busy s') (2 ^ k) p size)) s.
Proof.
  intros Hs Hk Hsz. destruct (effective_align s k Hs Hk) as (j & Hj & Hkj & Ej). pose proof Hs as [Hr Ht _ Hlog Hl].
  unfold early_memalign, phys_alloc_aligned_safe, phys_unlock. awps. apply awp_assert. intros _. awps.
  apply awp_wp, wp_phys_lock; [done|]. awps. cbn [phys_top phys_base align_min nr_regions phys_with_lock].
  apply awp_assert. intros Hlt. awps. rewrite Ej.
  assert (2 ^ j ≤ 2 ^ 61) by (apply Z.pow_le_mono_r; lia).
  destruct (ALIGN_up (phys_base s) j) as [Ha Had]; [lia..|]. set (addr := ALIGN (phys_base s) (2 ^ j)) in *.
  rewrite (u64_small (addr - _)), (u64_small (size + _)), (u64_small (phys_top s - _)) by (unfold in_u64; lia).
  destruct (Z.ltb_spec (phys_top s - phys_base s) (size + (addr - phys_base s))) as [Hno|Hfit]; awps.
  - split; [|by left]. by destruct Hs; split.
  - rewrite u64_small by (unfold in_u64; lia).
    replace (phys_base s + (size + (addr - phys_base s))) with (addr + size) by lia.
    assert (2 ^ k | addr) as Hka by (etransitivity; [apply (pow2_divides k j); lia|done]).
    assert (∀ s', phys_base s' = addr + size → phys_top s' = phys_top s → align_min s' = align_min s →
      0 ≤ nr_regions s' ≤ PHYS_ALLOC_NR_REGIONS → phys_locked s' = false →
      phys_ok s' ∧ ((if addr =? INVALID_PHYS_ADDR then 0 else addr) = 0 ∨
        fresh_memory (phys_busy s) (phys_busy s') (2 ^ k) (if addr =? INVALID_PHYS_ADDR then 0 else addr) size)) as Hfin.
    { intros s' E1 E2 E3 E4 E5. rewrite (proj2 (Z.eqb_neq addr INVALID_PHYS_ADDR)) by (unfold INVALID_PHYS_ADDR; lia).
      split; [split; rewrite ?E1, ?E2, ?E3; try done; [lia|apply Hs]|].
      destruct (decide (addr = 0)); [by left|right]. split; [lia|done|..]; unfold phys_busy; intros b Hb; lia. }
    destruct (Z.ltb_spec (nr_regions s) PHYS_ALLOC_NR_REGIONS) as [Hroom|]; awps.
    + unfold log_region. awps. cbn [nr_regions with_base phys_with_lock].
      rewrite (proj2 (Z.leb_le 0 _)), (proj2 (Z.ltb_lt _ _)) by lia. apply awp_wp. apply Hfin; simpl; try done. lia.
    + apply Hfin; done.
Qed.
(** The contents of the memory it hands out are not modelled. *)
Definition early_clear (p n : Z) : C phys unit := mret tt.
#[global] Instance early_allocator : Allocator early_alloc_ops early_clear.
Proof.
  refine (@Build_Allocator phys early_alloc_ops early_clear phys_ok phys_busy awp_early_memalign _).
  intros w p n Hw _ _ _. by split.
Defined.

(** ** The page allocator *)
Record pages_ok (w : pool) : Prop := { pg_pool : pool_ok w; pg_lock : locked w = false }.
(** The bytes of pages that are allocated or reserved. *)
Definition page_busy (w : pool) (b : Z) : Prop := ∃ s, used w (b / PAGE_SIZE) s.
(** [memset], on the list items at the starts of the pages it covers. *)
Definition clear_bytes (p n : Z) : M unit :=
  let first := (p + (PAGE_SIZE - 1)) / PAGE_SIZE in
  on_list (clear_pages (Z.to_nat ((p + n - 1) / PAGE_SIZE - first + 1)) (first * PAGE_SIZE)).
Lemma handed_out_memory w p o w' a size : 0 < p → pool_ok w → handed_out w p o w' → (a | p * PAGE_SIZE) →
  size ≤ 2 ^ o * PAGE_SIZE → fresh_memory (page_busy w) (page_busy w') a (p * PAGE_SIZE) size.
Proof.
  intros Hp Hw Hh Ha Hs.
  assert (∀ b, p * PAGE_SIZE ≤ b < p * PAGE_SIZE + size → p ≤ b / PAGE_SIZE < p + 2 ^ o) as Hin.
  { intros b Hb. unfold PAGE_SIZE in *. Z.div_mod_to_equations. lia. }
  assert (∀ q s, used w q s → ¬ (p ≤ q < p + 2 ^ o)) as Hno.
  { intros q s [Hs' Hge] Hi. destruct (ho_free _ _ _ _ Hh q Hi) as (t & Ht & Hlt).
    pose proof (state_unique w Hw _ _ _ Hs' Ht). lia. }
  split; [unfold PAGE_SIZE; lia|done|..].
  - intros b Hb (s & Hu). by apply (Hno _ _ Hu), Hin.
  - intros b Hb. exists (128 + o). apply (ho_used _ _ _ _ Hh). left. split; [by apply Hin|done].
  - intros b (s & Hu). exists s. apply (ho_used _ _ _ _ Hh). right. split; [by eapply Hno|done].
Qed.
Lemma awp_page_memalign w k size : pages_ok w → 0 ≤ k < 62 → 0 < size ≤ 2 ^ 63 →
  awp (op_memalign page_alloc_ops (2 ^ k) size) (λ p w', pages_ok w' ∧
    (p = 0 ∨ fresh_memory (page_busy w) (page_busy w') (2 ^ k) p size)) w.
Proof.
  intros [Hw Hl] Hk Hs. simpl. unfold memalign_pages. awps. apply awp_wp.
  eapply wp_mono; [apply (wp_memalign_pages w k size AREA_ANY); [done..|lia|done|done]|].
  intros [l|] w' (Hw' & Hl' & Hr); [|apply awp_wp; split; [done|by left]].
  destruct Hr as (p & -> & Ha & Hh & Hsz). apply awp_wp. split; [done|]. right.
  apply (handed_out_memory w p (size_order size)); try done.
  destruct (size_order_up size Hs) as [Ho _].
  destruct (ho_free _ _ _ _ Hh p) as (s & (n & a & Hoa & Hp & _) & _); [pose proof (pow2_pos (size_order size)); lia|].
  destruct (po_area _ Hw _ _ Hoa) as [Hok _]. pose proof (ao_base _ _ _ Hok). lia.
Qed.
(** A used page is below the end of memory. *)
Lemma used_range w q s : pool_ok w → used w q s → 0 < q < 2 ^ 52 - 1 ∧ ∀ n a o, owner w n a → ¬ free_at a o q.
Proof.
  intros Hw [Hs Hge]. destruct (id Hs) as (n & a & Ha & Hq & _). destruct (po_area _ Hw _ _ Ha) as [Hok _].
  pose proof (ao_base _ _ _ Hok). pose proof (ao_top _ _ _ Hok). split; [lia|].
  intros m b o Hb (Hqb & _ & t & Ht & Hlt & _). assert (state w q t) as Ht' by (by exists m, b).
  pose proof (state_unique w Hw _ _ _ Hs Ht'). lia.
Qed.
Lemma wp_clear_bytes w p n : pages_ok w → 0 < p → 0 < n → (∀ b, p ≤ b < p + n → page_busy w b) →
  wp (clear_bytes p n) (λ _ w', pages_ok w' ∧ ∀ b, page_busy w' b ↔ page_busy w b) w.
Proof.
  intros [Hw Hl] Hp Hn Hb. unfold clear_bytes. set (first := (p + (PAGE_SIZE - 1)) / PAGE_SIZE).
  set (k := (p + n - 1) / PAGE_SIZE - first + 1).
  assert (∀ q, first ≤ q < first + k → ∃ s, used w q s) as Hu.
  { intros q Hq. destruct (Hb (q * PAGE_SIZE)) as (s & Hs).
    - unfold k, first, PAGE_SIZE in *. Z.div_mod_to_equations. lia.
    - exists s. by rewrite Z.div_mul in Hs. }
  assert (0 ≤ first) as Hf0 by (unfold first, PAGE_SIZE; Z.div_mod_to_equations; lia).
  apply wp_on_list. eapply wp_mono.
  - apply wp_clear_pages; [done|]. destruct (decide (0 < k)) as [Hk|].
    + rewrite Z2Nat.id by lia. destruct (Hu (first + k - 1)) as (s & Hs); [lia|]. destruct (used_range _ _ _ Hw Hs). lia.
    + destruct (Hb (p + n - 1)) as (s & Hs); [lia|]. destruct (used_range _ _ _ Hw Hs).
      assert (first ≤ (p + n - 1) / PAGE_SIZE + 1) by (unfold first, PAGE_SIZE; Z.div_mod_to_equations; lia).
      replace (Z.to_nat k) with 0%nat by lia. lia.
  - intros [] h' Hf. assert (∀ q s, state (with_heap h' w) q s ↔ state w q s) as Hst by (intros; by apply same_state).
    split; [split; [|done]|by intros b; unfold page_busy, used; setoid_rewrite Hst].
    apply (same_pool w); [done..|]. intros m b Hm. destruct (po_area _ Hw _ _ Hm) as [Hok _].
    eapply rings_avoid; [apply Hok|exact Hf|]. intros x (q & -> & Hq)%list_elem_of_fmap. exists q. split; [done|].
    apply elem_of_seqZ in Hq. destruct (Hu q) as (s & Hs); [lia|]. intros o. by eapply used_range.
Qed.
#[global] Instance page_allocator : Allocator page_alloc_ops clear_bytes :=
  @Build_Allocator pool page_alloc_ops clear_bytes pages_ok page_busy awp_page_memalign wp_clear_bytes.
