(* ===== verification/KutMallocProps.v ===== *)
(** * kvm-unit-tests: the theorems on [malloc] and the early allocator *)

From S2P Require Import Prelude KutList KutAlloc KutBlocks KutFree KutArea KutSplit KutPool KutPages KutInit KutClient KutPhys KutMalloc.

(** ** The early allocator from the start *)
Definition boot : phys := Phys ∅ 0 0 0 0 false false.
(** Setting up a range, and asking for a minimum alignment. *)
Lemma phys_setup s start size k : phys_locked s = false → align_min s = 0 → 0 ≤ start → 0 ≤ size → start + size ≤ 2 ^ 62 →
  0 ≤ k < 62 → ∃ s', (phys_alloc_init start size;; phys_alloc_set_minimum_alignment (2 ^ k)) s = Done (tt, s') ∧
    phys_ok s' ∧ phys_base s' = start ∧ phys_top s' = start + size ∧ align_min s' = 2 ^ k.
Proof.
  intros Hl Ha Hs Hz Ht Hk. pose proof (pow2_pos k). unfold phys_alloc_init, phys_alloc_set_minimum_alignment, phys_unlock.
  match goal with |- ∃ s', ?m s = _ ∧ _ => enough (wp m (λ _ s', phys_ok s' ∧ phys_base s' = start ∧
    phys_top s' = start + size ∧ align_min s' = 2 ^ k) s) as Hwp end.
  { destruct (wp_inv _ _ _ Hwp) as ([] & s' & ? & ?). by exists s'. }
  wps. apply wp_phys_lock; [done|]. wps. apply owp_assert.
  { change (pow2_mask (2 ^ k)) with (is_power_of_2 (2 ^ k)). rewrite power_of_2, Z.log2_pow2 by lia. apply Z.eqb_refl. }
  apply wp_bind, wp_phys_lock; [done|]. wps. simpl. rewrite u64_small by (unfold in_u64; lia).
  split; [|done]. split; simpl; try done; [lia|]. right. by exists k.
Qed.
(** The rest of the range is handed over whole, and what is in use stays. *)
Lemma get_unused_takes_rest s : phys_ok s → phys_base s < phys_top s → nr_regions s < PHYS_ALLOC_NR_REGIONS →
  ∃ s', phys_alloc_get_unused s = Done ((phys_base s, phys_top s), s') ∧ phys_ok s' ∧ phys_base s' = phys_top s ∧
    regions s' !! nr_regions s = Some (phys_base s, phys_top s - phys_base s).
Proof.
  intros [Hr Ht Ha Hlog Hl] Hlt Hn. unfold phys_alloc_get_unused, phys_unlock, log_region.
  match goal with |- ∃ s', ?m s = _ ∧ _ => enough (wp m (λ r s', r = (phys_base s, phys_top s) ∧ phys_ok s' ∧
    phys_base s' = phys_top s ∧ regions s' !! nr_regions s = Some (phys_base s, phys_top s - phys_base s)) s) as Hwp end.
  { destruct (wp_inv _ _ _ Hwp) as (r & s' & ? & -> & ?). by exists s'. }
  wps. apply wp_get. wps. rewrite (proj2 (Z.eqb_neq _ _)) by lia. wps. apply wp_phys_lock; [done|]. wps. apply wp_get.
  cbn [nr_regions phys_with_lock]. rewrite (proj2 (Z.leb_le 0 _)), (proj2 (Z.ltb_lt _ _)) by lia.
  rewrite u64_small by (unfold in_u64; lia). split; [done|]. simpl. split; [|by rewrite lookup_insert_eq].
  split; simpl; try done; lia.
Qed.

(** ** [malloc] *)

(** C15. [malloc] and [calloc] over any allocator. For an allocator that
    keeps the promise of the interface, as the early and the page allocator do,
    [malloc] of nothing is NULL, and [malloc], [calloc] and [memalign] of at most [2^63] bytes
    either end the program (no memory) or return memory that is
    aligned (to 8 bytes for [malloc] and [calloc]), was not in use, is in use
    now, and takes nothing from what was in use before; the allocator is left
    sound. [calloc] ends the program when the product overflows. *)
Theorem malloc_contract {W} (ops : alloc_ops W) clear `{!Allocator ops clear} w k nmemb size :
  sound w → 0 ≤ k < 62 → 0 ≤ nmemb → 0 < size ≤ 2 ^ 63 →
  malloc ops 0 w = Done (0, w) ∧
  (malloc ops size w = Abort ∨ ∃ p w', malloc ops size w = Done (p, w') ∧ sound w' ∧
    fresh_memory (busy w) (busy w') 8 p size) ∧
  (memalign ops (2 ^ k) size w = Abort ∨ ∃ p w', memalign ops (2 ^ k) size w = Done (p, w') ∧ sound w' ∧
    fresh_memory (busy w) (busy w') (2 ^ k) p size) ∧
  (0 < nmemb * size ≤ 2 ^ 63 → calloc ops clear nmemb size w = Abort ∨
    ∃ p w', calloc ops clear nmemb size w = Done (p, w') ∧ sound w' ∧
      fresh_memory (busy w) (busy w') 8 p (nmemb * size)) ∧
  (2 ^ 64 ≤ nmemb * size → calloc ops clear nmemb size w = Abort).
Proof.
  intros Hw Hk Hn Hs. split; [done|]. split; [|split; [|split]].
  - by apply awp_inv, awp_malloc.
  - by apply awp_inv, awp_memalign.
  - intros Hm. by apply awp_inv, awp_calloc.
  - intros Hm. unfold calloc. by rewrite (proj2 (Z.ltb_ge _ _)).
Qed.
(** The early allocator with one page from address 100 on. *)
Definition early_demo : phys := Phys ∅ 0 100 4196 32 false false.
Lemma early_demo_ok : phys_ok early_demo.
Proof. split; simpl; [lia|lia|right; by exists 5|unfold PHYS_ALLOC_NR_REGIONS; lia|done]. Qed.
Lemma malloc_contract_witness :
  (∃ w', malloc early_alloc_ops 10 early_demo = Done (128, w') ∧ fresh_memory (phys_busy early_demo) (phys_busy w') 8 128 10) ∧
  calloc early_alloc_ops early_clear (2 ^ 33) (2 ^ 33) early_demo = Abort.
Proof.
  split.
  - destruct (@malloc_contract phys early_alloc_ops early_clear early_allocator early_demo 3 1 10 early_demo_ok ltac:(lia) ltac:(lia) ltac:(lia))
      as (_ & [Ha|(p & w' & Hr & _ & Hf)] & _); [vm_compute in Ha; discriminate Ha|].
    exists w'. assert (p = 128) as ->; [|split; [exact Hr|exact Hf]].
    assert (match malloc early_alloc_ops 10 early_demo with Done (x, _) => x | _ => 0 end = 128) as E by (vm_compute; reflexivity).
    rewrite Hr in E. exact E.
  - destruct (@malloc_contract phys early_alloc_ops early_clear early_allocator early_demo 3 (2 ^ 33) (2 ^ 33) early_demo_ok ltac:(lia) ltac:(lia) ltac:(lia))
      as (_ & _ & _ & _ & H). apply H. lia.
Defined.
(** On the page allocator [malloc] ends the program exactly when no area has a
    block that is big enough in a list that is searched. *)
Lemma malloc_pages_total w size : pages_ok w → 0 < size ≤ 2 ^ 63 →
  ¬ exhausted w (areas_mask w) (size_order size) →
  ∃ p w', malloc page_alloc_ops size w = Done (p, w') ∧ pages_ok w' ∧ fresh_memory (page_busy w) (page_busy w') 8 p size.
Proof.
  intros Hw Hs Hne. destruct (awp_inv _ _ _ (@awp_malloc pool page_alloc_ops clear_bytes page_allocator w size Hw Hs)) as [Ha|(p & w' & ? & ? & ?)]; [exfalso|by exists p, w'].
  destruct Hw as [Hok Hl]. destruct (wp_inv _ _ _ (wp_memalign_pages w 3 size AREA_ANY Hok Hl ltac:(lia) Hs eq_refl))
    as (r & w' & Hr & _ & _ & Hres). revert Ha. unfold malloc, memalign, SIZEOF_LONG. rewrite (proj2 (Z.eqb_neq size 0)) by lia.
  cbn [op_memalign page_alloc_ops]. unfold memalign_pages. change 8 with (2 ^ 3). rewrite power_of_2, Z.log2_pow2, Z.eqb_refl by lia.
  unfold mbind, C_bind, lift, assert_. rewrite Hr. destruct r as [l|].
  - destruct Hres as (p & -> & _ & Hh & _). cbn [address page]. destruct (Z.eqb_spec (p * PAGE_SIZE) 0) as [E|]; [|done].
    assert (p = 0) as -> by (unfold PAGE_SIZE in E; lia). intros _.
    destruct (ho_free _ _ _ _ Hh 0) as (s & (n & a & Hoa & Hp & _) & _).
    { destruct (size_order_up size Hs). pose proof (pow2_pos (size_order size)). lia. }
    destruct (po_area _ Hok _ _ Hoa) as [Hoka _]. pose proof (ao_base _ _ _ Hoka). lia.
  - intros _. apply Hne. destruct Hres as [_ Hex].
    change (size_order (2 ^ 3)) with 0 in Hex. destruct (size_order_up size Hs). rewrite Z.max_r in Hex by lia. exact Hex.
Qed.

(** ** Runs *)
(** A size that wraps with the padding is taken for nothing. *)
Example early_size_wraps :
  match phys_alloc_aligned_safe (2 ^ 64 - 28) 128 true early_demo with Done (a, s) => Some (a, phys_base s) | _ => None end
    = Some (128, 100).
Proof. vm_compute. reflexivity. Qed.
(** With 256 allocations logged, handing over the rest writes past the log. *)
Example log_overrun : phys_alloc_get_unused (Phys ∅ 256 100 4196 32 true false) = Undef.
Proof. vm_compute. reflexivity. Qed.
(** Initialising does not set the minimum alignment. *)
Example no_default_alignment :
  match (phys_alloc_init 100 4096;; phys_alloc_aligned_safe 3 1 true) boot with Done (a, s) => Some (a, align_min s) | _ => None end
    = Some (100, 0).
Proof. vm_compute. reflexivity. Qed.
